(* ===== verification/_CoqProject ===== *)
-Q . S2P
Prelude.v
GoStrings.v
GoUnicode.v
GoRegexp.v
GoPath.v
GoConv.v
GoHash.v
GoTime.v
GoUrl.v
GoMime.v
GoMux.v
GoNet.v
GoOs.v
GoJson.v
GoServe.v
Sanitise.v
Storage.v
Local.v
S3.v
TempFiles.v
Signer.v
Models.v
LockSet.v
LockStore.v
SharedDir.v
Config.v
ConfigLoad.v
Auth.v
Batch.v
Handler.v
Middleware.v
HandlerProofs.v
LockHandlers.v
Frames.v
Parts.v
LockProtocol.v
FileLocks.v
EndToEnd.v
UploadBody.v
Routes.v
Startup.v
Cli.v
Server.v
Responses.v
Metrics.v
Deployment.v
Serve.v
Upkeep.v
Samples.v
ServerSamples.v
