(* ===== verification/Prelude.v ===== *)
(** * Anchor LFS: a verification library for the Git LFS server

    Anchor LFS is a Git LFS server: it answers the batch requests of Git clients,
    stores objects on the local file system or in an S3 bucket, keeps file locks,
    and asks GitHub who may do what.  This library models it in Rocq and proves what
    makes it correct.  Definitions follow the Go source under src/, file by file and
    function by function, and keep its names in snake case; they are executable, so
    that the witnesses of the theorems run them on concrete requests.

    ** The parts and how they interact

    A request goes through the middlewares (Middleware.v) to the multiplexer
    (GoMux.v, Routes.v), which gives it to a handler of one endpoint (Handler.v).
    The batch, lock and transfer handlers ask an authenticator (Auth.v) or check a
    signed URL (Signer.v), read JSON messages (Models.v, GoJson.v), and call a
    storage backend (Storage.v; Local.v, S3.v) or the lock store (LockStore.v,
    LockSet.v).  Endpoints come from the configuration (Config.v, ConfigLoad.v), and
    their paths become directory names in one place (Sanitise.v).  Startup.v, Cli.v
    and TempFiles.v are what happens around requests: the signing key, readiness,
    commands, and sweeping temporary files.  Server.v puts all of it together: a
    request from the network to its answer, and sequences of requests over one world
    that all endpoints share.  Deployment.v is that world and the handlers as main.go
    builds them, Serve.v the life of the process from its configuration to its exit
    code, Upkeep.v its sweeper and its restarts, and Metrics.v what observes the
    requests.

    ** Files

    Go's standard library, as far as the source uses it:
    - Prelude.v: byte strings ([gostring]), results, machine integers at their width
      ([wrap_int64], [saturate]), tactics, hint databases, generic lemmas;
    - GoStrings.v, GoUnicode.v, GoRegexp.v, GoPath.v, GoConv.v, GoHash.v, GoTime.v,
      GoUrl.v, GoMime.v, GoNet.v, GoJson.v: packages strings, unicode/utf8, regexp,
      path and path/filepath, strconv and encoding, crypto, time, net/url, mime, net,
      encoding/json/v2;
    - GoMux.v: the patterns and the routing tree of [http.ServeMux];
    - GoServe.v: [http.ServeContent] and [io.Copy] to a response: the conditional and
      the range headers, their answers 200, 206, 304, 412, 416 and 500, and of a
      transfer that is cut off the part that was sent ([transfer]);
    - GoOs.v: errors as lists of the sentinels [errors.Is] finds in them, of which a
      failing system call has none of the program's own, readers as what their
      successive reads return, and files: a map from paths to data with modification
      times and inode numbers, which may come back, a clock, free space, and an oracle
      of faults from which every call reads whether it fails.  A theorem about every
      world is one about every pattern of failures and of inode numbers.

    The server, each file with its state, operations, invariant and theorems:
    - Sanitise.v (internal/sanitise/endpoint.go), Storage.v (storage/adapter.go,
      oid.go), Local.v (storage/local.go, local_unix.go), S3.v (storage/s3.go),
      TempFiles.v (storage/tempfiles.go);
    - Signer.v, Models.v, LockSet.v and LockStore.v, Batch.v, Handler.v (lfs/signer.go,
      models.go, locks.go with filelock_unix.go, batch.go, handler.go), UploadBody.v
      (lfs/idle.go, body.go);
    - Config.v and ConfigLoad.v (config/config.go); Auth.v (auth/authenticator.go,
      none.go, github.go); Middleware.v (middleware/proxy.go, requestid.go,
      ratelimit.go);
    - Routes.v and Startup.v (main.go, readiness.go), Cli.v (cli.go and the
      healthcheck command of readiness.go);
    - LockProtocol.v (filelock_unix.go, filelock_windows.go, the locking of locks.go):
      the steps of an operation on the locks, over all processes;
    - Metrics.v (internal/metrics/metrics.go, middleware/logging.go, [serverHandler] of
      main.go);
    - Deployment.v, Serve.v and Upkeep.v (main.go: [serve], [serveMetrics], [awaitStop],
      [sweepTempFiles]).

    And what is proved of them together:
    - SharedDir.v, Frames.v, Parts.v: which files an operation touches, that handlers
      keep what their collaborators keep, and collaborators that work on a part of a
      larger world;
    - HandlerProofs.v, LockHandlers.v, Responses.v: what the handlers guarantee of the
      store, of the locks, and of their answers;
    - FileLocks.v and EndToEnd.v: the lock store behind its interface, and a transfer
      with local storage; Server.v: every sequence of requests;
    - Samples.v and ServerSamples.v: a concrete handler and a concrete server, and the
      witnesses of the theorems about them.

    ** Interfaces

    Clients are proved against what a component promises, and components are shown to
    keep it:
    - [Adapter] is the record of a backend's operations and [AdapterLaws] its
      specification, a content-addressed map from (directory, object ID) to bytes, in
      Storage.v.  Local.v and S3.v have instances; Batch.v and HandlerProofs.v use
      only the laws.
    - [LockStore] and [LockLaws] (Handler.v, LockHandlers.v) are the lock store as the
      handlers see it; FileLocks.v has the instance for the file lock store.
    - [AuthKeeps] (HandlerProofs.v) says that authenticating keeps a relation;
      [AdapterReads], [AdapterPuts], [LockStoreLists], [LockStoreWrites] (Frames.v) say
      it of the other collaborators.  [HandlerLaws] (Server.v) is all a handler asks of
      them over one world; Server.v uses only that, and [new_handler_laws] of
      Deployment.v shows it of the server that main.go builds.
    - [PartLaws] (Parts.v) lifts a collaborator over its own state to the server's.
    - [AdapterSizes] (Storage.v) says that a backend reports the size of the data it
      hands out; local storage does, S3 does if its API does ([S3Lengths]).
    - [S3Laws] (S3.v) states what the S3 API documents, [UnicodeLaws] the few entries
      of the case tables the code depends on, [TomlLaws] that the decoder keeps
      integers to their Go types.  Each has a concrete instance the witnesses use.

    State is passed explicitly.  The lock store's cached sets are shared by pointer
    and mutated in place, so they live in a heap and aliasing is modelled.  Where the
    source is concurrent there are steps: [Auth.step] for requests that share lookups,
    [batch_step] for the sixteen objects in flight, [sys_step] of LockStore.v for
    several processes on one directory, whose operations are atomic there, and
    [LockProtocol.step] for the same operations call by call, which is why they may be.
    Every reading of the clock or of the random source is an argument.

    ** What the theorems show

    - The whole server: after any requests in any order, and whatever fails, every
      object is stored under its own hash and none is lost, and what is new was put by
      a signed PUT to its own endpoint ([server_store_safe]); locks come and go only by
      authorised requests to their own endpoint ([server_locks_safe]); what a PUT took
      is what a later GET gives, up to where its transfer is cut off
      ([server_round_trip]).  Objects and locks survive as
      many lives of the server as there are on one data directory, with any
      configurations, starts that fail, and the sweeper between requests
      ([data_survives_restarts]).
    - The process: it listens and serves only once everything was checked and made; a
      start that fails has not served, unless it is the listener of the metrics that
      fails; what requests use is closed once, after the shutdown has returned, and
      after the connections were closed if its time was up; the exit code is 0 exactly
      after a signal and a shutdown in time ([serve_protocol]); endpoints of one API
      share one authenticator, and no other does ([authenticators_shared]).
    - Answers: every handler answers with a status and a message of its route's type,
      a download with every status of [http.ServeContent] ([responses_typed]); metrics
      and access log change no answer, though the handlers read the body through the
      metrics' counter, and the labels of the metrics are the registered routes
      whatever clients send but CONNECT and [*] ([observers_harmless]).
    - Transfers: an upload changes the store only with a valid signature, by at most
      one object of the handler's endpoint, stored under its own hash
      ([upload_handler_safe]); what downloads and verifications answer is true of the
      stored object, be it the whole, ranges of it or that the client's copy is current
      ([transfers_truthful]); the links of batch responses work until they expire and
      bring back the bytes that were put ([batch_links_verify],
      [transfer_roundtrip]); a stalled upload ends with 408 and leaves nothing
      ([stalled_upload]); signatures are sound ([verify_sound]).
    - Batches: only for who is authorised, and only with space for the uploads
      ([batch_handler_authorised]); each answer is true of the store
      ([batch_object_truthful]), the answers are in the order of the request under
      every schedule ([batch_in_order]), and a batch ends ([batch_ends]).
    - Storage: a put stores the right bytes or nothing, under every fault
      ([local_put_safe], [s3_put_safe]), with the calls in the documented order
      ([s3_put_protocol]), and succeeds when nothing fails ([local_put_functional],
      [s3_put_progress]); presigned uploads are bound to their size and hash
      ([s3_presign_put_binds]); the sweep removes exactly the stale temporary files
      and never one being written ([sweep_exact], [sweep_spares_live]).
    - Locks: the store refines a map of locks over any interleaving of processes, for
      [List] in several processes if inode number, time and size together tell a lock
      file from the one it replaced ([metadata_identifies]; [lock_store_refines], [lock_store_invariant], [lock_store_progress]); sets keep
      their order and indexes, lists are the filtered, sorted set, and following the
      cursors visits every lock once ([lock_set_operations], [lock_set_list_spec],
      [lock_pagination_complete]); the handlers create, list and remove only what
      they may ([create_lock_handler_safe], [list_handlers_truthful],
      [unlock_handler_safe]).  Operations on the locks of an endpoint, step by step in
      many processes on Unix or on Windows, leave what they leave one after the other,
      and none waits for ever ([lock_operations_serial], [lock_operations_end]).
    - Access: GitHub's authenticator authorises only what GitHub reported for that
      token and repository ([github_authorises_only_reported]), from answers that are
      still fresh ([cached_access_is_fresh], [cached_authentication_repeats]), and
      shared lookups reach all that wait ([shared_lookup_reaches_waiters]);
      [retry_after_overflows] shows a wait that overflows.
    - Configuration and routing: endpoints of a configuration that loads never share a
      directory, settings are in range ([loaded_endpoints_separate],
      [loaded_settings_in_range]); registering the routes never panics and every
      request reaches the handler of its own endpoint ([routes_dispatch]);
      middlewares remove what a client may not say ([middlewares_guard]);
      [base_url_host] is what a forwarded host can do to a URL.
    - Running: the signing key persists ([signing_key_persists], which also shows how
      a failed write blocks later starts), readiness is checked at most once per
      lifetime ([readiness_cached]), commands exit as documented and print no secret
      ([commands_exit]).

    ** Bounds and fuel

    Loops whose recursion is not structural take fuel, which is shown or chosen to be
    enough: [parts_fuel] is two more than the parts S3 allows, and [s3_put_total]
    shows that the loop ends within it; [bsearch] gets the length of the slice
    ([bsearch_rank]); [chop] and the JSON and duration parsers get the length of
    their input, of which every round takes at least a byte ([parse_print] for JSON);
    [all_pages] gets more than the number of locks.  Integers are [Z], wrapped or
    saturated where Go does; durations that become floating-point seconds go through
    the standard library's binary64.  Counting the bytes of a body is in int64, which
    is exact for bodies below 2^63 bytes ([plausible]); [counted_body] reads once more
    than there are chunks ([read_through_body]).  The list of tags in a conditional
    header gets its length ([any_etag_fuel]).

    ** Parameters

    Code that is not the server's or Go's: the GitHub API, the S3 API and its signer,
    the TOML decoder and encoder, the real-IP library, the rate limiter's store.  Also
    data and syntax of the standard library of which only a few facts matter: the case
    tables of Unicode beyond ASCII, IPv6 literals, [net/netip], and which quality
    values parse to zero.

    ** Not modelled, and why

    Requests of Server.v are answered one after the other.  Where two handlers share
    state their interleaving is proved for the parts that guard it, the lock store, the
    GitHub cache and a batch, but not of whole handlers at once; and the sweeper runs
    between requests, not during one.  A server stops between requests too, so what an
    upload cut off by a crash leaves is not followed further; what handlers do that
    still run when a shutdown gave up waiting is not either.  Clients that use presigned URLs put
    objects into S3 themselves, which is no request to the server.

    The log, its formats and levels, and [configureLogging] are zerolog's.  The
    Prometheus library and httpsnoop are where the calls of Metrics.v go and what
    they report.  The redirects of net/http's multiplexer and its CONNECT requests, its
    timeouts, TLS and connections are its own.  local_windows.go calls the Windows API
    for the free space.  Building the S3 and GitHub HTTP clients is the libraries'
    own.  Of a handler's context only one value is kept per call, not one per moment.
    Directories have no entries of their own: [MkdirAll] may fail but not be missing.
    The JSON decoder's limit on nesting is left out.

    ** Plan

    In order: handlers interleaved at their calls on the store and the locks; crashes
    in the middle of an operation; several servers on one data directory at once; the
    transfer theorem over S3; cancellation of a context during an operation. *)

From Stdlib Require Export Ascii ZArith Lia.
From stdpp Require Export base tactics gmap strings option numbers.
From stdpp Require Export list.

(** ** Go strings

    A Go [string] (and a [[]byte]) is a sequence of bytes: a list of 8-bit
    [ascii] values.  Literals are written ["text"%go]. *)

Abbreviation gostring := (list ascii).

Declare Scope go_scope.
Delimit Scope go_scope with go.

Definition go_of_bytes (l : list Byte.byte) : gostring := map ascii_of_byte l.
Definition go_to_bytes (l : gostring) : option (list Byte.byte) :=
  Some (map byte_of_ascii l).

String Notation gostring go_of_bytes go_to_bytes : go_scope.

#[global] Open Scope Z_scope.

(** ** Results

    [result E A] is a Go call returning [(A, error)] of which exactly one is
    meaningful. *)

Inductive result (E A : Type) : Type :=
| Ok (a : A)
| Err (e : E).
Arguments Ok {E A} a.
Arguments Err {E A} e.

Declare Scope result_scope.
Delimit Scope result_scope with result.

Notation "'let?' x := c 'in' k" :=
  (match c with Ok x => k | Err e => Err e end)
  (at level 10, x name, c at level 100, k at level 200) : result_scope.

#[global] Open Scope result_scope.

Definition is_ok {E A} (r : result E A) : bool :=
  match r with Ok _ => true | Err _ => false end.

Definition is_some {A} (o : option A) : bool :=
  match o with Some _ => true | None => false end.

(** [option_result o e] is the value of [o], or the error [e]. *)
Definition option_result {E A} (o : option A) (e : E) : result E A :=
  match o with Some a => Ok a | None => Err e end.

(** ** Tactics of the development *)

(** Case analysis on the scrutinee of every [match] and [if] in sight. *)
Ltac case_all :=
  repeat (case_match; simplify_eq/=; try done).

(** The [bool] comparisons of the model, turned into propositions. *)
Ltac to_prop :=
  repeat match goal with
  | H : andb _ _ = true |- _ => apply andb_true_iff in H; destruct H
  | H : andb _ _ = false |- _ => apply andb_false_iff in H
  | H : orb _ _ = true |- _ => apply orb_true_iff in H
  | H : orb _ _ = false |- _ => apply orb_false_iff in H; destruct H
  | H : negb _ = true |- _ => apply negb_true_iff in H
  | H : negb _ = false |- _ => apply negb_false_iff in H
  | H : bool_decide _ = true |- _ => apply bool_decide_eq_true in H
  | H : bool_decide _ = false |- _ => apply bool_decide_eq_false in H
  | H : (_ =? _)%Z = true |- _ => apply Z.eqb_eq in H
  | H : (_ =? _)%Z = false |- _ => apply Z.eqb_neq in H
  | H : (_ <=? _)%Z = true |- _ => apply Z.leb_le in H
  | H : (_ <=? _)%Z = false |- _ => apply Z.leb_gt in H
  | H : (_ <? _)%Z = true |- _ => apply Z.ltb_lt in H
  | H : (_ <? _)%Z = false |- _ => apply Z.ltb_ge in H
  | H : (_ =? _)%nat = true |- _ => apply Nat.eqb_eq in H
  | H : (_ =? _)%nat = false |- _ => apply Nat.eqb_neq in H
  | H : (_ <=? _)%nat = true |- _ => apply Nat.leb_le in H
  | H : (_ <=? _)%nat = false |- _ => apply Nat.leb_gt in H
  | H : (_ <? _)%nat = true |- _ => apply Nat.ltb_lt in H
  | H : (_ <? _)%nat = false |- _ => apply Nat.ltb_ge in H
  | H : Ascii.eqb _ _ = true |- _ => apply Ascii.eqb_eq in H
  | H : Ascii.eqb _ _ = false |- _ => apply Ascii.eqb_neq in H
  end.

(** Hint databases: [go] resolves the well-formedness side conditions of the
    library, [go_rw] holds its rewriting equations. *)
Create HintDb go.
Create Rewrite HintDb go_rw.

(** ** Bytes *)

Definition byte_val (c : ascii) : Z := Z.of_N (N_of_ascii c).
Definition byte_of (z : Z) : ascii := ascii_of_N (Z.to_N (z mod 256)).

(** Every byte, to decide a property of all 256 of them by computation. *)
Definition all_bytes : list ascii := map ascii_of_nat (seq 0 256).

Lemma elem_of_all_bytes c : c ∈ all_bytes.
Proof.
  unfold all_bytes. apply list_elem_of_In, in_map_iff. exists (nat_of_ascii c). split.
  - apply ascii_nat_embedding.
  - apply in_seq. pose proof (nat_ascii_bounded c). lia.
Qed.

(** A decidable property of bytes holds when it holds on [all_bytes]. *)
Lemma forall_bytes (P : ascii → bool) :
  forallb P all_bytes = true → ∀ c, P c = true.
Proof.
  intros H c. rewrite forallb_forall in H. apply H, list_elem_of_In, elem_of_all_bytes.
Qed.

Lemma forall_bytes2 (P : ascii → ascii → bool) :
  forallb (λ a, forallb (P a) all_bytes) all_bytes = true → ∀ a b, P a b = true.
Proof.
  intros H a. apply forall_bytes.
  revert a. exact (forall_bytes (λ a, forallb (P a) all_bytes) H).
Qed.

Lemma byte_val_bounds c : 0 <= byte_val c < 256.
Proof.
  unfold byte_val. pose proof (N_ascii_bounded c). lia.
Qed.

Lemma byte_val_of z : 0 <= z < 256 → byte_val (byte_of z) = z.
Proof.
  intros Hz. unfold byte_val, byte_of. rewrite Z.mod_small by lia.
  rewrite N_ascii_embedding; lia.
Qed.

Lemma byte_of_val c : byte_of (byte_val c) = c.
Proof.
  unfold byte_val, byte_of. pose proof (N_ascii_bounded c).
  rewrite Z.mod_small by lia. rewrite N2Z.id. apply ascii_N_embedding.
Qed.

#[export] Instance byte_val_inj : Inj (=) (=) byte_val.
Proof. intros a b H. by rewrite <-(byte_of_val a), H, byte_of_val. Qed.

Lemma byte_eqb_refl c : Ascii.eqb c c = true.
Proof. apply Ascii.eqb_refl. Qed.

#[export] Hint Rewrite byte_eqb_refl byte_of_val : go_rw.

(** ** Machine integers

    [int64] and [uint64] values are [Z] in range; [wrap_int64] and
    [wrap_uint64] are the two's complement reductions of Go's arithmetic. *)

Definition max_int64 : Z := 9223372036854775807.
Definition min_int64 : Z := -9223372036854775808.
Definition max_uint64 : Z := 18446744073709551615.

Definition wrap_uint64 (z : Z) : Z := z mod 18446744073709551616.
Definition wrap_int64 (z : Z) : Z :=
  (z + 9223372036854775808) mod 18446744073709551616 - 9223372036854775808.

Definition in_int64 (z : Z) : Prop := min_int64 <= z <= max_int64.
Definition in_uint64 (z : Z) : Prop := 0 <= z <= max_uint64.

Lemma wrap_int64_id z : in_int64 z → wrap_int64 z = z.
Proof.
  unfold in_int64, wrap_int64, min_int64, max_int64. intros H.
  rewrite Z.mod_small; lia.
Qed.

Lemma wrap_int64_range z : in_int64 (wrap_int64 z).
Proof.
  unfold in_int64, wrap_int64, min_int64, max_int64.
  pose proof (Z.mod_pos_bound (z + 9223372036854775808) 18446744073709551616). lia.
Qed.

Lemma wrap_uint64_id z : in_uint64 z → wrap_uint64 z = z.
Proof.
  unfold in_uint64, wrap_uint64, max_uint64. intros H. apply Z.mod_small. lia.
Qed.

Lemma wrap_uint64_range z : in_uint64 (wrap_uint64 z).
Proof.
  unfold in_uint64, wrap_uint64, max_uint64.
  pose proof (Z.mod_pos_bound z 18446744073709551616). lia.
Qed.

(** [all_below P n] tests [P] on the integers [0 .. n-1]. *)
Fixpoint all_from (P : Z → bool) (fuel : nat) (i : Z) : bool :=
  match fuel with O => true | S f => P i && all_from P f (i + 1) end.
Definition all_below (P : Z → bool) (n : Z) : bool := all_from P (Z.to_nat n) 0.

Lemma all_from_true P fuel i :
  all_from P fuel i = true → ∀ d, i <= d < i + Z.of_nat fuel → P d = true.
Proof.
  revert i. induction fuel as [|f IH]; intros i H d Hd; [lia|].
  simpl in H. apply andb_prop in H as [Hi Hf].
  destruct (Z.eq_dec d i) as [->|]; [done|]. apply (IH (i + 1)); [done|lia].
Qed.

(** A property of the first [n] integers, checked one by one. *)
Lemma forall_below P n : all_below P n = true → ∀ d, 0 <= d < n → P d = true.
Proof. intros H d Hd. apply (all_from_true P (Z.to_nat n) 0); [done|lia]. Qed.

(** ** Lists *)

(** [last_or d l] is the last element of [d :: l]. *)
Fixpoint last_or {A} (d : A) (l : list A) : A :=
  match l with [] => d | x :: l' => last_or x l' end.

Lemma last_or_app {A} (d x : A) l : last_or d (l ++ [x]) = x.
Proof. revert d. induction l as [|y l IH]; simpl; auto. Qed.

Lemma last_or_snoc {A} (d : A) l :
  l ≠ [] → ∃ l' , l = l' ++ [last_or d l].
Proof.
  revert d. induction l as [|x l IH]; intros d Hne; [done|].
  destruct l as [|y l]; [by exists []|].
  destruct (IH x) as [l' Hl']; [done|].
  exists (x :: l'). simpl in *. by rewrite <-Hl'.
Qed.

Lemma forallb_Forall {A} (p : A → bool) l :
  forallb p l = true ↔ Forall (λ x, p x = true) l.
Proof.
  induction l as [|x l IH]; simpl; [by split; [constructor|]|].
  rewrite Forall_cons, <-IH. apply andb_true_iff.
Qed.

Lemma forallb_mono {A} (p q : A → bool) l :
  (∀ x, p x = true → q x = true) → forallb p l = true → forallb q l = true.
Proof. rewrite !forallb_Forall. intros H Hp. eapply Forall_impl; eauto. Qed.

Lemma take_drop_app {A} (l1 l2 : list A) :
  take (length l1) (l1 ++ l2) = l1 ∧ drop (length l1) (l1 ++ l2) = l2.
Proof. split; [apply take_app_length | apply drop_app_length]. Qed.

Lemma app_inj_suffix {A} (l1 l2 k1 k2 : list A) :
  length k1 = length k2 → l1 ++ k1 = l2 ++ k2 → l1 = l2 ∧ k1 = k2.
Proof. intros Hl H. by apply app_inj_2. Qed.

Lemma elem_of_list_insert {A} (l : list A) i (x y : A) : x ∈ <[i := y]> l → x = y ∨ x ∈ l.
Proof.
  intros (j & Hj)%list_elem_of_lookup_1. apply list_lookup_insert_Some in Hj as [(_ & -> & _)|[_ Hj]];
    [by left|right; by eapply list_elem_of_lookup_2].
Qed.
