(* ===== verification/GoStrings.v ===== *)
(** * The functions of Go's [strings] package on bytes

    Byte classes, prefixes and suffixes, splitting and joining, trimming by an
    ASCII cutset, and the byte-wise order of [strings.Compare].  The
    functions that fold case or look at runes are in [GoUnicode]. *)

From S2P Require Import Prelude.

Local Open Scope go_scope.

(** ** Byte classes *)

Definition byte_in (lo hi : ascii) (c : ascii) : bool :=
  (byte_val lo <=? byte_val c) && (byte_val c <=? byte_val hi).

Definition is_digit : ascii → bool := byte_in "0"%char "9"%char.
Definition is_upper : ascii → bool := byte_in "A"%char "Z"%char.
Definition is_lower : ascii → bool := byte_in "a"%char "z"%char.
Definition is_alnum (c : ascii) : bool := is_lower c || is_upper c || is_digit c.
Definition is_hex (c : ascii) : bool :=
  is_digit c || byte_in "a"%char "f"%char c || byte_in "A"%char "F"%char c.
Definition is_ascii (c : ascii) : bool := byte_val c <? 128.

(** [lower_byte] maps the ASCII upper-case letters to lower case. *)
Definition lower_byte (c : ascii) : ascii :=
  if is_upper c then byte_of (byte_val c + 32) else c.

Definition eqb_byte (a : ascii) : ascii → bool := Ascii.eqb a.

(** ** Equality, prefixes and suffixes *)

Fixpoint str_eqb (s t : gostring) : bool :=
  match s, t with
  | [], [] => true
  | a :: s', b :: t' => Ascii.eqb a b && str_eqb s' t'
  | _, _ => false
  end.

(** [strings.HasPrefix] *)
Fixpoint has_prefix (p s : gostring) : bool :=
  match p, s with
  | [], _ => true
  | a :: p', b :: s' => Ascii.eqb a b && has_prefix p' s'
  | _ :: _, [] => false
  end.

(** [strings.HasSuffix] *)
Definition has_suffix (p s : gostring) : bool := has_prefix (rev p) (rev s).

(** [strings.ContainsRune] for a single-byte rune. *)
Definition contains_byte (c : ascii) (s : gostring) : bool := existsb (Ascii.eqb c) s.

(** ** Trimming by a set of bytes *)

(** [strings.TrimLeft] with a cutset of single-byte runes. *)
Fixpoint trim_left (cut : ascii → bool) (s : gostring) : gostring :=
  match s with
  | c :: s' => if cut c then trim_left cut s' else s
  | [] => []
  end.

(** [strings.TrimRight] with a cutset of single-byte runes. *)
Definition trim_right (cut : ascii → bool) (s : gostring) : gostring :=
  rev (trim_left cut (rev s)).

(** [strings.Trim] *)
Definition trim (cut : ascii → bool) (s : gostring) : gostring :=
  trim_right cut (trim_left cut s).

(** ** Splitting and joining *)

(** [strings.Split(s, sep)] for a one-byte separator: the pieces between the
    separators, at least one. *)
Fixpoint split_on (sep : ascii) (s : gostring) : list gostring :=
  match s with
  | [] => [[]]
  | c :: s' =>
      if Ascii.eqb c sep then [] :: split_on sep s'
      else match split_on sep s' with
           | [] => [[c]]
           | p :: ps => (c :: p) :: ps
           end
  end.

(** [strings.FieldsFunc]: the maximal non-empty runs of bytes outside [sep]. *)
Fixpoint fields (sep : ascii → bool) (cur : gostring) (s : gostring) : list gostring :=
  match s with
  | [] => match cur with [] => [] | _ => [rev cur] end
  | c :: s' =>
      if sep c
      then match cur with [] => fields sep [] s' | _ => rev cur :: fields sep [] s' end
      else fields sep (c :: cur) s'
  end.
Definition fields_func (sep : ascii → bool) (s : gostring) : list gostring := fields sep [] s.

(** [strings.Cut] at a one-byte separator; [None] when it is absent. *)
Fixpoint cut_at (sep : ascii) (s : gostring) : option (gostring * gostring) :=
  match s with
  | [] => None
  | c :: s' =>
      if Ascii.eqb c sep then Some ([], s')
      else match cut_at sep s' with
           | Some (before, after) => Some (c :: before, after)
           | None => None
           end
  end.

(** [strings.Join] *)
Fixpoint join (sep : gostring) (l : list gostring) : gostring :=
  match l with
  | [] => []
  | [s] => s
  | s :: l' => s ++ sep ++ join sep l'
  end.

(** [strings.ReplaceAll] of one byte by another. *)
Definition replace_byte (old new : ascii) (s : gostring) : gostring :=
  map (λ c, if Ascii.eqb c old then new else c) s.

(** ** Order *)

(** [strings.Compare]: lexicographic on unsigned bytes. *)
Fixpoint str_compare (s t : gostring) : comparison :=
  match s, t with
  | [], [] => Eq
  | [], _ :: _ => Lt
  | _ :: _, [] => Gt
  | a :: s', b :: t' =>
      match byte_val a ?= byte_val b with
      | Eq => str_compare s' t'
      | c => c
      end
  end.

(** ** Lemmas *)

Lemma str_eqb_eq s t : str_eqb s t = true ↔ s = t.
Proof.
  revert t. induction s as [|a s IH]; intros [|b t]; simpl; try done.
  rewrite andb_true_iff, Ascii.eqb_eq, IH. split; [intros [-> ->]|intros [= -> ->]]; done.
Qed.

Lemma str_eqb_refl s : str_eqb s s = true.
Proof. by apply str_eqb_eq. Qed.

Lemma str_eqb_neq s t : str_eqb s t = false ↔ s ≠ t.
Proof. rewrite <-not_true_iff_false, str_eqb_eq. done. Qed.

#[export] Hint Rewrite str_eqb_refl : go_rw.

Lemma has_prefix_spec p s : has_prefix p s = true ↔ ∃ r, s = p ++ r.
Proof.
  revert s. induction p as [|a p IH]; intros s; simpl; [by split; [exists s|]|].
  destruct s as [|b s]; [split; [done|by intros [r Hr]]|].
  rewrite andb_true_iff, Ascii.eqb_eq, IH. split.
  - intros [-> [r ->]]. by exists r.
  - intros [r [= -> ->]]. eauto.
Qed.

Lemma has_suffix_spec p s : has_suffix p s = true ↔ ∃ r, s = r ++ p.
Proof.
  unfold has_suffix. rewrite has_prefix_spec. split; intros [r Hr].
  - exists (rev r). by rewrite <-(rev_involutive s), Hr, rev_app_distr, rev_involutive.
  - exists (rev r). by rewrite Hr, rev_app_distr.
Qed.

Lemma contains_byte_spec c s : contains_byte c s = true ↔ c ∈ s.
Proof.
  unfold contains_byte. induction s as [|a s IH]; simpl.
  - split; [done|]. by rewrite elem_of_nil.
  - rewrite orb_true_iff, IH, Ascii.eqb_eq, elem_of_cons. done.
Qed.

Lemma contains_byte_false c s : contains_byte c s = false ↔ c ∉ s.
Proof. rewrite <-not_true_iff_false, contains_byte_spec. done. Qed.

Lemma cut_at_cons_ne sep c s : c ≠ sep →
  cut_at sep (c :: s) = (λ p, (c :: fst p, snd p)) <$> cut_at sep s.
Proof.
  intros Hc. simpl. destruct (Ascii.eqb_spec c sep) as [|_]; [done|].
  by destruct (cut_at sep s) as [[a b]|].
Qed.

Lemma cut_at_app sep a b : sep ∉ a → cut_at sep (a ++ sep :: b) = Some (a, b).
Proof.
  induction a as [|c a IH]; intros Hn.
  - simpl. by autorewrite with go_rw.
  - rewrite not_elem_of_cons in Hn. destruct Hn as [Hc Hn].
    simpl app. rewrite cut_at_cons_ne by congruence. by rewrite IH.
Qed.

Lemma cut_at_Some sep s a b :
  cut_at sep s = Some (a, b) ↔ s = a ++ sep :: b ∧ sep ∉ a.
Proof.
  split; [|intros [-> Hn]; by apply cut_at_app].
  revert a. induction s as [|c s IH]; intros a; [done|].
  destruct (decide (c = sep)) as [->|Hc].
  - simpl. rewrite byte_eqb_refl. intros [= <- <-]. split; [done|apply not_elem_of_nil].
  - rewrite cut_at_cons_ne by done. destruct (cut_at sep s) as [[a' b']|]; [|done].
    simpl. intros [= <- <-]. destruct (IH a') as [-> Hn]; [done|].
    split; [done|]. rewrite not_elem_of_cons. done.
Qed.

Lemma cut_at_None sep s : cut_at sep s = None ↔ sep ∉ s.
Proof.
  split.
  - intros H Hin. apply list_elem_of_split_l in Hin as (a & b & -> & Hn).
    assert (cut_at sep (a ++ sep :: b) = Some (a, b)) by (by apply cut_at_Some).
    congruence.
  - intros Hn. destruct (cut_at sep s) as [[a b]|] eqn:E; [|done].
    apply cut_at_Some in E as [-> _]. set_solver.
Qed.


(** [split_on] always yields at least one piece, none containing the separator,
    and joining the pieces gives the string back. *)
Lemma split_on_nonempty sep s : split_on sep s ≠ [].
Proof. destruct s as [|c s]; simpl; [done|]. case_all. Qed.

Lemma split_on_pieces sep s : Forall (λ p, sep ∉ p) (split_on sep s).
Proof.
  induction s as [|c s IH]; simpl.
  - constructor; [apply not_elem_of_nil|constructor].
  - destruct (Ascii.eqb_spec c sep) as [->|Hc].
    + constructor; [apply not_elem_of_nil|done].
    + destruct (split_on sep s) as [|p ps].
      * repeat constructor. by rewrite list_elem_of_singleton.
      * inversion_clear IH. constructor; [|done]. by rewrite not_elem_of_cons.
Qed.

Lemma split_on_cons_ne sep c s : c ≠ sep →
  ∃ p ps, split_on sep s = p :: ps ∧ split_on sep (c :: s) = (c :: p) :: ps.
Proof.
  intros Hc. simpl. destruct (Ascii.eqb_spec c sep) as [|_]; [done|].
  pose proof (split_on_nonempty sep s). destruct (split_on sep s); [done|eauto].
Qed.

Lemma split_on_none sep s : sep ∉ s → split_on sep s = [s].
Proof.
  induction s as [|c s IH]; intros Hn; [done|].
  rewrite not_elem_of_cons in Hn. destruct Hn as [Hc Hn].
  destruct (split_on_cons_ne sep c s) as (p & ps & E & ->); [done|].
  rewrite IH in E by done. by simplify_eq.
Qed.

Lemma split_on_app sep a b :
  sep ∉ a → split_on sep (a ++ sep :: b) = a :: split_on sep b.
Proof.
  induction a as [|c a IH]; intros Hn; simpl.
  - by autorewrite with go_rw.
  - rewrite not_elem_of_cons in Hn. destruct Hn as [Hc Hn].
    destruct (Ascii.eqb_spec c sep) as [|_]; [done|]. by rewrite IH.
Qed.

Lemma split_on_middle sep a b : split_on sep (a ++ sep :: b) = split_on sep a ++ split_on sep b.
Proof.
  induction a as [|c a IH]; simpl; [by autorewrite with go_rw|].
  rewrite IH. pose proof (split_on_nonempty sep a). by destruct (split_on sep a), (Ascii.eqb c sep).
Qed.

Lemma join_split_on sep s : join [sep] (split_on sep s) = s.
Proof.
  induction s as [|c s IH]; [done|].
  simpl. destruct (Ascii.eqb_spec c sep) as [->|Hc].
  - pose proof (split_on_nonempty sep s) as Hne.
    destruct (split_on sep s); [done|]. by rewrite <-IH.
  - pose proof (split_on_nonempty sep s) as Hne.
    destruct (split_on sep s) as [|p [|q ps]]; [done| |]; by rewrite <-IH.
Qed.

(** [str_compare] is a linear order whose equality is string equality. *)
Lemma str_compare_eq s t : str_compare s t = Eq ↔ s = t.
Proof.
  revert t. induction s as [|a s IH]; intros [|b t]; simpl; try done.
  destruct (Z.compare_spec (byte_val a) (byte_val b)) as [H|H|H].
  - apply (inj byte_val) in H as ->. rewrite IH. split; [intros ->|intros [= ->]]; done.
  - split; [done|]. intros [= -> ->]. lia.
  - split; [done|]. intros [= -> ->]. lia.
Qed.

Lemma str_compare_refl s : str_compare s s = Eq.
Proof. by apply str_compare_eq. Qed.

Lemma str_compare_antisym s t : str_compare t s = CompOpp (str_compare s t).
Proof.
  revert t. induction s as [|a s IH]; intros [|b t]; simpl; try done.
  rewrite Z.compare_antisym. destruct (byte_val a ?= byte_val b); simpl; auto.
Qed.

Lemma str_compare_lt_trans s t u :
  str_compare s t = Lt → str_compare t u = Lt → str_compare s u = Lt.
Proof.
  revert t u. induction s as [|a s IH]; intros [|b t] [|c u]; simpl; try done.
  destruct (Z.compare_spec (byte_val a) (byte_val b)) as [H|H|H];
    destruct (Z.compare_spec (byte_val b) (byte_val c)) as [H'|H'|H']; try done;
    intros H1 H2;
    destruct (Z.compare_spec (byte_val a) (byte_val c)) as [H3|H3|H3]; try lia; eauto.
Qed.

#[export] Hint Rewrite str_compare_refl : go_rw.

(** Joining lists of bytes all of which satisfy [P]. *)
Lemma Forall_join (P : ascii → Prop) sep l :
  Forall P sep → Forall (Forall P) l → Forall P (join sep l).
Proof.
  intros Hs. induction 1 as [|x l Hx Hl IH]; [constructor|].
  destruct l as [|y l]; [done|]. simpl. rewrite !Forall_app. done.
Qed.

(** ** Properties of the trimming functions *)

Lemma trim_left_suffix cut s :
  ∃ p, s = p ++ trim_left cut s ∧ Forall (λ c, cut c = true) p.
Proof.
  induction s as [|c s (p & Hp & Hc)]; simpl; [by exists []|].
  destruct (cut c) eqn:E.
  - exists (c :: p). split; [by rewrite Hp at 1|by constructor].
  - by exists [].
Qed.

Lemma trim_left_head cut s :
  match trim_left cut s with [] => True | c :: _ => cut c = false end.
Proof. induction s as [|c s IH]; simpl; [done|]. by destruct (cut c) eqn:E. Qed.

Lemma trim_left_id cut c s : cut c = false → trim_left cut (c :: s) = c :: s.
Proof. simpl. by intros ->. Qed.
