(* ===== verification/GoUnicode.v ===== *)
(** * Runes: UTF-8, [strings.ToLower] and [strings.EqualFold]

    Decoding follows [unicode/utf8]: an invalid byte decodes to [RuneError]
    with width one.  The case tables of package [unicode] for runes outside
    ASCII are data, held in the class [Unicode]; [UnicodeLaws] states the few
    entries of those tables the server depends on. *)

From S2P Require Import Prelude GoStrings.

Local Open Scope go_scope.

(** ** UTF-8 *)

Definition rune_error : Z := 65533.

(** A continuation byte in the given range. *)
Definition cont_in (lo hi : Z) (c : ascii) : bool :=
  (lo <=? byte_val c) && (byte_val c <=? hi).

Definition cont_bits (c : ascii) : Z := Z.land (byte_val c) 63.

(** The range allowed for the second byte after a leading byte, which rules out
    overlong forms, surrogates and runes above U+10FFFF. *)
Definition second_range (lead : Z) : Z * Z :=
  if lead =? 224 then (160, 191)
  else if lead =? 237 then (128, 159)
  else if lead =? 240 then (144, 191)
  else if lead =? 244 then (128, 143)
  else (128, 191).

Definition second_ok (lead : Z) (c : ascii) : bool :=
  cont_in (fst (second_range lead)) (snd (second_range lead)) c.

(** [runes s] decodes [s] as a [range] loop over it does, with a flag telling
    whether the rune was validly encoded. *)
Fixpoint runes (s : gostring) : list (Z * bool) :=
  match s with
  | [] => []
  | c0 :: s1 =>
      let b0 := byte_val c0 in
      let bad := λ _ : unit, (rune_error, false) :: runes s1 in
      if b0 <? 128 then (b0, true) :: runes s1
      else match s1 with
      | [] => bad tt
      | c1 :: s2 =>
          if (194 <=? b0) && (b0 <=? 223) then
            if second_ok b0 c1
            then (Z.lor (Z.shiftl (Z.land b0 31) 6) (cont_bits c1), true) :: runes s2
            else bad tt
          else match s2 with
          | [] => bad tt
          | c2 :: s3 =>
              if (224 <=? b0) && (b0 <=? 239) then
                if second_ok b0 c1 && cont_in 128 191 c2
                then (Z.lor (Z.shiftl (Z.land b0 15) 12)
                        (Z.lor (Z.shiftl (cont_bits c1) 6) (cont_bits c2)), true) :: runes s3
                else bad tt
              else match s3 with
              | [] => bad tt
              | c3 :: s4 =>
                  if (240 <=? b0) && (b0 <=? 244) then
                    if second_ok b0 c1 && cont_in 128 191 c2 && cont_in 128 191 c3
                    then (Z.lor (Z.shiftl (Z.land b0 7) 18)
                           (Z.lor (Z.shiftl (cont_bits c1) 12)
                             (Z.lor (Z.shiftl (cont_bits c2) 6) (cont_bits c3))), true)
                         :: runes s4
                    else bad tt
                  else bad tt
              end
          end
      end
  end.

(** [utf8.ValidString] *)
Definition utf8_valid (s : gostring) : bool := forallb snd (runes s).

(** [utf8.AppendRune] *)
Definition encode_rune (r : Z) : gostring :=
  let cont n := byte_of (128 + Z.land (Z.shiftr r n) 63) in
  if (0 <=? r) && (r <=? 127) then [byte_of r]
  else if (0 <=? r) && (r <=? 2047) then [byte_of (192 + Z.shiftr r 6); cont 0]
  else if (r <? 0) || (1114111 <? r) || ((55296 <=? r) && (r <=? 57343))
       then [byte_of 239; byte_of 191; byte_of 189]
  else if r <=? 65535 then [byte_of (224 + Z.shiftr r 12); cont 6; cont 0]
  else [byte_of (240 + Z.shiftr r 18); cont 12; cont 6; cont 0].

(** ** Case tables *)

(** [unicode_lower] is [unicode.ToLower] and [unicode_fold] a representative of
    the orbit of [unicode.SimpleFold], both on runes of 128 and above. *)
Class Unicode : Type := {
  unicode_lower : Z → Z;
  unicode_fold : Z → Z
}.

(** The entries of the tables that meet ASCII: U+0130 (capital dotted I) and
    U+212A (Kelvin sign) have ASCII lower cases, and only U+017F (long s) and
    U+212A fold to an ASCII letter. *)
Class UnicodeLaws (U : Unicode) : Prop := {
  unicode_lower_dotted_i : unicode_lower 304 = 105;
  unicode_lower_kelvin : unicode_lower 8490 = 107;
  unicode_lower_other r :
    128 <= r → r ≠ 304 → r ≠ 8490 → 128 <= unicode_lower r;
  unicode_fold_long_s : unicode_fold 383 = 115;
  unicode_fold_kelvin : unicode_fold 8490 = 107;
  unicode_fold_other r :
    128 <= r → r ≠ 383 → r ≠ 8490 → 128 <= unicode_fold r
}.

Section CaseMapping.
Context {U : Unicode}.

Definition lower_rune (r : Z) : Z :=
  if r <? 128 then byte_val (lower_byte (byte_of r)) else unicode_lower r.

Definition fold_rune (r : Z) : Z :=
  if r <? 128 then byte_val (lower_byte (byte_of r)) else unicode_fold r.

(** [strings.ToLower]: the ASCII fast path, else [strings.Map]. *)
Definition to_lower (s : gostring) : gostring :=
  if forallb is_ascii s then map lower_byte s
  else flat_map (λ p, encode_rune (lower_rune (fst p))) (runes s).

(** [strings.EqualFold] *)
Definition fold_key (s : gostring) : list Z := map (λ p, fold_rune (fst p)) (runes s).
Definition equal_fold (s t : gostring) : bool := bool_decide (fold_key s = fold_key t).
End CaseMapping.

(** A small table with the required entries, for concrete runs: Latin-1 letters
    fold, every other rune is caseless. *)
Definition latin1_lower (r : Z) : Z :=
  if (192 <=? r) && (r <=? 222) && negb (r =? 215) then r + 32 else r.

Definition sample_unicode : Unicode := {|
  unicode_lower r := if r =? 304 then 105 else if r =? 8490 then 107 else latin1_lower r;
  unicode_fold r := if r =? 383 then 115 else if r =? 8490 then 107 else latin1_lower r
|}.

Lemma sample_unicode_laws : UnicodeLaws sample_unicode.
Proof.
  split; try reflexivity; simpl; intros r Hr H1 H2; unfold latin1_lower;
    repeat (case_match; to_prop; try lia).
Qed.

(** ** Lemmas *)

Lemma runes_ascii s : forallb is_ascii s = true → runes s = map (λ c, (byte_val c, true)) s.
Proof.
  induction s as [|c s IH]; [done|]. simpl. intros H. apply andb_true_iff in H as [Hc Hs].
  unfold is_ascii in Hc. by rewrite Hc, IH.
Qed.

Lemma utf8_valid_ascii s : forallb is_ascii s = true → utf8_valid s = true.
Proof.
  intros H. unfold utf8_valid. rewrite runes_ascii by done.
  apply forallb_Forall. apply Forall_map. by apply Forall_true.
Qed.

Lemma lower_byte_idemp c : lower_byte (lower_byte c) = lower_byte c.
Proof.
  apply Ascii.eqb_eq. revert c.
  apply (forall_bytes (λ c, Ascii.eqb (lower_byte (lower_byte c)) (lower_byte c))).
  vm_compute. reflexivity.
Qed.

Lemma lower_byte_ascii c : is_ascii (lower_byte c) = is_ascii c.
Proof.
  apply eqb_prop. revert c.
  apply (forall_bytes (λ c, Bool.eqb (is_ascii (lower_byte c)) (is_ascii c))).
  vm_compute. reflexivity.
Qed.

Lemma to_lower_ascii {U : Unicode} s :
  forallb is_ascii s = true → to_lower s = map lower_byte s.
Proof. unfold to_lower. by intros ->. Qed.

Lemma map_lower_ascii s : forallb is_ascii (map lower_byte s) = forallb is_ascii s.
Proof. induction s as [|c s IH]; simpl; [done|]. by rewrite lower_byte_ascii, IH. Qed.

Lemma fold_key_ascii {U : Unicode} s :
  forallb is_ascii s = true → fold_key s = map (λ c, byte_val (lower_byte c)) s.
Proof.
  intros H. unfold fold_key. rewrite runes_ascii, map_map by done.
  apply map_ext_in. intros c Hc. simpl. unfold fold_rune.
  rewrite forallb_forall in H. specialize (H c Hc). unfold is_ascii in H.
  by rewrite H, byte_of_val.
Qed.

Lemma equal_fold_refl {U : Unicode} s : equal_fold s s = true.
Proof. unfold equal_fold. by rewrite bool_decide_eq_true. Qed.

Lemma equal_fold_sym {U : Unicode} s t : equal_fold s t = equal_fold t s.
Proof. unfold equal_fold. by apply bool_decide_ext. Qed.

Lemma equal_fold_trans {U : Unicode} s t u :
  equal_fold s t = true → equal_fold t u = true → equal_fold s u = true.
Proof. unfold equal_fold. rewrite !bool_decide_eq_true. congruence. Qed.

(** On ASCII strings [EqualFold] compares the lower-cased bytes. *)
Lemma equal_fold_ascii {U : Unicode} s t :
  forallb is_ascii s = true → forallb is_ascii t = true →
  equal_fold s t = true ↔ map lower_byte s = map lower_byte t.
Proof.
  intros Hs Ht. unfold equal_fold. rewrite bool_decide_eq_true, !fold_key_ascii by done.
  rewrite <-(map_map lower_byte byte_val s), <-(map_map lower_byte byte_val t).
  split; [|by intros ->]. exact (inj (fmap byte_val) (map lower_byte s) (map lower_byte t)).
Qed.
