(* ===== verification/GoRegexp.v ===== *)
(** * The regular expressions of the server

    Package [regexp] is modelled by Brzozowski derivatives: [re_match r s] is
    an anchored match of the whole string, as every pattern of the server is
    written between [^] and [$]. *)

From S2P Require Import Prelude GoStrings.

Inductive regexp : Type :=
| RNone                                (** matches nothing *)
| REmpty                               (** the empty string *)
| RClass (p : ascii → bool)            (** [[...]] *)
| RSeq (r1 r2 : regexp)
| RAlt (r1 r2 : regexp)
| RStar (r : regexp).

(** [r?] and [r{n}] and [r{0,n}]. *)
Definition ROpt (r : regexp) : regexp := RAlt r REmpty.
Fixpoint RRepeat (n : nat) (r : regexp) : regexp :=
  match n with O => REmpty | S n' => RSeq r (RRepeat n' r) end.
Fixpoint RUpTo (n : nat) (r : regexp) : regexp :=
  match n with O => REmpty | S n' => ROpt (RSeq r (RUpTo n' r)) end.

Fixpoint nullable (r : regexp) : bool :=
  match r with
  | RNone | RClass _ => false
  | REmpty | RStar _ => true
  | RSeq r1 r2 => nullable r1 && nullable r2
  | RAlt r1 r2 => nullable r1 || nullable r2
  end.

(** Smart constructors keep derivatives small. *)
Definition seq_re (r1 r2 : regexp) : regexp :=
  match r1 with RNone => RNone | REmpty => r2 | _ => RSeq r1 r2 end.
Definition alt_re (r1 r2 : regexp) : regexp :=
  match r1, r2 with RNone, r | r, RNone => r | _, _ => RAlt r1 r2 end.

Fixpoint deriv (c : ascii) (r : regexp) : regexp :=
  match r with
  | RNone | REmpty => RNone
  | RClass p => if p c then REmpty else RNone
  | RSeq r1 r2 =>
      if nullable r1 then alt_re (seq_re (deriv c r1) r2) (deriv c r2)
      else seq_re (deriv c r1) r2
  | RAlt r1 r2 => alt_re (deriv c r1) (deriv c r2)
  | RStar r1 => seq_re (deriv c r1) (RStar r1)
  end.

Fixpoint re_match (r : regexp) (s : gostring) : bool :=
  match s with
  | [] => nullable r
  | c :: s' => re_match (deriv c r) s'
  end.

(** ** The language of a regular expression *)

Inductive lang : regexp → gostring → Prop :=
| lang_empty : lang REmpty []
| lang_class p c : p c = true → lang (RClass p) [c]
| lang_seq r1 r2 s1 s2 : lang r1 s1 → lang r2 s2 → lang (RSeq r1 r2) (s1 ++ s2)
| lang_alt_l r1 r2 s : lang r1 s → lang (RAlt r1 r2) s
| lang_alt_r r1 r2 s : lang r2 s → lang (RAlt r1 r2) s
| lang_star_nil r : lang (RStar r) []
| lang_star_app r s1 s2 : lang r s1 → lang (RStar r) s2 → lang (RStar r) (s1 ++ s2).
#[export] Hint Constructors lang : go.

Lemma lang_seq_inv r1 r2 s :
  lang (RSeq r1 r2) s ↔ ∃ s1 s2, s = s1 ++ s2 ∧ lang r1 s1 ∧ lang r2 s2.
Proof.
  split; [inversion 1; subst; eauto 6|]. intros (s1 & s2 & -> & H1 & H2). auto with go.
Qed.

Lemma lang_alt_inv r1 r2 s : lang (RAlt r1 r2) s ↔ lang r1 s ∨ lang r2 s.
Proof. split; [inversion 1; subst; auto|intros []; auto with go]. Qed.

Lemma lang_nullable r : nullable r = true ↔ lang r [].
Proof.
  induction r as [| |p|r1 IH1 r2 IH2|r1 IH1 r2 IH2|r IH]; simpl.
  - split; [done|intros H; inversion H].
  - split; auto with go.
  - split; [done|intros H; inversion H].
  - rewrite andb_true_iff, IH1, IH2, lang_seq_inv. split.
    + intros [H1 H2]. by exists [], [].
    + intros ([|] & [|] & ? & ? & ?); done.
  - by rewrite orb_true_iff, IH1, IH2, lang_alt_inv.
  - split; auto with go.
Qed.

Lemma lang_seq_re r1 r2 s : lang (seq_re r1 r2) s ↔ lang (RSeq r1 r2) s.
Proof.
  rewrite lang_seq_inv. destruct r1; simpl; rewrite ?lang_seq_inv; try done.
  - split; [inversion 1|]. intros (s1 & s2 & _ & H & _). inversion H.
  - split; [intros H; exists [], s; auto with go|].
    intros (s1 & s2 & -> & H & H2). by inversion H; subst.
Qed.

Lemma lang_alt_re r1 r2 s : lang (alt_re r1 r2) s ↔ lang (RAlt r1 r2) s.
Proof.
  assert (∀ r, lang r s ↔ lang (RAlt RNone r) s) as Hl.
  { intros r. rewrite lang_alt_inv. split; [by right|]. intros [H|H]; [inversion H|done]. }
  assert (∀ r, lang r s ↔ lang (RAlt r RNone) s) as Hr.
  { intros r. rewrite lang_alt_inv. split; [by left|]. intros [H|H]; [done|inversion H]. }
  destruct r1, r2; simpl; try done; auto.
Qed.

(** A non-empty word of a star starts with a non-empty word of its body. *)
Lemma lang_star_cons r c s :
  lang (RStar r) (c :: s) → ∃ s1 s2, s = s1 ++ s2 ∧ lang r (c :: s1) ∧ lang (RStar r) s2.
Proof.
  intros H. remember (RStar r) as q eqn:Hq. remember (c :: s) as w eqn:Hw.
  revert s Hw. induction H; intros w Hw; simplify_eq.
  destruct s1 as [|d s1]; simplify_eq/=; eauto.
Qed.

Lemma lang_deriv c r s : lang (deriv c r) s ↔ lang r (c :: s).
Proof.
  revert s. induction r as [| |p|r1 IH1 r2 IH2|r1 IH1 r2 IH2|r IH]; intros s; simpl.
  - split; inversion 1.
  - split; inversion 1.
  - destruct (p c) eqn:E; split; inversion 1; subst; auto with go. congruence.
  - assert (lang (seq_re (deriv c r1) r2) s ↔
        ∃ s1 s2, s = s1 ++ s2 ∧ lang r1 (c :: s1) ∧ lang r2 s2) as Hseq.
    { rewrite lang_seq_re, lang_seq_inv. setoid_rewrite IH1. done. }
    rewrite lang_seq_inv. destruct (nullable r1) eqn:En.
    + rewrite lang_alt_re, lang_alt_inv, Hseq, IH2. apply lang_nullable in En. split.
      * intros [(s1 & s2 & -> & H1 & H2)|H]; [by exists (c :: s1), s2|by exists [], (c :: s)].
      * intros (s1 & s2 & Heq & H1 & H2). destruct s1; simplify_eq/=; eauto 6.
    + rewrite Hseq. split.
      * intros (s1 & s2 & -> & H1 & H2). by exists (c :: s1), s2.
      * intros (s1 & s2 & Heq & H1 & H2). destruct s1; simplify_eq/=; eauto 6.
        apply lang_nullable in H1. congruence.
  - by rewrite lang_alt_re, !lang_alt_inv, IH1, IH2.
  - rewrite lang_seq_re, lang_seq_inv. split.
    + intros (s1 & s2 & -> & H1 & H2). apply IH in H1.
      exact (lang_star_app r (c :: s1) s2 H1 H2).
    + intros (s1 & s2 & -> & H1 & H2)%lang_star_cons. exists s1, s2. by rewrite IH.
Qed.

(** The matcher decides the language. *)
Lemma re_match_lang r s : re_match r s = true ↔ lang r s.
Proof.
  revert r. induction s as [|c s IH]; intros r; simpl; [apply lang_nullable|].
  by rewrite IH, lang_deriv.
Qed.

(** ** The shapes the server's patterns use *)

Lemma lang_class_inv p s : lang (RClass p) s ↔ ∃ c, s = [c] ∧ p c = true.
Proof. split; [inversion 1; subst; eauto|]. intros (c & -> & H). auto with go. Qed.

Lemma lang_star_class p s : lang (RStar (RClass p)) s ↔ Forall (λ c, p c = true) s.
Proof.
  split.
  - induction s as [|c s IH]; [constructor|].
    intros (s1 & s2 & -> & H1 & H2)%lang_star_cons.
    apply lang_class_inv in H1 as (c' & [= -> ->] & Hp). constructor; auto.
  - induction 1 as [|c s Hc Hs IH]; [constructor|].
    change (c :: s) with ([c] ++ s). auto with go.
Qed.

Lemma lang_repeat_class n p s :
  lang (RRepeat n (RClass p)) s ↔ length s = n ∧ Forall (λ c, p c = true) s.
Proof.
  revert s. induction n as [|n IH]; intros s; simpl.
  - split; [inversion 1; subst; done|]. intros [->%nil_length_inv _]. constructor.
  - rewrite lang_seq_inv. setoid_rewrite lang_class_inv. setoid_rewrite IH. split.
    + intros (? & s2 & -> & (c & -> & Hc) & <- & Hs). split; [done|]. by constructor.
    + intros [Hl Hs]. destruct s as [|c s]; [done|]. inversion_clear Hs.
      exists [c], s. split; [done|]. split; eauto.
Qed.

Lemma lang_upto_class n p s :
  lang (RUpTo n (RClass p)) s ↔ (length s <= n)%nat ∧ Forall (λ c, p c = true) s.
Proof.
  revert s. induction n as [|n IH]; intros s; simpl.
  - split; [inversion 1; subst; done|]. intros [Hl _]. destruct s; [constructor|simpl in Hl; lia].
  - unfold ROpt. rewrite lang_alt_inv, lang_seq_inv.
    setoid_rewrite lang_class_inv. setoid_rewrite IH. split.
    + intros [(? & s2 & -> & (c & -> & Hc) & Hl & Hs)|H].
      * split; [simpl; lia|]. by constructor.
      * inversion H; subst. split; [simpl; lia|constructor].
    + intros [Hl Hs]. destruct s as [|c s]; [right; constructor|]. inversion_clear Hs.
      left. exists [c], s. split; [done|]. simpl in Hl. split; [eauto|]. split; [lia|done].
Qed.
