(* ===== verification/GoPath.v ===== *)
(** * Slash-separated paths: [path.Clean], [filepath.Join], [filepath.Rel], [fs.ValidPath]

    The Unix behaviour of packages [path], [path/filepath] and [io/fs].  A path
    is handled as the list of its elements between slashes. *)

From S2P Require Import Prelude GoStrings GoUnicode.

Local Open Scope go_scope.

Definition slash : ascii := "/"%char.

Definition is_dot (s : gostring) : bool := str_eqb s ".".
Definition is_dotdot (s : gostring) : bool := str_eqb s "..".

(** A path element that [Clean] keeps as it is. *)
Definition plain_elem (s : gostring) : bool :=
  negb (str_eqb s "") && negb (is_dot s) && negb (is_dotdot s).

(** One element of [path.Clean]'s loop; the output is held last element first. *)
Definition clean_push (rooted : bool) (out : list gostring) (e : gostring) : list gostring :=
  if str_eqb e "" || is_dot e then out
  else if is_dotdot e then
    match out with
    | top :: out' => if is_dotdot top then e :: out else out'
    | [] => if rooted then [] else [e]
    end
  else e :: out.

Definition is_rooted (p : gostring) : bool :=
  match p with c :: _ => Ascii.eqb c slash | [] => false end.

Definition clean_elems (p : gostring) : list gostring :=
  rev (fold_left (clean_push (is_rooted p)) (split_on slash p) []).

Definition render (rooted : bool) (elems : list gostring) : gostring :=
  if rooted then slash :: join [slash] elems
  else match elems with [] => "." | _ => join [slash] elems end.

(** [path.Clean] *)
Definition path_clean (p : gostring) : gostring := render (is_rooted p) (clean_elems p).

(** [filepath.Join]: leading empty elements are ignored. *)
Fixpoint path_join (elems : list gostring) : gostring :=
  match elems with
  | [] => []
  | [] :: rest => path_join rest
  | _ => path_clean (join [slash] elems)
  end.

Fixpoint strip_common (base targ : list gostring) : list gostring * list gostring :=
  match base, targ with
  | b :: base', t :: targ' => if str_eqb b t then strip_common base' targ' else (base, targ)
  | _, _ => (base, targ)
  end.

(** [filepath.Rel]; [None] is its error. *)
Definition path_rel (base targ : gostring) : option gostring :=
  if str_eqb (path_clean base) (path_clean targ) then Some "."
  else if negb (Bool.eqb (is_rooted base) (is_rooted targ)) then None
  else
    let '(b, t) := strip_common (clean_elems base) (clean_elems targ) in
    match b with
    | [] => Some (join [slash] t)
    | e :: _ =>
        if is_dotdot e then None
        else Some (join [slash] (map (λ _, "..") b ++ t))
    end.

(** [fs.ValidPath] *)
Definition valid_path (name : gostring) : bool :=
  utf8_valid name && (is_dot name || forallb plain_elem (split_on slash name)).

(** [filepath.Localize] on Unix; [None] is its error. *)
Definition localize (name : gostring) : option gostring :=
  if valid_path name && negb (contains_byte "000"%char name) then Some name else None.

(** ** Lemmas *)

Lemma plain_elem_true s : plain_elem s = true ↔ s ≠ [] ∧ s ≠ "." ∧ s ≠ "..".
Proof.
  unfold plain_elem, is_dot, is_dotdot.
  rewrite !andb_true_iff, !negb_true_iff, !str_eqb_neq. tauto.
Qed.

Lemma clean_push_plain r out e : plain_elem e = true → clean_push r out e = e :: out.
Proof.
  unfold plain_elem, clean_push. intros [[H1 H2]%andb_prop H3]%andb_prop.
  rewrite negb_true_iff in H1, H2, H3. by rewrite H1, H2, H3.
Qed.

Lemma clean_fold_plain r es out :
  forallb plain_elem es = true → fold_left (clean_push r) es out = rev es ++ out.
Proof.
  revert out. induction es as [|e es IH]; intros out; [done|]. cbn [forallb fold_left].
  intros [He Hes]%andb_prop. rewrite clean_push_plain, IH by done.
  cbn [rev]. by rewrite <-app_assoc.
Qed.

Lemma split_on_join sep l :
  l ≠ [] → Forall (λ p, sep ∉ p) l → split_on sep (join [sep] l) = l.
Proof.
  intros Hne Hl. induction Hl as [|p l Hp Hl IH]; [done|].
  destruct l as [|q l]; [by apply split_on_none|].
  change (join [sep] (p :: q :: l)) with (p ++ sep :: join [sep] (q :: l)).
  rewrite split_on_app by done. by rewrite IH.
Qed.

Lemma split_on_app_join sep a l :
  l ≠ [] → Forall (λ p, sep ∉ p) l →
  split_on sep (a ++ sep :: join [sep] l) = split_on sep a ++ l.
Proof.
  intros Hne Hl. induction a as [|c a IH].
  - simpl. rewrite byte_eqb_refl. by rewrite split_on_join.
  - simpl. destruct (Ascii.eqb c sep); [by rewrite IH|]. rewrite IH.
    pose proof (split_on_nonempty sep a). by destruct (split_on sep a).
Qed.

(** Appending plain elements below a base appends them to its clean form. *)
Lemma clean_elems_app base l :
  base ≠ [] → l ≠ [] → Forall (λ p, slash ∉ p) l → forallb plain_elem l = true →
  clean_elems (base ++ slash :: join [slash] l) = clean_elems base ++ l.
Proof.
  intros Hb Hne Hs Hp. unfold clean_elems.
  assert (is_rooted (base ++ slash :: join [slash] l) = is_rooted base) as ->
    by (by destruct base).
  rewrite split_on_app_join by done.
  rewrite fold_left_app, clean_fold_plain by done.
  rewrite rev_app_distr, rev_involutive. done.
Qed.

Lemma clean_elems_plain l :
  l ≠ [] → Forall (λ p, slash ∉ p) l → forallb plain_elem l = true →
  is_rooted (join [slash] l) = false ∧ clean_elems (join [slash] l) = l.
Proof.
  intros Hne Hs Hp.
  assert (is_rooted (join [slash] l) = false) as Hr.
  { destruct l as [|e l]; [done|]. simpl in Hp. apply andb_prop in Hp as [He _].
    apply plain_elem_true in He as [He _]. inversion_clear Hs as [|? ? Hn _].
    destruct e as [|c e]; [done|]. rewrite not_elem_of_cons in Hn. destruct Hn as [Hc _].
    destruct l; simpl; apply Ascii.eqb_neq; congruence. }
  split; [done|]. unfold clean_elems. rewrite Hr, split_on_join by done.
  rewrite clean_fold_plain by done. by rewrite app_nil_r, rev_involutive.
Qed.

(** Joining plain elements onto a base. *)
Lemma path_join_plain base l :
  l ≠ [] → Forall (λ p, slash ∉ p) l → forallb plain_elem l = true →
  path_join (base :: l) = render (is_rooted base)
    (match base with [] => l | _ => clean_elems base ++ l end).
Proof.
  intros Hne Hs Hp. destruct base as [|c b].
  - destruct l as [|e l]; [done|].
    destruct (clean_elems_plain (e :: l)) as [Hr Hc]; [done..|].
    destruct e as [|d e]; [done|].
    change (path_clean (join [slash] ((d :: e) :: l)) = render false ((d :: e) :: l)).
    unfold path_clean. by rewrite Hr, Hc.
  - destruct l as [|e l]; [done|].
    change (path_join ((c :: b) :: e :: l))
      with (path_clean ((c :: b) ++ slash :: join [slash] (e :: l))).
    unfold path_clean. by rewrite clean_elems_app.
Qed.

Lemma render_inj r l1 l2 :
  Forall (λ p, slash ∉ p) l1 → Forall (λ p, slash ∉ p) l2 → l1 ≠ [] → l2 ≠ [] →
  render r l1 = render r l2 → l1 = l2.
Proof.
  intros H1 H2 N1 N2 H.
  assert (join [slash] l1 = join [slash] l2) as Hj.
  { destruct r; simpl in H; [by injection H|]. by destruct l1, l2. }
  rewrite <-(split_on_join slash l1), <-(split_on_join slash l2) by done. by rewrite Hj.
Qed.

Lemma clean_elems_no_slash p : Forall (λ e, slash ∉ e) (clean_elems p).
Proof.
  unfold clean_elems. apply Forall_rev.
  pose proof (split_on_pieces slash p) as Hs. revert Hs.
  generalize (split_on slash p) as es.
  assert (∀ es out, Forall (λ e, slash ∉ e) es → Forall (λ e, slash ∉ e) out →
    Forall (λ e, slash ∉ e) (fold_left (clean_push (is_rooted p)) es out)) as H.
  { induction es as [|e es IH]; intros out Hes Hout; [done|].
    inversion_clear Hes. simpl. apply IH; [done|]. unfold clean_push.
    repeat case_match; simplify_eq; auto; try (inversion_clear Hout; by auto). }
  intros es Hes. by apply H.
Qed.

Lemma strip_common_app l1 l2 : strip_common l1 (l1 ++ l2) = ([], l2).
Proof. induction l1 as [|e l1 IH]; simpl; [by destruct l2|]. by rewrite str_eqb_refl. Qed.

(** ** Normal forms

    The elements [Clean] outputs: some [".."]s, none if rooted, then plain
    elements.  Cleaning a normal form changes nothing. *)

Definition normal_elems (rooted : bool) (l : list gostring) : Prop :=
  ∃ k ps, l = replicate k ".." ++ ps ∧ forallb plain_elem ps = true ∧ (rooted = true → k = 0%nat).

Lemma clean_push_normal r out e :
  normal_elems r (rev out) → normal_elems r (rev (clean_push r out e)).
Proof.
  intros (k & ps & Hout & Hps & Hk). unfold clean_push.
  destruct (str_eqb e "") eqn:E1; [by exists k, ps|].
  destruct (is_dot e) eqn:E2; [by exists k, ps|]. cbn [orb].
  destruct (is_dotdot e) eqn:E3.
  - apply str_eqb_eq in E3 as ->. destruct out as [|top out].
    + destruct r; [by exists 0%nat, []|]. by exists 1%nat, [].
    + simpl rev in Hout. destruct ps as [|p ps _] using rev_ind.
      * rewrite app_nil_r in Hout. destruct k as [|k]; [by destruct (rev out)|].
        rewrite replicate_S_end in Hout. apply app_inj_tail in Hout as [Ho ->].
        destruct r; [by specialize (Hk eq_refl)|].
        exists (S (S k)), []. rewrite !replicate_S_end. simpl rev. by rewrite Ho, app_nil_r.
      * rewrite app_assoc in Hout. apply app_inj_tail in Hout as [Ho ->].
        rewrite forallb_app in Hps. apply andb_prop in Hps as [Hps Hp]. simpl in Hp.
        rewrite andb_true_r in Hp.
        assert (is_dotdot p = false) as -> by (by unfold plain_elem in Hp; to_prop).
        exists k, ps. done.
  - exists k, (ps ++ [e]). simpl rev. rewrite Hout, <-app_assoc.
    split; [done|]. split; [|done]. rewrite forallb_app, Hps. simpl.
    unfold plain_elem. by rewrite E1, E2, E3.
Qed.

Lemma clean_elems_normal p : normal_elems (is_rooted p) (clean_elems p).
Proof.
  unfold clean_elems. generalize (split_on slash p) as es.
  assert (∀ es out, normal_elems (is_rooted p) (rev out) →
    normal_elems (is_rooted p) (rev (fold_left (clean_push (is_rooted p)) es out))) as H.
  { induction es as [|e es IH]; intros out Ho; [done|]. by apply IH, clean_push_normal. }
  intros es. apply H. by exists 0%nat, [].
Qed.

Lemma normal_elems_app r l1 l2 :
  normal_elems r l1 → forallb plain_elem l2 = true → normal_elems r (l1 ++ l2).
Proof.
  intros (k & ps & -> & Hps & Hk) H2. exists k, (ps ++ l2).
  by rewrite <-app_assoc, forallb_app, Hps.
Qed.

Lemma clean_fold_dotdots k : fold_left (clean_push false) (replicate k "..") [] = replicate k "..".
Proof.
  assert (∀ j, fold_left (clean_push false) (replicate k "..") (replicate j "..")
    = replicate (k + j) "..") as H
    ; [|specialize (H 0%nat); by rewrite Nat.add_0_r in H].
  induction k as [|k IH]; intros j; [done|]. cbn [replicate fold_left].
  assert (clean_push false (replicate j "..") ".." = replicate (S j) "..") as ->
    by (by destruct j).
  rewrite IH. f_equal. lia.
Qed.

Lemma rev_replicate {A} (k : nat) (x : A) : rev (replicate k x) = replicate k x.
Proof.
  induction k as [|k IH]; [done|]. cbn [replicate rev]. rewrite IH.
  symmetry. apply replicate_cons_app.
Qed.

Lemma clean_fold_normal r l :
  normal_elems r l → rev (fold_left (clean_push r) l []) = l.
Proof.
  intros (k & ps & -> & Hps & Hk). rewrite fold_left_app, clean_fold_plain by done.
  rewrite rev_app_distr, rev_involutive. f_equal. destruct r.
  - by rewrite (Hk eq_refl).
  - by rewrite clean_fold_dotdots, rev_replicate.
Qed.

(** ** Rendering and re-reading normal forms *)

Lemma join_snoc sep l e : l ≠ [] → join sep (l ++ [e]) = join sep l ++ sep ++ e.
Proof.
  induction l as [|x l IH]; intros Hne; [done|]. destruct l as [|y l]; [done|].
  change (join sep ((x :: y :: l) ++ [e])) with (x ++ sep ++ join sep ((y :: l) ++ [e])).
  rewrite IH by done. change (join sep (x :: y :: l)) with (x ++ sep ++ join sep (y :: l)).
  by rewrite <-!app_assoc.
Qed.

(** A name below a rendered directory. *)
Lemma render_snoc r l e : l ≠ [] → render r l ++ slash :: e = render r (l ++ [e]).
Proof.
  intros Hne. unfold render. destruct r.
  - by rewrite join_snoc by done.
  - destruct l as [|x l]; [done|]. cbn [app].
    change (x :: l ++ [e]) with ((x :: l) ++ [e]). by rewrite join_snoc by done.
Qed.

Lemma normal_elems_nonempty r l : normal_elems r l → Forall (λ e, e ≠ []) l.
Proof.
  intros (k & ps & -> & Hps & _). apply Forall_app. split; [by apply Forall_replicate|].
  apply forallb_Forall in Hps. eapply Forall_impl; [exact Hps|].
  intros e He. by apply plain_elem_true in He as [? _].
Qed.

Lemma render_elems r l :
  l ≠ [] → normal_elems r l → Forall (λ e, slash ∉ e) l →
  is_rooted (render r l) = r ∧ clean_elems (render r l) = l.
Proof.
  intros Hne Hn Hs. pose proof (normal_elems_nonempty r l Hn) as Hnn.
  assert (is_rooted (render r l) = r) as Hr.
  { destruct r; [done|]. destruct l as [|e l]; [done|].
    inversion_clear Hnn as [|? ? He _]. inversion_clear Hs as [|? ? Hse _].
    destruct e as [|c e]; [done|]. rewrite not_elem_of_cons in Hse. destruct Hse as [Hc _].
    destruct l; simpl; apply Ascii.eqb_neq; congruence. }
  split; [done|]. unfold clean_elems. rewrite Hr. destruct r.
  - change (split_on slash (render true l)) with ([] :: split_on slash (join [slash] l)).
    rewrite split_on_join by done.
    cbn [fold_left]. by apply clean_fold_normal.
  - assert (split_on slash (render false l) = l) as ->;
      [destruct l; [done|by apply split_on_join]|]. by apply clean_fold_normal.
Qed.

(** [filepath.Rel] from a base to a file below it. *)
Lemma path_rel_below base l :
  l ≠ [] → Forall (λ e, slash ∉ e) l → forallb plain_elem l = true →
  path_rel base (render (is_rooted base) (clean_elems base ++ l)) = Some (join [slash] l).
Proof.
  intros Hne Hs Hp.
  assert (clean_elems base ++ l ≠ []) as Hne' by (by destruct (clean_elems base)).
  assert (normal_elems (is_rooted base) (clean_elems base ++ l)) as Hn
    by (apply normal_elems_app; [apply clean_elems_normal|done]).
  assert (Forall (λ e, slash ∉ e) (clean_elems base ++ l)) as Hsl
    by (apply Forall_app; split; [apply clean_elems_no_slash|done]).
  destruct (render_elems (is_rooted base) (clean_elems base ++ l)) as [Hr Hc]; [done..|].
  unfold path_rel, path_clean. rewrite Hr, Hc.
  assert (str_eqb (render (is_rooted base) (clean_elems base))
    (render (is_rooted base) (clean_elems base ++ l)) = false) as ->.
  { apply str_eqb_neq. intros E. destruct (clean_elems base) as [|e es] eqn:Ee.
    - assert (∀ a, plain_elem a = true → a ≠ [] ∧ a ≠ ".") as Hpl
        by (intros a Ha; apply plain_elem_true in Ha; tauto).
      destruct l as [|a l]; [done|]. simpl in Hp. apply andb_prop in Hp as [Ha _].
      destruct (Hpl a Ha) as [Ha1 Ha2].
      destruct (is_rooted base); simpl in E; destruct l as [|b l]; simpl in E;
        destruct a as [|c [|d a]]; simplify_eq.
    - rewrite <-Ee in *. apply render_inj in E; [|apply clean_elems_no_slash|done|congruence|done].
      apply (f_equal length) in E. rewrite length_app in E. destruct l; simpl in E; [done|lia]. }
  rewrite eqb_reflx. cbn [negb]. by rewrite strip_common_app.
Qed.

(** ** Paths below a base directory *)

Definition under (base : gostring) (l : list gostring) : gostring :=
  render (is_rooted base) (clean_elems base ++ l).

(** Ordinary path elements. *)
Definition plain_elems (l : list gostring) : Prop :=
  l ≠ [] ∧ Forall (λ e, slash ∉ e) l ∧ forallb plain_elem l = true.

Lemma path_join_under base l : plain_elems l → path_join (base :: l) = under base l.
Proof.
  intros (Hne & Hs & Hp). rewrite path_join_plain by done. unfold under. by destruct base.
Qed.

Lemma under_inj base l l' :
  l ≠ [] → l' ≠ [] → Forall (λ e, slash ∉ e) l → Forall (λ e, slash ∉ e) l' →
  under base l = under base l' → l = l'.
Proof.
  intros N N' S S' H. apply render_inj in H; [by apply app_inv_head in H|..];
    try (apply Forall_app; split; [apply clean_elems_no_slash|done]);
    by destruct (clean_elems base).
Qed.

Lemma under_snoc base l e : l ≠ [] → under base l ++ slash :: e = under base (l ++ [e]).
Proof.
  intros Hne. unfold under. rewrite render_snoc, app_assoc; [done|].
  by destruct (clean_elems base), l.
Qed.

Lemma under_append base l e x : under base (l ++ [e]) ++ x = under base (l ++ [e ++ x]).
Proof.
  unfold under. rewrite !app_assoc. generalize (clean_elems base ++ l). intros m.
  destruct m as [|y m].
  - simpl. unfold render. by destruct (is_rooted base).
  - rewrite <-!(render_snoc _ (y :: m)) by done. by rewrite <-app_assoc.
Qed.
