(* ===== verification/GoConv.v ===== *)
(** * Conversions: [strconv], [encoding/hex] and [encoding/base64]

    Base-10 formatting and parsing of 64-bit integers, hexadecimal, and the
    unpadded URL-safe and padded standard base64 alphabets, with the round
    trips the signer, the lock cursors and the key file rely on. *)

From S2P Require Import Prelude GoStrings.

Local Open Scope go_scope.

(** ** Decimal integers *)

Definition digit_byte (d : Z) : ascii := byte_of (48 + d).
Definition digit_val (c : ascii) : Z := byte_val c - 48.

Fixpoint format_digits (fuel : nat) (n : Z) (acc : gostring) : gostring :=
  match fuel with
  | O => acc
  | S f =>
      if n <? 10 then digit_byte n :: acc
      else format_digits f (n / 10) (digit_byte (n mod 10) :: acc)
  end.

(** Each step divides by ten, so the base-2 logarithm bounds the steps. *)
Definition format_uint (n : Z) : gostring := format_digits (S (Z.to_nat (Z.log2 n))) n [].

(** [strconv.FormatInt(n, 10)] and [strconv.Itoa] *)
Definition format_int (n : Z) : gostring :=
  if n <? 0 then "-"%char :: format_uint (- n) else format_uint n.

Definition digits_val (acc : Z) (s : gostring) : Z :=
  fold_left (λ a c, a * 10 + digit_val c) s acc.

(** [strconv.ParseUint(s, 10, bits)] with [2^bits - 1 = max]; [None] is either
    of its errors. *)
Definition parse_uint (max : Z) (s : gostring) : option Z :=
  match s with
  | [] => None
  | _ =>
      if forallb is_digit s && (digits_val 0 s <=? max) then Some (digits_val 0 s) else None
  end.

(** [strconv.ParseInt(s, 10, 64)] and [strconv.Atoi] on a 64-bit platform. *)
Definition parse_int (s : gostring) : option Z :=
  match s with
  | [] => None
  | c :: s' =>
      let neg := Ascii.eqb c "-"%char in
      let body := if neg || Ascii.eqb c "+"%char then s' else s in
      match parse_uint max_uint64 body with
      | None => None
      | Some un =>
          if negb neg && (max_int64 + 1 <=? un) then None
          else if neg && (max_int64 + 1 <? un) then None
          else Some (if neg then - un else un)
      end
  end.

(** ** Hexadecimal *)

Definition hex_digit (d : Z) : ascii :=
  if d <? 10 then byte_of (48 + d) else byte_of (87 + d).

Definition hex_val (c : ascii) : option Z :=
  if is_digit c then Some (byte_val c - 48)
  else if byte_in "a"%char "f"%char c then Some (byte_val c - 87)
  else if byte_in "A"%char "F"%char c then Some (byte_val c - 55)
  else None.

(** [hex.EncodeToString] *)
Definition hex_encode (s : gostring) : gostring :=
  flat_map (λ c, [hex_digit (byte_val c / 16); hex_digit (byte_val c mod 16)]) s.

(** [hex.DecodeString]; [None] is either of its errors. *)
Fixpoint hex_decode (s : gostring) : option gostring :=
  match s with
  | [] => Some []
  | [_] => None
  | a :: b :: s' =>
      match hex_val a, hex_val b, hex_decode s' with
      | Some x, Some y, Some rest => Some (byte_of (x * 16 + y) :: rest)
      | _, _, _ => None
      end
  end.

(** ** Base64 *)

(** The two last symbols of an alphabet: ["-_"] for URLs, ["+/"] for standard. *)
Record alphabet := { sym62 : ascii; sym63 : ascii }.
Definition url_alphabet : alphabet := {| sym62 := "-"%char; sym63 := "_"%char |}.
Definition std_alphabet : alphabet := {| sym62 := "+"%char; sym63 := "/"%char |}.

Definition b64_sym (al : alphabet) (v : Z) : ascii :=
  if v <? 26 then byte_of (65 + v)
  else if v <? 52 then byte_of (71 + v)
  else if v <? 62 then byte_of (v - 4)
  else if v =? 62 then sym62 al else sym63 al.

Definition b64_val (al : alphabet) (c : ascii) : option Z :=
  if is_upper c then Some (byte_val c - 65)
  else if is_lower c then Some (byte_val c - 71)
  else if is_digit c then Some (byte_val c + 4)
  else if Ascii.eqb c (sym62 al) then Some 62
  else if Ascii.eqb c (sym63 al) then Some 63
  else None.

(** The sextets of a byte string; the last group may be short. *)
Fixpoint b64_sextets (s : gostring) : list Z :=
  match s with
  | [] => []
  | [a] => [byte_val a / 4; byte_val a mod 4 * 16]
  | [a; b] =>
      [byte_val a / 4; byte_val a mod 4 * 16 + byte_val b / 16; byte_val b mod 16 * 4]
  | a :: b :: c :: s' =>
      byte_val a / 4 :: byte_val a mod 4 * 16 + byte_val b / 16
      :: byte_val b mod 16 * 4 + byte_val c / 64 :: byte_val c mod 64 :: b64_sextets s'
  end.

(** [Encoding.EncodeToString] without padding. *)
Definition b64_encode (al : alphabet) (s : gostring) : gostring :=
  map (b64_sym al) (b64_sextets s).

(** [base64.StdEncoding.EncodeToString]: padded to a multiple of four. *)
Definition b64_std_encode (s : gostring) : gostring :=
  b64_encode std_alphabet s
  ++ match (length s mod 3)%nat with
     | 1%nat => "==" | 2%nat => "=" | _ => "" end.

(** Bytes of a sextet sequence.  A final group of one sextet is an error;
    the unused low bits of a short group are ignored, as the decoder is not
    strict. *)
Fixpoint b64_bytes (l : list Z) : option gostring :=
  match l with
  | [] => Some []
  | [_] => None
  | [v0; v1] => Some [byte_of (v0 * 4 + v1 / 16)]
  | [v0; v1; v2] =>
      Some [byte_of (v0 * 4 + v1 / 16); byte_of (v1 mod 16 * 16 + v2 / 4)]
  | v0 :: v1 :: v2 :: v3 :: l' =>
      (λ rest, byte_of (v0 * 4 + v1 / 16) :: byte_of (v1 mod 16 * 16 + v2 / 4)
               :: byte_of (v2 mod 4 * 64 + v3) :: rest) <$> b64_bytes l'
  end.

Definition is_crlf (c : ascii) : bool :=
  Ascii.eqb c "010"%char || Ascii.eqb c "013"%char.

(** [Encoding.DecodeString] without padding; line breaks are skipped. *)
Definition b64_decode (al : alphabet) (s : gostring) : option gostring :=
  match mapM (b64_val al) (List.filter (λ c, negb (is_crlf c)) s) with
  | Some l => b64_bytes l
  | None => None
  end.

(** ** Round trip of decimal integers *)

Lemma digit_byte_digit d : 0 <= d < 10 → is_digit (digit_byte d) = true.
Proof.
  intros H. unfold is_digit, byte_in, digit_byte. rewrite byte_val_of by lia.
  apply andb_true_iff. split; apply Z.leb_le; vm_compute byte_val; lia.
Qed.

Lemma digit_val_byte d : 0 <= d < 10 → digit_val (digit_byte d) = d.
Proof. intros H. unfold digit_val, digit_byte. rewrite byte_val_of by lia. lia. Qed.

Lemma is_digit_val c : is_digit c = true → 0 <= digit_val c < 10.
Proof.
  unfold is_digit, byte_in, digit_val. intros [H1 H2]%andb_prop.
  apply Z.leb_le in H1, H2. change (byte_val "0"%char) with 48 in H1.
  change (byte_val "9"%char) with 57 in H2. lia.
Qed.

Lemma digits_val_app acc s t : digits_val acc (s ++ t) = digits_val (digits_val acc s) t.
Proof. apply fold_left_app. Qed.

Lemma format_digits_spec fuel n acc :
  0 <= n < 2 ^ Z.of_nat fuel → (0 < fuel)%nat →
  ∃ ds, format_digits fuel n acc = ds ++ acc ∧ ds ≠ []
        ∧ Forall (λ c, is_digit c = true) ds ∧ digits_val 0 ds = n.
Proof.
  revert n acc. induction fuel as [|f IH]; intros n acc Hn Hf; [lia|].
  simpl. destruct (Z.ltb_spec n 10) as [Hlt|Hge].
  - exists [digit_byte n]. split; [done|]. split; [done|].
    split; [constructor; [apply digit_byte_digit; lia|constructor]|].
    unfold digits_val. simpl. rewrite digit_val_byte; lia.
  - rewrite Nat2Z.inj_succ, Z.pow_succ_r in Hn by lia.
    destruct f as [|f]; [simpl in Hn; lia|].
    destruct (IH (n / 10) (digit_byte (n mod 10) :: acc)) as (ds & Heq & Hne & Hall & Hv);
      [split; [apply Z.div_pos; lia|apply Z.div_lt_upper_bound; lia]|lia|].
    exists (ds ++ [digit_byte (n mod 10)]).
    pose proof (Z.mod_pos_bound n 10). split; [by rewrite Heq, <-app_assoc|].
    split; [by destruct ds|]. split.
    + apply Forall_app. split; [done|]. constructor; [apply digit_byte_digit; lia|constructor].
    + rewrite digits_val_app, Hv. unfold digits_val. simpl.
      rewrite digit_val_byte by lia. pose proof (Z.div_mod n 10). lia.
Qed.

Lemma format_uint_spec n : 0 <= n →
  format_uint n ≠ [] ∧ Forall (λ c, is_digit c = true) (format_uint n)
  ∧ digits_val 0 (format_uint n) = n.
Proof.
  intros Hn. unfold format_uint.
  destruct (format_digits_spec (S (Z.to_nat (Z.log2 n))) n []) as (ds & Heq & H); [|lia|].
  - split; [done|]. rewrite Nat2Z.inj_succ, Z2Nat.id by apply Z.log2_nonneg.
    destruct (Z.eq_dec n 0) as [->|]; [done|]. apply Z.log2_spec. lia.
  - rewrite Heq, app_nil_r. done.
Qed.

(** No leading zeros. *)
Lemma format_digits_head fuel n acc : 0 < n < 2 ^ Z.of_nat fuel →
  ∃ c s, format_digits fuel n acc = c :: s ∧ c ≠ "0"%char.
Proof.
  revert n acc. induction fuel as [|f IH]; intros n acc Hn; [simpl in Hn; lia|].
  simpl. destruct (Z.ltb_spec n 10) as [Hlt|Hge].
  - eexists _, _. split; [done|]. intros H. apply (f_equal digit_val) in H.
    rewrite digit_val_byte in H by lia. change (digit_val "0") with 0 in H. lia.
  - rewrite Nat2Z.inj_succ, Z.pow_succ_r in Hn by lia.
    apply IH. split; [apply Z.div_str_pos; lia|apply Z.div_lt_upper_bound; lia].
Qed.
Lemma format_uint_head n : 0 <= n → ∃ c s, format_uint n = c :: s ∧ (c = "0"%char → s = []).
Proof.
  intros Hn. destruct (Z.eq_dec n 0) as [->|Hne]; [by eexists _, _|].
  destruct (format_digits_head (S (Z.to_nat (Z.log2 n))) n []) as (c & s & E & Hc).
  - rewrite Nat2Z.inj_succ, Z2Nat.id by apply Z.log2_nonneg. pose proof (Z.log2_spec n). lia.
  - by exists c, s.
Qed.

Lemma parse_uint_format max n :
  0 <= n <= max → parse_uint max (format_uint n) = Some n.
Proof.
  intros Hn. destruct (format_uint_spec n) as (Hne & Hd & Hv); [lia|].
  unfold parse_uint. destruct (format_uint n) as [|c s] eqn:E; [done|].
  apply forallb_Forall in Hd. rewrite Hd, Hv.
  by rewrite (proj2 (Z.leb_le n max)) by lia.
Qed.

Lemma is_digit_not_sign c :
  is_digit c = true → Ascii.eqb c "-"%char = false ∧ Ascii.eqb c "+"%char = false.
Proof.
  intros H. split; apply Ascii.eqb_neq; intros ->; vm_compute in H; congruence.
Qed.

(** Parsing the decimal form of an [int64] gives it back. *)
Lemma parse_format_int n : in_int64 n → parse_int (format_int n) = Some n.
Proof.
  unfold in_int64, min_int64, max_int64. intros Hn. unfold format_int.
  destruct (Z.ltb_spec n 0) as [Hneg|Hpos].
  - unfold parse_int. rewrite (byte_eqb_refl "-"%char). cbn [orb negb andb].
    rewrite parse_uint_format by (unfold max_uint64; lia).
    unfold max_int64. destruct (Z.ltb_spec (9223372036854775807 + 1) (- n)); [lia|].
    f_equal. lia.
  - pose proof (parse_uint_format max_uint64 n) as Hp. unfold max_uint64 in Hp.
    destruct (format_uint_spec n) as (Hne & Hd & _); [lia|].
    destruct (format_uint n) as [|c s] eqn:E; [done|].
    inversion_clear Hd as [|? ? Hc _]. destruct (is_digit_not_sign c Hc) as [H1 H2].
    unfold parse_int. rewrite H1, H2. cbn [orb negb andb].
    unfold max_uint64, max_int64. rewrite Hp by lia.
    destruct (Z.leb_spec (9223372036854775807 + 1) n); [lia|]. done.
Qed.

(** [parse_int] accepts only signs and digits, and only [int64] values. *)
Lemma digits_val_nonneg s acc : 0 <= acc → forallb is_digit s = true → 0 <= digits_val acc s.
Proof.
  revert acc. induction s as [|c s IH]; intros acc Ha H; [done|]. cbn [forallb] in H.
  apply andb_prop in H as [Hc H]. unfold digits_val in *. cbn [fold_left]. apply IH; [|done].
  assert (0 <= digit_val c); [|lia].
  unfold is_digit, byte_in in Hc. to_prop. unfold digit_val. change (byte_val "0"%char) with 48 in *. lia.
Qed.

Lemma parse_int_range s n : parse_int s = Some n → in_int64 n.
Proof.
  unfold parse_int. destruct s as [|c s]; [done|]. cbv zeta.
  generalize (if Ascii.eqb c "-"%char || Ascii.eqb c "+"%char then s else c :: s) as body. intros body.
  destruct (parse_uint _ body) as [u|] eqn:E; [|done]. intros H.
  assert (0 <= u) as Hu.
  { unfold parse_uint in E. destruct body as [|x y]; [done|].
    destruct (forallb is_digit (x :: y)) eqn:Ed; [|done]. cbn [andb] in E.
    destruct (_ <=? _); [|done]. injection E as <-. exact (digits_val_nonneg (x :: y) 0 (Z.le_refl 0) Ed). }
  unfold in_int64, min_int64, max_int64 in *.
  destruct (Ascii.eqb c "-"%char); cbn [negb andb] in H.
  - destruct (Z.ltb_spec (9223372036854775807 + 1) u); [done|]. injection H as <-. lia.
  - destruct (Z.leb_spec (9223372036854775807 + 1) u); [done|]. injection H as <-. lia.
Qed.

Lemma parse_int_chars s n :
  parse_int s = Some n →
  Forall (λ c, is_digit c || Ascii.eqb c "-"%char || Ascii.eqb c "+"%char = true) s.
Proof.
  unfold parse_int, parse_uint. destruct s as [|c s]; [done|]. intros H.
  assert (∀ t, forallb is_digit t = true →
    Forall (λ c, is_digit c || Ascii.eqb c "-"%char || Ascii.eqb c "+"%char = true) t) as Hd.
  { intros t. rewrite forallb_Forall. intros Ht. eapply Forall_impl; [exact Ht|]. by intros x ->. }
  destruct (Ascii.eqb c "-"%char || Ascii.eqb c "+"%char) eqn:E.
  - constructor; [by destruct (is_digit c)|]. destruct s as [|d s]; [done|].
    apply Hd. by destruct (forallb is_digit (d :: s)).
  - apply Hd. by destruct (forallb is_digit (c :: s)).
Qed.

(** ** Round trips of hexadecimal and base64 *)

Lemma hex_val_digit d : 0 <= d < 16 → hex_val (hex_digit d) = Some d.
Proof.
  intros H. assert (bool_decide (hex_val (hex_digit d) = Some d) = true) as Hb;
    [|by apply bool_decide_eq_true in Hb].
  refine (forall_below (λ d, bool_decide (hex_val (hex_digit d) = Some d)) 16 _ d H).
  vm_compute. reflexivity.
Qed.

Lemma byte_nibbles c : 0 <= byte_val c / 16 < 16 ∧ 0 <= byte_val c mod 16 < 16.
Proof. pose proof (byte_val_bounds c). Z.div_mod_to_equations; lia. Qed.

Lemma hex_decode_encode s : hex_decode (hex_encode s) = Some s.
Proof.
  induction s as [|c s IH]; [done|]. destruct (byte_nibbles c) as [Hhi Hlo].
  change (hex_encode (c :: s)) with
    (hex_digit (byte_val c / 16) :: hex_digit (byte_val c mod 16) :: hex_encode s).
  cbn [hex_decode]. rewrite (hex_val_digit _ Hhi), (hex_val_digit _ Hlo), IH. f_equal. f_equal.
  replace (byte_val c / 16 * 16 + byte_val c mod 16) with (byte_val c)
    by (pose proof (Z.div_mod (byte_val c) 16); lia).
  apply byte_of_val.
Qed.

(** Decoding undoes encoding up to the case of the digits. *)
Lemma hex_val_spec c x : hex_val c = Some x → 0 <= x < 16 ∧ hex_digit x = lower_byte c.
Proof.
  intros H.
  assert (match hex_val c with
          | Some x => bool_decide (0 <= x < 16 ∧ hex_digit x = lower_byte c) | None => true end = true) as Hb.
  { refine (forall_bytes (λ c, match hex_val c with
      | Some x => bool_decide (0 <= x < 16 ∧ hex_digit x = lower_byte c) | None => true end) _ c).
    vm_compute. reflexivity. }
  rewrite H in Hb. by apply bool_decide_eq_true in Hb.
Qed.

Lemma hex_encode_byte x y : 0 <= x < 16 → 0 <= y < 16 →
  hex_encode [byte_of (x * 16 + y)] = [hex_digit x; hex_digit y].
Proof.
  intros Hx Hy. unfold hex_encode. cbn [flat_map app]. rewrite byte_val_of by lia.
  rewrite Z.div_add_l, Z.div_small, Z.add_0_r by lia. 
  rewrite Z.add_comm, Z.mod_add, Z.mod_small by lia. done.
Qed.

Lemma hex_encode_decode s d : hex_decode s = Some d → hex_encode d = map lower_byte s.
Proof.
  revert d. remember (length s) as n eqn:Hn. revert s Hn.
  induction n as [n IH] using lt_wf_ind. intros [|a [|b s]] -> d H; [by injection H as <-|done|].
  cbn [hex_decode] in H. destruct (hex_val a) as [x|] eqn:Ea; [|done].
  destruct (hex_val b) as [y|] eqn:Eb; [|done].
  destruct (hex_decode s) as [r|] eqn:Es; [|done]. injection H as <-.
  apply hex_val_spec in Ea as [Hx Ea], Eb as [Hy Eb].
  change (hex_encode (byte_of (x * 16 + y) :: r)) with (hex_encode [byte_of (x * 16 + y)] ++ hex_encode r).
  rewrite hex_encode_byte, Ea, Eb by done. cbn [map app]. do 2 f_equal.
  eapply IH; [|done|done]. simpl. lia.
Qed.

Lemma hex_encode_length s : length (hex_encode s) = (2 * length s)%nat.
Proof. induction s as [|c s IH]; [done|]. simpl. rewrite IH. lia. Qed.

Lemma hex_digit_props d : 0 <= d < 16 →
  is_hex (hex_digit d) = true ∧ lower_byte (hex_digit d) = hex_digit d
  ∧ is_ascii (hex_digit d) = true.
Proof.
  intros H.
  assert (is_hex (hex_digit d) && Ascii.eqb (lower_byte (hex_digit d)) (hex_digit d)
    && is_ascii (hex_digit d) = true) as Hb.
  { refine (forall_below (λ d, is_hex (hex_digit d)
      && Ascii.eqb (lower_byte (hex_digit d)) (hex_digit d) && is_ascii (hex_digit d)) 16 _ d H).
    vm_compute. reflexivity. }
  apply andb_prop in Hb as [[H1 H2]%andb_prop H3]. apply Ascii.eqb_eq in H2. done.
Qed.

Lemma hex_encode_Forall (P : ascii → Prop) s :
  (∀ d, 0 <= d < 16 → P (hex_digit d)) → Forall P (hex_encode s).
Proof.
  intros HP. induction s as [|c s IH]; [constructor|]. destruct (byte_nibbles c) as [Hhi Hlo].
  change (hex_encode (c :: s)) with
    (hex_digit (byte_val c / 16) :: hex_digit (byte_val c mod 16) :: hex_encode s).
  auto.
Qed.

Lemma hex_encode_lower s : map lower_byte (hex_encode s) = hex_encode s.
Proof.
  assert (Forall (λ c, lower_byte c = c) (hex_encode s)) as H
    by (apply hex_encode_Forall; intros d Hd; by apply hex_digit_props).
  induction H as [|c l Hc Hl IH]; [done|]. simpl. by rewrite Hc, IH.
Qed.

Lemma hex_encode_ascii s : forallb is_ascii (hex_encode s) = true.
Proof.
  apply forallb_Forall, hex_encode_Forall. intros d Hd. by apply hex_digit_props.
Qed.

(** An alphabet whose symbols are distinct, decodable and not line breaks. *)
Definition alphabet_ok (al : alphabet) : bool :=
  all_below (λ v, bool_decide (b64_val al (b64_sym al v) = Some v)
                  && negb (is_crlf (b64_sym al v))) 64.

Lemma url_alphabet_ok : alphabet_ok url_alphabet = true.
Proof. vm_compute. reflexivity. Qed.

Lemma b64_sextets_range s : Forall (λ v, 0 <= v < 64) (b64_sextets s).
Proof.
  induction s as [s IH] using (induction_ltof1 _ (@length ascii)). unfold ltof in IH.
  destruct s as [|a [|b [|c s]]]; simpl; [constructor|..];
    pose proof (byte_val_bounds a); try pose proof (byte_val_bounds b);
    try pose proof (byte_val_bounds c).
  1-2: repeat constructor; Z.div_mod_to_equations; lia.
  repeat (constructor; [Z.div_mod_to_equations; lia|]). apply IH. simpl. lia.
Qed.

Lemma b64_bytes_sextets s : b64_bytes (b64_sextets s) = Some s.
Proof.
  induction s as [s IH] using (induction_ltof1 _ (@length ascii)). unfold ltof in IH.
  assert (∀ c z, z = byte_val c → byte_of z = c) as Hb by (intros c z ->; apply byte_of_val).
  destruct s as [|a [|b [|c s]]]; simpl; [done|..];
    pose proof (byte_val_bounds a); try pose proof (byte_val_bounds b);
    try pose proof (byte_val_bounds c).
  3: rewrite IH by (simpl; lia); simpl.
  all: repeat f_equal; apply Hb; Z.div_mod_to_equations; lia.
Qed.

(** [DecodeString] inverts [EncodeToString]. *)
Lemma b64_decode_encode al s :
  alphabet_ok al = true → b64_decode al (b64_encode al s) = Some s.
Proof.
  intros Hal. unfold b64_decode, b64_encode.
  assert (∀ v, 0 <= v < 64 → b64_val al (b64_sym al v) = Some v
    ∧ is_crlf (b64_sym al v) = false) as Hv.
  { intros v Hv. pose proof (forall_below _ _ Hal v Hv) as [H1 H2]%andb_prop.
    apply bool_decide_eq_true in H1. by apply negb_true_iff in H2. }
  pose proof (b64_sextets_range s) as Hr.
  assert (mapM (b64_val al)
    (List.filter (λ c, negb (is_crlf c)) (map (b64_sym al) (b64_sextets s)))
    = Some (b64_sextets s)) as ->; [|apply b64_bytes_sextets].
  induction Hr as [|v l Hl Hr IH]; [done|]. destruct (Hv v Hl) as [H1 H2].
  simpl. rewrite H2. simpl. rewrite H1. simpl. by rewrite IH.
Qed.

Lemma b64_encode_Forall (P : ascii → Prop) al s :
  (∀ v, 0 <= v < 64 → P (b64_sym al v)) → Forall P (b64_encode al s).
Proof.
  intros HP. unfold b64_encode. pose proof (b64_sextets_range s) as H.
  induction H; simpl; constructor; auto.
Qed.

Lemma b64_encode_nonempty al s : s ≠ [] → b64_encode al s ≠ [].
Proof. destruct s as [|a [|b [|c s]]]; [done|..]; unfold b64_encode; simpl; done. Qed.
