(* ===== verification/GoHash.v ===== *)
(** * SHA-256 and HMAC-SHA-256

    The digests of packages [crypto/sha256] and [crypto/hmac], executable on
    byte strings.  No theorem of the library assumes anything about them beyond
    what these definitions compute. *)

From S2P Require Import Prelude GoStrings GoConv.

Local Open Scope go_scope.

Definition w32 (z : Z) : Z := z mod 4294967296.
Definition rotr (n x : Z) : Z :=
  Z.lor (Z.shiftr x n) (w32 (Z.shiftl x (32 - n))).

Definition sha_k : list Z :=
  [
   1116352408; 1899447441; 3049323471; 3921009573; 961987163; 1508970993;
   2453635748; 2870763221; 3624381080; 310598401; 607225278; 1426881987;
   1925078388; 2162078206; 2614888103; 3248222580; 3835390401; 4022224774;
   264347078; 604807628; 770255983; 1249150122; 1555081692; 1996064986;
   2554220882; 2821834349; 2952996808; 3210313671; 3336571891; 3584528711;
   113926993; 338241895; 666307205; 773529912; 1294757372; 1396182291;
   1695183700; 1986661051; 2177026350; 2456956037; 2730485921; 2820302411;
   3259730800; 3345764771; 3516065817; 3600352804; 4094571909; 275423344;
   430227734; 506948616; 659060556; 883997877; 958139571; 1322822218;
   1537002063; 1747873779; 1955562222; 2024104815; 2227730452; 2361852424;
   2428436474; 2756734187; 3204031479; 3329325298].

Definition sha_init : list Z :=
  [
   1779033703; 3144134277; 1013904242; 2773480762; 1359893119; 2600822924;
   528734635; 1541459225].

(** ** Padding and words *)

(** [be_bytes n z] is [z] as [n] big-endian bytes. *)
Fixpoint be_bytes (n : nat) (z : Z) : gostring :=
  match n with
  | O => []
  | S n' => byte_of (Z.shiftr z (8 * Z.of_nat n')) :: be_bytes n' z
  end.

Definition sha_pad (s : gostring) : gostring :=
  let len := length s in
  let zeros := ((119 - len mod 64) mod 64)%nat in
  s ++ byte_of 128 :: replicate zeros (byte_of 0) ++ be_bytes 8 (8 * Z.of_nat len).

Fixpoint words (s : gostring) : list Z :=
  match s with
  | a :: b :: c :: d :: s' =>
      byte_val a * 16777216 + byte_val b * 65536 + byte_val c * 256 + byte_val d :: words s'
  | _ => []
  end.

(** ** Compression *)

Definition nth_z (l : list Z) (i : nat) : Z := nth i l 0.

(** The message schedule, most recent word first. *)
Fixpoint sha_extend (n : nat) (w : list Z) : list Z :=
  match n with
  | O => w
  | S n' =>
      let w15 := nth_z w 14 in
      let w2 := nth_z w 1 in
      let s0 := Z.lxor (rotr 7 w15) (Z.lxor (rotr 18 w15) (Z.shiftr w15 3)) in
      let s1 := Z.lxor (rotr 17 w2) (Z.lxor (rotr 19 w2) (Z.shiftr w2 10)) in
      sha_extend n' (w32 (s1 + nth_z w 6 + s0 + nth_z w 15) :: w)
  end.

Definition sha_round (st : list Z) (kw : Z * Z) : list Z :=
  match st with
  | [a; b; c; d; e; f; g; h] =>
      let s1 := Z.lxor (rotr 6 e) (Z.lxor (rotr 11 e) (rotr 25 e)) in
      let ch := Z.lxor (Z.land e f) (Z.land (Z.lxor e 4294967295) g) in
      let t1 := h + s1 + ch + fst kw + snd kw in
      let s0 := Z.lxor (rotr 2 a) (Z.lxor (rotr 13 a) (rotr 22 a)) in
      let maj := Z.lxor (Z.land a b) (Z.lxor (Z.land a c) (Z.land b c)) in
      [w32 (t1 + s0 + maj); a; b; c; w32 (d + t1); e; f; g]
  | _ => st
  end.

Definition sha_block (st : list Z) (block : list Z) : list Z :=
  let sched := rev (sha_extend 48 (rev block)) in
  zip_with (λ x y, w32 (x + y)) st (fold_left sha_round (zip sha_k sched) st).

Fixpoint sha_blocks (fuel : nat) (st : list Z) (ws : list Z) : list Z :=
  match fuel with
  | O => st
  | S f =>
      match ws with
      | [] => st
      | _ => sha_blocks f (sha_block st (take 16 ws)) (drop 16 ws)
      end
  end.

(** [sha256.Sum256]; every block consumes sixteen words, so the number of words
    bounds the blocks. *)
Definition sha256 (s : gostring) : gostring :=
  let ws := words (sha_pad s) in
  flat_map (be_bytes 4) (sha_blocks (length ws) sha_init ws).

(** ** HMAC *)

Definition xor_byte (m : Z) (c : ascii) : ascii := byte_of (Z.lxor m (byte_val c)).

(** [hmac.New(sha256.New, key)] written with [msg] and summed. *)
Definition hmac_sha256 (key msg : gostring) : gostring :=
  let key0 := if (64 <? length key)%nat then sha256 key else key in
  let block := key0 ++ replicate (64 - length key0) (byte_of 0) in
  sha256 (map (xor_byte 92) block ++ sha256 (map (xor_byte 54) block ++ msg)).

(** ** Sizes *)

Lemma be_bytes_length n z : length (be_bytes n z) = n.
Proof. induction n; simpl; auto. Qed.

Lemma sha_round_length st kw : length st = 8%nat → length (sha_round st kw) = 8%nat.
Proof. intros H. do 9 (destruct st as [|? st]; try done). Qed.

Lemma sha_block_length st block : length st = 8%nat → length (sha_block st block) = 8%nat.
Proof.
  intros H. unfold sha_block. rewrite length_zip_with.
  assert (∀ l st', length st' = 8%nat → length (fold_left sha_round l st') = 8%nat) as Hf.
  { induction l as [|kw l IH]; intros st' H'; [done|]. by apply IH, sha_round_length. }
  rewrite Hf by done. by rewrite H.
Qed.

Lemma sha_blocks_length fuel st ws : length st = 8%nat → length (sha_blocks fuel st ws) = 8%nat.
Proof.
  revert st ws. induction fuel as [|f IH]; intros st ws H; [done|].
  simpl. destruct ws as [|w ws]; [done|]. by apply IH, sha_block_length.
Qed.

(** A digest has 32 bytes. *)
Lemma sha256_length s : length (sha256 s) = 32%nat.
Proof.
  unfold sha256. set (ws := words _).
  pose proof (sha_blocks_length (length ws) sha_init ws eq_refl) as H.
  revert H. generalize (sha_blocks (length ws) sha_init ws) as l.
  intros l H. do 9 (destruct l as [|? l]; try done).
Qed.

(** Published test vectors. *)
Example sha256_abc :
  hex_encode (sha256 "abc")
  = "ba7816bf8f01cfea414140de5dae2223b00361a396177a9cb410ff61f20015ad".
Proof. vm_compute. reflexivity. Qed.

Example sha256_two_blocks :
  hex_encode (sha256 "abcdbcdecdefdefgefghfghighijhijkijkljklmklmnlmnomnopnopq")
  = "248d6a61d20638b8e5c026930c3e6039a33ce45964ff2167f6ecedd419db06c1".
Proof. vm_compute. reflexivity. Qed.

Example hmac_rfc4231_case2 :
  hex_encode (hmac_sha256 "Jefe" "what do ya want for nothing?")
  = "5bdcc146bf60754e6a042426089575c75a003f089d2739839dec58b964ec3843".
Proof. vm_compute. reflexivity. Qed.
