(* ===== verification/GoTime.v ===== *)
(** * Time: instants, durations and RFC 3339

    A [time.Time] is its wall clock in nanoseconds since the Unix epoch and a
    [time.Duration] an [int64] of nanoseconds.  Every reading of the clock is
    an argument of the definition that makes it. *)

From Stdlib Require Import SpecFloat.
From S2P Require Import Prelude GoStrings GoConv.

Local Open Scope go_scope.

Definition second : Z := 1000000000.
Definition minute : Z := 60 * second.
Definition hour : Z := 60 * minute.

(** [Time.Unix]: whole seconds, rounded towards the past. *)
Definition unix_seconds (t : Z) : Z := t / second.


(** [Time.Sub] and [time.Until] saturate at the range of [Duration]. *)
Definition saturate (z : Z) : Z := Z.max min_int64 (Z.min max_int64 z).

(** *** Seconds as a [float64] *)

Definition float_of_int (z : Z) : spec_float := binary_normalize 53 1024 z 0 false.

(** [Duration.Seconds]: the whole seconds plus the rest over a second, each
    operation rounded to nearest even. *)
Definition seconds_float (d : Z) : spec_float :=
  SFadd 53 1024 (float_of_int (Z.quot d second))
    (SFdiv 53 1024 (float_of_int (Z.rem d second)) (float_of_int second)).

(** [int(math.Ceil(f))] of a float in the range of [int]. *)
Definition ceil_float (f : spec_float) : Z :=
  match f with
  | S754_finite s m e =>
      let n := if s then Z.neg m else Z.pos m in
      if 0 <=? e then Z.shiftl n e else - Z.shiftr (- n) (- e)
  | _ => 0
  end.

(** [int64(f)] of a float in its range: towards zero. *)
Definition trunc_float (f : spec_float) : Z :=
  match f with
  | S754_finite s m e => let n := Z.shiftl (Z.pos m) e in if s then - n else n
  | _ => 0
  end.

(** [int64(d.Seconds())] *)
Definition duration_seconds (d : Z) : Z := trunc_float (seconds_float d).

Example duration_seconds_part : duration_seconds (90 * second + 999999999) = 90.
Proof. vm_compute. reflexivity. Qed.
(** Far from zero the rest can be rounded up to a second. *)
Example duration_seconds_rounded : duration_seconds (2400000000 * second + 999999999) = 2400000001.
Proof. vm_compute. reflexivity. Qed.

Example ceil_seconds_whole : ceil_float (seconds_float minute) = 60.
Proof. vm_compute. reflexivity. Qed.
Example ceil_seconds_part : ceil_float (seconds_float 1500000001) = 2.
Proof. vm_compute. reflexivity. Qed.
(** Far from zero the rest is rounded away. *)
Example ceil_seconds_rounded : ceil_float (seconds_float (20000000 * second + 1)) = 20000000.
Proof. vm_compute. reflexivity. Qed.

(** ** [Duration.String] *)

(** The digits of a fraction of [n] digits, trailing zeros left out, with its
    point. *)
Definition format_fraction (n : nat) (v : Z) : gostring :=
  let digits := format_uint v in
  match trim_right (Ascii.eqb "0") (replicate (n - length digits) "0"%char ++ digits) with
  | [] => []
  | ds => "."%char :: ds
  end.

(** [micro] is the sign of a millionth, U+00B5. *)
Definition micro : gostring := ["194"; "181"]%char.

Definition duration_string (d : Z) : gostring :=
  let u := Z.abs d in
  let sign : gostring := if d <? 0 then "-" else [] in
  if u =? 0 then "0s"
  else if u <? 1000 then sign ++ format_uint u ++ "ns"
  else if u <? 1000000 then sign ++ format_uint (u / 1000) ++ format_fraction 3 (u mod 1000) ++ micro ++ "s"
  else if u <? second then sign ++ format_uint (u / 1000000) ++ format_fraction 6 (u mod 1000000) ++ "ms"
  else
    let secs := u / second in
    let mins := secs / 60 in
    let hours := mins / 60 in
    sign ++ (if 0 <? hours then format_uint hours ++ "h" else [])
    ++ (if 0 <? mins then format_uint (mins mod 60) ++ "m" else [])
    ++ format_uint (secs mod 60) ++ format_fraction 9 (u mod second) ++ "s".

Example duration_string_hour : duration_string hour = "1h0m0s".
Proof. vm_compute. reflexivity. Qed.
Example duration_string_mixed : duration_string (- (90 * second + 50000000)) = "-1m30.05s".
Proof. vm_compute. reflexivity. Qed.
Example duration_string_small : duration_string 1500 = "1.5" ++ micro ++ "s".
Proof. vm_compute. reflexivity. Qed.

(** ** [time.ParseDuration] *)

Definition two63 : Z := 9223372036854775808.

(** [leadingInt]: [None] on overflow. *)
Fixpoint leading_int (x : Z) (s : gostring) : option (Z * gostring) :=
  match s with
  | c :: s' =>
      if is_digit c then
        if two63 / 10 <? x then None
        else if two63 <? x * 10 + digit_val c then None
        else leading_int (x * 10 + digit_val c) s'
      else Some (x, s)
  | [] => Some (x, s)
  end.

(** [leadingFraction]: the digits that fit, and the power of ten they are over;
    digits after an overflow are dropped. *)
Fixpoint leading_fraction (x : Z) (scale : spec_float) (overflow : bool) (s : gostring)
  : Z * spec_float * gostring :=
  match s with
  | c :: s' =>
      if is_digit c then
        if overflow || (max_int64 / 10 <? x) then leading_fraction x scale true s'
        else if two63 <? x * 10 + digit_val c then leading_fraction x scale true s'
        else leading_fraction (x * 10 + digit_val c) (SFmul 53 1024 scale (float_of_int 10)) false s'
      else (x, scale, s)
  | [] => (x, scale, s)
  end.

Definition duration_unit (u : gostring) : option Z :=
  if str_eqb u "ns" then Some 1
  else if str_eqb u "us" || str_eqb u (micro ++ "s") || str_eqb u (["206"; "188"]%char ++ "s") then Some 1000
  else if str_eqb u "ms" then Some 1000000
  else if str_eqb u "s" then Some second
  else if str_eqb u "m" then Some minute
  else if str_eqb u "h" then Some hour
  else None.

(** The unit at the start of [s]: everything up to a digit or a point. *)
Fixpoint cut_unit (s : gostring) : gostring * gostring :=
  match s with
  | c :: s' => if Ascii.eqb c "."%char || is_digit c then ([], s) else let '(u, r) := cut_unit s' in (c :: u, r)
  | [] => ([], [])
  end.

(** One number with its unit: the value, and what follows. *)
Definition duration_term (s : gostring) : option (Z * gostring) :=
  '(v, s1) ← leading_int 0 s;
  let pre := (length s1 <? length s)%nat in
  let '(f, scale, s2, post) :=
    match s1 with
    | c :: s' =>
        if Ascii.eqb c "."%char then
          let '(f, scale, s2) := leading_fraction 0 (float_of_int 1) false s' in
          (f, scale, s2, (length s2 <? length s')%nat)
        else (0, float_of_int 1, s1, false)
    | [] => (0, float_of_int 1, s1, false)
    end in
  if negb pre && negb post then None
  else
    let '(u, s3) := cut_unit s2 in
    unit ← duration_unit u;
    if two63 / unit <? v then None
    else
      let v := v * unit in
      let v := if 0 <? f
               then v + trunc_float (SFmul 53 1024 (float_of_int f) (SFdiv 53 1024 (float_of_int unit) scale))
               else v in
      if two63 <? v then None else Some (v, s3).

(** The terms of a duration, summed in [uint64]; each takes at least a byte, so
    the length of the string is fuel enough. *)
Fixpoint duration_terms (fuel : nat) (d : Z) (s : gostring) : option Z :=
  match s, fuel with
  | [], _ => Some d
  | _, O => None
  | _, S fuel =>
      '(v, s') ← duration_term s;
      let d := wrap_uint64 (d + v) in
      if two63 <? d then None else duration_terms fuel d s'
  end.

Definition parse_duration (s : gostring) : option Z :=
  let neg := has_prefix "-" s in
  let s := if neg || has_prefix "+" s then drop 1 s else s in
  if str_eqb s "0" then Some 0
  else if str_eqb s [] then None
  else
    d ← duration_terms (length s) 0 s;
    if neg then Some (wrap_int64 (- wrap_int64 d))
    else if max_int64 <? d then None else Some d.

Example parse_duration_mixed : parse_duration "-1h15m30.918273645s" = Some (- 4530918273645).
Proof. vm_compute. reflexivity. Qed.
Example parse_duration_fraction : parse_duration ".5h" = Some (30 * minute).
Proof. vm_compute. reflexivity. Qed.
Example parse_duration_bare : parse_duration "60" = None.
Proof. vm_compute. reflexivity. Qed.
Example parse_duration_default : parse_duration "10m" = Some (10 * minute).
Proof. vm_compute. reflexivity. Qed.

Lemma duration_terms_range fuel d s n : 0 <= d <= two63 → duration_terms fuel d s = Some n → 0 <= n <= two63.
Proof.
  revert d s. induction fuel as [|fuel IH]; intros d s Hd; destruct s as [|c s]; cbn [duration_terms].
  1,3: by intros [= <-].
  - done.
  - destruct (duration_term _) as [[v s']|]; [|done]. cbn.
    destruct (Z.ltb_spec two63 (wrap_uint64 (d + v))) as [|Hle]; [done|]. intros H.
    apply IH in H; [done|]. pose proof (wrap_uint64_range (d + v)) as [H1 _]. lia.
Qed.

(** A parsed duration is an [int64]. *)
Lemma parse_duration_range s d : parse_duration s = Some d → in_int64 d.
Proof.
  unfold parse_duration. generalize (has_prefix "-" s) as neg. intros neg. cbv zeta. intros H.
  destruct (str_eqb _ "0"); [injection H as <-; by split|].
  destruct (str_eqb _ []); [done|].
  destruct (duration_terms _ _ _) as [n|] eqn:E; [|done]. cbn in H.
  apply duration_terms_range in E; [|by split].
  destruct neg.
  - injection H as <-. apply wrap_int64_range.
  - destruct (Z.ltb_spec max_int64 n); [done|]. injection H as <-. unfold in_int64, min_int64. lia.
Qed.

(** ** [Time.UTC().Format(time.RFC3339)] *)

(** Year, month and day of a number of days since the epoch, in the proleptic
    Gregorian calendar; years are counted from March within a 400-year era. *)
Definition civil_of_days (days : Z) : Z * Z * Z :=
  let z := days + 719468 in
  let era := z / 146097 in
  let doe := z mod 146097 in
  let yoe := (doe - doe / 1460 + doe / 36524 - doe / 146096) / 365 in
  let doy := doe - (365 * yoe + yoe / 4 - yoe / 100) in
  let mp := (5 * doy + 2) / 153 in
  let d := doy - (153 * mp + 2) / 5 + 1 in
  let m := if mp <? 10 then mp + 3 else mp - 9 in
  (yoe + era * 400 + (if m <=? 2 then 1 else 0), m, d).

(** [pad w n] is [n] in decimal with at least [w] digits. *)
Definition pad (w : nat) (n : Z) : gostring :=
  let s := format_uint n in replicate (w - length s) "0"%char ++ s.

Definition format_year (y : Z) : gostring :=
  if y <? 0 then "-"%char :: pad 4 (- y) else pad 4 y.

Definition format_rfc3339 (t : Z) : gostring :=
  let secs := unix_seconds t in
  let '(y, m, d) := civil_of_days (secs / 86400) in
  let r := secs mod 86400 in
  format_year y ++ "-" ++ pad 2 m ++ "-" ++ pad 2 d ++ "T"
  ++ pad 2 (r / 3600) ++ ":" ++ pad 2 (r mod 3600 / 60) ++ ":" ++ pad 2 (r mod 60) ++ "Z".

Example rfc3339_epoch : format_rfc3339 0 = "1970-01-01T00:00:00Z".
Proof. vm_compute. reflexivity. Qed.
Example rfc3339_leap : format_rfc3339 (951827696 * second) = "2000-02-29T12:34:56Z".
Proof. vm_compute. reflexivity. Qed.

(** Every byte of a formatted time is a digit or one of [-T:Z]. *)
Definition time_byte (c : ascii) : bool := is_digit c || contains_byte c "-T:Z".

Lemma pad_bytes w n : 0 <= n → Forall (λ c, time_byte c = true) (pad w n).
Proof.
  intros Hn. unfold pad. apply Forall_app. split.
  - apply Forall_replicate. reflexivity.
  - destruct (format_uint_spec n) as (_ & Hd & _); [done|].
    eapply Forall_impl; [exact Hd|]. intros c Hc. unfold time_byte. by rewrite Hc.
Qed.

Lemma format_year_bytes y : Forall (λ c, time_byte c = true) (format_year y).
Proof.
  unfold format_year. destruct (Z.ltb_spec y 0).
  - constructor; [reflexivity|]. apply pad_bytes. lia.
  - apply pad_bytes. lia.
Qed.

(** Day of year (from March) within a 400-year era. *)
Definition era_day_of_year (doe : Z) : Z :=
  let yoe := (doe - doe / 1460 + doe / 36524 - doe / 146096) / 365 in
  doe - (365 * yoe + yoe / 4 - yoe / 100).

Lemma era_day_of_year_range doe : 0 <= doe < 146097 → 0 <= era_day_of_year doe <= 366.
Proof.
  intros H. unfold era_day_of_year. cbv zeta.
  destruct (Z.eq_dec doe 146096) as [->|Hlast]; [vm_compute; split; congruence|].
  set (y := (doe - doe / 1460 + doe / 36524 - doe / 146096) / 365).
  assert (doe / 146096 = 0) by (apply Z.div_small; lia).
  assert (0 <= doe / 36524 <= 3) by (Z.div_mod_to_equations; lia).
  assert (365 * y <= doe - doe / 1460 + doe / 36524 < 365 * y + 365) by (subst y; Z.div_mod_to_equations; lia).
  clearbody y.
  assert (25 * (doe / 36524) <= doe / 1460) by (Z.div_mod_to_equations; lia).
  assert (100 * (doe / 36524) <= y) by (Z.div_mod_to_equations; lia).
  assert (y / 4 <= doe / 1460) by (Z.div_mod_to_equations; lia).
  assert (doe / 36524 <= y / 100) by (Z.div_mod_to_equations; lia).
  assert (y < 100 * (doe / 36524) + 100) by (Z.div_mod_to_equations; lia).
  assert (doe / 1460 <= y / 4 + 1) by (Z.div_mod_to_equations; lia).
  split; Z.div_mod_to_equations; lia.
Qed.

Lemma civil_month_day days :
  let '(_, m, d) := civil_of_days days in 1 <= m <= 12 ∧ 1 <= d <= 31.
Proof.
  pose proof (Z.mod_pos_bound (days + 719468) 146097 eq_refl) as Hdoe.
  apply era_day_of_year_range in Hdoe. unfold civil_of_days, era_day_of_year in *. cbv zeta in *.
  revert Hdoe. generalize ((days + 719468) mod 146097) as doe. intros doe.
  match goal with |- context [(5 * ?x + 2) / 153] => generalize x as doy end.
  intros doy Hdoy. destruct (Z.ltb_spec ((5 * doy + 2) / 153) 10); Z.div_mod_to_equations; lia.
Qed.

Lemma format_rfc3339_bytes t : Forall (λ c, time_byte c = true) (format_rfc3339 t).
Proof.
  unfold format_rfc3339. pose proof (civil_month_day (unix_seconds t / 86400)) as Hc.
  destruct (civil_of_days _) as [[y m] d]. destruct Hc as [Hm Hd].
  pose proof (Z.mod_pos_bound (unix_seconds t) 86400 eq_refl) as Hr.
  assert (∀ n, 0 <= n → Forall (λ c, time_byte c = true) (pad 2 n)) as Hp
    by apply pad_bytes.
  assert (∀ c, time_byte c = true → Forall (λ c, time_byte c = true) [c]) as H1
    by (intros c E; by constructor).
  rewrite !Forall_app.
  repeat split; first [apply format_year_bytes | apply Hp | by apply H1]; Z.div_mod_to_equations; lia.
Qed.

Lemma format_rfc3339_nonempty t : format_rfc3339 t ≠ [].
Proof.
  unfold format_rfc3339. destruct (civil_of_days _) as [[y m] d].
  intros H. apply (f_equal length) in H. rewrite !length_app in H. simpl in H. lia.
Qed.
