(* ===== verification/GoUrl.v ===== *)
(** * Request URIs and query strings: package [net/url]

    [url.ParseRequestURI] on origin-form URIs, the ones that start with a
    slash, which is all the router dispatches on; [url.ParseQuery] with Go's
    limit on the number of parameters; percent-decoding. *)

From S2P Require Import Prelude GoStrings GoConv.

Local Open Scope go_scope.

(** [url.unescape] for a path ([plus = false]) or a query component; [None] is
    its [EscapeError]. *)
Fixpoint unescape (plus : bool) (s : gostring) : option gostring :=
  match s with
  | [] => Some []
  | c :: s' =>
      if Ascii.eqb c "%"%char then
        match s' with
        | a :: b :: s'' =>
            match hex_val a, hex_val b, unescape plus s'' with
            | Some x, Some y, Some rest => Some (byte_of (x * 16 + y) :: rest)
            | _, _, _ => None
            end
        | _ => None
        end
      else
        let c' := if plus && Ascii.eqb c "+"%char then " "%char else c in
        cons c' <$> unescape plus s'
  end.

Definition is_ctl (c : ascii) : bool := (byte_val c <? 32) || (byte_val c =? 127).

(** [url.ParseRequestURI]: the decoded path and the raw query. *)
Definition parse_request_uri (uri : gostring) : option (gostring * gostring) :=
  if existsb is_ctl uri then None
  else if negb (has_prefix "/" uri) then None
  else
    let '(rest, query) := match cut_at "?"%char uri with
                          | Some (p, q) => (p, q)
                          | None => (uri, [])
                          end in
    path ← unescape false rest; Some (path, query).

(** Go's default limit on the number of parameters in a query string. *)
Definition max_query_params : Z := 10000.

(** One step of [url.parseQuery]: the pair a piece between ampersands adds, or
    [inr] to record an error. *)
Definition query_piece (piece : gostring) : option (gostring * gostring) + unit :=
  if contains_byte ";"%char piece then inr tt
  else match piece with
  | [] => inl None
  | _ =>
      let '(k, v) := match cut_at "="%char piece with
                     | Some (k, v) => (k, v)
                     | None => (piece, [])
                     end in
      match unescape true k, unescape true v with
      | Some k', Some v' => inl (Some (k', v'))
      | _, _ => inr tt
      end
  end.

Fixpoint query_pairs (pieces : list gostring) : list (gostring * gostring) * bool :=
  match pieces with
  | [] => ([], true)
  | p :: ps =>
      let '(l, ok) := query_pairs ps in
      match query_piece p with
      | inl (Some kv) => (kv :: l, ok)
      | inl None => (l, ok)
      | inr _ => (l, false)
      end
  end.

(** [url.ParseQuery]: the pairs in order, and whether there was no error. *)
Definition parse_query (query : gostring) : list (gostring * gostring) * bool :=
  let pieces := split_on "&"%char query in
  if max_query_params <? Z.of_nat (length pieces) then ([], false) else query_pairs pieces.

(** [Values.Get], the values of a key, and the number of distinct keys. *)
Definition query_values (k : gostring) (q : list (gostring * gostring)) : list gostring :=
  map snd (List.filter (λ p, str_eqb (fst p) k) q).
Definition query_get (k : gostring) (q : list (gostring * gostring)) : gostring :=
  match query_values k q with [] => [] | v :: _ => v end.
Definition query_keys (q : list (gostring * gostring)) : nat :=
  length (remove_dups (map fst q)).

(** ** Lemmas *)

(** Bytes that stand for themselves in a path, and in a query component. *)
Definition plain_path_byte (c : ascii) : bool :=
  negb (Ascii.eqb c "%"%char) && negb (Ascii.eqb c "?"%char) && negb (is_ctl c).
Definition plain_query_byte (c : ascii) : bool :=
  negb (contains_byte c "%+&;=") && negb (is_ctl c).

Lemma unescape_path_plain s : Forall (λ c, plain_path_byte c = true) s → unescape false s = Some s.
Proof.
  induction 1 as [|c s Hc Hs IH]; [done|]. simpl.
  unfold plain_path_byte in Hc. apply andb_prop in Hc as [[Hc _]%andb_prop _].
  apply negb_true_iff in Hc. by rewrite Hc, IH.
Qed.

Lemma unescape_query_plain s :
  Forall (λ c, plain_query_byte c = true) s → unescape true s = Some s.
Proof.
  induction 1 as [|c s Hc Hs IH]; [done|]. simpl.
  unfold plain_query_byte in Hc. apply andb_prop in Hc as [Hc _].
  apply negb_true_iff in Hc. unfold contains_byte in Hc. simpl in Hc.
  apply orb_false_iff in Hc as [H1 Hc]. apply orb_false_iff in Hc as [H2 _].
  by rewrite H1, H2, IH.
Qed.

Lemma plain_query_no c s : contains_byte c "%+&;=" = true →
  Forall (λ c, plain_query_byte c = true) s → c ∉ s.
Proof.
  intros Hc Hs Hin. rewrite Forall_forall in Hs. specialize (Hs c Hin).
  unfold plain_query_byte in Hs. by rewrite Hc in Hs.
Qed.

(** A query [k1=v1&k2=v2] of plain, non-empty keys parses to its two pairs. *)
Lemma parse_query_two k1 v1 k2 v2 :
  k1 ≠ [] → k2 ≠ [] →
  Forall (λ c, plain_query_byte c = true) (k1 ++ v1 ++ k2 ++ v2) →
  parse_query (k1 ++ "=" ++ v1 ++ "&" ++ k2 ++ "=" ++ v2) = ([(k1, v1); (k2, v2)], true).
Proof.
  rewrite !Forall_app. intros N1 N2 (K1 & V1 & K2 & V2).
  assert (∀ k v, k ≠ [] → Forall (λ c, plain_query_byte c = true) k →
      Forall (λ c, plain_query_byte c = true) v →
      ("&"%char ∉ (k ++ "=" ++ v)) ∧ query_piece (k ++ "=" ++ v) = inl (Some (k, v))) as Hp.
  { intros k v Hne Hk Hv. split.
    - rewrite !elem_of_app. intros [H|[H|H]].
      + by eapply plain_query_no in H.
      + rewrite list_elem_of_singleton in H. done.
      + by eapply plain_query_no in H.
    - unfold query_piece.
      assert (contains_byte ";"%char (k ++ "=" ++ v) = false) as ->.
      { apply contains_byte_false. rewrite !elem_of_app. intros [H|[H|H]].
        - by eapply plain_query_no in H.
        - rewrite list_elem_of_singleton in H. done.
        - by eapply plain_query_no in H. }
      destruct (k ++ "=" ++ v) as [|c s] eqn:E; [by destruct k|]. rewrite <-E. clear E.
      change (k ++ "=" ++ v) with (k ++ "="%char :: v).
      rewrite cut_at_app by (by eapply plain_query_no).
      by rewrite !unescape_query_plain. }
  destruct (Hp k1 v1) as [A1 Q1]; [done..|]. destruct (Hp k2 v2) as [A2 Q2]; [done..|].
  unfold parse_query.
  replace (k1 ++ "=" ++ v1 ++ "&" ++ k2 ++ "=" ++ v2)
    with ((k1 ++ "=" ++ v1) ++ "&"%char :: (k2 ++ "=" ++ v2)) by (by rewrite <-!app_assoc).
  rewrite split_on_app, split_on_none by done.
  revert Q1 Q2. generalize (k1 ++ "=" ++ v1) (k2 ++ "=" ++ v2). intros p1 p2 Q1 Q2.
  cbn -[query_piece]. by rewrite Q1, Q2.
Qed.

(** A URI made of a plain path and a query without control bytes. *)
Lemma parse_request_uri_plain path query :
  has_prefix "/" path = true → Forall (λ c, plain_path_byte c = true) path →
  existsb is_ctl query = false →
  parse_request_uri (path ++ "?"%char :: query) = Some (path, query).
Proof.
  intros Hs Hp Hq. unfold parse_request_uri.
  assert (existsb is_ctl (path ++ "?"%char :: query) = false) as ->.
  { rewrite existsb_app. cbn [existsb]. rewrite Hq, orb_false_r.
    apply not_true_iff_false. intros (c & Hin & Hc)%existsb_exists.
    apply list_elem_of_In in Hin. rewrite Forall_forall in Hp. apply Hp in Hin.
    unfold plain_path_byte in Hin. rewrite Hc in Hin. by rewrite andb_false_r in Hin. }
  apply has_prefix_spec in Hs as [r Hr].
  assert (has_prefix "/" (path ++ "?"%char :: query) = true) as ->.
  { apply has_prefix_spec. exists (r ++ "?"%char :: query). by rewrite Hr. }
  rewrite cut_at_app.
  - simpl. by rewrite unescape_path_plain.
  - intros Hin. rewrite Forall_forall in Hp. by apply Hp in Hin.
Qed.

Lemma plain_query_no_ctl s : Forall (λ c, plain_query_byte c = true) s → existsb is_ctl s = false.
Proof.
  intros H. apply not_true_iff_false. intros (c & Hin & Hc)%existsb_exists.
  apply list_elem_of_In in Hin. rewrite Forall_forall in H. apply H in Hin.
  unfold plain_query_byte in Hin. rewrite Hc in Hin. by rewrite andb_false_r in Hin.
Qed.
