(* ===== verification/GoMime.v ===== *)
(** * Media types: package [mime], and white space

    [unicode.IsSpace] trimming and [mime.ParseMediaType] with its quoted values
    and RFC 2231 continuations, as the LFS handlers use it on [Accept] and
    [Content-Type] headers. *)

From S2P Require Import Prelude GoStrings GoUnicode GoConv GoUrl.

Local Open Scope go_scope.

(** ** White space *)

Definition ascii_space (c : ascii) : bool :=
  let v := byte_val c in ((9 <=? v) && (v <=? 13)) || (v =? 32).

(** The two- and three-byte encodings of [unicode.White_Space]: U+0085, U+00A0,
    U+1680, U+2000 to U+200A, U+2028, U+2029, U+202F, U+205F, U+3000. *)
Definition space2 (a b : ascii) : bool :=
  (byte_val a =? 194) && ((byte_val b =? 133) || (byte_val b =? 160)).
Definition space3 (a b c : ascii) : bool :=
  let '(x, y, z) := (byte_val a, byte_val b, byte_val c) in
  ((x =? 225) && (y =? 154) && (z =? 128))
  || ((x =? 226) && (y =? 128)
      && (((128 <=? z) && (z <=? 138)) || (z =? 168) || (z =? 169) || (z =? 175)))
  || ((x =? 226) && (y =? 129) && (z =? 159))
  || ((x =? 227) && (y =? 128) && (z =? 128)).

(** [strings.TrimLeftFunc(s, unicode.IsSpace)] *)
Fixpoint trim_left_space (s : gostring) : gostring :=
  match s with
  | a :: s1 =>
      if ascii_space a then trim_left_space s1
      else match s1 with
           | b :: s2 =>
               if space2 a b then trim_left_space s2
               else match s2 with
                    | c :: s3 => if space3 a b c then trim_left_space s3 else s
                    | [] => s
                    end
           | [] => s
           end
  | [] => []
  end.

(** The same from the end, on a reversed string. *)
Fixpoint trim_end_space (s : gostring) : gostring :=
  match s with
  | c :: s1 =>
      if ascii_space c then trim_end_space s1
      else match s1 with
           | b :: s2 =>
               if space2 b c then trim_end_space s2
               else match s2 with
                    | a :: s3 => if space3 a b c then trim_end_space s3 else s
                    | [] => s
                    end
           | [] => s
           end
  | [] => []
  end.

(** [strings.TrimSpace] *)
Definition trim_space (s : gostring) : gostring := rev (trim_end_space (rev (trim_left_space s))).

(** ** Tokens and values *)

Definition is_tspecial (c : ascii) : bool :=
  contains_byte c "()<>@,;:\/[]?=" || (byte_val c =? 34).
Definition is_token_char (c : ascii) : bool :=
  (32 <? byte_val c) && (byte_val c <? 127) && negb (is_tspecial c).

(** [consumeToken]: the token and the rest. *)
Fixpoint consume_token (s : gostring) : gostring * gostring :=
  match s with
  | c :: s' => if is_token_char c then let '(t, r) := consume_token s' in (c :: t, r) else ([], s)
  | [] => ([], [])
  end.

(** A quoted value after its opening quote; [None] when it does not end well. *)
Fixpoint quoted_value (s : gostring) : option (gostring * gostring) :=
  match s with
  | [] => None
  | c :: s1 =>
      if byte_val c =? 34 then Some ([], s1)
      else if (byte_val c =? 92) && match s1 with d :: _ => is_tspecial d | [] => false end then
        match s1 with
        | d :: s2 => match quoted_value s2 with Some (v, r) => Some (d :: v, r) | None => None end
        | [] => None
        end
      else if (byte_val c =? 13) || (byte_val c =? 10) then None
      else match quoted_value s1 with Some (v, r) => Some (c :: v, r) | None => None end
  end.

(** [consumeValue] *)
Definition consume_value (s : gostring) : gostring * gostring :=
  match s with
  | c :: s' =>
      if byte_val c =? 34 then match quoted_value s' with Some p => p | None => ([], s) end
      else consume_token s
  | [] => ([], [])
  end.

Section Mime.
Context {U : Unicode}.

(** [consumeMediaParam]: parameter, value and rest, or [None] for the empty
    parameter it returns when there is none. *)
Definition consume_media_param (v : gostring) : option (gostring * gostring * gostring) :=
  match trim_left_space v with
  | c :: rest =>
      if Ascii.eqb c ";"%char then
        let '(param, rest) := consume_token (trim_left_space rest) in
        match to_lower param with
        | [] => None
        | param =>
            match trim_left_space rest with
            | e :: rest =>
                if Ascii.eqb e "="%char then
                  let rest := trim_left_space rest in
                  let '(value, rest2) := consume_value rest in
                  if str_eqb value [] && str_eqb rest2 rest then None else Some (param, value, rest2)
                else None
            | [] => None
            end
        end
      else None
  | [] => None
  end.

(** [checkMediaTypeDisposition] *)
Definition check_media_type (s : gostring) : bool :=
  let '(typ, rest) := consume_token s in
  negb (str_eqb typ [])
  && match rest with
     | [] => true
     | c :: rest =>
         Ascii.eqb c "/"%char
         && let '(sub, rest) := consume_token rest in
            negb (str_eqb sub []) && str_eqb rest []
     end.

(** Parameters in the order read, later ones last; a repeated name must have the
    same value. *)
Inductive params_result : Type :=
| ParamsOk (ps : list (gostring * gostring))
| ParamsInvalid
| ParamsDuplicate.

Definition find_param (k : gostring) (ps : list (gostring * gostring)) : option gostring :=
  match find (λ p, str_eqb (fst p) k) ps with Some (_, v) => Some v | None => None end.

Fixpoint media_params (fuel : nat) (v : gostring) (ps : list (gostring * gostring)) : params_result :=
  match fuel with
  | O => ParamsInvalid
  | S f =>
      match trim_left_space v with
      | [] => ParamsOk ps
      | v =>
          match consume_media_param v with
          | None => if str_eqb (trim_space v) ";" then ParamsOk ps else ParamsInvalid
          | Some (k, value, rest) =>
              match find_param k ps with
              | Some value' => if str_eqb value value' then media_params f rest ps else ParamsDuplicate
              | None => media_params f rest (ps ++ [(k, value)])
              end
          end
      end
  end.

(** ** RFC 2231 *)

(** [decode2231Enc] *)
Definition decode_2231 (v : gostring) : option gostring :=
  match cut_at "'"%char v with
  | Some (charset, rest) =>
      match cut_at "'"%char rest with
      | Some (_, enc) =>
          if str_eqb (to_lower charset) "us-ascii" || str_eqb (to_lower charset) "utf-8"
          then unescape false enc else None
      | None => None
      end
  | None => None
  end.

(** The pieces [key*0], [key*1], ... of a parameter from the [n]-th on, each
    plain or, with a star, percent-encoded; [None] when there is none. *)
Fixpoint stitch (fuel : nat) (key : gostring) (n : nat)
    (ps : list (gostring * gostring)) : option gostring :=
  match fuel with
  | O => None
  | S f =>
      let name := key ++ "*" ++ format_uint (Z.of_nat n) in
      let piece :=
        match find_param name ps with
        | Some v => Some v
        | None =>
            match find_param (name ++ "*") ps with
            | None => None
            | Some v => Some (default [] (if (n =? 0)%nat then decode_2231 v else unescape false v))
            end
        end in
      match piece with
      | None => None
      | Some p => Some (p ++ default [] (stitch f key (S n) ps))
      end
  end.

(** The value of a parameter: a continued one replaces a plain one. *)
Definition param_value (key : gostring) (ps : list (gostring * gostring)) : gostring :=
  let plain := default [] (find_param key ps) in
  match find_param (key ++ "*") ps with
  | Some v => default plain (decode_2231 v)
  | None => default plain (stitch (S (length ps)) key 0 ps)
  end.

(** ** [mime.ParseMediaType] *)

(** The media type, the value of a parameter (empty when absent), and whether
    there was no error. *)
Record media := { md_type : gostring; md_params : list (gostring * gostring); md_ok : bool }.

Definition parse_media_type (v : gostring) : media :=
  let base := match cut_at ";"%char v with Some (b, _) => b | None => v end in
  let mt := trim_space (to_lower base) in
  if negb (check_media_type mt) then {| md_type := []; md_params := []; md_ok := false |}
  else
    match media_params (S (length v)) (drop (length base) v) [] with
    | ParamsOk ps => {| md_type := mt; md_params := ps; md_ok := true |}
    | ParamsInvalid => {| md_type := mt; md_params := []; md_ok := false |}
    | ParamsDuplicate => {| md_type := []; md_params := []; md_ok := false |}
    end.
End Mime.

(** ** Examples *)

Section Examples.
#[local] Instance mime_sample_unicode : Unicode := sample_unicode.

Example media_charset :
  parse_media_type "Application/VND.git-lfs+JSON ; charset=utf-8"
  = {| md_type := "application/vnd.git-lfs+json"; md_params := [("charset"%go, "utf-8"%go)]; md_ok := true |}.
Proof. vm_compute. reflexivity. Qed.

Example media_malformed_parameter :
  parse_media_type "application/vnd.git-lfs+json; foo"
  = {| md_type := "application/vnd.git-lfs+json"; md_params := []; md_ok := false |}.
Proof. vm_compute. reflexivity. Qed.

Example media_continuation :
  param_value "q" (md_params (parse_media_type "a/b; q*0=0; q*1=.5")) = "0.5".
Proof. vm_compute. reflexivity. Qed.

Example media_trailing_semicolon : md_ok (parse_media_type "text/html ; ") = true.
Proof. vm_compute. reflexivity. Qed.
End Examples.
