(* ===== verification/GoMux.v ===== *)
(** * Routing requests: [http.ServeMux]

    Patterns of package [net/http]: their syntax, when two of them conflict, and
    how the routing tree finds the handler of a request.  The tree is held as the
    list of its patterns: going down to a child keeps the patterns that continue
    there.  Wildcards that match several segments are written as a trailing slash;
    the named ones, and wildcard names beyond ASCII, are not parsed. *)

From S2P Require Import Prelude GoStrings GoUnicode GoPath GoConv GoUrl GoMime.

Local Open Scope go_scope.

(** ** Patterns *)

(** A segment; ["{$}"], the end of a path with a trailing slash, is the literal
    slash, as in the tree. *)
Inductive segment : Type :=
| Lit (s : gostring)
| Wild (name : gostring)
| Multi.

#[export] Instance segment_eq_dec : EqDecision segment.
Proof. solve_decision. Defined.

Record pattern := { pt_method : gostring; pt_host : gostring; pt_segs : list segment }.

#[export] Instance pattern_eq_dec : EqDecision pattern.
Proof. solve_decision. Defined.

Definition is_multi (s : segment) : bool := match s with Multi => true | _ => false end.
Definition is_wild (s : segment) : bool := match s with Wild _ => true | _ => false end.
Definition ends_in_multi (l : list segment) : bool := match last l with Some s => is_multi s | None => false end.

(** [pathUnescape] *)
Definition path_unescape (s : gostring) : gostring := default s (unescape false s).

(** [cleanPath] of package [net/http]: a trailing slash stays. *)
Definition clean_url_path (p : gostring) : gostring :=
  match p with
  | [] => "/"
  | _ =>
      let p := if has_prefix "/" p then p else "/" ++ p in
      let np := path_clean p in
      if has_suffix "/" p && negb (str_eqb np "/") then np ++ "/" else np
  end.

(** *** Parsing *)

Definition ident_byte (first : bool) (c : ascii) : bool :=
  is_lower c || is_upper c || Ascii.eqb c "_"%char || (negb first && is_digit c).

(** [isValidWildcardName] on ASCII. *)
Definition valid_wildcard_name (s : gostring) : bool :=
  match s with c :: s => ident_byte true c && forallb (ident_byte false) s | [] => false end.

(** A segment that is not a trailing slash; [final] when nothing follows it. *)
Definition parse_segment (final : bool) (s : gostring) : option segment :=
  if negb (contains_byte "{" s) then Some (Lit (path_unescape s))
  else
    match s with
    | c :: s' =>
        if negb (Ascii.eqb c "{") || negb (has_suffix "}" s) then None
        else
          let name := removelast s' in
          if str_eqb name "$" then if final then Some (Lit "/") else None
          else if valid_wildcard_name name then Some (Wild name) else None
    | [] => None
    end.

Fixpoint parse_segments (seen : list gostring) (parts : list gostring) : option (list segment) :=
  match parts with
  | [] => Some []
  | part :: parts =>
      if str_eqb part [] && match parts with [] => true | _ => false end then Some [Multi]
      else
        seg ← parse_segment (match parts with [] => true | _ => false end) part;
        match seg with
        | Wild name =>
            if existsb (str_eqb name) seen then None else cons seg <$> parse_segments (name :: seen) parts
        | _ => cons seg <$> parse_segments seen parts
        end
  end.

Definition is_blank (c : ascii) : bool := contains_byte c " 	".
Fixpoint cut_blank (s : gostring) : option (gostring * gostring) :=
  match s with
  | [] => None
  | c :: s => if is_blank c then Some ([], s) else '(a, b) ← cut_blank s; Some (c :: a, b)
  end.

(** [parsePattern]; [None] is its error. *)
Definition parse_pattern (s : gostring) : option pattern :=
  let '(method, rest) := match cut_blank s with
                         | Some (m, r) => (m, trim_left is_blank r)
                         | None => ([], s)
                         end in
  if negb (str_eqb method []) && negb (forallb is_token_char method) then None
  else
    '(host, path) ← cut_at slash rest;
    if contains_byte "{" host then None
    else if negb (str_eqb method []) && negb (str_eqb method "CONNECT")
            && negb (str_eqb (clean_url_path (slash :: path)) (slash :: path)) then None
    else
      segs ← parse_segments [] (split_on slash path);
      Some {| pt_method := method; pt_host := host; pt_segs := segs |}.

Example parse_unlock : parse_pattern "POST /org/repo/locks/{id}/unlock"
  = Some {| pt_method := "POST"; pt_host := [];
            pt_segs := [Lit "org"; Lit "repo"; Lit "locks"; Wild "id"; Lit "unlock"]%go |}.
Proof. reflexivity. Qed.
Example parse_root : parse_pattern "GET /{$}"
  = Some {| pt_method := "GET"; pt_host := []; pt_segs := [Lit "/"]%go |}.
Proof. reflexivity. Qed.

(** *** Conflicts *)

Inductive relationship : Type := Equivalent | MoreGeneral | MoreSpecific | Disjoint | Overlaps.

(** [combineRelationships] *)
Definition combine_relationships (r1 r2 : relationship) : relationship :=
  match r1, r2 with
  | Equivalent, _ => r2
  | Disjoint, _ => Disjoint
  | Overlaps, Disjoint => Disjoint
  | Overlaps, _ => Overlaps
  | _, Equivalent => r1
  | MoreGeneral, MoreSpecific | MoreSpecific, MoreGeneral => Overlaps
  | _, _ => r2
  end.

(** [compareMethods] *)
Definition compare_methods (m1 m2 : gostring) : relationship :=
  if str_eqb m1 m2 then Equivalent
  else if str_eqb m1 [] then MoreGeneral
  else if str_eqb m2 [] then MoreSpecific
  else if str_eqb m1 "GET" && str_eqb m2 "HEAD" then MoreGeneral
  else if str_eqb m2 "GET" && str_eqb m1 "HEAD" then MoreSpecific
  else Disjoint.

(** [compareSegments] *)
Definition compare_segments (s1 s2 : segment) : relationship :=
  match s1, s2 with
  | Multi, Multi => Equivalent
  | Multi, _ => MoreGeneral
  | _, Multi => MoreSpecific
  | Wild _, Wild _ => Equivalent
  | Wild _, Lit s => if str_eqb s "/" then Disjoint else MoreGeneral
  | Lit s, Wild _ => if str_eqb s "/" then Disjoint else MoreSpecific
  | Lit s, Lit t => if str_eqb s t then Equivalent else Disjoint
  end.

(** The loop of [comparePaths], and what it does at the end of one pattern. *)
Fixpoint compare_from (rel : relationship) (l1 l2 : list segment) (multi1 multi2 : bool) : relationship :=
  match l1, l2 with
  | s1 :: l1, s2 :: l2 =>
      match combine_relationships rel (compare_segments s1 s2) with
      | Disjoint => Disjoint
      | rel => compare_from rel l1 l2 multi1 multi2
      end
  | [], [] => rel
  | [], _ => if multi1 then combine_relationships rel MoreGeneral else Disjoint
  | _, [] => if multi2 then combine_relationships rel MoreSpecific else Disjoint
  end.

(** [comparePaths] *)
Definition compare_paths (l1 l2 : list segment) : relationship :=
  let m1 := ends_in_multi l1 in
  let m2 := ends_in_multi l2 in
  if negb (length l1 =? length l2)%nat && negb m1 && negb m2 then Disjoint
  else compare_from Equivalent l1 l2 m1 m2.

(** [comparePathsAndMethods] *)
Definition compare_patterns (p1 p2 : pattern) : relationship :=
  match compare_methods (pt_method p1) (pt_method p2) with
  | Disjoint => Disjoint
  | rel => combine_relationships rel (compare_paths (pt_segs p1) (pt_segs p2))
  end.

(** [conflictsWith] *)
Definition conflicts_with (p1 p2 : pattern) : bool :=
  str_eqb (pt_host p1) (pt_host p2)
  && match compare_patterns p1 p2 with Equivalent | Overlaps => true | _ => false end.

(** ** The multiplexer *)

Section Mux.
Context {A : Type}.

Abbreviation mux := (list (pattern * A)).

(** [ServeMux.Handle]; [None] is its panic. *)
Definition handle (s : gostring) (a : A) (m : mux) : option mux :=
  p ← parse_pattern s;
  if existsb (λ '(q, _), conflicts_with p q) m then None else Some (m ++ [(p, a)]).

Fixpoint handle_all (l : list (gostring * A)) (m : mux) : option mux :=
  match l with
  | [] => Some m
  | (s, a) :: l => m ← handle s a m; handle_all l m
  end.

(** [firstSegment], repeatedly: the segments of a path, decoded. *)
Fixpoint path_parts (parts : list gostring) : list gostring :=
  match parts with
  | [] => []
  | [[]] => ["/"%go]
  | part :: parts => path_unescape part :: path_parts parts
  end.
Definition path_segments (path : gostring) : list gostring :=
  match path with [] => [] | _ :: rest => path_parts (split_on slash rest) end.

(** What is left of the patterns at a node of the tree, with the whole pattern. *)
Abbreviation node := (list (list segment * (pattern * A))).

Definition literal_child (seg : gostring) : node → node :=
  omap (λ '(l, x), match l with Lit s :: l => if str_eqb s seg then Some (l, x) else None | _ => None end).
Definition wildcard_child : node → node :=
  omap (λ '(l, x), match l with Wild _ :: l => Some (l, x) | _ => None end).
Definition multi_child (n : node) : option (pattern * A) :=
  head (omap (λ '(l, x), match l with [Multi] => Some x | _ => None end) n).
Definition node_pattern (n : node) : option (pattern * A) :=
  head (omap (λ '(l, x), match l with [] => Some x | _ => None end) n).

(** [matchPath]: a literal, then a wildcard, then a trailing slash. *)
Fixpoint match_path (segs : list gostring) (n : node) : option ((pattern * A) * list gostring) :=
  match segs with
  | [] => (λ x, (x, [])) <$> node_pattern n
  | seg :: segs =>
      match match_path segs (literal_child seg n) with
      | Some r => Some r
      | None =>
          match (if str_eqb seg "/" then None
                 else (λ '(x, vals), (x, seg :: vals)) <$> match_path segs (wildcard_child n)) with
          | Some r => Some r
          | None => (λ x, (x, [])) <$> multi_child n
          end
      end
  end.

Definition method_node (host method : gostring) (m : mux) : node :=
  omap (λ '(p, a), if str_eqb (pt_host p) host && str_eqb (pt_method p) method
                   then Some (pt_segs p, (p, a)) else None) m.

(** [matchMethodAndPath] *)
Definition match_method (host method : gostring) (segs : list gostring) (m : mux)
  : option ((pattern * A) * list gostring) :=
  match match_path segs (method_node host method m) with
  | Some r => Some r
  | None =>
      match (if str_eqb method "HEAD" then match_path segs (method_node host "GET" m) else None) with
      | Some r => Some r
      | None => match_path segs (method_node host [] m)
      end
  end.

(** [routingNode.match] *)
Definition mux_match (host method : gostring) (path : gostring) (m : mux)
  : option ((pattern * A) * list gostring) :=
  match (if str_eqb host [] then None else match_method host method (path_segments path) m) with
  | Some r => Some r
  | None => match_method [] method (path_segments path) m
  end.

(** [exactMatch] *)
Definition exact_match (r : option ((pattern * A) * list gostring)) (path : gostring) : bool :=
  match r with
  | None => false
  | Some ((p, _), _) =>
      if negb (ends_in_multi (pt_segs p)) then true
      else has_suffix "/" path && (length (pt_segs p) =? length (filter (λ c, c = slash) path))%nat
  end.

(** What the multiplexer does with a request: the handler's answer with the path
    values, a redirect, or its own 404 or 405. *)
Inductive routed : Type :=
| Routed (a : A) (vals : list (gostring * gostring))
| RedirectTo (path : gostring)
| NoHandler.

Definition wildcard_names (p : pattern) : list gostring :=
  omap (λ s, match s with Wild name => Some name | _ => None end) (pt_segs p).

(** [findHandler], for methods other than [CONNECT]; [path] is the request's escaped
    path, and [host] its host without port. *)
Definition find_handler (host method path : gostring) (m : mux) : routed :=
  let clean := clean_url_path path in
  let found := mux_match host method clean m in
  if negb (exact_match found clean) && negb (has_suffix "/" clean)
     && exact_match (mux_match host method (clean ++ "/") m) (clean ++ "/")
  then RedirectTo (clean ++ "/")
  else if negb (str_eqb clean path) then RedirectTo clean
  else
    match found with
    | Some ((p, a), vals) => Routed a (zip (wildcard_names p) vals)
    | None => NoHandler
    end.
End Mux.
Arguments routed A : clear implicits.

(** ** What matches *)

(** [path_matches l segs vals]: a path of segments [segs] is one of the pattern [l],
    with [vals] for its wildcards. *)
Inductive path_matches : list segment → list gostring → list gostring → Prop :=
| matches_nil : path_matches [] [] []
| matches_lit s l segs vals : path_matches l segs vals → path_matches (Lit s :: l) (s :: segs) vals
| matches_wild name s l segs vals : s ≠ "/"%go → path_matches l segs vals →
    path_matches (Wild name :: l) (s :: segs) (s :: vals)
| matches_multi s segs : path_matches [Multi] (s :: segs) [].

#[export] Hint Constructors path_matches : go.

Section MatchProperties.
Context {A : Type}.
Implicit Types n : list (list segment * (pattern * A)).

Lemma head_omap_in {X Y} (f : X → option Y) (l : list X) y : head (omap f l) = Some y → ∃ x, x ∈ l ∧ f x = Some y.
Proof.
  intros H. apply list_elem_of_omap. destruct (omap f l) as [|z k]; [done|]. injection H as ->. by left.
Qed.
Lemma head_omap_some {X Y} (f : X → option Y) (l : list X) (x : X) y : x ∈ l → f x = Some y → is_Some (head (omap f l)).
Proof.
  intros Hx Hf. assert (y ∈ omap f l) as Hin by (apply list_elem_of_omap; eauto).
  destruct (omap f l) as [|z k]; [by apply elem_of_nil in Hin|]. by exists z.
Qed.

Lemma match_path_sound segs n x vals : match_path segs n = Some (x, vals) →
  ∃ l, (l, x) ∈ n ∧ path_matches l segs vals.
Proof.
  revert n vals. induction segs as [|seg segs IH]; intros n vals H; cbn [match_path] in H.
  - destruct (node_pattern n) as [y|] eqn:E; [|done]. injection H as -> <-.
    apply head_omap_in in E as ([l z] & Hin & Hf). destruct l; [|done]. injection Hf as ->. eauto with go.
  - destruct (match_path segs (literal_child seg n)) as [[y v]|] eqn:E1; [injection H as -> ->|].
    { apply IH in E1 as (l & Hin & Hm). apply list_elem_of_omap in Hin as ([[|[s| |] l'] z] & Hin & Hf); try done.
      destruct (str_eqb s seg) eqn:Es; [|done]. injection Hf as -> ->. apply str_eqb_eq in Es as ->. eauto with go. }
    destruct (str_eqb seg "/") eqn:Eslash.
    2: { destruct (match_path segs (wildcard_child n)) as [[y v]|] eqn:E2; [injection H as -> <-|].
      { apply IH in E2 as (l & Hin & Hm). apply list_elem_of_omap in Hin as ([[|[| |] l'] z] & Hin & Hf); try done.
        injection Hf as -> ->. apply str_eqb_neq in Eslash. eauto with go. }
      destruct (multi_child n) as [y|] eqn:E3; [|done]. injection H as -> <-.
      apply head_omap_in in E3 as ([[|[| |] [|]] z] & Hin & Hf); try done. injection Hf as ->. eauto with go. }
    destruct (multi_child n) as [y|] eqn:E3; [|done]. injection H as -> <-.
    apply head_omap_in in E3 as ([[|[| |] [|]] z] & Hin & Hf); try done. injection Hf as ->. eauto with go.
Qed.

Lemma match_path_complete segs n l x vals : (l, x) ∈ n → path_matches l segs vals →
  is_Some (match_path segs n).
Proof.
  intros Hin Hm. revert n Hin. induction Hm as [|s l segs vals Hm IH|name s l segs vals Hs Hm IH|s segs];
    intros n Hin; cbn [match_path].
  - apply fmap_is_Some. by eapply head_omap_some.
  - assert ((l, x) ∈ literal_child s n) as [r ->]%IH; [|eauto].
    apply list_elem_of_omap. exists (Lit s :: l, x). by rewrite str_eqb_refl.
  - destruct (match_path segs (literal_child s n)); [eauto|].
    rewrite (proj2 (str_eqb_neq _ _) Hs).
    assert ((l, x) ∈ wildcard_child n) as [[y v] ->]%IH; [|by eexists].
    apply list_elem_of_omap. by exists (Wild name :: l, x).
  - assert (is_Some (multi_child n)) as [y ->] by by eapply head_omap_some.
    repeat case_match; by eexists.
Qed.

(** A pattern without wildcards comes before all others. *)
Lemma match_path_literal segs n x : (map Lit segs, x) ∈ n →
  ∃ y, match_path segs n = Some (y, []) ∧ (map Lit segs, y) ∈ n.
Proof.
  revert n. induction segs as [|s segs IH]; intros n Hin; cbn [match_path map] in *.
  - assert (is_Some (node_pattern n)) as [y Hy] by by eapply head_omap_some.
    exists y. rewrite Hy. split; [done|]. apply head_omap_in in Hy as ([[|] z] & Hz & Hf); [|done]. by injection Hf as ->.
  - destruct (IH (literal_child s n)) as (y & -> & Hy).
    { apply list_elem_of_omap. exists (Lit s :: map Lit segs, x). by rewrite str_eqb_refl. }
    exists y. split; [done|]. apply list_elem_of_omap in Hy as ([[|[t| |] l] z] & Hz & Hf); try done.
    destruct (str_eqb t s) eqn:Et; [|done]. injection Hf as -> ->. by apply str_eqb_eq in Et as ->.
Qed.

(** The patterns a request can match: those of its method, with [HEAD] the [GET]
    ones, and those of no method. *)
Definition serves (method pattern_method : gostring) : Prop :=
  pattern_method = method ∨ (method = "HEAD"%go ∧ pattern_method = "GET"%go) ∨ pattern_method = [].

Definition hostless (m : list (pattern * A)) : Prop := Forall (λ '(p, _), pt_host p = []) m.

Lemma method_node_in host method (m : list (pattern * A)) l x : (l, x) ∈ method_node host method m ↔
  ∃ p a, x = (p, a) ∧ l = pt_segs p ∧ (p, a) ∈ m ∧ pt_host p = host ∧ pt_method p = method.
Proof.
  unfold method_node. rewrite list_elem_of_omap. split.
  - intros ([p a] & Hin & Hf). destruct (str_eqb _ _ && str_eqb _ _) eqn:E; [|done]. injection Hf as <- <-.
    apply andb_prop in E as [E1%str_eqb_eq E2%str_eqb_eq]. by exists p, a.
  - intros (p & a & -> & -> & Hin & <- & <-). exists (p, a). by rewrite !str_eqb_refl.
Qed.

Lemma match_method_sound host method segs (m : list (pattern * A)) p a vals :
  match_method host method segs m = Some ((p, a), vals) →
  (p, a) ∈ m ∧ serves method (pt_method p) ∧ path_matches (pt_segs p) segs vals.
Proof.
  assert (∀ mt, match_path segs (method_node host mt m) = Some ((p, a), vals) →
    (p, a) ∈ m ∧ pt_method p = mt ∧ path_matches (pt_segs p) segs vals) as Hone.
  { intros mt H. apply match_path_sound in H as (l & Hin & Hm).
    apply method_node_in in Hin as (q & b & [= <- <-] & -> & Hin & _ & Hmt). done. }
  unfold match_method, serves. intros H.
  destruct (match_path segs (method_node host method m)) as [[[q b] v]|] eqn:E1.
  { injection H as -> -> ->. apply Hone in E1 as (? & ? & ?). by split_and!; auto. }
  destruct (str_eqb method "HEAD") eqn:Eh.
  - apply str_eqb_eq in Eh. destruct (match_path segs (method_node host "GET" m)) as [[[q b] v]|] eqn:E2.
    { injection H as -> -> ->. apply Hone in E2 as (? & ? & ?). by split_and!; auto. }
    apply Hone in H as (? & ? & ?). by split_and!; auto.
  - apply Hone in H as (? & ? & ?). by split_and!; auto.
Qed.

Lemma match_method_complete method segs (m : list (pattern * A)) p a vals :
  (p, a) ∈ m → pt_host p = [] → serves method (pt_method p) → path_matches (pt_segs p) segs vals →
  is_Some (match_method [] method segs m).
Proof.
  intros Hin Hh Hs Hm.
  assert (is_Some (match_path segs (method_node [] (pt_method p) m))) as [r Hr].
  { eapply match_path_complete; [|exact Hm]. apply method_node_in. by exists p, a. }
  unfold match_method. destruct Hs as [Hs|[[-> Hs]|Hs]]; rewrite Hs in Hr.
  - rewrite Hr. eauto.
  - repeat case_match; eauto; simplify_eq; congruence.
  - repeat case_match; eauto.
Qed.

Lemma match_host_none (host method : gostring) segs (m : list (pattern * A)) :
  hostless m → host ≠ [] → match_method host method segs m = None.
Proof.
  intros Hm Hne. destruct (match_method host method segs m) as [[[p a] vals]|] eqn:E; [|done].
  exfalso. assert (∀ mt, method_node host mt m = []) as Hnil.
  { intros mt. destruct (method_node host mt m) as [|[l x] n] eqn:En; [done|].
    assert ((l, x) ∈ method_node host mt m) as Hin by (rewrite En; by left).
    apply method_node_in in Hin as (q & b & _ & _ & Hin & Hq & _).
    unfold hostless in Hm. rewrite Forall_forall in Hm. specialize (Hm _ Hin). cbn in Hm. congruence. }
  unfold match_method in E. rewrite !Hnil in E.
  assert (match_path segs ([] : list (list segment * (pattern * A))) = None) as Hno.
  { clear. induction segs as [|seg segs IH]; [done|]. cbn [match_path].
    change (literal_child seg []) with ([] : list (list segment * (pattern * A))).
    change (wildcard_child []) with ([] : list (list segment * (pattern * A))). rewrite IH.
    by destruct (str_eqb seg "/"). }
  rewrite Hno in E. by destruct (str_eqb method "HEAD").
Qed.

Lemma mux_match_hostless (host method path : gostring) (m : list (pattern * A)) : hostless m →
  mux_match host method path m = match_method [] method (path_segments path) m.
Proof.
  intros Hm. unfold mux_match. destruct (str_eqb host []) eqn:E; [done|].
  apply str_eqb_neq in E. by rewrite match_host_none.
Qed.

(** A request goes to a pattern that matches it when no other of a method is found. *)
Lemma match_method_found method segs (m : list (pattern * A)) p a vals :
  (p, a) ∈ m → pt_host p = [] → pt_method p ≠ [] → serves method (pt_method p) → path_matches (pt_segs p) segs vals →
  (∀ mt y v, mt ≠ [] → serves method mt → match_path segs (method_node [] mt m) = Some (y, v) → y = (p, a)) →
  ∃ v, match_method [] method segs m = Some ((p, a), v) ∧ path_matches (pt_segs p) segs v.
Proof.
  intros Hin Hh Hne Hs Hm Hany.
  assert (∃ v, match_method [] method segs m = Some ((p, a), v)) as [v Hv].
  2: { exists v. split; [done|]. by apply match_method_sound in Hv as (_ & _ & ?). }
  assert (is_Some (match_path segs (method_node [] (pt_method p) m))) as [[y v] Hr].
  { eapply match_path_complete; [|exact Hm]. apply method_node_in. by exists p, a. }
  pose proof (Hany _ _ _ Hne Hs Hr) as ->. unfold match_method.
  destruct (match_path segs (method_node [] method m)) as [[y w]|] eqn:E1.
  { destruct (decide (method = [])) as [->|Hmne].
    - destruct Hs as [?|[[? _]|?]]; done.
    - rewrite (Hany method y w Hmne (or_introl eq_refl) E1). eauto. }
  destruct Hs as [Hs|[[-> Hs]|Hs]]; [congruence| |done].
  rewrite Hs in Hr. rewrite str_eqb_refl, Hr. eauto.
Qed.
End MatchProperties.

(** ** What conflicts *)

Definition literals (es : list gostring) : list segment := map Lit es.

Lemma combine_disjoint rel : combine_relationships rel Disjoint = Disjoint.
Proof. by destruct rel. Qed.

(** Equal literal beginnings do not count; different ones of one length are disjoint. *)
Lemma compare_from_literals a b l1 l2 m1 m2 : length a = length b →
  compare_from Equivalent (literals a ++ l1) (literals b ++ l2) m1 m2
  = if decide (a = b) then compare_from Equivalent l1 l2 m1 m2 else Disjoint.
Proof.
  revert b. induction a as [|x a IH]; intros [|y b] Hl; try done.
  cbn [literals map app compare_from compare_segments]. injection Hl as Hl.
  destruct (str_eqb x y) eqn:E; cbn [combine_relationships].
  - apply str_eqb_eq in E as ->. fold (literals a) (literals b). rewrite IH by done.
    destruct (decide (a = b)) as [->|Hne]; [by rewrite decide_True|]. rewrite decide_False; [done|congruence].
  - apply str_eqb_neq in E. rewrite decide_False; [done|congruence].
Qed.

Lemma compare_from_last rel a b s1 s2 m1 m2 : length a = length b → compare_segments s1 s2 = Disjoint →
  compare_from rel (a ++ [s1]) (b ++ [s2]) m1 m2 = Disjoint.
Proof.
  revert rel b. induction a as [|x a IH]; intros rel [|y b] Hl Hd; try done; cbn [app compare_from].
  - by rewrite Hd, combine_disjoint.
  - injection Hl as Hl. destruct (combine_relationships rel (compare_segments x y)); auto.
Qed.

Lemma compare_paths_lengths l1 l2 : ends_in_multi l1 = false → ends_in_multi l2 = false → length l1 ≠ length l2 →
  compare_paths l1 l2 = Disjoint.
Proof. intros H1 H2 Hl. unfold compare_paths. rewrite H1, H2. by rewrite (proj2 (Nat.eqb_neq _ _) Hl). Qed.

Lemma compare_paths_from l1 l2 : ends_in_multi l1 = false → ends_in_multi l2 = false → length l1 = length l2 →
  compare_paths l1 l2 = compare_from Equivalent l1 l2 false false.
Proof. intros H1 H2 Hl. unfold compare_paths. by rewrite H1, H2, Hl, Nat.eqb_refl. Qed.

Lemma conflicts_disjoint p1 p2 : compare_paths (pt_segs p1) (pt_segs p2) = Disjoint → conflicts_with p1 p2 = false.
Proof.
  unfold conflicts_with, compare_patterns. intros ->. rewrite combine_disjoint.
  destruct (compare_methods _ _); by rewrite andb_false_r.
Qed.
Lemma conflicts_methods p1 p2 : compare_methods (pt_method p1) (pt_method p2) = Disjoint → conflicts_with p1 p2 = false.
Proof. unfold conflicts_with, compare_patterns. intros ->. by rewrite andb_false_r. Qed.

Section HandleProperties.
Context {A : Type}.

Definition parses_to (x : gostring * A) (y : pattern * A) : Prop :=
  parse_pattern (fst x) = Some (fst y) ∧ snd x = snd y.

Lemma handle_all_app (l1 l2 : list (gostring * A)) m :
  handle_all (l1 ++ l2) m = m ← handle_all l1 m; handle_all l2 m.
Proof.
  revert m. induction l1 as [|[s a] l1 IH]; intros m; [done|]. cbn [app handle_all].
  destruct (handle s a m) as [m1|]; [apply IH|done].
Qed.

(** Patterns of which no two conflict are all registered. *)
Lemma handle_all_ok (l : list (gostring * A)) q m : Forall2 parses_to l q → NoDup (m ++ q) →
  (∀ x y, x ∈ q → y ∈ m ++ q → x ≠ y → conflicts_with (fst x) (fst y) = false) →
  handle_all l m = Some (m ++ q).
Proof.
  intros Hl. revert m. induction Hl as [|[s a] [p b] l q [Hp Hab] _ IH]; intros m Hnd Hc.
  { by rewrite app_nil_r. }
  cbn in Hp, Hab. subst b. cbn [handle_all]. unfold handle. rewrite Hp. cbn [mbind option_bind].
  assert (existsb (λ '(q, _), conflicts_with p q) m = false) as ->.
  { apply not_true_iff_false. rewrite existsb_exists. intros ([p' a'] & Hin%list_elem_of_In & Hcf).
    assert ((p, a) ≠ (p', a')) as Hne.
    { intros [= <- <-]. apply NoDup_app in Hnd as (_ & Hd & _). apply (Hd _ Hin). by left. }
    assert (conflicts_with p p' = false) as Hno
      by (apply (Hc (p, a) (p', a')); [by left|apply elem_of_app; by left|done]).
    by rewrite Hno in Hcf. }
  cbn [mbind option_bind]. rewrite IH; rewrite <-?app_assoc; [done..|].
  intros x y Hx Hy. apply Hc; [by right|done].
Qed.
End HandleProperties.

(** ** Paths of ordinary elements *)

Lemma join_app sep l1 l2 : l1 ≠ [] → l2 ≠ [] → join sep (l1 ++ l2) = join sep l1 ++ sep ++ join sep l2.
Proof.
  intros H1 H2. induction l1 as [|x l1 IH]; [done|]. destruct l1 as [|y l1].
  - by destruct l2.
  - change ((x :: y :: l1) ++ l2) with (x :: (y :: l1) ++ l2).
    change (join sep (x :: (y :: l1) ++ l2)) with (x ++ sep ++ join sep ((y :: l1) ++ l2)).
    rewrite IH by done. change (join sep (x :: y :: l1)) with (x ++ sep ++ join sep (y :: l1)).
    by rewrite <-!app_assoc.
Qed.

Lemma clean_url_path_plain es : plain_elems es → clean_url_path (slash :: join [slash] es) = slash :: join [slash] es.
Proof.
  intros (Hne & Hs & Hp).
  assert (normal_elems true es) as Hn by (exists 0%nat, es; done).
  assert (path_clean (slash :: join [slash] es) = slash :: join [slash] es) as Hc.
  { change (slash :: join [slash] es) with (render true es). unfold path_clean.
    destruct (render_elems true es Hne Hn Hs) as [-> ->]. done. }
  assert (has_suffix "/" (slash :: join [slash] es) = false) as Hsuf.
  { apply not_true_iff_false. rewrite has_suffix_spec. intros [r Hr].
    assert ([] ∈ es) as Hnil.
    { destruct r as [|c r]; [injection Hr as Hr; rewrite <-(split_on_join slash es), Hr by done; by left|].
      injection Hr as _ Hr. rewrite <-(split_on_join slash es), Hr by done.
      change "/"%go with (slash :: join [slash] [[]]).
      rewrite split_on_app_join; [apply elem_of_app; right; by left|done|]. repeat constructor. apply not_elem_of_nil. }
    apply forallb_Forall in Hp. rewrite Forall_forall in Hp. by specialize (Hp _ Hnil). }
  unfold clean_url_path. cbn [has_prefix]. rewrite byte_eqb_refl. cbn [andb].
  by rewrite Hc, Hsuf.
Qed.

(** Elements that a pattern takes literally. *)
Definition literal_elem (s : gostring) : Prop := s ≠ [] ∧ ("{"%char ∉ s) ∧ Forall (λ c, plain_path_byte c = true) s.

Lemma parse_segments_literals seen es parts : Forall literal_elem es → parts ≠ [] →
  parse_segments seen (es ++ parts) = (app (literals es)) <$> parse_segments seen parts.
Proof.
  intros Hes Hne. induction Hes as [|s es (Hs & Hb & Hp) _ IH]; cbn [app literals map].
  { by destruct (parse_segments seen parts). }
  cbn [parse_segments]. rewrite (proj2 (str_eqb_neq s []) Hs). cbn [andb]. unfold parse_segment.
  rewrite (proj2 (contains_byte_false _ _) Hb). cbn [negb mbind option_bind].
  unfold path_unescape. rewrite unescape_path_plain by done. cbn [default].
  rewrite IH. by destruct (parse_segments seen parts).
Qed.

Lemma parse_pattern_method method path segs : method ∈ ["GET"; "PUT"; "POST"]%go →
  clean_url_path (slash :: path) = slash :: path → parse_segments [] (split_on slash path) = Some segs →
  parse_pattern (method ++ " " ++ slash :: path) = Some {| pt_method := method; pt_host := []; pt_segs := segs |}.
Proof.
  intros Hm Hc Hs. rewrite !elem_of_cons in Hm.
  assert (cut_blank (method ++ " " ++ slash :: path) = Some (method, slash :: path)
    ∧ str_eqb method [] = false ∧ forallb is_token_char method = true) as (Hb & He & Ht).
  { destruct Hm as [->|[->|[->|Hm]]]; [done..|by apply elem_of_nil in Hm]. }
  unfold parse_pattern. rewrite Hb, He, Ht.
  change (cut_at slash (trim_left is_blank (slash :: path))) with (Some ([] : gostring, path)).
  cbn [negb andb mbind option_bind contains_byte existsb]. rewrite Hs, Hc, str_eqb_refl.
  by rewrite !andb_false_r.
Qed.
