(* ===== verification/GoNet.v ===== *)
(** * URLs and host names: packages [net/url] and [net]

    [url.Parse] with its authority, [URL.Hostname], [net.SplitHostPort] and
    [net.JoinHostPort].  Whether a bracketed host is an IPv6 address is
    [netip.ParseAddr]'s to say, a parameter. *)

From S2P Require Import Prelude GoStrings GoUnicode GoConv GoUrl.

Local Open Scope go_scope.

(** [netip.ParseAddr(s)] succeeds with an address that is not an IPv4 one. *)
Class IpSyntax := { is_ipv6 : gostring → bool }.

(** ** Authorities *)

(** Bytes [url.unescape] takes literally in a host. *)
Definition host_byte (c : ascii) : bool :=
  is_alnum c || contains_byte c "!$&'()*+,;=:[]<>-_.~" || (byte_val c =? 34) || negb (is_ascii c).

(** [url.unescape] of a host: only bytes above ASCII may be percent-encoded (and,
    as [%25], the percent sign of a zone). *)
Fixpoint unescape_host (s : gostring) : option gostring :=
  match s with
  | [] => Some []
  | c :: s1 =>
      if Ascii.eqb c "%"%char then
        match s1 with
        | a :: b :: s2 =>
            match hex_val a, hex_val b with
            | Some x, Some y =>
                if (x <? 8) && negb (str_eqb [a; b] "25") then None
                else cons (byte_of (x * 16 + y)) <$> unescape_host s2
            | _, _ => None
            end
        | _ => None
        end
      else if host_byte c then cons c <$> unescape_host s1 else None
  end.

(** The same of a zone, which may encode a space and whatever a host holds. *)
Fixpoint unescape_zone (s : gostring) : option gostring :=
  match s with
  | [] => Some []
  | c :: s1 =>
      if Ascii.eqb c "%"%char then
        match s1 with
        | a :: b :: s2 =>
            match hex_val a, hex_val b with
            | Some x, Some y =>
                let v := byte_of (x * 16 + y) in
                if negb (str_eqb [a; b] "25") && negb (byte_val v =? 32)
                   && negb (is_ascii v && host_byte v)
                then None
                else cons v <$> unescape_zone s2
            | _, _ => None
            end
        | _ => None
        end
      else if host_byte c then cons c <$> unescape_zone s1 else None
  end.

(** [validOptionalPort] *)
Definition valid_optional_port (s : gostring) : bool :=
  match s with
  | [] => true
  | c :: s => Ascii.eqb c ":"%char && forallb is_digit s
  end.

(** [strings.LastIndex] of a byte: what is before and after it. *)
Definition cut_last (sep : ascii) (s : gostring) : option (gostring * gostring) :=
  match cut_at sep (rev s) with Some (a, b) => Some (rev b, rev a) | None => None end.

(** [strings.Cut] at ["%25"]: what is before, and the rest with it. *)
Fixpoint cut_zone (s : gostring) : gostring * gostring :=
  match s with
  | [] => ([], [])
  | c :: s' => if has_prefix "%25" s then ([], s) else let '(a, b) := cut_zone s' in (c :: a, b)
  end.

Section Url.
Context {U : Unicode} {I : IpSyntax}.

(** [parseHost] *)
Definition parse_host (host : gostring) : option gostring :=
  match cut_last "["%char host with
  | Some ([], _) =>
      match cut_last "]"%char host with
      | None => None
      | Some (lit, port) =>
          if negb (valid_optional_port port) then None
          else
            let '(h, zone) := cut_zone (drop 1 lit) in
            match unescape_host h, unescape_zone zone, unescape_host port with
            | Some h, Some z, Some p =>
                if is_ipv6 (h ++ z) then Some ("[" ++ h ++ z ++ "]" ++ p) else None
            | _, _, _ => None
            end
      end
  | Some (_ :: _, _) => None
  | None =>
      match cut_at ":"%char host with
      | Some (_, port) => if forallb is_digit port then unescape_host host else None
      | None => unescape_host host
      end
  end.

Definition userinfo_byte (c : ascii) : bool := is_alnum c || contains_byte c "-._:~!$&'()*+,;=%@".

(** [parseAuthority]: the host; user information is checked and dropped. *)
Definition parse_authority (authority : gostring) : option gostring :=
  match cut_last "@"%char authority with
  | None => parse_host authority
  | Some (user, host) =>
      match parse_host host with
      | None => None
      | Some h =>
          let '(name, pw) := match cut_at ":"%char user with Some p => p | None => (user, []) end in
          if forallb userinfo_byte user && is_some (unescape false name) && is_some (unescape false pw)
          then Some h else None
      end
  end.

(** ** [url.Parse] *)

(** [getScheme]: [None] is its error, and an empty scheme none. *)
Fixpoint scheme_from (first : bool) (acc s : gostring) : option (option (gostring * gostring)) :=
  match s with
  | [] => Some None
  | c :: s' =>
      if is_lower c || is_upper c then scheme_from false (c :: acc) s'
      else if is_digit c || contains_byte c "+-." then
        if first then Some None else scheme_from false (c :: acc) s'
      else if Ascii.eqb c ":"%char then
        if first then None else Some (Some (rev acc, s'))
      else Some None
  end.

(** [URL], the fields the source looks at. *)
Record URL := { u_scheme : gostring; u_host : gostring; u_path : gostring; u_raw_query : gostring }.

#[export] Instance URL_eq_dec : EqDecision URL.
Proof. solve_decision. Defined.

(** [url.Parse]; [None] is its error. *)
Definition parse_url (raw : gostring) : option URL :=
  let '(u, frag) := match cut_at "#"%char raw with Some p => p | None => (raw, []) end in
  if existsb is_ctl u then None
  else if str_eqb u "*" then
    if is_some (unescape false frag)
    then Some {| u_scheme := []; u_host := []; u_path := "*"; u_raw_query := [] |} else None
  else
    match scheme_from true [] u with
    | None => None
    | Some sch =>
        let '(scheme, rest) := match sch with
                               | Some (s, r) => (to_lower s, r) | None => ([], u) end in
        let '(rest, query) := match cut_at "?"%char rest with Some p => p | None => (rest, []) end in
        let parsed :=
          if negb (has_prefix "/" rest) && negb (str_eqb scheme []) then
            Some {| u_scheme := scheme; u_host := []; u_path := []; u_raw_query := query |}
          else if negb (has_prefix "/" rest)
                  && contains_byte ":"%char (match cut_at "/"%char rest with Some (a, _) => a | None => rest end)
          then None
          else if (negb (str_eqb scheme []) || negb (has_prefix "///" rest)) && has_prefix "//" rest then
            let authority := drop 2 rest in
            let '(authority, path) := match cut_at "/"%char authority with
                                      | Some (a, b) => (a, "/"%char :: b) | None => (authority, []) end in
            match parse_authority authority, unescape false path with
            | Some h, Some p => Some {| u_scheme := scheme; u_host := h; u_path := p; u_raw_query := query |}
            | _, _ => None
            end
          else
            match unescape false rest with
            | Some p => Some {| u_scheme := scheme; u_host := []; u_path := p; u_raw_query := query |}
            | None => None
            end in
        match parsed with
        | Some url => if is_some (unescape false frag) then Some url else None
        | None => None
        end
    end.
End Url.

(** [URL.Hostname] *)
Definition hostname (host : gostring) : gostring :=
  let h := match cut_last ":"%char host with
           | Some (h, p) => if forallb is_digit p then h else host
           | None => host
           end in
  if has_prefix "[" h && has_suffix "]" h then removelast (drop 1 h) else h.

(** ** [net.SplitHostPort] and [net.JoinHostPort] *)

Definition split_host_port (s : gostring) : option (gostring * gostring) :=
  match cut_last ":"%char s with
  | None => None
  | Some (before, port) =>
      match s with
      | c :: s' =>
          if Ascii.eqb c "["%char then
            match cut_at "]"%char s with
            | Some (lit, after) =>
                (* the bracket must be followed by the last colon *)
                if str_eqb after (":" ++ port) then
                  let host := drop 1 lit in
                  if contains_byte "["%char (host ++ port) || contains_byte "]"%char port
                  then None else Some (host, port)
                else None
            | None => None
            end
          else if contains_byte ":"%char before then None
          else if contains_byte "["%char s || contains_byte "]"%char s then None
          else Some (before, port)
      | [] => None
      end
  end.

Definition join_host_port (host port : gostring) : gostring :=
  if contains_byte ":"%char host then "[" ++ host ++ "]:" ++ port else host ++ ":" ++ port.

Example split_plain : split_host_port "lfs.example:5420" = Some ("lfs.example"%go, "5420"%go).
Proof. reflexivity. Qed.
Example split_ipv6 : split_host_port "[::1]:80" = Some ("::1"%go, "80"%go).
Proof. reflexivity. Qed.
Example split_many : split_host_port "a:b:c" = None.
Proof. reflexivity. Qed.
Example split_bare : split_host_port "[::1]" = None.
Proof. reflexivity. Qed.
