(* ===== verification/GoOs.v ===== *)
(** * The operating system: errors, readers and files

    Go errors, [io.Reader] streams and the file system calls the storage and
    the lock store make.  Every call may fail: whether it does, and how, is
    read from an oracle held in the world, so a theorem about every world is a
    theorem about every pattern of failures. *)

From S2P Require Import Prelude GoStrings GoConv.

(** ** Errors

    An error is the list of sentinels [errors.Is] (or the types [errors.AsType])
    finds in its wrap tree; messages are not modelled. *)

Inductive sentinel : Type :=
| EOF | UnexpectedEOF | DeadlineExceeded | MaxBytesError | Canceled
| NotExist | NoSpace | Permission | Interrupted | OtherErrno
| InvalidOID | HashMismatch | InsufficientStorage | ObjectTooLarge
| LockExists | LockNotFound | LockNotOwner | InvalidLockCursor
| S3NotFound | S3NoSuchKey | Http404.

#[export] Instance sentinel_eq_dec : EqDecision sentinel.
Proof. solve_decision. Defined.

Definition go_error : Type := list sentinel.

(** [errors.Is(err, s)] *)
Definition errors_is (s : sentinel) (e : go_error) : bool := bool_decide (s ∈ e).

(** ** Readers

    A reader is what its successive [Read] calls return: some chunks of data,
    then an error for good, [[EOF]] at a regular end.  An eager reader returns
    the error together with its last chunk, another one in a call of its own. *)

Record reader := Reader { rd_chunks : list gostring; rd_end : go_error; rd_eager : bool }.

Definition rd_eof (r : reader) : bool := errors_is EOF (rd_end r).

(** [chop n l] is [l] as reads into a buffer of [n] bytes. *)
Fixpoint chop_fuel (fuel n : nat) (l : gostring) : list gostring :=
  match fuel with
  | O => []
  | S f => match l with [] => [] | _ => take n l :: chop_fuel f n (drop n l) end
  end.
Definition chop (n : nat) (l : gostring) : list gostring := chop_fuel (length l) n l.

Lemma chop_fuel_concat fuel n l :
  (0 < n)%nat → (length l <= fuel)%nat → concat (chop_fuel fuel n l) = l.
Proof.
  intros Hn. revert l. induction fuel as [|f IH]; intros l Hl.
  - by destruct l; [|simpl in Hl; lia].
  - destruct l as [|c l]; [done|]. cbn [chop_fuel concat].
    rewrite IH, take_drop; [done|]. rewrite length_drop. simpl in *. lia.
Qed.

Lemma chop_concat n l : (0 < n)%nat → concat (chop n l) = l.
Proof. intros Hn. by apply chop_fuel_concat. Qed.

(** Reading until [n] bytes are there or the reader has returned its error: the
    data, the chunks left, and whether it has. *)
Fixpoint fill_chunks (eager : bool) (chunks : list gostring) (n : nat)
  : gostring * list gostring * bool :=
  match n with
  | O => ([], chunks, false)
  | _ =>
      match chunks with
      | [] => ([], [], true)
      | c :: cs =>
          if (length c <=? n)%nat then
            match cs with
            | [] => if eager then (c, [], true)
                    else let '(data, rest, ended) := fill_chunks eager cs (n - length c) in
                         (c ++ data, rest, ended)
            | _ => let '(data, rest, ended) := fill_chunks eager cs (n - length c) in
                   (c ++ data, rest, ended)
            end
          else (take n c, drop n c :: cs, false)
      end
  end.

Definition with_chunks (cs : list gostring) (r : reader) : reader :=
  {| rd_chunks := cs; rd_end := rd_end r; rd_eager := rd_eager r |}.

(** What a fill reads is a prefix, the rest stays; short only at the end. *)
Lemma fill_chunks_spec eager cs n data rest ended :
  fill_chunks eager cs n = (data, rest, ended) →
  concat cs = data ++ concat rest ∧ (length data <= n)%nat
  ∧ (ended = false → length data = n) ∧ (ended = true → rest = []).
Proof.
  revert n data rest ended. induction cs as [|c cs IH]; intros n data rest ended H.
  { destruct n; simpl in H; injection H as <- <- <-; simpl; repeat split; auto; lia. }
  destruct n as [|n].
  { simpl in H. injection H as <- <- <-. simpl. repeat split; auto; done. }
  cbn [fill_chunks] in H. destruct (Nat.leb_spec (length c) (S n)) as [Hc|Hc].
  - assert (∀ H' : (let '(d, r, e) := fill_chunks eager cs (S n - length c) in (c ++ d, r, e))
      = (data, rest, ended),
      concat (c :: cs) = data ++ concat rest ∧ (length data <= S n)%nat
      ∧ (ended = false → length data = S n) ∧ (ended = true → rest = [])) as Hgo.
    { intros H'. destruct (fill_chunks eager cs (S n - length c)) as [[d r] e] eqn:E.
      injection H' as <- <- <-. destruct (IH _ _ _ _ E) as (Hcat & Hlen & Hful & Hend).
      simpl. rewrite Hcat, app_assoc, length_app. split; [done|]. split; [lia|].
      split; [|done]. intros He. specialize (Hful He). lia. }
    destruct cs as [|c2 cs]; [|by apply Hgo]. destruct eager; [|by apply Hgo].
    injection H as <- <- <-. simpl. split; [done|]. split; [lia|]. by split.
  - injection H as <- <- <-. simpl. rewrite app_assoc, take_drop. split; [done|].
    rewrite length_take. split; [lia|]. split; [lia|done].
Qed.

(** ** Files *)

Record file := File { f_data : gostring; f_inode : Z; f_mtime : Z }.

(** A fault of one system call: its error, and how many bytes a write had
    written before it.  No system call returns an error of the program itself. *)
Definition system_sentinel (s : sentinel) : bool :=
  match s with
  | InvalidOID | HashMismatch | InsufficientStorage | ObjectTooLarge
  | LockExists | LockNotFound | LockNotOwner | InvalidLockCursor => false
  | _ => true
  end.
Record fault := Fault { fault_sentinels : go_error; fault_progress : nat }.
Definition fault_err (f : fault) : go_error := List.filter system_sentinel (fault_sentinels f).

Record os := Os {
  os_files : gmap gostring file;       (** regular files by cleaned path *)
  os_now : Z;                          (** the clock *)
  os_inodes : list Z;                  (** inode numbers of the next files: any, also used ones *)
  os_faults : list (option fault);     (** outcome of the next calls; [None] succeeds *)
  os_names : list gostring;            (** random names for the next temporary files *)
  os_space : Z * Z                     (** [Bavail] and [Bsize] of [statfs] *)
}.

(** The inode number of a new file, and the numbers after it. *)
Definition next_inode (w : os) : Z := List.hd 0 (os_inodes w).
Definition later_inodes (w : os) : list Z := List.tl (os_inodes w).

Definition set_files (fs : gmap gostring file) (w : os) : os :=
  Os fs (os_now w) (os_inodes w) (os_faults w) (os_names w) (os_space w).
Definition set_faults (l : list (option fault)) (w : os) : os :=
  Os (os_files w) (os_now w) (os_inodes w) l (os_names w) (os_space w).

(** The outcome of the next system call; an exhausted oracle succeeds. *)
Definition next_fault (w : os) : option fault * os :=
  match os_faults w with
  | [] => (None, w)
  | f :: fs => (f, set_faults fs w)
  end.

(** A system call with no effect on failure. *)
Definition syscall {A} (ok : os → result go_error A * os) (w : os) : result go_error A * os :=
  match next_fault w with
  | (Some f, w') => (Err (fault_err f), w')
  | (None, w') => ok w'
  end.

(** [os.MkdirAll]: directories are not part of the world, only the failure is. *)
Definition mkdir_all : os → result go_error unit * os := syscall (λ w, (Ok tt, w)).

(** [os.Stat] and [os.ReadFile] *)
Definition stat (path : gostring) : os → result go_error file * os :=
  syscall (λ w, (option_result (os_files w !! path) [NotExist], w)).
Definition read_file (path : gostring) : os → result go_error gostring * os :=
  syscall (λ w, (option_result (f_data <$> os_files w !! path) [NotExist], w)).

(** [os.Open] and [File.Stat]: an open file is the file it was opened on. *)
Definition open_file : gostring → os → result go_error file * os := stat.
Definition fstat (f : file) : os → result go_error file * os := syscall (λ w, (Ok f, w)).

(** [syscall.Statfs] *)
Definition statfs : os → result go_error (Z * Z) * os := syscall (λ w, (Ok (os_space w), w)).

(** [os.CreateTemp]: the first random name that is free, as an empty file. *)
Fixpoint pick_free (prefix : gostring) (fs : gmap gostring file) (names : list gostring)
  : option (gostring * list gostring) :=
  match names with
  | [] => None
  | n :: ns =>
      match fs !! (prefix ++ n) with
      | None => Some (prefix ++ n, ns)
      | Some _ => pick_free prefix fs ns
      end
  end.

Definition create_temp (prefix : gostring) : os → result go_error gostring * os :=
  syscall (λ w,
    match pick_free prefix (os_files w) (os_names w) with
    | None => (Err [OtherErrno], w)
    | Some (path, ns) =>
        (Ok path,
         Os (<[path := File [] (next_inode w) (os_now w)]> (os_files w))
            (os_now w) (later_inodes w) (os_faults w) ns (os_space w))
    end).

Definition append_data (now : Z) (data : gostring) (f : file) : file :=
  File (f_data f ++ data) (f_inode f) now.

(** [File.Write] at the end of an open file; a failed write may have written
    a prefix. *)
Definition write (path data : gostring) (w : os) : result go_error unit * os :=
  match next_fault w with
  | (Some f, w') =>
      (Err (fault_err f),
       set_files (alter (append_data (os_now w') (take (fault_progress f) data)) path (os_files w')) w')
  | (None, w') =>
      (Ok tt, set_files (alter (append_data (os_now w') data) path (os_files w')) w')
  end.

(** [File.Sync] and [File.Close] *)
Definition sync : os → result go_error unit * os := syscall (λ w, (Ok tt, w)).
Definition close : os → result go_error unit * os := syscall (λ w, (Ok tt, w)).

(** [os.OpenFile] with [O_RDWR|O_CREATE]. *)
Definition open_create (path : gostring) : os → result go_error unit * os :=
  syscall (λ w,
    match os_files w !! path with
    | Some _ => (Ok tt, w)
    | None =>
        (Ok tt,
         Os (<[path := File [] (next_inode w) (os_now w)]> (os_files w))
            (os_now w) (later_inodes w) (os_faults w) (os_names w) (os_space w))
    end).

(** [syscall.Flock] as [flock] (lfs/filelock_unix.go) calls it: again while it
    is interrupted.  Blocking is not modelled. *)
Fixpoint flock_outcome (faults : list (option fault)) : result go_error unit * list (option fault) :=
  match faults with
  | [] => (Ok tt, [])
  | None :: fs => (Ok tt, fs)
  | Some f :: fs =>
      if errors_is Interrupted (fault_err f) then flock_outcome fs else (Err (fault_err f), fs)
  end.
Definition flock (w : os) : result go_error unit * os :=
  let '(r, fs) := flock_outcome (os_faults w) in (r, set_faults fs w).

(** [unlockFile] *)
Definition unlock_file : os → result go_error unit * os := syscall (λ w, (Ok tt, w)).

(** [os.Rename]: atomic, replacing the target. *)
Definition rename (from to : gostring) : os → result go_error unit * os :=
  syscall (λ w,
    match os_files w !! from with
    | None => (Err [NotExist], w)
    | Some f => (Ok tt, set_files (<[to := f]> (delete from (os_files w))) w)
    end).

(** [os.Remove] *)
Definition remove (path : gostring) : os → result go_error unit * os :=
  syscall (λ w,
    match os_files w !! path with
    | None => (Err [NotExist], w)
    | Some _ => (Ok tt, set_files (delete path (os_files w)) w)
    end).

(** The buffer of [io.Copy]. *)
Definition copy_buffer : nat := 32 * 1024.

(** The write half of [io.Copy]: every read is written before the next one. *)
Fixpoint write_all (path : gostring) (reads : list gostring) (w : os)
  : result go_error unit * os :=
  match reads with
  | [] => (Ok tt, w)
  | c :: cs =>
      match write path c w with
      | (Err e, w') => (Err e, w')
      | (Ok _, w') => write_all path cs w'
      end
  end.

(** [io.Copy] from a reader into a file: write errors first, then the error the
    reader ended with unless it is [EOF]. *)
Definition copy (path : gostring) (r : reader) (w : os) : result go_error unit * os :=
  match write_all path (flat_map (chop copy_buffer) (rd_chunks r)) w with
  | (Err e, w') => (Err e, w')
  | (Ok _, w') => if rd_eof r then (Ok tt, w') else (Err (rd_end r), w')
  end.

(** ** Lemmas *)

(** [same_except ps w w']: [w'] has the files of [w] outside the paths [ps]. *)
Definition same_except (ps : list gostring) (w w' : os) : Prop :=
  ∀ p, p ∉ ps → os_files w' !! p = os_files w !! p.

Lemma same_except_refl ps w : same_except ps w w.
Proof. by intros p Hp. Qed.

Lemma same_except_trans ps w1 w2 w3 :
  same_except ps w1 w2 → same_except ps w2 w3 → same_except ps w1 w3.
Proof. intros H1 H2 p Hp. by rewrite H2, H1. Qed.

Lemma same_except_mono ps qs w w' : ps ⊆ qs → same_except ps w w' → same_except qs w w'.
Proof. intros Hs H p Hp. apply H. set_solver. Qed.

#[export] Hint Resolve same_except_refl : go.

Lemma next_fault_files w f w' : next_fault w = (f, w') → os_files w' = os_files w.
Proof. unfold next_fault. destruct (os_faults w); by intros [= <- <-]. Qed.

(** How the world evolves under any call: no random name or fault is invented, and
    both supplies only shrink. *)
Record os_le (w w' : os) : Prop := {
  le_names : os_names w' ⊆ os_names w;
  le_faults : os_faults w' ⊆ os_faults w
}.

#[export] Instance os_le_preorder : PreOrder os_le.
Proof.
  split; [by intros w|]. intros a b c [N1 F1] [N2 F2]. split; intros x Hx; auto.
Qed.

(** A call that keeps the supplies. *)
Lemma os_le_same w w' : os_names w' = os_names w → os_faults w' = os_faults w → os_le w w'.
Proof. intros N F. by split; rewrite ?N, ?F. Qed.

Lemma next_fault_le w f w' : next_fault w = (f, w') → os_le w w'.
Proof.
  unfold next_fault. destruct (os_faults w) as [|g l] eqn:E; intros [= <- <-]; [done|].
  split; simpl; try done. rewrite E. intros x Hx. by right.
Qed.

Lemma next_fault_in w f w' : next_fault w = (Some f, w') → Some f ∈ os_faults w.
Proof. unfold next_fault. destruct (os_faults w) as [|g l]; intros [= -> <-]. by left. Qed.

Lemma syscall_le {A} (ok : os → result go_error A * os) w r w' :
  (∀ v r v', ok v = (r, v') → os_le v v') → syscall ok w = (r, w') → os_le w w'.
Proof.
  intros Hok. unfold syscall. destruct (next_fault w) as [[f|] w1] eqn:E;
    apply next_fault_le in E.
  - by intros [= <- <-].
  - intros H. etrans; [exact E|]. by eapply Hok.
Qed.

Lemma pick_free_spec prefix fs names path ns :
  pick_free prefix fs names = Some (path, ns) →
  fs !! path = None ∧ (∃ n, path = prefix ++ n ∧ n ∈ names) ∧ ns ⊆ names.
Proof.
  induction names as [|n names IH]; simpl; [done|].
  destruct (fs !! (prefix ++ n)) eqn:El.
  - intros H. destruct (IH H) as (H1 & (m & -> & Hm) & H3). clear IH.
    split; [done|]. split; set_solver.
  - clear IH. intros [= <- <-]. split; [done|]. split; set_solver.
Qed.

(** A call that does not touch files leaves them alone. *)
Lemma syscall_pure {A} (g : os → result go_error A) w r w' :
  syscall (λ w, (g w, w)) w = (r, w') → os_files w' = os_files w.
Proof.
  unfold syscall. destruct (next_fault w) as [[f|] w1] eqn:E; intros [= <- <-];
    eauto using next_fault_files.
Qed.

Lemma stat_spec path w r w' : stat path w = (r, w') →
  os_files w' = os_files w ∧ ∀ f, r = Ok f → os_files w !! path = Some f.
Proof.
  intros H. split;
    [exact (syscall_pure (λ w, option_result (os_files w !! path) [NotExist]) w r w' H)|].
  intros f ->. revert H.
  unfold stat, syscall. destruct (next_fault w) as [[g|] w1] eqn:E; [done|].
  intros [= Hr <-]. apply next_fault_files in E. rewrite <-E.
  by destruct (os_files w1 !! path); simplify_eq/=.
Qed.

Lemma create_temp_spec prefix w r w' : create_temp prefix w = (r, w') →
  match r with
  | Err _ => os_files w' = os_files w
  | Ok path => os_files w !! path = None ∧ (∃ n, path = prefix ++ n ∧ n ∈ os_names w)
      ∧ (∃ i t, os_files w' = <[path := File [] i t]> (os_files w))
  end.
Proof.
  unfold create_temp, syscall. destruct (next_fault w) as [[f|] w1] eqn:E.
  { intros [= <- <-]. eauto using next_fault_files. }
  pose proof (le_names _ _ (next_fault_le _ _ _ E)) as En. apply next_fault_files in E.
  rewrite <-E.
  destruct (pick_free _ _ _) as [[path ns]|] eqn:Ep; intros [= <- <-]; [|done].
  apply pick_free_spec in Ep as (H1 & (n & -> & Hn) & H3). simpl. split; [done|].
  split; [exists n; by auto|]. eauto.
Qed.

Lemma write_files path data w r w' : write path data w = (r, w') →
  same_except [path] w w'
  ∧ (r = Ok tt → ∀ f, os_files w !! path = Some f →
       ∃ g, os_files w' !! path = Some g ∧ f_data g = f_data f ++ data).
Proof.
  unfold write. destruct (next_fault w) as [[e|] w1] eqn:E; intros [= <- <-];
    apply next_fault_files in E; (split; [|]).
  - intros p Hp. simpl. rewrite lookup_alter_ne by set_solver. by rewrite E.
  - done.
  - intros p Hp. simpl. rewrite lookup_alter_ne by set_solver. by rewrite E.
  - intros _ f Hf. simpl. rewrite E, lookup_alter_eq, Hf. simpl. eauto.
Qed.

Lemma write_all_files path reads w r w' : write_all path reads w = (r, w') →
  same_except [path] w w'
  ∧ (r = Ok tt → ∀ f, os_files w !! path = Some f →
       ∃ g, os_files w' !! path = Some g ∧ f_data g = f_data f ++ concat reads).
Proof.
  revert w. induction reads as [|c cs IH]; intros w; simpl.
  - intros [= <- <-]. split; [auto with go|]. intros _ f Hf. exists f. by rewrite app_nil_r.
  - destruct (write path c w) as [[u|e] w1] eqn:Ew; apply write_files in Ew as [Hs Hok].
    + intros H. apply IH in H as [Hs' Hok']. split; [by eapply same_except_trans|].
      intros Hr f Hf. destruct u. destruct (Hok eq_refl f Hf) as (g & Hg & Hd).
      destruct (Hok' Hr g Hg) as (h & Hh & Hd'). exists h. by rewrite Hd', Hd, <-app_assoc.
    + by intros [= <- <-].
Qed.

Lemma concat_chops n chunks :
  (0 < n)%nat → concat (flat_map (chop n) chunks) = concat chunks.
Proof.
  intros Hn. induction chunks as [|c cs IH]; [done|]. simpl.
  by rewrite concat_app, chop_concat, IH.
Qed.

Lemma copy_files path r w res w' : copy path r w = (res, w') →
  same_except [path] w w'
  ∧ (res = Ok tt → rd_eof r = true ∧ ∀ f, os_files w !! path = Some f →
       ∃ g, os_files w' !! path = Some g ∧ f_data g = f_data f ++ concat (rd_chunks r)).
Proof.
  unfold copy. destruct (write_all _ _ w) as [[u|e] w1] eqn:E;
    apply write_all_files in E as [Hs Hok].
  - destruct (rd_eof r) eqn:Er; intros [= <- <-]; (split; [done|]); [|done].
    intros _. split; [done|]. intros f Hf. destruct u.
    destruct (Hok eq_refl f Hf) as (g & Hg & Hd). exists g.
    rewrite Hd. by rewrite concat_chops by (unfold copy_buffer; lia).
  - by intros [= <- <-].
Qed.

Lemma rename_files from to w r w' : rename from to w = (r, w') →
  match r with
  | Err _ => os_files w' = os_files w
  | Ok _ => ∃ f, os_files w !! from = Some f
      ∧ os_files w' = <[to := f]> (delete from (os_files w))
  end.
Proof.
  unfold rename, syscall. destruct (next_fault w) as [[e|] w1] eqn:E;
    apply next_fault_files in E; [intros [= <- <-]; done|].
  rewrite E. destruct (os_files w !! from) as [f|] eqn:Ef; intros [= <- <-]; eauto.
Qed.

Lemma remove_files path w r w' : remove path w = (r, w') →
  same_except [path] w w' ∧ (r = Ok tt → os_files w' = delete path (os_files w)).
Proof.
  unfold remove, syscall. destruct (next_fault w) as [[e|] w1] eqn:E;
    apply next_fault_files in E.
  { intros [= <- <-]. split; [|done]. intros p _. by rewrite E. }
  rewrite E. destruct (os_files w !! path) as [f|] eqn:Ef; intros [= <- <-]; split; try done.
  - intros p Hp. simpl. by rewrite lookup_delete_ne by set_solver.
  - intros p _. by rewrite E.
Qed.

(** The world through each call. *)
Lemma mkdir_all_le w r w' : mkdir_all w = (r, w') → os_le w w'.
Proof. apply syscall_le. by intros v q v' [= <- <-]. Qed.
Lemma sync_le w r w' : sync w = (r, w') → os_le w w'.
Proof. apply syscall_le. by intros v q v' [= <- <-]. Qed.
Lemma stat_le p w r w' : stat p w = (r, w') → os_le w w'.
Proof. apply syscall_le. by intros v q v' [= <- <-]. Qed.
Lemma fstat_le f w r w' : fstat f w = (r, w') → os_le w w'.
Proof. apply syscall_le. by intros v q v' [= <- <-]. Qed.
Lemma statfs_le w r w' : statfs w = (r, w') → os_le w w'.
Proof. apply syscall_le. by intros v q v' [= <- <-]. Qed.
Lemma read_file_le p w r w' : read_file p w = (r, w') → os_le w w'.
Proof. apply syscall_le. by intros v q v' [= <- <-]. Qed.

(** A new file under the next inode number. *)
Lemma new_file_le w p t ns : ns ⊆ os_names w →
  os_le w (Os (<[p := File [] (next_inode w) t]> (os_files w))
              (os_now w) (later_inodes w) (os_faults w) ns (os_space w)).
Proof. by split. Qed.

Lemma create_temp_le p w r w' : create_temp p w = (r, w') → os_le w w'.
Proof.
  apply syscall_le. intros v q v'.
  destruct (pick_free _ _ _) as [[path ns]|] eqn:E; intros [= <- <-]; [|done].
  apply pick_free_spec in E as (_ & _ & H). by apply new_file_le.
Qed.
Lemma open_create_le p w r w' : open_create p w = (r, w') → os_le w w'.
Proof.
  apply syscall_le. intros v q v'.
  destruct (os_files v !! p); intros [= <- <-]; [done|by apply new_file_le].
Qed.
Lemma flock_le w r w' : flock w = (r, w') → os_le w w' ∧ os_files w' = os_files w.
Proof.
  unfold flock. destruct (flock_outcome (os_faults w)) as [r1 fs] eqn:E. intros [= <- <-].
  split; [|done]. split; simpl; [done|]. revert r1 fs E.
  induction (os_faults w) as [|[f|] l IH]; simpl; intros r1 fs.
  - by intros [= <- <-].
  - destruct (errors_is Interrupted (fault_err f)).
    + intros H%IH x Hx. right. auto.
    + intros [= <- <-] x Hx. by right.
  - intros [= <- <-] x Hx. by right.
Qed.
Lemma rename_le a b w r w' : rename a b w = (r, w') → os_le w w'.
Proof.
  apply syscall_le. intros v q v'. destruct (os_files v !! a); intros [= <- <-]; [|done].
  by apply os_le_same.
Qed.
Lemma remove_le a w r w' : remove a w = (r, w') → os_le w w'.
Proof.
  apply syscall_le. intros v q v'. destruct (os_files v !! a); intros [= <- <-]; [|done].
  by apply os_le_same.
Qed.
Lemma alter_le n d p w :
  os_le w (set_files (alter (append_data n d) p (os_files w)) w).
Proof. by apply os_le_same. Qed.
Lemma write_le p d w r w' : write p d w = (r, w') → os_le w w'.
Proof.
  unfold write. destruct (next_fault w) as [[f|] w1] eqn:E; apply next_fault_le in E;
    intros [= <- <-]; (etrans; [exact E|apply alter_le]).
Qed.
Lemma write_all_le p l w r w' : write_all p l w = (r, w') → os_le w w'.
Proof.
  revert w. induction l as [|c l IH]; intros w; simpl; [by intros [= <- <-]|].
  destruct (write p c w) as [[u|e] w1] eqn:E; apply write_le in E.
  - intros H%IH. by etrans.
  - by intros [= <- <-].
Qed.
Lemma copy_le p rd w r w' : copy p rd w = (r, w') → os_le w w'.
Proof.
  unfold copy. destruct (write_all _ _ w) as [[u|e] w1] eqn:E; apply write_all_le in E;
    [destruct (rd_eof rd)|]; by intros [= <- <-].
Qed.
Lemma close_files w r w' : close w = (r, w') → os_files w' = os_files w.
Proof. exact (syscall_pure (λ _, Ok tt) w r w'). Qed.
Lemma sync_files w r w' : sync w = (r, w') → os_files w' = os_files w.
Proof. exact (syscall_pure (λ _, Ok tt) w r w'). Qed.
Lemma mkdir_all_files w r w' : mkdir_all w = (r, w') → os_files w' = os_files w.
Proof. exact (syscall_pure (λ _, Ok tt) w r w'). Qed.
Lemma fstat_spec f w r w' : fstat f w = (r, w') →
  os_files w' = os_files w ∧ ∀ g, r = Ok g → g = f.
Proof.
  intros H. split; [exact (syscall_pure (λ _, Ok f) w r w' H)|]. intros g ->. revert H.
  unfold fstat, syscall. destruct (next_fault w) as [[e|] w1]; by intros [=].
Qed.
Lemma statfs_files w r w' : statfs w = (r, w') → os_files w' = os_files w.
Proof. exact (syscall_pure (λ w, Ok (os_space w)) w r w'). Qed.

(** ** Calls when nothing fails *)

Lemma write_all_no_fault path reads w d i :
  os_faults w = [] → os_files w !! path = Some (File d i (os_now w)) →
  write_all path reads w
  = (Ok tt, set_files (<[path := File (d ++ concat reads) i (os_now w)]> (os_files w)) w).
Proof.
  revert w d. induction reads as [|c cs IH]; intros w d Hf Hp; cbn [write_all concat].
  - rewrite app_nil_r, insert_id by done. by destruct w.
  - unfold write, next_fault. rewrite Hf.
    assert (alter (append_data (os_now w) c) path (os_files w)
      = <[path := File (d ++ c) i (os_now w)]> (os_files w)) as ->.
    { apply map_eq. intros p. destruct (decide (p = path)) as [->|Hne].
      - by rewrite lookup_alter_eq, lookup_insert_eq, Hp.
      - by rewrite lookup_alter_ne, lookup_insert_ne. }
    rewrite (IH _ (d ++ c)); simpl; [|done|by rewrite lookup_insert_eq].
    by rewrite insert_insert_eq, <-app_assoc.
Qed.

Lemma copy_no_fault path r w i :
  os_faults w = [] → os_files w !! path = Some (File [] i (os_now w)) →
  copy path r w
  = (if rd_eof r then Ok tt else Err (rd_end r),
     set_files (<[path := File (concat (rd_chunks r)) i (os_now w)]> (os_files w)) w).
Proof.
  intros Hf Hp. unfold copy. rewrite (write_all_no_fault _ _ _ [] i) by done.
  cbn [app]. rewrite concat_chops by (unfold copy_buffer; lia). by destruct (rd_eof r).
Qed.

Lemma syscall_no_fault {A} (ok : os → result go_error A * os) w :
  os_faults w = [] → syscall ok w = ok w.
Proof. intros Hf. unfold syscall, next_fault. by rewrite Hf. Qed.
#[export] Hint Rewrite @syscall_no_fault using done : go_rw.

Lemma open_create_files p w r w' : open_create p w = (r, w') → same_except [p] w w'.
Proof.
  unfold open_create, syscall. destruct (next_fault w) as [[f|] w1] eqn:E;
    apply next_fault_files in E.
  - intros [= <- <-] q _. by rewrite E.
  - destruct (os_files w1 !! p) as [g|] eqn:Eg; intros [= <- <-] q Hq; simpl; [by rewrite E|].
    by rewrite lookup_insert_ne, E by set_solver.
Qed.

Lemma read_file_spec path w r w' : read_file path w = (r, w') →
  os_files w' = os_files w ∧ ∀ d, r = Ok d → ∃ f, os_files w !! path = Some f ∧ f_data f = d.
Proof.
  intros H. split.
  { exact (syscall_pure (λ w, option_result (f_data <$> os_files w !! path) [NotExist]) w r w' H). }
  intros d ->. revert H. unfold read_file, syscall.
  destruct (next_fault w) as [[g|] w1] eqn:E; [done|].
  intros [= Hr <-]. apply next_fault_files in E. rewrite <-E.
  destruct (os_files w1 !! path) as [f|]; simplify_eq/=. eauto.
Qed.

(** A fault is never [NotExist]: only a missing file gives it. *)
Definition faults_ok (w : os) : Prop :=
  Forall (λ f, ¬ ∃ g, f = Some g ∧ errors_is NotExist (fault_err g) = true) (os_faults w).

Lemma faults_ok_le w w' : faults_ok w → os_le w w' → faults_ok w'.
Proof. unfold faults_ok. rewrite !Forall_forall. intros H [_ N]. auto. Qed.

Lemma stat_not_exist path w e w' : faults_ok w → stat path w = (Err e, w') →
  errors_is NotExist e = true → os_files w !! path = None.
Proof.
  intros Hv H He. revert H. unfold stat, syscall.
  destruct (next_fault w) as [[f|] w1] eqn:E.
  - intros [= <- <-]. apply next_fault_in in E. unfold faults_ok in Hv. rewrite Forall_forall in Hv.
    destruct (Hv _ E). eauto.
  - apply next_fault_files in E. rewrite <-E. by destruct (os_files w1 !! path); intros [=].
Qed.

Lemma read_not_exist path w e w' : faults_ok w → read_file path w = (Err e, w') →
  errors_is NotExist e = true → os_files w !! path = None.
Proof.
  intros Hv H He. revert H. unfold read_file, syscall.
  destruct (next_fault w) as [[f|] w1] eqn:E.
  - intros [= <- <-]. apply next_fault_in in E. unfold faults_ok in Hv. rewrite Forall_forall in Hv.
    destruct (Hv _ E). eauto.
  - apply next_fault_files in E. rewrite <-E. by destruct (os_files w1 !! path); intros [=].
Qed.

Lemma create_temp_file prefix w r w' : create_temp prefix w = (r, w') →
  ∀ path, r = Ok path → ∃ i t, os_files w' = <[path := File [] i t]> (os_files w).
Proof.
  unfold create_temp, syscall. destruct (next_fault w) as [[f|] w1] eqn:E.
  { by intros [= <- <-]. }
  apply next_fault_files in E. rewrite <-E.
  destruct (pick_free _ _ _) as [[path ns]|]; intros [= <- <-]; [|done].
  intros p [= <-]. simpl. eauto.
Qed.

(** ** Errors of system calls are no errors of the program *)

Definition system_error (e : go_error) : Prop := Forall (λ s, system_sentinel s = true) e.

Lemma system_error_is s e : system_error e → system_sentinel s = false → errors_is s e = false.
Proof.
  intros He Hs. unfold errors_is. apply bool_decide_eq_false. intros Hin.
  unfold system_error in He. rewrite Forall_forall in He. rewrite He in Hs; done.
Qed.

Lemma fault_system f : system_error (fault_err f).
Proof.
  unfold system_error, fault_err. apply Forall_forall. intros s Hs.
  apply list_elem_of_In, filter_In in Hs as [_ Hs]. done.
Qed.

Lemma syscall_system {A} (ok : os → result go_error A * os) w e w' :
  (∀ v e v', ok v = (Err e, v') → system_error e) → syscall ok w = (Err e, w') → system_error e.
Proof.
  intros Hok. unfold syscall. destruct (next_fault w) as [[f|] w1].
  - intros [= <- _]. apply fault_system.
  - apply Hok.
Qed.

Lemma mkdir_all_system w e w' : mkdir_all w = (Err e, w') → system_error e.
Proof. by apply syscall_system. Qed.
Lemma sync_system w e w' : sync w = (Err e, w') → system_error e.
Proof. by apply syscall_system. Qed.
Lemma stat_system p w e w' : stat p w = (Err e, w') → system_error e.
Proof.
  apply syscall_system. intros v d v' H. destruct (os_files v !! p); [done|]. injection H as <- _. by repeat constructor.
Qed.
Lemma read_file_system p w e w' : read_file p w = (Err e, w') → system_error e.
Proof.
  apply syscall_system. intros v d v' H. destruct (os_files v !! p); [done|]. injection H as <- _. by repeat constructor.
Qed.
Lemma create_temp_system p w e w' : create_temp p w = (Err e, w') → system_error e.
Proof.
  apply syscall_system. intros v d v' H. destruct (pick_free _ _ _) as [[q ns]|]; [done|].
  injection H as <- _. by repeat constructor.
Qed.
Lemma open_create_system p w e w' : open_create p w = (Err e, w') → system_error e.
Proof. apply syscall_system. intros v d v' H. by destruct (os_files v !! p). Qed.
Lemma write_system p d w e w' : write p d w = (Err e, w') → system_error e.
Proof. unfold write. destruct (next_fault w) as [[f|] w1]; [|done]. intros [= <- _]. apply fault_system. Qed.
Lemma rename_system a b w e w' : rename a b w = (Err e, w') → system_error e.
Proof.
  apply syscall_system. intros v d v' H. destruct (os_files v !! a); [done|]. injection H as <- _. by repeat constructor.
Qed.
Lemma flock_system w e w' : flock w = (Err e, w') → system_error e.
Proof.
  unfold flock. destruct (flock_outcome (os_faults w)) as [r fs] eqn:E. intros [= -> _]. revert E.
  induction (os_faults w) as [|[f|] l IH]; simpl; [done| |done].
  destruct (errors_is Interrupted (fault_err f)); [done|]. intros [= <- _]. apply fault_system.
Qed.
