(* ===== verification/GoJson.v ===== *)
(** * JSON: package [encoding/json/v2]

    The text format with the strict defaults of version 2: names are
    case-sensitive and not repeated, strings are valid UTF-8, lone surrogates
    are errors.  [parse_json] reads a whole text, [print_json] writes the form
    [json.Marshal] writes; numbers are kept as their text. *)

From S2P Require Import Prelude GoStrings GoUnicode GoConv.

Local Open Scope go_scope.

#[warnings="-register-all"]
Inductive json : Type :=
| JNull
| JBool (b : bool)
| JNum (text : gostring)
| JStr (s : gostring)
| JArr (l : list json)
| JObj (l : list (gostring * json)).

(** ** Strings *)

Definition quote_char : ascii := ascii_of_nat 34.
Definition backslash : ascii := "\"%char.

(** One byte inside a quoted string. *)
Definition escape_byte (c : ascii) : gostring :=
  let v := byte_val c in
  if v =? 34 then [backslash; quote_char]
  else if v =? 92 then [backslash; backslash]
  else if v =? 8 then [backslash; "b"%char]
  else if v =? 12 then [backslash; "f"%char]
  else if v =? 10 then [backslash; "n"%char]
  else if v =? 13 then [backslash; "r"%char]
  else if v =? 9 then [backslash; "t"%char]
  else if v <? 32
       then [backslash; "u"%char; "0"%char; "0"%char; hex_digit (v / 16); hex_digit (v mod 16)]
  else [c].

Definition quote (s : gostring) : gostring := [quote_char] ++ flat_map escape_byte s ++ [quote_char].

(** The byte a two-character escape stands for. *)
Definition simple_escape (c : ascii) : option ascii :=
  let v := byte_val c in
  if (v =? 34) || (v =? 92) || (v =? 47) then Some c
  else if v =? 98 then Some (byte_of 8)
  else if v =? 102 then Some (byte_of 12)
  else if v =? 110 then Some (byte_of 10)
  else if v =? 114 then Some (byte_of 13)
  else if v =? 116 then Some (byte_of 9)
  else None.

Definition hex4 (a b c d : ascii) : option Z :=
  match hex_val a, hex_val b, hex_val c, hex_val d with
  | Some w, Some x, Some y, Some z => Some (((w * 16 + x) * 16 + y) * 16 + z)
  | _, _, _, _ => None
  end.

(** A surrogate escape must be a high half followed by a low half. *)
Definition is_high (v : Z) : bool := (55296 <=? v) && (v <=? 56319).
Definition is_low (v : Z) : bool := (56320 <=? v) && (v <=? 57343).

Definition prepend (p : gostring) (r : option (gostring * gostring)) : option (gostring * gostring) :=
  match r with Some (s, rest) => Some (p ++ s, rest) | None => None end.

(** The contents of a string up to its closing quote, and what follows. *)
Fixpoint unquote (s : gostring) : option (gostring * gostring) :=
  match s with
  | [] => None
  | c :: s1 =>
      if byte_val c =? 34 then Some ([], s1)
      else if byte_val c <? 32 then None
      else if byte_val c =? 92 then
        match s1 with
        | [] => None
        | e :: s2 =>
            if byte_val e =? 117 then
              match s2 with
              | h1 :: h2 :: h3 :: h4 :: s3 =>
                  match hex4 h1 h2 h3 h4 with
                  | None => None
                  | Some v =>
                      if is_high v then
                        match s3 with
                        | e1 :: e2 :: l1 :: l2 :: l3 :: l4 :: s4 =>
                            if (byte_val e1 =? 92) && (byte_val e2 =? 117) then
                              match hex4 l1 l2 l3 l4 with
                              | Some w =>
                                  if is_low w
                                  then prepend (encode_rune (65536 + (v - 55296) * 1024 + (w - 56320)))
                                         (unquote s4)
                                  else None
                              | None => None
                              end
                            else None
                        | _ => None
                        end
                      else if is_low v then None
                      else prepend (encode_rune v) (unquote s3)
                  end
              | _ => None
              end
            else
              match simple_escape e with
              | Some b => prepend [b] (unquote s2)
              | None => None
              end
        end
      else prepend [c] (unquote s1)
  end.

(** A quoted string after its opening quote; invalid UTF-8 is an error. *)
Definition parse_string (s : gostring) : option (gostring * gostring) :=
  match unquote s with
  | Some (v, rest) => if utf8_valid v then Some (v, rest) else None
  | None => None
  end.

(** ** Numbers and literals *)

Definition is_ws (c : ascii) : bool :=
  (byte_val c =? 32) || (byte_val c =? 9) || (byte_val c =? 10) || (byte_val c =? 13).
Definition skip_ws : gostring → gostring := trim_left is_ws.

Fixpoint span (p : ascii → bool) (s : gostring) : gostring * gostring :=
  match s with
  | c :: s' => if p c then let '(a, b) := span p s' in (c :: a, b) else ([], s)
  | [] => ([], [])
  end.

(** Digits, optionally a fraction, optionally an exponent, after a sign. *)
Definition parse_unsigned (sign s : gostring) : option (gostring * gostring) :=
  let '(int, s) := span is_digit s in
  if match int with [] => true | c :: _ :: _ => Ascii.eqb c "0"%char | _ => false end then None
  else
    let frac := match s with
                | c :: s' =>
                    if Ascii.eqb c "."%char then
                      let '(d, rest) := span is_digit s' in
                      match d with [] => None | _ => Some (c :: d, rest) end
                    else Some ([], s)
                | [] => Some ([], []) end in
    match frac with
    | None => None
    | Some (frac, s) =>
        let exp := match s with
                   | c :: s' =>
                       if Ascii.eqb c "e"%char || Ascii.eqb c "E"%char then
                         let '(sg, s'') := match s' with
                           | d :: t => if Ascii.eqb d "-"%char || Ascii.eqb d "+"%char
                                       then ([d], t) else ([], s')
                           | [] => ([], []) end in
                         let '(d, rest) := span is_digit s'' in
                         match d with [] => None | _ => Some (c :: sg ++ d, rest) end
                       else Some ([], s)
                   | [] => Some ([], []) end in
        match exp with
        | None => None
        | Some (exp, rest) => Some (sign ++ int ++ frac ++ exp, rest)
        end
    end.
Definition parse_number (s : gostring) : option (gostring * gostring) :=
  match s with
  | c :: s' => if Ascii.eqb c "-"%char then parse_unsigned [c] s' else parse_unsigned [] s
  | [] => parse_unsigned [] []
  end.

Definition parse_literal (s : gostring) : option (json * gostring) :=
  if has_prefix "null" s then Some (JNull, drop 4 s)
  else if has_prefix "true" s then Some (JBool true, drop 4 s)
  else if has_prefix "false" s then Some (JBool false, drop 5 s)
  else match parse_number s with
       | Some (n, rest) => Some (JNum n, rest)
       | None => None
       end.

(** ** Values *)

(** A value, the elements after an opening bracket, the members after an
    opening brace.  Every second call consumes a byte. *)
Fixpoint parse_value (fuel : nat) (s : gostring) : option (json * gostring) :=
  match fuel with
  | O => None
  | S f =>
      match skip_ws s with
      | [] => None
      | c :: s1 =>
          let v := byte_val c in
          if v =? 34 then
            match parse_string s1 with Some (x, rest) => Some (JStr x, rest) | None => None end
          else if v =? 91 then
            match skip_ws s1 with
            | d :: rest =>
                if byte_val d =? 93 then Some (JArr [], rest)
                else match parse_elements f s1 with
                     | Some (l, rest) => Some (JArr l, rest) | None => None end
            | [] => None
            end
          else if v =? 123 then
            match skip_ws s1 with
            | d :: rest =>
                if byte_val d =? 125 then Some (JObj [], rest)
                else match parse_members f s1 with
                     | Some (l, rest) =>
                         if bool_decide (NoDup (map fst l)) then Some (JObj l, rest) else None
                     | None => None end
            | [] => None
            end
          else parse_literal (c :: s1)
      end
  end
with parse_elements (fuel : nat) (s : gostring) : option (list json * gostring) :=
  match fuel with
  | O => None
  | S f =>
      match parse_value f s with
      | None => None
      | Some (v, rest) =>
          match skip_ws rest with
          | c :: rest =>
              if byte_val c =? 44 then
                match parse_elements f rest with
                | Some (l, rest) => Some (v :: l, rest) | None => None end
              else if byte_val c =? 93 then Some ([v], rest)
              else None
          | [] => None
          end
      end
  end
with parse_members (fuel : nat) (s : gostring) : option (list (gostring * json) * gostring) :=
  match fuel with
  | O => None
  | S f =>
      match skip_ws s with
      | q :: s1 =>
          if byte_val q =? 34 then
            match parse_string s1 with
            | None => None
            | Some (k, rest) =>
                match skip_ws rest with
                | c :: rest =>
                    if byte_val c =? 58 then
                      match parse_value f rest with
                      | None => None
                      | Some (v, rest) =>
                          match skip_ws rest with
                          | c :: rest =>
                              if byte_val c =? 44 then
                                match parse_members f rest with
                                | Some (l, rest) => Some ((k, v) :: l, rest) | None => None end
                              else if byte_val c =? 125 then Some ([(k, v)], rest)
                              else None
                          | [] => None
                          end
                      end
                    else None
                | [] => None
                end
            end
          else None
      | [] => None
      end
  end.

(** A whole text: one value and white space. *)
Definition parse_json (s : gostring) : option json :=
  match parse_value (2 * length s + 2) s with
  | Some (v, rest) => match skip_ws rest with [] => Some v | _ => None end
  | None => None
  end.

(** ** Printing *)

Fixpoint print_json (v : json) : gostring :=
  match v with
  | JNull => "null"
  | JBool b => if b then "true" else "false"
  | JNum t => t
  | JStr s => quote s
  | JArr l =>
      "[" ++ join "," ((fix go (l : list json) :=
                          match l with [] => [] | v :: l => print_json v :: go l end) l) ++ "]"
  | JObj l =>
      "{" ++ join "," ((fix go (l : list (gostring * json)) :=
                          match l with
                          | [] => []
                          | (k, v) :: l => (quote k ++ ":" ++ print_json v) :: go l
                          end) l) ++ "}"
  end.

(** ** Decoding into Go values: an absent member or [null] is the zero value. *)

Definition member (name : gostring) (l : list (gostring * json)) : option json :=
  match find (λ p, str_eqb (fst p) name) l with Some (_, v) => Some v | None => None end.

Definition decode_string (v : option json) : option gostring :=
  match v with
  | None | Some JNull => Some []
  | Some (JStr s) => Some s
  | _ => None
  end.

(** ** Reading back what was printed *)

Lemma unquote_byte c t : unquote (escape_byte c ++ t) = prepend [c] (unquote t).
Proof. destruct c as [[] [] [] [] [] [] [] []]; reflexivity. Qed.

Lemma unquote_quote s rest :
  unquote (flat_map escape_byte s ++ quote_char :: rest) = Some (s, rest).
Proof.
  induction s as [|c s IH]; [done|]. cbn [flat_map]. rewrite <-app_assoc, unquote_byte, IH. done.
Qed.

Lemma parse_string_quote s rest : utf8_valid s = true →
  parse_string (flat_map escape_byte s ++ quote_char :: rest) = Some (s, rest).
Proof. intros Hs. unfold parse_string. by rewrite unquote_quote, Hs. Qed.

Lemma quote_app s rest :
  quote s ++ rest = quote_char :: flat_map escape_byte s ++ quote_char :: rest.
Proof. unfold quote. by rewrite <-!app_assoc. Qed.

Lemma json_induction (P : json → Prop) :
  P JNull → (∀ b, P (JBool b)) → (∀ t, P (JNum t)) → (∀ s, P (JStr s)) →
  (∀ l, Forall P l → P (JArr l)) → (∀ l, Forall (λ p, P (snd p)) l → P (JObj l)) → ∀ v, P v.
Proof.
  intros Hn Hb Ht Hs Ha Ho. fix IH 1. intros [|b|t|s|l|l];
    [exact Hn|exact (Hb b)|exact (Ht t)|exact (Hs s)| |].
  - apply Ha. induction l as [|v l IHl]; constructor; [apply IH|exact IHl].
  - apply Ho. induction l as [|[k v] l IHl]; constructor; [apply IH|exact IHl].
Qed.

(** What can follow a number. *)
Definition number_end (s : gostring) : Prop :=
  match s with [] => True | c :: _ => is_digit c = false ∧ contains_byte c ".eE" = false end.

Lemma span_digits ds rest : Forall (λ c, is_digit c = true) ds → number_end rest → span is_digit (ds ++ rest) = (ds, rest).
Proof.
  induction 1 as [|c ds Hc _ IH]; intros Hr.
  - destruct rest as [|c rest]; [done|]. destruct Hr as [Hc _]. cbn. by rewrite Hc.
  - cbn [app span]. by rewrite Hc, (IH Hr).
Qed.

Lemma parse_unsigned_digits sign n rest : 0 <= n → number_end rest →
  parse_unsigned sign (format_uint n ++ rest) = Some (sign ++ format_uint n, rest).
Proof.
  intros Hn Hr. destruct (format_uint_spec n Hn) as (_ & Hd & _). destruct (format_uint_head n Hn) as (c & s & E & Hc).
  unfold parse_unsigned. rewrite span_digits, E by done.
  assert (match s with [] => false | _ :: _ => Ascii.eqb c "0" end = false) as Hz.
  { destruct s as [|d s]; [done|]. apply Ascii.eqb_neq. intros ->. by specialize (Hc eq_refl). }
  rewrite Hz. destruct rest as [|d rest]; [by rewrite !app_nil_r|]. destruct Hr as [_ Hr].
  unfold contains_byte in Hr. cbn [existsb] in Hr. rewrite orb_false_r in Hr.
  apply orb_false_iff in Hr as [H1 [H2 H3]%orb_false_iff]. rewrite H1, H2, H3. cbn [orb]. by rewrite !app_nil_r.
Qed.
Lemma parse_number_int n rest : number_end rest → parse_number (format_int n ++ rest) = Some (format_int n, rest).
Proof.
  intros Hr. unfold format_int. destruct (Z.ltb_spec n 0) as [Hneg|Hpos].
  - cbn [app parse_number]. rewrite byte_eqb_refl. apply parse_unsigned_digits; [lia|done].
  - pose proof (parse_unsigned_digits [] n rest Hpos Hr) as Hp. destruct (format_uint_spec n Hpos) as (_ & Hd & _).
    destruct (format_uint_head n Hpos) as (c & s & E & _). rewrite E in *. inversion_clear Hd as [|? ? Hc _].
    cbn [app parse_number]. by rewrite (proj1 (is_digit_not_sign c Hc)).
Qed.

(** The first byte of an integer. *)
Definition int_head (c : ascii) : bool := is_digit c || Ascii.eqb c "-"%char.
Lemma format_int_head n : ∃ c s, format_int n = c :: s ∧ int_head c = true.
Proof.
  unfold format_int. destruct (Z.ltb_spec n 0) as [Hneg|Hpos]; [by eexists _, _|].
  destruct (format_uint_spec n Hpos) as (_ & Hd & _). destruct (format_uint_head n Hpos) as (c & s & E & _).
  rewrite E in *. inversion_clear Hd as [|? ? Hc _]. exists c, s. unfold int_head. by rewrite Hc.
Qed.
Lemma int_head_props c : int_head c = true →
  contains_byte c "ntf" = false ∧ is_ws c = false ∧ (byte_val c =? 34) = false ∧ (byte_val c =? 91) = false
  ∧ (byte_val c =? 93) = false ∧ (byte_val c =? 123) = false ∧ (byte_val c =? 125) = false.
Proof.
  intros H. assert (negb (int_head c) || (negb (contains_byte c "ntf") && negb (is_ws c) && negb (byte_val c =? 34)
    && negb (byte_val c =? 91) && negb (byte_val c =? 93) && negb (byte_val c =? 123) && negb (byte_val c =? 125)) = true) as Hb.
  { refine (forall_bytes (λ c, negb (int_head c) || (negb (contains_byte c "ntf") && negb (is_ws c) && negb (byte_val c =? 34)
      && negb (byte_val c =? 91) && negb (byte_val c =? 93) && negb (byte_val c =? 123) && negb (byte_val c =? 125))) _ c).
    vm_compute. reflexivity. }
  rewrite H in Hb. cbn [negb orb] in Hb. repeat apply andb_true_iff in Hb as [Hb ?]. split_and!; by apply negb_true_iff.
Qed.

Lemma parse_literal_int n rest : number_end rest → parse_literal (format_int n ++ rest) = Some (JNum (format_int n), rest).
Proof.
  intros Hr. unfold parse_literal. rewrite parse_number_int by done. destruct (format_int_head n) as (c & s & -> & Hc).
  apply int_head_props in Hc as [Hc _].
  assert (∀ p q, contains_byte p "ntf" = true → has_prefix (p :: q) ((c :: s) ++ rest) = false) as Hp.
  { intros p q Hpq. cbn [app has_prefix]. destruct (Ascii.eqb_spec p c) as [->|]; [congruence|done]. }
  rewrite !Hp by done. done.
Qed.

(** Values whose text is read back: valid strings, distinct names, integers. *)
#[warnings="-register-all"]
Inductive json_ok : json → Prop :=
| ok_null : json_ok JNull
| ok_bool b : json_ok (JBool b)
| ok_num n : json_ok (JNum (format_int n))
| ok_str s : utf8_valid s = true → json_ok (JStr s)
| ok_arr l : Forall json_ok l → json_ok (JArr l)
| ok_obj l : NoDup (map fst l) → Forall (λ p, utf8_valid (fst p) = true ∧ json_ok (snd p)) l →
    json_ok (JObj l).

Definition print_member (p : gostring * json) : gostring := quote (fst p) ++ ":" ++ print_json (snd p).

Lemma print_arr l : print_json (JArr l) = "[" ++ join "," (map print_json l) ++ "]".
Proof.
  apply (f_equal (λ x, "[" ++ join "," x ++ "]")).
  induction l as [|v l IH]; [done|]. cbn [map]. by rewrite <-IH.
Qed.

Lemma print_obj l : print_json (JObj l) = "{" ++ join "," (map print_member l) ++ "}".
Proof.
  apply (f_equal (λ x, "{" ++ join "," x ++ "}")).
  induction l as [|[k v] l IH]; [done|]. cbn [map]. by rewrite <-IH.
Qed.

Lemma skip_ws_id c t : is_ws c = false → skip_ws (c :: t) = c :: t.
Proof. apply trim_left_id. Qed.

(** What a printed value starts with. *)
Lemma print_head v : json_ok v → ∃ c t, print_json v = c :: t
  ∧ is_ws c = false ∧ byte_val c <> 93 ∧ byte_val c <> 125.
Proof.
  intros H. destruct H as [|[]|n|s|l|l].
  - by eexists _, _.
  - by eexists _, _.
  - by eexists _, _.
  - cbn [print_json]. destruct (format_int_head n) as (c & s & -> & Hc). exists c, s.
    apply int_head_props in Hc as (_ & Hw & _ & _ & H1 & _ & H2). apply Z.eqb_neq in H1, H2. done.
  - by eexists quote_char, _.
  - rewrite print_arr. by eexists "["%char, _.
  - rewrite print_obj. by eexists "{"%char, _.
Qed.

Definition parses_back (v : json) : Prop :=
  ∀ fuel rest, number_end rest → (2 * length (print_json v) <= fuel)%nat →
    parse_value fuel (print_json v ++ rest) = Some (v, rest).

Lemma parse_elements_print l rest fuel : l ≠ [] → Forall parses_back l →
  (2 * length (join "," (map print_json l)) < fuel)%nat →
  parse_elements fuel (join "," (map print_json l) ++ "]" ++ rest) = Some (l, rest).
Proof.
  intros Hne H. revert fuel. induction H as [|v l Hv Hl IH]; intros fuel Hf; [done|].
  destruct fuel as [|f]; [lia|]. cbn [parse_elements].
  destruct l as [|w l].
  - cbn [map join] in *. rewrite Hv by (done || lia).
    change ("]" ++ rest) with ("]"%char :: rest). by rewrite skip_ws_id.
  - change (join "," (map print_json (v :: w :: l)))
      with (print_json v ++ "," ++ join "," (map print_json (w :: l))) in *.
    rewrite !length_app in Hf. rewrite <-!app_assoc, Hv by (done || lia).
    change ("," ++ join "," (map print_json (w :: l)) ++ "]" ++ rest)
      with (","%char :: (join "," (map print_json (w :: l)) ++ "]" ++ rest)).
    rewrite skip_ws_id by done. cbn [byte_val]. change (byte_val "," =? 44) with true. cbn iota.
    rewrite IH; [done|done|]. change (length (","%go : gostring)) with 1%nat in Hf. lia.
Qed.

Lemma parse_members_print l rest fuel : l ≠ [] →
  Forall (λ p, utf8_valid (fst p) = true ∧ parses_back (snd p)) l →
  (2 * length (join "," (map print_member l)) < fuel)%nat →
  parse_members fuel (join "," (map print_member l) ++ "}" ++ rest) = Some (l, rest).
Proof.
  intros Hne H. revert fuel. induction H as [|[k v] l [Hk Hv] Hl IH]; intros fuel Hf; [done|].
  destruct fuel as [|f]; [lia|]. cbn [fst snd] in *.
  assert (∀ t, number_end t → (2 * length (print_member (k, v)) <= f)%nat →
    parse_members (S f) (print_member (k, v) ++ t)
    = match skip_ws t with
      | c :: rest =>
          if byte_val c =? 44 then
            match parse_members f rest with
            | Some (l, rest) => Some ((k, v) :: l, rest) | None => None end
          else if byte_val c =? 125 then Some ([(k, v)], rest)
          else None
      | [] => None
      end) as Hone.
  { intros t Hend Ht. unfold print_member in *. cbn [fst snd] in *. rewrite !length_app in Ht.
    rewrite <-!app_assoc, quote_app. cbn [parse_members]. rewrite skip_ws_id by done.
    change (byte_val quote_char =? 34) with true. cbn iota.
    rewrite parse_string_quote by done.
    change (":" ++ print_json v ++ t) with (":"%char :: (print_json v ++ t)).
    rewrite skip_ws_id by done. change (byte_val ":" =? 58) with true. cbn iota.
    rewrite Hv by (done || lia). done. }
  destruct l as [|p l].
  - cbn [map join] in *. rewrite Hone by (done || lia).
    change ("}" ++ rest) with ("}"%char :: rest). by rewrite skip_ws_id.
  - change (join "," (map print_member ((k, v) :: p :: l)))
      with (print_member (k, v) ++ "," ++ join "," (map print_member (p :: l))) in *.
    rewrite !length_app in Hf. rewrite <-!app_assoc, Hone by (done || lia).
    change ("," ++ join "," (map print_member (p :: l)) ++ "}" ++ rest)
      with (","%char :: (join "," (map print_member (p :: l)) ++ "}" ++ rest)).
    rewrite skip_ws_id by done. change (byte_val "," =? 44) with true. cbn iota.
    rewrite IH; [done|done|]. change (length (","%go : gostring)) with 1%nat in Hf. lia.
Qed.

(** A printed value parses to itself, whatever follows it. *)
Lemma print_parses_back v : json_ok v → parses_back v.
Proof.
  induction v as [|b|t|s|l IH|l IH] using json_induction; intros Hok fuel rest Hend Hf.
  - destruct fuel; [simpl in Hf; lia|done].
  - destruct fuel; [destruct b; simpl in Hf; lia|by destruct b].
  - inversion Hok; subst. cbn [print_json] in *. destruct (format_int_head n) as (c & s & E & Hc).
    destruct fuel as [|f]; [rewrite E in Hf; simpl in Hf; lia|]. pose proof (parse_literal_int n rest Hend) as Hp.
    rewrite E in *. apply int_head_props in Hc as (_ & Hw & H1 & H2 & _ & H3 & _).
    cbn [app parse_value]. rewrite skip_ws_id by done. rewrite H1, H2, H3. exact Hp.
  - inversion Hok; subst. cbn [print_json] in *. destruct fuel as [|f]; [simpl in Hf; lia|].
    rewrite quote_app. cbn [parse_value]. rewrite skip_ws_id by done.
    change (byte_val quote_char =? 34) with true. cbn iota. by rewrite parse_string_quote.
  - inversion Hok as [| | | |l' Hl|]; subst. rewrite print_arr in *.
    destruct fuel as [|f]; [simpl in Hf; lia|].
    rewrite !length_app in Hf. rewrite <-!app_assoc.
    change ("[" ++ join "," (map print_json l) ++ "]" ++ rest)
      with ("["%char :: (join "," (map print_json l) ++ "]" ++ rest)).
    cbn [parse_value]. rewrite skip_ws_id by done.
    change (byte_val "[" =? 34) with false. change (byte_val "[" =? 91) with true. cbn iota.
    destruct l as [|v l]; [done|].
    assert (∃ c t, join "," (map print_json (v :: l)) ++ "]" ++ rest = c :: t
      ∧ is_ws c = false ∧ byte_val c <> 93) as (c & t & E & Hc & H93).
    { inversion_clear Hl as [|? ? Hv _]. destruct (print_head v Hv) as (c & t & E & Hc & H93 & _).
      destruct l as [|w l]; cbn [map join]; rewrite E; by eexists _, _. }
    assert (parse_elements f (c :: t) = Some (v :: l, rest)) as Hp.
    { rewrite <-E. apply parse_elements_print;
        [done| |change (length ("["%go : gostring)) with 1%nat in Hf; lia].
      apply Forall_forall. intros x Hx. rewrite Forall_forall in IH, Hl. by apply IH; [|apply Hl]. }
    rewrite E, skip_ws_id by done. rewrite (proj2 (Z.eqb_neq _ _) H93). by rewrite Hp.
  - inversion Hok as [| | | | |l' Hnd Hl]; subst. rewrite print_obj in *.
    destruct fuel as [|f]; [simpl in Hf; lia|].
    rewrite !length_app in Hf. rewrite <-!app_assoc.
    change ("{" ++ join "," (map print_member l) ++ "}" ++ rest)
      with ("{"%char :: (join "," (map print_member l) ++ "}" ++ rest)).
    cbn [parse_value]. rewrite skip_ws_id by done.
    change (byte_val "{" =? 34) with false. change (byte_val "{" =? 91) with false.
    change (byte_val "{" =? 123) with true. cbn iota.
    destruct l as [|[k v] l]; [done|].
    assert (∃ t, join "," (map print_member ((k, v) :: l)) ++ "}" ++ rest = quote_char :: t) as (t & E).
    { destruct l as [|w l]; cbn [map join]; unfold print_member at 1; cbn [fst];
        rewrite <-!app_assoc, quote_app; eauto. }
    assert (parse_members f (quote_char :: t) = Some ((k, v) :: l, rest)) as Hp.
    { rewrite <-E. apply parse_members_print; [done| |change (length ("{"%go : gostring)) with 1%nat in Hf; lia].
      apply Forall_forall. intros p Hp. rewrite Forall_forall in IH, Hl.
      destruct (Hl p Hp). split; [done|]. by apply IH. }
    rewrite E, skip_ws_id by done. change (byte_val quote_char =? 125) with false. cbn iota.
    rewrite Hp. by rewrite bool_decide_eq_true_2.
Qed.

(** [json.Unmarshal] of [json.Marshal]'s text gives the value back. *)
Lemma parse_print v : json_ok v → parse_json (print_json v) = Some v.
Proof.
  intros H. unfold parse_json. pose proof (print_parses_back v H (2 * length (print_json v) + 2)%nat []) as Hp.
  rewrite app_nil_r in Hp. rewrite Hp by (done || lia). done.
Qed.

Example json_sample :
  parse_json ("{ " ++ [quote_char] ++ "a" ++ [quote_char] ++ ":[1, -2.5e3 ,null]}")
  = Some (JObj [("a"%go, JArr [JNum "1"; JNum "-2.5e3"; JNull])]).
Proof. vm_compute. reflexivity. Qed.
