(* ===== verification/GoServe.v ===== *)
(** * http.ServeContent

    What [net/http] writes for contents that can be sought in, with the zero
    modification time the download handler passes: preconditions on the entity tag,
    ranges of bytes, and one or several parts.  Header maps are keyed by the names the
    source writes. *)

From S2P Require Import Prelude GoStrings GoConv GoJson.

Local Open Scope go_scope.

Definition crlf : gostring := ["013"%char; "010"%char].
(** [textproto.TrimString] *)
Definition trim_string : gostring → gostring :=
  trim (λ c, Ascii.eqb c " "%char || Ascii.eqb c "009"%char || Ascii.eqb c "010"%char || Ascii.eqb c "013"%char).

(** A string between double quotes. *)
Definition dquoted (s : gostring) : gostring := [quote_char] ++ s ++ [quote_char].

(** ** Entity tags *)

(** The bytes of a tag. *)
Definition etag_byte (c : ascii) : bool :=
  (byte_val c =? 33) || (35 <=? byte_val c) && (byte_val c <=? 126) || (128 <=? byte_val c).

(** A tag's bytes up to its closing quote, and what follows it. *)
Fixpoint etag_end (s : gostring) : option (gostring * gostring) :=
  match s with
  | [] => None
  | c :: s =>
      if etag_byte c then p ← etag_end s; Some (c :: fst p, snd p)
      else if Ascii.eqb c quote_char then Some ([c], s)
      else None
  end.

(** [scanETag]: the tag at the start of a list of tags, and the rest. *)
Definition scan_etag (s : gostring) : option (gostring * gostring) :=
  let s := trim_string s in
  let weak : gostring := if has_prefix "W/" s then "W/" else [] in
  match drop (length weak) s with
  | c :: s => if Ascii.eqb c quote_char then p ← etag_end s; Some (weak ++ c :: fst p, snd p) else None
  | [] => None
  end.

(** [etagStrongMatch], [etagWeakMatch] *)
Definition strip_weak (s : gostring) : gostring := if has_prefix "W/" s then drop 2 s else s.
Definition etag_strong_match (a b : gostring) : bool :=
  str_eqb a b && match a with c :: _ => Ascii.eqb c quote_char | [] => false end.
Definition etag_weak_match (a b : gostring) : bool := str_eqb (strip_weak a) (strip_weak b).

(** The loop of [checkIfMatch] and [checkIfNoneMatch]: a tag of the list matches, or
    the list has a star. *)
Fixpoint any_etag (fuel : nat) (matches : gostring → bool) (s : gostring) : bool :=
  match fuel with
  | O => false
  | S fuel =>
      match trim_string s with
      | [] => false
      | c :: s' =>
          if Ascii.eqb c ","%char then any_etag fuel matches s'
          else if Ascii.eqb c "*"%char then true
          else match scan_etag (c :: s') with
               | None => false
               | Some (etag, remain) => matches etag || any_etag fuel matches remain
               end
      end
  end.

(** ** Ranges *)

Record http_range := { ra_start : Z; ra_length : Z }.

Inductive range_error : Type := InvalidRange | NoOverlap.

(** The text of [parseRange]'s errors. *)
Definition range_error_text (e : range_error) : gostring :=
  match e with InvalidRange => "invalid range" | NoOverlap => "invalid range: failed to overlap" end.

(** One element of the list; [None] for a range after the end. *)
Definition parse_one_range (ra : gostring) (size : Z) : result range_error (option http_range) :=
  match cut_at "-"%char ra with
  | None => Err InvalidRange
  | Some (first, last) =>
      match trim_string first, trim_string last with
      | [], last =>
          match last, parse_int last with
          | c :: _, Some i =>
              if Ascii.eqb c "-"%char || (i <? 0) then Err InvalidRange
              else let i := Z.min i size in Ok (Some {| ra_start := size - i; ra_length := i |})
          | _, _ => Err InvalidRange
          end
      | first, last =>
          match parse_int first with
          | None => Err InvalidRange
          | Some i =>
              if i <? 0 then Err InvalidRange
              else if size <=? i then Ok None
              else match last with
                   | [] => Ok (Some {| ra_start := i; ra_length := size - i |})
                   | _ =>
                       match parse_int last with
                       | None => Err InvalidRange
                       | Some j =>
                           if j <? i then Err InvalidRange
                           else let j := if size <=? j then size - 1 else j in
                                Ok (Some {| ra_start := i; ra_length := j - i + 1 |})
                       end
                   end
          end
      end
  end.

(** The loop over the elements: the ranges that overlap, and whether one does not. *)
Fixpoint parse_ranges (l : list gostring) (size : Z) : result range_error (list http_range * bool) :=
  match l with
  | [] => Ok ([], false)
  | ra :: l =>
      match trim_string ra with
      | [] => parse_ranges l size
      | ra =>
          match parse_one_range ra size with
          | Err e => Err e
          | Ok r =>
              match parse_ranges l size with
              | Err e => Err e
              | Ok (rs, out) => Ok (match r with Some r => (r :: rs, out) | None => (rs, true) end)
              end
          end
      end
  end.

(** [parseRange] *)
Definition parse_range (s : gostring) (size : Z) : result range_error (list http_range) :=
  match s with
  | [] => Ok []
  | _ =>
      if negb (has_prefix "bytes=" s) then Err InvalidRange
      else match parse_ranges (split_on ","%char (drop 6 s)) size with
           | Err e => Err e
           | Ok ([], true) => Err NoOverlap
           | Ok (rs, _) => Ok rs
           end
  end.

(** [httpRange.contentRange] *)
Definition content_range (r : http_range) (size : Z) : gostring :=
  "bytes " ++ format_int (ra_start r) ++ "-" ++ format_int (ra_start r + ra_length r - 1) ++ "/" ++ format_int size.

(** [sumRangesSize] *)
Definition sum_ranges_size (rs : list http_range) : Z :=
  fold_left (λ n r, wrap_int64 (n + ra_length r)) rs 0.

(** The bytes of a range. *)
Definition slice (data : gostring) (r : http_range) : gostring :=
  take (Z.to_nat (ra_length r)) (drop (Z.to_nat (ra_start r)) data).

(** ** Several parts: mime/multipart *)

(** [CreatePart] with the header of [httpRange.mimeHeader], first or not. *)
Definition part_header (boundary ctype : gostring) (size : Z) (first : bool) (r : http_range) : gostring :=
  (if first then [] else crlf) ++ "--" ++ boundary ++ crlf
  ++ "Content-Range: " ++ content_range r size ++ crlf ++ "Content-Type: " ++ ctype ++ crlf ++ crlf.
(** [Writer.Close] *)
Definition closing_delimiter (boundary : gostring) : gostring := crlf ++ "--" ++ boundary ++ "--" ++ crlf.

Fixpoint multipart_parts (boundary ctype data : gostring) (size : Z) (first : bool) (rs : list http_range) : gostring :=
  match rs with
  | [] => closing_delimiter boundary
  | r :: rs => part_header boundary ctype size first r ++ slice data r
               ++ multipart_parts boundary ctype data size false rs
  end.

(** [rangesMIMESize]: the bytes of the headers counted, and the lengths of the ranges.
    The writer that counts has a boundary of the same length. *)
Fixpoint headers_size (boundary ctype : gostring) (size : Z) (first : bool) (rs : list http_range) : Z :=
  match rs with
  | [] => Z.of_nat (length (closing_delimiter boundary))
  | r :: rs => Z.of_nat (length (part_header boundary ctype size first r))
               + headers_size boundary ctype size false rs
  end.
Definition ranges_mime_size (boundary ctype : gostring) (size : Z) (rs : list http_range) : Z :=
  wrap_int64 (sum_ranges_size rs + headers_size boundary ctype size true rs).

(** ** Preconditions *)

(** [condResult] *)
Inductive cond_result : Type := CondNone | CondTrue | CondFalse.

Definition get_or_head (method : gostring) : bool := str_eqb method "GET" || str_eqb method "HEAD".

Section Preconditions.
Context (method : gostring) (header : gostring → gostring) (etag : gostring).

(** [checkIfMatch] *)
Definition check_if_match : cond_result :=
  match header "If-Match" with
  | [] => CondNone
  | im => if any_etag (S (length im)) (λ t, etag_strong_match t etag) im then CondTrue else CondFalse
  end.
(** [checkIfNoneMatch] *)
Definition check_if_none_match : cond_result :=
  match header "If-None-Match" with
  | [] => CondNone
  | inm => if any_etag (S (length inm)) (λ t, etag_weak_match t etag) inm then CondFalse else CondTrue
  end.
(** [checkIfRange]; a date never matches, as there is no modification time. *)
Definition check_if_range : cond_result :=
  if negb (get_or_head method) then CondNone
  else match header "If-Range" with
       | [] => CondNone
       | ir => match scan_etag ir with
               | Some (t, _) => if etag_strong_match t etag then CondTrue else CondFalse
               | None => CondFalse
               end
       end.

(** [checkPreconditions]: the status it answers with, or the range to serve.  Dates are
    not looked at without a modification time. *)
Definition check_preconditions : result Z gostring :=
  match check_if_match, check_if_none_match with
  | CondFalse, _ => Err 412
  | _, CondFalse => Err (if get_or_head method then 304 else 412)
  | _, _ => Ok (match check_if_range with CondFalse => [] | _ => header "Range" end)
  end.
End Preconditions.

(** ** Serving *)

(** What a body's writer wrote. *)
Inductive written : Type := WroteNothing | WroteText (s : gostring) | WroteContent (s : gostring).

(** What the outside world does to a transfer: whether the object's reader can be sought
    in ([reader.(io.ReadSeeker)]), whether seeking to its end and back works, the error of
    seeking to a range, after how many bytes reading the object or writing to the client
    fails, if it does, and the boundary of several parts. *)
Record transfer := {
  tr_seekable : bool;
  tr_size_seek : bool;
  tr_range_seek : option gostring;
  tr_sent : option nat;
  tr_boundary : gostring
}.

(** What of [s] was written. *)
Definition sent_part (sent : option nat) (s : gostring) : gostring :=
  match sent with None => s | Some n => take n s end.

(** [http.Error], and [serveError], which first removes what described the contents. *)
Definition http_error (text : gostring) (code : Z) (hdr : gmap gostring gostring)
  : Z * gmap gostring gostring * written :=
  (code, <["X-Content-Type-Options"%go := "nosniff"%go]>
           (<["Content-Type"%go := "text/plain; charset=utf-8"%go]> (delete "Content-Length"%go hdr)),
   WroteText (text ++ [byte_of 10])).
Definition serve_error (text : gostring) (code : Z) (hdr : gmap gostring gostring) :=
  http_error text code (delete "Cache-Control"%go (delete "Content-Encoding"%go
                          (delete "ETag"%go (delete "Last-Modified"%go hdr)))).

(** The headers of a 304: [writeNotModified]. *)
Definition not_modified_header (hdr : gmap gostring gostring) : gmap gostring gostring :=
  delete "Content-Type"%go (delete "Content-Length"%go (delete "Content-Encoding"%go (delete "Last-Modified"%go hdr))).

(** The ranges to serve: all of empty contents if none overlaps, and everything when
    the ranges ask for more than there is. *)
Definition ranges_to_serve (range : gostring) (size : Z) : result range_error (list http_range) :=
  match parse_range range size with
  | Err NoOverlap => if size =? 0 then Ok [] else Err NoOverlap
  | Err InvalidRange => Err InvalidRange
  | Ok rs => Ok (if size <? sum_ranges_size rs then [] else rs)
  end.

(** The header and the body, of which [send_size] bytes are copied. *)
Definition send_content (method : gostring) (tr : transfer) (code send_size : Z) (body : gostring)
    (hdr : gmap gostring gostring) : Z * gmap gostring gostring * written :=
  (code, <["Content-Length"%go := format_int send_size]> (<["Accept-Ranges"%go := "bytes"%go]> hdr),
   if str_eqb method "HEAD" then WroteNothing
   else WroteContent (sent_part (tr_sent tr) (take (Z.to_nat send_size) body))).

(** The whole, one range, or several. *)
Definition send_ranges (method : gostring) (tr : transfer) (data : gostring) (rs : list http_range)
    (hdr : gmap gostring gostring) : Z * gmap gostring gostring * written :=
  let size := Z.of_nat (length data) in
  match rs with
  | [] => send_content method tr 200 size data hdr
  | [r] =>
      match tr_range_seek tr with
      | Some text => serve_error text 416 hdr
      | None => send_content method tr 206 (ra_length r) (slice data r)
                  (<["Content-Range"%go := content_range r size]> hdr)
      end
  | _ =>
      let ctype := default [] (hdr !! "Content-Type"%go) in
      send_content method tr 206 (ranges_mime_size (tr_boundary tr) ctype size rs)
        (multipart_parts (tr_boundary tr) ctype data size true rs)
        (<["Content-Type"%go := "multipart/byteranges; boundary=" ++ tr_boundary tr]> hdr)
  end.

(** [http.ServeContent] of contents [data] on top of the headers [hdr]. *)
Definition serve_content (method : gostring) (header : gostring → gostring) (tr : transfer) (data : gostring)
    (hdr : gmap gostring gostring) : Z * gmap gostring gostring * written :=
  match check_preconditions method header (default [] (hdr !! "ETag"%go)) with
  | Err status => (status, if status =? 304 then not_modified_header hdr else hdr, WroteNothing)
  | Ok range =>
      if negb (tr_size_seek tr) then serve_error "seeker can't seek" 500 hdr
      else
        match ranges_to_serve range (Z.of_nat (length data)) with
        | Err NoOverlap =>
            serve_error (range_error_text NoOverlap) 416
              (<["Content-Range"%go := "bytes */" ++ format_int (Z.of_nat (length data))]> hdr)
        | Err e => serve_error (range_error_text e) 416 hdr
        | Ok rs => send_ranges method tr data rs hdr
        end
  end.

(** [io.Copy] to a response that announces [size] bytes: [net/http] refuses what goes
    beyond them, and writes nothing to a HEAD request. *)
Definition copy_content (method : gostring) (tr : transfer) (size : Z) (data : gostring) : written :=
  if str_eqb method "HEAD" then WroteNothing
  else WroteContent (sent_part (tr_sent tr) (take (Z.to_nat size) data)).

(** ** Lemmas *)

(** *** Lists of tags: every round takes at least a byte, so the fuel is enough *)

Lemma trim_length cut s : (length (trim cut s) <= length s)%nat.
Proof.
  unfold trim, trim_right. rewrite length_rev.
  destruct (trim_left_suffix cut s) as (p & Hp & _).
  destruct (trim_left_suffix cut (rev (trim_left cut s))) as (q & Hq & _).
  apply (f_equal length) in Hp, Hq. rewrite length_app in Hp, Hq. rewrite length_rev in Hq. lia.
Qed.

Lemma etag_end_shorter s t r : etag_end s = Some (t, r) → s = t ++ r ∧ t ≠ [].
Proof.
  revert t. induction s as [|c s IH]; intros t H; [done|]. cbn [etag_end] in H.
  destruct (etag_byte c).
  - destruct (etag_end s) as [[t' r']|] eqn:E; [|done]. cbn in H. injection H as <- <-.
    by destruct (IH t' eq_refl) as [-> _].
  - destruct (Ascii.eqb c quote_char); [|done]. by injection H as <- <-.
Qed.

Lemma scan_etag_shorter s t r : scan_etag s = Some (t, r) → (length r < length s)%nat.
Proof.
  unfold scan_etag. cbv zeta. intros H. pose proof (trim_length (λ c, Ascii.eqb c " "%char || Ascii.eqb c "009"%char
    || Ascii.eqb c "010"%char || Ascii.eqb c "013"%char) s) as Hl. fold (trim_string s) in Hl.
  destruct (drop _ (trim_string s)) as [|c s'] eqn:E; [done|]. apply (f_equal length) in E.
  rewrite length_drop in E. cbn [length] in E. destruct (Ascii.eqb c quote_char); [|done].
  destruct (etag_end s') as [[t' r']|] eqn:Ee; [|done]. cbn in H. injection H as _ <-.
  apply etag_end_shorter in Ee as [-> _]. rewrite length_app in E. lia.
Qed.

Lemma any_etag_fuel f1 f2 m s : (length s < f1)%nat → (length s < f2)%nat → any_etag f1 m s = any_etag f2 m s.
Proof.
  revert f2 s. induction f1 as [|f1 IH]; intros [|f2] s H1 H2; [lia..|]. cbn [any_etag].
  pose proof (trim_length (λ c, Ascii.eqb c " "%char || Ascii.eqb c "009"%char
    || Ascii.eqb c "010"%char || Ascii.eqb c "013"%char) s) as Hl. fold (trim_string s) in Hl.
  destruct (trim_string s) as [|c s'] eqn:E; [done|]. cbn [length] in Hl.
  destruct (Ascii.eqb c ","%char); [apply IH; lia|]. destruct (Ascii.eqb c "*"%char); [done|].
  destruct (scan_etag (c :: s')) as [[t r]|] eqn:Es; [|done]. apply scan_etag_shorter in Es. cbn [length] in Es.
  f_equal. apply IH; lia.
Qed.

(** *** Ranges lie within the contents *)

Definition in_bounds (size : Z) (r : http_range) : Prop :=
  0 <= ra_start r ∧ 0 <= ra_length r ∧ ra_start r + ra_length r <= size.

Lemma parse_one_range_bounds ra size r : 0 <= size → parse_one_range ra size = Ok (Some r) → in_bounds size r.
Proof.
  intros Hs H. unfold parse_one_range in H. unfold in_bounds.
  repeat case_match; simplify_eq; cbn [ra_start ra_length]; to_prop; lia.
Qed.

Lemma parse_ranges_bounds l size rs out : 0 <= size → parse_ranges l size = Ok (rs, out) → Forall (in_bounds size) rs.
Proof.
  intros Hs. revert rs out. induction l as [|ra l IH]; intros rs out H; cbn [parse_ranges] in H.
  - injection H as <- _. constructor.
  - destruct (trim_string ra) as [|c ra']; [by eapply IH|].
    destruct (parse_one_range _ size) as [r|e] eqn:E; [|done].
    destruct (parse_ranges l size) as [[rs' out']|e]; [|done]. specialize (IH rs' out' eq_refl).
    destruct r as [r|]; injection H as <- _; [|done]. constructor; [by eapply parse_one_range_bounds|done].
Qed.

Lemma parse_range_bounds s size rs : 0 <= size → parse_range s size = Ok rs → Forall (in_bounds size) rs.
Proof.
  intros Hs H. unfold parse_range in H. destruct s as [|c s]; [injection H as <-; constructor|].
  destruct (negb _); [done|]. destruct (parse_ranges _ size) as [[rs' out]|e] eqn:E; [|done].
  apply parse_ranges_bounds in E; [|done]. destruct rs', out; by simplify_eq.
Qed.

Lemma slice_length data r : in_bounds (Z.of_nat (length data)) r → Z.of_nat (length (slice data r)) = ra_length r.
Proof. intros (H1 & H2 & H3). unfold slice. rewrite length_take, length_drop. lia. Qed.

(** *** The announced size of several parts is theirs *)

Lemma wrap_int64_add_l a b : wrap_int64 (wrap_int64 a + b) = wrap_int64 (a + b).
Proof.
  unfold wrap_int64. f_equal.
  set (m := 18446744073709551616). set (k := 9223372036854775808).
  replace ((a + k) mod m - k + b + k) with ((a + k) mod m + b) by lia.
  rewrite Z.add_mod_idemp_l by done. f_equal. lia.
Qed.

Fixpoint lengths (rs : list http_range) : Z :=
  match rs with [] => 0 | r :: rs => ra_length r + lengths rs end.

Lemma sum_ranges_size_wrap rs b : wrap_int64 (sum_ranges_size rs + b) = wrap_int64 (lengths rs + b).
Proof.
  unfold sum_ranges_size. change (lengths rs + b) with (0 + lengths rs + b). generalize 0.
  induction rs as [|r rs IH]; intros n; cbn [fold_left lengths]; [by rewrite Z.add_0_r|].
  rewrite IH, <-Z.add_assoc, wrap_int64_add_l. f_equal. lia.
Qed.

Lemma multipart_length b ctype data first rs : Forall (in_bounds (Z.of_nat (length data))) rs →
  Z.of_nat (length (multipart_parts b ctype data (Z.of_nat (length data)) first rs))
  = lengths rs + headers_size b ctype (Z.of_nat (length data)) first rs.
Proof.
  intros H. revert first. induction H as [|r rs Hr Hrs IH]; intros first; [done|].
  cbn [multipart_parts headers_size lengths]. rewrite !length_app, !Nat2Z.inj_add, (slice_length _ _ Hr), IH. lia.
Qed.

Lemma ranges_mime_size_length b ctype data rs : Forall (in_bounds (Z.of_nat (length data))) rs →
  let body := multipart_parts b ctype data (Z.of_nat (length data)) true rs in
  Z.of_nat (length body) <= max_int64 →
  ranges_mime_size b ctype (Z.of_nat (length data)) rs = Z.of_nat (length body).
Proof.
  cbv zeta. intros Hrs H. unfold ranges_mime_size. rewrite sum_ranges_size_wrap, <-multipart_length by done.
  apply wrap_int64_id. unfold in_int64, min_int64. lia.
Qed.

(** ** What an answer means *)

(** What of [body] is written to a request of [method]. *)
Definition writes (method : gostring) (tr : transfer) (body : gostring) : written :=
  if str_eqb method "HEAD" then WroteNothing else WroteContent (sent_part (tr_sent tr) body).

Lemma writes_cases method tr body :
  method = "HEAD"%go ∧ writes method tr body = WroteNothing
  ∨ method ≠ "HEAD"%go ∧ writes method tr body = WroteContent (sent_part (tr_sent tr) body).
Proof.
  unfold writes. destruct (str_eqb method "HEAD") eqn:E; [left|right]; (split; [|done]).
  - by apply str_eqb_eq.
  - by apply str_eqb_neq.
Qed.

(** The meaning of each status, and what it takes to be answered with it. *)
Inductive content_answer (method : gostring) (header : gostring → gostring) (tr : transfer) (data : gostring)
    (hdr : gmap gostring gostring) : Z → gmap gostring gostring → written → Prop :=
| AnswerWhole hdr' :
    hdr' !! "Content-Length"%go = Some (format_int (Z.of_nat (length data))) →
    hdr' !! "Content-Type"%go = hdr !! "Content-Type"%go →
    content_answer method header tr data hdr 200 hdr' (writes method tr data)
| AnswerRange r hdr' : header "Range" ≠ [] → in_bounds (Z.of_nat (length data)) r →
    hdr' !! "Content-Range"%go = Some (content_range r (Z.of_nat (length data))) →
    hdr' !! "Content-Length"%go = Some (format_int (Z.of_nat (length (slice data r)))) →
    hdr' !! "Content-Type"%go = hdr !! "Content-Type"%go →
    content_answer method header tr data hdr 206 hdr' (writes method tr (slice data r))
| AnswerRanges rs hdr' n body : header "Range" ≠ [] → (1 < length rs)%nat →
    Forall (in_bounds (Z.of_nat (length data))) rs →
    body = multipart_parts (tr_boundary tr) (default [] (hdr !! "Content-Type"%go)) data (Z.of_nat (length data)) true rs →
    (Z.of_nat (length body) <= max_int64 → n = Z.of_nat (length body)) →
    hdr' !! "Content-Length"%go = Some (format_int n) →
    hdr' !! "Content-Type"%go = Some ("multipart/byteranges; boundary=" ++ tr_boundary tr) →
    content_answer method header tr data hdr 206 hdr' (writes method tr (take (Z.to_nat n) body))
| AnswerNotModified : get_or_head method = true → header "If-None-Match" ≠ [] →
    content_answer method header tr data hdr 304 (not_modified_header hdr) WroteNothing
| AnswerPrecondition :
    header "If-Match" ≠ [] ∨ get_or_head method = false ∧ header "If-None-Match" ≠ [] →
    content_answer method header tr data hdr 412 hdr WroteNothing
| AnswerUnsatisfiable text hdr' : header "Range" ≠ [] →
    hdr' !! "Content-Type"%go = Some "text/plain; charset=utf-8"%go →
    content_answer method header tr data hdr 416 hdr' (WroteText text)
| AnswerSeekError text hdr' : tr_size_seek tr = false →
    hdr' !! "Content-Type"%go = Some "text/plain; charset=utf-8"%go →
    content_answer method header tr data hdr 500 hdr' (WroteText text).

Lemma serve_error_type text code hdr status hdr' w : serve_error text code hdr = (status, hdr', w) →
  status = code ∧ hdr' !! "Content-Type"%go = Some "text/plain; charset=utf-8"%go ∧ w = WroteText (text ++ [byte_of 10]).
Proof.
  intros [= <- <- <-]. split; [done|]. split; [|done]. by rewrite lookup_insert_ne, lookup_insert_eq by done.
Qed.

Lemma preconditions_err method header etag status : check_preconditions method header etag = Err status →
  status = 412 ∧ (header "If-Match" ≠ [] ∨ get_or_head method = false ∧ header "If-None-Match" ≠ [])
  ∨ status = 304 ∧ get_or_head method = true ∧ header "If-None-Match" ≠ [].
Proof.
  unfold check_preconditions, check_if_match, check_if_none_match. intros H.
  destruct (header "If-Match") as [|c1 s1], (header "If-None-Match") as [|c2 s2], (get_or_head method);
    repeat case_match; simplify_eq; auto.
Qed.
Lemma preconditions_ok method header etag range : check_preconditions method header etag = Ok range →
  range = [] ∨ range = header "Range".
Proof. unfold check_preconditions. intros H. repeat case_match; simplify_eq; auto. Qed.

(** A request with none of the headers gets everything. *)
Lemma preconditions_plain method header etag :
  header "If-Match" = [] → header "If-None-Match" = [] → header "Range" = [] →
  check_preconditions method header etag = Ok [].
Proof.
  intros H1 H2 H3. unfold check_preconditions, check_if_match, check_if_none_match. rewrite H1, H2, H3.
  by destruct (check_if_range _ _ _).
Qed.

Lemma take_all_Z (s : gostring) n : Z.of_nat (length s) = n → take (Z.to_nat n) s = s.
Proof. intros <-. apply take_ge. lia. Qed.

Lemma send_content_inv method tr code n body hdr status hdr' w :
  send_content method tr code n body hdr = (status, hdr', w) →
  status = code ∧ hdr' = <["Content-Length"%go := format_int n]> (<["Accept-Ranges"%go := "bytes"%go]> hdr)
  ∧ w = writes method tr (take (Z.to_nat n) body).
Proof. by intros [= <- <- <-]. Qed.

Lemma send_ranges_answer method header tr data hdr rs status hdr' body :
  Forall (in_bounds (Z.of_nat (length data))) rs → (rs ≠ [] → header "Range" ≠ []) →
  send_ranges method tr data rs hdr = (status, hdr', body) →
  content_answer method header tr data hdr status hdr' body.
Proof.
  intros Hb Hr H. unfold send_ranges in H. cbv zeta in H. destruct rs as [|r [|r2 rs]].
  - apply send_content_inv in H as (-> & -> & ->). rewrite (take_all_Z data) by done.
    constructor; [by rewrite lookup_insert_eq|by rewrite !lookup_insert_ne].
  - inversion_clear Hb as [|? ? Hb1 _]. specialize (Hr ltac:(done)).
    destruct (tr_range_seek tr).
    + apply serve_error_type in H as (-> & Ht & ->). by constructor.
    + apply send_content_inv in H as (-> & -> & ->). rewrite (take_all_Z (slice data r)) by by apply slice_length.
      constructor; [done|done|..].
      * by rewrite !lookup_insert_ne, lookup_insert_eq by done.
      * by rewrite lookup_insert_eq, slice_length.
      * by rewrite !lookup_insert_ne by done.
  - apply send_content_inv in H as (-> & -> & ->). eapply AnswerRanges with (rs := r :: r2 :: rs); [by apply Hr|cbn [length]; lia|done|done|..].
    + apply ranges_mime_size_length, Hb.
    + by rewrite lookup_insert_eq.
    + by rewrite !lookup_insert_ne, lookup_insert_eq by done.
Qed.

(** [http.ServeContent] answers with one of these. *)
Lemma serve_content_answer method header tr data hdr status hdr' body :
  serve_content method header tr data hdr = (status, hdr', body) →
  content_answer method header tr data hdr status hdr' body.
Proof.
  intros H. unfold serve_content in H.
  destruct (check_preconditions _ _ _) as [range|st] eqn:Ep.
  2: { apply preconditions_err in Ep as [[-> Hp]|(-> & Hm & Hp)]; injection H as <- <- <-; by constructor. }
  destruct (tr_size_seek tr) eqn:Es; cbn [negb] in H.
  2: { apply serve_error_type in H as (-> & Ht & ->). by constructor. }
  assert (range ≠ [] → header "Range" ≠ []) as Hne.
  { intros Hr. by apply preconditions_ok in Ep as [->|<-]. }
  destruct (ranges_to_serve range _) as [rs|e] eqn:Er; unfold ranges_to_serve in Er.
  - assert (Forall (in_bounds (Z.of_nat (length data))) rs ∧ (rs ≠ [] → header "Range" ≠ [])) as [Hb Hr].
    { destruct (parse_range range _) as [rs'|[]] eqn:E; [|done|].
      - pose proof (parse_range_bounds _ _ _ (Nat2Z.is_nonneg _) E) as Hb. injection Er as <-. split; [by case_match|].
        intros Hrs. apply Hne. intros ->. injection E as <-. by destruct (_ <? _).
      - destruct (_ =? 0); [|done]. by injection Er as <-. }
    by eapply send_ranges_answer.
  - assert (header "Range" ≠ []) as Hr.
    { apply Hne. intros ->. cbn [parse_range] in Er. by destruct (_ <? _). }
    destruct e; apply serve_error_type in H as (-> & Ht & ->); by constructor.
Qed.

(** Other headers stay as they were set, except on errors. *)
Lemma serve_content_keeps method header tr data hdr status hdr' body k :
  serve_content method header tr data hdr = (status, hdr', body) →
  status ≠ 416 → status ≠ 500 →
  k ∉ ["Content-Type"; "Content-Length"; "Content-Encoding"; "Last-Modified"; "Content-Range"; "Accept-Ranges"]%go →
  hdr' !! k = hdr !! k.
Proof.
  intros H H416 H500 Hk. rewrite !not_elem_of_cons in Hk. destruct Hk as (K1 & K2 & K3 & K4 & K5 & K6 & _).
  assert (∀ code n d hdr1, send_content method tr code n d hdr1 = (status, hdr', body) → hdr' !! k = hdr1 !! k) as Hsend.
  { intros code n d hdr1 [= _ <- _]. by rewrite !lookup_insert_ne by congruence. }
  unfold serve_content in H. destruct (check_preconditions _ _ _) as [range|st].
  2: { injection H as <- <- _. destruct (st =? 304); [|done]. unfold not_modified_header.
       by rewrite !lookup_delete_ne by congruence. }
  destruct (negb _); [by apply serve_error_type in H as (-> & _)|].
  destruct (ranges_to_serve _ _) as [rs|[]]; [|by apply serve_error_type in H as (-> & _)..].
  unfold send_ranges in H. cbv zeta in H. destruct rs as [|r [|]].
  - by eapply Hsend.
  - destruct (tr_range_seek tr); [by apply serve_error_type in H as (-> & _)|].
    apply Hsend in H as ->. by rewrite lookup_insert_ne by congruence.
  - apply Hsend in H as ->. by rewrite lookup_insert_ne by congruence.
Qed.

(** A request without preconditions and ranges is answered with everything. *)
Lemma serve_content_plain method header tr data hdr :
  header "If-Match" = [] → header "If-None-Match" = [] → header "Range" = [] → tr_size_seek tr = true →
  ∃ hdr', serve_content method header tr data hdr = (200, hdr', writes method tr data).
Proof.
  intros H1 H2 H3 Hs. unfold serve_content. rewrite preconditions_plain, Hs by done. cbn [negb].
  unfold ranges_to_serve. cbn [parse_range].
  assert ((if Z.of_nat (length data) <? sum_ranges_size [] then [] else []) = @nil http_range) as ->
    by by destruct (_ <? _).
  eexists. unfold send_ranges, send_content, writes. cbv zeta. by rewrite (take_all_Z data) by done.
Qed.

(** *** The requests of the repository's test *)

#[local] Definition digits : gostring := "0123456789".
#[local] Definition test_header : gmap gostring gostring :=
  <["Content-Type"%go := "application/octet-stream"%go]> {[ "ETag"%go := dquoted "abc" ]}.
#[local] Definition calm : transfer :=
  {| tr_seekable := true; tr_size_seek := true; tr_range_seek := None; tr_sent := None; tr_boundary := "b" |}.
#[local] Definition header_is (k v : gostring) : gostring → gostring := λ k', if str_eqb k' k then v else [].
#[local] Definition answer_of (method : gostring) (header : gostring → gostring) :=
  let '(status, hdr, body) := serve_content method header calm digits test_header in
  (status, body, hdr !! "Content-Range"%go, hdr !! "Content-Length"%go, hdr !! "Content-Type"%go).

Example test_range : answer_of "GET" (header_is "Range" "bytes=2-5")
  = (206, WroteContent "2345", Some "bytes 2-5/10", Some "4", Some "application/octet-stream")%go.
Proof. vm_compute. reflexivity. Qed.
Example test_matching_etag : answer_of "GET" (header_is "If-None-Match" (dquoted "abc"))
  = (304, WroteNothing, None, None, None).
Proof. vm_compute. reflexivity. Qed.
Example test_other_etag : answer_of "GET" (header_is "If-None-Match" (dquoted "other"))
  = (200, WroteContent digits, None, Some "10", Some "application/octet-stream")%go.
Proof. vm_compute. reflexivity. Qed.
Example test_head : answer_of "HEAD" (λ _, [])
  = (200, WroteNothing, None, Some "10", Some "application/octet-stream")%go.
Proof. vm_compute. reflexivity. Qed.
Example test_unsatisfiable : answer_of "GET" (header_is "Range" "bytes=10-")
  = (416, WroteText ("invalid range: failed to overlap" ++ [byte_of 10]), Some "bytes */10", None,
     Some "text/plain; charset=utf-8")%go.
Proof. vm_compute. reflexivity. Qed.
Example test_two_ranges : answer_of "GET" (header_is "Range" "bytes=0-1, -2")
  = (206, WroteContent
       ("--b" ++ crlf ++ "Content-Range: bytes 0-1/10" ++ crlf ++ "Content-Type: application/octet-stream" ++ crlf ++ crlf
        ++ "01" ++ crlf ++ "--b" ++ crlf ++ "Content-Range: bytes 8-9/10" ++ crlf
        ++ "Content-Type: application/octet-stream" ++ crlf ++ crlf ++ "89" ++ crlf ++ "--b--" ++ crlf),
     None, Some "167", Some "multipart/byteranges; boundary=b")%go.
Proof. vm_compute. reflexivity. Qed.
Example test_failed_match : answer_of "GET" (header_is "If-Match" (dquoted "other" ++ ", W/" ++ dquoted "abc"))
  = (412, WroteNothing, None, None, Some "application/octet-stream"%go).
Proof. vm_compute. reflexivity. Qed.
