(* ===== verification/Sanitise.v ===== *)
(** * internal/sanitise: endpoint paths as directory names

    [endpoint] models [sanitise.Endpoint] (internal/sanitise/endpoint.go): it
    turns an endpoint path into one safe path element.  The theorems give the
    exact set of possible results and show the function is a projection onto
    it. *)

From S2P Require Import Prelude GoStrings GoUnicode GoRegexp GoPath.

Local Open Scope go_scope.

(** The classes of [safeEndpointPattern]. *)
Definition safe_byte (c : ascii) : bool :=
  is_alnum c || Ascii.eqb c "_"%char || Ascii.eqb c "-"%char.
Definition safe_or_dot (c : ascii) : bool := safe_byte c || Ascii.eqb c "."%char.

(** [safeEndpointPattern] *)
Definition safe_endpoint_pattern : regexp :=
  RSeq (RClass safe_byte) (ROpt (RSeq (RStar (RClass safe_or_dot)) (RClass safe_byte))).

(** [InvalidEndpoint] *)
Definition invalid_endpoint : gostring := "_invalid".

Definition is_separator (c : ascii) : bool :=
  Ascii.eqb c "/"%char || Ascii.eqb c "\"%char.

(** [Endpoint] *)
Definition endpoint (ep : gostring) : gostring :=
  let s := trim_left (eqb_byte "/"%char) ep in
  if existsb (λ seg, is_dot seg || is_dotdot seg) (fields_func is_separator s)
  then invalid_endpoint
  else
    let s := replace_byte "/"%char "_"%char s in
    let s := replace_byte "\"%char "_"%char s in
    match localize s with
    | None => invalid_endpoint
    | Some s =>
        if re_match safe_endpoint_pattern s then s else invalid_endpoint
    end.

(** ** The names the pattern accepts *)

(** A safe directory name: letters, digits, [_], [-] and inner dots. *)
Definition safe_name (s : gostring) : bool :=
  match s with
  | [] => false
  | c :: _ => safe_byte c && safe_byte (last_or c s) && forallb safe_or_dot s
  end.

Lemma safe_byte_or_dot c : safe_byte c = true → safe_or_dot c = true.
Proof. unfold safe_or_dot. by intros ->. Qed.

Lemma safe_endpoint_pattern_spec s :
  re_match safe_endpoint_pattern s = safe_name s.
Proof.
  apply eq_true_iff_eq. rewrite re_match_lang. unfold safe_endpoint_pattern, ROpt.
  rewrite lang_seq_inv. setoid_rewrite lang_class_inv. setoid_rewrite lang_alt_inv.
  setoid_rewrite lang_seq_inv. setoid_rewrite lang_star_class. setoid_rewrite lang_class_inv.
  split.
  - intros (? & s2 & -> & (c & -> & Hc) & [(m & ? & -> & Hm & d & -> & Hd)|H]).
    + simpl. rewrite Hc, last_or_app, Hd, safe_byte_or_dot by done. simpl.
      rewrite forallb_app. simpl. rewrite (safe_byte_or_dot d), andb_true_r by done.
      by apply forallb_Forall.
    + inversion H; subst. simpl. by rewrite Hc, safe_byte_or_dot by done.
  - destruct s as [|c s]; [done|]. unfold safe_name. cbn [last_or].
    intros [[Hc Hl]%andb_prop Ha]%andb_prop. exists [c], s. split; [done|].
    split; [eauto|]. destruct s as [|e s]; [right; constructor|]. left.
    destruct (last_or_snoc c (e :: s)) as [m Hm]; [done|].
    exists m, [last_or c (e :: s)]. split; [done|]. split.
    + cbn [forallb] in Ha. apply andb_prop in Ha as [_ Ha].
      change (forallb safe_or_dot (e :: s) = true) in Ha. rewrite Hm in Ha.
      rewrite forallb_app in Ha. apply andb_prop in Ha as [Ha _]. by apply forallb_Forall.
    + eauto.
Qed.

(** A safe byte is ASCII and is neither a separator, a dot nor NUL. *)
Lemma safe_or_dot_props c : safe_or_dot c = true →
  is_ascii c = true ∧ is_separator c = false ∧ c ≠ "000"%char.
Proof.
  intros H.
  assert (negb (safe_or_dot c) || (is_ascii c && negb (is_separator c)
    && negb (Ascii.eqb c "000"%char)) = true) as Hb.
  { refine (forall_bytes (λ c, negb (safe_or_dot c) || (is_ascii c && negb (is_separator c)
      && negb (Ascii.eqb c "000"%char))) _ c). vm_compute. reflexivity. }
  rewrite H in Hb. cbn [negb orb] in Hb. to_prop. done.
Qed.

Lemma safe_name_bytes s : safe_name s = true →
  s ≠ [] ∧ Forall (λ c, safe_or_dot c = true) s.
Proof.
  destruct s as [|c s]; [done|]. intros [_ H]%andb_prop. split; [done|].
  by apply forallb_Forall.
Qed.

Lemma safe_name_ends s : safe_name s = true →
  has_prefix "." s = false ∧ has_suffix "." s = false.
Proof.
  destruct s as [|c s]; [done|]. intros [[H1 H2]%andb_prop _]%andb_prop.
  split; apply not_true_iff_false.
  - intros [r [= Hc _]]%has_prefix_spec. by rewrite Hc in H1.
  - intros [r Hr]%has_suffix_spec. rewrite Hr, last_or_app in H2. done.
Qed.

Lemma safe_name_plain s : safe_name s = true → plain_elem s = true.
Proof.
  intros H. apply plain_elem_true. repeat split; intros ->; discriminate H.
Qed.

Lemma safe_name_no_slash s : safe_name s = true → slash ∉ s.
Proof.
  intros [_ H]%safe_name_bytes Hin. rewrite Forall_forall in H.
  by specialize (H _ Hin).
Qed.

(** Nothing in a safe name needs sanitising. *)
Lemma fields_func_none sep s cur :
  Forall (λ c, sep c = false) s → cur ++ s ≠ [] → fields sep cur s = [rev cur ++ s].
Proof.
  intros H. revert cur. induction H as [|c s Hc Hs IH]; intros cur Hne; simpl.
  - rewrite app_nil_r in *. by destruct cur.
  - rewrite Hc, IH by done. simpl. by rewrite <-app_assoc.
Qed.

Lemma replace_byte_id old new s : old ∉ s → replace_byte old new s = s.
Proof.
  induction s as [|c s IH]; intros Hn; [done|]. rewrite not_elem_of_cons in Hn.
  destruct Hn as [Hc Hn]. simpl. destruct (Ascii.eqb_spec c old); [congruence|].
  f_equal. by apply IH.
Qed.

Lemma safe_name_valid_path s : safe_name s = true → localize s = Some s.
Proof.
  intros Hs. pose proof (safe_name_bytes s Hs) as [_ Hall]. unfold localize, valid_path.
  rewrite utf8_valid_ascii.
  2: { apply forallb_Forall. eapply Forall_impl; [exact Hall|].
       intros c Hc. by destruct (safe_or_dot_props c Hc) as (? & ? & ?). }
  rewrite split_on_none by by apply safe_name_no_slash.
  simpl. rewrite safe_name_plain, orb_true_r by done. simpl.
  assert (contains_byte "000"%char s = false) as ->; [|done].
  apply contains_byte_false. intros Hin. rewrite Forall_forall in Hall.
  by specialize (Hall _ Hin).
Qed.

(** [endpoint] leaves safe names alone. *)
Lemma endpoint_safe_id s : safe_name s = true → endpoint s = s.
Proof.
  intros Hs. pose proof (safe_name_bytes s Hs) as [Hne Hall]. unfold endpoint.
  assert (Forall (λ c, is_separator c = false) s) as Hsep.
  { eapply Forall_impl; [exact Hall|]. intros c Hc. by destruct (safe_or_dot_props c Hc) as (? & ? & ?). }
  assert (trim_left (eqb_byte "/"%char) s = s) as ->.
  { destruct s as [|c s]; [done|]. apply trim_left_id. inversion_clear Hsep as [|? ? Hc _].
    unfold is_separator in Hc. apply orb_false_iff in Hc as [Hc _].
    unfold eqb_byte. rewrite Ascii.eqb_sym. done. }
  unfold fields_func. rewrite fields_func_none by done. cbn [existsb rev app].
  pose proof (safe_name_plain s Hs) as Hp. apply plain_elem_true in Hp as (_ & Hd & Hdd).
  unfold is_dot, is_dotdot. rewrite (proj2 (str_eqb_neq s ".")), (proj2 (str_eqb_neq s "..")) by done.
  cbn [orb]. rewrite Forall_forall in Hsep.
  assert (∀ c, is_separator c = true → c ∉ s) as Hno
    by (intros c Hc Hin; apply Hsep in Hin; congruence).
  rewrite (replace_byte_id "/"%char), (replace_byte_id "\"%char) by by apply Hno.
  rewrite safe_name_valid_path by done. by rewrite safe_endpoint_pattern_spec, Hs.
Qed.

Lemma invalid_endpoint_safe : safe_name invalid_endpoint = true.
Proof. reflexivity. Qed.

Lemma endpoint_safe_name ep : safe_name (endpoint ep) = true.
Proof.
  unfold endpoint. destruct (existsb _ _); [apply invalid_endpoint_safe|].
  destruct (localize _) as [l|]; [|apply invalid_endpoint_safe].
  rewrite safe_endpoint_pattern_spec. destruct (safe_name l) eqn:E; [done|].
  apply invalid_endpoint_safe.
Qed.
#[export] Hint Resolve endpoint_safe_name safe_name_plain safe_name_no_slash : go.

Lemma replace_byte_Forall (P : ascii → Prop) old new s :
  Forall P (replace_byte old new s) → Forall (λ c, c = old ∨ P c) s.
Proof.
  induction s as [|c s IH]; intros H; [constructor|]. simpl in H. apply Forall_cons in H as [Hc H].
  constructor; [|by apply IH]. destruct (Ascii.eqb_spec c old); auto.
Qed.

(** A path with a directory of its own is made of safe bytes and separators. *)
Lemma endpoint_valid_bytes ep : endpoint ep ≠ invalid_endpoint →
  Forall (λ c, safe_or_dot c || is_separator c = true) ep.
Proof.
  unfold endpoint. cbv zeta. destruct (existsb _ _); [done|]. intros Hne.
  destruct (localize _) as [l|] eqn:El; [|done]. rewrite safe_endpoint_pattern_spec in Hne.
  destruct (safe_name l) eqn:Es; [|done]. apply safe_name_bytes in Es as [_ Hb].
  unfold localize in El. destruct (_ && _); [|done]. injection El as <-.
  apply replace_byte_Forall, replace_byte_Forall in Hb.
  destruct (trim_left_suffix (eqb_byte "/"%char) ep) as (p & -> & Hp). apply Forall_app. split.
  - eapply Forall_impl; [exact Hp|]. intros c Hc. unfold eqb_byte in Hc. apply Ascii.eqb_eq in Hc as <-. done.
  - eapply Forall_impl; [exact Hb|]. intros c [->|[->|Hc]]; [done..|]. by rewrite Hc.
Qed.

(** Whatever string an endpoint path is, the directory name made from it is
    one ordinary path element: non-empty, free of slashes, backslashes and NUL,
    not starting or ending with a dot (so neither ["."] nor [".."]), and
    sanitising it again changes nothing. *)
Theorem endpoint_is_safe_element ep :
  let d := endpoint ep in
  d ≠ [] ∧ ("/"%char ∉ d) ∧ ("\"%char ∉ d) ∧ ("000"%char ∉ d)
  ∧ has_prefix "." d = false ∧ has_suffix "." d = false ∧ plain_elem d = true
  ∧ endpoint d = d.
Proof.
  cbv zeta. pose proof (endpoint_safe_name ep) as Hs.
  pose proof (safe_name_bytes _ Hs) as [Hne Hall]. rewrite Forall_forall in Hall.
  destruct (safe_name_ends _ Hs) as [Hp Hsuf].
  repeat split; try (intros Hin; by specialize (Hall _ Hin)); auto with go.
  by apply endpoint_safe_id.
Qed.
