(* ===== verification/Storage.v ===== *)
(** * storage: object identifiers and the contract of a storage backend

    Object identifiers (storage/oid.go), the [Adapter] and
    [PresignedURLProvider] interfaces (storage/adapter.go) as records of
    operations over a world [W], and [AdapterLaws], the abstract
    specification: a content-addressed map from (storage directory, lower-case
    OID) to bytes.  [Local] and [S3] discharge it; [Batch] and [Handler] are
    written against it. *)

From S2P Require Import Prelude GoStrings GoUnicode GoRegexp GoConv GoHash GoOs Sanitise.

Local Open Scope go_scope.

(** ** Object identifiers *)

(** [oidPattern] *)
Definition oid_pattern : regexp := RRepeat 64 (RClass is_hex).

(** [IsValidOID] *)
Definition is_valid_oid (oid : gostring) : bool := re_match oid_pattern oid.

Section Oid.
Context {U : Unicode}.

(** [normaliseOID] *)
Definition normalise_oid (oid : gostring) : result go_error gostring :=
  if negb (re_match oid_pattern oid) then Err [InvalidOID] else Ok (to_lower oid).
End Oid.

(** The hexadecimal SHA-256 of some contents. *)
Definition content_oid (data : gostring) : gostring := hex_encode (sha256 data).

Lemma is_valid_oid_spec oid :
  is_valid_oid oid = true ↔ length oid = 64%nat ∧ Forall (λ c, is_hex c = true) oid.
Proof. unfold is_valid_oid, oid_pattern. by rewrite re_match_lang, lang_repeat_class. Qed.

Lemma is_hex_props c : is_hex c = true →
  is_ascii c = true ∧ is_hex (lower_byte c) = true ∧ safe_byte (lower_byte c) = true.
Proof.
  intros H.
  assert (negb (is_hex c) || (is_ascii c && is_hex (lower_byte c) && safe_byte (lower_byte c))
    = true) as Hb.
  { refine (forall_bytes (λ c, negb (is_hex c) || (is_ascii c && is_hex (lower_byte c)
      && safe_byte (lower_byte c))) _ c). vm_compute. reflexivity. }
  rewrite H in Hb. cbn [negb orb] in Hb. to_prop. done.
Qed.

Lemma valid_oid_ascii oid : is_valid_oid oid = true → forallb is_ascii oid = true.
Proof.
  intros [_ H]%is_valid_oid_spec. apply forallb_Forall. eapply Forall_impl; [exact H|].
  intros c Hc. by apply is_hex_props.
Qed.

(** A normalised OID: 64 lower-case hexadecimal digits. *)
Definition normal_oid (o : gostring) : Prop :=
  is_valid_oid o = true ∧ map lower_byte o = o.

Lemma normalise_oid_ok {U : Unicode} oid o :
  normalise_oid oid = Ok o ↔ is_valid_oid oid = true ∧ o = map lower_byte oid.
Proof.
  unfold normalise_oid. change (re_match oid_pattern oid) with (is_valid_oid oid).
  destruct (is_valid_oid oid) eqn:E; simpl.
  - rewrite to_lower_ascii by by apply valid_oid_ascii.
    split; [intros [= <-]; done|by intros [_ ->]].
  - by split; [|intros [? _]].
Qed.

Lemma map_lower_idemp s : map lower_byte (map lower_byte s) = map lower_byte s.
Proof. rewrite map_map. apply map_ext. intros c. apply lower_byte_idemp. Qed.

Lemma normalise_oid_normal {U : Unicode} oid o : normalise_oid oid = Ok o → normal_oid o.
Proof.
  intros [Hv ->]%normalise_oid_ok. split; [|apply map_lower_idemp].
  apply is_valid_oid_spec in Hv as [Hl Hh]. apply is_valid_oid_spec. rewrite length_map.
  split; [done|]. apply Forall_map. eapply Forall_impl; [exact Hh|].
  intros c Hc. by apply is_hex_props.
Qed.

Lemma normalise_normal {U : Unicode} o : normal_oid o → normalise_oid o = Ok o.
Proof. intros [Hv Hl]. apply normalise_oid_ok. by rewrite Hl. Qed.

Lemma content_oid_normal data : normal_oid (content_oid data).
Proof.
  split; [|apply hex_encode_lower]. apply is_valid_oid_spec. unfold content_oid.
  rewrite hex_encode_length, sha256_length. split; [done|].
  apply hex_encode_Forall. intros d Hd. by apply hex_digit_props.
Qed.

(** [strings.EqualFold(computed, oid)] as the storage backends use it. *)
Lemma equal_fold_content {U : Unicode} data oid :
  is_valid_oid oid = true →
  equal_fold (content_oid data) oid = true ↔ content_oid data = map lower_byte oid.
Proof.
  intros Hv. rewrite equal_fold_ascii; [|apply hex_encode_ascii|by apply valid_oid_ascii].
  unfold content_oid. by rewrite hex_encode_lower.
Qed.

(** ** The backend interface *)

(** A request context at the moment of a call: [Some e] once it is done. *)
Definition ctx : Type := option go_error.

Definition out (W A : Type) : Type := result go_error A * W.

(** [PresignedURLProvider] *)
Record Presigner (W : Type) := {
  presign_get : ctx → gostring → gostring → Z → W → out W gostring;
  presign_put : ctx → gostring → gostring → Z → Z → W
                → out W (gostring * gmap gostring gostring)
}.
Arguments presign_get {W} _ _ _ _ _ _.
Arguments presign_put {W} _ _ _ _ _ _ _.

(** [Adapter]; [presigner] is the outcome of the type assertion
    [store.(storage.PresignedURLProvider)]. *)
Record Adapter (W : Type) := {
  ad_exists : ctx → gostring → gostring → W → out W bool;
  ad_get : ctx → gostring → gostring → W → out W (gostring * Z);
  ad_put : ctx → gostring → gostring → reader → Z → W → out W unit;
  ad_size : ctx → gostring → gostring → W → out W Z;
  ad_available_space : ctx → W → out W Z;
  ad_check : ctx → W → out W unit;
  ad_presigner : option (Presigner W)
}.
Arguments ad_exists {W} _ _ _ _ _.
Arguments ad_get {W} _ _ _ _ _.
Arguments ad_put {W} _ _ _ _ _ _ _.
Arguments ad_size {W} _ _ _ _ _.
Arguments ad_available_space {W} _ _ _.
Arguments ad_check {W} _ _ _.
Arguments ad_presigner {W} _.

(** ** The contract

    [objects w d o] is the object stored in directory [d] under the normal OID
    [o].  [valid] is the backend's own invariant. *)

Definition object_store (W : Type) : Type := W → gostring → gostring → option gostring.

(** Every object is what its name says. *)
Definition content_addressed {W} (objects : object_store W) (w : W) : Prop :=
  ∀ d o data, safe_name d = true → normal_oid o →
    objects w d o = Some data → content_oid data = o.

Definition same_objects {W} (objects : object_store W) (w w' : W) : Prop :=
  ∀ d o, safe_name d = true → normal_oid o → objects w' d o = objects w d o.

(** The world differs at most in object [(d, o)], which is now [data]. *)
Definition stored_object {W} (objects : object_store W) (d o data : gostring) (w w' : W) : Prop :=
  objects w' d o = Some data
  ∧ ∀ d' o', safe_name d' = true → normal_oid o' → (d', o') ≠ (d, o) →
      objects w' d' o' = objects w d' o'.

Class AdapterLaws {U : Unicode} {W} (a : Adapter W) (objects : object_store W)
    (valid : W → Prop) : Prop := {
  (** Reading operations change no object, and answer from the store. *)
  exists_law c ep oid w r w' : valid w → ad_exists a c ep oid w = (r, w') →
    valid w' ∧ same_objects objects w w'
    ∧ ∀ b, r = Ok b → ∃ o, normalise_oid oid = Ok o
        ∧ (b = true ↔ is_Some (objects w (endpoint ep) o));
  get_law c ep oid w r w' : valid w → ad_get a c ep oid w = (r, w') →
    valid w' ∧ same_objects objects w w'
    ∧ ∀ data n, r = Ok (data, n) → ∃ o, normalise_oid oid = Ok o
        ∧ objects w (endpoint ep) o = Some data;
  size_law c ep oid w r w' : valid w → ad_size a c ep oid w = (r, w') →
    valid w' ∧ same_objects objects w w'
    ∧ ∀ n, r = Ok n → ∃ o data, normalise_oid oid = Ok o
        ∧ objects w (endpoint ep) o = Some data ∧ n = Z.of_nat (length data);
  (** A put that succeeds has stored bytes it read from the reader under their
      own hash; one that fails has stored nothing, or bytes under their own hash
      whose storing it could not confirm. *)
  put_law c ep oid rd n w r w' : valid w → ad_put a c ep oid rd n w = (r, w') →
    valid w'
    ∧ match r with
      | Ok _ => ∃ o data, normalise_oid oid = Ok o ∧ content_oid data = o
          ∧ data `prefix_of` concat (rd_chunks rd)
          ∧ stored_object objects (endpoint ep) o data w w'
      | Err _ => same_objects objects w w'
          ∨ ∃ o data, normalise_oid oid = Ok o ∧ content_oid data = o
              ∧ stored_object objects (endpoint ep) o data w w'
      end;
  (** Asking for the space left, or whether the backend is reachable, stores nothing. *)
  space_law c w r w' : valid w → ad_available_space a c w = (r, w') →
    valid w' ∧ same_objects objects w w' ∧ ∀ n, r = Ok n → in_uint64 n;
  check_law c w r w' : valid w → ad_check a c w = (r, w') → valid w' ∧ same_objects objects w w';
  (** Presigning stores nothing. *)
  presign_get_law p c ep oid exp w r w' : ad_presigner a = Some p → valid w →
    presign_get p c ep oid exp w = (r, w') → valid w' ∧ same_objects objects w w';
  presign_put_law p c ep oid n exp w r w' : ad_presigner a = Some p → valid w →
    presign_put p c ep oid n exp w = (r, w') → valid w' ∧ same_objects objects w w'
}.

(** The size [Get] returns is the object's. *)
Class AdapterSizes {W} (a : Adapter W) : Prop :=
  get_size_law c ep oid w data n w' : ad_get a c ep oid w = (Ok (data, n), w') → n = Z.of_nat (length data).

Section Laws.
Context {U : Unicode} {W : Type} (a : Adapter W) (objects : object_store W)
  (valid : W → Prop) {L : AdapterLaws a objects valid}.

Lemma same_objects_addressed w w' :
  same_objects objects w w' → content_addressed objects w → content_addressed objects w'.
Proof. intros Hs Hc d o data Hd Ho Hobj. rewrite Hs in Hobj by done. eauto. Qed.

(** Puts preserve content addressing, whatever they return. *)
Lemma put_preserves_addressing c ep oid rd n w r w' :
  valid w → content_addressed objects w →
  ad_put a c ep oid rd n w = (r, w') → content_addressed objects w'.
Proof.
  intros Hv Hc Hp. apply put_law in Hp as [_ Hp]; [|done].
  assert (∀ o data, content_oid data = o → stored_object objects (endpoint ep) o data w w' →
    content_addressed objects w') as Hstored.
  { intros o data Hoid [Hst Hother] d' o' data' Hd Ho Hobj.
    destruct (decide ((d', o') = (endpoint ep, o))) as [[= -> ->]|Hne].
    - rewrite Hst in Hobj. by injection Hobj as <-.
    - rewrite Hother in Hobj by done. eauto. }
  destruct r as [u|e].
  - destruct Hp as (o & data & _ & Hoid & _ & Hst). eauto.
  - destruct Hp as [Hs|(o & data & _ & Hoid & Hst)]; [by eapply same_objects_addressed|eauto].
Qed.
End Laws.
