(* ===== verification/Local.v ===== *)
(** * storage/local.go: objects on the local file system

    [Local] stores each object at [<base>/<endpoint>/<aa>/<bb>/<oid>], writing
    uploads to a temporary file that is renamed into place once its hash is
    known to be right.  The world of an operation is the operating system with
    its fault oracle, and the [writing] set of the adapter. *)

From S2P Require Import Prelude GoStrings GoUnicode GoRegexp GoPath GoConv GoHash GoOs Sanitise Storage.

Local Open Scope go_scope.

(** [TempFilePrefix] and [uploadTempDir] (storage/tempfiles.go) *)
Definition temp_file_prefix : gostring := ".tmp-".
Definition upload_temp_dir : gostring := ".tmp".

(** [Local] *)
Record Local := { base_path : gostring; writing : gset gostring }.

(** [NewLocal] *)
Definition new_local (base : gostring) : Local := {| base_path := base; writing := ∅ |}.

Definition with_writing (s : gset gostring) (l : Local) : Local :=
  {| base_path := base_path l; writing := s |}.

Definition world : Type := Local * os.

(** [CheckWritableDir]; the world names files by their cleaned paths. *)
Definition check_writable_dir (dir : gostring) (w : os) : result go_error unit * os :=
  match create_temp (path_join [dir; ".write-check-"]) w with
  | (Err e, w) => (Err e, w)
  | (Ok name, w) => let '(_, w) := close w in remove name w
  end.

Section Operations.
Context {U : Unicode}.

(** [Local.filePath] *)
Definition file_path (l : Local) (ep oid : gostring) : result go_error gostring :=
  let? oid := normalise_oid oid in
  Ok (path_join [base_path l; endpoint ep; take 2 oid; take 2 (drop 2 oid); oid]).

(** [Local.Writing] *)
Definition is_writing (l : Local) (path : gostring) : bool :=
  bool_decide (path ∈ writing l).

(** [Local.trackWriting]: the key it adds, which the returned function
    deletes, or [None] when it is a no-op. *)
Definition track_key (l : Local) (tmp_path : gostring) : option gostring :=
  path_rel (base_path l) tmp_path.
Definition track (k : option gostring) (l : Local) : Local :=
  match k with Some k => with_writing ({[k]} ∪ writing l) l | None => l end.
Definition untrack (k : option gostring) (l : Local) : Local :=
  match k with Some k => with_writing (writing l ∖ {[k]}) l | None => l end.

(** [Local.Exists] *)
Definition local_exists (c : ctx) (ep oid : gostring) (w : world) : out world bool :=
  match c with
  | Some e => (Err e, w)
  | None =>
      match file_path (fst w) ep oid with
      | Err e => (Err e, w)
      | Ok path =>
          let '(r, o) := stat path (snd w) in
          match r with
          | Ok _ => (Ok true, (fst w, o))
          | Err e =>
              if errors_is NotExist e then (Ok false, (fst w, o)) else (Err e, (fst w, o))
          end
      end
  end.

(** [Local.Get]: the open file is its contents; [os.Open], then [File.Stat]. *)
Definition local_get (c : ctx) (ep oid : gostring) (w : world) : out world (gostring * Z) :=
  match c with
  | Some e => (Err e, w)
  | None =>
      match file_path (fst w) ep oid with
      | Err e => (Err e, w)
      | Ok path =>
          match open_file path (snd w) with
          | (Err e, o) => (Err e, (fst w, o))
          | (Ok f, o) =>
              match fstat f o with
              | (Err e, o) => let '(_, o) := close o in (Err e, (fst w, o))
              | (Ok info, o) =>
                  (Ok (f_data f, Z.of_nat (length (f_data info))), (fst w, o))
              end
          end
      end
  end.

(** [Local.Size] *)
Definition local_size (c : ctx) (ep oid : gostring) (w : world) : out world Z :=
  match c with
  | Some e => (Err e, w)
  | None =>
      match file_path (fst w) ep oid with
      | Err e => (Err e, w)
      | Ok path =>
          match stat path (snd w) with
          | (Err e, o) => (Err e, (fst w, o))
          | (Ok info, o) => (Ok (Z.of_nat (length (f_data info))), (fst w, o))
          end
      end
  end.

(** [Local.AvailableSpace] on Unix: a [uint64] product. *)
Definition local_available_space (c : ctx) (w : world) : out world Z :=
  match c with
  | Some e => (Err e, w)
  | None =>
      match statfs (snd w) with
      | (Err e, o) => (Err e, (fst w, o))
      | (Ok (bavail, bsize), o) =>
          (Ok (wrap_uint64 (bavail * wrap_uint64 bsize)), (fst w, o))
      end
  end.

(** [Local.Check] *)
Definition local_check (c : ctx) (w : world) : out world unit :=
  match local_available_space c w with
  | (Err e, w) => (Err e, w)
  | (Ok _, w) => (Ok tt, w)
  end.

(** [isNoSpaceErr] on Unix, and the wrapping it decides. *)
Definition is_no_space_err (e : go_error) : bool := errors_is NoSpace e.
Definition wrap_no_space (e : go_error) : go_error :=
  if is_no_space_err e then InsufficientStorage :: e else e.

(** The part of [Local.Put] between [CreateTemp] and the deferred cleanup:
    the result, and whether [tmp] was closed. *)
Definition put_temp (tmp dest oid : gostring) (rd : reader) (w : os)
  : result go_error unit * bool * os :=
  match copy tmp rd w with
  | (Err e, w) => (Err (wrap_no_space e), false, w)
  | (Ok _, w) =>
      match sync w with
      | (Err e, w) => (Err (wrap_no_space e), false, w)
      | (Ok _, w) =>
          match close w with
          | (Err e, w) => (Err e, false, w)
          | (Ok _, w) =>
              let computed := hex_encode (sha256 (concat (rd_chunks rd))) in
              if negb (equal_fold computed oid) then (Err [HashMismatch], true, w)
              else let '(r, w) := rename tmp dest w in (r, true, w)
          end
      end
  end.

(** The deferred cleanup of [Local.Put]: close if needed, then remove. *)
Definition put_cleanup (tmp : gostring) (closed : bool) (w : os) : os :=
  let w := if closed then w else snd (close w) in snd (remove tmp w).

(** The directory and name prefix of an endpoint's temporary files. *)
Definition temp_dir (l : Local) (ep : gostring) : gostring :=
  path_join [base_path l; endpoint ep; upload_temp_dir].
Definition temp_prefix (l : Local) (ep : gostring) : gostring :=
  temp_dir l ep ++ [slash] ++ temp_file_prefix.

(** [Local.Put] *)
Definition local_put (c : ctx) (ep oid : gostring) (rd : reader) (_ : Z) (w : world)
  : out world unit :=
  let '(l, o) := w in
  match c with
  | Some e => (Err e, w)
  | None =>
      match file_path l ep oid with
      | Err e => (Err e, w)
      | Ok dest =>
          match mkdir_all o with
          | (Err e, o) => (Err e, (l, o))
          | (Ok _, o) =>
              match mkdir_all o with
              | (Err e, o) => (Err e, (l, o))
              | (Ok _, o) =>
                  match create_temp (temp_prefix l ep) o with
                  | (Err e, o) => (Err e, (l, o))
                  | (Ok tmp, o) =>
                      let k := track_key l tmp in
                      let l := track k l in
                      let '(r, closed, o) := put_temp tmp dest oid rd o in
                      let o := put_cleanup tmp closed o in
                      (r, (untrack k l, o))
                  end
              end
          end
      end
  end.

(** [*Local] as an [Adapter]; it is not a [PresignedURLProvider]. *)
Definition local_adapter : Adapter world := {|
  ad_exists := local_exists;
  ad_get := local_get;
  ad_put := local_put;
  ad_size := local_size;
  ad_available_space := local_available_space;
  ad_check := local_check;
  ad_presigner := None
|}.
End Operations.

(** ** Paths of objects and of temporary files *)

Definition object_path (base d o : gostring) : gostring :=
  render (is_rooted base) (clean_elems base ++ [d; take 2 o; take 2 (drop 2 o); o]).
Definition temp_path (base d n : gostring) : gostring :=
  render (is_rooted base) (clean_elems base ++ [d; upload_temp_dir; temp_file_prefix ++ n]).

(** A random part of a temporary name: decimal digits. *)
Definition digits_name (n : gostring) : bool := forallb is_digit n.

Lemma base_elems base (l : list gostring) :
  match base with [] => l | _ => clean_elems base ++ l end = clean_elems base ++ l.
Proof. by destruct base. Qed.

Lemma normal_oid_safe o : normal_oid o →
  length o = 64%nat ∧ Forall (λ c, safe_byte c = true) o.
Proof.
  intros [[Hl Hh]%is_valid_oid_spec Hlow]. split; [done|]. rewrite <-Hlow.
  apply Forall_map. eapply Forall_impl; [exact Hh|]. intros c Hc. by apply is_hex_props.
Qed.

Lemma safe_bytes_plain s : s ≠ [] → Forall (λ c, safe_byte c = true) s →
  plain_elem s = true ∧ slash ∉ s.
Proof.
  intros Hne Hs. destruct s as [|c s]; [done|]. inversion_clear Hs as [|? ? Hc Hs'].
  split.
  - apply plain_elem_true. split; [done|]. split; intros [= -> _]; done.
  - intros Hin. apply elem_of_cons in Hin as [<-|Hin]; [done|].
    rewrite Forall_forall in Hs'. by specialize (Hs' _ Hin).
Qed.

(** The elements below the base of an object's path. *)
Lemma object_elems_ok d o : safe_name d = true → normal_oid o →
  Forall (λ e, slash ∉ e) [d; take 2 o; take 2 (drop 2 o); o]
  ∧ forallb plain_elem [d; take 2 o; take 2 (drop 2 o); o] = true.
Proof.
  intros Hd [Hl Hs]%normal_oid_safe.
  do 5 (destruct o as [|? o]; [done|]). cbn [take drop firstn skipn].
  assert (∀ s, s ≠ [] → Forall (λ c, safe_byte c = true) s → plain_elem s = true ∧ slash ∉ s)
    as Hp by apply safe_bytes_plain.
  rewrite !Forall_cons in Hs. destruct Hs as (H1 & H2 & H3 & H4 & H5 & Hs).
  destruct (Hp [a; a0]) as [P1 S1]; [done|by repeat constructor|].
  destruct (Hp [a1; a2]) as [P2 S2]; [done|by repeat constructor|].
  destruct (Hp (a :: a0 :: a1 :: a2 :: a3 :: o)) as [P3 S3]; [done|by repeat constructor|].
  split; [repeat constructor; auto with go|].
  cbn [forallb]. by rewrite P1, P2, P3, safe_name_plain.
Qed.

Lemma temp_elems_ok d n : safe_name d = true → digits_name n = true →
  Forall (λ e, slash ∉ e) [d; upload_temp_dir; temp_file_prefix ++ n]
  ∧ forallb plain_elem [d; upload_temp_dir; temp_file_prefix ++ n] = true.
Proof.
  intros Hd Hn.
  assert (slash ∉ temp_file_prefix ++ n) as Hsl.
  { apply not_elem_of_app. split; [by apply contains_byte_false|].
    intros Hin. apply forallb_Forall in Hn. rewrite Forall_forall in Hn.
    by specialize (Hn _ Hin). }
  split.
  - repeat constructor; auto with go. by apply contains_byte_false.
  - cbn [forallb]. rewrite safe_name_plain by done. done.
Qed.

Section Paths.
Context {U : Unicode}.

Lemma file_path_ok l ep oid p :
  file_path l ep oid = Ok p ↔
  ∃ o, normalise_oid oid = Ok o ∧ p = object_path (base_path l) (endpoint ep) o.
Proof.
  unfold file_path. destruct (normalise_oid oid) as [o|e] eqn:E; [|by split; [|intros (o & ? & _)]].
  destruct (object_elems_ok (endpoint ep) o) as [Hs Hp];
    [auto with go|by eapply normalise_oid_normal|].
  rewrite path_join_plain, base_elems by done. unfold object_path.
  split; [intros [= <-]; eauto|by intros (? & [= ->] & ->)].
Qed.

Lemma file_path_err l ep oid e : file_path l ep oid = Err e → normalise_oid oid = Err e.
Proof. unfold file_path. destruct (normalise_oid oid); [done|]. by intros [= ->]. Qed.

Lemma temp_prefix_app l ep n :
  temp_prefix l ep ++ n = temp_path (base_path l) (endpoint ep) n.
Proof.
  unfold temp_prefix, temp_dir, temp_path.
  assert (Forall (λ e, slash ∉ e) [endpoint ep; upload_temp_dir]) as Hs.
  { repeat constructor; auto with go. by apply contains_byte_false. }
  rewrite path_join_plain, base_elems;
    [|done|done|cbn [forallb]; by rewrite safe_name_plain by auto with go].
  rewrite <-!app_assoc. change ([slash] ++ temp_file_prefix ++ n) with
    (slash :: temp_file_prefix ++ n).
  rewrite render_snoc by (by destruct (clean_elems _)). by rewrite <-app_assoc.
Qed.
End Paths.

Lemma object_path_inj base d o d' o' :
  safe_name d = true → normal_oid o → safe_name d' = true → normal_oid o' →
  object_path base d o = object_path base d' o' → d = d' ∧ o = o'.
Proof.
  intros Hd Ho Hd' Ho' E.
  destruct (object_elems_ok d o) as [Hs _]; [done..|].
  destruct (object_elems_ok d' o') as [Hs' _]; [done..|].
  apply render_inj in E.
  - apply app_inv_head in E. by injection E as -> _ _ ->.
  - apply Forall_app. split; [apply clean_elems_no_slash|done].
  - apply Forall_app. split; [apply clean_elems_no_slash|done].
  - by destruct (clean_elems base).
  - by destruct (clean_elems base).
Qed.

Lemma temp_path_ne_object base d n d' o :
  safe_name d = true → digits_name n = true → safe_name d' = true → normal_oid o →
  temp_path base d n ≠ object_path base d' o.
Proof.
  intros Hd Hn Hd' Ho E.
  destruct (temp_elems_ok d n) as [Hs _]; [done..|].
  destruct (object_elems_ok d' o) as [Hs' _]; [done..|].
  apply render_inj in E.
  - apply app_inv_head in E. done.
  - apply Forall_app. split; [apply clean_elems_no_slash|done].
  - apply Forall_app. split; [apply clean_elems_no_slash|done].
  - by destruct (clean_elems base).
  - by destruct (clean_elems base).
Qed.

(** The key [trackWriting] uses is the slash-separated path below the base. *)
Lemma track_key_temp l d n : safe_name d = true → digits_name n = true →
  track_key l (temp_path (base_path l) d n)
  = Some (d ++ "/" ++ upload_temp_dir ++ "/" ++ temp_file_prefix ++ n).
Proof.
  intros Hd Hn. unfold track_key, temp_path. destruct (temp_elems_ok d n) as [Hs Hp]; [done..|].
  by rewrite path_rel_below.
Qed.

(** ** The store a world holds *)

Definition local_objects : object_store world := λ w d o,
  f_data <$> os_files (snd w) !! object_path (base_path (fst w)) d o.

(** Random names are decimal digits, as [os.CreateTemp] makes them, and a fault
    is never [NotExist], which only a missing file gives. *)
Definition local_valid (w : world) : Prop :=
  Forall (λ n, digits_name n = true) (os_names (snd w))
  ∧ faults_ok (snd w).

Lemma local_valid_incl l l' o o' :
  local_valid (l, o) → os_le o o' → local_valid (l', o').
Proof.
  unfold local_valid. simpl. rewrite !Forall_forall. intros [H1 H2] Hle.
  split; [|by eapply faults_ok_le]. intros x Hx. by apply H1, (le_names _ _ Hle).
Qed.

(** Worlds with the same base and the same files hold the same objects. *)
Lemma local_same_objects l l' o o' :
  base_path l' = base_path l → os_files o' = os_files o →
  same_objects local_objects (l, o) (l', o').
Proof. intros Hb Hf d k _ _. unfold local_objects. simpl. by rewrite Hb, Hf. Qed.

(** ** What [Put] does *)

Section PutSpec.
Context {U : Unicode}.

(** Up to the rename, only the temporary file changes; a successful
    [put_temp] has moved the uploaded bytes, correctly named, to [dest]. *)
Lemma put_temp_spec tmp dest oid rd w r closed w' f0 :
  put_temp tmp dest oid rd w = (r, closed, w') →
  tmp ≠ dest → is_valid_oid oid = true →
  os_files w !! tmp = Some f0 → f_data f0 = [] →
  os_le w w' ∧ same_except [tmp; dest] w w'
  ∧ match r with
    | Ok _ => rd_eof rd = true ∧ content_oid (concat (rd_chunks rd)) = map lower_byte oid
        ∧ f_data <$> os_files w' !! dest = Some (concat (rd_chunks rd))
        ∧ os_files w' !! tmp = None
    | Err _ => os_files w' !! dest = os_files w !! dest
    end.
Proof.
  intros H Hne Hv Hf0 Hempty. unfold put_temp in H.
  assert (∀ v, same_except [tmp] w v → same_except [tmp; dest] w v
    ∧ os_files v !! dest = os_files w !! dest) as Hweak.
  { intros v Hs. split; [|apply Hs; set_solver].
    apply (same_except_mono [tmp]); [set_solver|done]. }
  destruct (copy tmp rd w) as [[u|e] w1] eqn:E1.
  2: { simplify_eq. pose proof (copy_le _ _ _ _ _ E1).
       apply copy_files in E1 as [Hs _]. destruct (Hweak _ Hs). done. }
  pose proof (copy_le _ _ _ _ _ E1) as N1. apply copy_files in E1 as [Hs1 Hok].
  destruct u. destruct (Hok eq_refl) as [Heof Hdata]. clear Hok.
  destruct (Hdata f0 Hf0) as (g & Hg & Hgd). rewrite Hempty in Hgd. simpl in Hgd.
  destruct (sync w1) as [[u|e] w2] eqn:E2; pose proof (sync_le _ _ _ E2) as N2;
    apply sync_files in E2.
  2: { simplify_eq. destruct (Hweak w') as [Ha Hb]; [intros p Hp; rewrite E2; by apply Hs1|].
       split; [by etrans|done]. }
  destruct (close w2) as [[u'|e] w3] eqn:E3; pose proof (sync_le _ _ _ E3) as N3;
    apply close_files in E3; rewrite E2 in E3.
  all: assert (os_le w w3) as N by (etrans; [exact N1|]; by etrans).
  2: { simplify_eq. destruct (Hweak w') as [Ha Hb]; [intros p Hp; rewrite E3; by apply Hs1|].
       done. }
  destruct (Hweak w3) as [Ha Hb]; [intros p Hp; rewrite E3; by apply Hs1|].
  destruct (negb _) eqn:Eh; [by simplify_eq|]. apply negb_false_iff in Eh.
  apply equal_fold_content in Eh; [|done].
  destruct (rename tmp dest w3) as [r4 w4] eqn:E4. simplify_eq.
  pose proof (rename_le _ _ _ _ _ E4) as N4. apply rename_files in E4.
  split; [by etrans|]. destruct r as [u4|e].
  - destruct E4 as (f & Hf & Hw'). rewrite E3, Hg in Hf. injection Hf as <-. split.
    + intros p Hp. rewrite Hw'. rewrite lookup_insert_ne, lookup_delete_ne by set_solver.
      by apply Ha.
    + rewrite Hw', lookup_insert_eq. simpl. rewrite Hgd.
      rewrite lookup_insert_ne, lookup_delete_eq by done. done.
  - split; [intros p Hp|]; rewrite E4; [by apply Ha|done].
Qed.

Lemma put_cleanup_spec tmp closed w :
  os_le w (put_cleanup tmp closed w) ∧ same_except [tmp] w (put_cleanup tmp closed w)
  ∧ (os_files w !! tmp = None → os_files (put_cleanup tmp closed w) = os_files w).
Proof.
  unfold put_cleanup.
  set (w1 := if closed then w else snd (close w)).
  assert (os_files w1 = os_files w ∧ os_le w w1) as [Hf Hn].
  { subst w1. destruct closed; [done|]. destruct (close w) as [r1 v] eqn:E.
    split; [by eapply close_files|by eapply sync_le]. }
  destruct (remove tmp w1) as [r2 w2] eqn:E. simpl.
  pose proof (remove_le _ _ _ _ E) as Hn2.
  split; [by etrans|]. split.
  - apply remove_files in E as [Hs _]. intros p Hp. by rewrite Hs, Hf.
  - intros Hnone. revert E. unfold remove, syscall.
    destruct (next_fault w1) as [[f|] w3] eqn:E3; apply next_fault_files in E3.
    + intros [= <- <-]. by rewrite E3.
    + rewrite E3, Hf, Hnone. intros [= <- <-]. by rewrite E3.
Qed.

Lemma track_base k l : base_path (track k l) = base_path l.
Proof. by destruct k. Qed.
Lemma untrack_base k l : base_path (untrack k l) = base_path l.
Proof. by destruct k. Qed.

(** [Put] in full: at most the object and one temporary file of the endpoint
    change; success stores exactly the bytes read, at the path of their own
    hash; failure leaves the object as it was. *)
Lemma local_put_spec c ep oid rd n l o r l' o' :
  local_valid (l, o) → local_put c ep oid rd n (l, o) = (r, (l', o')) →
  base_path l' = base_path l ∧ os_le o o'
  ∧ ∃ nm, digits_name nm = true
    ∧ match r with
      | Ok _ => ∃ k, normalise_oid oid = Ok k ∧ rd_eof rd = true
          ∧ content_oid (concat (rd_chunks rd)) = k
          ∧ same_except [temp_path (base_path l) (endpoint ep) nm;
                         object_path (base_path l) (endpoint ep) k] o o'
          ∧ f_data <$> os_files o' !! object_path (base_path l) (endpoint ep) k
            = Some (concat (rd_chunks rd))
      | Err _ => same_except [temp_path (base_path l) (endpoint ep) nm] o o'
      end.
Proof.
  intros Hval H. unfold local_put in H.
  assert (∀ v, os_le o v → os_files v = os_files o →
    base_path l = base_path l ∧ os_le o v ∧ ∃ nm, digits_name nm = true
    ∧ same_except [temp_path (base_path l) (endpoint ep) nm] o v) as Hquit.
  { intros v Hn Hf. split; [done|]. split; [done|]. exists []. split; [done|].
    intros p _. by rewrite Hf. }
  destruct c as [e|]; [simplify_eq; by apply Hquit|].
  destruct (file_path l ep oid) as [dest|e] eqn:Edest; [|simplify_eq; by apply Hquit].
  apply file_path_ok in Edest as (k & Hk & ->).
  pose proof (normalise_oid_normal _ _ Hk) as Hnorm.
  apply normalise_oid_ok in Hk as Hk'. destruct Hk' as [Hvalid Hkl].
  destruct (mkdir_all o) as [[u|e] o1] eqn:E1; pose proof (mkdir_all_le _ _ _ E1) as N1;
    apply mkdir_all_files in E1; [|simplify_eq; by apply Hquit].
  destruct (mkdir_all o1) as [[u'|e] o2] eqn:E2; pose proof (mkdir_all_le _ _ _ E2) as N2;
    apply mkdir_all_files in E2; rewrite E1 in E2;
    assert (os_le o o2) as N02 by (by etrans); [|simplify_eq; by apply Hquit].
  destruct (create_temp (temp_prefix l ep) o2) as [[tmp|e] o3] eqn:E3;
    pose proof (create_temp_le _ _ _ _ E3) as N3; apply create_temp_spec in E3;
    assert (os_le o o3) as N03 by (by etrans);
    [|simplify_eq; apply Hquit; [done|by rewrite E3]].
  destruct E3 as (Hfree & (nm & -> & Hnm) & (i & t & Hfiles)).
  rewrite temp_prefix_app in *.
  assert (digits_name nm = true) as Hdig.
  { destruct Hval as [Hval _]. rewrite Forall_forall in Hval. apply Hval.
    by apply (le_names _ _ N02). }
  assert (temp_path (base_path l) (endpoint ep) nm
    ≠ object_path (base_path l) (endpoint ep) k) as Hne
    by (apply temp_path_ne_object; auto with go).
  destruct (put_temp _ _ _ _ o3) as [[r4 closed] o4] eqn:E4.
  pose proof (put_temp_spec _ _ _ _ _ _ _ _ (File [] i t) E4 Hne Hvalid) as Hp.
  destruct Hp as (N4 & Hs4 & Hr4); [by rewrite Hfiles, lookup_insert_eq|done|].
  destruct (put_cleanup_spec (temp_path (base_path l) (endpoint ep) nm) closed o4)
    as (N5 & Hs5 & _).
  simplify_eq. rewrite untrack_base, track_base. split; [done|].
  split; [by etrans; [|etrans]|]. exists nm. split; [done|].
  assert (same_except [temp_path (base_path l) (endpoint ep) nm] o o3) as Hs3.
  { intros p Hp. rewrite Hfiles, lookup_insert_ne by set_solver. by rewrite E2. }
  destruct r as [u4|e].
  - destruct Hr4 as (Heof & Hc & Hd & Hgone). exists (map lower_byte oid).
    split; [done|]. split; [done|]. split; [done|]. split.
    + intros p Hp. rewrite Hs5, Hs4, Hs3 by set_solver. done.
    + by rewrite Hs5 by set_solver.
  - intros p Hp. rewrite Hs5 by done.
    destruct (decide (p = object_path (base_path l) (endpoint ep) (map lower_byte oid))) as [->|].
    + rewrite Hr4. by apply Hs3.
    + rewrite Hs4 by set_solver. by apply Hs3.
Qed.
End PutSpec.

(** ** The contract *)

Section Laws.
Context {U : Unicode}.

(** A call that reads: the path, a call on the path, the world unchanged. *)
Lemma local_read_world l o l' o' :
  local_valid (l, o) → l' = l → os_le o o' → os_files o' = os_files o →
  local_valid (l', o') ∧ same_objects local_objects (l, o) (l', o').
Proof.
  intros Hv -> Hn Hf. split; [by eapply local_valid_incl|by apply local_same_objects].
Qed.

Lemma local_exists_spec c ep oid w r w' :
  local_valid w → local_exists c ep oid w = (r, w') →
  local_valid w' ∧ same_objects local_objects w w'
  ∧ ∀ b, r = Ok b → ∃ o, normalise_oid oid = Ok o
      ∧ (b = true ↔ is_Some (local_objects w (endpoint ep) o)).
Proof.
  destruct w as [l o], w' as [l' o']. unfold local_exists. simpl. intros Hv H.
  destruct c as [e|]; [by simplify_eq|].
  destruct (file_path l ep oid) as [path|e] eqn:Ep; [|by simplify_eq].
  apply file_path_ok in Ep as (k & Hk & ->).
  destruct (stat _ o) as [[f|e] o1] eqn:Es; pose proof (stat_le _ _ _ _ Es) as Hn;
    pose proof (stat_spec _ _ _ _ Es) as [Hf Hd].
  - simplify_eq. destruct (local_read_world l' o l' o') as [Ha Hb]; [done..|].
    split; [done|]. split; [done|]. intros b [= <-]. exists k. split; [done|].
    unfold local_objects. simpl. by rewrite (Hd f eq_refl).
  - assert (l' = l ∧ o' = o1) as [-> ->] by (destruct (errors_is NotExist e); by simplify_eq).
    destruct (local_read_world l o l o1) as [Ha Hb]; [done..|].
    split; [done|]. split; [done|]. intros b ->. exists k. split; [done|].
    destruct (errors_is NotExist e) eqn:Ee; simplify_eq.
    unfold local_objects. simpl. rewrite (stat_not_exist _ o _ _ (proj2 Hv) Es Ee). simpl.
    split; [done|]. by intros [].
Qed.

Lemma local_get_spec c ep oid w r w' :
  local_valid w → local_get c ep oid w = (r, w') →
  local_valid w' ∧ same_objects local_objects w w'
  ∧ ∀ data n, r = Ok (data, n) → n = Z.of_nat (length data)
      ∧ ∃ o, normalise_oid oid = Ok o ∧ local_objects w (endpoint ep) o = Some data.
Proof.
  destruct w as [l o], w' as [l' o']. unfold local_get. simpl. intros Hv H.
  destruct c as [e|]; [by simplify_eq|].
  destruct (file_path l ep oid) as [path|e] eqn:Ep; [|by simplify_eq].
  apply file_path_ok in Ep as (k & Hk & ->).
  unfold open_file in H.
  destruct (stat _ o) as [[f|e] o1] eqn:Es; pose proof (stat_le _ _ _ _ Es) as Hn;
    pose proof (stat_spec _ _ _ _ Es) as [Hf Hd].
  2: { simplify_eq. destruct (local_read_world l' o l' o') as [Ha Hb]; done. }
  destruct (fstat f o1) as [[g|e] o2] eqn:Et; pose proof (fstat_le _ _ _ _ Et) as Hn2;
    pose proof (fstat_spec _ _ _ _ Et) as [Hf2 Hg].
  - simplify_eq. destruct (local_read_world l' o l' o') as [Ha Hb];
      [done..|by etrans|by rewrite Hf2|]. split; [done|]. split; [done|].
    intros data n [= <- <-]. rewrite (Hg g eq_refl). split; [done|]. exists k.
    split; [done|]. unfold local_objects. simpl. by rewrite (Hd f eq_refl).
  - destruct (close o2) as [r3 o3] eqn:Ec. simplify_eq.
    pose proof (sync_le _ _ _ Ec) as Hn3. apply close_files in Ec.
    destruct (local_read_world l' o l' o') as [Ha Hb];
      [done..|by etrans; [|etrans]|by rewrite Ec, Hf2|]. done.
Qed.

Lemma local_size_spec c ep oid w r w' :
  local_valid w → local_size c ep oid w = (r, w') →
  local_valid w' ∧ same_objects local_objects w w'
  ∧ ∀ n, r = Ok n → ∃ o data, normalise_oid oid = Ok o
      ∧ local_objects w (endpoint ep) o = Some data ∧ n = Z.of_nat (length data).
Proof.
  destruct w as [l o], w' as [l' o']. unfold local_size. simpl. intros Hv H.
  destruct c as [e|]; [by simplify_eq|].
  destruct (file_path l ep oid) as [path|e] eqn:Ep; [|by simplify_eq].
  apply file_path_ok in Ep as (k & Hk & ->).
  destruct (stat _ o) as [[f|e] o1] eqn:Es; pose proof (stat_le _ _ _ _ Es) as Hn;
    pose proof (stat_spec _ _ _ _ Es) as [Hf Hd]; simplify_eq;
    (destruct (local_read_world l' o l' o') as [Ha Hb]; [done..|]); [|done].
  split; [done|]. split; [done|]. intros n [= <-]. exists k, (f_data f).
  split; [done|]. split; [|done]. unfold local_objects. simpl. by rewrite (Hd f eq_refl).
Qed.

(** A temporary file is no object. *)
Lemma same_except_temp l o o' d nm :
  safe_name d = true → digits_name nm = true →
  same_except [temp_path (base_path l) d nm] o o' →
  same_objects local_objects (l, o) (l, o').
Proof.
  intros Hd Hn Hs d' k Hd' Hk. unfold local_objects. simpl.
  rewrite Hs; [done|]. intros Hin%list_elem_of_singleton.
  by eapply (temp_path_ne_object (base_path l) d nm d' k).
Qed.

Lemma local_put_objects c ep oid rd n w r w' :
  local_valid w → local_put c ep oid rd n w = (r, w') →
  local_valid w'
  ∧ match r with
    | Ok _ => ∃ o, normalise_oid oid = Ok o ∧ rd_eof rd = true
        ∧ content_oid (concat (rd_chunks rd)) = o
        ∧ stored_object local_objects (endpoint ep) o (concat (rd_chunks rd)) w w'
    | Err _ => same_objects local_objects w w'
    end.
Proof.
  destruct w as [l o], w' as [l' o']. intros Hv H.
  apply local_put_spec in H as (Hb & Hn & nm & Hnm & Hr); [|done].
  split; [by eapply local_valid_incl|]. destruct r as [u|e].
  - destruct Hr as (k & Hk & He & Hc & Hs & Hd). exists k.
    split; [done|]. split; [done|]. split; [done|].
    pose proof (normalise_oid_normal _ _ Hk) as Hkn.
    split; [unfold local_objects; simpl; by rewrite Hb|].
    intros d' o'' Hd' Ho' Hne. unfold local_objects. simpl. rewrite Hb, Hs; [done|].
    rewrite !not_elem_of_cons. split; [|split; [|set_solver]].
    + intros E. symmetry in E. revert E. apply temp_path_ne_object; auto with go.
    + intros [-> ->]%object_path_inj; auto with go.
  - intros d k Hd Hk. unfold local_objects. simpl. rewrite Hb, Hr; [done|].
    intros E%list_elem_of_singleton. symmetry in E.
    revert E. apply temp_path_ne_object; auto with go.
Qed.

Lemma local_space_spec c w r w' :
  local_valid w → local_available_space c w = (r, w') →
  local_valid w' ∧ same_objects local_objects w w' ∧ ∀ n, r = Ok n → in_uint64 n.
Proof.
  destruct w as [l o], w' as [l' o']. unfold local_available_space. cbn [fst snd]. intros Hv H.
  destruct c as [e|]; [by simplify_eq|].
  destruct (statfs o) as [[[a b]|e] o1] eqn:E; pose proof (statfs_le _ _ _ E) as Hn;
    pose proof (statfs_files _ _ _ E) as Hf; injection H as <- <- <-;
    (destruct (local_read_world l o l o1) as [Ha Hb]; [done..|]; split; [done|]; split; [done|]); [|done].
  intros n [= <-]. apply wrap_uint64_range.
Qed.

#[export] Instance local_laws : AdapterLaws local_adapter local_objects local_valid.
Proof.
  split; simpl.
  - intros. by eapply local_exists_spec.
  - intros c ep oid w r w' Hv H. apply local_get_spec in H as (? & ? & Hr); [|done].
    split; [done|]. split; [done|]. intros data n E. by apply (Hr data n).
  - intros. by eapply local_size_spec.
  - intros c ep oid rd n w r w' Hv H. apply local_put_objects in H as [? Hr]; [|done].
    split; [done|]. destruct r as [u|e]; [|by left].
    destruct Hr as (k & Hk & _ & Hc & Hs). by exists k, (concat (rd_chunks rd)).
  - intros. by eapply local_space_spec.
  - intros c w r w' Hv H. unfold local_check in H.
    destruct (local_available_space c w) as [[n|e] w1] eqn:E; injection H as <- <-;
      apply local_space_spec in E as (? & ? & _); done.
  - done.
  - done.
Qed.
#[export] Instance local_sizes : AdapterSizes local_adapter.
Proof.
  intros c ep oid w data n w' H. cbn [ad_get local_adapter] in H. unfold local_get in H.
  destruct c; [done|]. destruct (file_path _ ep oid); [|done]. destruct (open_file _ _) as [[f|] o]; [|done].
  destruct (fstat f o) as [[g|] o2] eqn:E; pose proof (fstat_spec _ _ _ _ E) as [_ Hg].
  - injection H as <- <- _. by rewrite (Hg g eq_refl).
  - by destruct (close o2).
Qed.
End Laws.

(** ** [Put] when no system call fails *)

Section NoFault.
Context {U : Unicode}.

(** The outcome of an upload, decided by the reader and the OID alone. *)
Definition put_outcome (k : gostring) (rd : reader) : result go_error unit :=
  if negb (rd_eof rd) then Err (wrap_no_space (rd_end rd))
  else if str_eqb (content_oid (concat (rd_chunks rd))) k then Ok tt
  else Err [HashMismatch].

Lemma put_temp_no_fault tmp dest oid rd w i :
  os_faults w = [] → is_valid_oid oid = true →
  os_files w !! tmp = Some (File [] i (os_now w)) →
  let data := concat (rd_chunks rd) in
  put_temp tmp dest oid rd w
  = (put_outcome (map lower_byte oid) rd, rd_eof rd,
     set_files
       (if is_ok (put_outcome (map lower_byte oid) rd)
        then <[dest := File data i (os_now w)]> (delete tmp (os_files w))
        else <[tmp := File data i (os_now w)]> (os_files w)) w).
Proof.
  cbv zeta. intros Hf Hv Hp. unfold put_temp, put_outcome. rewrite (copy_no_fault _ _ _ i) by done.
  destruct (rd_eof rd); [|done]. unfold sync, close, rename.
  rewrite !syscall_no_fault by done. cbn [negb os_files set_files].
  pose proof (equal_fold_content (concat (rd_chunks rd)) oid Hv) as He.
  fold (content_oid (concat (rd_chunks rd))).
  destruct (equal_fold _ oid).
  - rewrite (proj1 He) by done. rewrite (proj2 (str_eqb_eq _ _) eq_refl). simpl.
    rewrite lookup_insert_eq, delete_insert_eq. by destruct w.
  - assert (str_eqb (content_oid (concat (rd_chunks rd))) (map lower_byte oid) = false) as ->.
    { apply str_eqb_neq. intros E. by apply He in E. } done.
Qed.

Lemma put_cleanup_no_fault tmp closed w :
  os_faults w = [] → put_cleanup tmp closed w = set_files (delete tmp (os_files w)) w.
Proof.
  intros Hf. unfold put_cleanup.
  assert ((if closed then w else snd (close w)) = w) as ->.
  { destruct closed; [done|]. unfold close. by rewrite syscall_no_fault. }
  unfold remove. rewrite syscall_no_fault by done.
  destruct (os_files w !! tmp) eqn:E; [done|]. simpl. rewrite delete_id by done. by destruct w.
Qed.

(** What [Put] does in a world without faults, with a free temporary name. *)
Lemma local_put_no_fault ep oid rd n l o k nm ns :
  normalise_oid oid = Ok k → os_faults o = [] → os_names o = nm :: ns →
  digits_name nm = true →
  os_files o !! temp_path (base_path l) (endpoint ep) nm = None →
  let key := endpoint ep ++ "/" ++ upload_temp_dir ++ "/" ++ temp_file_prefix ++ nm in
  let data := concat (rd_chunks rd) in
  let dest := object_path (base_path l) (endpoint ep) k in
  local_put None ep oid rd n (l, o)
  = (put_outcome k rd,
     (with_writing (({[key]} ∪ writing l) ∖ {[key]}) l,
      Os (if is_ok (put_outcome k rd)
          then <[dest := File data (next_inode o) (os_now o)]> (os_files o)
          else os_files o)
         (os_now o) (later_inodes o) [] ns (os_space o))).
Proof.
  cbv zeta. intros Hk Hf Hns Hnm Hfree. unfold local_put.
  rewrite (proj2 (file_path_ok l ep oid _)) by (by exists k).
  apply normalise_oid_ok in Hk as Hk'. destruct Hk' as [Hv ->].
  pose proof (normalise_oid_normal _ _ Hk) as Hkn.
  unfold mkdir_all. rewrite !syscall_no_fault by done.
  unfold create_temp. rewrite syscall_no_fault by done. rewrite Hns.
  cbn [pick_free]. rewrite temp_prefix_app, Hfree.
  rewrite track_key_temp by auto with go.
  set (tmp := temp_path _ _ _). set (o1 := Os _ _ _ _ _ _).
  assert (os_files o1 !! tmp = Some (File [] (next_inode o) (os_now o1))) as Ht
    by (subst o1; apply lookup_insert_eq).
  rewrite (put_temp_no_fault tmp _ oid rd o1 _ Hf Hv Ht).
  rewrite put_cleanup_no_fault by done. f_equal. f_equal.
  subst o1. unfold set_files. cbn [os_files os_now os_inodes os_faults os_names os_space].
  rewrite Hf. f_equal.
  assert (tmp ≠ object_path (base_path l) (endpoint ep) (map lower_byte oid))
    by (apply temp_path_ne_object; auto with go).
  destruct (is_ok _).
  - rewrite delete_insert_ne by done. rewrite delete_delete_eq, delete_insert_eq.
    by rewrite delete_id.
  - rewrite insert_insert_eq, delete_insert_eq. by rewrite delete_id.
Qed.

(** Reading a stored object while no system call fails. *)
Lemma local_read_no_fault ep oid k data w :
  normalise_oid oid = Ok k → local_objects w (endpoint ep) k = Some data → os_faults (snd w) = [] →
  local_get None ep oid w = (Ok (data, Z.of_nat (length data)), w)
  ∧ local_size None ep oid w = (Ok (Z.of_nat (length data)), w)
  ∧ local_exists None ep oid w = (Ok true, w).
Proof.
  intros Hk Hobj Hf. unfold local_objects in Hobj. destruct w as [l o]. simpl in *.
  apply fmap_Some in Hobj as (f & Hfile & Hd).
  unfold local_get, local_size, local_exists, open_file, stat, fstat. simpl.
  rewrite (proj2 (file_path_ok l ep oid _)) by by exists k.
  rewrite !syscall_no_fault by done. rewrite Hfile. simpl.
  rewrite !syscall_no_fault by done. by rewrite Hd.
Qed.

(** Looking for a missing one. *)
Lemma local_missing_no_fault ep oid k w :
  normalise_oid oid = Ok k → local_objects w (endpoint ep) k = None → os_faults (snd w) = [] →
  local_exists None ep oid w = (Ok false, w).
Proof.
  intros Hk Hobj Hf. unfold local_objects in Hobj. destruct w as [l o]. simpl in *.
  apply fmap_None in Hobj. unfold local_exists, stat. simpl.
  rewrite (proj2 (file_path_ok l ep oid _)) by by exists k.
  rewrite !syscall_no_fault by done. by rewrite Hobj.
Qed.
End NoFault.

(** ** Properties *)

Section Properties.
Context {U : Unicode}.

(** C9. Upload safety of [Local.Put], whatever system calls fail and however
    the reader behaves: content addressing is preserved; an upload that
    returns an error changes no object; one that succeeds has read the body
    to its end, the body hashes to the OID, it is now the object of that OID
    and endpoint, and no other object changed. *)
Theorem local_put_safe c ep oid rd n w r w' :
  local_valid w → content_addressed local_objects w →
  local_put c ep oid rd n w = (r, w') →
  local_valid w' ∧ content_addressed local_objects w'
  ∧ match r with
    | Ok _ => ∃ o, normalise_oid oid = Ok o ∧ rd_eof rd = true
        ∧ content_oid (concat (rd_chunks rd)) = o
        ∧ stored_object local_objects (endpoint ep) o (concat (rd_chunks rd)) w w'
    | Err _ => same_objects local_objects w w'
    end.
Proof.
  intros Hv Hc H. pose proof (local_put_objects _ _ _ _ _ _ _ _ Hv H) as [Hv' Hr].
  split; [done|]. split; [|done].
  exact (put_preserves_addressing local_adapter local_objects local_valid
    c ep oid rd n w r w' Hv Hc H).
Qed.

(** C10. The functional behaviour of [Local.Put] when no system call fails:
    the result is decided by the reader and the OID (a reader error is
    returned, marked [ErrInsufficientStorage] when it is [ENOSPC]; then the
    hash is compared), a successful upload is one new file at the object's
    sharded path, an unsuccessful one leaves the file system exactly as it
    was, and the temporary file and its tracking entry are gone either way. *)
Theorem local_put_functional ep oid rd n l o k nm ns :
  normalise_oid oid = Ok k → os_faults o = [] → os_names o = nm :: ns →
  digits_name nm = true →
  os_files o !! temp_path (base_path l) (endpoint ep) nm = None →
  endpoint ep ++ "/" ++ upload_temp_dir ++ "/" ++ temp_file_prefix ++ nm ∉ writing l →
  ∃ l' o', local_put None ep oid rd n (l, o)
      = (if negb (rd_eof rd) then Err (wrap_no_space (rd_end rd))
         else if str_eqb (content_oid (concat (rd_chunks rd))) k then Ok tt
         else Err [HashMismatch], (l', o'))
    ∧ l' = l
    ∧ os_files o'
      = if rd_eof rd && str_eqb (content_oid (concat (rd_chunks rd))) k
        then <[object_path (base_path l) (endpoint ep) k
               := File (concat (rd_chunks rd)) (next_inode o) (os_now o)]> (os_files o)
        else os_files o.
Proof.
  intros Hk Hf Hns Hnm Hfree Hkey. do 2 eexists.
  split; [exact (local_put_no_fault ep oid rd n l o k nm ns Hk Hf Hns Hnm Hfree)|]. split.
  - destruct l as [b ws]. unfold with_writing. simpl in *. f_equal. set_solver.
  - unfold put_outcome. simpl. destruct (rd_eof rd); [|done]. by destruct (str_eqb _ k).
Qed.

(** Round trip: after a successful [Put], and while no system call fails,
    [Get], [Size] and [Exists] under any spelling of the same OID return the
    uploaded bytes, their length and [true]. *)
Theorem local_put_get_roundtrip c ep oid oid2 rd n w u w' :
  local_valid w → local_put c ep oid rd n w = (Ok u, w') →
  normalise_oid oid2 = normalise_oid oid → os_faults (snd w') = [] →
  let data := concat (rd_chunks rd) in
  local_get None ep oid2 w' = (Ok (data, Z.of_nat (length data)), w')
  ∧ local_size None ep oid2 w' = (Ok (Z.of_nat (length data)), w')
  ∧ local_exists None ep oid2 w' = (Ok true, w').
Proof.
  cbv zeta. intros Hv H Ho2 Hf. apply local_put_objects in H as [_ H]; [|done].
  destruct H as (k & Hk & _ & _ & Hst & _). rewrite Hk in Ho2.
  by apply (local_read_no_fault _ _ k).
Qed.
End Properties.

(** ** Witnesses *)

(** Uploading ["abc"] under its upper-case OID, in two chunks, over a stale
    temporary file. *)
Definition sample_oid : gostring :=
  "BA7816BF8F01CFEA414140DE5DAE2223B00361A396177A9CB410FF61F20015AD".
Definition sample_reader : reader := Reader ["ab"; "c"] [EOF] false.
Definition sample_world : world :=
  (new_local "/data",
   Os {["/data/org_repo/.tmp/.tmp-7" := File "x" 1 5]} 9 [2] [] ["7"; "8"] (10, 4096)).

Lemma sample_valid : local_valid sample_world.
Proof. split; repeat constructor. Qed.

Lemma sample_addressed : content_addressed local_objects sample_world.
Proof.
  intros d o data Hd Ho. unfold local_objects, sample_world. cbn [snd fst os_files base_path new_local].
  rewrite lookup_singleton_ne; [done|].
  pose proof (temp_path_ne_object "/data" "org_repo" "7" d o eq_refl eq_refl Hd Ho) as Hne.
  exact Hne.
Qed.

Lemma local_put_safe_witness :
  content_addressed local_objects
    (snd (@local_put sample_unicode None "/org/repo" sample_oid sample_reader 3 sample_world)).
Proof.
  destruct (@local_put sample_unicode None "/org/repo" sample_oid sample_reader 3 sample_world)
    as [r w'] eqn:E.
  destruct (@local_put_safe sample_unicode None "/org/repo" sample_oid sample_reader 3
    sample_world r w' sample_valid sample_addressed E) as (_ & Hc & _).
  exact Hc.
Defined.

Lemma local_put_functional_witness :
  ∃ l' o', @local_put sample_unicode None "/org/repo" sample_oid sample_reader 3
      (fst sample_world, set_files ∅ (snd sample_world)) = (Ok tt, (l', o')).
Proof.
  destruct (@local_put_functional sample_unicode "/org/repo" sample_oid sample_reader 3
    (fst sample_world) (set_files ∅ (snd sample_world)) (map lower_byte sample_oid) "7" ["8"])
    as (l' & o' & H & _).
  - vm_compute. reflexivity.
  - reflexivity.
  - reflexivity.
  - reflexivity.
  - vm_compute. reflexivity.
  - apply not_elem_of_empty.
  - exists l', o'. rewrite H. vm_compute. reflexivity.
Defined.

Definition sample_put : out world unit :=
  @local_put sample_unicode None "/org/repo" sample_oid sample_reader 3 sample_world.

Lemma local_put_get_roundtrip_witness :
  @local_get sample_unicode None "/org/repo" (map lower_byte sample_oid) (snd sample_put)
  = (Ok ("abc"%go, 3), snd sample_put).
Proof.
  assert (fst sample_put = Ok tt) as Hr by (vm_compute; reflexivity).
  assert (os_faults (snd (snd sample_put)) = []) as Hf by (vm_compute; reflexivity).
  assert (sample_put = (Ok tt, snd sample_put)) as E
    by (rewrite <-Hr; apply surjective_pairing).
  destruct (@local_put_get_roundtrip sample_unicode None "/org/repo" sample_oid
    (map lower_byte sample_oid) sample_reader 3 sample_world tt (snd sample_put)
    sample_valid E) as (H & _ & _); [vm_compute; reflexivity|exact Hf|exact H].
Defined.
