(* ===== verification/S3.v ===== *)
(** * storage/s3.go: objects in an S3 bucket

    [S3] stores objects through the S3 API, which is a parameter: a record of
    the calls of [s3API] over a world [W], with [S3Laws] stating what the API
    documents.  Uploads are hashed as they are read and only stored, by one PUT
    or by completing a multipart upload, once the hash is known to be right.
    The calls made are recorded, to state their order. *)

From S2P Require Import Prelude GoStrings GoUnicode GoRegexp GoPath GoConv GoHash GoOs Sanitise Storage.

Local Open Scope go_scope.

(** ** Constants *)

Definition s3_part_size : Z := 8388608.            (** [8 << 20] *)
Definition s3_max_parts : Z := 10000.
Definition s3_max_put_size : Z := 5368709120.      (** [5 << 30] *)
Definition s3_max_part_size : Z := 5368709120.

(** [partSizeFor]; Go's division truncates. *)
Definition part_size_for (size : Z) : Z :=
  Z.min s3_max_part_size
    (Z.max s3_part_size (Z.quot size s3_max_parts + Z.min (Z.rem size s3_max_parts) 1)).

(** ** The client *)

(** What [UploadPart] returns of a part, and [CompleteMultipartUpload] sends. *)
Definition part_tag : Type := gostring * gostring.

(** [s3API]: each call with the fields of its input that the source sets. *)
Record S3Api (W : Type) := {
  head_bucket : ctx → gostring → W → out W unit;
  head_object : ctx → gostring → gostring → W → out W (option Z);
  get_object : ctx → gostring → gostring → W → out W (gostring * option Z);
  put_object : ctx → gostring → gostring → gostring → Z → W → out W unit;
  create_multipart : ctx → gostring → gostring → W → out W gostring;
  upload_part : ctx → gostring → gostring → gostring → Z → gostring → Z → W → out W part_tag;
  complete_multipart : ctx → gostring → gostring → gostring → list (Z * part_tag) → W → out W unit;
  abort_multipart : ctx → gostring → gostring → gostring → W → out W unit
}.
Arguments head_bucket {W}.
Arguments head_object {W}.
Arguments get_object {W}.
Arguments put_object {W}.
Arguments create_multipart {W}.
Arguments upload_part {W}.
Arguments complete_multipart {W}.
Arguments abort_multipart {W}.

(** [s3Presigner] *)
Record S3Presigner (W : Type) := {
  presign_get_object : ctx → gostring → gostring → Z → W → out W gostring;
  presign_put_object : ctx → gostring → gostring → Z → gostring → Z → W
    → out W (gostring * gmap gostring (list gostring))
}.
Arguments presign_get_object {W}.
Arguments presign_put_object {W}.

(** The mutating calls, as recorded. *)
Inductive s3_call : Type :=
| CPut (key body : gostring)
| CCreate (key : gostring)
| CPart (id : gostring) (number : Z) (body : gostring)
| CComplete (id : gostring) (parts : list (Z * part_tag))
| CAbort (id : gostring).

(** [isS3NotFound] *)
Definition is_s3_not_found (e : go_error) : bool :=
  errors_is S3NotFound e || errors_is S3NoSuchKey e || errors_is Http404 e.

(** [S3] *)
Record S3 (W : Type) := {
  client : S3Api W;
  bucket : gostring;
  prefix : gostring;
  stream_part_size : Z
}.
Arguments client {W}.
Arguments bucket {W}.
Arguments prefix {W}.
Arguments stream_part_size {W}.

(** [S3Config], the fields [NewS3] itself uses, and [NewS3] on the outcome of
    [newS3Client]. *)
Record S3Config := {
  cfg_bucket : gostring;
  cfg_prefix : gostring;
  cfg_presigned_urls : bool;
  cfg_max_upload_size : Z
}.
Definition new_s3 {W} (made : result go_error (S3Api W * S3Presigner W)) (cfg : S3Config)
  : result go_error (S3 W * option (S3Presigner W)) :=
  let? cp := made in
  Ok ({| client := fst cp; bucket := cfg_bucket cfg; prefix := cfg_prefix cfg;
         stream_part_size := part_size_for (cfg_max_upload_size cfg) |},
      if cfg_presigned_urls cfg then Some (snd cp) else None).

(** ** Reading the body

    [body] is the reader teed into the hash: the chunks still unread and the
    bytes hashed so far. *)
Record body := { unread : reader; hashed : gostring }.

(** [fill]: the data and the error, [rd_end] when the reader ended. *)
Definition fill (b : body) (n : nat) : gostring * option go_error * body :=
  let '(data, rest, ended) := fill_chunks (rd_eager (unread b)) (rd_chunks (unread b)) n in
  (data, if ended then Some (rd_end (unread b)) else None,
   {| unread := with_chunks rest (unread b); hashed := hashed b ++ data |}).

(** [io.ReadFull] *)
Definition read_full (b : body) (n : nat) : gostring * option go_error * body :=
  let '(data, err, b) := fill b n in
  (data,
   if (n <=? length data)%nat then None
   else match err, data with
        | Some e, _ :: _ => if bool_decide (e = [EOF]) then Some [UnexpectedEOF] else Some e
        | e, _ => e
        end, b).

Section S3.
Context {U : Unicode} {W : Type}.

(** The world of the adapter: the service's, and the calls made so far. *)
Definition s3_world : Type := W * list s3_call.

Definition recorded {A} (c : s3_call) (f : W → out W A) (w : s3_world) : out s3_world A :=
  let '(r, v) := f (fst w) in (r, (v, snd w ++ [c])).
Definition silent {A} (f : W → out W A) (w : s3_world) : out s3_world A :=
  let '(r, v) := f (fst w) in (r, (v, snd w)).

Variable s : S3 W.

(** [objectKey] *)
Definition object_key (ep oid : gostring) : result go_error gostring :=
  let? oid := normalise_oid oid in
  Ok (prefix s ++ endpoint ep ++ "/" ++ take 2 oid ++ "/" ++ take 2 (drop 2 oid) ++ "/" ++ oid).

(** [verifyOID] *)
Definition verify_oid (data oid : gostring) : result go_error unit :=
  if negb (equal_fold (hex_encode (sha256 data)) oid) then Err [HashMismatch] else Ok tt.

(** [Exists] *)
Definition s3_exists (c : ctx) (ep oid : gostring) (w : s3_world) : out s3_world bool :=
  match object_key ep oid with
  | Err e => (Err e, w)
  | Ok key =>
      match silent (head_object (client s) c (bucket s) key) w with
      | (Err e, w) => if is_s3_not_found e then (Ok false, w) else (Err e, w)
      | (Ok _, w) => (Ok true, w)
      end
  end.

(** [Get] *)
Definition s3_get (c : ctx) (ep oid : gostring) (w : s3_world) : out s3_world (gostring * Z) :=
  match object_key ep oid with
  | Err e => (Err e, w)
  | Ok key =>
      match silent (get_object (client s) c (bucket s) key) w with
      | (Err e, w) => if is_s3_not_found e then (Err [NotExist], w) else (Err e, w)
      | (Ok (data, len), w) => (Ok (data, default 0 len), w)
      end
  end.

(** [Size] *)
Definition s3_size (c : ctx) (ep oid : gostring) (w : s3_world) : out s3_world Z :=
  match object_key ep oid with
  | Err e => (Err e, w)
  | Ok key =>
      match silent (head_object (client s) c (bucket s) key) w with
      | (Err e, w) => if is_s3_not_found e then (Err [NotExist], w) else (Err e, w)
      | (Ok len, w) => (Ok (default 0 len), w)
      end
  end.

(** [Check] and [AvailableSpace] *)
Definition s3_check (c : ctx) (w : s3_world) : out s3_world unit :=
  silent (head_bucket (client s) c (bucket s)) w.
Definition s3_available_space (_ : ctx) (w : s3_world) : out s3_world Z := (Ok max_uint64, w).

(** [putObject] *)
Definition put_one (c : ctx) (key oid data : gostring) (b : body) (w : s3_world)
  : out s3_world unit :=
  match verify_oid (hashed b) oid with
  | Err e => (Err e, w)
  | Ok _ =>
      recorded (CPut key data)
        (put_object (client s) c (bucket s) key data (Z.of_nat (length data))) w
  end.

(** One iteration's read in [putMultipart]: what is still in the buffer, else up
    to a part of what is left; the end of a body of unknown size is no error but
    sets the size to zero. *)
Definition next_part (part_size size : Z) (pending : gostring) (b : body)
  : gostring * option go_error * Z * body :=
  match pending with
  | _ :: _ => (pending, None, size, b)
  | [] =>
      if 0 <? size then
        let '(data, err, b) := read_full b (Z.to_nat (Z.min part_size size)) in
        (data, err, size, b)
      else
        let '(data, err, b) := fill b (Z.to_nat part_size) in
        match err with
        | Some e => if errors_is EOF e then (data, None, 0, b) else (data, err, size, b)
        | None => (data, None, size, b)
        end
  end.

(** The loop of [putMultipart]; [None] when the fuel runs out. *)
Fixpoint upload_parts (fuel : nat) (c : ctx) (key id : gostring) (part_size number size : Z)
    (pending : gostring) (b : body) (parts : list (Z * part_tag)) (w : s3_world)
  : option (result go_error (body * list (Z * part_tag)) * s3_world) :=
  match fuel with
  | O => None
  | S f =>
      if size =? 0 then Some (Ok (b, parts), w)
      else
        let '(data, err, size, b) := next_part part_size size pending b in
        match err with
        | Some e => Some (Err e, w)
        | None =>
            match data with
            | [] => Some (Ok (b, parts), w)
            | _ =>
                if s3_max_parts <? number then Some (Err [ObjectTooLarge], w)
                else
                  match recorded (CPart id number data)
                          (upload_part (client s) c (bucket s) key id number data
                             (Z.of_nat (length data))) w with
                  | (Err e, w) => Some (Err e, w)
                  | (Ok tag, w) =>
                      upload_parts f c key id part_size (number + 1)
                        (if 0 <? size then size - Z.of_nat (length data) else size)
                        [] b (parts ++ [(number, tag)]) w
                  end
            end
        end
  end.

(** Part numbers stop at [s3_max_parts], and with them the loop. *)
Definition parts_fuel : nat := Z.to_nat (s3_max_parts + 2).

(** [putMultipart] after the upload has been created, up to the deferred abort. *)
Definition multipart_body (c : ctx) (key oid id : gostring) (part_size size : Z)
    (pending : gostring) (b : body) (w : s3_world) : option (out s3_world unit) :=
  match upload_parts parts_fuel c key id part_size 1 size pending b [] w with
  | None => None
  | Some (Err e, w) => Some (Err e, w)
  | Some (Ok (b, parts), w) =>
      match verify_oid (hashed b) oid with
      | Err e => Some (Err e, w)
      | Ok _ => Some (recorded (CComplete id parts)
                        (complete_multipart (client s) c (bucket s) key id parts) w)
      end
  end.

(** [putMultipart] *)
Definition put_multipart (c : ctx) (key oid : gostring) (b : body) (size part_size : Z)
    (pending : gostring) (w : s3_world) : option (out s3_world unit) :=
  match recorded (CCreate key) (create_multipart (client s) c (bucket s) key) w with
  | (Err e, w) => Some (Err e, w)
  | (Ok id, w) =>
      match multipart_body c key oid id part_size size pending b w with
      | None => None
      | Some (Ok _, w) => Some (Ok tt, w)
      | Some (Err e, w) =>
          let '(_, w) := recorded (CAbort id) (abort_multipart (client s) None (bucket s) key id) w in
          Some (Err e, w)
      end
  end.

(** [putUnknownSize] *)
Definition put_unknown_size (c : ctx) (key oid : gostring) (b : body) (w : s3_world)
  : option (out s3_world unit) :=
  let n := Z.max (stream_part_size s) s3_part_size in
  let '(data, err, b) := fill b (Z.to_nat n) in
  match err with
  | Some e => if errors_is EOF e then Some (put_one c key oid data b w) else Some (Err e, w)
  | None => put_multipart c key oid b (-1) n data w
  end.

(** [Put], with [None] for a loop that runs out of fuel. *)
Definition s3_put_fueled (c : ctx) (ep oid : gostring) (rd : reader) (size : Z) (w : s3_world)
  : option (out s3_world unit) :=
  match object_key ep oid with
  | Err e => Some (Err e, w)
  | Ok key =>
      if s3_max_parts * s3_max_part_size <? size then Some (Err [ObjectTooLarge], w)
      else
        let b := {| unread := rd; hashed := [] |} in
        if size <? 0 then put_unknown_size c key oid b w
        else
          let part_size := part_size_for size in
          if part_size <? size then put_multipart c key oid b size part_size [] w
          else
            let '(data, err, b) := read_full b (Z.to_nat size) in
            match err with
            | Some e => Some (Err e, w)
            | None => Some (put_one c key oid data b w)
            end
  end.
Definition s3_put (c : ctx) (ep oid : gostring) (rd : reader) (size : Z) (w : s3_world)
  : out s3_world unit := default (Err [], w) (s3_put_fueled c ep oid rd size w).

(** [PresignGet] *)
Definition s3_presign_get (p : S3Presigner W) (c : ctx) (ep oid : gostring) (exp : Z)
    (w : s3_world) : out s3_world gostring :=
  match object_key ep oid with
  | Err e => (Err e, w)
  | Ok key => silent (presign_get_object p c (bucket s) key exp) w
  end.

(** The headers [PresignPut] passes on: the first value of each signed header
    but the two the HTTP client sets itself. *)
Definition upload_headers (signed : gmap gostring (list gostring)) : gmap gostring gostring :=
  omap head (filter (λ p, p.1 ≠ "Host" ∧ p.1 ≠ "Content-Length") signed).

(** [PresignPut] *)
Definition s3_presign_put (p : S3Presigner W) (c : ctx) (ep oid : gostring) (size exp : Z)
    (w : s3_world) : out s3_world (gostring * gmap gostring gostring) :=
  match object_key ep oid with
  | Err e => (Err e, w)
  | Ok key =>
      if s3_max_put_size <? size then (Err [ObjectTooLarge], w)
      else
        match hex_decode oid with
        | None => (Err [], w)
        | Some digest =>
            match silent (presign_put_object p c (bucket s) key size (b64_std_encode digest) exp) w with
            | (Err e, w) => (Err e, w)
            | (Ok (url, signed), w) => (Ok (url, upload_headers signed), w)
            end
        end
  end.

(** [*S3] and, given a presigner, [*PresignedS3] as an [Adapter]. *)
Definition s3_adapter (p : option (S3Presigner W)) : Adapter s3_world := {|
  ad_exists := s3_exists;
  ad_get := s3_get;
  ad_put := s3_put;
  ad_size := s3_size;
  ad_available_space := s3_available_space;
  ad_check := s3_check;
  ad_presigner := (λ p, {| presign_get := s3_presign_get p; presign_put := s3_presign_put p |}) <$> p
|}.
End S3.

(** ** What the service promises *)

(** [objs w b k] is the object of key [k] in bucket [b]; [part w id n] is part
    [n] of the multipart upload [id], with its tag. *)
Definition key_stored {W} (objs : W → gostring → gostring → option gostring)
    (b k data : gostring) (w w' : W) : Prop :=
  objs w' b k = Some data ∧ ∀ b' k', (b', k') ≠ (b, k) → objs w' b' k' = objs w b' k'.

Class S3Laws {W} (api : S3Api W) (objs : W → gostring → gostring → option gostring)
    (part : W → gostring → Z → option (part_tag * gostring)) : Prop := {
  head_bucket_law c b w r w' : head_bucket api c b w = (r, w') → objs w' = objs w;
  head_object_law c b k w r w' : head_object api c b k w = (r, w') → objs w' = objs w
    ∧ match r with
      | Ok len => ∃ data, objs w b k = Some data ∧ (len = Some (Z.of_nat (length data)))
      | Err e => is_s3_not_found e = true → objs w b k = None
      end;
  get_object_law c b k w r w' : get_object api c b k w = (r, w') → objs w' = objs w
    ∧ ∀ data len, r = Ok (data, len) → objs w b k = Some data;
  (** A failed PUT may have been stored all the same. *)
  put_object_law c b k data w r w' :
    put_object api c b k data (Z.of_nat (length data)) w = (r, w') →
    match r with
    | Ok _ => key_stored objs b k data w w'
    | Err _ => objs w' = objs w ∨ key_stored objs b k data w w'
    end;
  create_multipart_law c b k w r w' : create_multipart api c b k w = (r, w') → objs w' = objs w;
  upload_part_law c b k id n data w r w' :
    upload_part api c b k id n data (Z.of_nat (length data)) w = (r, w') →
    objs w' = objs w
    ∧ (∀ m, m ≠ n → part w' id m = part w id m)
    ∧ ∀ tag, r = Ok tag → part w' id n = Some (tag, data);
  (** Completing joins the parts listed, in the order listed. *)
  complete_multipart_law c b k id parts datas w r w' :
    Forall2 (λ p data, part w id (fst p) = Some (snd p, data)) parts datas →
    complete_multipart api c b k id parts w = (r, w') →
    match r with
    | Ok _ => key_stored objs b k (concat datas) w w'
    | Err _ => objs w' = objs w ∨ key_stored objs b k (concat datas) w w'
    end;
  abort_multipart_law c b k id w r w' : abort_multipart api c b k id w = (r, w') → objs w' = objs w
}.

(** The length S3 reports with an object is the object's. *)
Class S3Lengths {W} (api : S3Api W) : Prop :=
  get_object_length c b k w data len w' :
    get_object api c b k w = (Ok (data, len), w') → len = Some (Z.of_nat (length data)).

(** Presigning is local to the client. *)
Class S3PresignLaws {W} (p : S3Presigner W) (objs : W → gostring → gostring → option gostring) : Prop := {
  presign_get_object_law c b k exp w r w' :
    presign_get_object p c b k exp w = (r, w') → objs w' = objs w;
  presign_put_object_law c b k n sum exp w r w' :
    presign_put_object p c b k n sum exp w = (r, w') → objs w' = objs w
}.

(** ** Arithmetic of part sizes *)

Lemma part_size_for_bounds size :
  s3_part_size <= part_size_for size <= s3_max_part_size
  ∧ (0 <= size <= s3_max_parts * s3_max_part_size → size <= s3_max_parts * part_size_for size).
Proof.
  unfold part_size_for, s3_part_size, s3_max_part_size, s3_max_parts. split; [lia|].
  intros H. pose proof (Z.quot_rem' size 10000). pose proof (Z.rem_bound_pos size 10000). lia.
Qed.

(** ** Reading *)

Lemma fill_spec b n data err b' : fill b n = (data, err, b') →
  hashed b' = hashed b ++ data
  ∧ concat (rd_chunks (unread b)) = data ++ concat (rd_chunks (unread b'))
  ∧ rd_end (unread b') = rd_end (unread b)
  ∧ (length data <= n)%nat ∧ (err = None → length data = n)
  ∧ ∀ e, err = Some e → e = rd_end (unread b) ∧ rd_chunks (unread b') = [].
Proof.
  unfold fill. destruct (fill_chunks _ _ n) as [[d rest] ended] eqn:E. intros [= <- <- <-].
  apply fill_chunks_spec in E as (Hcat & Hlen & Hful & Hend). cbn [hashed unread with_chunks rd_chunks rd_end].
  split; [done|]. split; [done|]. split; [done|]. split; [done|].
  destruct ended; (split; [try done; auto|]); intros e He; [|done].
  injection He as <-. auto.
Qed.

Lemma read_full_spec b n data err b' : read_full b n = (data, err, b') →
  hashed b' = hashed b ++ data
  ∧ concat (rd_chunks (unread b)) = data ++ concat (rd_chunks (unread b'))
  ∧ (err = None → length data = n).
Proof.
  unfold read_full. destruct (fill b n) as [[d e] b1] eqn:E.
  apply fill_spec in E as (Hh & Hc & _ & Hlen & Hfull & _).
  destruct (Nat.leb_spec n (length d)) as [Hn|Hn].
  - intros [= <- <- <-]. split; [done|]. split; [done|]. lia.
  - assert (e ≠ None) as He by (intros ->; rewrite Hfull in Hn; [lia|done]).
    destruct e as [e|]; [|done].
    destruct d as [|x d]; [|destruct (bool_decide _)]; intros [= <- <- <-]; done.
Qed.

Lemma next_part_spec part_size size pending b data err size' b' :
  0 < part_size → size ≠ 0 → (pending ≠ [] → length pending = Z.to_nat part_size) →
  (pending ≠ [] → size < 0) →
  next_part part_size size pending b = (data, err, size', b') →
  ∃ fresh, hashed b' = hashed b ++ fresh ∧ data = pending ++ fresh
    ∧ concat (rd_chunks (unread b)) = fresh ++ concat (rd_chunks (unread b'))
    ∧ (err = None → Z.of_nat (length data) <= part_size
       ∧ (0 < size → size' = size ∧ Z.of_nat (length data) = Z.min part_size size)
       ∧ (size < 0 → (size' = size ∧ Z.of_nat (length data) = part_size)
           ∨ (size' = 0 ∧ errors_is EOF (rd_end (unread b)) = true ∧ concat (rd_chunks (unread b')) = [])))
    ∧ rd_end (unread b') = rd_end (unread b).
Proof.
  intros Hps Hsz Hfull Hneg H. unfold next_part in H. destruct pending as [|x pending].
  2: { injection H as <- <- <- <-. exists []. rewrite !app_nil_r.
       split; [done|]. split; [done|]. split; [done|].
       split; [|done]. intros _. specialize (Hfull ltac:(done)). specialize (Hneg ltac:(done)).
       rewrite Hfull. split; [lia|]. split; [lia|]. left. split; [done|lia]. }
  destruct (Z.ltb_spec 0 size) as [Hp|Hn].
  - destruct (read_full b _) as [[d e] b1] eqn:E. injection H as <- <- <- <-.
    assert (rd_end (unread b1) = rd_end (unread b)) as Hend.
    { revert E. unfold read_full. destruct (fill b _) as [[d' e'] b2] eqn:E'.
      apply fill_spec in E' as (_ & _ & He & _). by intros [= _ _ <-]. }
    apply read_full_spec in E as (Hh & Hc & Hl). exists d. split; [done|]. split; [done|].
    split; [done|]. split; [|done]. intros He. rewrite (Hl He). split; [lia|]. split; [|lia].
    split; [done|lia].
  - destruct (fill b _) as [[d e] b1] eqn:E. apply fill_spec in E as (Hh & Hc & Hend & Hle & Hl & He).
    exists d. destruct e as [e|].
    + destruct (He e eq_refl) as [-> Hnil].
      destruct (errors_is EOF (rd_end (unread b))) eqn:Eeof; injection H as <- <- <- <-;
        (split; [done|]; split; [done|]; split; [done|]; split; [|done]); [|done].
      intros _. split; [lia|]. split; [lia|]. intros _. right. by rewrite Hnil.
    + injection H as <- <- <- <-. split; [done|]. split; [done|]. split; [done|]. split; [|done].
      intros _. rewrite (Hl eq_refl). split; [lia|]. split; [lia|]. left. split; [done|lia].
Qed.

(** ** The multipart loop *)

(** The recorded uploads of consecutive parts. *)
Fixpoint part_calls (id : gostring) (n : Z) (datas : list gostring) : list s3_call :=
  match datas with [] => [] | d :: ds => CPart id n d :: part_calls id (n + 1) ds end.

(** Parts as S3 wants them: none empty, none larger than the part size, and all
    but the last exactly that size. *)
Fixpoint parts_well_sized (part_size : Z) (datas : list gostring) : Prop :=
  match datas with
  | [] => True
  | d :: ds => 0 < Z.of_nat (length d) <= part_size
      ∧ (ds ≠ [] → Z.of_nat (length d) = part_size) ∧ parts_well_sized part_size ds
  end.

Section Multipart.
Context {U : Unicode} {W : Type} (s : S3 W)
  (objs : W → gostring → gostring → option gostring)
  (part : W → gostring → Z → option (part_tag * gostring))
  {L : S3Laws (client s) objs part}.

(** The parts listed are those uploaded, numbered below [n]. *)
Definition listed (w : W) (id : gostring) (n : Z) (parts : list (Z * part_tag))
    (datas : list gostring) : Prop :=
  Forall2 (λ p d, part w id (fst p) = Some (snd p, d)) parts datas
  ∧ Forall (λ p, fst p < n) parts.

Lemma listed_snoc w w' id n tag d parts datas :
  listed w id n parts datas → (∀ m, m ≠ n → part w' id m = part w id m) →
  part w' id n = Some (tag, d) →
  listed w' id (n + 1) (parts ++ [(n, tag)]) (datas ++ [d]).
Proof.
  intros [H1 H2] Hother Hn. split.
  - apply Forall2_app; [|by repeat constructor]. clear Hn.
    induction H1 as [|p x ps xs Hp H1 IH]; [constructor|].
    apply Forall_cons in H2 as [Hlt H2]. constructor; [|by apply IH].
    rewrite Hother by lia. done.
  - apply Forall_app. split; [|repeat constructor; simpl; lia].
    eapply Forall_impl; [exact H2|]. intros p Hp. cbn beta in *. lia.
Qed.

(** What the loop leaves behind: the parts uploaded, and when it ends without
    an error, everything it has read, listed part by part. *)
Record loop_done (id : gostring) (part_size number size : Z) (b : body)
    (datas : list gostring) (w : s3_world)
    (r : result go_error (body * list (Z * part_tag))) (w' : s3_world) (more : list gostring)
  : Prop := {
  ld_objs : objs (fst w') = objs (fst w);
  ld_calls : snd w' = snd w ++ part_calls id number more;
  ld_sized : parts_well_sized part_size more;
  ld_count : number + Z.of_nat (length more) <= s3_max_parts + 1;
  ld_zero : size = 0 → more = [];
  ld_ok b' parts' : r = Ok (b', parts') →
    (∃ n, listed (fst w') id n parts' (datas ++ more))
    ∧ hashed b' = concat (datas ++ more)
    ∧ hashed b ++ concat (rd_chunks (unread b)) = hashed b' ++ concat (rd_chunks (unread b'))
    ∧ (0 <= size → Z.of_nat (length (hashed b')) = Z.of_nat (length (hashed b)) + size)
    ∧ (size < 0 → rd_eof (unread b) = true ∧ concat (rd_chunks (unread b')) = [])
}.

(** The loop stops where it is. *)
Lemma loop_stop id ps number size b b0 datas (w : s3_world) r parts :
  number <= s3_max_parts + 1 →
  (∀ b' parts', r = Ok (b', parts') → b' = b0 ∧ parts' = parts ∧ listed (fst w) id number parts datas
    ∧ hashed b0 = concat datas
    ∧ hashed b ++ concat (rd_chunks (unread b)) = hashed b0 ++ concat (rd_chunks (unread b0))
    ∧ (0 <= size → Z.of_nat (length (hashed b0)) = Z.of_nat (length (hashed b)) + size)
    ∧ (size < 0 → rd_eof (unread b) = true ∧ concat (rd_chunks (unread b0)) = [])) →
  loop_done id ps number size b datas w r w [].
Proof.
  intros Hnum Hok. split; [done|by rewrite app_nil_r|done|simpl; lia|done|].
  intros b' parts' Hr. rewrite app_nil_r.
  destruct (Hok b' parts' Hr) as (-> & -> & H1 & H2 & H3 & H4 & H5). eauto 10.
Qed.

Lemma upload_parts_spec fuel c key id ps number size pending b parts datas (w : s3_world) r w' :
  upload_parts s fuel c key id ps number size pending b parts w = Some (r, w') →
  0 < ps → number <= s3_max_parts + 1 →
  (pending ≠ [] → length pending = Z.to_nat ps ∧ size < 0) →
  hashed b = concat datas ++ pending → listed (fst w) id number parts datas →
  ∃ more, loop_done id ps number size b datas w r w' more.
Proof.
  revert number size pending b parts datas w.
  induction fuel as [|f IH]; intros number size pending b parts datas w H Hps Hnum Hpend Hhash Hlist;
    [done|]. cbn [upload_parts] in H.
  destruct (Z.eqb_spec size 0) as [->|Hsz].
  { injection H as <- <-. exists []. apply (loop_stop _ _ _ _ _ b _ _ _ parts); [done|].
    intros b' parts' [= <- <-]. split; [done|]. split; [done|]. split; [done|].
    destruct pending as [|x p]; [|destruct (Hpend ltac:(done)); lia].
    rewrite app_nil_r in Hhash. split; [done|]. split; [done|]. split; lia. }
  destruct (next_part ps size pending b) as [[[data err] size'] b1] eqn:En.
  apply next_part_spec in En as (fresh & Hh1 & Hdata & Hcat & Hshape & Hend);
    [|done|done|by intros ?; apply Hpend|by intros ?; apply Hpend].
  assert (hashed b1 = concat datas ++ data) as Hh1'
    by (by rewrite Hh1, Hhash, Hdata, <-app_assoc).
  destruct err as [e|].
  { injection H as <- <-. exists []. by apply (loop_stop _ _ _ _ _ b _ _ _ parts). }
  destruct (Hshape eq_refl) as (Hle & Hpos & Hneg). clear Hshape.
  assert (hashed b ++ concat (rd_chunks (unread b)) = hashed b1 ++ concat (rd_chunks (unread b1)))
    as Hcons by (by rewrite Hh1, Hcat, <-app_assoc).
  assert (length (hashed b1) = (length (hashed b) + length fresh)%nat) as Hlen
    by (by rewrite Hh1, length_app).
  destruct data as [|x data].
  { injection H as <- <-. exists []. apply (loop_stop _ _ _ _ _ b1 _ _ _ parts); [done|].
    intros b' parts' [= <- <-]. rewrite app_nil_r in Hh1'. split; [done|]. split; [done|].
    split; [done|]. split; [done|]. split; [done|]. simpl in *. split; [lia|].
    intros Hs. destruct (Hneg Hs) as [[_ ?]|(_ & He & Hnil)]; [lia|done]. }
  destruct (Z.ltb_spec s3_max_parts number) as [Hmax|Hmax].
  { injection H as <- <-. exists []. by apply (loop_stop _ _ _ _ _ b _ _ _ parts). }
  set (d := x :: data) in *. assert (0 < Z.of_nat (length d)) as Hd0 by (subst d; simpl; lia).
  unfold recorded in H. destruct (upload_part (client s) _ _ _ _ _ d _ (fst w)) as [r1 v1] eqn:Eu.
  apply upload_part_law in Eu as (Hobj & Hother & Htag).
  destruct r1 as [tag|e].
  2: { injection H as <- <-. exists [d]. split; simpl; [done|done| |lia|done|done]. done. }
  set (size2 := if 0 <? size' then size' - Z.of_nat (length d) else size') in H.
  apply (IH _ _ _ _ _ (datas ++ [d])) in H; [| |lia|done| |].
  - destruct H as (more & [O C Z1 N Zero Ok1]). exists (d :: more).
    assert (size2 ≠ 0 → Z.of_nat (length d) = ps) as Hfull.
    { intros Hs2. subst size2. destruct (Z.ltb_spec 0 size) as [Hp|Hn].
      - destruct (Hpos Hp) as [-> Hl]. rewrite (proj2 (Z.ltb_lt 0 size) Hp) in Hs2. lia.
      - destruct (Hneg ltac:(lia)) as [[-> Hl]|(-> & _)]; [done|].
        by rewrite Z.ltb_irrefl in Hs2. }
    split.
    + by rewrite O.
    + rewrite C. cbn [snd part_calls]. by rewrite <-app_assoc.
    + cbn [parts_well_sized]. split; [lia|]. split; [|done]. intros Hm. apply Hfull. intros E. by apply Zero in E.
    + change (length (d :: more)) with (S (length more)). lia.
    + done.
    + intros b' parts' Hr. destruct (Ok1 b' parts' Hr) as (Hl & Hhb & Hc2 & Hz & Hn2).
      rewrite <-app_assoc in Hl, Hhb. cbn [app] in Hl, Hhb. split; [done|]. split; [done|].
      split; [by rewrite Hcons|].
      assert (pending = [] ∨ size < 0) as Hp
        by (destruct pending; [by left|right; by apply Hpend]).
      split.
      * intros Hs. destruct Hp as [->|Hp]; [|lia]. cbn [app] in Hdata. subst fresh.
        destruct (Hpos ltac:(lia)) as [-> Hl2]. subst size2.
        rewrite (proj2 (Z.ltb_lt 0 size)) in Hz by lia. rewrite Hz by lia. lia.
      * intros Hs. destruct (Hneg Hs) as [[-> Hl2]|(-> & He & Hnil)].
        -- assert (size2 < 0) as Hs2 by (subst size2; destruct (Z.ltb_spec 0 size); lia).
           destruct (Hn2 Hs2) as [Heof Hnil]. split; [|done]. unfold rd_eof in *. by rewrite <-Hend.
        -- split; [done|]. assert (size2 = 0) as Hs2 by (subst size2; done).
           assert (length (hashed b') = length (hashed b1)) as Hsame by (rewrite Hs2 in Hz; lia).
           rewrite Hnil, app_nil_r in Hc2.
           rewrite Hc2, length_app in Hsame.
           destruct (concat (rd_chunks (unread b'))); [done|simpl in Hsame; lia].
  - lia.
  - by rewrite concat_app, app_nil_r, Hh1'; simpl; rewrite app_nil_r.
  - by eapply listed_snoc; [exact Hlist|done|by apply Htag].
Qed.


(** Part numbers bound the iterations. *)
Lemma upload_parts_fuel fuel c key id ps number size pending b parts (w : s3_world) :
  0 < number → s3_max_parts + 2 <= number + Z.of_nat fuel → 0 < Z.of_nat fuel →
  is_Some (upload_parts s fuel c key id ps number size pending b parts w).
Proof.
  revert number size pending b parts w. induction fuel as [|f IH]; intros number size pending b parts w Hn Hf H0;
    [lia|]. cbn [upload_parts]. destruct (size =? 0); [eauto|].
  destruct (next_part ps size pending b) as [[[data [e|]] size'] b1]; [eauto|].
  destruct data as [|x data]; [eauto|]. destruct (Z.ltb_spec s3_max_parts number); [eauto|].
  destruct (recorded _ _ w) as [[tag|e] w1]; [|eauto]. apply IH; unfold s3_max_parts in *; lia.
Qed.

Lemma s3_put_total c ep oid rd size (w : s3_world) :
  s3_put_fueled s c ep oid rd size w = Some (s3_put s c ep oid rd size w).
Proof.
  assert (∀ key o b n ps d v, is_Some (put_multipart s c key o b n ps d v)) as Hm.
  { intros key o b n ps d v. unfold put_multipart, multipart_body.
    destruct (recorded _ _ v) as [[id|e] v1]; [|eauto].
    destruct (upload_parts_fuel parts_fuel c key id ps 1 n d b [] v1) as [[[[b2 parts]|e] v2] ->];
      try (unfold parts_fuel, s3_max_parts; lia).
    - destruct (verify_oid _ _); [|destruct (recorded (CAbort id) _ v2); eauto].
      destruct (recorded (CComplete id parts) _ v2) as [[u|e] v3]; [eauto|].
      destruct (recorded (CAbort id) _ v3); eauto.
    - destruct (recorded (CAbort id) _ v2); eauto. }
  unfold s3_put. enough (is_Some (s3_put_fueled s c ep oid rd size w)) as [x ->] by done.
  unfold s3_put_fueled, put_unknown_size. destruct (object_key s ep oid); [|eauto].
  destruct (_ <? size); [eauto|]. destruct (size <? 0).
  - destruct (fill _ _) as [[d [e|]] b1]; [|done]. destruct (errors_is EOF e); eauto.
  - destruct (_ <? size); [done|]. destruct (read_full _ _) as [[d [e|]] b1]; eauto.
Qed.

(** ** What a put does *)

(** What creating a multipart upload of [key] answers. *)
Definition created (c : ctx) (key : gostring) (w : s3_world) : result go_error gostring :=
  fst (create_multipart (client s) c (bucket s) key (fst w)).

(** The mutating calls an upload of [data] to [key] makes when it succeeds: one
    PUT of it, or a multipart upload, created, filled with numbered parts that
    join to it, and completed; it is never aborted. *)
Inductive put_calls_ok (c : ctx) (key data : gostring) (w : s3_world) : list s3_call → Prop :=
| pco_one : put_calls_ok c key data w [CPut key data]
| pco_multi ps id datas parts : created c key w = Ok id →
    s3_part_size <= ps → parts_well_sized ps datas →
    Z.of_nat (length datas) <= s3_max_parts → concat datas = data →
    put_calls_ok c key data w (CCreate key :: part_calls id 1 datas ++ [CComplete id parts]).

(** And when it fails: nothing, or a PUT of bytes with the hash asked for, or a
    creation that failed, or a multipart upload that was created and ends with its
    abort, and is completed only for bytes with the hash asked for. *)
Inductive put_calls_err (c : ctx) (key o : gostring) (w : s3_world) : list s3_call → Prop :=
| pce_none : put_calls_err c key o w []
| pce_one data : content_oid data = o → put_calls_err c key o w [CPut key data]
| pce_create e : created c key w = Err e → put_calls_err c key o w [CCreate key]
| pce_abort ps id datas parts (completing : bool) : created c key w = Ok id →
    s3_part_size <= ps → parts_well_sized ps datas →
    Z.of_nat (length datas) <= s3_max_parts →
    (completing = true → content_oid (concat datas) = o) →
    put_calls_err c key o w (CCreate key :: part_calls id 1 datas
      ++ (if completing then [CComplete id parts] else []) ++ [CAbort id]).

(** The bytes a put of [size] takes from its reader. *)
Definition put_takes (rd : reader) (size : Z) (data : gostring) : Prop :=
  data `prefix_of` concat (rd_chunks rd)
  ∧ (0 <= size → Z.of_nat (length data) = size)
  ∧ (size < 0 → data = concat (rd_chunks rd) ∧ rd_eof rd = true).

(** The outcome of a put to [key] of bytes whose normal OID is [o]. *)
Record put_outcome (c : ctx) (key o : gostring) (rd : reader) (size : Z) (w : s3_world)
    (r : result go_error unit) (w' : s3_world) : Prop := {
  po_ok : r = Ok tt → ∃ data calls, put_takes rd size data ∧ content_oid data = o
    ∧ key_stored objs (bucket s) key data (fst w) (fst w')
    ∧ snd w' = snd w ++ calls ∧ put_calls_ok c key data w calls;
  po_err e : r = Err e → ∃ calls, snd w' = snd w ++ calls ∧ put_calls_err c key o w calls
    ∧ (objs (fst w') = objs (fst w) ∨ ∃ data, content_oid data = o
         ∧ key_stored objs (bucket s) key data (fst w) (fst w'))
}.

Lemma verify_oid_ok data oid o : normalise_oid oid = Ok o →
  (verify_oid data oid = Ok tt ∧ content_oid data = o)
  ∨ (verify_oid data oid = Err [HashMismatch] ∧ content_oid data ≠ o).
Proof.
  intros [Hv ->]%normalise_oid_ok. unfold verify_oid. fold (content_oid data).
  destruct (equal_fold (content_oid data) oid) eqn:E; [left|right]; split; try done.
  - by apply equal_fold_content.
  - intros H. rewrite (proj2 (equal_fold_content data oid Hv) H) in E. done.
Qed.

(** A failure before any call. *)
Lemma put_outcome_none c key o rd size (w : s3_world) e : put_outcome c key o rd size w (Err e) w.
Proof.
  split; [done|]. intros e' _. exists []. rewrite app_nil_r. split; [done|].
  split; [constructor|by left].
Qed.

(** Only the sign of a negative size matters. *)
Lemma put_outcome_negative c key o rd size size' (w : s3_world) r w' :
  size < 0 → size' < 0 → put_outcome c key o rd size w r w' → put_outcome c key o rd size' w r w'.
Proof.
  intros H1 H2 [Hok Herr]. split; [|done]. intros Hr.
  destruct (Hok Hr) as (data & calls & (Hp & Hs & Hn) & Hrest).
  exists data, calls. split; [|done]. split; [done|]. split; [lia|]. intros _. by apply Hn.
Qed.

(** One PUT of what was read. *)
Lemma put_one_outcome c key oid o data b rd size (w : s3_world) r w' :
  normalise_oid oid = Ok o → hashed b = data → put_takes rd size data →
  put_one s c key oid data b w = (r, w') → put_outcome c key o rd size w r w'.
Proof.
  intros Ho Hh Htakes H. unfold put_one in H. rewrite Hh in H.
  destruct (verify_oid_ok data oid o Ho) as [[Hv Hc]|[Hv _]]; rewrite Hv in H.
  2: { injection H as <- <-. apply put_outcome_none. }
  unfold recorded in H. destruct (put_object _ _ _ _ _ _ (fst w)) as [r1 v] eqn:E.
  apply put_object_law in E. injection H as <- <-. split.
  - intros ->. exists data, [CPut key data]. eauto using put_calls_ok.
  - intros e ->. exists [CPut key data]. split; [done|]. split; [by constructor|].
    destruct E; eauto.
Qed.

Lemma put_multipart_outcome c key oid o b size ps pending rd (w : s3_world) r w' :
  normalise_oid oid = Ok o → s3_part_size <= ps →
  (pending ≠ [] → length pending = Z.to_nat ps ∧ size < 0) →
  hashed b = pending → pending ++ concat (rd_chunks (unread b)) = concat (rd_chunks rd) →
  rd_end (unread b) = rd_end rd → (pending = [] ∨ size < 0) →
  put_multipart s c key oid b size ps pending w = Some (r, w') →
  put_outcome c key o rd size w r w'.
Proof.
  intros Ho Hps Hpend Hh Hrd Hend Hcase H. unfold put_multipart in H. unfold recorded at 1 in H.
  destruct (create_multipart _ _ _ _ (fst w)) as [[id|e] v] eqn:Ecr; pose proof (create_multipart_law _ _ _ _ _ _ Ecr) as Ec.
  2: { injection H as <- <-. split; [done|]. intros e' _. exists [CCreate key]. split; [done|].
       split; [apply (pce_create _ _ _ _ e); unfold created; by rewrite Ecr|by left]. }
  assert (created c key w = Ok id) as Hid by (unfold created; by rewrite Ecr).
  unfold multipart_body in H.
  destruct (upload_parts _ _ _ _ _ _ _ _ _ _ _ (v, _)) as [[ru w1]|] eqn:Eu; [|done].
  apply (upload_parts_spec _ _ _ _ _ _ _ _ _ _ []) in Eu as (more & [O C Z1 N Zero Okp]);
    [|unfold s3_part_size in *; lia|unfold s3_max_parts; lia|done|done|by split; constructor].
  cbn [fst snd] in O, C. assert (Z.of_nat (length more) <= s3_max_parts) as N' by lia. clear N.
  assert (∀ w2 e (completing : bool) parts,
      snd w2 = snd w1 ++ (if completing then [CComplete id parts] else []) →
      (completing = true → content_oid (concat more) = o) →
      objs (fst w2) = objs (fst w) ∨ (∃ data, content_oid data = o
         ∧ key_stored objs (bucket s) key data (fst w) (fst w2)) →
      (let '(_, w3) := recorded (CAbort id) (abort_multipart (client s) None (bucket s) key id) w2 in
       Some (Err e, w3)) = Some (r, w') → put_outcome c key o rd size w r w') as Habort.
  { intros w2 e completing parts Hs2 Hc2 Hob2 Ha. unfold recorded in Ha.
    destruct (abort_multipart _ _ _ _ _ (fst w2)) as [ra v3] eqn:Ea.
    apply abort_multipart_law in Ea. injection Ha as <- <-. split; [done|]. intros e' _.
    exists (CCreate key :: part_calls id 1 more
      ++ (if completing then [CComplete id parts] else []) ++ [CAbort id]).
    split; [cbn [snd]; by rewrite Hs2, C, <-!app_assoc|].
    split; [by apply (pce_abort c key o w ps)|]. cbn [fst]. unfold key_stored in *. by rewrite Ea. }
  assert (objs (fst w1) = objs (fst w)) as O' by by rewrite O.
  destruct ru as [[b2 parts]|e].
  2: { apply (Habort w1 e false []); [by rewrite app_nil_r|done|by left|done]. }
  destruct (Okp b2 parts eq_refl) as ((n & Hlist & _) & Hhb & Hcat & Hsz & Hneg). cbn [app] in *.
  rewrite Hhb in H.
  destruct (verify_oid_ok (concat more) oid o Ho) as [[Hv Hc]|[Hv _]]; rewrite Hv in H.
  2: { apply (Habort w1 [HashMismatch] false []); [by rewrite app_nil_r|done|by left|done]. }
  unfold recorded at 1 in H.
  destruct (complete_multipart _ _ _ _ _ _ (fst w1)) as [r4 v4] eqn:E4.
  apply (complete_multipart_law _ _ _ _ _ more) in E4; [|done].
  assert (key_stored objs (bucket s) key (concat more) (fst w1) v4 →
    key_stored objs (bucket s) key (concat more) (fst w) v4) as Hks
    by (unfold key_stored; by rewrite O').
  destruct r4 as [u|e].
  2: { apply (Habort (v4, snd w1 ++ [CComplete id parts]) e true parts); [done|done| |done].
       cbn [fst]. rewrite <-O'. destruct E4 as [E4|E4]; [by left|right; eauto]. }
  injection H as <- <-. split; [|done]. intros _.
  exists (concat more), (CCreate key :: part_calls id 1 more ++ [CComplete id parts]).
  split; [|split; [done|]; split; [by apply Hks|]; split; [|by apply (pco_multi c key _ w ps)]].
  2: { cbn [snd]. by rewrite C, <-!app_assoc. }
  rewrite Hh, Hrd, Hhb in Hcat. split; [by eexists|]. split.
  - intros Hs. rewrite Hhb in Hsz. rewrite Hsz by done. rewrite Hh.
    destruct Hcase as [->|?]; [done|lia].
  - intros Hs. destruct (Hneg Hs) as [Heof Hnil]. rewrite Hnil, app_nil_r in Hcat.
    split; [done|]. unfold rd_eof in *. by rewrite <-Hend.
Qed.

Lemma s3_put_outcome c ep oid rd size (w : s3_world) r w' :
  s3_put s c ep oid rd size w = (r, w') →
  match object_key s ep oid with
  | Err e => r = Err e ∧ w' = w
  | Ok key => ∃ o, normalise_oid oid = Ok o ∧ put_outcome c key o rd size w r w'
  end.
Proof.
  intros H. assert (s3_put_fueled s c ep oid rd size w = Some (r, w')) as H1
    by (by rewrite s3_put_total, H). clear H. unfold s3_put_fueled in H1.
  destruct (object_key s ep oid) as [key|e] eqn:Ek; [|by injection H1 as <- <-].
  unfold object_key in Ek. destruct (normalise_oid oid) as [o|e] eqn:Ho; [|done]. clear Ek.
  exists o. split; [done|].
  destruct (_ <? size); [injection H1 as <- <-; apply put_outcome_none|].
  destruct (Z.ltb_spec size 0) as [Hneg|Hpos].
  - unfold put_unknown_size in H1. destruct (fill _ _) as [[data err] b] eqn:Ef.
    apply fill_spec in Ef as (Hh & Hc & Hend & Hlen & Hfull & Hstop). cbn [hashed unread app] in *.
    destruct err as [e|].
    + destruct (Hstop e eq_refl) as [-> Hnil]. rewrite Hnil in Hc. simpl in Hc. rewrite app_nil_r in Hc.
      destruct (errors_is EOF (rd_end rd)) eqn:Eeof;
        [|injection H1 as <- <-; apply put_outcome_none].
      injection H1 as H1. apply (put_one_outcome c key oid o data b); [done|done| |done].
      split; [by rewrite Hc|]. split; [lia|]. by intros _.
    + apply (put_outcome_negative c key o rd (-1)); [lia|done|].
      apply put_multipart_outcome with (o := o) (rd := rd) in H1; try done; [lia| |by right].
      intros _. split; [by rewrite Hfull|lia].
  - pose proof (part_size_for_bounds size) as [Hb _].
    destruct (Z.ltb_spec (part_size_for size) size).
    + apply put_multipart_outcome with (o := o) (rd := rd) in H1; try done; [lia|by left].
    + destruct (read_full _ _) as [[data err] b] eqn:Ef.
      apply read_full_spec in Ef as (Hh & Hc & Hlen). cbn [hashed unread app] in *.
      destruct err as [e|]; [injection H1 as <- <-; apply put_outcome_none|].
      injection H1 as H1. apply (put_one_outcome c key oid o data b); [done|done| |done].
      split; [by eexists|]. rewrite Hlen by done. split; lia.
Qed.

(** ** Progress: a healthy service stores what a good client sends *)

(** Calls succeed, and a completion does when its parts are there. *)
Class S3Up {W} (api : S3Api W) (part : W → gostring → Z → option (part_tag * gostring)) : Prop := {
  up_put c b k data n w : ∃ w', put_object api c b k data n w = (Ok tt, w');
  up_create c b k w : ∃ id w', create_multipart api c b k w = (Ok id, w');
  up_part c b k id n data l w : ∃ tag w', upload_part api c b k id n data l w = (Ok tag, w');
  up_complete c b k id parts datas w :
    Forall2 (λ p data, part w id (fst p) = Some (snd p, data)) parts datas →
    ∃ w', complete_multipart api c b k id parts w = (Ok tt, w')
}.

Context {Up : S3Up (client s) part}.

Lemma recorded_ok {A} call (f : W → out W A) (w : s3_world) a v :
  f (fst w) = (Ok a, v) → recorded call f w = (Ok a, (v, snd w ++ [call])).
Proof. unfold recorded. by intros ->. Qed.

Lemma read_full_enough b n : (n <= length (concat (rd_chunks (unread b))))%nat →
  ∃ data b', read_full b n = (data, None, b').
Proof.
  intros Hn. unfold read_full. destruct (fill b n) as [[d e] b1] eqn:E.
  apply fill_spec in E as (_ & Hc & _ & Hle & Hfull & Hstop).
  assert (length d = n) as Hd.
  { destruct e as [e|]; [|auto]. destruct (Hstop e eq_refl) as [_ Hnil].
    rewrite Hc, Hnil, length_app in Hn. simpl in Hn. lia. }
  rewrite (proj2 (Nat.leb_le _ _)) by lia. eauto.
Qed.

Lemma upload_parts_succeeds fuel c key id ps number size pending b parts (w : s3_world) :
  0 < ps → 0 < number <= s3_max_parts + 1 →
  s3_max_parts + 2 <= number + Z.of_nat fuel → 0 < Z.of_nat fuel →
  (pending ≠ [] → length pending = Z.to_nat ps ∧ size < 0) →
  (0 <= size → size <= Z.of_nat (length (concat (rd_chunks (unread b))))
     ∧ size <= (s3_max_parts + 1 - number) * ps) →
  (size < 0 → rd_eof (unread b) = true
     ∧ Z.of_nat (length pending + length (concat (rd_chunks (unread b))))
         <= (s3_max_parts + 1 - number) * ps) →
  ∃ b' parts' w', upload_parts s fuel c key id ps number size pending b parts w
    = Some (Ok (b', parts'), w').
Proof.
  revert number size pending b parts w.
  induction fuel as [|f IH]; intros number size pending b parts w Hps Hn Hf H0 Hpend Hpos Hneg; [lia|].
  cbn [upload_parts]. destruct (Z.eqb_spec size 0) as [|Hsz]; [eauto|].
  destruct (next_part ps size pending b) as [[[data err] size'] b1] eqn:En.
  assert (err = None) as ->.
  { revert En. unfold next_part. destruct pending; [|by intros [= _ <- _ _]].
    destruct (Z.ltb_spec 0 size) as [Hs|Hs].
    - destruct (read_full_enough b (Z.to_nat (Z.min ps size))) as (d & b2 & ->); [lia|].
      by intros [= _ <- _ _].
    - destruct (fill _ _) as [[d [e|]] b2] eqn:Ef; [|by intros [= _ <- _ _]].
      apply fill_spec in Ef as (_ & _ & _ & _ & _ & Hstop). destruct (Hstop e eq_refl) as [-> _].
      destruct (Hneg ltac:(lia)) as [Heof _]. unfold rd_eof in Heof. rewrite Heof. by intros [= _ <- _ _]. }
  apply next_part_spec in En as (fresh & _ & Hdata & Hcat & Hshape & Hend);
    [|done|done|by intros ?; apply Hpend|by intros ?; apply Hpend].
  destruct (Hshape eq_refl) as (Hle & Hp & Hng). destruct data as [|x data]; [eauto|].
  set (d := x :: data) in *. assert (0 < Z.of_nat (length d)) as Hd0 by (subst d; simpl; lia).
  assert (Z.of_nat (length (concat (rd_chunks (unread b))))
    = Z.of_nat (length fresh) + Z.of_nat (length (concat (rd_chunks (unread b1))))) as Hl
    by (rewrite Hcat, length_app; lia).
  assert (Z.of_nat (length d) = Z.of_nat (length pending) + Z.of_nat (length fresh)) as Hl2
    by (rewrite Hdata, length_app; lia).
  assert (number <= s3_max_parts) as Hmax.
  { destruct (Z.lt_trichotomy size 0) as [Hs|[|Hs]]; [|lia|].
    - destruct (Hneg Hs) as [_ Hb]. nia.
    - destruct (Hpos ltac:(lia)) as [_ Hb]. nia. }
  rewrite (proj2 (Z.ltb_ge _ _)) by lia.
  destruct (up_part c (bucket s) key id number d (Z.of_nat (length d)) (fst w)) as (tag & v & Ht).
  rewrite (recorded_ok _ _ _ _ _ Ht).
  apply IH; try lia; [done| |].
  - intros Hs2. destruct (Z.lt_trichotomy size 0) as [Hs|[|Hs]]; [|lia|].
    + destruct (Hng Hs) as [[-> _]|(-> & _)]; [|rewrite Z.ltb_irrefl in *].
      * rewrite (proj2 (Z.ltb_ge _ _)) in * by lia. lia.
      * split; [lia|]. nia.
    + destruct (Hp Hs) as [-> Hld]. rewrite (proj2 (Z.ltb_lt _ _)) in * by lia.
      destruct (Hpos ltac:(lia)) as [Hb1 Hb2].
      assert (pending = []) as -> by (destruct pending; [done|destruct (Hpend ltac:(done)); lia]).
      cbn [length] in *. split; [lia|]. nia.
  - intros Hs2. destruct (Z.lt_trichotomy size 0) as [Hs|[|Hs]]; [|lia|].
    + destruct (Hng Hs) as [[-> Hld]|(-> & _)]; [|rewrite Z.ltb_irrefl in *; lia].
      destruct (Hneg Hs) as [Heof Hb]. split; [unfold rd_eof in *; by rewrite Hend|].
      cbn [length]. nia.
    + destruct (Hp Hs) as [-> Hld]. rewrite (proj2 (Z.ltb_lt _ _)) in * by lia. lia.
Qed.

Lemma put_takes_unique rd size d1 d2 : put_takes rd size d1 → put_takes rd size d2 → d1 = d2.
Proof.
  intros ([r1 H1] & P1 & N1) ([r2 H2] & P2 & N2).
  destruct (Z.lt_ge_cases size 0) as [Hs|Hs].
  - destruct (N1 Hs) as [-> _], (N2 Hs) as [-> _]. done.
  - specialize (P1 Hs). specialize (P2 Hs). rewrite H1 in H2.
    apply app_inj_1 in H2 as [? _]; [done|lia].
Qed.

(** The whole of [putMultipart] succeeds. *)
Lemma put_multipart_succeeds c key oid o b size ps pending rd data (w : s3_world) :
  normalise_oid oid = Ok o → s3_part_size <= ps →
  (pending ≠ [] → length pending = Z.to_nat ps ∧ size < 0) →
  hashed b = pending → pending ++ concat (rd_chunks (unread b)) = concat (rd_chunks rd) →
  rd_end (unread b) = rd_end rd → (pending = [] ∨ size < 0) →
  put_takes rd size data → content_oid data = o →
  Z.of_nat (length data) <= s3_max_parts * ps →
  ∃ w', put_multipart s c key oid b size ps pending w = Some (Ok tt, w').
Proof.
  intros Ho Hps Hpend Hh Hrd Hend Hcase Htk Hc Hlim.
  unfold put_multipart. destruct (up_create c (bucket s) key (fst w)) as (id & v & E).
  rewrite (recorded_ok _ _ _ _ _ E). unfold multipart_body.
  pose proof Htk as (Hpre & Hsz & Hng).
  destruct (upload_parts_succeeds parts_fuel c key id ps 1 size pending b [] (v, snd w ++ [CCreate key]))
    as (b2 & parts & w1 & E1); try (unfold parts_fuel, s3_max_parts, s3_part_size in *; lia);
    [done| | |].
  - intros Hs. destruct Hcase as [->|?]; [|lia]. cbn [app] in Hrd. rewrite Hrd.
    destruct Hpre as [rest Hrest]. rewrite Hrest, length_app, <-Hsz by done.
    unfold s3_max_parts in *. split; lia.
  - intros Hs. destruct (Hng Hs) as [-> Heof]. split; [unfold rd_eof in *; by rewrite Hend|].
    rewrite <-length_app, Hrd. unfold s3_max_parts in *. lia.
  - rewrite E1. pose proof E1 as E2.
    apply (upload_parts_spec _ _ _ _ _ _ _ _ _ _ []) in E2 as (more & [_ _ _ _ _ Okp]);
      [|unfold s3_part_size in *; lia|unfold s3_max_parts; lia|done|done|by split; constructor].
    destruct (Okp b2 parts eq_refl) as ((n & Hlist & _) & Hhb & Hcat & Hsz2 & Hneg). cbn [app] in *.
    assert (concat more = data) as <-.
    { apply (put_takes_unique rd size); [|done]. rewrite Hh, Hrd, Hhb in Hcat.
      split; [by eexists|]. split.
      - intros Hs. rewrite <-Hhb, Hsz2, Hh by done. destruct Hcase as [->|?]; [done|lia].
      - intros Hs. destruct (Hneg Hs) as [_ Hnil]. rewrite Hnil, app_nil_r in Hcat.
        split; [done|]. by apply Hng. }
    rewrite Hhb. destruct (verify_oid_ok (concat more) oid o Ho) as [[-> _]|[_ ?]]; [|done].
    destruct (up_complete c (bucket s) key id parts more (fst w1) Hlist) as [v2 E2].
    rewrite (recorded_ok _ _ _ _ _ E2). eauto.
Qed.

Lemma put_one_succeeds c key oid o data b (w : s3_world) :
  normalise_oid oid = Ok o → hashed b = data → content_oid data = o →
  ∃ w', put_one s c key oid data b w = (Ok tt, w').
Proof.
  intros Ho Hh Hc. unfold put_one. rewrite Hh.
  destruct (verify_oid_ok data oid o Ho) as [[-> _]|[_ ?]]; [|done].
  destruct (up_put c (bucket s) key data (Z.of_nat (length data)) (fst w)) as [v E].
  rewrite (recorded_ok _ _ _ _ _ E). eauto.
Qed.

Lemma ex_some {A B} (x : A * B) a : (∃ b, x = (a, b)) → ∃ b, Some x = Some (a, b).
Proof. intros [b ->]. eauto. Qed.

Lemma s3_put_succeeds c ep oid o rd size data (w : s3_world) :
  normalise_oid oid = Ok o → put_takes rd size data → content_oid data = o →
  Z.of_nat (length data) <= s3_max_parts
    * (if size <? 0 then Z.max (stream_part_size s) s3_part_size else s3_max_part_size) →
  ∃ w', s3_put s c ep oid rd size w = (Ok tt, w').
Proof.
  intros Ho Htk Hc Hlim. enough (∃ w', s3_put_fueled s c ep oid rd size w = Some (Ok tt, w')) as [w' E].
  { rewrite s3_put_total in E. injection E as E. eauto. }
  unfold s3_put_fueled, object_key. rewrite Ho. pose proof Htk as ([rest Hrest] & Hsz & Hng).
  destruct (Z.ltb_spec size 0) as [Hs|Hs].
  - rewrite (proj2 (Z.ltb_ge _ _)) by (unfold s3_max_parts, s3_max_part_size; lia).
    destruct (Hng Hs) as [-> Heof].
    unfold put_unknown_size. destruct (fill _ _) as [[d err] b] eqn:Ef.
    apply fill_spec in Ef as (Hh & Hcat & Hend & Hlen & Hfull & Hstop). cbn [hashed unread app] in *.
    destruct err as [e|].
    + destruct (Hstop e eq_refl) as [-> Hnil]. unfold rd_eof in Heof. rewrite Heof.
      rewrite Hnil in Hcat. simpl in Hcat. rewrite app_nil_r in Hcat.
      apply ex_some, (put_one_succeeds _ _ _ o); [done|done|by rewrite <-Hcat].
    + apply put_multipart_succeeds with (o := o) (rd := rd) (data := concat (rd_chunks rd));
        try done; [lia| |by right].
      intros _. split; [by rewrite Hfull|lia].
  - specialize (Hsz Hs). pose proof (part_size_for_bounds size) as [Hb Hb2].
    rewrite (proj2 (Z.ltb_ge _ _)) by lia.
    destruct (Z.ltb_spec (part_size_for size) size).
    + apply put_multipart_succeeds with (o := o) (rd := rd) (data := data); try done; [lia|by left|].
      rewrite Hsz. apply Hb2. lia.
    + destruct (read_full_enough {| unread := rd; hashed := [] |} (Z.to_nat size)) as (d & b & E).
      { cbn [unread]. rewrite Hrest, length_app. lia. }
      rewrite E. apply read_full_spec in E as (Hh & Hcat & Hlen). cbn [hashed unread app] in *.
      assert (d = data) as ->.
      { apply (put_takes_unique rd size); [|done]. split; [by eexists|].
        rewrite Hlen by done. split; lia. }
      by apply ex_some, (put_one_succeeds _ _ _ o).
Qed.
End Multipart.


(** ** The contract of [Adapter] *)

Section Contract.
Context {U : Unicode} {W : Type} (s : S3 W)
  (objs : W → gostring → gostring → option gostring)
  (part : W → gostring → Z → option (part_tag * gostring))
  {L : S3Laws (client s) objs part}.

(** The key of a directory and a normal OID. *)
Definition key_of (d o : gostring) : gostring :=
  prefix s ++ d ++ "/" ++ take 2 o ++ "/" ++ take 2 (drop 2 o) ++ "/" ++ o.

Lemma object_key_ok ep oid k : object_key s ep oid = Ok k ↔
  ∃ o, normalise_oid oid = Ok o ∧ k = key_of (endpoint ep) o.
Proof.
  unfold object_key. destruct (normalise_oid oid) as [o|e]; split.
  - intros [= <-]. eauto.
  - by intros (o' & [= <-] & ->).
  - done.
  - by intros (o' & ? & _).
Qed.

Lemma key_of_inj d o d' o' : normal_oid o → normal_oid o' →
  key_of d o = key_of d' o' → d = d' ∧ o = o'.
Proof.
  intros [[Hl _]%is_valid_oid_spec _] [[Hl' _]%is_valid_oid_spec _] H. unfold key_of in H.
  apply app_inv_head in H.
  apply app_inj_suffix in H as [-> H].
  - split; [done|]. rewrite !app_assoc in H. by apply app_inj_suffix in H as [_ ->]; [|congruence].
  - rewrite !length_app, !length_take, !length_drop, Hl, Hl'. done.
Qed.

Definition s3_objects : object_store s3_world := λ w d o, objs (fst w) (bucket s) (key_of d o).

Lemma key_stored_object d o data (w w' : s3_world) : normal_oid o →
  key_stored objs (bucket s) (key_of d o) data (fst w) (fst w') →
  stored_object s3_objects d o data w w'.
Proof.
  intros Ho [Hst Hother]. split; [done|]. intros d' o' _ Ho' Hne. apply Hother.
  intros [= H]. apply Hne. f_equal; by destruct (key_of_inj _ _ _ _ Ho' Ho H).
Qed.

Lemma s3_same_objects (w w' : s3_world) :
  objs (fst w') = objs (fst w) → same_objects s3_objects w w'.
Proof. intros H d o _ _. unfold s3_objects. by rewrite H. Qed.

Lemma head_object_spec c ep o w :
  let '(r, w') := silent (head_object (client s) c (bucket s) (key_of (endpoint ep) o)) w in
  same_objects s3_objects w w'
  ∧ match r with
    | Ok len => ∃ data, s3_objects w (endpoint ep) o = Some data ∧ len = Some (Z.of_nat (length data))
    | Err e => is_s3_not_found e = true → s3_objects w (endpoint ep) o = None
    end.
Proof.
  unfold silent. destruct (head_object _ _ _ _ (fst w)) as [r v] eqn:E.
  apply head_object_law in E as [Hs Hr]. split; [by apply s3_same_objects|done].
Qed.

#[export] Instance s3_laws p {P : ∀ q, p = Some q → S3PresignLaws q objs} :
  AdapterLaws (s3_adapter s p) s3_objects (λ _, True).
Proof.
  split; simpl.
  - intros c ep oid w r w' _ H. unfold s3_exists in H. split; [done|].
    destruct (object_key s ep oid) as [k|e] eqn:Ek; [|by injection H as <- <-].
    apply object_key_ok in Ek as (o & Ho & ->). pose proof (head_object_spec c ep o w) as Hh.
    destruct (silent _ w) as [[len|e] w1]; destruct Hh as [Hs Hr].
    + injection H as <- <-. split; [done|]. intros b [= <-]. exists o. destruct Hr as (d & -> & _).
      split; [done|]. by split; [eauto|].
    + destruct (is_s3_not_found e); injection H as <- <-; (split; [done|]); [|done].
      intros b [= <-]. exists o. rewrite Hr by done. split; [done|]. split; [done|by intros [? ?]].
  - intros c ep oid w r w' _ H. unfold s3_get in H. split; [done|].
    destruct (object_key s ep oid) as [k|e] eqn:Ek; [|by injection H as <- <-].
    apply object_key_ok in Ek as (o & Ho & ->). unfold silent in H.
    destruct (get_object _ _ _ _ (fst w)) as [r1 v] eqn:E.
    apply get_object_law in E as [Hs Hr]. destruct r1 as [[data len]|e].
    + injection H as <- <-. split; [by apply s3_same_objects|]. intros d n [= <- _]. eauto.
    + destruct (is_s3_not_found e); injection H as <- <-; (split; [by apply s3_same_objects|done]).
  - intros c ep oid w r w' _ H. unfold s3_size in H. split; [done|].
    destruct (object_key s ep oid) as [k|e] eqn:Ek; [|by injection H as <- <-].
    apply object_key_ok in Ek as (o & Ho & ->). pose proof (head_object_spec c ep o w) as Hh.
    destruct (silent _ w) as [[len|e] w1]; destruct Hh as [Hs Hr].
    + injection H as <- <-. split; [done|]. intros n [= <-]. destruct Hr as (d & Hd & ->). eauto.
    + destruct (is_s3_not_found e); injection H as <- <-; by split.
  - intros c ep oid rd n w r w' _ H. split; [done|].
    apply (s3_put_outcome s objs part) in H.
    destruct (object_key s ep oid) as [k|e] eqn:Ek; [|destruct H as [-> ->]; by left].
    apply object_key_ok in Ek as (o & Ho & ->). destruct H as (o' & Ho' & [Hok Herr]).
    rewrite Ho in Ho'. injection Ho' as <-. pose proof (normalise_oid_normal _ _ Ho) as Hn.
    destruct r as [[]|e].
    + destruct (Hok eq_refl) as (data & calls & (Hp & _) & Hc & Hst & _).
      exists o, data. eauto using key_stored_object.
    + destruct (Herr e eq_refl) as (calls & _ & _ & [Hs|(data & Hc & Hst)]);
        [left; by apply s3_same_objects|right; exists o, data; eauto using key_stored_object].
  - intros c w r w' _ [= <- <-]. split; [done|]. split; [done|]. intros n [= <-]. by split.
  - intros c w r w' _ H. unfold s3_check, silent in H. split; [done|].
    destruct (head_bucket _ _ _ (fst w)) as [r1 v] eqn:E. injection H as <- <-.
    apply head_bucket_law in E. by apply s3_same_objects.
  - intros q c ep oid exp w r w' Hq _ H. split; [done|]. destruct p as [p|]; [|done].
    pose proof (P p eq_refl). injection Hq as <-. cbn [presign_get] in H. unfold s3_presign_get in H.
    destruct (object_key s ep oid); [|by injection H as <- <-]. unfold silent in H.
    destruct (presign_get_object _ _ _ _ _ (fst w)) as [r1 v] eqn:E.
    apply presign_get_object_law in E. injection H as <- <-. by apply s3_same_objects.
  - intros q c ep oid n exp w r w' Hq _ H. split; [done|]. destruct p as [p|]; [|done].
    pose proof (P p eq_refl). injection Hq as <-. cbn [presign_put] in H. unfold s3_presign_put in H.
    destruct (object_key s ep oid); [|by injection H as <- <-].
    destruct (_ <? n); [by injection H as <- <-|]. destruct (hex_decode oid); [|by injection H as <- <-].
    unfold silent in H. destruct (presign_put_object _ _ _ _ _ _ _ (fst w)) as [r1 v] eqn:E.
    apply presign_put_object_law in E. destruct r1 as [[u hs]|e]; injection H as <- <-; by apply s3_same_objects.
Qed.
#[export] Instance s3_sizes {SL : S3Lengths (client s)} p : AdapterSizes (s3_adapter s p).
Proof.
  intros c ep oid w data n w' H. cbn [ad_get s3_adapter] in H. unfold s3_get, silent in H.
  destruct (object_key s ep oid); [|done]. destruct (get_object _ _ _ _ (fst w)) as [[[d len]|e] v] eqn:E.
  - apply get_object_length in E as ->. by injection H as <- <- _.
  - by destruct (is_s3_not_found e).
Qed.
End Contract.

(** ** A service in memory *)

Record mem_s3 := {
  ms_objects : gmap (gostring * gostring) gostring;
  ms_parts : gmap (gostring * Z) (part_tag * gostring);
  ms_uploads : nat
}.

(** The contents of the parts listed, when all are there with their tags. *)
Fixpoint join_parts (m : mem_s3) (id : gostring) (parts : list (Z * part_tag)) : option gostring :=
  match parts with
  | [] => Some []
  | (n, tag) :: ps =>
      match ms_parts m !! (id, n), join_parts m id ps with
      | Some (tag', d), Some rest => if decide (tag = tag') then Some (d ++ rest) else None
      | _, _ => None
      end
  end.

Definition mem_put (b k data : gostring) (m : mem_s3) : mem_s3 :=
  {| ms_objects := <[(b, k) := data]> (ms_objects m); ms_parts := ms_parts m; ms_uploads := ms_uploads m |}.

Definition mem_s3_api : S3Api mem_s3 := {|
  head_bucket _ _ m := (Ok tt, m);
  head_object _ b k m :=
    (match ms_objects m !! (b, k) with Some d => Ok (Some (Z.of_nat (length d))) | None => Err [S3NotFound] end, m);
  get_object _ b k m :=
    (match ms_objects m !! (b, k) with
     | Some d => Ok (d, Some (Z.of_nat (length d))) | None => Err [S3NoSuchKey] end, m);
  put_object _ b k data _ m := (Ok tt, mem_put b k data m);
  create_multipart _ _ _ m :=
    (Ok (replicate (ms_uploads m) "u"%char),
     {| ms_objects := ms_objects m; ms_parts := ms_parts m; ms_uploads := S (ms_uploads m) |});
  upload_part _ _ _ id n data _ m :=
    (Ok (hex_encode data, []),
     {| ms_objects := ms_objects m; ms_parts := <[(id, n) := ((hex_encode data, []), data)]> (ms_parts m);
        ms_uploads := ms_uploads m |});
  complete_multipart _ b k id parts m :=
    match join_parts m id parts with
    | Some data => (Ok tt, mem_put b k data m) | None => (Err [], m) end;
  abort_multipart _ _ _ _ m := (Ok tt, m)
|}.

Definition mem_objs (m : mem_s3) (b k : gostring) : option gostring := ms_objects m !! (b, k).
Definition mem_part (m : mem_s3) (id : gostring) (n : Z) : option (part_tag * gostring) :=
  ms_parts m !! (id, n).

Lemma mem_put_stored b k data m : key_stored mem_objs b k data m (mem_put b k data m).
Proof.
  split; unfold mem_objs, mem_put; cbn [ms_objects]; [apply lookup_insert_eq|].
  intros b' k' Hne. apply lookup_insert_ne. congruence.
Qed.

Lemma join_parts_listed m id parts datas :
  Forall2 (λ p d, mem_part m id (fst p) = Some (snd p, d)) parts datas →
  join_parts m id parts = Some (concat datas).
Proof.
  induction 1 as [|[n tag] d ps ds H _ IH]; [done|]. cbn [join_parts fst snd concat] in *.
  unfold mem_part in H. rewrite H, IH. by rewrite decide_True.
Qed.

#[export] Instance mem_s3_laws : S3Laws mem_s3_api mem_objs mem_part.
Proof.
  split; cbn [head_bucket head_object get_object put_object create_multipart upload_part
    complete_multipart abort_multipart mem_s3_api].
  - by intros c b w r w' [= _ <-].
  - intros c b k w r w' H. unfold mem_objs.
    destruct (ms_objects w !! (b, k)) eqn:E; injection H as <- <-; eauto.
  - intros c b k w r w' H. unfold mem_objs.
    destruct (ms_objects w !! (b, k)) eqn:E; injection H as <- <-; split; try done.
    by intros d len [= <- _].
  - intros c b k data w r w' [= <- <-]. apply mem_put_stored.
  - by intros c b k w r w' [= _ <-].
  - intros c b k id n data w r w' [= <- <-]. split; [done|]. unfold mem_part. cbn [ms_parts].
    split; [intros m Hm; apply lookup_insert_ne; congruence|].
    intros tag [= <-]. apply lookup_insert_eq.
  - intros c b k id parts datas w r w' Hl H. rewrite (join_parts_listed _ _ _ _ Hl) in H.
    injection H as <- <-. apply mem_put_stored.
  - by intros c b k id w r w' [= _ <-].
Qed.
#[export] Instance mem_s3_lengths : S3Lengths mem_s3_api.
Proof.
  intros c b k w data len w' H. cbn [get_object mem_s3_api] in H.
  destruct (ms_objects w !! (b, k)); by simplify_eq.
Qed.

Definition sample_s3 : S3 mem_s3 :=
  {| client := mem_s3_api; bucket := "lfs"; prefix := "objects/"; stream_part_size := s3_part_size |}.
Definition sample_s3_world : @s3_world mem_s3 :=
  ({| ms_objects := ∅; ms_parts := ∅; ms_uploads := 0 |}, []).
Definition s3_sample_reader : reader := Reader ["ab"%go; "c"%go] [EOF] false.

(** Two parts, joined in order (the part size shrunk to show the loop). *)
Example mem_s3_multipart :
  let '(r, w) := default (Err [], sample_s3_world)
    (@put_multipart sample_unicode mem_s3 sample_s3 None "k" (content_oid "abc")
       {| unread := s3_sample_reader; hashed := [] |} 3 2 [] sample_s3_world) in
  r = Ok tt ∧ mem_objs (fst w) "lfs" "k" = Some "abc"%go
  ∧ map (λ c, match c with CPart _ n d => (n, d) | _ => (0, []) end) (snd w)
    = [(0, []); (1, "ab"%go); (2, "c"%go); (0, [])].
Proof. vm_compute. repeat split. Qed.

(** ** Properties *)

Section Properties.
Context {U : Unicode} {W : Type} (s : S3 W)
  (objs : W → gostring → gostring → option gostring)
  (part : W → gostring → Z → option (part_tag * gostring)).

(** C11. Whatever the S3 service does within its documented behaviour, an upload
    that succeeds has stored, under the key of its endpoint and OID, exactly the
    bytes of the requested size (or the whole stream, ended without error, when
    the size is unknown), whose SHA-256 is the OID; one that fails has left the
    bucket as it was, or stored under that key bytes that do hash to the OID. No
    other key ever changes. *)
Theorem s3_put_safe {L : S3Laws (client s) objs part} c ep oid rd size w r w' :
  s3_put s c ep oid rd size w = (r, w') →
  match r with
  | Ok _ => ∃ o data, normalise_oid oid = Ok o ∧ put_takes rd size data ∧ content_oid data = o
      ∧ key_stored objs (bucket s) (key_of s (endpoint ep) o) data (fst w) (fst w')
  | Err _ => objs (fst w') = objs (fst w)
      ∨ ∃ o data, normalise_oid oid = Ok o ∧ content_oid data = o
          ∧ key_stored objs (bucket s) (key_of s (endpoint ep) o) data (fst w) (fst w')
  end.
Proof.
  intros H. apply (s3_put_outcome s objs part) in H.
  destruct (object_key s ep oid) as [k|e] eqn:Ek; [|destruct H as [-> ->]; by left].
  apply object_key_ok in Ek as (o & Ho & ->). destruct H as (o' & Ho' & [Hok Herr]).
  rewrite Ho in Ho'. injection Ho' as <-. destruct r as [[]|e].
  - destruct (Hok eq_refl) as (data & calls & ? & ? & ? & _). eauto 10.
  - destruct (Herr e eq_refl) as (calls & _ & _ & [?|(data & ? & ?)]); [by left|right; eauto 10].
Qed.

(** C12. The order of the calls of an upload: when it succeeds, either one PUT or
    a multipart upload that is created, filled with at most 10,000 consecutively
    numbered parts, all but the last of the same size and none empty, and
    completed; when it fails after creating a multipart upload, the last call
    aborts it, and the PUT or the completion was attempted only for bytes that
    hash to the OID. *)
Theorem s3_put_protocol {L : S3Laws (client s) objs part} c ep oid rd size w r w' :
  s3_put s c ep oid rd size w = (r, w') →
  ∃ calls, snd w' = snd w ++ calls
    ∧ match r with
      | Ok _ => ∃ o data, normalise_oid oid = Ok o ∧ content_oid data = o
          ∧ put_calls_ok s c (key_of s (endpoint ep) o) data w calls
      | Err _ => calls = []
          ∨ ∃ o, normalise_oid oid = Ok o ∧ put_calls_err s c (key_of s (endpoint ep) o) o w calls
      end.
Proof.
  intros H. apply (s3_put_outcome s objs part) in H.
  destruct (object_key s ep oid) as [k|e] eqn:Ek.
  2: { destruct H as [-> ->]. exists []. rewrite app_nil_r. eauto. }
  apply object_key_ok in Ek as (o & Ho & ->). destruct H as (o' & Ho' & [Hok Herr]).
  rewrite Ho in Ho'. injection Ho' as <-. destruct r as [[]|e].
  - destruct (Hok eq_refl) as (data & calls & ? & ? & ? & ? & ?). eauto 10.
  - destruct (Herr e eq_refl) as (calls & ? & ? & _). eauto 10.
Qed.

(** Against a service whose calls succeed, an upload of the bytes the OID
    names is accepted, and its multipart loop ends: for any known size up to the
    10,000 parts of 5 GiB the limits allow, and for a stream of unknown length
    up to 10,000 parts of the stream part size. *)
Theorem s3_put_progress {L : S3Laws (client s) objs part} {Up : S3Up (client s) part}
    c ep oid o rd size data w :
  normalise_oid oid = Ok o → put_takes rd size data → content_oid data = o →
  Z.of_nat (length data) <= s3_max_parts
    * (if size <? 0 then Z.max (stream_part_size s) s3_part_size else s3_max_part_size) →
  ∃ w', s3_put_fueled s c ep oid rd size w = Some (Ok tt, w').
Proof.
  intros Ho Ht Hc Hl. destruct (s3_put_succeeds s objs part c ep oid o rd size data w Ho Ht Hc Hl)
    as [w' E]. exists w'. by rewrite s3_put_total, E.
Qed.

(** Two uploads share a key of the bucket only when their endpoints have the
    same storage directory and their OIDs are the same digest. *)
Theorem s3_key_injective ep oid ep' oid' k :
  object_key s ep oid = Ok k → object_key s ep' oid' = Ok k →
  endpoint ep = endpoint ep' ∧ map lower_byte oid = map lower_byte oid'.
Proof.
  intros (o & Ho & ->)%object_key_ok (o' & Ho' & H)%object_key_ok.
  apply key_of_inj in H as [-> <-]; try by eapply normalise_oid_normal.
  apply normalise_oid_ok in Ho as [_ ->], Ho' as [_ ->]. done.
Qed.

(** C13. A presigned upload URL binds the upload: the presigner was asked for the
    object's own key, exactly the announced size, at most 5 GiB, and the checksum
    whose bytes only contents with this OID have; and the headers handed to the
    client never set [Host] or [Content-Length]. *)
Theorem s3_presign_put_binds (p : S3Presigner W) c ep oid size exp w url headers w' :
  s3_presign_put s p c ep oid size exp w = (Ok (url, headers), w') →
  ∃ o digest signed v,
    normalise_oid oid = Ok o ∧ hex_encode digest = o ∧ size <= s3_max_put_size
    ∧ presign_put_object p c (bucket s) (key_of s (endpoint ep) o) size (b64_std_encode digest) exp (fst w)
      = (Ok (url, signed), v)
    ∧ w' = (v, snd w)
    ∧ (∀ data, sha256 data = digest ↔ content_oid data = o)
    ∧ headers !! "Host"%go = None ∧ headers !! "Content-Length"%go = None
    ∧ ∀ h x, headers !! h = Some x → ∃ xs, signed !! h = Some (x :: xs).
Proof.
  unfold s3_presign_put. destruct (object_key s ep oid) as [k|e] eqn:Ek; [|done].
  apply object_key_ok in Ek as (o & Ho & ->). destruct (Z.ltb_spec s3_max_put_size size); [done|].
  destruct (hex_decode oid) as [digest|] eqn:Ed; [|done]. unfold silent.
  destruct (presign_put_object _ _ _ _ _ _ _ (fst w)) as [[[u signed]|e] v] eqn:Ep; [|done].
  intros [= <- <- <-]. pose proof Ho as [_ Hlow]%normalise_oid_ok. apply hex_encode_decode in Ed.
  exists o, digest, signed, v. rewrite Hlow.
  split; [by rewrite <-Hlow|]. split; [done|]. split; [done|]. split; [by rewrite <-Hlow|].
  split; [done|]. split.
  { intros data. rewrite <-Ed. unfold content_oid. split; [by intros ->|].
    intros H1. apply (f_equal hex_decode) in H1. rewrite !hex_decode_encode in H1. congruence. }
  assert (∀ h x, upload_headers signed !! h = Some x →
    h ≠ "Host"%go ∧ h ≠ "Content-Length"%go ∧ ∃ xs, signed !! h = Some (x :: xs)) as Hh.
  { intros h x. unfold upload_headers. rewrite lookup_omap, bind_Some.
    intros (l & [Hl [? ?]]%map_lookup_filter_Some & Hx). destruct l as [|y l]; [done|].
    injection Hx as ->. eauto. }
  split; [|split].
  - destruct (upload_headers signed !! "Host"%go) eqn:E; [|done]. by apply Hh in E as [? _].
  - destruct (upload_headers signed !! "Content-Length"%go) eqn:E; [|done]. by apply Hh in E as (_ & ? & _).
  - intros h x E. by apply Hh in E as (_ & _ & ?).
Qed.

(** The part size chosen for an upload is between 8 MiB and 5 GiB, and for
    every size S3 can hold it fits the upload into 10,000 parts. *)
Theorem part_size_for_fits size :
  8 * 2 ^ 20 <= part_size_for size <= 5 * 2 ^ 30
  ∧ (0 <= size <= 10000 * (5 * 2 ^ 30) → size <= 10000 * part_size_for size).
Proof.
  pose proof (part_size_for_bounds size) as [H1 H2].
  unfold s3_part_size, s3_max_part_size, s3_max_parts in *. split; [lia|]. intros H. apply H2. lia.
Qed.
End Properties.

(** ** Witnesses *)

#[local] Instance mem_s3_up : S3Up mem_s3_api mem_part.
Proof.
  split; intros; simpl; eauto. rewrite (join_parts_listed _ _ _ _ H). eauto.
Qed.

Local Abbreviation sample_s3_put :=
  (@s3_put sample_unicode mem_s3 sample_s3 None "/org/repo" (content_oid "abc") s3_sample_reader 3 sample_s3_world).

Lemma s3_put_safe_witness : ∃ o data, content_oid data = o
  ∧ mem_objs (fst (snd sample_s3_put)) (bucket sample_s3) (key_of sample_s3 (endpoint "/org/repo") o)
    = Some data.
Proof.
  assert (is_ok (fst sample_s3_put) = true) as Hr by (vm_compute; reflexivity).
  destruct sample_s3_put as [r w'] eqn:E.
  pose proof (@s3_put_safe sample_unicode mem_s3 sample_s3 mem_objs mem_part mem_s3_laws None "/org/repo"
    (content_oid "abc") s3_sample_reader 3 sample_s3_world r w' E) as H.
  destruct r as [[]|e]; [|discriminate Hr]. destruct H as (o & data & _ & _ & Hc & [Hst _]).
  exists o, data. split; [exact Hc|exact Hst].
Defined.

Lemma s3_put_protocol_witness :
  ∃ o data, put_calls_ok sample_s3 None (key_of sample_s3 (endpoint "/org/repo") o) data sample_s3_world (snd (snd sample_s3_put)).
Proof.
  assert (is_ok (fst sample_s3_put) = true) as Hr by (vm_compute; reflexivity).
  destruct sample_s3_put as [r w'] eqn:E.
  pose proof (@s3_put_protocol sample_unicode mem_s3 sample_s3 mem_objs mem_part mem_s3_laws None "/org/repo"
    (content_oid "abc") s3_sample_reader 3 sample_s3_world r w' E) as H.
  destruct r as [[]|e]; [|discriminate Hr]. destruct H as (calls & Hcalls & o & data & _ & _ & H).
  exists o, data. cbn [fst snd sample_s3_world app] in *. rewrite Hcalls. exact H.
Defined.

Lemma s3_put_progress_witness : ∃ w',
  @s3_put_fueled sample_unicode mem_s3 sample_s3 None "/org/repo" (content_oid "abc") s3_sample_reader 3
    sample_s3_world = Some (Ok tt, w').
Proof.
  apply (@s3_put_progress sample_unicode mem_s3 sample_s3 mem_objs mem_part mem_s3_laws mem_s3_up None
    "/org/repo" (content_oid "abc") (content_oid "abc") s3_sample_reader 3 "abc").
  - vm_compute. reflexivity.
  - split; [exists []; reflexivity|split; [reflexivity|lia]].
  - reflexivity.
  - vm_compute. discriminate.
Defined.

Lemma s3_key_injective_witness : endpoint "/org/repo" = endpoint "org_repo".
Proof.
  apply (@s3_key_injective sample_unicode mem_s3 sample_s3 "/org/repo" (content_oid "abc") "org_repo"
    (content_oid "abc") (key_of sample_s3 "org_repo" (content_oid "abc"))); vm_compute; reflexivity.
Defined.

(** A presigner whose URLs are the keys, signing three headers. *)
Definition sample_presigner : S3Presigner mem_s3 := {|
  presign_get_object _ _ k _ m := (Ok k, m);
  presign_put_object _ _ k _ sum _ m :=
    (Ok (k, {[ "Host"%go := ["s3"%go]; "X-Amz-Checksum-Sha256"%go := [sum] ]}), m)
|}.

Local Abbreviation sample_presign :=
  (@s3_presign_put sample_unicode mem_s3 sample_s3 sample_presigner None "/org/repo" (content_oid "abc") 3 60
    sample_s3_world).

Lemma s3_presign_put_binds_witness :
  ∃ url headers, fst sample_presign = Ok (url, headers) ∧ headers !! "Host"%go = None.
Proof.
  assert (is_ok (fst sample_presign) = true) as Hr by (vm_compute; reflexivity).
  destruct sample_presign as [[[url headers]|e] w'] eqn:E; [|discriminate Hr].
  exists url, headers. split; [reflexivity|].
    destruct (@s3_presign_put_binds sample_unicode mem_s3 sample_s3 sample_presigner None "/org/repo"
      (content_oid "abc") 3 60 sample_s3_world url headers w' E)
      as (o & digest & signed & v & _ & _ & _ & _ & _ & _ & H & _).
  exact H.
Defined.
