(* ===== verification/TempFiles.v ===== *)
(** * storage/tempfiles.go: sweeping stale temporary files

    [remove_stale_temp_files] walks a directory tree as [fs.WalkDir] does and
    removes the temporary files that are old enough and not in use.  The tree
    is what the calls of the walk return: each directory with the outcome of
    reading it, each file with the outcomes of [Info] and [Remove]. *)

From S2P Require Import Prelude GoStrings GoUnicode GoPath GoConv GoTime GoOs Sanitise Storage Local.

Local Open Scope go_scope.

(** ** The walk *)

(** A directory entry and everything the walk can learn about it. *)
#[warnings="-register-all"]
Inductive entry : Type :=
| EFile (name : gostring) (regular : bool) (info : result go_error Z) (rm : option go_error)
| EDir (name : gostring) (read_err : option go_error) (entries : list entry).

Definition entry_name (e : entry) : gostring :=
  match e with EFile n _ _ _ => n | EDir n _ _ => n end.
Definition entry_is_dir (e : entry) : bool :=
  match e with EFile _ _ _ _ => false | EDir _ _ _ => true end.

(** [path.Join(dir, name)] for a valid [fs] path and an entry name. *)
Definition child_path (dir name : gostring) : gostring :=
  if is_dot dir then name else dir ++ "/" ++ name.

(** [isShardDir] *)
Definition is_shard_dir (path : gostring) : bool :=
  match cut_at slash path with
  | None => false
  | Some (ep, shard) =>
      negb (str_eqb ep "locks") && (length shard =? 2)%nat && negb (contains_byte slash shard)
  end.

(** What the walk accumulates, and what its callback returns. *)
Record sweep := { removed : list gostring; problems : list go_error }.
Inductive verdict : Type := Next | SkipDir | Stop (e : go_error).

Definition add_problem (e : go_error) (s : sweep) : sweep :=
  {| removed := removed s; problems := problems s ++ [e] |}.
Definition add_removed (p : gostring) (s : sweep) : sweep :=
  {| removed := removed s ++ [p]; problems := problems s |}.

Section Sweep.
Variables (cutoff : Z) (in_use : option (gostring → bool)) (skip_shards : bool).

Definition used (path : gostring) : bool :=
  match in_use with Some f => f path | None => false end.

(** The callback given to [fs.WalkDir]. *)
Definition visit (path : gostring) (e : entry) (err : option go_error) (s : sweep)
  : sweep * verdict :=
  match err with
  | Some x =>
      if is_dot path then (s, Stop x)
      else (if negb (errors_is Permission x) then add_problem x s else s, SkipDir)
  | None =>
      if skip_shards && entry_is_dir e && is_shard_dir path then (s, SkipDir)
      else
        match e with
        | EDir _ _ _ => (s, Next)
        | EFile name regular info rm =>
            if negb regular || negb (has_prefix temp_file_prefix name) then (s, Next)
            else if used path then (s, Next)
            else
              match info with
              | Err x => (if errors_is NotExist x then s else add_problem x s, Next)
              | Ok mtime =>
                  if cutoff <? mtime then (s, Next)
                  else
                    match rm with
                    | Some x => (if errors_is NotExist x then s else add_problem x s, Next)
                    | None => (add_removed path s, Next)
                    end
              end
        end
  end.

(** [fs.WalkDir]'s recursion: the callback, then the entries of a directory,
    with a second callback when it cannot be read. *)
Fixpoint walk (path : gostring) (e : entry) (s : sweep) : sweep * verdict :=
  let '(s, v) := visit path e None s in
  match e with
  | EFile _ _ _ _ => (s, v)
  | EDir _ read_err entries =>
      let walk_entries :=
        (fix walk_entries (l : list entry) (s : sweep) : sweep * verdict :=
           match l with
           | [] => (s, Next)
           | c :: l =>
               match walk (child_path path (entry_name c)) c s with
               | (s, Next) => walk_entries l s
               | (s, SkipDir) => (s, Next)
               | (s, Stop x) => (s, Stop x)
               end
           end) in
      match v with
      | SkipDir => (s, Next)
      | Stop x => (s, Stop x)
      | Next =>
          match read_err with
          | None => walk_entries entries s
          | Some x =>
              match visit path e (Some x) s with
              | (s, Next) => walk_entries entries s
              | (s, SkipDir) => (s, Next)
              | (s, Stop y) => (s, Stop y)
              end
          end
      end
  end.
End Sweep.

(** [RemoveStaleTempFiles]: the paths removed, whose number it returns, and the
    joined error.  [root] is the outcome of [os.OpenRoot] and of the first
    [Stat]; [now] is the clock. *)
Definition remove_stale_temp_files (opened : option go_error) (root : result go_error entry)
    (now older_than : Z) (in_use : option (gostring → bool)) (skip_shards : bool)
  : list gostring * option go_error :=
  match opened with
  | Some e => ([], Some e)
  | None =>
      let cutoff := now - older_than in
      let start := {| removed := []; problems := [] |} in
      let '(s, v) :=
        match root with
        | Err e => visit cutoff in_use skip_shards "." (EDir "." None []) (Some e) start
        | Ok e => walk cutoff in_use skip_shards "." e start
        end in
      match problems s, v with
      | [], (Next | SkipDir) => (removed s, None)
      | ps, (Next | SkipDir) => (removed s, Some (concat ps))
      | ps, Stop e => (removed s, Some (concat ps ++ e))
      end
  end.

(** ** What the walk reaches *)

Lemma entry_induction (P : entry → Prop) :
  (∀ n r i m, P (EFile n r i m)) → (∀ n x es, Forall P es → P (EDir n x es)) → ∀ e, P e.
Proof.
  intros Hf Hd. fix IH 1. intros [n r i m|n x es]; [apply Hf|]. apply Hd.
  induction es as [|c es IHes]; constructor; [apply IH|exact IHes].
Qed.

(** Entry names are path elements. *)
Fixpoint entry_ok (e : entry) : bool :=
  plain_elem (entry_name e) && negb (contains_byte slash (entry_name e))
  && match e with EDir _ _ es => forallb entry_ok es | EFile _ _ _ _ => true end.

(** [below skip p e q f]: walking [e] at path [p] reaches [f] at path [q],
    through readable directories that are not skipped. *)
Inductive below (skip : bool) : gostring → entry → gostring → entry → Prop :=
| below_here p e : below skip p e p e
| below_child p n es c q f :
    skip && is_shard_dir p = false → c ∈ es →
    below skip (child_path p (entry_name c)) c q f →
    below skip p (EDir n None es) q f.

(** A regular temporary file that is old, unused, and can be removed. *)
Definition sweepable (cutoff : Z) (in_use : option (gostring → bool)) (q : gostring) (f : entry)
  : bool :=
  match f with
  | EFile name true (Ok mtime) None =>
      has_prefix temp_file_prefix name && negb (used in_use q) && (mtime <=? cutoff)
  | _ => false
  end.

Lemma child_path_not_dot p n :
  plain_elem n = true → child_path p n ≠ "." .
Proof.
  intros Hn. apply plain_elem_true in Hn as (Hne & Hd & _). unfold child_path.
  destruct (is_dot p) eqn:E; [done|]. unfold is_dot in E. apply str_eqb_neq in E.
  destruct p as [|c [|c' p]]; simpl; intros [=].
Qed.

Section Removed.
Variables (cutoff : Z) (in_use : option (gostring → bool)) (skip : bool).

(** The loop over a directory's entries. *)
Fixpoint walk_list (path : gostring) (l : list entry) (s : sweep) : sweep * verdict :=
  match l with
  | [] => (s, Next)
  | c :: l =>
      match walk cutoff in_use skip (child_path path (entry_name c)) c s with
      | (s, Next) => walk_list path l s
      | (s, SkipDir) => (s, Next)
      | (s, Stop x) => (s, Stop x)
      end
  end.

(** Everything removed from [s] to [s'] below a walked entry. *)
Definition grows (s s' : sweep) (reach : gostring → entry → Prop) : Prop :=
  ∀ q, q ∈ removed s' ↔
    q ∈ removed s ∨ ∃ f, reach q f ∧ sweepable cutoff in_use q f = true.

Lemma grows_none s reach :
  (∀ q f, reach q f → sweepable cutoff in_use q f = false) → grows s s reach.
Proof. intros H q. split; [by left|]. intros [?|(f & Hr & Hs)]; [done|]. by rewrite H in Hs. Qed.

Lemma below_file q f p n r i m : below skip p (EFile n r i m) q f → q = p ∧ f = EFile n r i m.
Proof. by inversion 1. Qed.

Lemma removed_problem e s : removed (add_problem e s) = removed s.
Proof. done. Qed.

Lemma visit_file p n r i m s : ∃ s',
  visit cutoff in_use skip p (EFile n r i m) None s = (s', Next)
  ∧ grows s s' (below skip p (EFile n r i m)).
Proof.
  assert (∀ s', removed s' = removed s →
    sweepable cutoff in_use p (EFile n r i m) = false →
    grows s s' (below skip p (EFile n r i m))) as Hno.
  { intros s' Hs Hf q. rewrite Hs. apply grows_none. intros q' f [-> ->]%below_file. done. }
  unfold visit. rewrite andb_false_r. cbn [andb].
  destruct r; cbn [negb orb]; [|eexists; split; [done|by apply Hno]].
  destruct (has_prefix temp_file_prefix n) eqn:Hp; cbn [negb orb];
    [|eexists; split; [done|apply Hno; [done|by (destruct i, m; cbn [sweepable]; rewrite ?Hp)]]].
  destruct (used in_use p) eqn:Hu;
    [eexists; split; [done|apply Hno; [done|by (destruct i, m; cbn [sweepable]; rewrite ?Hp, ?Hu)]]|].
  destruct i as [t|x];
    [|eexists; split; [done|apply Hno; [by destruct (errors_is _ _)|done]]].
  rewrite Z.ltb_antisym. destruct (t <=? cutoff) eqn:Ht; cbn [negb];
    [|eexists; split; [done|apply Hno; [done|by (destruct m; cbn [sweepable]; rewrite ?Hp, ?Hu, ?Ht)]]].
  destruct m as [x|];
    [eexists; split; [done|apply Hno; [by destruct (errors_is _ _)|done]]|].
  eexists; split; [done|]. intros q. simpl. rewrite elem_of_app, list_elem_of_singleton.
  split; (intros [?| H]; [by left|right]).
  - subst q. eexists. split; [constructor|]. cbn [sweepable]. by rewrite Hp, Hu, Ht.
  - destruct H as (f & [-> _]%below_file & _). done.
Qed.

Lemma walk_list_grows p es s :
  Forall (λ e, ∀ path s, path ≠ "." → entry_ok e = true → ∃ s',
    walk cutoff in_use skip path e s = (s', Next) ∧ grows s s' (below skip path e)) es →
  forallb entry_ok es = true →
  ∃ s', walk_list p es s = (s', Next)
    ∧ grows s s' (λ q f, ∃ c, c ∈ es ∧ below skip (child_path p (entry_name c)) c q f).
Proof.
  intros Hes. revert s. induction Hes as [|c es Hc Hes IH]; intros s Hok.
  - eexists; split; [done|]. apply grows_none. intros q f (c & Hc & _). by apply elem_of_nil in Hc.
  - cbn [forallb] in Hok. apply andb_prop in Hok as [Hcok Hok]. cbn [walk_list].
    destruct (Hc (child_path p (entry_name c)) s) as (s1 & -> & H1); [|done|].
    { apply child_path_not_dot. destruct c; cbn [entry_ok entry_name] in *; by to_prop. }
    destruct (IH s1 Hok) as (s2 & -> & H2). eexists; split; [done|]. intros q.
    rewrite (H2 q), (H1 q). clear -q. setoid_rewrite elem_of_cons.
    split.
    + intros [[?|(f & Hr & Hs)]|(f & (c' & Hc & Hb) & Hs)]; [by left|right|right]; eauto 8.
    + intros [?|(f & (c' & [->|Hc] & Hb) & Hs)]; [by left; left|left; right|right]; eauto 8.
Qed.

Lemma walk_dir_entries p n es s :
  skip && is_shard_dir p = false →
  walk cutoff in_use skip p (EDir n None es) s = walk_list p es s.
Proof.
  intros Hsk. cbn [walk]. unfold visit. cbn [entry_is_dir]. rewrite andb_true_r, Hsk.
  revert s. induction es as [|c es IH]; intros s; [done|]. cbn [walk_list].
  destruct (walk _ _ _ _ c s) as [s1 []]; [|done|done]. apply IH.
Qed.

Lemma walk_grows e path s :
  path ≠ "." → entry_ok e = true → ∃ s',
    walk cutoff in_use skip path e s = (s', Next) ∧ grows s s' (below skip path e).
Proof.
  revert path s. induction e as [n r i m|n x es IH] using entry_induction;
    intros path s Hne Hok.
  { destruct (visit_file path n r i m s) as (s' & Hv & Hg). exists s'. cbn [walk]. by rewrite Hv. }
  cbn [entry_ok] in Hok. apply andb_prop in Hok as [_ Hok].
  assert (∀ s', (x ≠ None ∨ skip && is_shard_dir path = true) → removed s' = removed s →
    grows s s' (below skip path (EDir n x es))) as Hno.
  { intros s' Hx Hs q. rewrite Hs. apply grows_none. intros q' f Hb.
    inversion Hb; subst; [done|]. destruct Hx as [|Hx]; [done|congruence]. }
  destruct (skip && is_shard_dir path) eqn:Hsk.
  { exists s. split; [|apply Hno; auto]. cbn [walk]. unfold visit. cbn [entry_is_dir].
    by rewrite andb_true_r, Hsk. }
  destruct x as [x|].
  - cbn [walk]. unfold visit at 1. cbn [entry_is_dir]. rewrite andb_true_r, Hsk.
    unfold visit. unfold is_dot. rewrite (proj2 (str_eqb_neq _ _) Hne).
    eexists; split; [done|]. apply Hno; [by left|]. by destruct (negb _).
  - rewrite walk_dir_entries by done.
    destruct (walk_list_grows path es s IH Hok) as (s' & -> & Hg). exists s'. split; [done|].
    intros q. rewrite (Hg q). apply or_iff_compat_l. split.
    + intros (f & (c & Hc & Hb) & Hs). exists f. split; [|done]. by eapply below_child.
    + intros (f & Hb & Hs). exists f. split; [|done]. inversion Hb; subst; [done|]. eauto.
Qed.
End Removed.

Lemma below_path skip p e q f : below skip p e q f →
  (q = p ∧ f = e) ∨ q = entry_name f ∨ ∃ p', q = p' ++ slash :: entry_name f.
Proof.
  induction 1 as [|p n es c q f _ _ _ IH]; [by left|].
  destruct IH as [[-> ->]|IH]; [|by right]. right. unfold child_path.
  destruct (is_dot p); [by left|]. right. by exists p.
Qed.

Lemma below_ok skip p e q f : below skip p e q f → entry_ok e = true → entry_ok f = true.
Proof.
  induction 1 as [|p n es c q f _ Hc _ IH]; [done|]. intros Hok. apply IH. cbn [entry_ok] in Hok.
  apply andb_prop in Hok as [_ Hok]. apply forallb_Forall in Hok. rewrite Forall_forall in Hok.
  by apply Hok.
Qed.

(** What is reached below the root: the root, or an entry whose name is the
    last element of its path. *)
Lemma below_root skip x es q f :
  forallb entry_ok es = true → below skip "." (EDir "." x es) q f →
  q = "." ∨ ((slash ∉ entry_name f) ∧ (q = entry_name f ∨ ∃ p', q = p' ++ slash :: entry_name f)).
Proof.
  intros Hok Hb. apply below_path in Hb as Hp. destruct Hp as [[-> _]|Hp]; [by left|].
  inversion Hb; subst; [by left|]. right. split; [|done].
  assert (entry_ok f = true) as Hf.
  { eapply below_ok; [done|]. apply forallb_Forall in Hok. rewrite Forall_forall in Hok.
    by apply Hok. }
  apply contains_byte_false. destruct f; cbn [entry_ok entry_name] in *; by to_prop.
Qed.

Lemma last_elem_inj x y (a b : gostring) : slash ∉ a → slash ∉ b →
  x ++ slash :: a = y ++ slash :: b → a = b.
Proof.
  intros Ha Hb H%(f_equal (@rev _)). rewrite !rev_app_distr in H. simpl in H.
  rewrite <-!app_assoc in H. simpl in H.
  assert (Some (rev a, rev x) = Some (rev b, rev y)) as E.
  { rewrite <-(cut_at_app slash (rev a)), H, cut_at_app; [done|..];
      by rewrite list_elem_of_In, <-in_rev, <-list_elem_of_In. }
  injection E as E _. apply (f_equal (@rev _)) in E. by rewrite !rev_involutive in E.
Qed.

(** The whole walk from the root directory. *)
Lemma sweep_root x es now age in_use skip rm err :
  forallb entry_ok es = true →
  remove_stale_temp_files None (Ok (EDir "." x es)) now age in_use skip = (rm, err) →
  ∀ q, q ∈ rm ↔ ∃ f, below skip "." (EDir "." x es) q f
    ∧ sweepable (now - age) in_use q f = true.
Proof.
  intros Hok H. unfold remove_stale_temp_files in H.
  set (start := {| removed := []; problems := [] |}) in H.
  assert (skip && is_shard_dir "." = false) as Hsk by apply andb_false_r.
  assert (∀ s v, (match problems s with
      | [] => match v with Stop e => (removed s, Some (concat (problems s) ++ e)) | _ => (removed s, None) end
      | _ => match v with Stop e => (removed s, Some (concat (problems s) ++ e))
                     | _ => (removed s, Some (concat (problems s))) end
      end) = (rm, err) → rm = removed s) as Hrm.
  { intros s v. by destruct (problems s), v; intros [= <- _]. }
  destruct x as [x|].
  - assert (walk (now - age) in_use skip "." (EDir "." (Some x) es) start = (start, Stop x)) as E.
    { cbn [walk]. unfold visit at 1. cbn [entry_is_dir]. by rewrite andb_true_r, Hsk. }
    rewrite E in H. simpl in H. injection H as <- _. intros q. split; [by intros ?%elem_of_nil|].
    intros (f & Hb & Hs). inversion Hb; subst. done.
  - rewrite walk_dir_entries in H by done.
    destruct (walk_list_grows (now - age) in_use skip "." es start) as (s' & E & Hg); [|done|].
    { apply Forall_forall. intros e _ path s. apply walk_grows. }
    rewrite E in H. assert (rm = removed s') as ->.
    { apply (Hrm s' Next). rewrite <-H. by destruct (problems s'). }
    intros q. rewrite (Hg q). split.
    + intros [?%elem_of_nil|(f & (c & Hc & Hb) & Hs)]; [done|]. exists f. split; [|done].
      by eapply below_child.
    + intros (f & Hb & Hs). right. exists f. split; [|done]. inversion Hb; subst; [done|]. eauto.
Qed.

(** ** Properties *)

(** C37. The sweep removes exactly the regular files named [.tmp-*] that it
    reaches, that are not in use, that were last modified no later than [age]
    ago and whose information and removal succeed: reaching means through
    readable directories and, when shards are skipped, outside them. *)
Theorem sweep_exact x es now age in_use skip rm err :
  forallb entry_ok es = true →
  remove_stale_temp_files None (Ok (EDir "." x es)) now age in_use skip = (rm, err) →
  ∀ q, q ∈ rm ↔ ∃ name mtime,
    below skip "." (EDir "." x es) q (EFile name true (Ok mtime) None)
    ∧ has_prefix temp_file_prefix name = true ∧ used in_use q = false ∧ mtime <= now - age.
Proof.
  intros Hok H q. rewrite (sweep_root _ _ _ _ _ _ _ _ Hok H). split.
  - intros (f & Hb & Hs). destruct f as [n [] [t|] []|]; try done. cbn [sweepable] in Hs.
    to_prop. eauto 8.
  - intros (n & t & Hb & Hp & Hu & Ht). eexists. split; [exact Hb|]. cbn [sweepable].
    rewrite Hp, Hu. simpl. by apply Z.leb_le.
Qed.

(** A sweep during an upload, told what [Local.Writing] says, spares the
    upload's temporary file however old it is, and no sweep ever removes a
    stored object. *)
Theorem sweep_spares_live l ep nm x es now age skip rm err :
  digits_name nm = true → forallb entry_ok es = true →
  let tmp := temp_path (base_path l) (endpoint ep) nm in
  let uploading := track (track_key l tmp) l in
  remove_stale_temp_files None (Ok (EDir "." x es)) now age (Some (is_writing uploading)) skip
    = (rm, err) →
  (endpoint ep ++ "/" ++ upload_temp_dir ++ "/" ++ temp_file_prefix ++ nm ∉ rm)
  ∧ ∀ d o, normal_oid o →
      join "/" [d; take 2 o; take 2 (drop 2 o); o] ∉ rm.
Proof.
  cbv zeta. intros Hnm Hok H. pose proof (sweep_root _ _ _ _ _ _ _ _ Hok H) as Hex.
  assert (∀ q f, sweepable (now - age) (Some (is_writing
      (track (track_key l (temp_path (base_path l) (endpoint ep) nm)) l))) q f = true →
    has_prefix temp_file_prefix (entry_name f) = true ∧ is_writing
      (track (track_key l (temp_path (base_path l) (endpoint ep) nm)) l) q = false) as Hsw.
  { intros q f Hs. destruct f as [n [] [t|] []|]; try done. cbn [sweepable used] in Hs.
    by to_prop. }
  split.
  - intros Hin. apply Hex in Hin as (f & _ & Hs). apply Hsw in Hs as [_ Hu].
    rewrite track_key_temp in Hu by auto with go. unfold is_writing in Hu. to_prop.
    apply Hu. simpl. set_solver.
  - intros d o Ho Hin. apply Hex in Hin as (f & Hb & Hs). apply Hsw in Hs as [Hp _].
    apply has_prefix_spec in Hp as [r Hr].
    destruct (normal_oid_safe o Ho) as [Hl Hsafe].
    destruct (safe_bytes_plain o) as [_ Hosl]; [by destruct o|done|].
    assert (join "/" [d; take 2 o; take 2 (drop 2 o); o]
      = (d ++ "/" ++ take 2 o ++ "/" ++ take 2 (drop 2 o)) ++ slash :: o) as Hj.
    { simpl. rewrite <-!app_assoc. simpl. by rewrite <-!app_assoc. }
    rewrite Hj in Hb. apply below_root in Hb as [Hq|(Hsl & Hq)]; [| |done].
    + destruct o as [|? o]; [done|]. destruct (d ++ _) as [|? [|? ?]]; simpl in Hq; congruence.
    + assert (entry_name f = o) as E.
      { destruct Hq as [Hq|[p' Hq]]; [|by eapply last_elem_inj].
        destruct Hsl. rewrite <-Hq. apply elem_of_app. right. by left. }
      rewrite E in Hr. destruct o as [|c o]; [done|]. injection Hr as -> _.
      by inversion_clear Hsafe.
Qed.

(** ** Witnesses *)

(** A data directory with an upload in progress, a stale temporary file of the
    same endpoint, an object, and a directory that cannot be read. *)
Definition sample_tree : list entry :=
  [ EDir "org_repo" None
      [ EDir ".tmp" None
          [ EFile ".tmp-1" true (Ok 5) None; EFile ".tmp-2" true (Ok 5) None ];
        EDir "ba" None [EFile ".tmp-9" true (Ok 5) None] ];
    EDir "locked" (Some [Permission]) [EFile ".tmp-3" true (Ok 5) None] ].

Lemma sweep_exact_witness :
  ∃ err, remove_stale_temp_files None (Ok (EDir "." None sample_tree)) (25 * hour) (24 * hour)
      None true = (["org_repo/.tmp/.tmp-1"; "org_repo/.tmp/.tmp-2"], err)
    ∧ ∃ name mtime, below true "." (EDir "." None sample_tree) "org_repo/.tmp/.tmp-2"
        (EFile name true (Ok mtime) None) ∧ has_prefix temp_file_prefix name = true.
Proof.
  exists None. split; [vm_compute; reflexivity|].
  destruct (sweep_exact None sample_tree (25 * hour) (24 * hour) None true
    ["org_repo/.tmp/.tmp-1"; "org_repo/.tmp/.tmp-2"]%go None) with (q := "org_repo/.tmp/.tmp-2"%go)
    as [H _].
  - vm_compute. reflexivity.
  - vm_compute. reflexivity.
  - destruct H as (n & t & Hb & Hp & _); [right; left|]. exists n, t. split; [exact Hb|exact Hp].
Defined.

Lemma sweep_spares_live_witness :
  let l := new_local "/data" in
  let tmp := temp_path "/data" (endpoint "/org/repo") "1" in
  remove_stale_temp_files None (Ok (EDir "." None sample_tree)) (25 * hour) (24 * hour)
    (Some (is_writing (track (track_key l tmp) l))) true = (["org_repo/.tmp/.tmp-2"%go], None)
  ∧ (("org_repo/.tmp/.tmp-1"%go : gostring) ∉ ["org_repo/.tmp/.tmp-2"%go]).
Proof.
  cbv zeta.
  assert (remove_stale_temp_files None (Ok (EDir "." None sample_tree)) (25 * hour) (24 * hour)
    (Some (is_writing (track (track_key (new_local "/data")
      (temp_path "/data" (endpoint "/org/repo") "1")) (new_local "/data")))) true
    = (["org_repo/.tmp/.tmp-2"%go], None)) as E by (vm_compute; reflexivity).
  split; [exact E|].
  destruct (sweep_spares_live (new_local "/data") "/org/repo" "1" None sample_tree
    (25 * hour) (24 * hour) true ["org_repo/.tmp/.tmp-2"%go] None) as [H _];
    [reflexivity|reflexivity|exact E|].
  change (endpoint "/org/repo") with ("org_repo"%go : gostring) in H. exact H.
Defined.
