(* ===== verification/Signer.v ===== *)
(** * lfs/signer.go: signed, expiring URLs

    [URLSigner] signs a target URL for one operation until an expiry second and
    checks such URLs.  The readings of the clock and of the random source are
    arguments.  The theorems: what is signed verifies until it expires, what
    verifies was signed, and the signed message determines its three parts. *)

From S2P Require Import Prelude GoStrings GoConv GoHash GoTime GoUrl GoOs.

Local Open Scope go_scope.

(** [URLSigner] *)
Record URLSigner := { key : gostring; expiry : Z }.

(** [SignedURL] *)
Record SignedURL := { href : gostring; expires_in : Z; expires_at : gostring }.

(** The errors of [Verify], one per message. *)
Inductive verify_error : Type :=
| MalformedURL | MalformedQuery | MissingSignature | UnexpectedParameters
| InvalidExpiration | Expired | InvalidEncoding | InvalidSignature.

(** [Close] *)
Definition close_signer (s : URLSigner) : URLSigner :=
  {| key := replicate (length (key s)) (byte_of 0); expiry := expiry s |}.

(** [NewURLSigner]; [random] is what [rand.Read] puts in the 32-byte key. *)
Definition new_url_signer (k : gostring) (exp : Z) (random : result go_error gostring)
  : result go_error URLSigner :=
  match k with
  | [] => let? r := random in Ok {| key := r; expiry := exp |}
  | _ => Ok {| key := k; expiry := exp |}
  end.

(** [signatureVersion] *)
Definition signature_version : gostring := "v1".

(** The message [mac] authenticates. *)
Definition nl : ascii := "010"%char.
Definition message (operation target exp : gostring) : gostring :=
  signature_version ++ [nl] ++ operation ++ [nl] ++ target ++ [nl] ++ exp.

(** [mac] *)
Definition mac (s : URLSigner) (operation target exp : gostring) : gostring :=
  hmac_sha256 (key s) (message operation target exp).

(** [Sign], at time [now] *)
Definition sign (s : URLSigner) (now : Z) (operation base_url path : gostring) : SignedURL :=
  let expires := now + expiry s in
  let exp := format_int (unix_seconds expires) in
  let sig := b64_encode url_alphabet (mac s operation (base_url ++ path) exp) in
  {| href := base_url ++ path ++ "?exp=" ++ exp ++ "&sig=" ++ sig;
     expires_in := duration_seconds (expiry s);
     expires_at := format_rfc3339 expires |}.

(** [Verify], at time [now] *)
Definition verify (s : URLSigner) (now : Z) (operation base_url request_uri : gostring)
  : result verify_error unit :=
  match parse_request_uri request_uri with
  | None => Err MalformedURL
  | Some (path, raw_query) =>
      let '(q, ok) := parse_query raw_query in
      if negb ok then Err MalformedQuery
      else
        let sig := query_get "sig" q in
        let exp_str := query_get "exp" q in
        if str_eqb sig [] || str_eqb exp_str [] then Err MissingSignature
        else if negb (query_keys q =? 2)%nat || negb (length (query_values "sig" q) =? 1)%nat
                || negb (length (query_values "exp" q) =? 1)%nat
        then Err UnexpectedParameters
        else
          match parse_int exp_str with
          | None => Err InvalidExpiration
          | Some exp =>
              if exp <? unix_seconds now then Err Expired
              else
                match b64_decode url_alphabet sig with
                | None => Err InvalidEncoding
                | Some provided =>
                    if negb (str_eqb (mac s operation (base_url ++ path) exp_str) provided)
                    then Err InvalidSignature
                    else Ok tt
                end
          end
  end.

(** ** The signed message *)

(** Neither the operation nor the expiry contains a newline, so the message
    determines them, and with them the target, whatever it contains. *)
Lemma message_inj op t e op' t' e' :
  nl ∉ op → nl ∉ op' → nl ∉ e → nl ∉ e' →
  message op t e = message op' t' e' → op = op' ∧ t = t' ∧ e = e'.
Proof.
  intros Ho Ho' He He'. unfold message. intros H%app_inv_head.
  change ([nl] ++ op ++ [nl] ++ t ++ [nl] ++ e) with (nl :: op ++ nl :: (t ++ nl :: e)) in H.
  change ([nl] ++ op' ++ [nl] ++ t' ++ [nl] ++ e')
    with (nl :: op' ++ nl :: (t' ++ nl :: e')) in H.
  injection H as H.
  assert (Some (op, t ++ nl :: e) = Some (op', t' ++ nl :: e')) as E
    by (rewrite <-(cut_at_app nl op), H, cut_at_app; done).
  injection E as -> E. split; [done|].
  apply (f_equal (@rev _)) in E. rewrite !rev_app_distr in E. simpl in E.
  rewrite <-!app_assoc in E. simpl in E.
  assert (∀ x : gostring, nl ∉ x → nl ∉ rev x) as Hrev
    by (intros x; by rewrite !list_elem_of_In, <-in_rev).
  assert (Some (rev e, rev t) = Some (rev e', rev t')) as E'
    by (rewrite <-(cut_at_app nl (rev e)), E, cut_at_app; auto).
  injection E' as E1 E2. split; by apply rev_inj.
Qed.

(** ** Signing produces plain parameters *)

Lemma plain_of_digit c : is_digit c = true → plain_query_byte c = true.
Proof.
  intros H. assert (negb (is_digit c) || plain_query_byte c = true) as Hb.
  { refine (forall_bytes (λ c, negb (is_digit c) || plain_query_byte c) _ c).
    vm_compute. reflexivity. }
  by rewrite H in Hb.
Qed.

Lemma format_int_plain n : 0 <= n →
  format_int n ≠ [] ∧ Forall (λ c, plain_query_byte c = true) (format_int n)
  ∧ (nl ∉ format_int n).
Proof.
  intros Hn. unfold format_int. destruct (Z.ltb_spec n 0); [lia|].
  destruct (format_uint_spec n Hn) as (Hne & Hd & _). split; [done|]. split.
  - eapply Forall_impl; [exact Hd|]. apply plain_of_digit.
  - intros Hin. rewrite Forall_forall in Hd. by specialize (Hd _ Hin).
Qed.

Lemma url_b64_plain s : Forall (λ c, plain_query_byte c = true) (b64_encode url_alphabet s).
Proof.
  apply b64_encode_Forall. intros v Hv.
  exact (forall_below (λ v, plain_query_byte (b64_sym url_alphabet v)) 64 eq_refl v Hv).
Qed.

Lemma hmac_nonempty k m : hmac_sha256 k m ≠ [].
Proof.
  intros H. unfold hmac_sha256 in H. apply (f_equal length) in H.
  rewrite sha256_length in H. done.
Qed.

(** The URI of a signed URL parses to its path and its two parameters. *)
Lemma signed_uri_parse path e v :
  has_prefix "/" path = true → Forall (λ c, plain_path_byte c = true) path →
  Forall (λ c, plain_query_byte c = true) e → Forall (λ c, plain_query_byte c = true) v →
  ∃ query, parse_request_uri (path ++ "?exp=" ++ e ++ "&sig=" ++ v) = Some (path, query)
    ∧ parse_query query = ([("exp"%go, e); ("sig"%go, v)], true).
Proof.
  intros Hs Hp He Hv. exists ("exp" ++ "=" ++ e ++ "&" ++ "sig" ++ "=" ++ v). split.
  - change (path ++ "?exp=" ++ e ++ "&sig=" ++ v)
      with (path ++ "?"%char :: ("exp" ++ "=" ++ e ++ "&" ++ "sig" ++ "=" ++ v)).
    apply parse_request_uri_plain; [done..|].
    rewrite !existsb_app, (plain_query_no_ctl e), (plain_query_no_ctl v) by done. reflexivity.
  - apply parse_query_two; [done..|]. rewrite !Forall_app.
    split; [by repeat constructor|]. split; [done|]. split; [by repeat constructor|done].
Qed.

(** A signed URL and what [verify] says of it. *)
Lemma sign_verify s now later op base path :
  has_prefix "/" path = true → Forall (λ c, plain_path_byte c = true) path →
  0 <= unix_seconds (now + expiry s) <= max_int64 →
  let signed := sign s now op base path in
  ∃ uri, href signed = base ++ uri ∧ has_prefix path uri = true
    ∧ expires_in signed = duration_seconds (expiry s)
    ∧ verify s later op base uri
      = if unix_seconds later <=? unix_seconds (now + expiry s) then Ok tt else Err Expired.
Proof.
  intros Hs Hp Hexp. cbv zeta. unfold sign. cbn [href expires_in].
  set (e := format_int (unix_seconds (now + expiry s))).
  set (m := mac s op (base ++ path) e).
  destruct (format_int_plain (unix_seconds (now + expiry s))) as (Hne & He & _); [lia|].
  fold e in Hne, He.
  exists (path ++ "?exp=" ++ e ++ "&sig=" ++ b64_encode url_alphabet m).
  split; [done|]. split; [apply has_prefix_spec; eexists; reflexivity|]. split; [done|].
  destruct (signed_uri_parse path e (b64_encode url_alphabet m))
    as (query & Hu & Hq); [done..|apply url_b64_plain|].
  unfold verify. rewrite Hu, Hq.
  assert (b64_encode url_alphabet m ≠ []) as Hsig
    by (apply b64_encode_nonempty, hmac_nonempty).
  change (query_get "sig" _) with (b64_encode url_alphabet m).
  change (query_get "exp" _) with e. cbn [negb].
  rewrite (proj2 (str_eqb_neq _ []) Hsig), (proj2 (str_eqb_neq _ []) Hne).
  change (negb (query_keys _ =? 2)%nat || _ || _) with false. cbn [orb].
  unfold e at 1. rewrite parse_format_int by (unfold in_int64, min_int64; lia).
  rewrite Z.ltb_antisym. destruct (unix_seconds later <=? _); [|done]. cbn [negb].
  rewrite b64_decode_encode by apply url_alphabet_ok. fold m. by rewrite str_eqb_refl.
Qed.

(** ** Properties *)

(** Round trip: a URL signed at [now] for a server path verifies for the
    same operation and base URL at every later time up to the expiry second,
    and is rejected as expired at every time after it; its [expires_in] is the
    configured lifetime in seconds. *)
Theorem sign_verify_roundtrip s now later op base path :
  has_prefix "/" path = true → Forall (λ c, plain_path_byte c = true) path →
  0 <= unix_seconds (now + expiry s) <= max_int64 →
  let signed := sign s now op base path in
  ∃ uri, href signed = base ++ uri ∧ has_prefix path uri = true
    ∧ expires_in signed = duration_seconds (expiry s)
    ∧ verify s later op base uri
      = if unix_seconds later <=? unix_seconds (now + expiry s) then Ok tt else Err Expired.
Proof. apply sign_verify. Qed.

(** C36. Soundness of [Verify]: an accepted URI carries exactly one [exp] and one
    [sig] and no other parameter, is not expired, and its signature is the MAC
    of exactly this operation, target and expiry.  So if that signature was
    made for another operation, target or expiry, two different messages,
    explicitly given, have the same HMAC. *)
Theorem verify_sound s now op base uri :
  nl ∉ op → verify s now op base uri = Ok tt →
  ∃ path query exp_str exp sig,
    parse_request_uri uri = Some (path, query)
    ∧ (∃ q, parse_query query = (q, true) ∧ query_keys q = 2%nat
        ∧ query_values "sig" q = [sig] ∧ query_values "exp" q = [exp_str])
    ∧ parse_int exp_str = Some exp ∧ unix_seconds now <= exp
    ∧ b64_decode url_alphabet sig = Some (mac s op (base ++ path) exp_str)
    ∧ ∀ op' target' exp', nl ∉ op' → nl ∉ exp' →
        b64_decode url_alphabet sig = Some (mac s op' target' exp') →
        (op', target', exp') = (op, base ++ path, exp_str)
        ∨ (message op' target' exp' ≠ message op (base ++ path) exp_str
           ∧ mac s op' target' exp' = mac s op (base ++ path) exp_str).
Proof.
  intros Hop H. unfold verify in H.
  destruct (parse_request_uri uri) as [[path query]|] eqn:Hu; [|done].
  destruct (parse_query query) as [q ok] eqn:Hq. destruct ok; [|done]. cbn [negb] in H.
  destruct (str_eqb _ [] || str_eqb _ []); [done|].
  destruct (query_keys q =? 2)%nat eqn:Hk; [|done].
  destruct (length (query_values "sig" q) =? 1)%nat eqn:Hs1; [|done].
  destruct (length (query_values "exp" q) =? 1)%nat eqn:He1; [|done]. cbn [negb orb] in H.
  to_prop. unfold query_get in H.
  destruct (query_values "sig" q) as [|sig [|]] eqn:Hsig; try done.
  destruct (query_values "exp" q) as [|e [|]] eqn:He; try done.
  destruct (parse_int e) as [x|] eqn:Hx; [|done].
  destruct (x <? unix_seconds now) eqn:Hlt; [done|]. to_prop.
  destruct (b64_decode url_alphabet sig) as [provided|] eqn:Hd; [|done].
  destruct (str_eqb _ provided) eqn:Hm; [|done]. apply str_eqb_eq in Hm. subst provided.
  exists path, query, e, x, sig. split; [done|]. split; [eauto|]. split; [done|].
  split; [done|]. split; [done|]. intros op' t' e' Hop' He' [= Hmac].
  assert (nl ∉ e) as Hne.
  { intros Hin. apply parse_int_chars in Hx. rewrite Forall_forall in Hx.
    specialize (Hx _ Hin). discriminate Hx. }
  destruct (decide (message op' t' e' = message op (base ++ path) e)) as [E|E]; [left|right; split; [done|congruence]].
  apply message_inj in E as (-> & -> & ->); done.
Qed.

(** ** Witnesses *)

Definition sample_signer : URLSigner := {| key := "0123456789abcdef"; expiry := 15 * minute |}.

Lemma sign_verify_roundtrip_witness :
  ∃ uri, href (sign sample_signer 1700000000000000000 "download" "https://lfs.example" "/o/r/objects/ba78")
      = "https://lfs.example" ++ uri
    ∧ verify sample_signer 1700000900999999999 "download" "https://lfs.example" uri = Ok tt.
Proof.
  destruct (sign_verify_roundtrip sample_signer 1700000000000000000 1700000900999999999
    "download" "https://lfs.example" "/o/r/objects/ba78") as (uri & Hh & _ & _ & Hv).
  - reflexivity.
  - repeat constructor.
  - split; discriminate.
  - exists uri. split; [exact Hh|]. rewrite Hv. reflexivity.
Defined.

Lemma verify_sound_witness :
  ∃ path query, parse_request_uri
    (drop 19 (href (sign sample_signer 0 "upload" "https://lfs.example" "/o/r/objects/ba78")))
    = Some (path, query).
Proof.
  destruct (verify_sound sample_signer (5 * minute) "upload" "https://lfs.example"
    (drop 19 (href (sign sample_signer 0 "upload" "https://lfs.example" "/o/r/objects/ba78"))))
    as (path & query & e & x & sig & Hu & _).
  - apply contains_byte_false. reflexivity.
  - vm_compute. reflexivity.
  - exists path, query. exact Hu.
Defined.
