(* ===== verification/Models.v ===== *)
(** * lfs/models.go: the messages of the LFS API

    The request and response bodies as records, with the fields of the source.
    An optional pointer is an [option], an omitted map an empty map.  The JSON
    form of a list of locks, which lock files hold, follows the struct tags. *)

From S2P Require Import Prelude GoStrings GoUnicode GoJson.

Local Open Scope go_scope.

(** [Ref] *)
Record Ref := { ref_name : gostring }.

(** [Object] *)
Record Object := { obj_oid : gostring; obj_size : Z }.

(** [BatchRequest] *)
Record BatchRequest := {
  req_operation : gostring;
  req_transfers : list gostring;
  req_ref : option Ref;
  req_objects : list Object;
  req_hash_algo : gostring
}.

(** [Action] *)
Record Action := {
  act_href : gostring;
  act_header : gmap gostring gostring;
  act_expires_in : Z;
  act_expires_at : gostring
}.

(** [ObjectError] *)
Record ObjectError := { err_code : Z; err_message : gostring }.

(** [ObjectResponse] *)
Record ObjectResponse := {
  resp_oid : gostring;
  resp_size : Z;
  resp_authenticated : option bool;
  resp_actions : gmap gostring Action;
  resp_error : option ObjectError
}.

(** [BatchResponse] *)
Record BatchResponse := {
  batch_transfer : gostring;
  batch_objects : list ObjectResponse;
  batch_hash_algo : gostring
}.

(** [VerifyRequest] *)
Record VerifyRequest := { ver_oid : gostring; ver_size : Z }.

(** [ErrorResponse] *)
Record ErrorResponse := {
  er_message : gostring;
  er_request_id : gostring;
  er_documentation_url : gostring
}.

(** [LockOwner] and [Lock] *)
Record LockOwner := { owner_name : gostring }.
Record Lock := {
  lock_id : gostring;
  lock_path : gostring;
  locked_at : gostring;
  lock_owner : LockOwner
}.

#[export] Instance LockOwner_eq_dec : EqDecision LockOwner.
Proof. solve_decision. Defined.
#[export] Instance Lock_eq_dec : EqDecision Lock.
Proof. solve_decision. Defined.

(** The zero [Lock]. *)
Definition zero_lock : Lock :=
  {| lock_id := []; lock_path := []; locked_at := []; lock_owner := {| owner_name := [] |} |}.

(** [CreateLockRequest] *)
Record CreateLockRequest := { create_path : gostring; create_ref : option Ref }.

(** [CreateLockResponse] *)
Record CreateLockResponse := {
  created_lock : Lock;
  created_message : gostring;
  created_request_id : gostring;
  created_documentation_url : gostring
}.

(** [ListLocksResponse] *)
Record ListLocksResponse := { list_locks : list Lock; list_next_cursor : gostring }.

(** [VerifyLocksRequest] *)
Record VerifyLocksRequest := { vl_ref : option Ref; vl_cursor : gostring; vl_limit : Z }.

(** [VerifyLocksResponse] *)
Record VerifyLocksResponse := {
  vl_ours : list Lock;
  vl_theirs : list Lock;
  vl_next_cursor : gostring
}.

(** [UnlockRequest] *)
Record UnlockRequest := { unlock_force : bool; unlock_ref : option Ref }.

(** [UnlockResponse] *)
Record UnlockResponse := { unlocked_lock : Lock }.

(** ** Locks as JSON *)

Definition json_of_lock (l : Lock) : json :=
  JObj [("id"%go, JStr (lock_id l)); ("path"%go, JStr (lock_path l));
        ("locked_at"%go, JStr (locked_at l));
        ("owner"%go, JObj [("name"%go, JStr (owner_name (lock_owner l)))])].

Definition lock_valid (l : Lock) : bool :=
  utf8_valid (lock_id l) && utf8_valid (lock_path l) && utf8_valid (locked_at l)
  && utf8_valid (owner_name (lock_owner l)).

(** [json.Marshal] of a [[]Lock]: an error when a string is not UTF-8. *)
Definition marshal_locks {E} (e : E) (ls : list Lock) : result E gostring :=
  if forallb lock_valid ls then Ok (print_json (JArr (map json_of_lock ls))) else Err e.

Definition decode_owner (v : option json) : option LockOwner :=
  match v with
  | None | Some JNull => Some {| owner_name := [] |}
  | Some (JObj l) => n ← decode_string (member "name" l); Some {| owner_name := n |}
  | _ => None
  end.

Definition decode_lock (v : json) : option Lock :=
  match v with
  | JNull => Some zero_lock
  | JObj l =>
      id ← decode_string (member "id" l);
      path ← decode_string (member "path" l);
      at_ ← decode_string (member "locked_at" l);
      owner ← decode_owner (member "owner" l);
      Some {| lock_id := id; lock_path := path; locked_at := at_; lock_owner := owner |}
  | _ => None
  end.

(** [json.Unmarshal] into a [[]Lock]. *)
Definition unmarshal_locks {E} (e : E) (data : gostring) : result E (list Lock) :=
  match parse_json data with
  | Some JNull => Ok []
  | Some (JArr l) => option_result (mapM decode_lock l) e
  | _ => Err e
  end.

Lemma json_of_lock_ok l : lock_valid l = true → json_ok (json_of_lock l).
Proof.
  unfold lock_valid. intros H. to_prop. apply ok_obj.
  - apply (bool_decide_unpack (NoDup _)). vm_compute. exact I.
  - repeat (constructor; [split; [done|]|]); try by constructor.
    apply ok_obj; [apply (bool_decide_unpack (NoDup _)); vm_compute; exact I|].
    repeat constructor. done.
Qed.

Lemma decode_json_of_lock l : decode_lock (json_of_lock l) = Some l.
Proof. by destruct l as [i p a [n]]. Qed.

Lemma unmarshal_marshal {E} (e : E) ls data :
  marshal_locks e ls = Ok data → unmarshal_locks e data = Ok ls.
Proof.
  unfold marshal_locks, unmarshal_locks. destruct (forallb lock_valid ls) eqn:Hv; [|done].
  intros H. assert (data = print_json (JArr (map json_of_lock ls))) as -> by congruence.
  rewrite parse_print.
  - assert (mapM decode_lock (map json_of_lock ls) = Some ls) as ->; [|done]. clear Hv.
    induction ls as [|l ls IH]; [done|]. cbn [map mapM].
    change (mapM decode_lock (json_of_lock l :: map json_of_lock ls))
      with (y ← decode_lock (json_of_lock l); k ← mapM decode_lock (map json_of_lock ls);
            Some (y :: k)).
    rewrite decode_json_of_lock. simpl. by rewrite IH.
  - apply ok_arr. apply Forall_map. apply forallb_Forall in Hv. eapply Forall_impl; [exact Hv|].
    intros l. apply json_of_lock_ok.
Qed.
