(* ===== verification/LockSet.v ===== *)
(** * lfs/locks.go: the in-memory set of an endpoint's locks

    [lockSet] keeps the locks sorted by creation time then ID, indexed by ID
    and by path.  The sorted slice is searched with [slices.BinarySearchFunc],
    whose loop is [bsearch].  The specification is a filtered, sorted list. *)

From Stdlib Require Import Sorted.
From S2P Require Import Prelude GoStrings GoConv GoOs Models.

Local Open Scope go_scope.

(** ** The order *)

(** [compareLocks] *)
Definition compare_locks (a b : Lock) : comparison :=
  match str_compare (locked_at a) (locked_at b) with
  | Eq => str_compare (lock_id a) (lock_id b)
  | c => c
  end.

Definition lock_ltb (a b : Lock) : bool :=
  match compare_locks a b with Lt => true | _ => false end.
Definition lock_eqb (a b : Lock) : bool :=
  match compare_locks a b with Eq => true | _ => false end.
Definition lock_lt (a b : Lock) : Prop := lock_ltb a b = true.

(** ** [slices] *)

(** The loop of [slices.BinarySearchFunc] on the indices [i <= j]. *)
Fixpoint bsearch (fuel : nat) (x : list Lock) (target : Lock) (i j : nat) : nat :=
  match fuel with
  | O => i
  | S f =>
      if (i <? j)%nat then
        let h := Nat.div2 (i + j) in
        match x !! h with
        | Some e =>
            if lock_ltb e target then bsearch f x target (S h) j else bsearch f x target i h
        | None => i
        end
      else i
  end.

(** [slices.BinarySearchFunc(x, target, compareLocks)] *)
Definition binary_search (x : list Lock) (target : Lock) : nat * bool :=
  let i := bsearch (S (length x)) x target 0 (length x) in
  (i, match x !! i with Some e => lock_eqb e target | None => false end).

(** [slices.SortFunc(locks, compareLocks)]; equal elements keep their order. *)
Fixpoint insert_lock (l : Lock) (ls : list Lock) : list Lock :=
  match ls with
  | [] => [l]
  | x :: ls' => if lock_ltb x l then x :: insert_lock l ls' else l :: ls
  end.
Definition sort_locks (ls : list Lock) : list Lock := foldr insert_lock [] ls.

(** [slices.Insert] and [slices.Delete] of one element. *)
Definition slice_insert (x : list Lock) (i : nat) (l : Lock) : list Lock :=
  take i x ++ l :: drop i x.
Definition slice_delete (x : list Lock) (i : nat) : list Lock := take i x ++ drop (S i) x.

(** ** The set *)

(** [lockSet] *)
Record lockSet := {
  sorted : list Lock;
  byID : gmap gostring Lock;
  byPath : gmap gostring Lock
}.

(** [newLockSet] *)
Definition new_lock_set (locks : list Lock) : lockSet :=
  let locks := sort_locks locks in
  {| sorted := locks;
     byID := fold_left (λ m l, <[lock_id l := l]> m) locks ∅;
     byPath := fold_left (λ m l, <[lock_path l := l]> m) locks ∅ |}.

(** [lockSet.add] *)
Definition set_add (lock : Lock) (set : lockSet) : lockSet :=
  let '(i, _) := binary_search (sorted set) lock in
  {| sorted := slice_insert (sorted set) i lock;
     byID := <[lock_id lock := lock]> (byID set);
     byPath := <[lock_path lock := lock]> (byPath set) |}.

(** [lockSet.remove]; indexing a missing path gives the zero [Lock]. *)
Definition set_remove (lock : Lock) (set : lockSet) : lockSet :=
  let '(i, found) := binary_search (sorted set) lock in
  {| sorted := if found then slice_delete (sorted set) i else sorted set;
     byID := delete (lock_id lock) (byID set);
     byPath :=
       if str_eqb (lock_id (default zero_lock (byPath set !! lock_path lock))) (lock_id lock)
       then delete (lock_path lock) (byPath set) else byPath set |}.

(** [ListLocksOptions] *)
Record ListLocksOptions := {
  opt_path : gostring;
  opt_id : gostring;
  opt_cursor : gostring;
  opt_limit : Z;
  opt_refspec : gostring
}.

Definition default_lock_limit : Z := 100.
Definition max_lock_limit : Z := 1000.

(** [lockSet.match] *)
Definition set_match (path id : gostring) (set : lockSet) : list Lock :=
  let found := if str_eqb path [] then byID set !! id else byPath set !! path in
  match found with
  | None => []
  | Some lock => if negb (str_eqb id []) && negb (str_eqb (lock_id lock) id) then [] else [lock]
  end.

(** [lockCursor] *)
Definition lock_cursor (lock : Lock) : gostring :=
  b64_encode url_alphabet (locked_at lock ++ "|" ++ lock_id lock).

(** [parseLockCursor] *)
Definition parse_lock_cursor (cursor : gostring) : result go_error Lock :=
  match b64_decode url_alphabet cursor with
  | None => Err [InvalidLockCursor]
  | Some data =>
      match cut_at "|"%char data with
      | None => Err [InvalidLockCursor]
      | Some (at_, id) =>
          if str_eqb at_ [] || str_eqb id [] then Err [InvalidLockCursor]
          else Ok {| lock_id := id; lock_path := []; locked_at := at_;
                     lock_owner := {| owner_name := [] |} |}
      end
  end.

(** The page size [list] uses. *)
Definition page_limit (limit : Z) : Z :=
  if limit <=? 0 then default_lock_limit
  else if max_lock_limit <? limit then max_lock_limit else limit.

(** [lockSet.list] *)
Definition set_list (opts : ListLocksOptions) (set : lockSet)
  : result go_error (list Lock * gostring) :=
  let matches :=
    if negb (str_eqb (opt_path opts) []) || negb (str_eqb (opt_id opts) [])
    then set_match (opt_path opts) (opt_id opts) set else sorted set in
  let? matches :=
    if negb (str_eqb (opt_cursor opts) []) then
      let? after := parse_lock_cursor (opt_cursor opts) in
      let '(i, found) := binary_search matches after in
      Ok (drop (if found then S i else i) matches)
    else Ok matches in
  let limit := Z.to_nat (page_limit (opt_limit opts)) in
  if (length matches <=? limit)%nat then Ok (matches, [])
  else Ok (take limit matches, lock_cursor (List.nth (limit - 1) matches zero_lock)).

(** ** The order is strict and total on positions *)

Lemma compare_locks_eq a b :
  compare_locks a b = Eq ↔ locked_at a = locked_at b ∧ lock_id a = lock_id b.
Proof.
  unfold compare_locks. rewrite <-!str_compare_eq.
  destruct (str_compare (locked_at a) (locked_at b)); intuition congruence.
Qed.

Lemma lock_eqb_eq a b :
  lock_eqb a b = true ↔ locked_at a = locked_at b ∧ lock_id a = lock_id b.
Proof. unfold lock_eqb. rewrite <-compare_locks_eq. by destruct (compare_locks a b). Qed.

Lemma compare_locks_antisym a b : compare_locks b a = CompOpp (compare_locks a b).
Proof.
  unfold compare_locks. rewrite (str_compare_antisym (locked_at a) (locked_at b)).
  destruct (str_compare (locked_at a) (locked_at b)); simpl; auto. apply str_compare_antisym.
Qed.

Lemma lock_lt_trans a b c : lock_lt a b → lock_lt b c → lock_lt a c.
Proof.
  unfold lock_lt, lock_ltb, compare_locks.
  destruct (str_compare (locked_at a) (locked_at b)) eqn:E1; try done;
    destruct (str_compare (locked_at b) (locked_at c)) eqn:E2; try done.
  - apply str_compare_eq in E1 as ->. rewrite E2.
    destruct (str_compare (lock_id a) (lock_id b)) eqn:E3; try done.
    destruct (str_compare (lock_id b) (lock_id c)) eqn:E4; try done.
    by rewrite (str_compare_lt_trans _ _ _ E3 E4).
  - apply str_compare_eq in E1 as ->. by rewrite E2.
  - apply str_compare_eq in E2 as <-. by rewrite E1.
  - by rewrite (str_compare_lt_trans _ _ _ E1 E2).
Qed.

Lemma lock_lt_irrefl a : ¬ lock_lt a a.
Proof.
  unfold lock_lt, lock_ltb. by rewrite (proj2 (compare_locks_eq a a)).
Qed.

Lemma lock_not_lt a b : lock_ltb a b = false → lock_eqb a b = false → lock_lt b a.
Proof.
  unfold lock_lt, lock_ltb, lock_eqb. rewrite (compare_locks_antisym a b).
  by destruct (compare_locks a b).
Qed.

(** Locks at the same position compare alike with every other. *)
Lemma lock_lt_same_r a b b' : lock_eqb b b' = true → lock_ltb a b = lock_ltb a b'.
Proof. intros [E1 E2]%lock_eqb_eq. unfold lock_ltb, compare_locks. by rewrite E1, E2. Qed.

Lemma lock_ge_trans a b t : lock_ltb a t = false → lock_lt a b → lock_ltb b t = false.
Proof.
  intros Ha Hab. apply not_true_iff_false. intros Hb.
  assert (lock_lt a t) as H by (by eapply lock_lt_trans). unfold lock_lt in H. congruence.
Qed.

(** ** Binary search *)

Abbreviation locks_sorted := (StronglySorted lock_lt).

(** The number of locks before a position. *)
Definition rank (x : list Lock) (t : Lock) : nat := length (List.filter (λ e, lock_ltb e t) x).

Lemma rank_le x t : (rank x t <= length x)%nat.
Proof. unfold rank. induction x as [|a x IH]; simpl; [lia|]. destruct (lock_ltb a t); simpl; lia. Qed.

Lemma sorted_no_lt a x t : Forall (lock_lt a) x → lock_ltb a t = false →
  List.filter (λ e, lock_ltb e t) x = [].
Proof.
  intros Hx Ha. induction Hx as [|b x Hb Hx IH]; [done|]. simpl.
  by rewrite (lock_ge_trans a b t).
Qed.

Lemma rank_lookup x t k e : locks_sorted x → x !! k = Some e →
  lock_ltb e t = true ↔ (k < rank x t)%nat.
Proof.
  intros Hs. revert k. unfold rank. induction Hs as [|a x Hs IH Ha]; intros k Hk; [done|].
  simpl. destruct (lock_ltb a t) eqn:Et.
  - destruct k as [|k]; simpl in *; [|rewrite IH by done; lia].
    injection Hk as <-. rewrite Et. split; [lia|done].
  - rewrite (sorted_no_lt a) by done. simpl. split; [|lia].
    destruct k as [|k]; simpl in *; [injection Hk as <-; congruence|].
    apply list_elem_of_lookup_2 in Hk. rewrite Forall_forall in Ha.
    intros H. specialize (Ha _ Hk). pose proof (lock_ge_trans _ _ _ Et Ha). congruence.
Qed.

(** The loop finds the rank: [j - i] decreases, so the fuel suffices. *)
Lemma bsearch_rank fuel x t i j : locks_sorted x →
  (i <= rank x t <= j)%nat → (j <= length x)%nat → (j - i < fuel)%nat →
  bsearch fuel x t i j = rank x t.
Proof.
  intros Hs. revert i j. induction fuel as [|f IH]; intros i j Hr Hj Hf; [lia|].
  cbn [bsearch]. destruct (Nat.ltb_spec i j) as [Hij|]; [|lia].
  pose proof (Nat.div2_odd (i + j)) as Hh. set (h := Nat.div2 (i + j)) in *.
  assert (i <= h < j)%nat as Hb by (destruct (Nat.odd (i + j)); simpl in Hh; lia).
  destruct (lookup_lt_is_Some_2 x h) as [e He]; [lia|]. rewrite He.
  pose proof (rank_lookup x t h e Hs He) as Hl. destruct (lock_ltb e t).
  - apply IH; [|lia|lia]. destruct Hl as [Hl _]. specialize (Hl eq_refl). lia.
  - apply IH; [|lia|lia]. assert (¬ (h < rank x t)%nat) by (intros H; by apply Hl in H). lia.
Qed.

Lemma binary_search_rank x t : locks_sorted x →
  fst (binary_search x t) = rank x t.
Proof.
  intros Hs. unfold binary_search. cbv zeta. cbn [fst]. pose proof (rank_le x t).
  apply bsearch_rank; [done|lia|lia|lia].
Qed.

Lemma rank_cons a x t : locks_sorted (a :: x) →
  rank (a :: x) t = if lock_ltb a t then S (rank x t) else O.
Proof.
  intros [_ Ha]%StronglySorted_inv. unfold rank. simpl.
  destruct (lock_ltb a t) eqn:E; [done|]. by rewrite (sorted_no_lt a).
Qed.

(** A sorted list splits at a rank. *)
Lemma rank_split x t : locks_sorted x →
  take (rank x t) x = List.filter (λ e, lock_ltb e t) x
  ∧ drop (rank x t) x = List.filter (λ e, negb (lock_ltb e t)) x.
Proof.
  induction 1 as [|a x Hs IH Ha]; [done|]. rewrite rank_cons by (by constructor).
  simpl. destruct (lock_ltb a t) eqn:E; simpl.
  - destruct IH as [-> ->]. done.
  - rewrite (sorted_no_lt a) by done. split; [done|]. f_equal. clear IH Hs.
    induction Ha as [|b x Hb Ha IH]; [done|]. simpl.
    rewrite (lock_ge_trans a b t) by done. simpl. by f_equal.
Qed.

(** ** Insertion and deletion keep the order *)

Lemma insert_lock_perm l x : insert_lock l x ≡ₚ l :: x.
Proof.
  induction x as [|a x IH]; simpl; [done|]. destruct (lock_ltb a l); [|done].
  rewrite IH. constructor.
Qed.

Lemma sort_locks_perm x : sort_locks x ≡ₚ x.
Proof. induction x as [|a x IH]; simpl; [done|]. by rewrite insert_lock_perm, IH. Qed.

Lemma insert_lock_sorted l x : locks_sorted x → Forall (λ e, lock_id e ≠ lock_id l) x →
  locks_sorted (insert_lock l x).
Proof.
  induction 1 as [|a x Hs IH Ha]; intros Hne; simpl; [by repeat constructor|].
  inversion_clear Hne as [|? ? Hal Hne'].
  destruct (lock_ltb a l) eqn:E.
  - constructor; [by apply IH|]. rewrite Forall_forall in *. intros e.
    rewrite insert_lock_perm, elem_of_cons. intros [->|He]; [done|auto].
  - assert (lock_lt l a) as Hla.
    { apply lock_not_lt; [done|]. apply not_true_iff_false. by intros [_ ?]%lock_eqb_eq. }
    constructor; [by constructor|]. constructor; [done|]. eapply Forall_impl; [exact Ha|].
    intros e. by apply lock_lt_trans.
Qed.

Lemma sort_locks_sorted x : NoDup (map lock_id x) → locks_sorted (sort_locks x).
Proof.
  induction x as [|a x IH]; simpl; [constructor|]. intros [Ha Hx]%NoDup_cons.
  apply insert_lock_sorted; [by apply IH|]. apply Forall_forall. intros e He Heq.
  rewrite sort_locks_perm in He. apply Ha. rewrite <-Heq. by apply list_elem_of_fmap_2.
Qed.

(** A strictly sorted list is determined by its elements. *)
Lemma sorted_unique x y : locks_sorted x → locks_sorted y → x ≡ₚ y → x = y.
Proof.
  intros Hx. revert y. induction Hx as [|a x Hx IH Ha]; intros y Hy Hp.
  - by apply Permutation_nil in Hp.
  - destruct Hy as [|b y Hy Hb]; [by apply Permutation_sym, Permutation_nil in Hp|].
    assert (a = b) as ->.
    { rewrite Forall_forall in Ha, Hb.
      assert (a ∈ b :: y) as Hab by (rewrite <-Hp; by left).
      assert (b ∈ a :: x) as Hba by (rewrite Hp; by left).
      apply elem_of_cons in Hab as [?|Hab]; [done|]. apply elem_of_cons in Hba as [?|Hba]; [done|].
      exfalso. eapply lock_lt_irrefl, lock_lt_trans; [by apply Ha|by apply Hb]. }
    f_equal. apply IH; [done|]. by apply Permutation_cons_inv in Hp.
Qed.

Lemma slice_insert_rank l x : locks_sorted x → slice_insert x (rank x l) l = insert_lock l x.
Proof.
  unfold slice_insert. induction 1 as [|a x Hs IH Ha]; [done|].
  rewrite rank_cons by (by constructor). simpl. destruct (lock_ltb a l); simpl; [|done].
  by rewrite IH.
Qed.

Lemma sorted_rank_self l x : locks_sorted x → l ∈ x → x !! rank x l = Some l.
Proof.
  induction 1 as [|a x Hs IH Ha]; [by intros ?%elem_of_nil|].
  rewrite rank_cons by (by constructor). intros [->|Hl]%elem_of_cons.
  - destruct (lock_ltb a a) eqn:E; [by apply lock_lt_irrefl in E|done].
  - rewrite Forall_forall in Ha. rewrite (Ha l Hl). by apply IH.
Qed.

Lemma binary_search_self l x : locks_sorted x → l ∈ x → binary_search x l = (rank x l, true).
Proof.
  intros Hs Hl. pose proof (binary_search_rank x l Hs) as Hr.
  unfold binary_search in *. cbv zeta in *. cbn [fst] in Hr. rewrite Hr.
  rewrite sorted_rank_self by done. f_equal. by apply lock_eqb_eq.
Qed.

Lemma slice_delete_perm x i l : x !! i = Some l → x ≡ₚ l :: slice_delete x i.
Proof.
  intros H. unfold slice_delete. rewrite <-(take_drop_middle x i l H) at 1.
  by rewrite Permutation_middle.
Qed.

Lemma slice_delete_sorted x i : locks_sorted x → locks_sorted (slice_delete x i).
Proof.
  intros Hs. revert i. unfold slice_delete. induction Hs as [|a x Hs IH Ha]; intros i.
  - destruct i; constructor.
  - destruct i as [|i]; simpl; [done|]. constructor; [apply IH|].
    apply Forall_forall. intros e. rewrite elem_of_app. rewrite Forall_forall in Ha.
    intros [He|He]; apply Ha;
      [rewrite <-(take_drop i x)|rewrite <-(take_drop (S i) x)]; apply elem_of_app; auto.
Qed.

(** ** The indexes *)

(** [m] maps each key to the one lock of [ls] with that key. *)
Definition index_ok (key : Lock → gostring) (m : gmap gostring Lock) (ls : list Lock) : Prop :=
  ∀ k l, m !! k = Some l ↔ l ∈ ls ∧ key l = k.

Lemma index_unique key m m' ls : index_ok key m ls → index_ok key m' ls → m = m'.
Proof.
  intros H H'. apply map_eq. intros k. apply option_eq. intros l. by rewrite (H k l), (H' k l).
Qed.

Lemma index_perm key m ls ls' : ls ≡ₚ ls' → index_ok key m ls → index_ok key m ls'.
Proof. intros Hp H k l. by rewrite (H k l), Hp. Qed.

Lemma index_insert key m ls l : index_ok key m ls → key l ∉ map key ls →
  index_ok key (<[key l := l]> m) (l :: ls).
Proof.
  intros H Hn k l'. rewrite elem_of_cons. destruct (decide (k = key l)) as [->|Hk].
  - rewrite lookup_insert_eq. split; [intros [= <-]; auto|].
    intros [[->|Hin] E]; [done|]. destruct Hn. rewrite <-E. by apply list_elem_of_fmap_2.
  - rewrite lookup_insert_ne by done. rewrite (H k l'). split; [intros []; auto|].
    intros [[->|Hin] E]; [congruence|done].
Qed.

Lemma index_delete key m ls l : index_ok key m (l :: ls) → key l ∉ map key ls →
  index_ok key (delete (key l) m) ls.
Proof.
  intros H Hn k l'. destruct (decide (k = key l)) as [->|Hk].
  - rewrite lookup_delete_eq. split; [done|]. intros [Hin E]. destruct Hn. rewrite <-E.
    by apply list_elem_of_fmap_2.
  - rewrite lookup_delete_ne by done. rewrite (H k l'), elem_of_cons.
    split; [|intros []; auto]. intros [[->|Hin] E]; [congruence|done].
Qed.

Lemma index_fold key ls : NoDup (map key ls) →
  index_ok key (fold_left (λ m l, <[key l := l]> m) ls ∅) ls.
Proof.
  assert (∀ ls done m, index_ok key m done → NoDup (map key (done ++ ls)) →
    index_ok key (fold_left (λ m l, <[key l := l]> m) ls m) (done ++ ls)) as Hgen.
  { clear ls. induction ls as [|l ls IH]; intros dn m Hm Hnd; simpl; [by rewrite app_nil_r|].
    assert (dn ++ l :: ls = (dn ++ [l]) ++ ls) as E by (by rewrite <-app_assoc).
    rewrite E in *. apply IH; [|done]. apply index_perm with (l :: dn);
      [by rewrite Permutation_app_comm|].
    apply index_insert; [done|]. rewrite !map_app in Hnd. apply NoDup_app in Hnd as [Hnd _].
    apply NoDup_app in Hnd as (_ & Hnd & _). intros Hin. apply (Hnd _ Hin). by left. }
  intros Hnd. apply (Hgen ls [] ∅); [|done]. intros k l. rewrite lookup_empty.
  split; [done|]. by intros [?%elem_of_nil _].
Qed.

(** ** The invariant *)

Definition unique_locks (ls : list Lock) : Prop :=
  NoDup (map lock_id ls) ∧ NoDup (map lock_path ls).

Record set_ok (set : lockSet) : Prop := {
  ok_sorted : locks_sorted (sorted set);
  ok_unique : unique_locks (sorted set);
  ok_id : index_ok lock_id (byID set) (sorted set);
  ok_path : index_ok lock_path (byPath set) (sorted set)
}.

(** A well-formed set is determined by its locks. *)
Lemma set_ok_unique s t : set_ok s → set_ok t → sorted s ≡ₚ sorted t → s = t.
Proof.
  intros [Hs _ Hi Hp] [Ht _ Hi' Hp'] E. apply sorted_unique in E; [|done..].
  destruct s, t; simpl in *; subst. f_equal; by eapply index_unique.
Qed.

Lemma unique_locks_perm ls ls' : ls ≡ₚ ls' → unique_locks ls → unique_locks ls'.
Proof. intros Hp [H1 H2]. split; [rewrite <-Hp|rewrite <-Hp]; done. Qed.

Lemma new_lock_set_ok ls : unique_locks ls →
  set_ok (new_lock_set ls) ∧ sorted (new_lock_set ls) ≡ₚ ls.
Proof.
  intros H. split; [|apply sort_locks_perm].
  assert (unique_locks (sort_locks ls)) as [H1 H2]
    by (eapply unique_locks_perm; [symmetry; apply sort_locks_perm|done]).
  split; simpl; [apply sort_locks_sorted, H|done|by apply index_fold..].
Qed.

Lemma set_add_ok l set : set_ok set →
  lock_id l ∉ map lock_id (sorted set) → lock_path l ∉ map lock_path (sorted set) →
  set_ok (set_add l set) ∧ sorted (set_add l set) = insert_lock l (sorted set).
Proof.
  intros [Hs [H1 H2] Hi Hp] Nid Npath. unfold set_add.
  destruct (binary_search (sorted set) l) as [i found] eqn:E.
  assert (i = rank (sorted set) l) as -> by (by rewrite <-binary_search_rank, E).
  simpl. rewrite slice_insert_rank by done. split; [|done].
  pose proof (insert_lock_perm l (sorted set)) as P. split; simpl.
  - apply insert_lock_sorted; [done|]. apply Forall_forall. intros e He E'. apply Nid.
    rewrite <-E'. by apply list_elem_of_fmap_2.
  - eapply unique_locks_perm; [symmetry; exact P|]. split; simpl; by constructor.
  - eapply index_perm; [symmetry; exact P|]. by apply index_insert.
  - eapply index_perm; [symmetry; exact P|]. by apply index_insert.
Qed.

Lemma set_remove_ok l set : set_ok set → l ∈ sorted set →
  set_ok (set_remove l set) ∧ sorted set ≡ₚ l :: sorted (set_remove l set).
Proof.
  intros [Hs Hu Hi Hp] Hl. unfold set_remove. rewrite binary_search_self by done. simpl.
  pose proof (slice_delete_perm _ _ _ (sorted_rank_self l _ Hs Hl)) as P.
  split; [|done]. set (rest := slice_delete _ _) in *.
  pose proof (unique_locks_perm _ _ P Hu) as [U1 U2]. simpl in U1, U2.
  apply NoDup_cons in U1 as [N1 U1]. apply NoDup_cons in U2 as [N2 U2].
  assert (byPath set !! lock_path l = Some l) as Hlp by (by apply Hp).
  rewrite Hlp. simpl. rewrite str_eqb_refl. split; simpl.
  - by apply slice_delete_sorted.
  - done.
  - apply index_delete; [by eapply index_perm|done].
  - apply index_delete; [by eapply index_perm|done].
Qed.

(** ** Listing against its specification *)

(** The locks that match the path and ID of a query, an empty one matching all. *)
Definition opt_matches (opts : ListLocksOptions) (l : Lock) : bool :=
  (str_eqb (opt_path opts) [] || str_eqb (lock_path l) (opt_path opts))
  && (str_eqb (opt_id opts) [] || str_eqb (lock_id l) (opt_id opts)).

(** One page of a sorted list of locks: the matches after the cursor, at most
    [page_limit] of them, and a cursor to the last when there are more. *)
Definition list_page (opts : ListLocksOptions) (ls : list Lock)
  : result go_error (list Lock * gostring) :=
  let? rest :=
    match opt_cursor opts with
    | [] => Ok (List.filter (opt_matches opts) ls)
    | _ => let? after := parse_lock_cursor (opt_cursor opts) in
           Ok (List.filter (lock_ltb after) (List.filter (opt_matches opts) ls))
    end in
  let limit := Z.to_nat (page_limit (opt_limit opts)) in
  if (length rest <=? limit)%nat then Ok (rest, [])
  else Ok (take limit rest, lock_cursor (List.nth (limit - 1) rest zero_lock)).

Lemma filter_sorted p x : locks_sorted x → locks_sorted (List.filter p x).
Proof.
  induction 1 as [|a x Hs IH Ha]; simpl; [constructor|]. destruct (p a); [|done].
  constructor; [done|]. apply Forall_forall. intros e He. rewrite Forall_forall in Ha.
  apply Ha. apply list_elem_of_In, filter_In in He as [He _]. by apply list_elem_of_In.
Qed.

Lemma filter_after t x : locks_sorted x →
  drop (let '(i, found) := binary_search x t in if found then S i else i) x
  = List.filter (lock_ltb t) x.
Proof.
  intros Hs. pose proof (binary_search_rank x t Hs) as Hr.
  unfold binary_search in *. cbv zeta in *. cbn [fst] in Hr. rewrite Hr. clear Hr.
  induction Hs as [|a x Hs IH Ha]; [by destruct (rank [] t)|].
  rewrite rank_cons by (by constructor). cbn [List.filter].
  assert (∀ e, lock_lt a e → lock_eqb a t = true → lock_ltb t e = true) as Heq.
  { intros e He [E1 E2]%lock_eqb_eq. unfold lock_lt, lock_ltb, compare_locks in *.
    by rewrite <-E1, <-E2. }
  pose proof (compare_locks_antisym a t) as Hta.
  assert (lock_ltb a t = match compare_locks a t with Lt => true | _ => false end
    ∧ lock_ltb t a = match compare_locks t a with Lt => true | _ => false end) as [-> ->] by done.
  rewrite Hta. destruct (compare_locks a t) eqn:E; cbn [CompOpp] in *.
  - change ((a :: x) !! 0%nat) with (Some a). cbn iota beta. unfold lock_eqb in *. rewrite E in *.
    simpl. symmetry. apply forallb_filter_id, forallb_Forall. eapply Forall_impl; [exact Ha|]. auto.
  - rewrite <-IH. change ((a :: x) !! S (rank x t)) with (x !! rank x t).
    by destruct (match x !! rank x t with Some _ => _ | None => _ end).
  - change ((a :: x) !! 0%nat) with (Some a). cbn iota beta. unfold lock_eqb. rewrite E.
    simpl. f_equal. symmetry. apply forallb_filter_id, forallb_Forall.
    eapply Forall_impl; [exact Ha|]. intros e He. apply (lock_lt_trans t a e); [|done].
    unfold lock_lt, lock_ltb. by rewrite Hta.
Qed.

Lemma not_elem_of_nil_filter {A} (p : A → bool) x :
  (∀ a, a ∈ x → p a = false) → List.filter p x = [].
Proof.
  induction x as [|a x IH]; intros H; simpl; [done|]. rewrite (H a) by by left.
  apply IH. intros b Hb. apply H. by right.
Qed.

Lemma filter_index key m ls k : index_ok key m ls → NoDup (map key ls) →
  List.filter (λ l, str_eqb (key l) k) ls
  = match m !! k with Some l => [l] | None => [] end.
Proof.
  intros Hm Hnd. destruct (m !! k) as [l|] eqn:E.
  - apply Hm in E as [Hin <-]. clear Hm. induction ls as [|a ls IH]; [by apply elem_of_nil in Hin|].
    simpl in Hnd. apply NoDup_cons in Hnd as [Ha Hnd]. simpl. apply elem_of_cons in Hin as [->|Hin].
    + rewrite str_eqb_refl. f_equal. apply not_elem_of_nil_filter. intros b Hb.
      apply str_eqb_neq. intros Eb. apply Ha. rewrite <-Eb. by apply list_elem_of_fmap_2.
    + rewrite (proj2 (str_eqb_neq _ _)); [by apply IH|]. intros Eb. apply Ha. rewrite Eb.
      by apply list_elem_of_fmap_2.
  - apply not_elem_of_nil_filter. intros b Hb. apply str_eqb_neq. intros Eb.
    assert (m !! k = Some b) by (apply Hm; done). congruence.
Qed.

Lemma set_match_filter opts set : set_ok set →
  (if negb (str_eqb (opt_path opts) []) || negb (str_eqb (opt_id opts) [])
   then set_match (opt_path opts) (opt_id opts) set else sorted set)
  = List.filter (opt_matches opts) (sorted set).
Proof.
  intros [Hs [U1 U2] Hi Hp].
  assert (∀ p q (x : list Lock), List.filter (λ l, p l && q l) x = List.filter q (List.filter p x))
    as Hff.
  { intros p q x. induction x as [|a x IH]; [done|]. simpl. destruct (p a); simpl; [|done].
    by destruct (q a); rewrite IH. }
  unfold opt_matches, set_match.
  destruct (str_eqb (opt_path opts) []) eqn:Ep; cbn [negb orb andb].
  - destruct (str_eqb (opt_id opts) []) eqn:Ei; cbn [negb orb].
    + symmetry. apply forallb_filter_id, forallb_Forall, Forall_forall. done.
    + rewrite (filter_index lock_id (byID set)) by done.
      destruct (byID set !! opt_id opts) as [l|] eqn:El; [|done].
      apply Hi in El as [_ ->]. by rewrite str_eqb_refl.
  - rewrite (Hff (λ l, str_eqb (lock_path l) (opt_path opts))).
    rewrite (filter_index lock_path (byPath set)) by done.
    destruct (byPath set !! opt_path opts) as [l|]; [|done]. simpl.
    destruct (str_eqb (opt_id opts) []); simpl; [done|].
    by destruct (str_eqb (lock_id l) (opt_id opts)).
Qed.

Lemma set_list_page opts set : set_ok set → set_list opts set = list_page opts (sorted set).
Proof.
  intros H. unfold set_list, list_page. rewrite set_match_filter by done.
  destruct (opt_cursor opts) as [|c cs]; [done|]. cbn [str_eqb negb].
  destruct (parse_lock_cursor (c :: cs)) as [t|e]; [|done].
  rewrite <-(filter_after t (List.filter (opt_matches opts) (sorted set)))
    by (apply filter_sorted, H).
  by destruct (binary_search _ t).
Qed.

(** ** Cursors *)

(** A lock whose position a cursor can carry. *)
Definition cursor_ok (l : Lock) : Prop :=
  locked_at l ≠ [] ∧ ("|"%char ∉ locked_at l) ∧ lock_id l ≠ [].

Lemma cursor_parse l : cursor_ok l →
  ∃ p, parse_lock_cursor (lock_cursor l) = Ok p ∧ locked_at p = locked_at l ∧ lock_id p = lock_id l.
Proof.
  intros (H1 & H2 & H3). unfold parse_lock_cursor, lock_cursor.
  rewrite b64_decode_encode by apply url_alphabet_ok.
  change (locked_at l ++ "|" ++ lock_id l) with (locked_at l ++ "|"%char :: lock_id l).
  rewrite cut_at_app by done. rewrite (proj2 (str_eqb_neq _ _) H1), (proj2 (str_eqb_neq _ _) H3).
  simpl. by eexists.
Qed.

Lemma lock_cursor_nonempty l : lock_cursor l ≠ [].
Proof. apply b64_encode_nonempty. by destruct (locked_at l). Qed.

Lemma filter_after_split l x y : locks_sorted (x ++ l :: y) →
  ∀ p, locked_at p = locked_at l → lock_id p = lock_id l →
  List.filter (lock_ltb p) (x ++ l :: y) = y.
Proof.
  intros Hs p E1 E2.
  assert (∀ e, lock_ltb p e = lock_ltb l e) as Hp
    by (intros e; unfold lock_ltb, compare_locks; by rewrite E1, E2).
  rewrite (filter_ext _ _ Hp). clear p E1 E2 Hp.
  induction x as [|a x IH]; simpl in *.
  - apply StronglySorted_inv in Hs as [_ Ha].
    assert (lock_ltb l l = false) as -> by (apply not_true_iff_false, lock_lt_irrefl).
    by apply forallb_filter_id, forallb_Forall.
  - apply StronglySorted_inv in Hs as [Hs Ha].
    assert (lock_ltb l a = false) as ->; [|by apply IH].
    apply not_true_iff_false. intros Hla. rewrite Forall_forall in Ha.
    eapply lock_lt_irrefl, lock_lt_trans; [exact Hla|]. apply Ha.
    apply elem_of_app. right. by left.
Qed.

(** ** Pagination *)

Definition with_cursor (c : gostring) (o : ListLocksOptions) : ListLocksOptions :=
  {| opt_path := opt_path o; opt_id := opt_id o; opt_cursor := c;
     opt_limit := opt_limit o; opt_refspec := opt_refspec o |}.

(** A client that follows cursors until an empty one, collecting the pages. *)
Fixpoint all_pages (fuel : nat) (opts : ListLocksOptions) (set : lockSet) (cursor : gostring)
  : option (list (list Lock)) :=
  match fuel with
  | O => None
  | S f =>
      match set_list (with_cursor cursor opts) set with
      | Err _ => None
      | Ok (page, []) => Some [page]
      | Ok (page, next) => cons page <$> all_pages f opts set next
      end
  end.

Lemma page_limit_range n : 1 <= page_limit n <= max_lock_limit.
Proof.
  unfold page_limit, default_lock_limit, max_lock_limit.
  destruct (Z.leb_spec n 0); [lia|]. destruct (Z.ltb_spec 1000 n); lia.
Qed.

Lemma nth_take_last (x : list Lock) n d : (0 < n <= length x)%nat →
  ∃ y, take n x = y ++ [List.nth (n - 1) x d].
Proof.
  intros Hn. exists (take (n - 1) x).
  destruct (lookup_lt_is_Some_2 x (n - 1)) as [l Hl]; [lia|].
  rewrite (nth_lookup_Some x _ d l Hl).
  replace n with (S (n - 1)) at 1 by lia. by apply take_S_r.
Qed.

Lemma all_pages_from opts set cursor before rest fuel :
  set_ok set → Forall cursor_ok (sorted set) →
  List.filter (opt_matches opts) (sorted set) = before ++ rest →
  (before = [] ∧ cursor = [] ∨ ∃ b l, before = b ++ [l] ∧ cursor = lock_cursor l) →
  (length rest < fuel)%nat →
  ∃ pages, all_pages fuel opts set cursor = Some pages ∧ concat pages = rest
    ∧ Forall (λ p, Z.of_nat (length p) <= page_limit (opt_limit opts)) pages.
Proof.
  intros Hok Hc. revert cursor before rest. induction fuel as [|f IH];
    intros cursor before rest Hm Hcur Hf; [lia|].
  cbn [all_pages]. rewrite set_list_page by done. unfold list_page.
  change (opt_matches (with_cursor cursor opts)) with (opt_matches opts). rewrite Hm.
  cbn [opt_cursor opt_limit with_cursor].
  assert (Forall cursor_ok (before ++ rest)) as Hcm.
  { rewrite <-Hm. apply Forall_forall. intros e He%list_elem_of_In%filter_In.
    destruct He as [He _]. rewrite Forall_forall in Hc. by apply Hc, list_elem_of_In. }
  pose proof (filter_sorted (opt_matches opts) _ (ok_sorted _ Hok)) as Hs. rewrite Hm in Hs.
  assert ((match cursor with
    | [] => Ok (before ++ rest)
    | _ => match parse_lock_cursor cursor with
           | Ok after => Ok (List.filter (lock_ltb after) (before ++ rest))
           | Err e => Err e end
    end) = (Ok rest : result go_error _)) as ->.
  { destruct Hcur as [[-> ->]|(b & l & -> & ->)]; [done|].
    rewrite <-!app_assoc in *. simpl in Hcm, Hs |- *.
    destruct (cursor_parse l) as (p & Hp & E1 & E2).
    { rewrite Forall_forall in Hcm. apply Hcm, elem_of_app. right. by left. }
    rewrite Hp. pose proof (lock_cursor_nonempty l). destruct (lock_cursor l); [done|].
    f_equal. by apply filter_after_split. }
  pose proof (page_limit_range (opt_limit opts)) as Hl. unfold max_lock_limit in Hl.
  set (n := Z.to_nat (page_limit (opt_limit opts))) in *.
  destruct (Nat.leb_spec (length rest) n) as [Hn|Hn].
  { exists [rest]. simpl. rewrite app_nil_r. split; [done|]. split; [done|].
    constructor; [lia|constructor]. }
  destruct (nth_take_last rest n zero_lock) as [y Hy]; [lia|].
  set (last := List.nth (n - 1) rest zero_lock) in *.
  destruct (IH (lock_cursor last) (before ++ take n rest) (drop n rest))
    as (pages & Hp & Hcat & Hlen).
  - by rewrite <-app_assoc, take_drop.
  - right. exists (before ++ y), last. rewrite Hy. by rewrite app_assoc.
  - rewrite length_drop. lia.
  - pose proof (lock_cursor_nonempty last). destruct (lock_cursor last) eqn:E; [done|].
    rewrite Hp. exists (take n rest :: pages). simpl. rewrite Hcat, take_drop.
    split; [done|]. split; [done|]. constructor; [|done]. rewrite length_take. lia.
Qed.

(** ** Properties *)

(** The invariant of [lockSet] - sorted by creation time then ID, unique IDs
    and paths, both indexes exact - is established by [newLockSet] and kept by
    [add] and [remove], which add and delete exactly one lock; a set with the
    invariant is determined by its locks, so the set built incrementally is the
    one a reload builds. *)
Theorem lock_set_operations set l :
  set_ok set → lock_id l ∉ map lock_id (sorted set) → lock_path l ∉ map lock_path (sorted set) →
  set_ok (set_add l set)
  ∧ sorted (set_add l set) ≡ₚ l :: sorted set
  ∧ set_add l set = new_lock_set (l :: sorted set)
  ∧ set_remove l (set_add l set) = set
  ∧ ∀ k, k ∈ sorted set →
      set_ok (set_remove k set) ∧ sorted set ≡ₚ k :: sorted (set_remove k set).
Proof.
  intros H Nid Npath. destruct (set_add_ok l set H Nid Npath) as [Ha Hsa].
  assert (sorted (set_add l set) ≡ₚ l :: sorted set) as P by (rewrite Hsa; apply insert_lock_perm).
  destruct (set_remove_ok l (set_add l set) Ha) as [Hr Pr]; [rewrite P; by left|].
  destruct (new_lock_set_ok (l :: sorted set)) as [Hn Pn].
  { destruct (ok_unique _ H). split; simpl; by constructor. }
  split; [done|]. split; [done|]. split; [|split].
  - apply set_ok_unique; [done..|]. by rewrite P, Pn.
  - apply set_ok_unique; [done..|]. apply (Permutation_cons_inv (a := l)). by rewrite <-Pr.
  - intros k Hk. by apply set_remove_ok.
Qed.

(** Listing is filter, cursor, page: on a well-formed set, [list], with its
    index lookups and binary search, returns what the specification
    [list_page] returns on the sorted locks, errors and next cursor included. *)
Theorem lock_set_list_spec set opts :
  set_ok set → set_list opts set = list_page opts (sorted set).
Proof. apply set_list_page. Qed.

(** C35. Pagination is complete: following the cursors from the first page, a
    client receives every matching lock exactly once, in order, in pages of at
    most the limit, and terminates after at most one more page than locks. *)
Theorem lock_pagination_complete opts set :
  set_ok set → Forall cursor_ok (sorted set) →
  ∃ pages, all_pages (S (length (sorted set))) opts set [] = Some pages
    ∧ concat pages = List.filter (opt_matches opts) (sorted set)
    ∧ Forall (λ p, Z.of_nat (length p) <= page_limit (opt_limit opts) <= max_lock_limit) pages.
Proof.
  intros Hok Hc.
  destruct (all_pages_from opts set [] [] (List.filter (opt_matches opts) (sorted set))
    (S (length (sorted set)))) as (pages & Hp & Hcat & Hlen); [done..|by left| |].
  - pose proof (filter_length_le (opt_matches opts) (sorted set)). lia.
  - exists pages. split; [done|]. split; [done|]. eapply Forall_impl; [exact Hlen|].
    intros p Hpl. pose proof (page_limit_range (opt_limit opts)). cbn beta in *. lia.
Qed.

(** ** Witnesses *)

Definition sample_lock (id path at_ owner : gostring) : Lock :=
  {| lock_id := id; lock_path := path; locked_at := at_; lock_owner := {| owner_name := owner |} |}.
Definition sample_locks : list Lock :=
  [ sample_lock "b" "src/b" "2024-01-02T00:00:00Z" "bob";
    sample_lock "a" "src/a" "2024-01-02T00:00:00Z" "alice";
    sample_lock "c" "src/c" "2024-01-01T00:00:00Z" "bob" ].
Definition sample_set : lockSet := new_lock_set sample_locks.

Lemma sample_unique : unique_locks sample_locks.
Proof. split; apply (bool_decide_unpack (NoDup _)); vm_compute; exact I. Qed.

Lemma lock_set_operations_witness :
  set_ok (set_add (sample_lock "d" "src/d" "2024-01-01T12:00:00Z" "bob") sample_set).
Proof.
  destruct (lock_set_operations sample_set (sample_lock "d" "src/d" "2024-01-01T12:00:00Z" "bob"))
    as (H & _).
  - apply new_lock_set_ok, sample_unique.
  - apply (bool_decide_unpack (_ ∉ _)). vm_compute. exact I.
  - apply (bool_decide_unpack (_ ∉ _)). vm_compute. exact I.
  - exact H.
Defined.

Lemma lock_set_list_spec_witness :
  set_list {| opt_path := []; opt_id := []; opt_cursor := lock_cursor (sample_lock "c" "" "2024-01-01T00:00:00Z" "");
              opt_limit := 1; opt_refspec := [] |} sample_set
  = Ok ([sample_lock "a" "src/a" "2024-01-02T00:00:00Z" "alice"],
        lock_cursor (sample_lock "a" "src/a" "2024-01-02T00:00:00Z" "alice")).
Proof.
  rewrite (lock_set_list_spec sample_set).
  - vm_compute. reflexivity.
  - apply new_lock_set_ok, sample_unique.
Defined.

Lemma lock_pagination_complete_witness :
  ∃ pages, all_pages 4 {| opt_path := []; opt_id := []; opt_cursor := []; opt_limit := 2;
      opt_refspec := [] |} sample_set [] = Some pages ∧ concat pages = sorted sample_set.
Proof.
  destruct (lock_pagination_complete {| opt_path := []; opt_id := []; opt_cursor := [];
    opt_limit := 2; opt_refspec := [] |} sample_set) as (pages & Hp & Hc & _).
  - apply new_lock_set_ok, sample_unique.
  - repeat constructor; try discriminate; apply contains_byte_false; reflexivity.
  - exists pages. split; [exact Hp|]. rewrite Hc. reflexivity.
Defined.
