(* ===== verification/LockStore.v ===== *)
(** * lfs/locks.go: the persistent lock store

    [FileLockStore] keeps one JSON file of locks per endpoint and caches the
    set it last read or wrote.  Cached sets are shared by pointer and mutated in
    place, so they live in a heap.  An operation is atomic: it holds the
    endpoint's mutex and, when it reads or writes the file, the advisory lock
    shared with other processes; LockProtocol.v shows that these make it so. *)

From S2P Require Import Prelude GoStrings GoUnicode GoPath GoConv GoTime GoOs GoJson Sanitise Storage Local Models LockSet.

Local Open Scope go_scope.

(** The encoding of a lock file; its errors carry no sentinel. *)
Definition marshal : list Lock → result go_error gostring := marshal_locks [].
Definition unmarshal : gostring → result go_error (list Lock) := unmarshal_locks [].

(** What [os.SameFile], [ModTime] and [Size] see of an [os.FileInfo]. *)
Record FileInfo := { fi_inode : Z; fi_mtime : Z; fi_size : Z }.
#[export] Instance FileInfo_eq_dec : EqDecision FileInfo.
Proof. solve_decision. Defined.
Definition file_info (f : file) : FileInfo :=
  {| fi_inode := f_inode f; fi_mtime := f_mtime f; fi_size := Z.of_nat (length (f_data f)) |}.

(** [cachedLocks]; [c_set] is a pointer into the heap. *)
Record cachedLocks := { c_set : nat; c_data : gostring; c_info : FileInfo }.

(** [FileLockStore], with the heap of the sets it has allocated. *)
Record FileLockStore := {
  store_base : gostring;
  cache : gmap gostring cachedLocks;
  heap : gmap nat lockSet;
  next_ptr : nat
}.

Definition lock_world : Type := FileLockStore * os.

(** [NewFileLockStore] *)
Definition new_file_lock_store (base : gostring) : FileLockStore :=
  {| store_base := base; cache := ∅; heap := ∅; next_ptr := 0 |}.

Definition set_cache (c : gmap gostring cachedLocks) (s : FileLockStore) : FileLockStore :=
  {| store_base := store_base s; cache := c; heap := heap s; next_ptr := next_ptr s |}.

(** Allocation, and a write through a pointer. *)
Definition alloc (set : lockSet) (s : FileLockStore) : nat * FileLockStore :=
  (next_ptr s, {| store_base := store_base s; cache := cache s;
                  heap := <[next_ptr s := set]> (heap s); next_ptr := S (next_ptr s) |}).
Definition update (p : nat) (f : lockSet → lockSet) (s : FileLockStore) : FileLockStore :=
  {| store_base := store_base s; cache := cache s; heap := alter f p (heap s);
     next_ptr := next_ptr s |}.
Definition deref (p : nat) (s : FileLockStore) : lockSet :=
  default (new_lock_set []) (heap s !! p).

Section Store.
Context {U : Unicode}.

(** [lockFilePath], and [filepath.Dir] of it. *)
Definition lock_file_path (s : FileLockStore) (ep : gostring) : gostring :=
  path_join [store_base s; "locks"; endpoint ep; "locks.json"].
Definition lock_dir (s : FileLockStore) (ep : gostring) : gostring :=
  path_join [store_base s; "locks"; endpoint ep].

(** [acquireFileLock], and the function it returns. *)
Definition acquire_file_lock (s : FileLockStore) (ep : gostring) (w : os)
  : result go_error unit * os :=
  let path := lock_file_path s ep ++ ".lock" in
  match mkdir_all w with
  | (Err e, w) => (Err e, w)
  | (Ok _, w) =>
      match open_create path w with
      | (Err e, w) => (Err e, w)
      | (Ok _, w) =>
          match flock w with
          | (Err e, w) => let '(_, w) := close w in (Err e, w)
          | (Ok _, w) => (Ok tt, w)
          end
      end
  end.
Definition release_file_lock (w : os) : os :=
  let '(_, w) := unlock_file w in snd (close w).

(** [cached] *)
Definition cached (s : FileLockStore) (ep : gostring) : option cachedLocks :=
  cache s !! endpoint ep.

(** [readLocks]: when there is no lock file, *)
Definition no_locks (ep : gostring) (s : FileLockStore) : nat * FileLockStore :=
  alloc (new_lock_set []) (set_cache (delete (endpoint ep) (cache s)) s).

(** once it has been read, *)
Definition store_cached (ep : gostring) (c : cachedLocks) (s : FileLockStore) : FileLockStore :=
  set_cache (<[endpoint ep := c]> (cache s)) s.
Definition parse_locks (ep : gostring) (info : FileInfo) (data : gostring) (s : FileLockStore)
  : result go_error nat * FileLockStore :=
  match unmarshal data with
  | Err e => (Err e, s)
  | Ok locks =>
      let '(p, s) := alloc (new_lock_set locks) s in
      (Ok p, store_cached ep {| c_set := p; c_data := data; c_info := info |} s)
  end.
Definition found_locks (ep : gostring) (info : FileInfo) (data : gostring) (s : FileLockStore)
  : result go_error nat * FileLockStore :=
  match cached s ep with
  | Some c =>
      if str_eqb (c_data c) data
      then (Ok (c_set c), store_cached ep {| c_set := c_set c; c_data := data; c_info := info |} s)
      else parse_locks ep info data s
  | None => parse_locks ep info data s
  end.

(** and as a whole. *)
Definition read_locks (ep : gostring) (w : lock_world) : result go_error nat * lock_world :=
  let '(s, o) := w in
  let path := lock_file_path s ep in
  match stat path o with
  | (Err e, o) =>
      if errors_is NotExist e then let '(p, s) := no_locks ep s in (Ok p, (s, o))
      else (Err e, (s, o))
  | (Ok info, o) =>
      match read_file path o with
      | (Err e, o) =>
          if errors_is NotExist e then let '(p, s) := no_locks ep s in (Ok p, (s, o))
          else (Err e, (s, o))
      | (Ok data, o) => let '(r, s) := found_locks ep (file_info info) data s in (r, (s, o))
      end
  end.

(** [loadLocks] *)
Definition load_locks (ep : gostring) (w : lock_world) : result go_error nat * lock_world :=
  let slow (w : lock_world) :=
    let '(s, o) := w in
    match acquire_file_lock s ep o with
    | (Err e, o) => (Err e, (s, o))
    | (Ok _, o) =>
        let '(r, (s, o)) := read_locks ep (s, o) in (r, (s, release_file_lock o))
    end in
  let '(s, o) := w in
  match cached s ep with
  | None => slow w
  | Some c =>
      match stat (lock_file_path s ep) o with
      | (Ok info, o) =>
          if bool_decide (c_info c = file_info info) then (Ok (c_set c), (s, o)) else slow (s, o)
      | (Err _, o) => slow (s, o)
      end
  end.

(** [writeLockFile] on [path], in directory [dir] *)
Definition write_temp (tmp path data : gostring) (w : os) : result go_error unit * bool * os :=
  match write tmp data w with
  | (Err e, w) => (Err e, false, w)
  | (Ok _, w) =>
      match sync w with
      | (Err e, w) => (Err e, false, w)
      | (Ok _, w) =>
          match close w with
          | (Err e, w) => (Err e, false, w)
          | (Ok _, w) => let '(r, w) := rename tmp path w in (r, true, w)
          end
      end
  end.
Definition write_lock_file (dir path data : gostring) (w : os) : result go_error unit * os :=
  match mkdir_all w with
  | (Err e, w) => (Err e, w)
  | (Ok _, w) =>
      match create_temp (dir ++ "/" ++ temp_file_prefix ++ "locks-") w with
      | (Err e, w) => (Err e, w)
      | (Ok tmp, w) =>
          let '(r, closed, w) := write_temp tmp path data w in
          (r, put_cleanup tmp closed w)
      end
  end.

(** [saveLocks] *)
Definition save_locks (ep : gostring) (p : nat) (w : lock_world)
  : result go_error unit * lock_world :=
  let '(s, o) := w in
  let key := endpoint ep in
  let path := lock_file_path s ep in
  let drop_cache (s : FileLockStore) := set_cache (delete key (cache s)) s in
  match marshal (sorted (deref p s)) with
  | Err e => (Err e, (drop_cache s, o))
  | Ok data =>
      match write_lock_file (lock_dir s ep) path data o with
      | (Err e, o) => (Err e, (drop_cache s, o))
      | (Ok _, o) =>
          match stat path o with
          | (Err _, o) => (Ok tt, (drop_cache s, o))
          | (Ok info, o) =>
              (Ok tt, (store_cached ep {| c_set := p; c_data := data;
                                          c_info := file_info info |} s, o))
          end
      end
  end.

(** [lockEndpoint] and [readLocks] around the body of an operation that
    changes the locks; [fail] is the operation's error return. *)
Definition with_locked {A} (fail : go_error → A) (ep : gostring)
    (body : nat → lock_world → A * lock_world) (w : lock_world) : A * lock_world :=
  let '(s, o) := w in
  match acquire_file_lock s ep o with
  | (Err e, o) => (fail e, (s, o))
  | (Ok _, o) =>
      let '(r, (s, o)) :=
        match read_locks ep (s, o) with
        | (Err e, w) => (fail e, w)
        | (Ok p, w) => body p w
        end in
      (r, (s, release_file_lock o))
  end.

(** The lock [Create] makes. *)
Definition new_lock (id path owner : gostring) (now : Z) : Lock :=
  {| lock_id := id; lock_path := path; locked_at := format_rfc3339 now;
     lock_owner := {| owner_name := owner |} |}.

(** [Create], given the new lock's identifier and the time.  Both results are
    returned: the existing lock accompanies [ErrLockExists]. *)
Definition create_body (ep path owner id : gostring) (now : Z) (p : nat) (w : lock_world)
  : (Lock * option go_error) * lock_world :=
  let '(s, o) := w in
  match byPath (deref p s) !! path with
  | Some existing => ((existing, Some [LockExists]), (s, o))
  | None =>
      let lock := new_lock id path owner now in
      match save_locks ep p (update p (set_add lock) s, o) with
      | (Err e, w) => ((zero_lock, Some e), w)
      | (Ok _, w) => ((lock, None), w)
      end
  end.
Definition create_lock (c : ctx) (ep path owner id : gostring) (now : Z) (w : lock_world)
  : (Lock * option go_error) * lock_world :=
  match c with
  | Some e => ((zero_lock, Some e), w)
  | None => with_locked (λ e, (zero_lock, Some e)) ep (create_body ep path owner id now) w
  end.

(** [List] *)
Definition list_store (c : ctx) (ep : gostring) (opts : ListLocksOptions) (w : lock_world)
  : out lock_world (list Lock * gostring) :=
  match c with
  | Some e => (Err e, w)
  | None =>
      match load_locks ep w with
      | (Err e, w) => (Err e, w)
      | (Ok p, w) => (set_list opts (deref p (fst w)), w)
      end
  end.

(** [Unlock] *)
Definition unlock_body (ep id requester : gostring) (force : bool) (p : nat) (w : lock_world)
  : out lock_world Lock :=
  let '(s, o) := w in
  match byID (deref p s) !! id with
  | None => (Err [LockNotFound], (s, o))
  | Some lock =>
      if negb force && negb (equal_fold (owner_name (lock_owner lock)) requester)
      then (Err [LockNotOwner], (s, o))
      else
        match save_locks ep p (update p (set_remove lock) s, o) with
        | (Err e, w) => (Err e, w)
        | (Ok _, w) => (Ok lock, w)
        end
  end.
Definition unlock (c : ctx) (ep id requester : gostring) (force : bool) (w : lock_world)
  : out lock_world Lock :=
  match c with
  | Some e => (Err e, w)
  | None => with_locked Err ep (unlock_body ep id requester force) w
  end.
End Store.

(** ** Paths *)

Definition lock_path_of (base d : gostring) : gostring := under base ["locks"; d; "locks.json"].

Lemma lock_elems_ok d x : safe_name d = true → (slash ∉ x) → plain_elem x = true →
  plain_elems ["locks"; d; x].
Proof.
  intros Hd Hs Hp. split; [done|]. split.
  - constructor; [by apply contains_byte_false|]. repeat constructor; auto with go.
  - cbn [forallb]. by rewrite (safe_name_plain d), Hp.
Qed.

Lemma lock_file_path_of s ep : lock_file_path s ep = lock_path_of (store_base s) (endpoint ep).
Proof.
  unfold lock_file_path. rewrite path_join_under; [done|].
  apply lock_elems_ok; [auto with go|by apply contains_byte_false|done].
Qed.

Lemma lock_dir_of s ep : lock_dir s ep = under (store_base s) ["locks"; endpoint ep].
Proof.
  unfold lock_dir. apply path_join_under. split; [done|]. split.
  - constructor; [by apply contains_byte_false|]. repeat constructor; auto with go.
  - cbn [forallb]. by rewrite (safe_name_plain (endpoint ep)) by auto with go.
Qed.

Lemma lock_elems_no_slash d x : safe_name d = true → (slash ∉ x) →
  Forall (λ e, slash ∉ e) ["locks"; d; x].
Proof.
  intros Hd Hx. constructor; [by apply contains_byte_false|].
  constructor; [auto with go|]. by constructor.
Qed.

Lemma lock_file_no_slash : slash ∉ ("locks.json"%go : gostring).
Proof. by apply contains_byte_false. Qed.
#[local] Hint Resolve lock_elems_no_slash lock_file_no_slash : go.

(** No other file of a lock directory is a lock file. *)
Lemma lock_path_other base d d' x :
  safe_name d = true → safe_name d' = true → (slash ∉ x) → x ≠ "locks.json" →
  under base ["locks"; d; x] ≠ lock_path_of base d'.
Proof.
  intros Hd Hd' Hx Hne E. apply under_inj in E; auto with go. by injection E.
Qed.

Lemma lock_path_inj base d d' :
  safe_name d = true → safe_name d' = true → lock_path_of base d = lock_path_of base d' → d = d'.
Proof. intros Hd Hd' E. apply under_inj in E; auto with go. by injection E. Qed.

(** ** What every call leaves alone *)

Section Frame.
Variable base : gostring.

Definition same_locks (o o' : os) : Prop :=
  ∀ d, safe_name d = true → os_files o' !! lock_path_of base d = os_files o !! lock_path_of base d.

Lemma same_files_locks o o' : os_files o' = os_files o → same_locks o o'.
Proof. intros E d _. by rewrite E. Qed.

Lemma same_locks_trans o1 o2 o3 : same_locks o1 o2 → same_locks o2 o3 → same_locks o1 o3.
Proof. intros H1 H2 d Hd. by rewrite H2, H1. Qed.
End Frame.

(** The random part of a temporary name is a run of digits. *)
Definition names_ok (o : os) : Prop := Forall (λ n, digits_name n = true) (os_names o).

Lemma names_ok_le o o' : names_ok o → os_le o o' → names_ok o'.
Proof. unfold names_ok. rewrite !Forall_forall. intros H [N _]. auto. Qed.

Lemma digits_no_slash n : digits_name n = true → slash ∉ n.
Proof. intros H%forallb_Forall Hin. rewrite Forall_forall in H. by specialize (H _ Hin). Qed.

(** Calls that touch no lock file. *)
Definition quiet (base : gostring) (o o' : os) : Prop := os_le o o' ∧ same_locks base o o'.

#[export] Instance quiet_preorder base : PreOrder (quiet base).
Proof.
  split; [by intros o; split|]. intros a b c [L1 S1] [L2 S2].
  split; [by etrans|by eapply same_locks_trans].
Qed.

Lemma quiet_files base o o' : os_le o o' → os_files o' = os_files o → quiet base o o'.
Proof. intros L E. split; [done|by apply same_files_locks]. Qed.

Section Calls.
Context {U : Unicode}.

Lemma acquire_quiet s ep o r o' : acquire_file_lock s ep o = (r, o') →
  quiet (store_base s) o o'.
Proof.
  unfold acquire_file_lock. rewrite lock_file_path_of.
  destruct (mkdir_all o) as [[u|e] o1] eqn:E1; pose proof (mkdir_all_le _ _ _ E1) as L1;
    apply mkdir_all_files in E1; pose proof (quiet_files (store_base s) _ _ L1 E1) as Q1;
    [|by intros [= <- <-]].
  destruct (open_create _ o1) as [r2 o2] eqn:E2.
  pose proof (open_create_le _ _ _ _ E2) as L2. apply open_create_files in E2.
  assert (quiet (store_base s) o1 o2) as Q2.
  { split; [done|]. intros d Hd. apply E2. intros Hin%list_elem_of_singleton.
    symmetry in Hin. revert Hin. unfold lock_path_of at 1.
    change ["locks"%go; endpoint ep; "locks.json"%go]
      with (["locks"%go; endpoint ep] ++ ["locks.json"%go]).
    rewrite under_append. apply lock_path_other; [auto with go|done| |done].
    by apply contains_byte_false. }
  assert (quiet (store_base s) o o2) as Q12 by (by etrans).
  destruct r2 as [u2|e]; [|by intros [= <- <-]].
  destruct (flock o2) as [[u3|e] o3] eqn:E3; apply flock_le in E3 as [L3 E3];
    pose proof (quiet_files (store_base s) _ _ L3 E3) as Q3.
  - intros [= <- <-]. by etrans.
  - destruct (close o3) as [r4 o4] eqn:E4. intros [= <- <-].
    pose proof (sync_le _ _ _ E4) as L4. apply close_files in E4.
    pose proof (quiet_files (store_base s) _ _ L4 E4). etrans; [exact Q12|]. by etrans.
Qed.

Lemma release_quiet base o : quiet base o (release_file_lock o).
Proof.
  unfold release_file_lock. destruct (unlock_file o) as [r1 o1] eqn:E1.
  destruct (close o1) as [r2 o2] eqn:E2. simpl.
  pose proof (sync_le _ _ _ E1) as L1. apply close_files in E1.
  pose proof (sync_le _ _ _ E2) as L2. apply close_files in E2.
  etrans; apply quiet_files; done.
Qed.

(** The temporary file is written, then renamed over the lock file. *)
Lemma write_temp_spec tmp path data w r closed w' f0 :
  write_temp tmp path data w = (r, closed, w') → tmp ≠ path →
  os_files w !! tmp = Some f0 → f_data f0 = [] →
  os_le w w' ∧ same_except [tmp; path] w w'
  ∧ match r with
    | Ok _ => ∃ f, os_files w' !! path = Some f ∧ f_data f = data
    | Err _ => os_files w' !! path = os_files w !! path
    end.
Proof.
  intros H Hne Hf0 Hd0. unfold write_temp in H.
  destruct (write tmp data w) as [r1 w1] eqn:E1. pose proof (write_le _ _ _ _ _ E1) as L1.
  apply write_files in E1 as [S1 H1].
  assert (∀ v, os_files v = os_files w1 → same_except [tmp; path] w v
    ∧ os_files v !! path = os_files w !! path) as Hsame.
  { intros v Ev. split; [intros p Hp|]; rewrite Ev; apply S1; set_solver. }
  destruct r1 as [u1|e]; [|simplify_eq; by destruct (Hsame w' eq_refl)].
  destruct u1. destruct (H1 eq_refl _ Hf0) as (g & Hg & Hgd).
  destruct (sync w1) as [r2 w2] eqn:E2. pose proof (sync_le _ _ _ E2) as L2.
  apply sync_files in E2. assert (os_le w w2) as L02 by (by etrans).
  destruct r2 as [u2|e]; [|simplify_eq; by destruct (Hsame w' E2)].
  destruct (close w2) as [r3 w3] eqn:E3. pose proof (sync_le _ _ _ E3) as L3.
  apply close_files in E3. rewrite E2 in E3. assert (os_le w w3) as L03 by (by etrans).
  destruct r3 as [u3|e]; [|simplify_eq; by destruct (Hsame w' E3)].
  destruct (rename tmp path w3) as [r4 w4] eqn:E4. simplify_eq.
  pose proof (rename_le _ _ _ _ _ E4) as L4. apply rename_files in E4.
  split; [by etrans|]. destruct (Hsame w3 E3) as [Sa Sb]. destruct r as [u4|e].
  - destruct E4 as (f & Hf & Hw'). rewrite E3 in Hf. simplify_eq. split.
    + intros p Hp. rewrite Hw', lookup_insert_ne, lookup_delete_ne by set_solver. by apply Sa.
    + exists f. rewrite Hw', lookup_insert_eq, Hgd, Hd0. done.
  - split; [intros p Hp|]; rewrite E4; [by apply Sa|done].
Qed.

(** Writing a lock file replaces it by a new file with the data, or changes no
    lock file. *)
Lemma write_lock_file_spec base d data o r o' :
  safe_name d = true → names_ok o →
  write_lock_file (under base ["locks"; d]) (lock_path_of base d) data o = (r, o') →
  os_le o o'
  ∧ (∀ d', safe_name d' = true → d' ≠ d →
      os_files o' !! lock_path_of base d' = os_files o !! lock_path_of base d')
  ∧ match r with
    | Ok _ => ∃ f, os_files o' !! lock_path_of base d = Some f ∧ f_data f = data
    | Err _ => os_files o' !! lock_path_of base d = os_files o !! lock_path_of base d
    end.
Proof.
  intros Hd Hnames H. unfold write_lock_file in H.
  destruct (mkdir_all o) as [r1 o1] eqn:E1. pose proof (mkdir_all_le _ _ _ E1) as L1.
  apply mkdir_all_files in E1. destruct r1 as [u1|e]; [|simplify_eq; by rewrite E1].
  destruct (create_temp _ o1) as [r2 o2] eqn:E2. pose proof (create_temp_le _ _ _ _ E2) as L2.
  pose proof (create_temp_file _ _ _ _ E2) as Hino.
  apply create_temp_spec in E2. assert (os_le o o2) as L02 by (by etrans).
  destruct r2 as [tmp|e]; [|simplify_eq; by rewrite E2, E1].
  destruct E2 as (Hfree & (nm & Htmp & Hnm) & _). destruct (Hino tmp eq_refl) as (i & t & Hfiles).
  clear Hino.
  assert (digits_name nm = true) as Hdig.
  { unfold names_ok in Hnames. rewrite Forall_forall in Hnames. apply Hnames.
    by apply (le_names _ _ L1). }
  change (under base ["locks"%go; d] ++ "/" ++ temp_file_prefix ++ "locks-")
    with (under base ["locks"%go; d] ++ slash :: (temp_file_prefix ++ "locks-")) in Htmp.
  rewrite under_snoc, under_append in Htmp by done. simpl in Htmp.
  assert (∀ d', safe_name d' = true → tmp ≠ lock_path_of base d') as Hne.
  { intros d' Hd'. rewrite Htmp. apply lock_path_other; [done|done| |done].
    apply contains_byte_false. cbn. apply contains_byte_false. by apply digits_no_slash. }
  destruct (write_temp _ _ _ o2) as [[r3 closed] o3] eqn:E3.
  apply (write_temp_spec _ _ _ _ _ _ _ (File [] i t)) in E3 as (L3 & S3 & H3);
    [|auto|by rewrite Hfiles, lookup_insert_eq|done].
  destruct (put_cleanup_spec tmp closed o3) as (L4 & S4 & _). simplify_eq.
  assert (∀ d', safe_name d' = true →
    os_files (put_cleanup (under base ["locks"%go; d; ".tmp-locks-" ++ nm]) closed o3)
      !! lock_path_of base d' = os_files o3 !! lock_path_of base d') as S4'.
  { intros d' Hd'. apply S4. rewrite list_elem_of_singleton. intros E. by apply (Hne d'). }
  split; [by etrans; [|etrans]|]. split.
  - intros d' Hd' Hdd. rewrite S4' by done. rewrite S3.
    + rewrite Hfiles, lookup_insert_ne, E1 by auto. done.
    + rewrite !not_elem_of_cons. split; [intros E; by apply (Hne d')|]. split; [|set_solver].
      intros E. apply Hdd. by eapply lock_path_inj.
  - rewrite S4' by done. destruct r as [u|e].
    + done.
    + rewrite H3, Hfiles, lookup_insert_ne, E1 by auto. done.
Qed.

(** ** The invariant *)

(** What the lock files must hold: distinct IDs and paths, positions a cursor
    can carry. *)
Definition locks_ok (ls : list Lock) : Prop := unique_locks ls ∧ Forall cursor_ok ls.

Lemma locks_ok_perm ls ls' : ls ≡ₚ ls' → locks_ok ls → locks_ok ls'.
Proof. intros P [Hu Hc]. split; [by eapply unique_locks_perm|by rewrite <-P]. Qed.

Record disk_ok (base : gostring) (o : os) : Prop := {
  disk_names : names_ok o;
  disk_faults : faults_ok o;
  disk_files d f : safe_name d = true → os_files o !! lock_path_of base d = Some f →
    ∃ ls, unmarshal (f_data f) = Ok ls ∧ locks_ok ls
}.

(** The locks of endpoint directory [d] that the disk holds. *)
Definition disk_locks (base : gostring) (o : os) (d : gostring) : list Lock :=
  match os_files o !! lock_path_of base d with
  | None => []
  | Some f => match unmarshal (f_data f) with Ok ls => sort_locks ls | Err _ => [] end
  end.

(** A cache entry holds the set its data decodes to. *)
Record cache_entry_ok (s : FileLockStore) (d : gostring) (c : cachedLocks) : Prop := {
  ce_name : safe_name d = true;
  ce_set : ∃ ls st, unmarshal (c_data c) = Ok ls ∧ unique_locks ls
    ∧ heap s !! c_set c = Some st ∧ set_ok st ∧ sorted st ≡ₚ ls
}.

(** The cache, with one endpoint's entry possibly out of date in memory. *)
Record cache_ok_but (d0 : option gostring) (s : FileLockStore) : Prop := {
  co_entries d c : cache s !! d = Some c → Some d ≠ d0 → cache_entry_ok s d c;
  co_inj d d' c c' : cache s !! d = Some c → cache s !! d' = Some c' → c_set c = c_set c' → d = d';
  co_alloc d c : cache s !! d = Some c → (c_set c < next_ptr s)%nat
}.
Definition store_ok : FileLockStore → Prop := cache_ok_but None.

Lemma new_store_ok base : store_ok (new_file_lock_store base).
Proof. split; simpl; intros *; by rewrite lookup_empty. Qed.

(** A lock file with the metadata of a cache entry has the entry's data.  The store's
    own writes keep it so; those of other processes need not, as inode numbers are used
    again and the clock is coarse. *)
Definition entry_fresh (base : gostring) (o : os) (d : gostring) (c : cachedLocks) : Prop :=
  ∀ f, os_files o !! lock_path_of base d = Some f → file_info f = c_info c → f_data f = c_data c.
Definition cache_fresh (s : FileLockStore) (o : os) : Prop :=
  ∀ d c, safe_name d = true → cache s !! d = Some c → entry_fresh (store_base s) o d c.

Lemma new_store_fresh base o : cache_fresh (new_file_lock_store base) o.
Proof. intros d c _. simpl. by rewrite lookup_empty. Qed.

Lemma fresh_quiet s o o' : quiet (store_base s) o o' → cache_fresh s o → cache_fresh s o'.
Proof. intros [_ S] H d c Hd Hc f Hf. rewrite S in Hf by done. by apply (H d c). Qed.

(** An operation on [d] drops the entry of [d], or replaces it by one of the file that
    is there now, or leaves everything as it is. *)
Lemma fresh_moved d s o s' o' : store_base s' = store_base s →
  (∀ d', safe_name d' = true → d' ≠ d →
    os_files o' !! lock_path_of (store_base s) d' = os_files o !! lock_path_of (store_base s) d') →
  (∀ d', d' ≠ d → cache s' !! d' = cache s !! d') →
  (∀ c, cache s' !! d = Some c → entry_fresh (store_base s) o' d c) →
  cache_fresh s o → cache_fresh s' o'.
Proof.
  intros Hb Hf Hc Hd H d' c Hd' Hc'. rewrite Hb. destruct (decide (d' = d)) as [->|Hne]; [by apply Hd|].
  intros f Hfile. rewrite Hf in Hfile by done. rewrite Hc in Hc' by done. by apply (H d' c).
Qed.

Lemma disk_evolve base o o' :
  disk_ok base o → os_le o o' →
  (∀ d f, safe_name d = true → os_files o' !! lock_path_of base d = Some f →
    os_files o !! lock_path_of base d = Some f
    ∨ ∃ ls, unmarshal (f_data f) = Ok ls ∧ locks_ok ls) →
  disk_ok base o'.
Proof.
  intros [Hn Hf Hd] L H. split.
  - by eapply names_ok_le.
  - by eapply faults_ok_le.
  - intros d f Hs Hfile. destruct (H d f Hs Hfile) as [?|?]; [by eapply Hd|done].
Qed.

Lemma disk_quiet base o o' : disk_ok base o → quiet base o o' → disk_ok base o'.
Proof. intros H [L S]. eapply disk_evolve; [done..|]. intros d f Hd Hf. left. by rewrite <-S. Qed.

Lemma quiet_locks base o o' d : quiet base o o' → safe_name d = true →
  disk_locks base o' d = disk_locks base o d.
Proof. intros [_ S] Hd. unfold disk_locks. by rewrite S. Qed.

Lemma disk_locks_ok base o d : disk_ok base o → safe_name d = true →
  locks_ok (disk_locks base o d) ∧ locks_sorted (disk_locks base o d).
Proof.
  intros H Hd. unfold disk_locks. destruct (os_files o !! _) as [f|] eqn:E.
  - destruct (disk_files _ _ H d f Hd E) as (ls & -> & Hl). split.
    + eapply locks_ok_perm; [symmetry; apply sort_locks_perm|done].
    + apply sort_locks_sorted, Hl.
  - split; [|constructor]. split; [split; constructor|constructor].
Qed.

(** ** Updates of the cache and the heap *)

Lemma cache_ok_weaken d s : store_ok s → cache_ok_but (Some d) s.
Proof. intros [He Hi Ha]. split; [|done|done]. intros d' c Hc _. by apply He. Qed.

Lemma cache_entry_heap s s' d c :
  cache_entry_ok s d c → heap s' !! c_set c = heap s !! c_set c → cache_entry_ok s' d c.
Proof. intros [Hn Hs] E. split; [done|]. by rewrite E. Qed.

Lemma alloc_ok d0 st s p s' : cache_ok_but d0 s → alloc st s = (p, s') →
  cache_ok_but d0 s' ∧ heap s' !! p = Some st ∧ store_base s' = store_base s
  ∧ cache s' = cache s ∧ next_ptr s' = S p ∧ (∀ d c, cache s !! d = Some c → c_set c ≠ p).
Proof.
  intros [He Hi Ha] [= <- <-]. cbn [heap store_base cache next_ptr].
  rewrite lookup_insert_eq. split; [|split; [done|]; split; [done|]; split; [done|]; split; [done|]].
  - split; cbn [cache store_base next_ptr].
    + intros d c Hc Hd. eapply cache_entry_heap; [by apply He|]. cbn [heap].
      rewrite lookup_insert_ne; [done|]. specialize (Ha _ _ Hc). lia.
    + done.
    + intros d c Hc. specialize (Ha _ _ Hc). lia.
  - intros d c Hc. specialize (Ha _ _ Hc). lia.
Qed.

Lemma drop_cache_ok d s : cache_ok_but (Some d) s → store_ok (set_cache (delete d (cache s)) s).
Proof.
  intros [He Hi Ha]. split; cbn [cache set_cache store_base next_ptr]; intros *;
    rewrite ?lookup_delete_Some.
  - intros [Hne Hc] _. eapply cache_entry_heap; [apply He; [done|congruence]|done].
  - intros [_ H1] [_ H2]. by apply Hi.
  - intros [_ H1]. by eapply Ha.
Qed.

Lemma put_cache_ok d c s : cache_ok_but (Some d) s →
  cache_entry_ok s d c → (c_set c < next_ptr s)%nat →
  (∀ d' c', cache s !! d' = Some c' → c_set c' = c_set c → d' = d) →
  store_ok (set_cache (<[d := c]> (cache s)) s).
Proof.
  intros [He Hi Ha] Hc Hp Hown.
  split; cbn [cache set_cache store_base next_ptr]; intros *; rewrite ?lookup_insert_Some.
  - intros [[<- <-]|[Hne Hc']] _; (apply cache_entry_heap with s; [|done]); [done|].
    apply He; [done|congruence].
  - intros [[<- <-]|[Hne1 H1]] [[<- <-]|[Hne2 H2]] E; [done| | |by eapply Hi].
    + symmetry in E. by apply Hown in H2.
    + by apply Hown in H1.
  - intros [[<- <-]|[Hne H1]]; [done|by eapply Ha].
Qed.

(** ** Reading *)

(** A pointer to endpoint [d]'s set: well-formed, up to date, not shared with
    another endpoint. *)
Definition current (d : gostring) (p : nat) (s : FileLockStore) (o : os) : Prop :=
  (∃ st, heap s !! p = Some st ∧ set_ok st ∧ sorted st = disk_locks (store_base s) o d)
  ∧ (∀ d' c, cache s !! d' = Some c → c_set c = p → d' = d) ∧ (p < next_ptr s)%nat.

Lemma no_locks_spec ep s o p s' :
  store_ok s → os_files o !! lock_path_of (store_base s) (endpoint ep) = None →
  no_locks ep s = (p, s') →
  store_base s' = store_base s ∧ store_ok s' ∧ current (endpoint ep) p s' o
  ∧ (cache_fresh s o → cache_fresh s' o).
Proof.
  intros Hs Hnone Ha. unfold no_locks in Ha.
  pose proof (drop_cache_ok _ _ (cache_ok_weaken (endpoint ep) _ Hs)) as Hs1.
  apply (alloc_ok _ _ _ _ _ Hs1) in Ha as (Hs2 & Hp & Hb & Hc & Hn & Hne). cbn [cache set_cache] in Hc.
  split; [done|]. split; [done|]. split; [split; [|split; [|lia]]|].
  3: { apply (fresh_moved (endpoint ep)); [done|done|..]; rewrite Hc; [by intros; apply lookup_delete_ne|].
       intros c. by rewrite lookup_delete_eq. }
  - exists (new_lock_set []). split; [done|]. split; [apply new_lock_set_ok; split; constructor|].
    unfold disk_locks. rewrite Hb. cbn [set_cache store_base]. by rewrite Hnone.
  - intros d c Hd E. rewrite Hc in Hd. by apply Hne in Hd.
Qed.

Lemma same_sorted x y : locks_sorted x → x ≡ₚ y → NoDup (map lock_id y) → x = sort_locks y.
Proof.
  intros Hx P Hu. apply sorted_unique; [done|by apply sort_locks_sorted|].
  by rewrite P, sort_locks_perm.
Qed.

(** Caching a set that matches the file makes it current. *)
Lemma store_cached_current ep f ls p st s o :
  disk_ok (store_base s) o →
  os_files o !! lock_path_of (store_base s) (endpoint ep) = Some f →
  unmarshal (f_data f) = Ok ls → locks_ok ls →
  cache_ok_but (Some (endpoint ep)) s →
  heap s !! p = Some st → set_ok st → sorted st ≡ₚ ls → (p < next_ptr s)%nat →
  (∀ d' c', cache s !! d' = Some c' → c_set c' = p → d' = endpoint ep) →
  let s2 := store_cached ep {| c_set := p; c_data := f_data f; c_info := file_info f |} s in
  store_ok s2 ∧ current (endpoint ep) p s2 o.
Proof.
  intros Hd Hf Hls Hlok Hs Hp Hst Hperm Hlt Hown. split.
  - apply put_cache_ok; [done| |done|done]. split.
    + auto with go.
    + exists ls, st. split; [done|]. split; [apply Hlok|]. done.
  - split; [|split; [|done]].
    + exists st. split; [done|]. split; [done|]. unfold disk_locks.
      cbn [store_cached set_cache store_base]. rewrite Hf, Hls.
      apply same_sorted; [apply Hst|done|apply Hlok].
    + cbn [store_cached set_cache cache]. intros d' c'. rewrite lookup_insert_Some.
      intros [[<- <-]|[_ Hc']]; [done|]. by apply Hown.
Qed.

(** Caching what a file holds, with its metadata, is fresh. *)
Lemma store_cached_fresh ep f p s0 s o0 o : store_base s = store_base s0 →
  (∀ d, safe_name d = true → d ≠ endpoint ep →
    os_files o !! lock_path_of (store_base s0) d = os_files o0 !! lock_path_of (store_base s0) d) →
  os_files o !! lock_path_of (store_base s0) (endpoint ep) = Some f → cache s = cache s0 →
  cache_fresh s0 o0 → cache_fresh (store_cached ep {| c_set := p; c_data := f_data f; c_info := file_info f |} s) o.
Proof.
  intros Hb Hother Hf Hc. apply (fresh_moved (endpoint ep)); [done|done|..];
    cbn [store_cached set_cache cache]; rewrite Hc; [by intros; apply lookup_insert_ne|].
  intros c. rewrite lookup_insert_eq. intros [= <-] g Hg _. rewrite Hf in Hg. by injection Hg as <-.
Qed.

Lemma found_locks_spec ep f s o r s' :
  store_ok s → disk_ok (store_base s) o →
  os_files o !! lock_path_of (store_base s) (endpoint ep) = Some f →
  found_locks ep (file_info f) (f_data f) s = (r, s') →
  store_base s' = store_base s ∧ store_ok s' ∧ (∀ p, r = Ok p → current (endpoint ep) p s' o)
  ∧ is_ok r = true ∧ (cache_fresh s o → cache_fresh s' o).
Proof.
  intros Hs Hd Hf H.
  destruct (disk_files _ _ Hd (endpoint ep) f) as (ls & Hls & Hlok); [auto with go|done|].
  assert (parse_locks ep (file_info f) (f_data f) s = (r, s') → store_base s' = store_base s
    ∧ store_ok s' ∧ (∀ p, r = Ok p → current (endpoint ep) p s' o)
    ∧ is_ok r = true ∧ (cache_fresh s o → cache_fresh s' o)) as Hparse.
  { unfold parse_locks. rewrite Hls. destruct (alloc _ _) as [p s1] eqn:Ea. intros [= <- <-].
    apply (alloc_ok _ _ _ _ _ (cache_ok_weaken (endpoint ep) _ Hs))
      in Ea as (Hs1 & Hp & Hb & Hc & Hn & Hne).
    destruct (new_lock_set_ok ls) as [Hst Hperm]; [apply Hlok|]. rewrite <-Hb in Hd.
    destruct (store_cached_current ep f ls p _ s1 o Hd ltac:(by rewrite Hb) Hls Hlok Hs1 Hp Hst Hperm) as [A B].
    - lia.
    - intros d' c' Hc' E. rewrite Hc in Hc'. by apply Hne in Hc'.
    - split; [done|]. split; [done|]. split; [by intros q [= <-]|]. split; [done|].
      by apply store_cached_fresh. }
  unfold found_locks, cached in H. destruct (cache s !! endpoint ep) as [c|] eqn:Ec; [|auto].
  destruct (str_eqb (c_data c) (f_data f)) eqn:Edata; [|auto].
  apply str_eqb_eq in Edata. injection H as <- <-.
  assert (cache_entry_ok s (endpoint ep) c) as [_ Hset] by (by apply (co_entries _ _ Hs)).
  destruct Hset as (ls' & st & Hun & _ & Hst & Hok & Hperm).
  rewrite Edata, Hls in Hun. injection Hun as <-.
  destruct (store_cached_current ep f ls (c_set c) st s o Hd Hf Hls Hlok) as [A B]; try done.
  - by apply cache_ok_weaken.
  - by eapply co_alloc.
  - intros d' c' Hc' E. by eapply co_inj.
  - split; [done|]. split; [done|]. split; [by intros q [= <-]|]. split; [done|].
    by apply store_cached_fresh.
Qed.

Lemma read_locks_spec ep s o r s' o' :
  store_ok s → disk_ok (store_base s) o → read_locks ep (s, o) = (r, (s', o')) →
  store_base s' = store_base s ∧ quiet (store_base s) o o' ∧ store_ok s'
  ∧ (∀ p, r = Ok p → current (endpoint ep) p s' o')
  ∧ (∀ e, r = Err e → system_error e) ∧ (cache_fresh s o → cache_fresh s' o').
Proof.
  intros Hs Hd H. unfold read_locks in H. rewrite lock_file_path_of in H.
  set (path := lock_path_of _ _) in H.
  destruct (stat path o) as [r1 o1] eqn:E1. pose proof (stat_le _ _ _ _ E1) as L1.
  pose proof (stat_spec _ _ _ _ E1) as [F1 V1].
  pose proof (quiet_files (store_base s) _ _ L1 F1) as Q1.
  destruct r1 as [info|e].
  2: { pose proof (stat_system _ _ _ _ E1) as He. destruct (errors_is NotExist e) eqn:Ee.
       2: { injection H as <- <- <-. do 3 (split; [done|]). split; [done|]. split; [by intros ? [= <-]|by apply fresh_quiet]. }
       apply (stat_not_exist _ o) in E1 as Hnone; [|apply Hd|done].
       destruct (no_locks ep s) as [p s1] eqn:Ea. injection H as <- <- <-.
       apply (no_locks_spec _ _ o1) in Ea as (Hb & Hs' & Hcur & Hfr); [|done|by rewrite F1].
       split; [done|]. split; [done|]. split; [done|]. split; [by intros q [= <-]|]. split; [done|].
       intros Hfresh. apply Hfr. by eapply fresh_quiet. }
  specialize (V1 _ eq_refl).
  destruct (read_file path o1) as [r2 o2] eqn:E2. pose proof (read_file_le _ _ _ _ E2) as L2.
  pose proof (read_file_spec _ _ _ _ E2) as [F2 V2].
  assert (quiet (store_base s) o o2) as Q2 by (etrans; [exact Q1|by apply quiet_files]).
  destruct r2 as [data|e].
  2: { pose proof (read_file_system _ _ _ _ E2) as He. destruct (errors_is NotExist e) eqn:Ee.
       2: { injection H as <- <- <-. do 3 (split; [done|]). split; [done|]. split; [by intros ? [= <-]|by apply fresh_quiet]. }
       apply (read_not_exist _ o1) in E2 as Hnone; [|by eapply faults_ok_le, L1; apply Hd|done].
       rewrite F1 in Hnone. congruence. }
  destruct (V2 _ eq_refl) as (f & Hf & <-). rewrite F1, V1 in Hf. injection Hf as <-.
  destruct (found_locks _ _ _ s) as [r3 s3] eqn:E3. injection H as <- <- <-.
  apply (found_locks_spec ep info s o2) in E3 as (Hb & Hs3 & Hc3 & Hr3 & Hf3).
  - split; [done|]. split; [done|]. split; [done|]. split; [done|]. split; [by intros e ->|].
    intros Hfresh. apply Hf3. by eapply fresh_quiet.
  - done.
  - by eapply disk_quiet.
  - by rewrite F2, F1.
Qed.

(** Acquiring fails with an error of a system call. *)
Lemma acquire_system s ep o e o' : acquire_file_lock s ep o = (Err e, o') → system_error e.
Proof.
  unfold acquire_file_lock. destruct (mkdir_all o) as [[u|e1] o1] eqn:E1.
  2: { intros [= <- _]. by eapply mkdir_all_system. }
  destruct (open_create _ o1) as [[u2|e2] o2] eqn:E2.
  2: { intros [= <- _]. by eapply open_create_system. }
  destruct (flock o2) as [[u3|e3] o3] eqn:E3; [done|]. destruct (close o3). intros [= <- _]. by eapply flock_system.
Qed.

Lemma load_locks_spec ep s o r s' o' :
  store_ok s → disk_ok (store_base s) o →
  load_locks ep (s, o) = (r, (s', o')) →
  store_base s' = store_base s ∧ quiet (store_base s) o o' ∧ store_ok s'
  ∧ ((∀ c, cache s !! endpoint ep = Some c → entry_fresh (store_base s) o (endpoint ep) c) →
     ∀ p, r = Ok p → current (endpoint ep) p s' o')
  ∧ (cache_fresh s o → cache_fresh s' o').
Proof.
  intros Hs Hd H. unfold load_locks in H.
  assert (∀ v, quiet (store_base s) o v →
    (match acquire_file_lock s ep v with
     | (Err e, v) => (Err e, (s, v))
     | (Ok _, v) => let '(r, (s, v)) := read_locks ep (s, v) in (r, (s, release_file_lock v))
     end) = (r, (s', o')) →
    store_base s' = store_base s ∧ quiet (store_base s) o o' ∧ store_ok s'
    ∧ ((∀ c, cache s !! endpoint ep = Some c → entry_fresh (store_base s) o (endpoint ep) c) →
       ∀ p, r = Ok p → current (endpoint ep) p s' o')
    ∧ (cache_fresh s o → cache_fresh s' o')) as Hslow.
  { intros v Qv Hv. destruct (acquire_file_lock s ep v) as [r1 o1] eqn:E1.
    apply acquire_quiet in E1. assert (quiet (store_base s) o o1) as Q1 by (by etrans).
    destruct r1 as [u|e]; [|injection Hv as <- <- <-; do 3 (split; [done|]); split; [done|by apply fresh_quiet]].
    destruct (read_locks ep (s, o1)) as [r2 [s2 o2]] eqn:E2. injection Hv as <- <- <-.
    apply read_locks_spec in E2 as (Hb & Q2 & Hs2 & Hc & _ & Hf2); [|done|by eapply disk_quiet].
    pose proof (release_quiet (store_base s) o2) as Q3.
    split; [done|]. split; [etrans; [exact Q1|by etrans]|]. split; [done|]. split.
    - intros _ p Hp. destruct (Hc p Hp) as ((st & Hst & Hok & Hsort) & Hown & Hlt).
      split; [|done]. exists st. split; [done|]. split; [done|].
      rewrite Hb, (quiet_locks _ _ _ _ Q3) by auto with go. by rewrite <-Hb.
    - intros Hf. apply (fresh_quiet _ o2); [by rewrite Hb|]. apply Hf2. by apply (fresh_quiet _ o). }
  unfold cached in H. destruct (cache s !! endpoint ep) as [c|] eqn:Ec; [|by apply (Hslow o)].
  rewrite lock_file_path_of in H.
  destruct (stat _ o) as [r1 o1] eqn:E1. pose proof (stat_le _ _ _ _ E1) as L1.
  pose proof (stat_spec _ _ _ _ E1) as [F1 V1].
  pose proof (quiet_files (store_base s) _ _ L1 F1) as Q1.
  destruct r1 as [info|e]; [|by apply (Hslow o1)].
  destruct (bool_decide _) eqn:Einfo; [|by apply (Hslow o1)]. simplify_eq. to_prop.
  split; [done|]. split; [done|]. split; [done|]. split; [|by apply fresh_quiet]. intros Hfresh p [= <-].
  specialize (V1 _ eq_refl). assert (cache_entry_ok s' (endpoint ep) c) as [Hn Hset] by (by apply (co_entries _ _ Hs)).
  destruct Hset as (ls & st & Hun & Hu & Hst & Hok & Hperm). split.
  - exists st. split; [done|]. split; [done|]. unfold disk_locks. rewrite F1, V1.
    rewrite (Hfresh c eq_refl info V1), Hun by done.
    apply same_sorted; [apply Hok|done|apply Hu].
  - split; [|by eapply co_alloc]. intros d' c' Hc' E. by eapply co_inj.
Qed.

(** ** Writing *)

Lemma update_ok d p f s : store_ok s →
  (∀ d' c, cache s !! d' = Some c → c_set c = p → d' = d) →
  cache_ok_but (Some d) (update p f s).
Proof.
  intros [He Hi Ha] Hown. split; cbn [cache store_base next_ptr update]; [|done|done].
  intros d' c Hc Hne. apply cache_entry_heap with s; [by apply He|].
  cbn [update heap]. apply lookup_alter_ne. intros E. apply Hne. f_equal. by eapply Hown.
Qed.

Lemma deref_some p s st : heap s !! p = Some st → deref p s = st.
Proof. unfold deref. by intros ->. Qed.

Lemma write_temp_system tmp path data w e closed w' : write_temp tmp path data w = (Err e, closed, w') → system_error e.
Proof.
  unfold write_temp. destruct (write tmp data w) as [[u|e1] w1] eqn:E1; [|intros [= <- _ _]; by eapply write_system].
  destruct (sync w1) as [[u2|e2] w2] eqn:E2; [|intros [= <- _ _]; by eapply sync_system].
  destruct (close w2) as [[u3|e3] w3] eqn:E3; [|intros [= <- _ _]; by eapply sync_system].
  destruct (rename tmp path w3) as [r w4] eqn:E4. intros [= -> _ _]. by eapply rename_system.
Qed.
Lemma write_lock_file_system dir path data w e w' : write_lock_file dir path data w = (Err e, w') → system_error e.
Proof.
  unfold write_lock_file. destruct (mkdir_all w) as [[u|e1] w1] eqn:E1; [|intros [= <- _]; by eapply mkdir_all_system].
  destruct (create_temp _ w1) as [[tmp|e2] w2] eqn:E2; [|intros [= <- _]; by eapply create_temp_system].
  destruct (write_temp _ _ _ w2) as [[r closed] w3] eqn:E3. intros [= -> _]. by eapply write_temp_system.
Qed.

Lemma save_locks_spec ep p st s o r s' o' :
  cache_ok_but (Some (endpoint ep)) s → disk_ok (store_base s) o →
  heap s !! p = Some st → set_ok st → locks_ok (sorted st) → (p < next_ptr s)%nat →
  (∀ d' c, cache s !! d' = Some c → c_set c = p → d' = endpoint ep) →
  save_locks ep p (s, o) = (r, (s', o')) →
  store_base s' = store_base s ∧ store_ok s' ∧ disk_ok (store_base s) o'
  ∧ (∀ d', safe_name d' = true → d' ≠ endpoint ep →
      disk_locks (store_base s) o' d' = disk_locks (store_base s) o d')
  ∧ disk_locks (store_base s) o' (endpoint ep)
    = match r with Ok _ => sorted st | Err _ => disk_locks (store_base s) o (endpoint ep) end
  ∧ (∀ e, r = Err e → system_error e) ∧ (cache_fresh s o → cache_fresh s' o').
Proof.
  intros Hs Hd Hp Hst Hlok Hlt Hown H. unfold save_locks in H.
  rewrite (deref_some _ _ _ Hp) in H. set (s1 := set_cache (delete (endpoint ep) (cache s)) s) in *.
  assert (store_ok s1) as Hs1 by (by apply drop_cache_ok).
  assert (∀ o1, (∀ d', safe_name d' = true → d' ≠ endpoint ep →
      os_files o1 !! lock_path_of (store_base s) d' = os_files o !! lock_path_of (store_base s) d') →
    cache_fresh s o → cache_fresh s1 o1) as Hdrop.
  { intros o1 S1. apply (fresh_moved (endpoint ep)); [done|done|..]; unfold s1; cbn [cache set_cache].
    - intros. by apply lookup_delete_ne.
    - intros c. by rewrite lookup_delete_eq. }
  destruct (marshal (sorted st)) as [data|e] eqn:Em.
  2: { injection H as <- <- <-. do 5 (split; [done|]). split; [|by apply Hdrop].
       intros ? [= <-]. unfold marshal, marshal_locks in Em. destruct (forallb _ _); [done|]. injection Em as <-. constructor. }
  assert (unmarshal data = Ok (sorted st)) as Hun by (by apply unmarshal_marshal).
  rewrite lock_file_path_of, lock_dir_of in H.
  destruct (write_lock_file _ _ data o) as [r1 o1] eqn:E1.
  assert (∀ e, r1 = Err e → system_error e) as Hsys by (intros e ->; by eapply write_lock_file_system).
  apply write_lock_file_spec in E1 as (L1 & S1 & H1); [|auto with go|apply Hd].
  assert (∀ d', safe_name d' = true → d' ≠ endpoint ep →
    disk_locks (store_base s) o1 d' = disk_locks (store_base s) o d') as D1
    by (intros d' Hd' Hne; unfold disk_locks; by rewrite S1).
  destruct r1 as [u|e].
  2: { injection H as <- <- <-. assert (quiet (store_base s) o o1) as Q.
       { split; [done|]. intros d' Hd'. destruct (decide (d' = endpoint ep)) as [->|]; auto. }
       split; [done|]. split; [done|]. split; [by eapply disk_quiet|]. split; [done|].
       split; [apply (quiet_locks (store_base s)); auto with go|].
       split; [intros ? [= <-]; by apply Hsys|by apply Hdrop]. }
  destruct H1 as (f & Hf & Hfd).
  assert (disk_ok (store_base s) o1) as Hd1.
  { eapply disk_evolve; [exact Hd|exact L1|]. intros d' g Hd' Hg.
    destruct (decide (d' = endpoint ep)) as [->|Hne]; [right|left; by rewrite <-S1].
    simplify_eq. eauto. }
  assert (disk_locks (store_base s) o1 (endpoint ep) = sorted st) as De.
  { unfold disk_locks. rewrite Hf, Hfd, Hun. symmetry. apply same_sorted; [apply Hst|done|apply Hlok]. }
  destruct (stat _ o1) as [r2 o2] eqn:E2. pose proof (stat_le _ _ _ _ E2) as L2.
  pose proof (stat_spec _ _ _ _ E2) as [F2 V2].
  pose proof (quiet_files (store_base s) _ _ L2 F2) as Q2.
  assert (disk_ok (store_base s) o2) as Hd2 by (by eapply disk_quiet).
  assert (r = Ok tt → o' = o2 → store_base s' = store_base s → store_ok s' →
    (cache_fresh s o → cache_fresh s' o') →
    store_base s' = store_base s ∧ store_ok s' ∧ disk_ok (store_base s) o'
    ∧ (∀ d', safe_name d' = true → d' ≠ endpoint ep →
        disk_locks (store_base s) o' d' = disk_locks (store_base s) o d')
    ∧ disk_locks (store_base s) o' (endpoint ep)
      = match r with Ok _ => sorted st | Err _ => disk_locks (store_base s) o (endpoint ep) end
    ∧ (∀ e, r = Err e → system_error e) ∧ (cache_fresh s o → cache_fresh s' o')) as Hdone.
  { intros -> -> Hb Hok Hfr. split_and!; try done.
    - intros d' Hd' Hne. rewrite (quiet_locks _ _ _ _ Q2) by done. by apply D1.
    - rewrite (quiet_locks _ _ _ _ Q2) by auto with go. done. }
  destruct r2 as [info|e]; injection H as <- <- <-.
  - specialize (V2 _ eq_refl). rewrite Hf in V2. injection V2 as <-. rewrite <-Hfd in *.
    apply Hdone; [done|done|done|..].
    + eapply (store_cached_current ep f (sorted st) p st s o2); try done. by rewrite F2.
    + apply store_cached_fresh; [done| |by rewrite F2|done].
      intros d' Hd' Hne. rewrite F2. by apply S1.
  - apply Hdone; [done|done|done|done|]. apply Hdrop. intros d' Hd' Hne. rewrite F2. by apply S1.
Qed.

(** ** The operations *)

(** What every operation on endpoint directory [d] guarantees. *)
Record op_frame (d : gostring) (s : FileLockStore) (o : os) (s' : FileLockStore) (o' : os)
  : Prop := {
  fr_base : store_base s' = store_base s;
  fr_store : store_ok s';
  fr_disk : disk_ok (store_base s) o';
  fr_others d' : safe_name d' = true → d' ≠ d →
    disk_locks (store_base s) o' d' = disk_locks (store_base s) o d';
  fr_fresh : cache_fresh s o → cache_fresh s' o'
}.

Lemma quiet_frame d s o s' o' :
  disk_ok (store_base s) o → store_base s' = store_base s → quiet (store_base s) o o' →
  store_ok s' → (cache_fresh s o → cache_fresh s' o') → op_frame d s o s' o'.
Proof.
  intros Hd Hb Q Hs Hf. split; [done|done|by eapply disk_quiet| |done].
  intros d' Hd' _. by apply quiet_locks.
Qed.

Lemma new_lock_cursor_ok id path owner now : id ≠ [] → cursor_ok (new_lock id path owner now).
Proof.
  intros Hid. split; [apply format_rfc3339_nonempty|]. split; [|done]. simpl. intros Hin.
  pose proof (format_rfc3339_bytes now) as H. rewrite Forall_forall in H. by specialize (H _ Hin).
Qed.

(** The effect [P] of an operation on its endpoint's locks. *)
Definition op_ok {A} (P : list Lock → A → list Lock → Prop) (d : gostring)
    (s : FileLockStore) (o : os) (r : A) (s' : FileLockStore) (o' : os) : Prop :=
  op_frame d s o s' o'
  ∧ P (disk_locks (store_base s) o d) r (disk_locks (store_base s) o' d).

(** An operation that changes no lock file. *)
Lemma quiet_op {A} (P : list Lock → A → list Lock → Prop) d s o r s' o' :
  safe_name d = true → disk_ok (store_base s) o → store_base s' = store_base s →
  quiet (store_base s) o o' → store_ok s' → (cache_fresh s o → cache_fresh s' o') →
  P (disk_locks (store_base s) o d) r (disk_locks (store_base s) o d) →
  op_ok P d s o r s' o'.
Proof.
  intros Hn Hd Hb Q Hs Hf HP. split; [by apply quiet_frame|]. by rewrite (quiet_locks _ _ _ _ Q).
Qed.

(** A quiet stretch before and after an operation. *)
Lemma op_ok_quiet {A} (P : list Lock → A → list Lock → Prop) d s o r s1 o1 s2 o2 o3 :
  safe_name d = true → store_base s1 = store_base s → quiet (store_base s) o o1 →
  (cache_fresh s o → cache_fresh s1 o1) →
  op_ok P d s1 o1 r s2 o2 → quiet (store_base s) o2 o3 → op_ok P d s o r s2 o3.
Proof.
  intros Hd Hb Q1 Hf1 [[Fb Fs Fd Fo Ff] HP] Q2. rewrite Hb in *. split.
  - split; [done|done| | |].
    + by eapply disk_quiet.
    + intros d' Hd' Hne. rewrite (quiet_locks _ _ _ _ Q2), Fo, (quiet_locks _ _ _ _ Q1) by done. done.
    + intros Hf. apply (fresh_quiet _ o2); [by rewrite Fb|auto].
  - by rewrite (quiet_locks _ _ _ _ Q2), <-(quiet_locks _ _ _ _ Q1).
Qed.

(** An operation between [lockEndpoint] and its release: the body runs on the
    current set. *)
Lemma with_locked_spec {A} (P : list Lock → A → list Lock → Prop) fail body ep s o r s' o' :
  store_ok s → disk_ok (store_base s) o →
  (∀ e ls, system_error e → P ls (fail e) ls) →
  (∀ p s1 o1 r s2 o2, store_base s1 = store_base s → store_ok s1 →
    disk_ok (store_base s) o1 → current (endpoint ep) p s1 o1 →
    disk_locks (store_base s) o1 (endpoint ep) = disk_locks (store_base s) o (endpoint ep) →
    body p (s1, o1) = (r, (s2, o2)) → op_ok P (endpoint ep) s1 o1 r s2 o2) →
  with_locked fail ep body (s, o) = (r, (s', o')) → op_ok P (endpoint ep) s o r s' o'.
Proof.
  intros Hs Hd Hfail Hbody H. unfold with_locked in H.
  assert (safe_name (endpoint ep) = true) as Hn by auto with go.
  destruct (acquire_file_lock s ep o) as [r1 o1] eqn:E1. pose proof E1 as Q1. apply acquire_quiet in Q1.
  destruct r1 as [u|e].
  2: { injection H as <- <- <-. apply acquire_system in E1. apply quiet_op; auto. by apply fresh_quiet. }
  destruct (read_locks ep (s, o1)) as [r2 [s2 o2]] eqn:E2.
  apply read_locks_spec in E2 as (Hb2 & Q2 & Hs2 & Hc2 & He2 & Hf2); [|done|by eapply disk_quiet].
  assert (quiet (store_base s) o o2) as Q12 by (by etrans).
  assert (cache_fresh s o → cache_fresh s2 o2) as Hf12 by (intros Hf; apply Hf2; by apply (fresh_quiet _ o)).
  destruct r2 as [p|e].
  - destruct (body p (s2, o2)) as [r3 [s3 o3]] eqn:E3. injection H as <- <- <-.
    eapply (op_ok_quiet P _ _ _ _ s2 o2); [done|done|done|done| |apply release_quiet].
    apply (Hbody p); auto; [by eapply disk_quiet|by apply quiet_locks].
  - injection H as <- <- <-. eapply (op_ok_quiet P _ _ _ _ s2 o2); [done|done|done|done| |apply release_quiet].
    apply quiet_op; [done|rewrite Hb2; by eapply disk_quiet|done|reflexivity|done|done|auto].
Qed.

(** The save at the end of an operation that changed the current set. *)
Lemma update_save_spec ep p f s o r s' o' :
  store_ok s → disk_ok (store_base s) o → current (endpoint ep) p s o →
  (∀ st, set_ok st → sorted st = disk_locks (store_base s) o (endpoint ep) →
    set_ok (f st) ∧ locks_ok (sorted (f st))) →
  save_locks ep p (update p f s, o) = (r, (s', o')) →
  op_frame (endpoint ep) s o s' o'
  ∧ match r with
    | Ok _ => ∃ st, set_ok st ∧ sorted st = disk_locks (store_base s) o (endpoint ep)
        ∧ disk_locks (store_base s) o' (endpoint ep) = sorted (f st)
    | Err e => system_error e
        ∧ disk_locks (store_base s) o' (endpoint ep) = disk_locks (store_base s) o (endpoint ep)
    end.
Proof.
  intros Hs Hd ((st & Hst & Hok & Hsort) & Hown & Hlt) Hf H.
  destruct (Hf st Hok Hsort) as [Hok' Hl'].
  apply (save_locks_spec ep p (f st)) in H; cycle 1.
  - by apply update_ok.
  - done.
  - cbn [update heap]. by rewrite lookup_alter_eq, Hst.
  - done.
  - done.
  - done.
  - done.
  - destruct H as (Hb & Hs' & Hd' & Ho & Hl & He & Hfr). cbn [update store_base] in *.
    split; [by split|]. destruct r; [|auto]. by exists st.
Qed.

(** What a call of [Create] may do to the locks [ls] of its endpoint: make the lock, on
    a path that has none; report the lock the path has; or fail with an error of its
    own, that of the context or one that is not [ErrLockExists], without a lock. *)
Definition create_spec (c : ctx) (path owner id : gostring) (now : Z) (ls : list Lock)
    (res : Lock * option go_error) (ls' : list Lock) : Prop :=
  match res with
  | (l, None) => l = new_lock id path owner now ∧ (path ∉ map lock_path ls) ∧ ls' = insert_lock l ls
  | (l, Some e) => ls' = ls
      ∧ (e = [LockExists] ∧ l ∈ ls ∧ lock_path l = path
         ∨ l = zero_lock ∧ (c = Some e ∨ errors_is LockExists e = false))
  end.

Lemma create_lock_spec c ep path owner id now s o res s' o' :
  store_ok s → disk_ok (store_base s) o →
  id ≠ [] → id ∉ map lock_id (disk_locks (store_base s) o (endpoint ep)) →
  create_lock c ep path owner id now (s, o) = (res, (s', o')) →
  op_ok (create_spec c path owner id now) (endpoint ep) s o res s' o'.
Proof.
  intros Hs Hd Hid Hfresh H. unfold create_lock in H.
  destruct c as [e|]; [injection H as <- <- <-; apply quiet_op; auto with go; [reflexivity|split; [done|by right; split; [|left]]]|].
  assert (∀ e, system_error e → errors_is LockExists e = false) as Hsys by (intros e He; by apply system_error_is).
  eapply with_locked_spec; [done|done| | |exact H]; [by split; [|right; split; [|right; auto]]|]. clear H Hs.
  intros p s1 o1 r s2 o2 Hb Hs1 Hd1 Hcur Hsame H. unfold create_body in H.
  pose proof Hcur as ((st & Hst & Hok & Hsort) & _). rewrite (deref_some _ _ _ Hst) in H.
  rewrite <-Hsame in Hfresh. rewrite <-Hb in Hd1, Hfresh. rewrite <-Hsort in Hfresh.
  destruct (byPath st !! path) as [ex|] eqn:Ex.
  { injection H as <- <- <-. apply quiet_op; auto with go; [reflexivity|].
    apply (ok_path _ Hok) in Ex as [Hin Hp]. rewrite Hsort in Hin. split; [done|by left]. }
  assert (path ∉ map lock_path (sorted st)) as Hpath.
  { intros (l & -> & Hl)%list_elem_of_fmap. assert (byPath st !! lock_path l = Some l) as Hl'
      by (by apply (ok_path _ Hok)). congruence. }
  cbv zeta in H. set (l := new_lock id path owner now) in *.
  assert (∀ st', set_ok st' → sorted st' = sorted st →
    set_ok (set_add l st') ∧ sorted (set_add l st') = insert_lock l (sorted st)) as Hadd.
  { intros st' Hok' E. rewrite <-E. apply set_add_ok; by rewrite ?E. }
  destruct (save_locks ep p _) as [r3 [s3 o3]] eqn:E3.
  apply update_save_spec in E3 as [Fr Hr]; [|done|done|done|].
  - destruct r3 as [u|e]; injection H as <- <- <-; (split; [done|]).
    + destruct Hr as (st' & Hok' & Hs' & ->). rewrite <-Hsort in *. split; [done|].
      split; [done|]. by apply Hadd.
    + destruct Hr as [He Hr]. split; [done|]. right. auto.
  - intros st' Hok' Hs'. rewrite <-Hsort in Hs'. destruct (Hadd st' Hok' Hs') as [Hok2 Hs2].
    split; [done|]. split; [apply Hok2|]. rewrite Hs2, insert_lock_perm. constructor.
    + by apply new_lock_cursor_ok.
    + rewrite Hsort. apply disk_locks_ok; auto with go.
Qed.

(** What a call of [Unlock] may do. *)
Definition unlock_spec (id requester : gostring) (force : bool) (ls : list Lock)
    (res : result go_error Lock) (ls' : list Lock) : Prop :=
  match res with
  | Ok l => l ∈ ls ∧ lock_id l = id
      ∧ (force = true ∨ equal_fold (owner_name (lock_owner l)) requester = true)
      ∧ ls ≡ₚ l :: ls'
  | Err _ => ls' = ls
  end.

Lemma unlock_op_spec c ep id requester force s o res s' o' :
  store_ok s → disk_ok (store_base s) o →
  unlock c ep id requester force (s, o) = (res, (s', o')) →
  op_ok (unlock_spec id requester force) (endpoint ep) s o res s' o'.
Proof.
  intros Hs Hd H. unfold unlock in H.
  destruct c as [e|]; [injection H as <- <- <-; apply quiet_op; auto with go; [reflexivity|done]|].
  eapply with_locked_spec; [done|done| | |exact H]; [done|]. clear H Hs.
  intros p s1 o1 r s2 o2 Hb Hs1 Hd1 Hcur Hsame H. unfold unlock_body in H.
  pose proof Hcur as ((st & Hst & Hok & Hsort) & _). rewrite (deref_some _ _ _ Hst) in H.
  rewrite <-Hb in Hd1.
  assert (∀ e, op_ok (unlock_spec id requester force) (endpoint ep) s1 o1 (Err e) s1 o1) as Hquit.
  { intros e. apply quiet_op; auto with go; [reflexivity|done]. }
  destruct (byID st !! id) as [l|] eqn:El; [|by injection H as <- <- <-].
  apply (ok_id _ Hok) in El as [Hin Hid].
  destruct (negb force && _) eqn:Ef; [by injection H as <- <- <-|].
  assert (∀ st', set_ok st' → sorted st' = sorted st →
    set_ok (set_remove l st') ∧ sorted st ≡ₚ l :: sorted (set_remove l st')) as Hrem.
  { intros st' Hok' E. rewrite <-E. apply set_remove_ok; [done|by rewrite E]. }
  destruct (save_locks ep p _) as [r3 [s3 o3]] eqn:E3.
  apply update_save_spec in E3 as [Fr Hr]; [|done|done|done|].
  - destruct r3 as [u|e]; injection H as <- <- <-; (split; [done|]).
    2: { by destruct Hr as [_ Hr]. }
    destruct Hr as (st' & Hok' & Hs' & ->). rewrite <-Hsort in *. split; [done|].
    split; [done|]. split; [|by apply Hrem].
    destruct force; [by left|right]. simpl in Ef. by apply negb_false_iff in Ef.
  - intros st' Hok' Hs'. rewrite <-Hsort in Hs'. destruct (Hrem st' Hok' Hs') as [Hok2 Hs2].
    destruct (disk_locks_ok (store_base s1) o1 (endpoint ep) Hd1) as [Hl _]; [auto with go|].
    rewrite <-Hsort in Hl. split; [done|]. split; [apply Hok2|].
    destruct Hl as [_ Hl]. rewrite Hs2 in Hl. by apply Forall_cons in Hl as [_ Hl].
Qed.

(** What a call of [List] may do: a page of the current locks, or an error. *)
Definition list_spec (opts : ListLocksOptions) (ls : list Lock)
    (res : result go_error (list Lock * gostring)) (ls' : list Lock) : Prop :=
  ls' = ls ∧ ∀ page, res = Ok page → list_page opts ls = Ok page.

Lemma list_store_spec c ep opts s o res s' o' :
  store_ok s → disk_ok (store_base s) o →
  list_store c ep opts (s, o) = (res, (s', o')) →
  op_frame (endpoint ep) s o s' o'
  ∧ ((∀ d, cache s !! endpoint ep = Some d → entry_fresh (store_base s) o (endpoint ep) d) →
     op_ok (list_spec opts) (endpoint ep) s o res s' o').
Proof.
  intros Hs Hd H. unfold list_store in H.
  destruct c as [e|].
  { injection H as <- <- <-. split; [by apply quiet_frame|]. intros _. apply quiet_op; auto with go; [reflexivity|done]. }
  destruct (load_locks ep (s, o)) as [r1 [s1 o1]] eqn:E1.
  apply load_locks_spec in E1 as (Hb & Q & Hs1 & Hc & Hf); [|done..].
  destruct r1 as [p|e]; injection H as <- <- <-; (split; [by apply quiet_frame|]); intros Hfresh;
    apply quiet_op; auto with go; [|done].
  destruct (Hc Hfresh p eq_refl) as ((st & Hst & Hok & Hsort) & _). split; [done|]. intros page.
  cbn [fst]. rewrite (deref_some _ _ _ Hst), set_list_page, Hsort, Hb by done.
  by rewrite (quiet_locks _ _ _ _ Q) by auto with go.
Qed.
End Calls.

(** ** Several processes sharing a data directory *)

Section System.
Context {U : Unicode}.
Variable base : gostring.

Inductive lock_op : Type :=
| OpCreate (c : ctx) (ep path owner id : gostring) (now : Z)
| OpUnlock (c : ctx) (ep id requester : gostring) (force : bool)
| OpList (c : ctx) (ep : gostring) (opts : ListLocksOptions).

Inductive lock_res : Type :=
| RCreate (r : Lock * option go_error)
| RUnlock (r : result go_error Lock)
| RList (r : result go_error (list Lock * gostring)).

Definition run_op (op : lock_op) (w : lock_world) : lock_res * lock_world :=
  match op with
  | OpCreate c ep path owner id now =>
      let '(r, w) := create_lock c ep path owner id now w in (RCreate r, w)
  | OpUnlock c ep id requester force =>
      let '(r, w) := unlock c ep id requester force w in (RUnlock r, w)
  | OpList c ep opts => let '(r, w) := list_store c ep opts w in (RList r, w)
  end.

Definition op_endpoint (op : lock_op) : gostring :=
  match op with OpCreate _ ep _ _ _ _ | OpUnlock _ ep _ _ _ | OpList _ ep _ => endpoint ep end.

(** The abstract lock server: each operation on the endpoint's sorted list. *)
Definition op_spec (op : lock_op) (ls : list Lock) (res : lock_res) (ls' : list Lock) : Prop :=
  match op, res with
  | OpCreate c _ path owner id now, RCreate r => create_spec c path owner id now ls r ls'
  | OpUnlock _ _ id requester force, RUnlock r => unlock_spec id requester force ls r ls'
  | OpList _ _ opts, RList r => list_spec opts ls r ls'
  | _, _ => False
  end.

(** A new identifier is non-empty and new to the endpoint, as UUIDs are. *)
Definition fresh_id (op : lock_op) (o : os) : Prop :=
  match op with
  | OpCreate _ ep _ _ id _ => id ≠ [] ∧ (id ∉ map lock_id (disk_locks base o (endpoint ep)))
  | _ => True
  end.

(** The stores of the running processes, and the machine they share. *)
Definition system : Type := list FileLockStore * os.

Inductive sys_step : system → system → Prop :=
| step_op i ps o s op r s' o' :
    ps !! i = Some s → fresh_id op o → run_op op (s, o) = (r, (s', o')) →
    sys_step (ps, o) (<[i := s']> ps, o')
| step_restart i ps o : sys_step (ps, o) (<[i := new_file_lock_store base]> ps, o)
| step_other ps o o' : quiet base o o' → sys_step (ps, o) (ps, o').

Definition sys_start (n : nat) (o : os) : system := (replicate n (new_file_lock_store base), o).

Definition sys_ok (sys : system) : Prop :=
  disk_ok base (snd sys) ∧ Forall (λ s, store_base s = base ∧ store_ok s) (fst sys).

(** What [List] trusts the file system with: a lock file with the inode number, the
    modification time and the size that the process has cached has the contents it has
    cached.  A file that another process wrote since could have all three in common
    with the old one. *)
Definition metadata_identifies (op : lock_op) (s : FileLockStore) (o : os) : Prop :=
  match op with
  | OpList _ ep _ => ∀ c, cache s !! endpoint ep = Some c → entry_fresh base o (endpoint ep) c
  | _ => True
  end.

Lemma run_op_ok op s o r s' o' :
  store_base s = base → store_ok s → disk_ok base o → fresh_id op o →
  run_op op (s, o) = (r, (s', o')) →
  op_frame (op_endpoint op) s o s' o'
  ∧ (metadata_identifies op s o → op_ok (op_spec op) (op_endpoint op) s o r s' o').
Proof.
  intros Hb Hs Hd Hfresh H. rewrite <-Hb in Hd. unfold run_op in H.
  unfold fresh_id in Hfresh. unfold metadata_identifies. rewrite <-Hb in Hfresh |- *. destruct op; simpl in *.
  - destruct (create_lock _ _ _ _ _ _ _) as [r1 [s1 o1]] eqn:E. injection H as <- <- <-.
    destruct Hfresh. eapply create_lock_spec in E; [|done..]. split; [apply E|done].
  - destruct (unlock _ _ _ _ _ _) as [r1 [s1 o1]] eqn:E. injection H as <- <- <-.
    eapply unlock_op_spec in E; [|done..]. split; [apply E|done].
  - destruct (list_store _ _ _ _) as [r1 [s1 o1]] eqn:E. injection H as <- <- <-.
    by eapply list_store_spec in E.
Qed.

Lemma sys_step_ok sys sys' : sys_step sys sys' → sys_ok sys → sys_ok sys'.
Proof.
  intros Hstep [Hd Hps]. destruct Hstep as [i ps o s op r s' o' Hi Hf Hrun|i ps o|ps o o' Q].
  - pose proof Hps as Hps'. rewrite Forall_lookup in Hps'. destruct (Hps' i s Hi) as [Hb Hs].
    destruct (run_op_ok op s o r s' o' Hb Hs Hd Hf Hrun) as [[Fb Fs Fd _ _] _].
    rewrite Hb in *. split; [done|]. simpl in *. by apply Forall_insert.
  - split; [done|]. apply Forall_insert; [done|]. split; [done|]. apply new_store_ok.
  - split; [by eapply disk_quiet|done].
Qed.

Lemma sys_reachable_ok n o sys :
  disk_ok base o → rtc sys_step (sys_start n o) sys → sys_ok sys.
Proof.
  intros Hd H. remember (sys_start n o) as start eqn:E.
  assert (sys_ok start) as Hstart.
  { rewrite E. split; [done|]. apply Forall_replicate. split; [done|]. apply new_store_ok. }
  clear E. induction H as [|a b c Hab Hbc IH]; [done|]. apply IH. by eapply sys_step_ok.
Qed.

(** A process that is alone need not trust the file system. *)
Definition alone (sys : system) : Prop :=
  (length (fst sys) <= 1)%nat ∧ Forall (λ s, cache_fresh s (snd sys)) (fst sys).

Lemma sys_step_alone sys sys' : sys_step sys sys' → sys_ok sys → alone sys → alone sys'.
Proof.
  intros Hstep [Hd Hps] [Hl Ha]. destruct Hstep as [i ps o s op r s' o' Hi Hf Hrun|i ps o|ps o o' Q]; simpl in *.
  - rewrite Forall_lookup in Hps. destruct (Hps i s Hi) as [Hb Hs].
    destruct (run_op_ok op s o r s' o' Hb Hs Hd Hf Hrun) as [[_ _ _ _ Ff] _].
    split; cbn [fst snd]; [by rewrite length_insert|]. destruct ps as [|s1 [|]]; [done| |simpl in Hl; lia].
    destruct i as [|i]; [|done]. injection Hi as ->. inversion_clear Ha. repeat constructor. auto.
  - split; cbn [fst snd]; [by rewrite length_insert|]. apply Forall_insert; [done|]. apply new_store_fresh.
  - split; [done|]. cbn [fst snd]. rewrite Forall_lookup in Hps, Ha |- *. intros i s Hi.
    destruct (Hps i s Hi) as [Hb _]. apply (fresh_quiet _ o); [by rewrite Hb|eauto].
Qed.

Lemma sys_reachable_alone n o sys : (n <= 1)%nat →
  disk_ok base o → rtc sys_step (sys_start n o) sys → alone sys.
Proof.
  intros Hn Hd H. remember (sys_start n o) as start eqn:E.
  assert (sys_ok start ∧ alone start) as Hstart.
  { rewrite E. split; split; simpl; [done|..].
    - apply Forall_replicate. split; [done|]. apply new_store_ok.
    - by rewrite length_replicate.
    - apply Forall_replicate, new_store_fresh. }
  clear E. destruct Hstart as [Hok Ha]. induction H as [|a b c Hab Hbc IH]; [done|].
  apply IH; [by eapply sys_step_ok|by eapply sys_step_alone].
Qed.

(** ** Properties *)

(** C14. Refinement: in any reachable state of any number of processes sharing
    the data directory, restarting at any time, with any pattern of failing
    system calls and any reuse of inode numbers, an operation run by one of them
    behaves as the abstract lock server on the endpoint's current locks - [Create]
    adds a lock only to an unlocked path, and when it reports a conflict returns the
    lock the path has, [Unlock] removes exactly the lock of that ID for its owner or
    by force, [List] returns a page of the current locks, errors change nothing -
    and touches no other endpoint. Several processes rely for [List] on the file
    system to tell a new lock file from the one it replaced by its inode number,
    modification time and size together; one process alone does not. *)
Theorem lock_store_refines n o0 ps o i s op r s' o' :
  disk_ok base o0 → rtc sys_step (sys_start n o0) (ps, o) →
  ps !! i = Some s → fresh_id op o → (n <= 1)%nat ∨ metadata_identifies op s o →
  run_op op (s, o) = (r, (s', o')) →
  op_spec op (disk_locks base o (op_endpoint op)) r (disk_locks base o' (op_endpoint op))
  ∧ ∀ d, safe_name d = true → d ≠ op_endpoint op → disk_locks base o' d = disk_locks base o d.
Proof.
  intros Hd0 Hreach Hi Hf Hm Hrun. destruct (sys_reachable_ok _ _ _ Hd0 Hreach) as [Hd Hps].
  simpl in *. rewrite Forall_lookup in Hps. destruct (Hps i s Hi) as [Hb Hs].
  assert (metadata_identifies op s o) as Hmeta.
  { destruct Hm as [Hn|Hm]; [|done]. destruct (sys_reachable_alone _ _ _ Hn Hd0 Hreach) as [_ Ha].
    rewrite Forall_lookup in Ha. specialize (Ha i s Hi). unfold cache_fresh in Ha. rewrite Hb in Ha.
    destruct op; [done|done|]. intros d. apply Ha. auto with go. }
  destruct (run_op_ok op s o r s' o' Hb Hs Hd Hf Hrun) as [_ H]. destruct (H Hmeta) as [Fr HP].
  rewrite Hb in HP. split; [done|]. destruct Fr as [_ _ _ Fo _]. by rewrite Hb in Fo.
Qed.

(** Mutual exclusion and coherence: in every reachable state, no two locks
    of an endpoint have the same path or the same ID, positions are fit for
    cursors, and whatever a process has cached for an endpoint is exactly what
    the lock file holds whenever the file still has the contents it cached. *)
Theorem lock_store_invariant n o0 ps o d :
  disk_ok base o0 → rtc sys_step (sys_start n o0) (ps, o) → safe_name d = true →
  NoDup (map lock_path (disk_locks base o d)) ∧ NoDup (map lock_id (disk_locks base o d))
  ∧ locks_sorted (disk_locks base o d) ∧ Forall cursor_ok (disk_locks base o d)
  ∧ ∀ i s c f, ps !! i = Some s → cache s !! d = Some c →
      os_files o !! lock_path_of base d = Some f → f_data f = c_data c →
      sorted (deref (c_set c) s) = disk_locks base o d.
Proof.
  intros Hd0 Hreach Hdn. destruct (sys_reachable_ok _ _ _ Hd0 Hreach) as [Hd Hps].
  simpl in *. destruct (disk_locks_ok base o d Hd Hdn) as [[[U1 U2] Hc] Hs].
  split; [done|]. split; [done|]. split; [done|]. split; [done|].
  intros i s c f Hi Hcache Hf Hdata. rewrite Forall_lookup in Hps. destruct (Hps i s Hi) as [Hb Hso].
  assert (cache_entry_ok s d c) as [_ Hset] by (by apply (co_entries _ _ Hso)).
  destruct Hset as (ls & st & Hun & Hu & Hst & Hok & Hperm).
  rewrite (deref_some _ _ _ Hst). unfold disk_locks. rewrite Hf, Hdata, Hun.
  apply same_sorted; [apply Hok|done|apply Hu].
Qed.
End System.

(** ** Operations when no system call fails *)

Section NoFault.
Context {U : Unicode}.

Lemma no_faults_le o o' : os_faults o = [] → os_le o o' → os_faults o' = [].
Proof.
  intros H L. pose proof (le_faults _ _ L) as F. rewrite H in F.
  destruct (os_faults o') as [|f l]; [done|]. exfalso.
  by apply (not_elem_of_nil f), F, list_elem_of_here.
Qed.

Lemma acquire_no_fault s ep o : os_faults o = [] →
  ∃ o', acquire_file_lock s ep o = (Ok tt, o') ∧ os_names o' = os_names o
    ∧ same_except [lock_file_path s ep ++ ".lock"] o o'.
Proof.
  intros H. unfold acquire_file_lock, mkdir_all. rewrite syscall_no_fault by done.
  destruct (open_create _ o) as [r o1] eqn:E. pose proof (open_create_files _ _ _ _ E) as Hs.
  unfold open_create in E. rewrite syscall_no_fault in E by done.
  assert (r = Ok tt ∧ os_faults o1 = [] ∧ os_names o1 = os_names o) as (-> & Hf & Hn)
    by (destruct (os_files o !! _); by injection E as <- <-).
  unfold flock. rewrite Hf. simpl. exists (set_faults [] o1). done.
Qed.

Lemma read_locks_no_fault s ep o : os_faults o = [] → disk_ok (store_base s) o →
  ∃ p s', read_locks ep (s, o) = (Ok p, (s', o)).
Proof.
  intros H Hd. unfold read_locks, stat, read_file. rewrite !syscall_no_fault by done.
  rewrite lock_file_path_of.
  destruct (os_files o !! _) as [f|] eqn:E; simpl; [|by eauto].
  destruct (disk_files _ _ Hd _ _ (endpoint_safe_name ep) E) as (ls & Hls & _).
  assert (∃ p s', parse_locks ep (file_info f) (f_data f) s = (Ok p, s')) as (q & t & Hp)
    by (unfold parse_locks; rewrite Hls; eauto).
  unfold found_locks. destruct (cached s ep) as [c|]; [|by rewrite Hp; eauto].
  destruct (str_eqb _ _); [by eauto|]. rewrite Hp. eauto.
Qed.

Lemma write_lock_file_no_fault d path data o nm ns : os_faults o = [] →
  os_names o = nm :: ns → os_files o !! ((d ++ "/" ++ temp_file_prefix ++ "locks-") ++ nm) = None →
  ∃ o', write_lock_file d path data o = (Ok tt, o').
Proof.
  intros H Hn Hfree. unfold write_lock_file, mkdir_all, create_temp.
  rewrite !syscall_no_fault by done. rewrite Hn. cbn [pick_free]. rewrite Hfree.
  unfold write_temp, write, next_fault. cbn [os_faults]. rewrite H. cbn beta iota.
  unfold sync, close, rename. rewrite !syscall_no_fault by done. cbn [os_files set_files].
  rewrite lookup_alter_eq, lookup_insert_eq. simpl. eauto.
Qed.

Lemma save_locks_no_fault ep p s o data nm ns : os_faults o = [] →
  marshal (sorted (deref p s)) = Ok data → os_names o = nm :: ns →
  os_files o !! ((lock_dir s ep ++ "/" ++ temp_file_prefix ++ "locks-") ++ nm) = None →
  ∃ w, save_locks ep p (s, o) = (Ok tt, w).
Proof.
  intros H Hm Hn Hfree. unfold save_locks. rewrite Hm.
  destruct (write_lock_file_no_fault (lock_dir s ep) (lock_file_path s ep) data o nm ns)
    as [o1 ->]; [done..|]. destruct (stat _ o1) as [[info|e] o2]; eauto.
Qed.

(** The temporary name the next save would use. *)
Definition save_temp (base d nm : gostring) : gostring :=
  under base ["locks"; d; temp_file_prefix ++ "locks-" ++ nm].

Lemma save_temp_of s ep nm :
  (lock_dir s ep ++ "/" ++ temp_file_prefix ++ "locks-") ++ nm
  = save_temp (store_base s) (endpoint ep) nm.
Proof.
  rewrite lock_dir_of.
  change (under (store_base s) ["locks"%go; endpoint ep] ++ "/" ++ temp_file_prefix ++ "locks-")
    with (under (store_base s) ["locks"%go; endpoint ep] ++ slash :: (temp_file_prefix ++ "locks-")).
  by rewrite under_snoc, under_append.
Qed.

(** With no fault, an operation reaches its body with the current set, and no
    file but the advisory lock's has changed. *)
Lemma with_locked_no_fault {A} (fail : go_error → A) ep body s o :
  store_ok s → disk_ok (store_base s) o → os_faults o = [] →
  ∃ p s1 o1, store_base s1 = store_base s ∧ current (endpoint ep) p s1 o1
    ∧ disk_locks (store_base s) o1 (endpoint ep) = disk_locks (store_base s) o (endpoint ep)
    ∧ os_faults o1 = [] ∧ os_names o1 = os_names o
    ∧ same_except [lock_file_path s ep ++ ".lock"] o o1
    ∧ with_locked fail ep body (s, o)
      = (let '(r, (s2, o2)) := body p (s1, o1) in (r, (s2, release_file_lock o2))).
Proof.
  intros Hs Hd Hf. destruct (acquire_no_fault s ep o Hf) as (o1 & Ha & Hn & Hse).
  pose proof (acquire_quiet _ _ _ _ _ Ha) as Q.
  pose proof (no_faults_le _ _ Hf (proj1 Q)) as Hf1.
  assert (disk_ok (store_base s) o1) as Hd1 by (by eapply disk_quiet).
  destruct (read_locks_no_fault s ep o1 Hf1 Hd1) as (p & s1 & Hr).
  pose proof (read_locks_spec ep s o1 _ _ _ Hs Hd1 Hr)
    as (Hb & _ & _ & Hc & _).
  exists p, s1, o1. split; [done|]. split; [by apply Hc|].
  split; [by apply quiet_locks; auto with go|]. split; [done|]. split; [done|]. split; [done|].
  unfold with_locked. by rewrite Ha, Hr.
Qed.

Lemma save_temp_free s ep nm o o1 :
  digits_name nm = true → same_except [lock_file_path s ep ++ ".lock"] o o1 →
  os_files o !! save_temp (store_base s) (endpoint ep) nm = None →
  os_files o1 !! save_temp (store_base s) (endpoint ep) nm = None.
Proof.
  intros Hnm Hs Hfree. rewrite Hs; [done|]. rewrite list_elem_of_singleton.
  rewrite lock_file_path_of. unfold lock_path_of, save_temp.
  change ["locks"%go; endpoint ep; "locks.json"%go]
    with (["locks"%go; endpoint ep] ++ ["locks.json"%go]).
  rewrite under_append. intros E. apply under_inj in E; [by injection E|done|done|..].
  - apply lock_elems_no_slash; [auto with go|]. apply contains_byte_false. cbn.
    apply contains_byte_false. by apply digits_no_slash.
  - apply lock_elems_no_slash; [auto with go|]. by apply contains_byte_false.
Qed.

Lemma update_save_no_fault ep p f st s o nm ns :
  heap s !! p = Some st → os_faults o = [] → os_names o = nm :: ns →
  forallb lock_valid (sorted (f st)) = true →
  os_files o !! save_temp (store_base s) (endpoint ep) nm = None →
  ∃ s' o', save_locks ep p (update p f s, o) = (Ok tt, (s', o')).
Proof.
  intros Hst Hf Hn Hv Hfree.
  destruct (save_locks_no_fault ep p (update p f s) o
    (print_json (JArr (map json_of_lock (sorted (f st))))) nm ns) as [[s' o'] Hw]; eauto.
  - rewrite (deref_some _ _ (f st)) by (cbn [update heap]; by rewrite lookup_alter_eq, Hst).
    unfold marshal, marshal_locks. by rewrite Hv.
  - by rewrite save_temp_of.
Qed.

Lemma valid_perm x y : x ≡ₚ y → forallb lock_valid y = true → forallb lock_valid x = true.
Proof. intros P. rewrite !forallb_Forall. by rewrite P. Qed.

Section Progress.
Context (s : FileLockStore) (o : os) (ep nm : gostring) (ns : list gostring).
Context (Hs : store_ok s) (Hd : disk_ok (store_base s) o) (Hf : os_faults o = [])
  (Hn : os_names o = nm :: ns)
  (Hfree : os_files o !! save_temp (store_base s) (endpoint ep) nm = None).

Let ls := disk_locks (store_base s) o (endpoint ep).

Lemma first_name_digits : digits_name nm = true.
Proof.
  pose proof (disk_names _ _ Hd) as H. unfold names_ok in H. rewrite Hn in H.
  by apply Forall_inv in H.
Qed.

Lemma create_progress path owner id now :
  let lock := new_lock id path owner now in
  forallb lock_valid (lock :: ls) = true → id ≠ [] → id ∉ map lock_id ls →
  path ∉ map lock_path ls →
  ∃ s' o', create_lock None ep path owner id now (s, o) = ((lock, None), (s', o'))
    ∧ disk_locks (store_base s) o' (endpoint ep) = insert_lock lock ls.
Proof.
  intros lock Hvalid Hid Hfresh Hpath.
  destruct (with_locked_no_fault (λ e, (zero_lock, Some e)) ep
    (create_body ep path owner id now) s o Hs Hd Hf)
    as (p & s1 & o1 & Hb & ((st & Hst & Hok & Hsort) & _) & Hsame & Hf1 & Hn1 & Hse & Hw).
  rewrite Hb, Hsame in Hsort. fold ls in Hsort.
  unfold create_body in Hw at 2. rewrite (deref_some _ _ _ Hst) in Hw.
  destruct (byPath st !! path) as [ex|] eqn:Ex.
  { apply (ok_path _ Hok) in Ex as [Hin <-]. rewrite Hsort in Hin.
    destruct Hpath. by apply list_elem_of_fmap_2. }
  fold lock in Hw. pose proof Hfresh as Hfresh'. rewrite <-Hsort in Hfresh, Hpath, Hvalid.
  destruct (update_save_no_fault ep p (set_add lock) st s1 o1 nm ns) as (s3 & o3 & Hsv);
    [done|done|by rewrite Hn1| |rewrite Hb; eapply save_temp_free; eauto using first_name_digits|].
  { eapply valid_perm; [|exact Hvalid]. destruct (set_add_ok lock st Hok) as [_ ->]; [done..|].
    apply insert_lock_perm. }
  rewrite Hsv in Hw. exists s3, (release_file_lock o3).
  assert (create_lock None ep path owner id now (s, o) = (lock, None, (s3, release_file_lock o3)))
    as Hc by exact Hw.
  split; [exact Hc|].
  apply (create_lock_spec _ _ _ _ _ _ _ _ _ _ _ Hs Hd Hid Hfresh') in Hc as [_ (_ & _ & Hc)].
  exact Hc.
Qed.

Lemma create_conflict path owner id now l : l ∈ ls → lock_path l = path →
  ∃ w, create_lock None ep path owner id now (s, o) = ((l, Some [LockExists]), w).
Proof.
  intros Hl Hlp.
  destruct (with_locked_no_fault (λ e, (zero_lock, Some e)) ep
    (create_body ep path owner id now) s o Hs Hd Hf)
    as (p & s1 & o1 & Hb & ((st & Hst & Hok & Hsort) & _) & Hsame & _ & _ & _ & Hw).
  rewrite Hb, Hsame in Hsort. fold ls in Hsort.
  unfold create_body in Hw at 2. rewrite (deref_some _ _ _ Hst) in Hw.
  assert (byPath st !! path = Some l) as Ex by (apply (ok_path _ Hok); by rewrite Hsort).
  rewrite Ex in Hw. by eexists.
Qed.

Lemma unlock_progress l force requester : forallb lock_valid ls = true → l ∈ ls →
  force = true ∨ equal_fold (owner_name (lock_owner l)) requester = true →
  ∃ s' o', unlock None ep (lock_id l) requester force (s, o) = (Ok l, (s', o'))
    ∧ ls ≡ₚ l :: disk_locks (store_base s) o' (endpoint ep).
Proof.
  intros Hvs Hl Hauth.
  destruct (with_locked_no_fault Err ep
    (unlock_body ep (lock_id l) requester force) s o Hs Hd Hf)
    as (p & s1 & o1 & Hb & ((st & Hst & Hok & Hsort) & _) & Hsame & Hf1 & Hn1 & Hse & Hw).
  rewrite Hb, Hsame in Hsort. fold ls in Hsort. rewrite <-Hsort in Hl, Hvs.
  unfold unlock_body in Hw at 2. rewrite (deref_some _ _ _ Hst) in Hw.
  assert (byID st !! lock_id l = Some l) as Ex by (by apply (ok_id _ Hok)). rewrite Ex in Hw.
  assert (negb force && negb (equal_fold (owner_name (lock_owner l)) requester) = false) as Ha
    by (destruct Hauth as [->| ->]; [done|by rewrite andb_false_r]).
  rewrite Ha in Hw. destruct (set_remove_ok l st Hok Hl) as [_ Prem].
  destruct (update_save_no_fault ep p (set_remove l) st s1 o1 nm ns) as (s3 & o3 & Hsv);
    [done|done|by rewrite Hn1| |rewrite Hb; eapply save_temp_free; eauto using first_name_digits|].
  { pose proof (valid_perm _ _ (symmetry Prem) Hvs) as Hv'. cbn [forallb] in Hv'.
    by apply andb_prop in Hv' as [_ Hv']. }
  rewrite Hsv in Hw. exists s3, (release_file_lock o3).
  assert (unlock None ep (lock_id l) requester force (s, o) = (Ok l, (s3, release_file_lock o3)))
    as Hc by exact Hw.
  split; [exact Hc|].
  apply (unlock_op_spec _ _ _ _ _ _ _ _ _ _ Hs Hd) in Hc as [_ (_ & _ & _ & Hc)]. exact Hc.
Qed.
End Progress.

(** C34. Progress: when no system call fails, [Create] on an unlocked path
    returns the new lock and the lock is then in the endpoint's file, in order;
    on a locked path it returns the lock that holds it with [ErrLockExists];
    and [Unlock] by the owner, or by force, returns the lock and removes it. *)
Theorem lock_store_progress s o ep path owner id now nm ns :
  store_ok s → disk_ok (store_base s) o → os_faults o = [] → os_names o = nm :: ns →
  os_files o !! save_temp (store_base s) (endpoint ep) nm = None →
  let ls := disk_locks (store_base s) o (endpoint ep) in
  let lock := new_lock id path owner now in
  forallb lock_valid (lock :: ls) = true → id ≠ [] → id ∉ map lock_id ls →
  (path ∉ map lock_path ls → ∃ s' o', create_lock None ep path owner id now (s, o)
      = ((lock, None), (s', o'))
    ∧ disk_locks (store_base s) o' (endpoint ep) = insert_lock lock ls)
  ∧ (∀ l, l ∈ ls → lock_path l = path → ∃ w,
      create_lock None ep path owner id now (s, o) = ((l, Some [LockExists]), w))
  ∧ (∀ l force requester, l ∈ ls →
      force = true ∨ equal_fold (owner_name (lock_owner l)) requester = true →
      ∃ s' o', unlock None ep (lock_id l) requester force (s, o) = (Ok l, (s', o'))
        ∧ ls ≡ₚ l :: disk_locks (store_base s) o' (endpoint ep)).
Proof.
  cbv zeta. intros Hs Hd Hf Hn Hfree Hvalid Hid Hfresh. split; [|split].
  - intros Hpath. by eapply create_progress.
  - intros l. by apply create_conflict.
  - intros l force requester. eapply unlock_progress; [done..|].
    cbn [forallb] in Hvalid. by apply andb_prop in Hvalid as [_ Hvs].
Qed.
End NoFault.

(** ** Witnesses *)

(** Two processes on one data directory: the first locks a path, the second
    asks for the same path. *)
Definition lock_os : os := Os ∅ 1700000000000000000 [] [] ["1"; "2"; "3"] (0, 0).
Definition lock_base : gostring := "/data".

Lemma lock_os_ok : disk_ok lock_base lock_os.
Proof.
  split; [repeat constructor|constructor|]. intros d f _. simpl. by rewrite lookup_empty.
Qed.

Definition first_create : lock_op := OpCreate None "/o/r" "art/a.psd" "alice" "id-1" 1700000000000000000.
Definition second_create : lock_op := OpCreate None "/o/r" "art/a.psd" "bob" "id-2" 1700000001000000000.
Definition after_first : lock_res * lock_world :=
  @run_op sample_unicode first_create (new_file_lock_store lock_base, lock_os).
Definition two_stores : list FileLockStore :=
  [fst (snd after_first); new_file_lock_store lock_base].
Definition after_second : lock_res * lock_world :=
  @run_op sample_unicode second_create (new_file_lock_store lock_base, snd (snd after_first)).

Lemma pair_eta {A B C} (x : A * (B * C)) : x = (fst x, (fst (snd x), snd (snd x))).
Proof. by destruct x as [a [b c]]. Qed.

Lemma first_reachable :
  rtc (@sys_step sample_unicode lock_base) (sys_start lock_base 2 lock_os)
    (two_stores, snd (snd after_first)).
Proof.
  apply rtc_once.
  change (@sys_step sample_unicode lock_base
    (replicate 2 (new_file_lock_store lock_base), lock_os)
    (<[0%nat := fst (snd after_first)]> (replicate 2 (new_file_lock_store lock_base)),
     snd (snd after_first))).
  apply step_op with (new_file_lock_store lock_base) first_create (fst after_first).
  - reflexivity.
  - split; [done|]. apply not_elem_of_nil.
  - apply pair_eta.
Qed.

Lemma second_fresh : fresh_id lock_base second_create (snd (snd after_first)).
Proof. split; [done|]. apply (bool_decide_unpack (_ ∉ _)). vm_compute. exact I. Qed.

(** An operation of process [i] in the system. *)
Definition run_at (i : nat) (op : lock_op) (sys : system) : system :=
  match fst sys !! i with
  | Some s => let x := @run_op sample_unicode op (s, snd sys) in (<[i := fst (snd x)]> (fst sys), snd (snd x))
  | None => sys
  end.
Lemma run_at_step i op sys : fresh_id lock_base op (snd sys) → rtc (@sys_step sample_unicode lock_base) sys (run_at i op sys).
Proof.
  intros Hf. unfold run_at. destruct sys as [ps o]. cbn [fst snd] in *. destruct (ps !! i) as [s|] eqn:E; [|done].
  apply rtc_once, step_op with s op (fst (@run_op sample_unicode op (s, o))); [done|done|apply pair_eta].
Qed.

(** The second process has listed the locks when the first adds another. *)
Definition list_all : lock_op :=
  OpList None "/o/r" {| opt_path := []; opt_id := []; opt_cursor := []; opt_limit := 0; opt_refspec := [] |}.
Definition third_create : lock_op := OpCreate None "/o/r" "art/b.psd" "alice" "id-3" 1700000002000000000.
Definition listed_before : system := run_at 1 list_all (run_at 0 first_create (sys_start lock_base 2 lock_os)).
Definition stale : system := run_at 0 third_create listed_before.
Definition stale_store : FileLockStore := default (new_file_lock_store lock_base) (fst stale !! 1%nat).
Definition listed_after : lock_res * lock_world := @run_op sample_unicode list_all (stale_store, snd stale).

Lemma stale_reachable : rtc (@sys_step sample_unicode lock_base) (sys_start lock_base 2 lock_os) (fst stale, snd stale).
Proof.
  rewrite <-surjective_pairing. unfold stale, listed_before.
  etrans; [|apply run_at_step; split; [done|]; apply (bool_decide_unpack (_ ∉ _)); vm_compute; exact I].
  etrans; [|by apply run_at_step]. apply run_at_step. split; [done|]. apply not_elem_of_nil.
Qed.
Lemma is_some_default {A} (d : A) o : is_some o = true → o = Some (default d o).
Proof. by destruct o. Qed.
Lemma stale_lookup : fst stale !! 1%nat = Some stale_store.
Proof. apply is_some_default. vm_compute. reflexivity. Qed.
(** What it has cached is of another time and size than the file. *)
Lemma stale_told : metadata_identifies lock_base list_all stale_store (snd stale).
Proof.
  intros c Hc f Hf Heq. exfalso.
  assert (match cache stale_store !! endpoint "/o/r", os_files (snd stale) !! lock_path_of lock_base (endpoint "/o/r") with
          | Some c, Some f => bool_decide (file_info f = c_info c) | _, _ => true end = false) as H by (vm_compute; reflexivity).
  rewrite Hc, Hf in H. exact (bool_decide_eq_false_1 _ H Heq).
Qed.

Lemma lock_store_refines_witness :
  fst after_second = RCreate (new_lock "id-1" "art/a.psd" "alice" 1700000000000000000, Some [LockExists])
  ∧ disk_locks lock_base (snd (snd after_second)) "o_r"
    = [new_lock "id-1" "art/a.psd" "alice" 1700000000000000000]
  ∧ list_spec {| opt_path := []; opt_id := []; opt_cursor := []; opt_limit := 0; opt_refspec := [] |}
      (disk_locks lock_base (snd stale) "o_r")
      (Ok ([new_lock "id-1" "art/a.psd" "alice" 1700000000000000000; new_lock "id-3" "art/b.psd" "alice" 1700000002000000000], []))
      (disk_locks lock_base (snd (snd listed_after)) "o_r").
Proof.
  assert (fst after_second
    = RCreate (new_lock "id-1" "art/a.psd" "alice" 1700000000000000000, Some [LockExists])) as Hr
    by (vm_compute; reflexivity).
  split; [exact Hr|]. split.
  - destruct (@lock_store_refines sample_unicode lock_base 2 lock_os two_stores
      (snd (snd after_first)) 1 (new_file_lock_store lock_base) second_create (fst after_second)
      (fst (snd after_second)) (snd (snd after_second)) lock_os_ok first_reachable eq_refl
      second_fresh (or_intror I) (pair_eta after_second)) as [H _].
    rewrite Hr in H. destruct H as [H _].
    change (op_endpoint second_create) with ("o_r"%go : gostring) in H.
    rewrite H. vm_compute. reflexivity.
  - destruct (@lock_store_refines sample_unicode lock_base 2 lock_os (fst stale) (snd stale) 1 stale_store list_all
      (fst listed_after) (fst (snd listed_after)) (snd (snd listed_after)) lock_os_ok stale_reachable stale_lookup
      I (or_intror stale_told) (pair_eta listed_after)) as [H _].
    assert (fst listed_after = RList (Ok ([new_lock "id-1" "art/a.psd" "alice" 1700000000000000000;
      new_lock "id-3" "art/b.psd" "alice" 1700000002000000000], []))) as Hl by (vm_compute; reflexivity).
    rewrite Hl in H. exact H.
Defined.

Lemma lock_store_invariant_witness :
  NoDup (map lock_path (disk_locks lock_base (snd (snd after_first)) "o_r"))
  ∧ length (disk_locks lock_base (snd (snd after_first)) "o_r") = 1%nat.
Proof.
  split; [|vm_compute; reflexivity].
  apply (@lock_store_invariant sample_unicode lock_base 2 lock_os two_stores
    (snd (snd after_first)) "o_r" lock_os_ok first_reachable eq_refl).
Defined.

Lemma lock_store_progress_witness :
  ∃ s' o', create_lock None "/o/r" "art/a.psd" "alice" "id-1" 0
    (new_file_lock_store lock_base, lock_os)
    = ((new_lock "id-1" "art/a.psd" "alice" 0, None), (s', o')).
Proof.
  destruct (@lock_store_progress sample_unicode (new_file_lock_store lock_base) lock_os "/o/r"
    "art/a.psd" "alice" "id-1" 0 "1" ["2"; "3"]) as (H & _ & _).
  - apply new_store_ok.
  - apply lock_os_ok.
  - reflexivity.
  - reflexivity.
  - reflexivity.
  - reflexivity.
  - discriminate.
  - apply not_elem_of_nil.
  - destruct H as (s' & o' & H & _); [apply not_elem_of_nil|]. exists s', o'. exact H.
Defined.
