(* ===== verification/SharedDir.v ===== *)
(** * One data directory

    Objects, their temporary files, the lock files and the probes of the readiness
    check are files below one directory.  [touches base A] says that a call changes
    only files whose path below [base] has elements [A] allows.  Each part of the
    server touches its own, so what one part does leaves the others' data alone. *)

From S2P Require Import Prelude GoStrings GoUnicode GoPath GoConv GoHash GoTime GoOs Sanitise Storage Local Models LockSet LockStore.

Local Open Scope go_scope.

(** ** What a call touches *)

Definition touches (base : gostring) (A : list gostring → Prop) (o o' : os) : Prop :=
  os_le o o' ∧ ∀ p, (∀ l, A l → p ≠ under base l) → os_files o' !! p = os_files o !! p.

#[export] Instance touches_preorder base A : PreOrder (touches base A).
Proof.
  split; [by intros o; split|]. intros o1 o2 o3 [L1 S1] [L2 S2]. split; [by etrans|].
  intros p Hp. by rewrite S2, S1.
Qed.

Lemma touches_files base A o o' : os_le o o' → os_files o' = os_files o → touches base A o o'.
Proof. intros Hle Hf. split; [done|]. intros p _. by rewrite Hf. Qed.

Lemma touches_except base (A : list gostring → Prop) l o o' :
  os_le o o' → same_except (map (under base) l) o o' → Forall A l → touches base A o o'.
Proof.
  intros Hle Hs HA. split; [done|]. intros p Hp. apply Hs. intros (e & -> & He)%list_elem_of_fmap.
  rewrite Forall_forall in HA. by apply (Hp e); [apply HA|].
Qed.

Definition proper (l : list gostring) : Prop := l ≠ [] ∧ Forall (λ x, slash ∉ x) l.

(** A file with other elements stays. *)
Lemma touches_other base (A : list gostring → Prop) l o o' : touches base A o o' →
  (∀ e, A e → proper e ∧ e ≠ l) → proper l →
  os_files o' !! under base l = os_files o !! under base l.
Proof.
  intros [_ Hs] HA Hl. apply Hs. intros e He E. destruct (HA e He) as [Hes Hne].
  apply under_inj in E; [by destruct Hne|apply Hl|apply Hes|apply Hl|apply Hes].
Qed.

(** The elements of each part's files. *)
Inductive object_elems : list gostring → Prop :=
| ObjectElems d o : safe_name d = true → normal_oid o → object_elems [d; take 2 o; take 2 (drop 2 o); o]
| TempElems d n : safe_name d = true → digits_name n = true →
    object_elems [d; upload_temp_dir; temp_file_prefix ++ n].
Inductive lock_elems : list gostring → Prop :=
| LockElems d x : safe_name d = true → (slash ∉ x) → lock_elems ["locks"; d; x].
Inductive probe_elems : list gostring → Prop :=
| ProbeElems n : digits_name n = true → probe_elems [".write-check-" ++ n].

Lemma object_elems_slash e : object_elems e → proper e.
Proof.
  intros [d o Hd Ho|d n Hd Hn]; (split; [done|]); [by destruct (object_elems_ok d o Hd Ho)|by destruct (temp_elems_ok d n Hd Hn)].
Qed.
Lemma lock_elems_slash e : lock_elems e → proper e.
Proof. intros [d x Hd Hx]. split; [done|]. by apply lock_elems_no_slash. Qed.
Lemma probe_elems_slash e : probe_elems e → proper e.
Proof.
  intros [n Hn]. split; [done|]. repeat constructor. apply not_elem_of_app. split; [by apply contains_byte_false|].
  by apply digits_no_slash.
Qed.

(** None of them is a lock file, and none but an upload changes an object. *)
Lemma object_not_lock base o o' : touches base object_elems o o' → quiet base o o'.
Proof.
  intros Ht. split; [apply Ht|]. intros d Hd. apply (touches_other base object_elems); [done| |].
  - intros e He. split; [by apply object_elems_slash|]. by destruct He.
  - apply lock_elems_slash. constructor; [done|by apply contains_byte_false].
Qed.
Lemma probe_not_lock base o o' : touches base probe_elems o o' → quiet base o o'.
Proof.
  intros Ht. split; [apply Ht|]. intros d Hd. apply (touches_other base probe_elems); [done| |].
  - intros e He. split; [by apply probe_elems_slash|]. by destruct He.
  - apply lock_elems_slash. constructor; [done|by apply contains_byte_false].
Qed.

Definition object_path_elems (d o : gostring) : list gostring := [d; take 2 o; take 2 (drop 2 o); o].
Lemma files_keep_objects (A : list gostring → Prop) l l' o o' : base_path l' = base_path l →
  (∀ e, A e → proper e ∧ ∀ d k, normal_oid k → e ≠ object_path_elems d k) →
  touches (base_path l) A o o' → local_valid (l, o) →
  local_valid (l', o') ∧ same_objects local_objects (l, o) (l', o').
Proof.
  intros Hb HA Ht Hv. split; [by eapply local_valid_incl; [|apply Ht]|].
  intros d k Hd Hk. unfold local_objects. cbn [fst snd]. rewrite Hb. f_equal.
  apply (touches_other (base_path l) A); [done| |split; [done|by apply object_elems_ok]].
  intros e He. destruct (HA e He) as [Hs Hne]. split; [done|by apply Hne].
Qed.
Lemma others_keep_objects (A : list gostring → Prop) l l' o o' : base_path l' = base_path l →
  (∀ e, A e → proper e ∧ length e ≠ 4%nat) →
  touches (base_path l) A o o' → local_valid (l, o) →
  local_valid (l', o') ∧ same_objects local_objects (l, o) (l', o').
Proof.
  intros Hb HA. apply files_keep_objects; [done|]. intros e He. destruct (HA e He) as [Hs Hl].
  split; [done|]. by intros d k _ ->.
Qed.
Lemma lock_elems_apart e : lock_elems e → proper e ∧ length e ≠ 4%nat.
Proof. intros He. split; [by apply lock_elems_slash|]. by destruct He. Qed.
Lemma probe_elems_apart e : probe_elems e → proper e ∧ length e ≠ 4%nat.
Proof. intros He. split; [by apply probe_elems_slash|]. by destruct He. Qed.

(** ** The local backend touches objects and temporary files *)

Section LocalBackend.
Context {U : Unicode}.

Lemma local_put_touches c ep oid rd n l o r l' o' : local_valid (l, o) →
  local_put c ep oid rd n (l, o) = (r, (l', o')) →
  base_path l' = base_path l ∧ touches (base_path l) object_elems o o'.
Proof.
  intros Hv H. apply local_put_spec in H as (Hb & Hle & nm & Hnm & Hr); [|done]. split; [done|].
  assert (safe_name (endpoint ep) = true) as Hd by auto with go. destruct r as [u|e].
  - destruct Hr as (k & Hk & _ & _ & Hs & _). pose proof (normalise_oid_normal _ _ Hk) as Hn.
    apply (touches_except _ _ [[endpoint ep; upload_temp_dir; temp_file_prefix ++ nm];
      [endpoint ep; take 2 k; take 2 (drop 2 k); k]]); [done|exact Hs|].
    constructor; [by apply TempElems|]. constructor; [by apply ObjectElems|constructor].
  - apply (touches_except _ _ [[endpoint ep; upload_temp_dir; temp_file_prefix ++ nm]]); [done|exact Hr|].
    constructor; [by apply TempElems|constructor].
Qed.

(** Its other operations change no file. *)
Definition reads_only (w w' : Local.world) : Prop :=
  fst w' = fst w ∧ os_le (snd w) (snd w') ∧ os_files (snd w') = os_files (snd w).

Lemma reads_only_touches A w w' : reads_only w w' →
  base_path (fst w') = base_path (fst w) ∧ touches (base_path (fst w)) A (snd w) (snd w').
Proof. intros (Hl & Hle & Hf). split; [by rewrite Hl|]. by apply touches_files. Qed.

Ltac read_only_calls :=
  repeat (case_match; simplify_eq); unfold reads_only; cbn [fst snd]; try done;
  repeat match goal with
  | H : stat _ _ = _ |- _ => pose proof (proj1 (stat_spec _ _ _ _ H)); apply stat_le in H
  | H : open_file _ _ = _ |- _ => unfold open_file in H
  | H : fstat _ _ = _ |- _ => pose proof (proj1 (fstat_spec _ _ _ _ H)); apply fstat_le in H
  | H : close _ = _ |- _ => pose proof (close_files _ _ _ H); apply sync_le in H
  | H : statfs _ = _ |- _ => pose proof (statfs_files _ _ _ H); apply statfs_le in H
  end; (split; [done|split; [by repeat (etrans; [eassumption|])|congruence]]).

Lemma local_exists_reads c ep oid w r w' : local_exists c ep oid w = (r, w') → reads_only w w'.
Proof. unfold local_exists. intros H. read_only_calls. Qed.
Lemma local_get_reads c ep oid w r w' : local_get c ep oid w = (r, w') → reads_only w w'.
Proof. unfold local_get, open_file. intros H. read_only_calls. Qed.
Lemma local_size_reads c ep oid w r w' : local_size c ep oid w = (r, w') → reads_only w w'.
Proof. unfold local_size. intros H. read_only_calls. Qed.
Lemma local_space_reads c w r w' : local_available_space c w = (r, w') → reads_only w w'.
Proof. unfold local_available_space. intros H. read_only_calls. Qed.
Lemma local_check_reads c w r w' : local_check c w = (r, w') → reads_only w w'.
Proof.
  unfold local_check. intros H. destruct (local_available_space c w) as [[n|e] w1] eqn:E;
    injection H as <- <-; by eapply local_space_reads.
Qed.
End LocalBackend.

(** ** The probe of the data directory touches its own file *)

Lemma check_writable_touches dir o r o' : names_ok o → check_writable_dir dir o = (r, o') →
  touches dir probe_elems o o'.
Proof.
  intros Hn H. unfold check_writable_dir in H.
  destruct (create_temp _ o) as [[name|e] o1] eqn:E1; pose proof (create_temp_le _ _ _ _ E1) as L1;
    apply create_temp_spec in E1; [|injection H as <- <-; by apply touches_files].
  destruct (close o1) as [r2 o2] eqn:E2. pose proof (sync_le _ _ _ E2) as L2. apply close_files in E2.
  pose proof (remove_le _ _ _ _ H) as L3. apply remove_files in H as [Hr _].
  destruct E1 as (_ & (nm & -> & Hnm) & (i & t & Hf)).
  assert (digits_name nm = true) as Hd.
  { unfold names_ok in Hn. rewrite Forall_forall in Hn. by apply Hn. }
  assert (path_join [dir; ".write-check-"%go] ++ nm = under dir [".write-check-" ++ nm]) as Hp.
  { rewrite path_join_under by (split; [done|]; split; [|done]; repeat constructor; by apply contains_byte_false).
    by rewrite (under_append dir [] ".write-check-"%go). }
  apply (touches_except _ _ [[".write-check-" ++ nm]]); [by etrans; [|etrans]| |by repeat constructor].
  intros p Hpn. cbn [map] in Hpn. rewrite <-Hp in Hpn. apply not_elem_of_cons in Hpn as [Hpn _].
  assert (os_files o1 !! p = os_files o !! p) as H1 by (by rewrite Hf, lookup_insert_ne).
  rewrite <-H1, <-E2. apply Hr. by intros ->%list_elem_of_singleton.
Qed.

(** ** The lock store touches lock files *)

Section LockStore.
Context {U : Unicode}.

Local Abbreviation touches_locks base := (touches base lock_elems).

Lemma acquire_touches s ep o r o' : acquire_file_lock s ep o = (r, o') → touches_locks (store_base s) o o'.
Proof.
  unfold acquire_file_lock. rewrite lock_file_path_of. set (path := _ ++ ".lock"). intros H.
  assert (path = under (store_base s) ["locks"%go; endpoint ep; "locks.json.lock"%go]) as Hp
    by (exact (under_append (store_base s) ["locks"%go; endpoint ep] "locks.json"%go ".lock")).
  destruct (mkdir_all o) as [r1 o1] eqn:E1. pose proof (mkdir_all_le _ _ _ E1) as L1. apply mkdir_all_files in E1.
  destruct r1 as [u|e]; [|injection H as <- <-; by apply touches_files].
  etrans; [by apply touches_files|].
  destruct (open_create path o1) as [r2 o2] eqn:E2. pose proof (open_create_le _ _ _ _ E2) as L2.
  apply open_create_files in E2. rewrite Hp in E2.
  etrans; [apply (touches_except _ _ [["locks"%go; endpoint ep; "locks.json.lock"%go]] _ o2); [done|done|]|].
  { constructor; [|constructor]. constructor; [auto with go|by apply contains_byte_false]. }
  destruct r2 as [u2|e]; [|injection H as <- <-; reflexivity].
  destruct (flock o2) as [r3 o3] eqn:E3. apply flock_le in E3 as [L3 E3].
  etrans; [by apply (touches_files _ _ o2 o3)|].
  destruct r3 as [u3|e]; [injection H as <- <-; reflexivity|].
  destruct (close o3) as [r4 o4] eqn:E4. injection H as <- <-.
  apply touches_files; [by eapply sync_le|by eapply close_files].
Qed.

Lemma release_touches base o : touches_locks base o (release_file_lock o).
Proof.
  unfold release_file_lock. destruct (unlock_file o) as [r1 o1] eqn:E1.
  destruct (close o1) as [r2 o2] eqn:E2. cbn [snd]. etrans; apply touches_files;
    solve [by eapply sync_le|by eapply close_files].
Qed.

Lemma read_locks_touches base ep s o r s' o' : read_locks ep (s, o) = (r, (s', o')) → touches_locks base o o'.
Proof.
  unfold read_locks. intros H. destruct (stat _ o) as [r1 o1] eqn:E1.
  etrans; [apply (touches_files _ _ o o1); [by eapply stat_le|by eapply stat_spec]|].
  destruct r1 as [info|e].
  2: { destruct (errors_is NotExist e); [destruct (no_locks ep s)|]; by simplify_eq. }
  destruct (read_file _ o1) as [r2 o2] eqn:E2.
  etrans; [apply (touches_files _ _ o1 o2); [by eapply read_file_le|by eapply read_file_spec]|].
  destruct r2 as [data|e].
  - destruct (found_locks _ _ _ s). by simplify_eq.
  - destruct (errors_is NotExist e); [destruct (no_locks ep s)|]; by simplify_eq.
Qed.

Lemma load_locks_touches ep s o r s' o' : load_locks ep (s, o) = (r, (s', o')) → touches_locks (store_base s) o o'.
Proof.
  unfold load_locks. intros H.
  assert (∀ v, touches_locks (store_base s) o v →
    (match acquire_file_lock s ep v with
     | (Err e, v) => (Err e, (s, v))
     | (Ok _, v) => let '(r, (s, v)) := read_locks ep (s, v) in (r, (s, release_file_lock v))
     end) = (r, (s', o')) → touches_locks (store_base s) o o') as Hslow.
  { intros v Hv E. etrans; [exact Hv|]. destruct (acquire_file_lock s ep v) as [[u|e] v1] eqn:E1;
      apply acquire_touches in E1; [|by simplify_eq]. etrans; [exact E1|].
    destruct (read_locks ep (s, v1)) as [r2 [s2 v2]] eqn:E2. injection E as <- <- <-.
    etrans; [by eapply read_locks_touches|]. apply release_touches. }
  destruct (cached s ep) as [c|]; [|by apply (Hslow o)].
  destruct (stat _ o) as [r1 o1] eqn:E1.
  assert (touches_locks (store_base s) o o1) as Hs
    by (apply touches_files; [by eapply stat_le|by eapply stat_spec]).
  destruct r1 as [info|e]; [|by apply (Hslow o1)].
  destruct (bool_decide _); [by simplify_eq|by apply (Hslow o1)].
Qed.

Lemma put_cleanup_touches base (A : list gostring → Prop) l closed o : A l →
  touches base A o (put_cleanup (under base l) closed o).
Proof.
  intros Hl. destruct (put_cleanup_spec (under base l) closed o) as (L & S & _).
  apply (touches_except _ _ [l]); [done|done|by constructor].
Qed.

Lemma write_lock_file_touches base d data o r o' : safe_name d = true → names_ok o →
  write_lock_file (under base ["locks"; d]) (lock_path_of base d) data o = (r, o') → touches_locks base o o'.
Proof.
  intros Hd Hn H. unfold write_lock_file in H.
  destruct (mkdir_all o) as [r1 o1] eqn:E1. pose proof (mkdir_all_le _ _ _ E1) as L1. apply mkdir_all_files in E1.
  destruct r1 as [u|e]; [|injection H as <- <-; by apply touches_files].
  destruct (create_temp _ o1) as [r2 o2] eqn:E2. pose proof (create_temp_le _ _ _ _ E2) as L2.
  apply create_temp_spec in E2. etrans; [by apply (touches_files _ _ o o1)|].
  destruct r2 as [tmp|e]; [|injection H as <- <-; by apply touches_files].
  destruct E2 as (_ & (nm & -> & Hnm) & (i & t & Hf)).
  assert (digits_name nm = true) as Hdig.
  { unfold names_ok in Hn. rewrite Forall_forall in Hn. by apply Hn, (le_names _ _ L1). }
  change (under base ["locks"%go; d] ++ "/" ++ temp_file_prefix ++ "locks-")
    with (under base ["locks"%go; d] ++ slash :: (temp_file_prefix ++ "locks-")) in *.
  rewrite under_snoc, under_append in * by done. cbn [app] in *.
  set (tmp := ["locks"%go; d; temp_file_prefix ++ "locks-" ++ nm]).
  assert (lock_elems tmp ∧ lock_elems ["locks"%go; d; "locks.json"%go]) as [Ht Hl].
  { split; constructor; [done| |done|by apply contains_byte_false].
    apply contains_byte_false. cbn. apply contains_byte_false. by apply digits_no_slash. }
  etrans; [apply (touches_except _ _ [tmp] _ o2); [done| |by constructor]|].
  { intros p Hp. rewrite Hf, lookup_insert_ne; [done|]. intros <-. apply Hp. by left. }
  destruct (write_temp _ _ data o2) as [[r3 closed] o3] eqn:E3. injection H as <- <-.
  apply (write_temp_spec _ _ _ _ _ _ _ (File [] i t)) in E3 as (L3 & S3 & _).
  - etrans; [|by apply (put_cleanup_touches base lock_elems tmp closed o3)].
    apply (touches_except _ _ [tmp; ["locks"%go; d; "locks.json"%go]]); [done|exact S3|].
    constructor; [exact Ht|]. constructor; [exact Hl|constructor].
  - intros E. apply under_inj in E; [done|done|done|by apply lock_elems_slash|by apply lock_elems_slash].
  - by rewrite Hf, lookup_insert_eq.
  - done.
Qed.

Lemma save_locks_touches ep p s o r s' o' : names_ok o → save_locks ep p (s, o) = (r, (s', o')) →
  touches_locks (store_base s) o o'.
Proof.
  intros Hn H. unfold save_locks in H. destruct (marshal _) as [data|e]; [|by simplify_eq].
  rewrite lock_file_path_of, lock_dir_of in H.
  destruct (write_lock_file _ _ data o) as [r1 o1] eqn:E1.
  apply write_lock_file_touches in E1; [|auto with go|done].
  destruct r1 as [u|e]; [|by simplify_eq]. etrans; [exact E1|].
  destruct (stat _ o1) as [r2 o2] eqn:E2.
  assert (touches_locks (store_base s) o1 o2) as Hs
    by (apply touches_files; [by eapply stat_le|by eapply stat_spec]).
  destruct r2; by simplify_eq.
Qed.

Lemma with_locked_touches {A} fail (body : nat → lock_world → A * lock_world) ep s o r s' o' :
  store_ok s → disk_ok (store_base s) o →
  (∀ p s1 o1 r s2 o2, store_base s1 = store_base s → names_ok o1 → body p (s1, o1) = (r, (s2, o2)) →
     touches_locks (store_base s) o1 o2) →
  with_locked fail ep body (s, o) = (r, (s', o')) → touches_locks (store_base s) o o'.
Proof.
  intros Hs Hd Hbody H. unfold with_locked in H.
  destruct (acquire_file_lock s ep o) as [[u|e] o1] eqn:E1; pose proof (acquire_quiet _ _ _ _ _ E1) as Q1;
    apply acquire_touches in E1; [|by simplify_eq].
  etrans; [exact E1|].
  destruct (read_locks ep (s, o1)) as [r2 [s2 o2]] eqn:E2.
  pose proof (read_locks_spec _ _ _ _ _ _ Hs (disk_quiet _ _ _ Hd Q1) E2) as (Hb & _).
  pose proof (read_locks_touches (store_base s) _ _ _ _ _ _ E2) as T2. etrans; [exact T2|].
  destruct r2 as [p|e]; [|injection H as <- <- <-; apply release_touches].
  destruct (body p (s2, o2)) as [r3 [s3 o3]] eqn:E3. injection H as <- <- <-.
  etrans; [|apply release_touches]. apply (Hbody p s2 o2 r3 s3 o3); [done| |done].
  eapply names_ok_le; [apply Hd|]. etrans; [apply E1|apply T2].
Qed.

Lemma create_lock_touches c ep path owner id now s o r s' o' : store_ok s → disk_ok (store_base s) o →
  create_lock c ep path owner id now (s, o) = (r, (s', o')) → touches_locks (store_base s) o o'.
Proof.
  intros Hs Hd H. unfold create_lock in H. destruct c as [e|]; [by simplify_eq|].
  eapply with_locked_touches; [done|done| |exact H]. clear H s' o' r Hs Hd o.
  intros p s1 o1 r s2 o2 <- Hn H. unfold create_body in H.
  destruct (byPath _ !! path); [by simplify_eq|]. cbv zeta in H.
  destruct (save_locks ep p _) as [r3 [s3 o3]] eqn:E. apply save_locks_touches in E; [|done].
  cbn [update store_base] in E. destruct r3; by simplify_eq.
Qed.

Lemma unlock_touches c ep id requester force s o r s' o' : store_ok s → disk_ok (store_base s) o →
  unlock c ep id requester force (s, o) = (r, (s', o')) → touches_locks (store_base s) o o'.
Proof.
  intros Hs Hd H. unfold unlock in H. destruct c as [e|]; [by simplify_eq|].
  eapply with_locked_touches; [done|done| |exact H]. clear H s' o' r Hs Hd o.
  intros p s1 o1 r s2 o2 <- Hn H. unfold unlock_body in H.
  destruct (byID _ !! id); [|by simplify_eq]. destruct (negb force && _); [by simplify_eq|].
  destruct (save_locks ep p _) as [r3 [s3 o3]] eqn:E. apply save_locks_touches in E; [|done].
  cbn [update store_base] in E. destruct r3; by simplify_eq.
Qed.

Lemma list_store_touches c ep opts s o r s' o' : list_store c ep opts (s, o) = (r, (s', o')) →
  touches_locks (store_base s) o o'.
Proof.
  intros H. unfold list_store in H. destruct c as [e|]; [by simplify_eq|].
  destruct (load_locks ep (s, o)) as [[p|e] [s1 o1]] eqn:E; apply load_locks_touches in E; by simplify_eq.
Qed.
End LockStore.
