(* ===== verification/Config.v ===== *)
(** * config/config.go: endpoints

    The configured repositories and the settings of an endpoint the server
    consults while it runs. *)

From S2P Require Import Prelude GoStrings GoUnicode GoConv GoUrl GoNet.

Local Open Scope go_scope.

(** [Endpoint]; [ep_base_url] is [GitHubBaseURL]. *)
Record Endpoint := {
  ep_name : gostring;
  ep_url : gostring;
  ep_path : gostring;
  ep_visibility : gostring;
  ep_authentication : gostring;
  ep_api_url : gostring;
  ep_owner : gostring;
  ep_repo : gostring;
  ep_base_url : option URL
}.

#[export] Instance Endpoint_eq_dec : EqDecision Endpoint.
Proof. solve_decision. Defined.

(** [IsPublic] *)
Definition is_public {U : Unicode} (ep : Endpoint) : bool := equal_fold (ep_visibility ep) "public".

(** [AuthMethod] *)
Definition auth_method {U : Unicode} (ep : Endpoint) : gostring := to_lower (ep_authentication ep).

(** An endpoint path the router and the signer take literally. *)
Definition plain_endpoint (ep : Endpoint) : Prop :=
  has_prefix "/" (ep_path ep) = true ∧ Forall (λ c, plain_path_byte c = true) (ep_path ep).
