(* ===== verification/ConfigLoad.v ===== *)
(** * config/config.go: loading and validating a configuration

    [load] follows [Load]: the TOML decoder's result, the defaults, the
    environment, the parsed settings, the checks, and the endpoints' repository
    URLs.  The decoder and the address syntax of [net/netip] are parameters; the
    environment and the files it names are an argument. *)

From S2P Require Import Prelude GoStrings GoUnicode GoPath GoConv GoTime GoUrl GoMime GoNet Sanitise Config.

Local Open Scope go_scope.

(** ** Settings *)

(** [Storage] *)
Record Storage := {
  st_backend : gostring;
  st_bucket : gostring;
  st_region : gostring;
  st_endpoint : gostring;
  st_access_key_id : gostring;
  st_secret_access_key : gostring;
  st_prefix : gostring;
  st_presigned_urls : option bool;
  st_force_path_style : option bool
}.

(** [S3PresignedURLsEnabled] and [S3ForcePathStyleEnabled] *)
Definition presigned_urls_enabled (s : Storage) : bool := default true (st_presigned_urls s).
Definition force_path_style_enabled (s : Storage) : bool := default false (st_force_path_style s).

(** [Options]; a [None] of [TrustedProxies] is the nil slice. *)
Record Options := {
  o_listen_address : gostring;
  o_metrics_address : gostring;
  o_data_directory : gostring;
  o_base_url : gostring;
  o_max_upload_size : Z;
  o_upload_idle_timeout : gostring;
  o_upload_idle_timeout_duration : Z;
  o_log_format : gostring;
  o_log_level : gostring;
  o_access_log : option bool;
  o_additional_logging : bool;
  o_trusted_proxies : option (list gostring);
  o_rate_limit_tokens : Z;
  o_rate_limit_interval : Z;
  o_rate_limit_window : gostring;
  o_auth_cache_ttl : gostring;
  o_auth_cache_duration : Z;
  o_signing_key : gostring;
  o_signing_key_bytes : gostring;
  o_url_expiry : gostring;
  o_url_expiry_duration : Z;
  o_shutdown_timeout : gostring;
  o_shutdown_timeout_duration : Z
}.

(** [AccessLogEnabled] *)
Definition access_log_enabled (o : Options) : bool := default true (o_access_log o).

(** [Config] *)
Record Config := { cfg_options : Options; cfg_storage : Storage; cfg_endpoints : list Endpoint }.

(** The names an endpoint has in messages: [label]. *)
Inductive label : Type := Position (n : nat) | Named (name : gostring).
Definition ep_label (i : nat) (ep : Endpoint) : label :=
  match ep_name ep with [] => Position (S i) | name => Named name end.

(** What can be wrong with a configuration. *)
Inductive problem : Type :=
| NotPositive (variable value : gostring)
| NotBool (variable value : gostring)
| SecretTwice (variable : gostring)
| SecretUnreadable (variable : gostring)
| SecretEmpty (variable path : gostring)
| InvalidDuration (setting value : gostring)
| DurationRange (setting : gostring)
| SigningKeyNotHex
| SigningKeyShort
| MissingSetting (setting : gostring)
| InvalidUrl (setting value : gostring)
| PrefixStart (value : gostring)
| PrefixEnd (value : gostring)
| KeysNotTogether
| UnknownBackend (value : gostring)
| NotAChoice (setting value : gostring)
| NegativeUploadSize
| MetricsAddress (value : gostring)
| MetricsPortUsed (value : gostring)
| NotAnAddress (proxy : gostring)
| NoEndpoints
| PathNotRooted
| PathNotClean (clean : gostring)
| PathDuplicate
| PathReserved
| PathInvalid
| DirectoryReserved (dir : gostring)
| DirectoryShared (dir : gostring) (other : label)
| ApiUrlUnused
| PrivateWithoutAuthentication
| NotGitHubUrl
| NotOrgRepo
| ApiUrlNotHttps
| AtEndpoint (l : label) (p : problem).

(** ** Parameters and the environment *)

(** [netip.ParseAddr] and [netip.ParsePrefix] succeed; the address is a loopback one. *)
Class NetIp := {
  parses_addr : gostring → bool;
  parses_prefix : gostring → bool;
  is_loopback : gostring → bool
}.

(** [toml.Decode]: the configuration, the keys it did not use, and whether
    [storage.s3_prefix] is defined. *)
Record decoded := { td_config : Config; td_undecoded : list gostring; td_prefix_defined : bool }.
Class Toml := { toml_decode : gostring → option decoded }.

(** The decoder keeps integers to their Go types, and leaves fields tagged ["-"]
    alone. *)
Class TomlLaws (T : Toml) : Prop := {
  toml_integers data d : toml_decode data = Some d →
    in_int64 (o_max_upload_size (cfg_options (td_config d)))
    ∧ in_uint64 (o_rate_limit_tokens (cfg_options (td_config d)));
  toml_skipped data d : toml_decode data = Some d →
    Forall (λ ep, ep_base_url ep = None) (cfg_endpoints (td_config d))
    ∧ o_signing_key_bytes (cfg_options (td_config d)) = []
}.

(** [os.LookupEnv], and [os.ReadFile] at load time. *)
Record environment := { lookup_env : gostring → option gostring; read_path : gostring → option gostring }.
Definition getenv (env : environment) (name : gostring) : gostring := default [] (lookup_env env name).

Definition default_config_path : gostring := "config.toml".
Definition default_trusted_proxies : list gostring :=
  ["127.0.0.0/8"; "::1/128"; "10.0.0.0/8"; "172.16.0.0/12"; "192.168.0.0/16"; "fc00::/7"]%go.
Definition auth_github : gostring := "github".
Definition storage_local : gostring := "local".
Definition storage_s3 : gostring := "s3".
Definition log_format_json : gostring := "json".
Definition log_format_console : gostring := "console".

(** [ResolvePath] *)
Definition resolve_path (env : environment) (flag : gostring) : gostring :=
  if negb (str_eqb flag []) then flag
  else if negb (str_eqb (getenv env "ANCHOR_LFS_CONFIG") []) then getenv env "ANCHOR_LFS_CONFIG"
  else default_config_path.

(** [unrecognisedKeys] *)
Definition dedup_keys (keys : list gostring) : list gostring :=
  fold_left (λ acc k, if existsb (str_eqb k) acc then acc else acc ++ [k]) keys [].
Definition unrecognised_keys (undecoded : list gostring) : list gostring :=
  let keys := dedup_keys undecoded in
  List.filter (λ table, negb (existsb (has_prefix (table ++ ".")) keys)) keys.

(** ** Defaults and overrides *)

Definition or_default (v dflt : gostring) : gostring := match v with [] => dflt | _ => v end.
Definition trim_slashes (s : gostring) : gostring := trim_right (Ascii.eqb slash) s.

(** [applyDefaults] *)
Definition default_options (o : Options) : Options := {|
  o_listen_address := or_default (o_listen_address o) ":5420";
  o_metrics_address := o_metrics_address o;
  o_data_directory := or_default (o_data_directory o) "./data";
  o_base_url := trim_slashes (o_base_url o);
  o_max_upload_size := if o_max_upload_size o =? 0 then Z.shiftl 5 30 else o_max_upload_size o;
  o_upload_idle_timeout := or_default (o_upload_idle_timeout o) "60s";
  o_upload_idle_timeout_duration := o_upload_idle_timeout_duration o;
  o_log_format := or_default (o_log_format o)
    (if o_additional_logging o then log_format_console else log_format_json);
  o_log_level := or_default (o_log_level o) (if o_additional_logging o then "debug" else "info");
  o_access_log := o_access_log o;
  o_additional_logging := o_additional_logging o;
  o_trusted_proxies := Some (default default_trusted_proxies (o_trusted_proxies o));
  o_rate_limit_tokens := if o_rate_limit_tokens o =? 0 then 600 else o_rate_limit_tokens o;
  o_rate_limit_interval := o_rate_limit_interval o;
  o_rate_limit_window := or_default (o_rate_limit_window o) "1m";
  o_auth_cache_ttl := or_default (o_auth_cache_ttl o) "60s";
  o_auth_cache_duration := o_auth_cache_duration o;
  o_signing_key := o_signing_key o;
  o_signing_key_bytes := o_signing_key_bytes o;
  o_url_expiry := or_default (o_url_expiry o) "10m";
  o_url_expiry_duration := o_url_expiry_duration o;
  o_shutdown_timeout := or_default (o_shutdown_timeout o) "30s";
  o_shutdown_timeout_duration := o_shutdown_timeout_duration o
|}.
Definition apply_defaults (prefix_defined : bool) (c : Config) : Config := {|
  cfg_options := default_options (cfg_options c);
  cfg_storage := let s := cfg_storage c in {|
    st_backend := or_default (st_backend s) storage_local;
    st_bucket := st_bucket s;
    st_region := st_region s;
    st_endpoint := st_endpoint s;
    st_access_key_id := st_access_key_id s;
    st_secret_access_key := st_secret_access_key s;
    st_prefix := if prefix_defined then st_prefix s else "lfs/";
    st_presigned_urls := st_presigned_urls s;
    st_force_path_style := st_force_path_style s |};
  cfg_endpoints := cfg_endpoints c
|}.

(** [strconv.ParseBool] *)
Definition parse_bool (s : gostring) : option bool :=
  if existsb (str_eqb s) ["1"; "t"; "T"; "TRUE"; "true"; "True"]%go then Some true
  else if existsb (str_eqb s) ["0"; "f"; "F"; "FALSE"; "false"; "False"]%go then Some false
  else None.

(** [overrideBool] and [overrideSecret]: the new value, and the problem if any. *)
Definition override_bool (env : environment) (name : gostring) (target : option bool) : option bool * list problem :=
  match getenv env name with
  | [] => (target, [])
  | v => match parse_bool v with
         | Some b => (Some b, [])
         | None => (target, [NotBool name v])
         end
  end.
Definition override_secret (env : environment) (name target : gostring) : gostring * list problem :=
  match getenv env (name ++ "_FILE") with
  | [] => (or_default (getenv env name) target, [])
  | path =>
      if negb (str_eqb (getenv env name) []) then (target, [SecretTwice name])
      else match read_path env path with
           | None => (target, [SecretUnreadable name])
           | Some data => match trim_space data with
                          | [] => (target, [SecretEmpty name path])
                          | v => (v, [])
                          end
           end
  end.

(** A positive number from the environment. *)
Definition override_number (parse : gostring → option Z) (env : environment) (name : gostring) (target : Z)
  : Z * list problem :=
  match getenv env name with
  | [] => (target, [])
  | v => match parse v with
         | Some n => if 0 <? n then (n, []) else (target, [NotPositive name v])
         | None => (target, [NotPositive name v])
         end
  end.

(** The proxies of [ANCHOR_LFS_TRUSTED_PROXIES], if it is set at all. *)
Definition override_proxies (env : environment) (target : option (list gostring)) : option (list gostring) :=
  match lookup_env env "ANCHOR_LFS_TRUSTED_PROXIES" with
  | None => target
  | Some v => Some (List.filter (λ e, negb (str_eqb e [])) (map trim_space (split_on ","%char v)))
  end.

Section Load.
Context {U : Unicode} {I : IpSyntax} {N : NetIp} {T : Toml} (env : environment).

Local Abbreviation env_or name v := (or_default (getenv env name) v).

(** [applyEnvOverrides] *)
Definition apply_env_overrides (c : Config) : Config * list problem :=
  let o := cfg_options c in
  let s := cfg_storage c in
  let '(key, p1) := override_secret env "ANCHOR_LFS_SIGNING_KEY" (o_signing_key o) in
  let '(size, p2) := override_number parse_int env "ANCHOR_LFS_MAX_UPLOAD_SIZE" (o_max_upload_size o) in
  let '(tokens, p3) := override_number (parse_uint max_uint64) env "ANCHOR_LFS_RATE_LIMIT_TOKENS"
                         (o_rate_limit_tokens o) in
  let '(access, p4) := override_bool env "ANCHOR_LFS_ACCESS_LOG" (o_access_log o) in
  let '(key_id, p5) := override_secret env "ANCHOR_LFS_S3_ACCESS_KEY_ID" (st_access_key_id s) in
  let '(secret, p6) := override_secret env "ANCHOR_LFS_S3_SECRET_ACCESS_KEY" (st_secret_access_key s) in
  let '(presigned, p7) := override_bool env "ANCHOR_LFS_S3_PRESIGNED_URLS" (st_presigned_urls s) in
  let '(path_style, p8) := override_bool env "ANCHOR_LFS_S3_FORCE_PATH_STYLE" (st_force_path_style s) in
  ({| cfg_options := {|
        o_listen_address := env_or "ANCHOR_LFS_LISTEN" (o_listen_address o);
        o_metrics_address := env_or "ANCHOR_LFS_METRICS_ADDRESS" (o_metrics_address o);
        o_data_directory := env_or "ANCHOR_LFS_DATA_DIR" (o_data_directory o);
        o_base_url := match getenv env "ANCHOR_LFS_BASE_URL" with
                      | [] => o_base_url o | v => trim_slashes v end;
        o_max_upload_size := size;
        o_upload_idle_timeout := env_or "ANCHOR_LFS_UPLOAD_IDLE_TIMEOUT" (o_upload_idle_timeout o);
        o_upload_idle_timeout_duration := o_upload_idle_timeout_duration o;
        o_log_format := env_or "ANCHOR_LFS_LOG_FORMAT" (o_log_format o);
        o_log_level := env_or "ANCHOR_LFS_LOG_LEVEL" (o_log_level o);
        o_access_log := access;
        o_additional_logging := o_additional_logging o;
        o_trusted_proxies := override_proxies env (o_trusted_proxies o);
        o_rate_limit_tokens := tokens;
        o_rate_limit_interval := o_rate_limit_interval o;
        o_rate_limit_window := env_or "ANCHOR_LFS_RATE_LIMIT_WINDOW" (o_rate_limit_window o);
        o_auth_cache_ttl := env_or "ANCHOR_LFS_AUTH_CACHE_TTL" (o_auth_cache_ttl o);
        o_auth_cache_duration := o_auth_cache_duration o;
        o_signing_key := key;
        o_signing_key_bytes := o_signing_key_bytes o;
        o_url_expiry := env_or "ANCHOR_LFS_URL_EXPIRY" (o_url_expiry o);
        o_url_expiry_duration := o_url_expiry_duration o;
        o_shutdown_timeout := env_or "ANCHOR_LFS_SHUTDOWN_TIMEOUT" (o_shutdown_timeout o);
        o_shutdown_timeout_duration := o_shutdown_timeout_duration o |};
      cfg_storage := {|
        st_backend := env_or "ANCHOR_LFS_STORAGE_BACKEND" (st_backend s);
        st_bucket := env_or "ANCHOR_LFS_S3_BUCKET" (st_bucket s);
        st_region := env_or "ANCHOR_LFS_S3_REGION" (st_region s);
        st_endpoint := env_or "ANCHOR_LFS_S3_ENDPOINT" (st_endpoint s);
        st_access_key_id := key_id;
        st_secret_access_key := secret;
        st_prefix := env_or "ANCHOR_LFS_S3_PREFIX" (st_prefix s);
        st_presigned_urls := presigned;
        st_force_path_style := path_style |};
      cfg_endpoints := cfg_endpoints c |},
   p1 ++ p2 ++ p3 ++ p4 ++ p5 ++ p6 ++ p7 ++ p8).

(** ** Parsed settings *)

(** What the five duration settings share: not below zero, and not zero either when [positive]. *)
Definition parse_setting (positive : bool) (setting text : gostring) (old : Z) : Z * list problem :=
  match parse_duration text with
  | None => (old, [InvalidDuration setting text])
  | Some d => if (d <? 0) || (positive && (d =? 0)) then (old, [DurationRange setting]) else (d, [])
  end.

Definition parse_rate_limit_window (o : Options) : Z * list problem :=
  parse_setting true "rate_limit_window" (o_rate_limit_window o) (o_rate_limit_interval o).
Definition parse_auth_cache_ttl (o : Options) : Z * list problem :=
  parse_setting false "auth_cache_ttl" (o_auth_cache_ttl o) (o_auth_cache_duration o).
Definition parse_url_expiry (o : Options) : Z * list problem :=
  parse_setting true "url_expiry" (o_url_expiry o) (o_url_expiry_duration o).
Definition parse_shutdown_timeout (o : Options) : Z * list problem :=
  parse_setting true "shutdown_timeout" (o_shutdown_timeout o) (o_shutdown_timeout_duration o).
Definition parse_upload_idle_timeout (o : Options) : Z * list problem :=
  parse_setting false "upload_idle_timeout" (o_upload_idle_timeout o) (o_upload_idle_timeout_duration o).

(** [parseSigningKey] *)
Definition parse_signing_key (o : Options) : gostring * list problem :=
  match o_signing_key o with
  | [] => (o_signing_key_bytes o, [])
  | key => match hex_decode key with
           | None => (o_signing_key_bytes o, [SigningKeyNotHex])
           | Some b => if (length b <? 32)%nat then (o_signing_key_bytes o, [SigningKeyShort]) else (b, [])
           end
  end.

(** The six, in [Load]'s order. *)
Definition parse_settings (o : Options) : Options * list problem :=
  let '(window, p1) := parse_rate_limit_window o in
  let '(ttl, p2) := parse_auth_cache_ttl o in
  let '(expiry, p3) := parse_url_expiry o in
  let '(shutdown, p4) := parse_shutdown_timeout o in
  let '(idle, p5) := parse_upload_idle_timeout o in
  let '(key, p6) := parse_signing_key o in
  ({| o_listen_address := o_listen_address o;
      o_metrics_address := o_metrics_address o;
      o_data_directory := o_data_directory o;
      o_base_url := o_base_url o;
      o_max_upload_size := o_max_upload_size o;
      o_upload_idle_timeout := o_upload_idle_timeout o;
      o_upload_idle_timeout_duration := idle;
      o_log_format := o_log_format o;
      o_log_level := o_log_level o;
      o_access_log := o_access_log o;
      o_additional_logging := o_additional_logging o;
      o_trusted_proxies := o_trusted_proxies o;
      o_rate_limit_tokens := o_rate_limit_tokens o;
      o_rate_limit_interval := window;
      o_rate_limit_window := o_rate_limit_window o;
      o_auth_cache_ttl := o_auth_cache_ttl o;
      o_auth_cache_duration := ttl;
      o_signing_key := o_signing_key o;
      o_signing_key_bytes := key;
      o_url_expiry := o_url_expiry o;
      o_url_expiry_duration := expiry;
      o_shutdown_timeout := o_shutdown_timeout o;
      o_shutdown_timeout_duration := shutdown |},
   p1 ++ p2 ++ p3 ++ p4 ++ p5 ++ p6).

(** ** Checks *)

(** [checkChoice] *)
Definition check_choice (setting value : gostring) (allowed : list gostring) : list problem :=
  if existsb (str_eqb (to_lower value)) allowed then [] else [NotAChoice setting value].

(** A URL with a scheme and a host. *)
Definition full_url (s : gostring) : bool :=
  match parse_url s with
  | Some u => negb (str_eqb (u_scheme u) []) && negb (str_eqb (u_host u) [])
  | None => false
  end.

(** [validateStorage]: the backend in lower case, and the problems. *)
Definition validate_storage (s : Storage) : Storage * list problem :=
  let backend := to_lower (st_backend s) in
  let missing setting v := match v with [] => [MissingSetting setting] | _ => [] end in
  ({| st_backend := backend; st_bucket := st_bucket s; st_region := st_region s;
      st_endpoint := st_endpoint s; st_access_key_id := st_access_key_id s;
      st_secret_access_key := st_secret_access_key s; st_prefix := st_prefix s;
      st_presigned_urls := st_presigned_urls s; st_force_path_style := st_force_path_style s |},
   if str_eqb backend storage_local || str_eqb backend [] then []
   else if str_eqb backend storage_s3 then
     missing "s3_bucket"%go (st_bucket s) ++ missing "s3_region"%go (st_region s)
     ++ (if negb (str_eqb (st_endpoint s) []) && negb (full_url (st_endpoint s))
         then [InvalidUrl "s3_endpoint" (st_endpoint s)] else [])
     ++ (if has_prefix "/" (st_prefix s) then [PrefixStart (st_prefix s)]
         else if negb (str_eqb (st_prefix s) []) && negb (has_suffix "/" (st_prefix s))
         then [PrefixEnd (st_prefix s)] else [])
     ++ (if negb (Bool.eqb (str_eqb (st_access_key_id s) []) (str_eqb (st_secret_access_key s) []))
         then [KeysNotTogether] else [])
   else [UnknownBackend backend]).

(** [validateMetricsAddress] *)
Definition validate_metrics_address (o : Options) : list problem :=
  if str_eqb (o_metrics_address o) [] then []
  else
    match split_host_port (o_metrics_address o) with
    | None => [MetricsAddress (o_metrics_address o)]
    | Some (_, port) =>
        if negb (is_some (parse_uint 65535 port)) then [MetricsAddress (o_metrics_address o)]
        else
          match split_host_port (o_listen_address o) with
          | Some (_, listen_port) =>
              if str_eqb listen_port port && negb (str_eqb port "0")
              then [MetricsPortUsed (o_metrics_address o)] else []
          | None => []
          end
    end.

(** Names no endpoint may take. *)
Definition reserved_data_dir_entries : list gostring := ["locks"; "signing.key"]%go.
Definition reserved_paths : list gostring := ["health"; "ready"]%go.

(** The paths and the storage directories taken so far. *)
Record taken := { tk_paths : gset gostring; tk_dirs : gmap gostring label }.

(** [validateEndpointPath] *)
Definition validate_endpoint_path (path : gostring) (l : label) (t : taken) : list problem * taken :=
  if str_eqb path [] then ([MissingSetting "endpoint path"], t)
  else if negb (has_prefix "/" path) then ([PathNotRooted], t)
  else if negb (str_eqb (path_clean path) path) then ([PathNotClean (path_clean path)], t)
  else if bool_decide (path ∈ tk_paths t) then ([PathDuplicate], t)
  else
    let t := {| tk_paths := {[ path ]} ∪ tk_paths t; tk_dirs := tk_dirs t |} in
    if existsb (str_eqb (trim_left (Ascii.eqb slash) path)) reserved_paths then ([PathReserved], t)
    else
      let dir := endpoint path in
      if str_eqb dir invalid_endpoint then ([PathInvalid], t)
      else if existsb (str_eqb (to_lower dir)) reserved_data_dir_entries
      then ([DirectoryReserved (to_lower dir)], t)
      else
        match tk_dirs t !! to_lower dir with
        | Some other => ([DirectoryShared dir other], t)
        | None => ([], {| tk_paths := tk_paths t; tk_dirs := <[to_lower dir := l]> (tk_dirs t) |})
        end.

(** [validateAccess] *)
Definition validate_access (ep : Endpoint) : list problem :=
  check_choice "authentication" (ep_authentication ep) [auth_github; "none"%go]
  ++ (if negb (str_eqb (ep_api_url ep) []) && str_eqb (auth_method ep) "none" then [ApiUrlUnused] else [])
  ++ check_choice "visibility" (ep_visibility ep) ["public"; "private"]%go
  ++ (if equal_fold (ep_visibility ep) "private" && str_eqb (auth_method ep) "none"
      then [PrivateWithoutAuthentication] else []).

(** The endpoints from position [i] on. *)
Fixpoint validate_endpoints (i : nat) (eps : list Endpoint) (t : taken) : list problem :=
  match eps with
  | [] => []
  | ep :: eps =>
      let l := ep_label i ep in
      let '(p, t) := validate_endpoint_path (ep_path ep) l t in
      (if str_eqb (ep_name ep) [] then [AtEndpoint l (MissingSetting "name")] else [])
      ++ map (AtEndpoint l) p ++ map (AtEndpoint l) (validate_access ep)
      ++ validate_endpoints (S i) eps t
  end.

(** [validate]: the configuration with its choices in lower case, and the problems. *)
Definition validate (c : Config) : Config * list problem :=
  let o := cfg_options c in
  let '(s, p) := validate_storage (cfg_storage c) in
  ({| cfg_options := {|
        o_listen_address := o_listen_address o;
        o_metrics_address := o_metrics_address o;
        o_data_directory := o_data_directory o;
        o_base_url := o_base_url o;
        o_max_upload_size := o_max_upload_size o;
        o_upload_idle_timeout := o_upload_idle_timeout o;
        o_upload_idle_timeout_duration := o_upload_idle_timeout_duration o;
        o_log_format := to_lower (o_log_format o);
        o_log_level := to_lower (o_log_level o);
        o_access_log := o_access_log o;
        o_additional_logging := o_additional_logging o;
        o_trusted_proxies := o_trusted_proxies o;
        o_rate_limit_tokens := o_rate_limit_tokens o;
        o_rate_limit_interval := o_rate_limit_interval o;
        o_rate_limit_window := o_rate_limit_window o;
        o_auth_cache_ttl := o_auth_cache_ttl o;
        o_auth_cache_duration := o_auth_cache_duration o;
        o_signing_key := o_signing_key o;
        o_signing_key_bytes := o_signing_key_bytes o;
        o_url_expiry := o_url_expiry o;
        o_url_expiry_duration := o_url_expiry_duration o;
        o_shutdown_timeout := o_shutdown_timeout o;
        o_shutdown_timeout_duration := o_shutdown_timeout_duration o |};
      cfg_storage := s;
      cfg_endpoints := cfg_endpoints c |},
   p ++ check_choice "log_format" (o_log_format o) [log_format_json; log_format_console]
   ++ check_choice "log_level" (o_log_level o) ["debug"; "info"; "warn"; "error"]%go
   ++ (if o_max_upload_size o <? 0 then [NegativeUploadSize] else [])
   ++ (if negb (str_eqb (o_base_url o) []) && negb (full_url (o_base_url o))
       then [InvalidUrl "base_url" (o_base_url o)] else [])
   ++ validate_metrics_address o
   ++ flat_map (λ p, if parses_prefix p || parses_addr p then [] else [NotAnAddress p])
        (default [] (o_trusted_proxies o))
   ++ match cfg_endpoints c with
      | [] => [NoEndpoints]
      | eps => validate_endpoints 0 eps {| tk_paths := ∅; tk_dirs := ∅ |}
      end).

(** ** Repository URLs *)

(** [isLoopbackHost] *)
Definition is_loopback_host (host : gostring) : bool := equal_fold host "localhost" || is_loopback host.

(** [UnexpectedGitHubAPIHost] *)
Definition unexpected_github_api_host (ep : Endpoint) : bool :=
  match ep_base_url ep with
  | None => false
  | Some base =>
      match parse_url (ep_url ep) with
      | Some u => equal_fold (u_host u) "github.com" && negb (equal_fold (hostname (u_host base)) "api.github.com")
      | None => false
      end
  end.

(** [parseGitHubURL]: the endpoint with its repository, or the problem. *)
Definition parse_github_url (ep : Endpoint) : result problem Endpoint :=
  let found owner repo base := {| ep_name := ep_name ep; ep_url := ep_url ep; ep_path := ep_path ep;
    ep_visibility := ep_visibility ep; ep_authentication := ep_authentication ep;
    ep_api_url := ep_api_url ep; ep_owner := owner; ep_repo := repo; ep_base_url := base |} in
  if negb (str_eqb (auth_method ep) auth_github) then Ok ep
  else if str_eqb (ep_url ep) [] then Err (MissingSetting "url")
  else
    match parse_url (ep_url ep) with
    | None => Err (InvalidUrl "url" (ep_url ep))
    | Some u =>
        if negb (equal_fold (u_host u) "github.com") && str_eqb (ep_api_url ep) [] then Err NotGitHubUrl
        else
          match split_on slash (trim (Ascii.eqb slash) (u_path u)) with
          | [owner; repo] =>
              if str_eqb owner [] || str_eqb repo [] then Err NotOrgRepo
              else if str_eqb (ep_api_url ep) [] then Ok (found owner repo (ep_base_url ep))
              else
                match parse_url (ep_api_url ep) with
                | None => Err (InvalidUrl "github_api_url" (ep_api_url ep))
                | Some a =>
                    if str_eqb (u_scheme a) [] || str_eqb (u_host a) []
                    then Err (InvalidUrl "github_api_url" (ep_api_url ep))
                    else if negb (str_eqb (u_scheme a) "https")
                            && (negb (str_eqb (u_scheme a) "http") || negb (is_loopback_host (hostname (u_host a))))
                    then Err ApiUrlNotHttps
                    else Ok (found owner repo (Some
                      (if has_suffix "/" (u_path a) then a
                       else {| u_scheme := u_scheme a; u_host := u_host a; u_path := u_path a ++ "/";
                               u_raw_query := u_raw_query a |})))
                end
          | _ => Err NotOrgRepo
          end
    end.

(** Every endpoint from position [i] on: parsed, or as it was with its problem. *)
Fixpoint parse_endpoints (i : nat) (eps : list Endpoint) : list Endpoint * list problem :=
  match eps with
  | [] => ([], [])
  | ep :: eps =>
      let '(rest, ps) := parse_endpoints (S i) eps in
      match parse_github_url ep with
      | Ok ep' => (ep' :: rest, ps)
      | Err p => (ep :: rest, AtEndpoint (ep_label i ep) p :: ps)
      end
  end.

(** ** [Load] *)

(** The errors of [Load]; [ValidationError] has every problem found. *)
Inductive load_error : Type :=
| Unreadable
| Undecodable
| UnrecognisedKeys (keys : list gostring)
| ValidationError (problems : list problem).

Definition load (path : gostring) : result load_error Config :=
  match read_path env path with
  | None => Err Unreadable
  | Some data =>
      match toml_decode data with
      | None => Err Undecodable
      | Some d =>
          match unrecognised_keys (td_undecoded d) with
          | (_ :: _) as unknown => Err (UnrecognisedKeys unknown)
          | [] =>
              let c := apply_defaults (td_prefix_defined d) (td_config d) in
              let '(c, p1) := apply_env_overrides c in
              let '(o, p2) := parse_settings (cfg_options c) in
              let c := {| cfg_options := o; cfg_storage := cfg_storage c; cfg_endpoints := cfg_endpoints c |} in
              let '(c, p3) := validate c in
              let '(eps, p4) := parse_endpoints 0 (cfg_endpoints c) in
              match p1 ++ p2 ++ p3 ++ p4 with
              | [] => Ok {| cfg_options := cfg_options c; cfg_storage := cfg_storage c; cfg_endpoints := eps |}
              | problems => Err (ValidationError problems)
              end
          end
      end
  end.
End Load.

(** ** What a loaded configuration guarantees *)

Section Guarantees.
Context {U : Unicode} {I : IpSyntax} {N : NetIp} {T : Toml}.

Lemma check_choice_ok setting v allowed : check_choice setting v allowed = [] → to_lower v ∈ allowed.
Proof.
  unfold check_choice. destruct (existsb _ allowed) eqn:E; [|done]. intros _.
  apply existsb_exists in E as (x & Hx & ->%str_eqb_eq). by apply list_elem_of_In.
Qed.

Lemma existsb_str_eqb s l : existsb (str_eqb s) l = false → s ∉ l.
Proof.
  intros H Hin. apply list_elem_of_In in Hin. apply not_true_iff_false in H. apply H, existsb_exists.
  exists s. split; [done|]. apply str_eqb_refl.
Qed.

(** A path [validateEndpointPath] accepts. *)
Record good_path (path : gostring) : Prop := {
  gp_rooted : has_prefix "/" path = true;
  gp_clean : path_clean path = path;
  gp_unreserved : path ∉ ["/health"; "/ready"]%go;
  gp_valid : endpoint path ≠ invalid_endpoint;
  gp_directory : to_lower (endpoint path) ∉ reserved_data_dir_entries
}.

Lemma validate_endpoint_path_ok path l t t' : validate_endpoint_path path l t = ([], t') →
  good_path path ∧ tk_dirs t !! to_lower (endpoint path) = None
  ∧ tk_dirs t' = <[to_lower (endpoint path) := l]> (tk_dirs t).
Proof.
  unfold validate_endpoint_path. intros H.
  destruct (str_eqb path []); [done|].
  destruct (has_prefix "/" path) eqn:Er; [|done]. cbn [negb] in H.
  destruct (str_eqb (path_clean path) path) eqn:Ec; [|done]. cbn [negb] in H.
  case_bool_decide; [done|]. cbv zeta in H.
  destruct (existsb _ reserved_paths) eqn:Ep; [done|].
  destruct (str_eqb (endpoint path) invalid_endpoint) eqn:Ei; [done|].
  destruct (existsb _ reserved_data_dir_entries) eqn:Ed; [done|]. cbn [tk_dirs] in H.
  destruct (tk_dirs t !! _) eqn:Et; [done|]. injection H as <-.
  split; [|done]. split; [done|by apply str_eqb_eq| |by apply str_eqb_neq|by apply existsb_str_eqb].
  apply existsb_str_eqb in Ep. intros Hin. apply Ep.
  apply elem_of_cons in Hin as [-> |Hin]; [by left|].
  apply list_elem_of_singleton in Hin as ->. by right; left.
Qed.

(** The settings [validateAccess] accepts. *)
Record good_access (ep : Endpoint) : Prop := {
  ga_method : auth_method ep ∈ [auth_github; "none"%go];
  ga_visibility : to_lower (ep_visibility ep) ∈ ["public"; "private"]%go;
  ga_private : equal_fold (ep_visibility ep) "private" = true → auth_method ep = auth_github;
  (** An endpoint without authentication is public, if its visibility is ASCII. *)
  ga_open : auth_method ep = "none"%go → forallb is_ascii (ep_visibility ep) = true → is_public ep = true
}.

Lemma validate_access_ok ep : validate_access ep = [] → good_access ep.
Proof.
  unfold validate_access. intros [H1 [H2 [H3 H4]%app_nil]%app_nil]%app_nil.
  apply check_choice_ok in H1, H3.
  assert (equal_fold (ep_visibility ep) "private" = true → auth_method ep = auth_github) as Hpriv.
  { intros Hp. rewrite Hp in H4. unfold auth_method in *. apply elem_of_cons in H1 as [H1|H1]; [done|].
    apply list_elem_of_singleton in H1. by rewrite H1 in H4. }
  split; [exact H1|exact H3|exact Hpriv|]. intros Hnone Hascii. rewrite to_lower_ascii in H3 by done.
  unfold is_public. apply elem_of_cons in H3 as [H3|H3]; [by apply equal_fold_ascii|].
  apply list_elem_of_singleton in H3. assert (auth_method ep = auth_github) as Hg by (by apply Hpriv, equal_fold_ascii).
  rewrite Hg in Hnone. done.
Qed.

(** The ASCII condition is needed: "private" with a capital dotted I (U+0130) passes
    without authentication, and is not public. *)
Definition dotted_private : Endpoint :=
  {| ep_name := "a"; ep_url := []; ep_path := "/a"; ep_visibility := "pr" ++ [byte_of 196; byte_of 176] ++ "vate";
     ep_authentication := "none"; ep_api_url := []; ep_owner := []; ep_repo := []; ep_base_url := None |}.
Example dotted_private_passes :
  @validate_access sample_unicode dotted_private = [] ∧ @to_lower sample_unicode (ep_visibility dotted_private) = "private"%go
  ∧ @is_public sample_unicode dotted_private = false.
Proof. vm_compute. auto. Qed.

Definition storage_directory (ep : Endpoint) : gostring := to_lower (endpoint (ep_path ep)).

Lemma validate_endpoints_ok i eps t : validate_endpoints i eps t = [] →
  Forall (λ ep, ep_name ep ≠ [] ∧ good_path (ep_path ep) ∧ good_access ep) eps
  ∧ NoDup (map storage_directory eps)
  ∧ Forall (λ ep, tk_dirs t !! storage_directory ep = None) eps.
Proof.
  revert i t. induction eps as [|ep eps IH]; intros i t H; [by repeat constructor|].
  cbn [validate_endpoints] in H. destruct (validate_endpoint_path _ _ t) as [p t'] eqn:Ep.
  apply app_nil in H as [Hn [Hp [Ha Hrest]%app_nil]%app_nil].
  apply map_eq_nil in Hp as ->. apply map_eq_nil in Ha.
  apply validate_endpoint_path_ok in Ep as (Hgood & Hfree & Hdirs).
  apply IH in Hrest as (H1 & H2 & H3). rewrite Forall_forall in H3. split; [|split].
  - constructor; [|done]. split; [|split; [done|by apply validate_access_ok]].
    intros Hnil. by rewrite Hnil in Hn.
  - cbn [map]. constructor; [|done]. intros (ep' & Hd & Hin)%list_elem_of_fmap.
    specialize (H3 _ Hin). unfold storage_directory in H3, Hd. rewrite Hdirs, <-Hd in H3.
    by rewrite lookup_insert_eq in H3.
  - constructor; [done|]. apply Forall_forall. intros ep' Hin. specialize (H3 _ Hin).
    rewrite Hdirs in H3. by apply lookup_insert_None in H3 as [H3 _].
Qed.

(** Parsing a repository URL changes neither the endpoint's path nor its access. *)
Lemma parse_github_url_same ep ep' : parse_github_url ep = Ok ep' →
  ep_name ep' = ep_name ep ∧ ep_path ep' = ep_path ep ∧ ep_visibility ep' = ep_visibility ep
  ∧ ep_authentication ep' = ep_authentication ep.
Proof.
  unfold parse_github_url. intros H. repeat (case_match; simplify_eq/=; try done).
Qed.

Lemma parse_endpoints_same i eps eps' : parse_endpoints i eps = (eps', []) →
  Forall2 (λ ep ep', parse_github_url ep = Ok ep') eps eps'.
Proof.
  revert i eps'. induction eps as [|ep eps IH]; intros i eps' H; cbn [parse_endpoints] in H.
  { injection H as <-. constructor. }
  destruct (parse_endpoints (S i) eps) as [rest ps] eqn:E.
  destruct (parse_github_url ep) as [x|p] eqn:Ep; [|done]. injection H as <- ->.
  constructor; [done|]. by eapply IH.
Qed.

Lemma env_endpoints env c : cfg_endpoints (fst (apply_env_overrides env c)) = cfg_endpoints c.
Proof.
  unfold apply_env_overrides. cbv zeta.
  repeat match goal with |- context [let '(_, _) := ?x in _] => destruct x end. done.
Qed.

(** [Load] succeeds when no step finds a problem. *)
Lemma load_ok env path c : load env path = Ok c → ∃ data d c1 o eps,
  read_path env path = Some data ∧ toml_decode data = Some d
  ∧ unrecognised_keys (td_undecoded d) = []
  ∧ apply_env_overrides env (apply_defaults (td_prefix_defined d) (td_config d)) = (c1, [])
  ∧ parse_settings (cfg_options c1) = (o, [])
  ∧ snd (validate {| cfg_options := o; cfg_storage := cfg_storage c1; cfg_endpoints := cfg_endpoints c1 |}) = []
  ∧ parse_endpoints 0 (cfg_endpoints (td_config d)) = (eps, [])
  ∧ c = {| cfg_options := cfg_options (fst (validate
             {| cfg_options := o; cfg_storage := cfg_storage c1; cfg_endpoints := cfg_endpoints c1 |}));
           cfg_storage := fst (validate_storage (cfg_storage c1)); cfg_endpoints := eps |}.
Proof.
  unfold load. intros H.
  destruct (read_path env path) as [data|]; [|done].
  destruct (toml_decode data) as [d|] eqn:Ed; [|done].
  destruct (unrecognised_keys _) eqn:Ek; [|done].
  destruct (apply_env_overrides env _) as [c1 p1] eqn:E1.
  assert (cfg_endpoints c1 = cfg_endpoints (td_config d)) as Heps.
  { pose proof (env_endpoints env (apply_defaults (td_prefix_defined d) (td_config d))) as He.
    by rewrite E1 in He. }
  destruct (parse_settings _) as [o p2] eqn:E2.
  set (c2 := {| cfg_options := o; cfg_storage := _; cfg_endpoints := _ |}) in *.
  destruct (validate c2) as [c3 p3] eqn:E3.
  assert (cfg_endpoints c3 = cfg_endpoints c1 ∧ cfg_storage c3 = fst (validate_storage (cfg_storage c1))) as [He3 Hs3].
  { revert E3. unfold validate. subst c2. cbn [cfg_storage cfg_options cfg_endpoints].
    destruct (validate_storage _). by intros [= <- _]. }
  rewrite He3, Heps in H.
  destruct (parse_endpoints 0 _) as [eps p4] eqn:E4.
  destruct (p1 ++ p2 ++ p3 ++ p4) eqn:Ep; [|done]. injection H as <-.
  apply app_nil in Ep as [-> [-> [-> ->]%app_nil]%app_nil].
  exists data, d, c1, o, eps. fold c2. rewrite E3, <-Hs3. cbn [fst snd]. done.
Qed.

Lemma validate_problems c : snd (validate c) = [] →
  snd (validate_storage (cfg_storage c)) = []
  ∧ o_max_upload_size (cfg_options c) >= 0
  ∧ (o_base_url (cfg_options c) ≠ [] → full_url (o_base_url (cfg_options c)) = true)
  ∧ Forall (λ p, parses_prefix p || parses_addr p = true) (default [] (o_trusted_proxies (cfg_options c)))
  ∧ cfg_endpoints c ≠ []
  ∧ validate_endpoints 0 (cfg_endpoints c) {| tk_paths := ∅; tk_dirs := ∅ |} = [].
Proof.
  unfold validate. destruct (validate_storage _) as [s p]. cbn [snd].
  intros [Hp [_ [_ [Hsize [Hurl [_ [Hpr He]%app_nil]%app_nil]%app_nil]%app_nil]%app_nil]%app_nil]%app_nil.
  split; [done|]. split; [destruct (Z.ltb_spec (o_max_upload_size (cfg_options c)) 0); [done|lia]|].
  split.
  { intros Hne. rewrite (proj2 (str_eqb_neq _ _) Hne) in Hurl. by destruct (full_url _). }
  split.
  { apply Forall_forall. intros x Hx. destruct (_ || _) eqn:E; [done|]. exfalso.
    assert (NotAnAddress x ∈ []) as Hin; [|by apply elem_of_nil in Hin].
    rewrite <-Hpr. apply list_elem_of_In, in_flat_map. exists x. split; [by apply list_elem_of_In|].
    rewrite E. by left. }
  destruct (cfg_endpoints c); [done|]. by split.
Qed.

(** Where the API of a parsed GitHub endpoint is: nowhere special, or at an [https]
    URL, or [http] on this machine, ending in a slash. *)
Definition safe_api (ep : Endpoint) : Prop :=
  ∀ u, ep_base_url ep = Some u → has_suffix "/" (u_path u) = true
    ∧ (u_scheme u = "https" ∨ u_scheme u = "http" ∧ is_loopback_host (hostname (u_host u)) = true).

Lemma has_suffix_snoc s : has_suffix "/" (s ++ "/") = true.
Proof. apply has_suffix_spec. by exists s. Qed.

Lemma parse_github_url_ok ep ep' : ep_base_url ep = None → parse_github_url ep = Ok ep' →
  safe_api ep' ∧ (auth_method ep = auth_github →
    ep_owner ep' ≠ [] ∧ ep_repo ep' ≠ [] ∧ (slash ∉ ep_owner ep') ∧ (slash ∉ ep_repo ep')).
Proof.
  intros Hb H. unfold parse_github_url in H. cbv zeta in H.
  destruct (str_eqb (auth_method ep) auth_github) eqn:Em; cbn [negb] in H.
  2: { injection H as <-. apply str_eqb_neq in Em. split; [|done]. intros u Hu. by rewrite Hb in Hu. }
  destruct (str_eqb (ep_url ep) []); [done|]. destruct (parse_url (ep_url ep)) as [u|]; [|done].
  destruct (negb _ && _); [done|].
  pose proof (split_on_pieces slash (trim (Ascii.eqb slash) (u_path u))) as Hpieces.
  destruct (split_on slash _) as [|owner [|repo []]]; try done.
  apply Forall_cons in Hpieces as [Ho Hpieces]. apply Forall_cons in Hpieces as [Hr _].
  destruct (str_eqb owner [] || str_eqb repo []) eqn:Ene; [done|].
  apply orb_false_iff in Ene as [En1%str_eqb_neq En2%str_eqb_neq].
  destruct (str_eqb (ep_api_url ep) []).
  { injection H as <-. split; [|done]. intros x Hx. cbn [ep_base_url] in Hx. by rewrite Hb in Hx. }
  destruct (parse_url (ep_api_url ep)) as [a|]; [|done].
  destruct (_ || _) in H; [done|]. destruct (negb _ && _) eqn:Es; [done|]. injection H as <-.
  split; [|done]. intros x [= <-].
  assert (u_scheme a = "https" ∨ u_scheme a = "http" ∧ is_loopback_host (hostname (u_host a)) = true) as Hs.
  { apply andb_false_iff in Es as [Es|Es].
    - left. apply negb_false_iff in Es. by apply str_eqb_eq.
    - right. apply orb_false_iff in Es as [Es1%negb_false_iff Es2%negb_false_iff].
      apply str_eqb_eq in Es1. done. }
  destruct (has_suffix "/" (u_path a)) eqn:Esl; [done|]. cbn [u_path u_scheme u_host].
  split; [apply has_suffix_snoc|done].
Qed.
End Guarantees.

(** ** Properties *)

Section Properties.
Context {U : Unicode} {I : IpSyntax} {N : NetIp} {T : Toml} {L : TomlLaws T}.

(** A setting parsed without a problem. *)
Lemma parse_setting_ok positive setting text old d : parse_setting positive setting text old = (d, []) →
  parse_duration text = Some d ∧ 0 <= d <= max_int64 ∧ (positive = true → d ≠ 0).
Proof.
  unfold parse_setting. intros H. destruct (parse_duration text) as [x|] eqn:E; [|done].
  destruct ((x <? 0) || (positive && (x =? 0))) eqn:Ec; [done|]. injection H as ->.
  apply orb_false_iff in Ec as [Hx%Z.ltb_ge Hp]. split; [done|].
  apply parse_duration_range in E as [_ E]. split; [lia|]. intros ->. by apply Z.eqb_neq in Hp.
Qed.

Lemma parse_settings_ok o o' : parse_settings o = (o', []) →
  0 < o_rate_limit_interval o' <= max_int64 ∧ 0 <= o_auth_cache_duration o' <= max_int64
  ∧ 0 < o_url_expiry_duration o' <= max_int64 ∧ 0 < o_shutdown_timeout_duration o' <= max_int64
  ∧ 0 <= o_upload_idle_timeout_duration o' <= max_int64
  ∧ (o_signing_key o' = [] ∧ o_signing_key_bytes o' = o_signing_key_bytes o
     ∨ hex_decode (o_signing_key o') = Some (o_signing_key_bytes o') ∧ (32 <= length (o_signing_key_bytes o'))%nat)
  ∧ o_max_upload_size o' = o_max_upload_size o ∧ o_rate_limit_tokens o' = o_rate_limit_tokens o
  ∧ o_base_url o' = o_base_url o.
Proof.
  unfold parse_settings. intros H.
  destruct (parse_rate_limit_window o) as [window p1] eqn:E1.
  destruct (parse_auth_cache_ttl o) as [ttl p2] eqn:E2.
  destruct (parse_url_expiry o) as [expiry p3] eqn:E3.
  destruct (parse_shutdown_timeout o) as [shutdown p4] eqn:E4.
  destruct (parse_upload_idle_timeout o) as [idle p5] eqn:E5.
  destruct (parse_signing_key o) as [key p6] eqn:E6. injection H as <- Hp.
  apply app_nil in Hp as [-> [-> [-> [-> [-> ->]%app_nil]%app_nil]%app_nil]%app_nil].
  apply parse_setting_ok in E1 as (_ & ? & N1), E2 as (_ & ? & _), E3 as (_ & ? & N3),
    E4 as (_ & ? & N4), E5 as (_ & ? & _).
  specialize (N1 eq_refl). specialize (N3 eq_refl). specialize (N4 eq_refl).
  cbn [o_rate_limit_interval o_auth_cache_duration o_url_expiry_duration o_shutdown_timeout_duration
    o_upload_idle_timeout_duration o_signing_key o_signing_key_bytes o_max_upload_size o_rate_limit_tokens o_base_url].
  do 5 (split; [lia|]). split; [|done].
  unfold parse_signing_key in E6. destruct (o_signing_key o) as [|c s] eqn:Ek.
  { injection E6 as <-. by left. }
  right. destruct (hex_decode (c :: s)) as [b|] eqn:Ed; [|done].
  destruct (Nat.ltb_spec (length b) 32); [done|]. by injection E6 as <-.
Qed.

(** Overrides keep numbers in range and positive. *)
Lemma override_number_ok parse env name target n :
  override_number parse env name target = (n, []) → n = target ∨ parse (getenv env name) = Some n ∧ 0 < n.
Proof.
  unfold override_number. destruct (getenv env name) as [|c v]; [intros [= <-]; by left|].
  destruct (parse _) as [m|]; [|done]. destruct (Z.ltb_spec 0 m); [|done]. intros [= <-]. by right.
Qed.

Lemma trim_slashes_ok s : has_suffix "/" (trim_slashes s) = false.
Proof.
  unfold trim_slashes, trim_right, has_suffix. rewrite rev_involutive.
  pose proof (trim_left_head (Ascii.eqb slash) (rev s)) as H.
  destruct (trim_left _ _) as [|c t]; [done|]. cbn [rev app has_prefix]. unfold slash in H.
  change (has_prefix ["/"%char] (c :: t) = false). cbn [has_prefix].
  rewrite H. done.
Qed.

Lemma env_options env c o p : apply_env_overrides env c = (o, p) → p = [] →
  (o_max_upload_size (cfg_options o) = o_max_upload_size (cfg_options c)
   ∨ ∃ s, parse_int s = Some (o_max_upload_size (cfg_options o)) ∧ 0 < o_max_upload_size (cfg_options o))
  ∧ (o_rate_limit_tokens (cfg_options o) = o_rate_limit_tokens (cfg_options c)
     ∨ 0 < o_rate_limit_tokens (cfg_options o))
  ∧ (has_suffix "/" (o_base_url (cfg_options c)) = false → has_suffix "/" (o_base_url (cfg_options o)) = false)
  ∧ o_signing_key_bytes (cfg_options o) = o_signing_key_bytes (cfg_options c).
Proof.
  unfold apply_env_overrides. cbv zeta. intros H ->.
  destruct (override_secret env _ (o_signing_key _)) as [key p1].
  destruct (override_number parse_int env _ _) as [size p2] eqn:E2.
  destruct (override_number (parse_uint max_uint64) env _ _) as [tokens p3] eqn:E3.
  destruct (override_bool env _ (o_access_log _)) as [access p4].
  destruct (override_secret env _ (st_access_key_id _)) as [key_id p5].
  destruct (override_secret env _ (st_secret_access_key _)) as [secret p6].
  destruct (override_bool env _ (st_presigned_urls _)) as [presigned p7].
  destruct (override_bool env _ (st_force_path_style _)) as [path_style p8].
  injection H as <- Hp. apply app_nil in Hp as [-> [-> [-> _]%app_nil]%app_nil].
  cbn [cfg_options o_max_upload_size o_rate_limit_tokens o_base_url o_signing_key_bytes].
  apply override_number_ok in E2, E3. split; [destruct E2 as [E2|[E2 ?]]; eauto|].
  split; [destruct E3 as [E3|[_ ?]]; auto|]. split; [|done].
  intros Hb. destruct (getenv env "ANCHOR_LFS_BASE_URL"); [done|apply trim_slashes_ok].
Qed.

Lemma path_byte_plain c : safe_or_dot c || is_separator c = true → plain_path_byte c = true.
Proof.
  intros H. assert (negb (safe_or_dot c || is_separator c) || plain_path_byte c = true) as Hb.
  { refine (forall_bytes (λ c, negb (safe_or_dot c || is_separator c) || plain_path_byte c) _ c).
    vm_compute. reflexivity. }
  by rewrite H in Hb.
Qed.

Lemma loaded_paths env path c : load env path = Ok c →
  Forall (λ ep, good_path (ep_path ep)) (cfg_endpoints c) ∧ NoDup (map storage_directory (cfg_endpoints c)).
Proof.
  intros H. apply load_ok in H as (data & d & c1 & o & eps & _ & _ & _ & E1 & _ & Hv & Hp & ->).
  pose proof (env_endpoints env (apply_defaults (td_prefix_defined d) (td_config d))) as He.
  rewrite E1 in He. apply validate_problems in Hv as (_ & _ & _ & _ & _ & Hv).
  cbn [fst cfg_endpoints] in *. rewrite He in Hv. clear He.
  apply validate_endpoints_ok in Hv as (Hgood & Hdirs & _). apply parse_endpoints_same in Hp.
  cbn [apply_defaults cfg_endpoints] in *.
  assert (map ep_path eps = map ep_path (cfg_endpoints (td_config d))) as Hpaths.
  { clear -Hp. induction Hp as [|ep ep' l l' Hep _ IH]; [done|]. cbn [map]. rewrite IH. f_equal.
    by apply parse_github_url_same in Hep as (_ & Hpath & _). }
  split.
  - apply Forall_map. rewrite Hpaths. apply Forall_map. eapply Forall_impl; [exact Hgood|]. by intros ? (_ & ? & _).
  - assert (∀ l, map storage_directory l = map (λ p, to_lower (endpoint p)) (map ep_path l)) as Hmap
      by (intros l; by rewrite map_map).
    by rewrite Hmap, Hpaths, <-Hmap.
Qed.

(** C21. What a server may rely on of the endpoints of a configuration that loads.
    There is one; every one has a name, a clean rooted path that is not reserved
    and that the router and the URL signer take literally, without the separator
    of cache keys, a known authentication method and visibility, and is public if it
    has no authentication and its visibility is written in ASCII; what a visibility
    in other letters gets past the check is shown by [dotted_private_passes]. No two
    endpoints share a storage directory, even on a file system that ignores case, and
    none uses a reserved one. GitHub repositories have an owner and a name, and an API
    that is reached over https or on this machine. *)
Theorem loaded_endpoints_separate env path c :
  load env path = Ok c →
  cfg_endpoints c ≠ []
  ∧ NoDup (map storage_directory (cfg_endpoints c))
  ∧ Forall (λ ep, ep_name ep ≠ [] ∧ good_path (ep_path ep) ∧ plain_endpoint ep ∧ ("|"%char ∉ ep_path ep)
      ∧ good_access ep ∧ safe_api ep
      ∧ (auth_method ep = auth_github → ep_owner ep ≠ [] ∧ ep_repo ep ≠ []
           ∧ (slash ∉ ep_owner ep) ∧ (slash ∉ ep_repo ep))) (cfg_endpoints c).
Proof.
  intros H. apply load_ok in H as (data & d & c1 & o & eps & _ & Hd & _ & E1 & _ & Hv & Hp & ->).
  apply toml_skipped in Hd as [Hskip _].
  pose proof (env_endpoints env (apply_defaults (td_prefix_defined d) (td_config d))) as He.
  rewrite E1 in He. apply validate_problems in Hv as (_ & _ & _ & _ & Hne & Hv).
  cbn [fst cfg_endpoints] in *. rewrite He in Hne, Hv. clear He.
  apply validate_endpoints_ok in Hv as (Hgood & Hdirs & _). apply parse_endpoints_same in Hp.
  cbn [apply_defaults cfg_endpoints] in *. split; [|split].
  - intros ->. by apply Forall2_nil_inv_r in Hp.
  - assert (map storage_directory eps = map storage_directory (cfg_endpoints (td_config d))) as ->; [|done].
    clear -Hp. induction Hp as [|ep ep' l l' Hep _ IH]; [done|]. cbn [map]. rewrite IH. f_equal.
    apply parse_github_url_same in Hep as (_ & Hpath & _). unfold storage_directory. by rewrite Hpath.
  - rewrite Forall_forall in Hgood, Hskip. apply Forall_forall. intros ep' Hin.
    apply list_elem_of_lookup in Hin as [i Hi].
    destruct (Forall2_lookup_r _ _ _ _ _ Hp Hi) as (ep & Hep & Hparse).
    apply list_elem_of_lookup_2 in Hep. destruct (Hgood ep Hep) as (G1 & G2 & G3).
    destruct (parse_github_url_same _ _ Hparse) as (S1 & S2 & S3 & S4).
    destruct (parse_github_url_ok _ _ (Hskip ep Hep) Hparse) as [Hapi Hrepo].
    unfold plain_endpoint. rewrite S1, S2. pose proof (endpoint_valid_bytes _ (gp_valid _ G2)) as Hb.
    split; [done|]. split; [done|]. split; [split; [apply G2|]|split].
    + eapply Forall_impl; [exact Hb|]. apply path_byte_plain.
    + intros Hbar. rewrite Forall_forall in Hb. by specialize (Hb _ Hbar).
    + split; [|split; [done|]].
      * destruct G3. unfold auth_method, is_public in *. by split; unfold auth_method, is_public; rewrite ?S3, ?S4.
      * unfold auth_method in *. by rewrite S4.
Qed.

(** C22. What a server may rely on of the settings of a configuration that loads:
    the maximum upload size and the rate limit are positive, every duration is a
    positive (for the cache and the idle timeout, non-negative) [int64] number of
    nanoseconds, a signing key that is set has at least 32 bytes, and a base URL
    that is set has a scheme and a host and no slash at its end; every trusted
    proxy is an address or a range. *)
Theorem loaded_settings_in_range env path c :
  load env path = Ok c →
  let o := cfg_options c in
  0 < o_max_upload_size o <= max_int64 ∧ 0 < o_rate_limit_tokens o
  ∧ 0 < o_rate_limit_interval o <= max_int64 ∧ 0 < o_url_expiry_duration o <= max_int64
  ∧ 0 < o_shutdown_timeout_duration o <= max_int64 ∧ 0 <= o_auth_cache_duration o <= max_int64
  ∧ 0 <= o_upload_idle_timeout_duration o <= max_int64
  ∧ (o_signing_key_bytes o = [] ∨ (32 <= length (o_signing_key_bytes o))%nat)
  ∧ (o_base_url o ≠ [] → full_url (o_base_url o) = true ∧ has_suffix "/" (o_base_url o) = false)
  ∧ Forall (λ p, parses_prefix p || parses_addr p = true) (default [] (o_trusted_proxies o)).
Proof.
  intros H. apply load_ok in H as (data & d & c1 & o & eps & _ & Hd & _ & E1 & E2 & Hv & _ & ->).
  pose proof (toml_integers _ _ Hd) as [[Hs1 Hs2] [Ht1 Ht2]]. apply toml_skipped in Hd as [_ Hkey].
  apply validate_problems in Hv as (_ & Hsize & Hurl & Hpr & _).
  apply env_options in E1 as (Q1 & Q2 & Q3 & Q4); [|done].
  apply parse_settings_ok in E2 as (R1 & R2 & R3 & R4 & R5 & R6 & R7 & R8 & R9).
  cbn [cfg_options] in *. unfold validate. destruct (validate_storage _) as [s p].
  cbn [fst cfg_options o_max_upload_size o_rate_limit_tokens o_rate_limit_interval o_url_expiry_duration
    o_shutdown_timeout_duration o_auth_cache_duration o_upload_idle_timeout_duration o_signing_key_bytes
    o_base_url o_trusted_proxies].
  cbn [apply_defaults cfg_options default_options o_max_upload_size o_rate_limit_tokens o_base_url
    o_signing_key_bytes] in Q1, Q2, Q3, Q4.
  split; [|split; [|do 5 (split; [done|]); split; [|split; [|done]]]].
  - rewrite R7 in *. destruct Q1 as [Q1|(t & [_ Q1]%parse_int_range & Q1')]; [|lia].
    rewrite Q1 in *. destruct (Z.eqb_spec (o_max_upload_size (cfg_options (td_config d))) 0); [done|lia].
  - rewrite R8. destruct Q2 as [Q2|Q2]; [|done].
    rewrite Q2. destruct (Z.eqb_spec (o_rate_limit_tokens (cfg_options (td_config d))) 0); lia.
  - destruct R6 as [[_ R6]|[_ R6]]; [left; congruence|by right].
  - intros Hne. split; [by apply Hurl|]. rewrite R9. apply Q3, trim_slashes_ok.
Qed.
End Properties.
