(* ===== verification/Auth.v ===== *)
(** * auth: authenticators

    The [Authenticator] interface, [None], and [GitHub], which asks the GitHub
    API what a token may do with the repository of an endpoint, caches the
    answers and shares lookups between concurrent requests.  The API is a
    parameter, one value of [GitHubApi] being what it answers at one moment.
    Each function is executable; [step] puts them together into the concurrent
    system the source is: requests that wait for shared lookups or leave, the
    lookups themselves, the passage of time and the cache sweeper. *)

From S2P Require Import Prelude GoStrings GoUnicode GoConv GoHash GoTime GoUrl GoNet GoOs Config.

Local Open Scope go_scope.

(** ** auth/authenticator.go *)

(** [Operation] is a string type. *)
Abbreviation Operation := gostring.
Definition operation_download : Operation := "download".
Definition operation_upload : Operation := "upload".

(** [Result] *)
Record Result := {
  authenticated : bool;
  authorized : bool;
  username : gostring;
  maintainer : bool
}.
Definition no_result : Result :=
  {| authenticated := false; authorized := false; username := []; maintainer := false |}.

(** The errors of an authenticator, as its callers tell them apart: an error
    wrapping [ErrUnavailable], a [*RateLimitedError], or any other. *)
Inductive auth_error : Type :=
| Unavailable
| RateLimitedError (retry_after : Z)
| OtherAuthError.

(** [Authenticator] over a world [W]. *)
Record Authenticator (W : Type) := {
  authenticate_with : Endpoint → gostring → gostring → Operation → W
    → result auth_error Result * W
}.
Arguments authenticate_with {W}.

(** auth/none.go: [None.Authenticate] *)
Definition none_authenticate {W} (_ : Endpoint) (user _ : gostring) (_ : Operation) (w : W)
  : result auth_error Result * W :=
  let name := if str_eqb user [] then "anonymous" else user in
  (Ok {| authenticated := true; authorized := true; username := name; maintainer := true |}, w).

(** ** auth/github.go: access *)

(** [probe] *)
Inductive probe : Type := ProbeUnchecked | ProbeAllowed | ProbeDenied.
#[export] Instance probe_eq_dec : EqDecision probe.
Proof. solve_decision. Defined.

(** [access] *)
Record access := {
  acc_authenticated : bool;
  acc_username : gostring;
  acc_private : bool;
  acc_pull : bool;
  acc_push : bool;
  acc_maintainer : bool;
  acc_read : probe;
  acc_write : probe
}.

(** [access{}] and [access{authenticated: true}] *)
Definition no_access (ok : bool) : access :=
  {| acc_authenticated := ok; acc_username := []; acc_private := false; acc_pull := false;
     acc_push := false; acc_maintainer := false; acc_read := ProbeUnchecked;
     acc_write := ProbeUnchecked |}.

(** [access.result] *)
Definition access_result (op : Operation) (a : access) : Result :=
  let result ok maint := {| authenticated := acc_authenticated a; authorized := ok;
                            username := acc_username a; maintainer := maint |} in
  if str_eqb op operation_download then
    result (acc_pull a && (negb (acc_private a) || bool_decide (acc_read a = ProbeAllowed))) false
  else if str_eqb op operation_upload then
    let ok := acc_push a && bool_decide (acc_write a = ProbeAllowed) in
    result ok (ok && acc_maintainer a)
  else result false false.

(** [access.needsProbe] *)
Definition needs_probe (op : Operation) (a : access) : bool :=
  if str_eqb op operation_download then
    acc_pull a && acc_private a && bool_decide (acc_read a = ProbeUnchecked)
  else if str_eqb op operation_upload then
    acc_push a && bool_decide (acc_write a = ProbeUnchecked)
  else false.

(** [access.withProbe] *)
Definition with_probe (op : Operation) (outcome : probe) (a : access) : access :=
  let set r w := {| acc_authenticated := acc_authenticated a; acc_username := acc_username a;
                    acc_private := acc_private a; acc_pull := acc_pull a; acc_push := acc_push a;
                    acc_maintainer := acc_maintainer a; acc_read := r; acc_write := w |} in
  if str_eqb op operation_download then set outcome (acc_write a)
  else if str_eqb op operation_upload then set (acc_read a) outcome
  else a.

(** ** The GitHub API *)

(** A response's status and headers ([Header.Get]). *)
Record gh_response := { gh_status : Z; gh_header : gostring → gostring }.

(** The errors of the client, as [errors.AsType] tells them apart. *)
Inductive gh_error : Type :=
| RateLimitError (reset : option Z)              (** [None] is the zero time *)
| AbuseRateLimitError (retry_after : option Z)
| ErrorResponse (resp : option gh_response)
| OtherGhError.

Record repository := {
  repo_private : bool;
  repo_permissions : option (gmap gostring bool)
}.

(** [client(token)]: the API at a base URL ([None] for the default), with a token. *)
Definition gh_client : Type := option URL * gostring.

Record GitHubApi := {
  repositories_get : gh_client → gostring → gostring → result gh_error repository;
  users_get : gh_client → result gh_error gostring;
  list_commits : gh_client → gostring → gostring → option gh_error;
  create_blob : gh_client → gostring → gostring → option gh_error
}.

(** ** Errors and waits *)

Definition default_retry_after : Z := minute.
Definition max_retry_after : Z := hour.

(** [rateLimited] *)
Definition rate_limited (wait : Z) : auth_error := RateLimitedError (Z.min wait max_retry_after).

(** [untilReset], at time [now]; the zero time is [None]. *)
Definition until_reset (now : Z) (reset : option Z) : Z :=
  match reset with
  | None => default_retry_after
  | Some t => Z.max (saturate (t - now)) second
  end.

(** [time.Unix(sec, 0)]: seconds are kept from year 1, in 64 bits, and the zero
    time is that year's start. *)
Definition unix_to_internal : Z := 62135596800.
Definition time_unix (sec : Z) : option Z :=
  let internal := wrap_int64 (sec + unix_to_internal) in
  if internal =? 0 then None else Some ((internal - unix_to_internal) * second).

(** [retryAfter]; the product of the seconds by a second is an [int64]. *)
Definition retry_after (now : Z) (header : gostring → gostring) : Z :=
  match parse_int (header "Retry-After") with
  | Some seconds =>
      if 0 <? seconds then wrap_int64 (seconds * second)
      else match parse_int (header "X-RateLimit-Reset") with
           | Some reset => until_reset now (time_unix reset)
           | None => default_retry_after
           end
  | None =>
      match parse_int (header "X-RateLimit-Reset") with
      | Some reset => until_reset now (time_unix reset)
      | None => default_retry_after
      end
  end.

(** [classifyGitHubError] *)
Definition classify_github_error (now : Z) (e : gh_error) : result auth_error access :=
  match e with
  | RateLimitError reset => Err (rate_limited (until_reset now reset))
  | AbuseRateLimitError wait =>
      let w := default 0 wait in
      Err (rate_limited (if w =? 0 then default_retry_after else w))
  | ErrorResponse (Some resp) =>
      if gh_status resp =? 401 then Ok (no_access false)
      else if (gh_status resp =? 403) || (gh_status resp =? 404) then Ok (no_access true)
      else if gh_status resp =? 429 then Err (rate_limited (retry_after now (gh_header resp)))
      else Err Unavailable
  | _ => Err Unavailable
  end.

(** The status of an [*ErrorResponse] that has one. *)
Definition error_status (e : option gh_error) : option Z :=
  match e with Some (ErrorResponse (Some resp)) => Some (gh_status resp) | _ => None end.

(** [isUnauthorized] *)
Definition is_unauthorized (e : option gh_error) : bool := bool_decide (error_status e = Some 401).

(** [probeOutcome] *)
Definition probe_outcome (now : Z) (e : option gh_error) : result auth_error probe :=
  match e with
  | None => Ok ProbeAllowed
  | Some err =>
      if bool_decide (error_status e = Some 409) || bool_decide (error_status e = Some 422)
      then Ok ProbeAllowed
      else if bool_decide (error_status e = Some 403) || bool_decide (error_status e = Some 404)
      then Ok ProbeDenied
      else match classify_github_error now err with
           | Err x => Err x
           | Ok _ => Ok ProbeDenied
           end
  end.

(** ** The cache *)

(** [cacheEntry] *)
Record cacheEntry := { ce_access : access; ce_expires : Z }.

(** [GitHub]; [gh_cache] is [None] while the map is nil, and [gh_stop] is the stop
    channel, [Some true] once closed. *)
Record GitHub := {
  cache_ttl : Z;
  base_url : option URL;
  cache_hits : Z;
  cache_misses : Z;
  gh_cache : option (gmap gostring cacheEntry);
  gh_stop : option bool
}.

(** [NewGitHub] *)
Definition new_github (ttl : Z) (base : option URL) : GitHub :=
  {| cache_ttl := ttl; base_url := base; cache_hits := 0; cache_misses := 0;
     gh_cache := None; gh_stop := None |}.

Definition set_cache (c : option (gmap gostring cacheEntry)) (g : GitHub) : GitHub :=
  {| cache_ttl := cache_ttl g; base_url := base_url g; cache_hits := cache_hits g;
     cache_misses := cache_misses g; gh_cache := c; gh_stop := gh_stop g |}.
Definition set_stop (s : option bool) (g : GitHub) : GitHub :=
  {| cache_ttl := cache_ttl g; base_url := base_url g; cache_hits := cache_hits g;
     cache_misses := cache_misses g; gh_cache := gh_cache g; gh_stop := s |}.
Definition count_lookup (hit : bool) (g : GitHub) : GitHub :=
  {| cache_ttl := cache_ttl g; base_url := base_url g;
     cache_hits := if hit then wrap_uint64 (cache_hits g + 1) else cache_hits g;
     cache_misses := if hit then cache_misses g else wrap_uint64 (cache_misses g + 1);
     gh_cache := gh_cache g; gh_stop := gh_stop g |}.

Definition cached_entries (g : GitHub) : gmap gostring cacheEntry := default ∅ (gh_cache g).

(** [CacheStats] *)
Definition cache_stats (g : GitHub) : Z * Z := (cache_hits g, cache_misses g).

(** [cacheLookup], at time [now] *)
Definition cache_lookup (now : Z) (key : gostring) (g : GitHub) : option access * GitHub :=
  match cached_entries g !! key with
  | None => (None, g)
  | Some entry =>
      if ce_expires entry <? now
      then (None, set_cache (delete key <$> gh_cache g) g)
      else (Some (ce_access entry), g)
  end.

Definition invalid_token_cache_ttl : Z := 10 * second.

(** How long [cacheStoreIfEnabled] keeps an access. *)
Definition entry_ttl (acc : access) (g : GitHub) : Z :=
  if acc_authenticated acc then cache_ttl g else Z.min (cache_ttl g) invalid_token_cache_ttl.

(** [startSweeperLocked]; the goroutine sweeps every [sweep_interval]. *)
Definition min_sweep_interval : Z := second.
Definition sweep_interval (g : GitHub) : Z := Z.max (Z.quot (cache_ttl g) 2) min_sweep_interval.
Definition start_sweeper (g : GitHub) : GitHub := set_stop (Some false) g.

(** [cacheStoreIfEnabled], at time [now] *)
Definition cache_store (now : Z) (key : gostring) (acc : access) (g : GitHub) : GitHub :=
  let ttl := entry_ttl acc g in
  if ttl <=? 0 then g
  else
    let g := match gh_cache g with
             | None => start_sweeper (set_cache (Some ∅) g)
             | Some _ => g
             end in
    set_cache (Some (<[key := {| ce_access := acc; ce_expires := now + ttl |}]> (cached_entries g))) g.

(** [cacheRecordProbe] *)
Definition cache_record_probe (key : gostring) (op : Operation) (outcome : probe) (g : GitHub) : GitHub :=
  match cached_entries g !! key with
  | None => g
  | Some entry =>
      set_cache (Some (<[key := {| ce_access := with_probe op outcome (ce_access entry);
                                   ce_expires := ce_expires entry |}]> (cached_entries g))) g
  end.

(** [sweep], at time [now] *)
Definition sweep (now : Z) (g : GitHub) : GitHub :=
  set_cache (filter (λ p, ¬ (ce_expires p.2 < now)) <$> gh_cache g) g.

(** [Close] *)
Definition close_github (g : GitHub) : GitHub :=
  match gh_stop g with
  | None => g
  | Some _ => set_stop (Some true) g
  end.

(** ** Lookups *)

(** What a shared lookup computes: the arguments its closure captured. *)
Inductive flight : Type :=
| FetchAccess (ep : Endpoint) (token key : gostring)
| ProbeContents (ep : Endpoint) (token key : gostring) (op : Operation) (acc : access).

(** What a caller does next: return, or wait in [share] for the lookup of a key. *)
Inductive progress : Type :=
| Finished (r : result auth_error Result)
| Waiting (key : gostring) (f : flight).

Section GitHub.
Context {U : Unicode} (cache_hmac_key : gostring).

(** [cacheKey] *)
Definition cache_key (token path : gostring) : gostring :=
  hex_encode (hmac_sha256 cache_hmac_key token) ++ "|" ++ path.

(** [client] *)
Definition client_of (token : gostring) (g : GitHub) : gh_client := (base_url g, token).

(** The access of a repository answer and a login. *)
Definition granted (repo : repository) (perms : gmap gostring bool) (login : gostring) : access :=
  let perm k := default false (perms !! (k : gostring)) in
  {| acc_authenticated := true; acc_username := login; acc_private := repo_private repo;
     acc_pull := perm "pull"%go; acc_push := perm "push"%go;
     acc_maintainer := perm "maintain"%go || perm "admin"%go;
     acc_read := ProbeUnchecked; acc_write := ProbeUnchecked |}.

(** [fetchAccess], answered at time [now] *)
Definition fetch_access (api : GitHubApi) (now : Z) (ep : Endpoint) (token key : gostring)
    (g : GitHub) : result auth_error access * GitHub :=
  let client := client_of token g in
  match repositories_get api client (ep_owner ep) (ep_repo ep) with
  | Err e =>
      match classify_github_error now e with
      | Ok denied => (Ok denied, cache_store now key denied g)
      | Err x => (Err x, g)
      end
  | Ok repo =>
      match repo_permissions repo with
      | None => (Ok (no_access true), g)
      | Some perms =>
          match users_get api client with
          | Err e => (classify_github_error now e, g)
          | Ok login =>
              let acc := granted repo perms login in
              (Ok acc, cache_store now key acc g)
          end
      end
  end.

(** The request [probeContents] makes for an operation. *)
Definition probe_request (api : GitHubApi) (client : gh_client) (ep : Endpoint) (op : Operation)
  : option gh_error :=
  if str_eqb op operation_download then list_commits api client (ep_owner ep) (ep_repo ep)
  else if str_eqb op operation_upload then create_blob api client (ep_owner ep) (ep_repo ep)
  else None.

(** [probeContents]: first what the cache knows by now, ... *)
Definition probe_begin (now : Z) (key : gostring) (op : Operation) (g : GitHub)
  : option access * GitHub :=
  match cache_lookup now key g with
  | (Some cached, g) => (if needs_probe op cached then None else Some cached, g)
  | (None, g) => (None, g)
  end.

(** ... then GitHub, answering at time [now]. *)
Definition probe_finish (api : GitHubApi) (now : Z) (ep : Endpoint) (token key : gostring)
    (op : Operation) (acc : access) (g : GitHub) : result auth_error access * GitHub :=
  let err := probe_request api (client_of token g) ep op in
  if is_unauthorized err then (Ok (no_access false), cache_store now key (no_access false) g)
  else
    match probe_outcome now err with
    | Err x => (Err x, g)
    | Ok outcome => (Ok (with_probe op outcome acc), cache_record_probe key op outcome g)
    end.

Definition probe_contents (api : GitHubApi) (now : Z) (ep : Endpoint) (token key : gostring)
    (op : Operation) (acc : access) (g : GitHub) : result auth_error access * GitHub :=
  match probe_begin now key op g with
  | (Some cached, g) => (Ok cached, g)
  | (None, g) => probe_finish api now ep token key op acc g
  end.

(** ** Authenticate *)

(** [lookup], up to where it waits: the cached access, or the lookup to share. *)
Definition lookup_access (now : Z) (ep : Endpoint) (token key : gostring) (g : GitHub)
  : option access * GitHub :=
  match cache_lookup now key g with
  | (Some cached, g) => (Some cached, count_lookup true g)
  | (None, g) => (None, count_lookup false g)
  end.

(** The key of a contents probe: [key+"|"+string(op)]. *)
Definition probe_key (key : gostring) (op : Operation) : gostring := key ++ "|" ++ op.

(** [Authenticate] once the access is known, and once the probe is. *)
Definition after_lookup (ep : Endpoint) (password : gostring) (op : Operation)
    (r : result auth_error access) : progress :=
  let key := cache_key password (ep_path ep) in
  match r with
  | Err x => Finished (Err x)
  | Ok acc =>
      if needs_probe op acc
      then Waiting (probe_key key op) (ProbeContents ep password key op acc)
      else Finished (Ok (access_result op acc))
  end.
Definition after_probe (op : Operation) (r : result auth_error access) : result auth_error Result :=
  match r with Err x => Err x | Ok acc => Ok (access_result op acc) end.

(** [Authenticate] up to where it first waits. *)
Definition begin_authenticate (now : Z) (ep : Endpoint) (password : gostring) (op : Operation)
    (g : GitHub) : progress * GitHub :=
  if is_public ep && str_eqb op operation_download then
    (Finished (Ok {| authenticated := true; authorized := true; username := []; maintainer := false |}), g)
  else if str_eqb password [] then (Finished (Ok no_result), g)
  else
    let key := cache_key password (ep_path ep) in
    match lookup_access now ep password key g with
    | (Some acc, g) => (after_lookup ep password op (Ok acc), g)
    | (None, g) => (Waiting key (FetchAccess ep password key), g)
    end.

(** A lookup run on its own. *)
Definition run_flight (api : GitHubApi) (now : Z) (f : flight) (g : GitHub)
  : result auth_error access * GitHub :=
  match f with
  | FetchAccess ep token key => fetch_access api now ep token key g
  | ProbeContents ep token key op acc => probe_contents api now ep token key op acc g
  end.

(** [Authenticate] of a caller that shares no lookup and does not leave. *)
Definition authenticate (api : GitHubApi) (now : Z) (ep : Endpoint) (_ password : gostring)
    (op : Operation) (g : GitHub) : result auth_error Result * GitHub :=
  match begin_authenticate now ep password op g with
  | (Finished r, g) => (r, g)
  | (Waiting _ f, g) =>
      let '(r, g) := run_flight api now f g in
      match f with
      | ProbeContents _ _ _ _ _ => (after_probe op r, g)
      | FetchAccess _ _ _ =>
          match after_lookup ep password op r with
          | Finished r => (r, g)
          | Waiting _ f => let '(r, g) := run_flight api now f g in (after_probe op r, g)
          end
      end
  end.

(** ** Concurrent callers *)

(** A caller in [share]: waiting for a lookup of the access or of a probe, or its
    result being there. *)
Inductive call_state : Type :=
| WaitAccess
| HaveAccess (r : result auth_error access)
| WaitProbe
| HaveProbe (r : result auth_error access)
| Done (r : result auth_error Result).

Record call := {
  c_endpoint : Endpoint;
  c_password : gostring;
  c_op : Operation;
  c_state : call_state
}.
Definition set_state (s : call_state) (c : call) : call :=
  {| c_endpoint := c_endpoint c; c_password := c_password c; c_op := c_op c; c_state := s |}.

(** The key a call's access is looked up under, and the key it waits for. *)
Definition c_key (c : call) : gostring := cache_key (c_password c) (ep_path (c_endpoint c)).
Definition waits_for (c : call) : option gostring :=
  match c_state c with
  | WaitAccess => Some (c_key c)
  | WaitProbe => Some (probe_key (c_key c) (c_op c))
  | _ => None
  end.

(** The system: the authenticator, the time, the lookups under way, with
    [true] for a probe that has found the cache of no use, the callers, and, as
    a ghost, what GitHub has answered to which lookup and when. *)
Record asked := { as_time : Z; as_api : GitHubApi; as_flight : flight }.
Record system := {
  sys_github : GitHub;
  sys_now : Z;
  sys_flights : gmap gostring (flight * bool);
  sys_calls : list call;
  sys_log : list asked
}.

(** The result of the lookup of a key reaches the callers waiting for it. *)
Definition deliver (k : gostring) (r : result auth_error access) (c : call) : call :=
  if bool_decide (waits_for c = Some k) then
    match c_state c with
    | WaitAccess => set_state (HaveAccess r) c
    | WaitProbe => set_state (HaveProbe r) c
    | _ => c
    end
  else c.

(** [share] joins the lookup under way for the key, or starts its own. *)
Definition join (p : progress) (fl : gmap gostring (flight * bool))
  : call_state * gmap gostring (flight * bool) :=
  match p with
  | Finished r => (Done r, fl)
  | Waiting k f =>
      (match f with FetchAccess _ _ _ => WaitAccess | ProbeContents _ _ _ _ _ => WaitProbe end,
       match fl !! k with Some _ => fl | None => <[k := (f, false)]> fl end)
  end.

Definition flight_done (k : gostring) (r : result auth_error access) (g : GitHub)
    (answered : list asked) (s : system) : system :=
  {| sys_github := g; sys_now := sys_now s; sys_flights := delete k (sys_flights s);
     sys_calls := map (deliver k r) (sys_calls s); sys_log := answered ++ sys_log s |}.

(** The steps, for requests to the endpoints [eps]. *)
Inductive step (eps : list Endpoint) (s : system) : system → Prop :=
| step_tick dt : 0 <= dt → step eps s
    {| sys_github := sys_github s; sys_now := sys_now s + dt; sys_flights := sys_flights s;
       sys_calls := sys_calls s; sys_log := sys_log s |}
| step_call ep pw op p g st fl :
    ep ∈ eps → op = operation_download ∨ op = operation_upload →
    begin_authenticate (sys_now s) ep pw op (sys_github s) = (p, g) →
    join p (sys_flights s) = (st, fl) →
    step eps s
      {| sys_github := g; sys_now := sys_now s; sys_flights := fl;
         sys_calls := sys_calls s
           ++ [{| c_endpoint := ep; c_password := pw; c_op := op; c_state := st |}];
         sys_log := sys_log s |}
| step_fetch k ep token key b api r g :
    sys_flights s !! k = Some (FetchAccess ep token key, b) →
    fetch_access api (sys_now s) ep token key (sys_github s) = (r, g) →
    step eps s (flight_done k r g
      [{| as_time := sys_now s; as_api := api; as_flight := FetchAccess ep token key |}] s)
| step_probe_cached k ep token key op acc cached g :
    sys_flights s !! k = Some (ProbeContents ep token key op acc, false) →
    probe_begin (sys_now s) key op (sys_github s) = (Some cached, g) →
    step eps s (flight_done k (Ok cached) g [] s)
| step_probe_begin k ep token key op acc g :
    sys_flights s !! k = Some (ProbeContents ep token key op acc, false) →
    probe_begin (sys_now s) key op (sys_github s) = (None, g) →
    step eps s
      {| sys_github := g; sys_now := sys_now s;
         sys_flights := <[k := (ProbeContents ep token key op acc, true)]> (sys_flights s);
         sys_calls := sys_calls s; sys_log := sys_log s |}
| step_probe_finish k ep token key op acc api r g :
    sys_flights s !! k = Some (ProbeContents ep token key op acc, true) →
    probe_finish api (sys_now s) ep token key op acc (sys_github s) = (r, g) →
    step eps s (flight_done k r g
      [{| as_time := sys_now s; as_api := api; as_flight := ProbeContents ep token key op acc |}] s)
| step_have_access i c r st fl :
    sys_calls s !! i = Some c → c_state c = HaveAccess r →
    join (after_lookup (c_endpoint c) (c_password c) (c_op c) r) (sys_flights s) = (st, fl) →
    step eps s
      {| sys_github := sys_github s; sys_now := sys_now s; sys_flights := fl;
         sys_calls := <[i := set_state st c]> (sys_calls s); sys_log := sys_log s |}
| step_have_probe i c r :
    sys_calls s !! i = Some c → c_state c = HaveProbe r →
    step eps s
      {| sys_github := sys_github s; sys_now := sys_now s; sys_flights := sys_flights s;
         sys_calls := <[i := set_state (Done (after_probe (c_op c) r)) c]> (sys_calls s);
         sys_log := sys_log s |}
| step_leave i c :
    sys_calls s !! i = Some c → (∀ r, c_state c ≠ Done r) →
    step eps s
      {| sys_github := sys_github s; sys_now := sys_now s; sys_flights := sys_flights s;
         sys_calls := <[i := set_state (Done (Err Unavailable)) c]> (sys_calls s);
         sys_log := sys_log s |}
| step_sweep : step eps s
    {| sys_github := sweep (sys_now s) (sys_github s); sys_now := sys_now s;
       sys_flights := sys_flights s; sys_calls := sys_calls s; sys_log := sys_log s |}
| step_close : step eps s
    {| sys_github := close_github (sys_github s); sys_now := sys_now s;
       sys_flights := sys_flights s; sys_calls := sys_calls s; sys_log := sys_log s |}.

Definition init_system (g : GitHub) (now : Z) : system :=
  {| sys_github := g; sys_now := now; sys_flights := ∅; sys_calls := []; sys_log := [] |}.

(** Reachable from an authenticator with a cold cache. *)
Inductive reachable (eps : list Endpoint) (g0 : GitHub) (now0 : Z) : system → Prop :=
| reach_init : reachable eps g0 now0 (init_system g0 now0)
| reach_step s s' : reachable eps g0 now0 s → step eps s s' → reachable eps g0 now0 s'.
End GitHub.

(** ** Cache keys *)

Section Keys.
Context (hk : gostring).

Lemma cache_key_inj t p t' p' : cache_key hk t p = cache_key hk t' p' →
  hmac_sha256 hk t = hmac_sha256 hk t' ∧ p = p'.
Proof.
  unfold cache_key. intros H. apply app_inj_1 in H as [Hh Hp].
  - split; [|by injection Hp]. apply (f_equal hex_decode) in Hh.
    rewrite !hex_decode_encode in Hh. congruence.
  - rewrite !hex_encode_length. unfold hmac_sha256. by rewrite !sha256_length.
Qed.

Lemma bar_in_app (a b : gostring) : "|"%char ∈ a ++ "|" ++ b.
Proof. apply elem_of_app. right. apply elem_of_app. left. apply list_elem_of_singleton. done. Qed.

(** A lookup of an access and a contents probe never share a key, as long as no
    path holds a bar. *)
Lemma cache_key_not_probe t p t' p' op :
  "|"%char ∉ p → cache_key hk t p ≠ probe_key (cache_key hk t' p') op.
Proof.
  intros Hp H. unfold probe_key in H. rewrite (app_assoc _ "|" op) in H.
  assert (cache_key hk t p = cache_key hk t' (p' ++ "|" ++ op)) as H'
    by (rewrite H; unfold cache_key; by rewrite <-!app_assoc).
  apply cache_key_inj in H' as [_ ->]. apply Hp, bar_in_app.
Qed.

Lemma probe_key_inj t p op t' p' op' : ("|"%char ∉ p) → ("|"%char ∉ p') →
  probe_key (cache_key hk t p) op = probe_key (cache_key hk t' p') op' →
  cache_key hk t p = cache_key hk t' p' ∧ op = op'.
Proof.
  intros Hp Hp' H.
  assert (cache_key hk t (p ++ "|" ++ op) = cache_key hk t' (p' ++ "|" ++ op')) as H'
    by (unfold probe_key, cache_key in *; rewrite <-!app_assoc in *; done).
  apply cache_key_inj in H' as [Hh Heq].
  assert (Some (p, op) = Some (p', op')) as [= -> ->]
    by (rewrite <-(cut_at_app "|"%char p op Hp), <-(cut_at_app "|"%char p' op' Hp'); by f_equal).
  split; [|done]. unfold cache_key. by rewrite Hh.
Qed.
End Keys.

(** ** The cache *)

(** [g'] is [g] with possibly fewer entries. *)
Record fewer_entries (g g' : GitHub) : Prop := {
  fe_ttl : cache_ttl g' = cache_ttl g;
  fe_base : base_url g' = base_url g;
  fe_cache : cached_entries g' ⊆ cached_entries g
}.

Lemma fewer_entries_refl g : fewer_entries g g.
Proof. by split. Qed.

Lemma cache_lookup_spec now key g o g' : cache_lookup now key g = (o, g') →
  fewer_entries g g' ∧ (∀ k, k ≠ key → cached_entries g' !! k = cached_entries g !! k)
  ∧ (∀ acc, o = Some acc → g' = g ∧ ∃ e, cached_entries g !! key = Some e ∧ acc = ce_access e
       ∧ now <= ce_expires e)
  ∧ (o = None → cached_entries g' !! key = None).
Proof.
  unfold cache_lookup. destruct (cached_entries g !! key) as [e|] eqn:E.
  2: { intros [= <- <-]. split; [apply fewer_entries_refl|]. done. }
  destruct (Z.ltb_spec (ce_expires e) now) as [Hx|Hx]; intros [= <- <-].
  - assert (cached_entries (set_cache (delete key <$> gh_cache g) g)
      = delete key (cached_entries g)) as Hc
      by (unfold cached_entries; simpl; destruct (gh_cache g); simpl; [done|by rewrite delete_empty]).
    split; [split; [done|done|rewrite Hc; apply delete_subseteq]|]. rewrite Hc.
    split; [intros k Hk; by apply lookup_delete_ne|]. split; [done|].
    intros _. apply lookup_delete_eq.
  - split; [apply fewer_entries_refl|]. split; [done|]. split; [|done].
    intros acc [= <-]. eauto 10.
Qed.

Lemma cache_store_spec now key acc g :
  cache_ttl (cache_store now key acc g) = cache_ttl g
  ∧ base_url (cache_store now key acc g) = base_url g
  ∧ cached_entries (cache_store now key acc g)
    = if entry_ttl acc g <=? 0 then cached_entries g
      else <[key := {| ce_access := acc; ce_expires := now + entry_ttl acc g |}]> (cached_entries g).
Proof.
  unfold cache_store. destruct (entry_ttl acc g <=? 0); [done|].
  destruct g as [ttl base hits misses [m|] stop]; done.
Qed.

Lemma cache_record_probe_spec key op outcome g :
  cache_ttl (cache_record_probe key op outcome g) = cache_ttl g
  ∧ base_url (cache_record_probe key op outcome g) = base_url g
  ∧ cached_entries (cache_record_probe key op outcome g)
    = alter (λ e, {| ce_access := with_probe op outcome (ce_access e); ce_expires := ce_expires e |})
        key (cached_entries g).
Proof.
  unfold cache_record_probe. destruct (cached_entries g !! key) as [e|] eqn:E.
  - split; [done|]. split; [done|]. change (cached_entries (set_cache (Some ?m) g)) with m.
    apply map_eq. intros k. destruct (decide (k = key)) as [->|Hk].
    + by rewrite lookup_insert_eq, lookup_alter_eq, E.
    + by rewrite lookup_insert_ne, lookup_alter_ne by done.
  - split; [done|]. split; [done|]. apply map_eq. intros k.
    destruct (decide (k = key)) as [->|Hk]; [by rewrite lookup_alter_eq, E|by rewrite lookup_alter_ne].
Qed.

Lemma sweep_fewer now g : fewer_entries g (sweep now g).
Proof.
  split; [done|done|]. unfold cached_entries, sweep. simpl.
  destruct (gh_cache g); simpl; [apply map_filter_subseteq|done].
Qed.

Lemma close_fewer g : fewer_entries g (close_github g).
Proof. unfold close_github. destruct (gh_stop g); by split. Qed.

Lemma with_probe_authenticated op o a : acc_authenticated (with_probe op o a) = acc_authenticated a.
Proof. unfold with_probe. by destruct (str_eqb op _); [|destruct (str_eqb op _)]. Qed.

(** ** What justifies an access *)

Definition flight_key (f : flight) : gostring :=
  match f with FetchAccess _ _ key | ProbeContents _ _ key _ _ => key end.

Definition is_operation (op : Operation) : Prop := op = operation_download ∨ op = operation_upload.

Section System.
Context {U : Unicode} (hk : gostring) (eps : list Endpoint) (ttl : Z) (base : option URL)
  (Heps : Forall (λ ep, "|"%char ∉ ep_path ep) eps).

(** The token of a lookup under [key] and the path of the endpoint it is for. *)
Definition keyed (key : gostring) (ep : Endpoint) (token : gostring) : Prop :=
  ep ∈ eps ∧ key = cache_key hk token (ep_path ep).

Definition same_role (a b : access) : Prop :=
  acc_authenticated a = acc_authenticated b ∧ acc_username a = acc_username b
  ∧ acc_private a = acc_private b ∧ acc_pull a = acc_pull b ∧ acc_push a = acc_push b
  ∧ acc_maintainer a = acc_maintainer b.

(** GitHub reported this role to a lookup under [key]. *)
Definition role_reported (log : list asked) (key : gostring) (acc : access) : Prop :=
  ∃ a ep token repo perms login,
    a ∈ log ∧ as_flight a = FetchAccess ep token key ∧ keyed key ep token
    ∧ repositories_get (as_api a) (base, token) (ep_owner ep) (ep_repo ep) = Ok repo
    ∧ repo_permissions repo = Some perms ∧ users_get (as_api a) (base, token) = Ok login
    ∧ same_role acc (granted repo perms login).

(** GitHub let a probe under [key] read or write the contents. *)
Definition probe_reported (log : list asked) (key : gostring) (op : Operation) : Prop :=
  ∃ a ep token acc,
    a ∈ log ∧ as_flight a = ProbeContents ep token key op acc ∧ keyed key ep token
    ∧ probe_outcome (as_time a) (probe_request (as_api a) (base, token) ep op) = Ok ProbeAllowed.

Definition acc_ok (log : list asked) (key : gostring) (acc : access) : Prop :=
  (acc_pull acc = true ∨ acc_push acc = true → role_reported log key acc)
  ∧ (acc_read acc = ProbeAllowed → probe_reported log key operation_download)
  ∧ (acc_write acc = ProbeAllowed → probe_reported log key operation_upload).

Definition outcome_ok (log : list asked) (key : gostring) (r : result auth_error access) : Prop :=
  match r with Ok acc => acc_ok log key acc | Err _ => True end.

(** The event is a lookup under [key] that GitHub answered with this access, probes
    aside, ... *)
Definition looked_up (a : asked) (key : gostring) (acc : access) : Prop :=
  ∃ ep token acc0, as_flight a = FetchAccess ep token key ∧ keyed key ep token ∧ same_role acc acc0
    ∧ ∀ g, base_url g = base → fst (fetch_access (as_api a) (as_time a) ep token key g) = Ok acc0.

(** ... or a probe that showed that the token is not valid any more. *)
Definition token_refused (a : asked) (key : gostring) (acc : access) : Prop :=
  ∃ ep token op old, as_flight a = ProbeContents ep token key op old ∧ keyed key ep token
    ∧ same_role acc (no_access false)
    ∧ is_unauthorized (probe_request (as_api a) (base, token) ep op) = true.

Definition entry_ok (now : Z) (log : list asked) (key : gostring) (e : cacheEntry) : Prop :=
  acc_ok log key (ce_access e)
  ∧ ∃ a, a ∈ log ∧ (looked_up a key (ce_access e) ∨ token_refused a key (ce_access e)) ∧ as_time a <= now
      ∧ ce_expires e = as_time a
          + (if acc_authenticated (ce_access e) then ttl else Z.min ttl invalid_token_cache_ttl).

Definition flight_ok (log : list asked) (k : gostring) (f : flight) : Prop :=
  match f with
  | FetchAccess ep token key => k = key ∧ keyed key ep token
  | ProbeContents ep token key op acc =>
      k = probe_key key op ∧ keyed key ep token ∧ is_operation op ∧ acc_ok log key acc
  end.

(** The result of a finished call: what its access says. *)
Definition answer_ok (log : list asked) (c : call) (r : result auth_error Result) : Prop :=
  match r with
  | Err _ => True
  | Ok res =>
      (is_public (c_endpoint c) = true ∧ c_op c = operation_download
         ∧ res = {| authenticated := true; authorized := true; username := []; maintainer := false |})
      ∨ res = no_result
      ∨ ∃ acc, acc_ok log (c_key hk c) acc ∧ res = access_result (c_op c) acc
  end.

Definition call_ok (log : list asked) (fl : gmap gostring (flight * bool)) (c : call) : Prop :=
  c_endpoint c ∈ eps ∧ is_operation (c_op c)
  ∧ (∀ k, waits_for hk c = Some k → is_Some (fl !! k))
  ∧ match c_state c with
    | HaveAccess r | HaveProbe r => outcome_ok log (c_key hk c) r
    | Done r => answer_ok log c r
    | _ => True
    end.

Record inv (s : system) : Prop := {
  i_ttl : cache_ttl (sys_github s) = ttl;
  i_base : base_url (sys_github s) = base;
  i_cache : ∀ key e, cached_entries (sys_github s) !! key = Some e →
    entry_ok (sys_now s) (sys_log s) key e;
  i_flights : ∀ k f b, sys_flights s !! k = Some (f, b) → flight_ok (sys_log s) k f;
  i_calls : ∀ c, c ∈ sys_calls s → call_ok (sys_log s) (sys_flights s) c
}.

(** *** Monotonicity in the log *)

Lemma acc_ok_mono log log' key acc : log ⊆ log' → acc_ok log key acc → acc_ok log' key acc.
Proof.
  intros Hs (H1 & H2 & H3). split; [|split].
  - intros H. destruct (H1 H) as (a & ep & t & repo & perms & login & Ha & Hrest).
    exists a, ep, t, repo, perms, login. auto.
  - intros H. destruct (H2 H) as (a & ep & t & acc' & Ha & Hrest). exists a, ep, t, acc'. auto.
  - intros H. destruct (H3 H) as (a & ep & t & acc' & Ha & Hrest). exists a, ep, t, acc'. auto.
Qed.

Lemma outcome_ok_mono log log' key r : log ⊆ log' → outcome_ok log key r → outcome_ok log' key r.
Proof. destruct r; [apply acc_ok_mono|done]. Qed.

Lemma entry_ok_mono now now' log log' key e : now <= now' → log ⊆ log' →
  entry_ok now log key e → entry_ok now' log' key e.
Proof.
  intros Hn Hs (H1 & a & Ha & Hk & Ht & He). split; [by eapply acc_ok_mono|].
  exists a. repeat split; auto; lia.
Qed.

Lemma flight_ok_mono log log' k f : log ⊆ log' → flight_ok log k f → flight_ok log' k f.
Proof.
  intros Hs. destruct f; simpl; [done|]. intros (? & ? & ? & ?).
  do 3 (split; [done|]). by eapply acc_ok_mono.
Qed.

Lemma call_ok_mono log log' fl fl' c : log ⊆ log' →
  (∀ k, waits_for hk c = Some k → is_Some (fl !! k) → is_Some (fl' !! k)) →
  call_ok log fl c → call_ok log' fl' c.
Proof.
  intros Hs Hfl (H1 & H2 & H3 & H4). split; [done|]. split; [done|]. split; [eauto|].
  destruct (c_state c); try done; try by eapply outcome_ok_mono.
  destruct r as [res|e]; [|done]. destruct H4 as [?|[?|(acc & ? & ?)]]; [by left|right; by left|].
  right. right. exists acc. split; [by eapply acc_ok_mono|done].
Qed.

Lemma no_access_ok log key b : acc_ok log key (no_access b).
Proof. split; [by intros [?|?]|done]. Qed.

Lemma with_probe_ok log key op o acc : is_operation op →
  (o = ProbeAllowed → probe_reported log key op) →
  acc_ok log key acc → acc_ok log key (with_probe op o acc).
Proof.
  intros Hop Hp (H1 & H2 & H3). destruct Hop as [->| ->]; (split; [exact H1|split; [|]]; simpl; auto).
Qed.

(** *** Lookups *)

Lemma entry_ttl_eq acc g : cache_ttl g = ttl →
  entry_ttl acc g = if acc_authenticated acc then ttl else Z.min ttl invalid_token_cache_ttl.
Proof. unfold entry_ttl. by intros ->. Qed.

(** What a lookup leaves in the cache: what was there, and what GitHub said. *)
Definition lookup_ok (s : system) (log : list asked) (key : gostring)
    (r : result auth_error access) (g : GitHub) : Prop :=
  cache_ttl g = ttl ∧ base_url g = base ∧ outcome_ok log key r
  ∧ ∀ k e, cached_entries g !! k = Some e → entry_ok (sys_now s) log k e.

Lemma cache_store_ok s a acc : inv s → as_time a = sys_now s →
  let log := a :: sys_log s in let key := flight_key (as_flight a) in
  looked_up a key acc ∨ token_refused a key acc →
  acc_ok log key acc → lookup_ok s log key (Ok acc) (cache_store (sys_now s) key acc (sys_github s)).
Proof.
  intros [Httl Hbase Hc _ _] Ht log key Hsource Hacc.
  assert (∀ k e, cached_entries (sys_github s) !! k = Some e → entry_ok (sys_now s) log k e) as Hold.
  { intros k e He. apply entry_ok_mono with (sys_now s) (sys_log s); [done| |auto].
    intros x Hx. by apply list_elem_of_further. }
  destruct (cache_store_spec (sys_now s) key acc (sys_github s)) as (H1 & H2 & H3).
  split; [congruence|]. split; [congruence|]. split; [done|]. intros k e. rewrite H3.
  destruct (entry_ttl acc (sys_github s) <=? 0); [auto|].
  destruct (decide (k = key)) as [->|Hk]; [|rewrite lookup_insert_ne by done; auto].
  rewrite lookup_insert_eq. intros [= <-]. split; [done|]. exists a. cbn [ce_expires ce_access].
  rewrite entry_ttl_eq by done. split; [apply list_elem_of_here|]. split; [exact Hsource|]. split; lia.
Qed.

Lemma lookup_ok_old s log key r : inv s → sys_log s ⊆ log → outcome_ok log key r →
  lookup_ok s log key r (sys_github s).
Proof.
  intros [Httl Hbase Hc _ _] Hs Hr. split; [done|]. split; [done|]. split; [done|].
  intros k e He. eapply entry_ok_mono; [done|exact Hs|auto].
Qed.

Lemma classify_ok now e log key : outcome_ok log key (classify_github_error now e).
Proof.
  destruct e as [reset|w|[resp|]|]; try done. simpl.
  repeat case_match; try done; apply no_access_ok.
Qed.

(** The answer depends on the authenticator by its address only. *)
Lemma fetch_access_base api now ep token key g g' : base_url g = base_url g' →
  fst (fetch_access api now ep token key g) = fst (fetch_access api now ep token key g').
Proof.
  intros E. unfold fetch_access, client_of. rewrite E. destruct (repositories_get _ _ _ _) as [repo|e].
  - destruct (repo_permissions repo); [|done]. by destruct (users_get _ _).
  - by destruct (classify_github_error now e).
Qed.

Lemma fetch_ok s ep token key api r g : inv s → keyed key ep token →
  fetch_access api (sys_now s) ep token key (sys_github s) = (r, g) →
  lookup_ok s ({| as_time := sys_now s; as_api := api; as_flight := FetchAccess ep token key |}
    :: sys_log s) key r g.
Proof.
  intros Hi Hk H. unfold fetch_access in H. set (a := {| as_time := _ |}).
  assert (sys_log s ⊆ a :: sys_log s) as Hsub by (intros x Hx; by apply list_elem_of_further).
  assert (∀ acc, fst (fetch_access api (sys_now s) ep token key (sys_github s)) = Ok acc → looked_up a key acc) as Hlook.
  { intros acc Hfetch. exists ep, token, acc. split; [done|]. split; [done|]. split; [done|]. intros g0 Hg0.
    rewrite <-Hfetch. apply fetch_access_base. by rewrite (i_base _ Hi). }
  unfold fetch_access in Hlook.
  destruct (repositories_get api _ _ _) as [repo|e] eqn:Er.
  2: { pose proof (classify_ok (sys_now s) e (a :: sys_log s) key) as Hcl.
       destruct (classify_github_error (sys_now s) e) as [acc|x]; injection H as <- <-.
       - apply (cache_store_ok s a); [done|done|left; by apply Hlook|done].
       - by apply lookup_ok_old. }
  destruct (repo_permissions repo) as [perms|] eqn:Ep.
  2: { injection H as <- <-. apply lookup_ok_old; [done|done|apply no_access_ok]. }
  destruct (users_get api _) as [login|e] eqn:Eu; injection H as <- <-.
  2: { apply lookup_ok_old; [done|done|apply classify_ok]. }
  apply (cache_store_ok s a); [done|done|left; by apply Hlook|]. split; [|done]. intros _.
  unfold client_of in Er, Eu. rewrite (i_base _ Hi) in Er, Eu.
  exists a, ep, token, repo, perms, login. split; [apply list_elem_of_here|].
  do 5 (split; [done|]). done.
Qed.

Lemma probe_finish_ok s ep token key op acc api r g : inv s →
  keyed key ep token → is_operation op → acc_ok (sys_log s) key acc →
  probe_finish api (sys_now s) ep token key op acc (sys_github s) = (r, g) →
  lookup_ok s ({| as_time := sys_now s; as_api := api; as_flight := ProbeContents ep token key op acc |}
    :: sys_log s) key r g.
Proof.
  intros Hi Hk Hop Hacc H. unfold probe_finish in H. set (a := {| as_time := _ |}).
  assert (sys_log s ⊆ a :: sys_log s) as Hsub by (intros x Hx; by apply list_elem_of_further).
  unfold client_of in H. rewrite (i_base _ Hi) in H. destruct (is_unauthorized _) eqn:Eun.
  { injection H as <- <-. apply (cache_store_ok s a); [done|done| |apply no_access_ok].
    right. by exists ep, token, op, acc. }
  destruct (probe_outcome _ _) as [o|x] eqn:Eo; injection H as <- <-; [|by apply lookup_ok_old].
  assert (o = ProbeAllowed → probe_reported (a :: sys_log s) key op) as Hp.
  { intros ->. exists a, ep, token, acc. split; [apply list_elem_of_here|].
    split; [done|]. by split. }
  destruct (cache_record_probe_spec key op o (sys_github s)) as (H1 & H2 & H3).
  destruct (lookup_ok_old s (a :: sys_log s) key (Ok (with_probe op o acc)))
    as (Httl & Hbase & Hr & Hc); [done|done| |].
  { apply with_probe_ok; [done|done|]. by eapply acc_ok_mono. }
  split; [congruence|]. split; [congruence|]. split; [done|]. intros k e. rewrite H3.
  destruct (decide (k = key)) as [->|Hne]; [|rewrite lookup_alter_ne by done; apply Hc].
  rewrite lookup_alter_eq. destruct (cached_entries (sys_github s) !! key) as [e0|] eqn:E; [|done].
  intros [= <-]. destruct (Hc _ _ E) as (Hok & b & Hb & Hrest). split; [by apply with_probe_ok|].
  destruct Hrest as (Hsource & Ht & Hx).
  assert (∀ acc', same_role (ce_access e0) acc' → same_role (with_probe op o (ce_access e0)) acc') as Hrole
    by (intros acc'; unfold same_role, with_probe; by destruct (str_eqb op _); [|destruct (str_eqb op _)]).
  exists b. split; [done|]. simpl. rewrite with_probe_authenticated. split; [|done].
  destruct Hsource as [(ep' & t & acc0 & ? & ? & ? & ?)|(ep' & t & op' & old & ? & ? & ? & ?)];
    [left; by exists ep', t, acc0; auto|right; exists ep', t, op', old; auto].
Qed.
(** *** Steps *)

Lemma path_no_bar ep : ep ∈ eps → "|"%char ∉ ep_path ep.
Proof. intros H. rewrite Forall_forall in Heps. by apply Heps. Qed.

(** The lookup a caller waits for is one for its own token and endpoint. *)
Lemma waiter_key log fl c k f : call_ok log fl c → flight_ok log k f →
  waits_for hk c = Some k → flight_key f = c_key hk c.
Proof.
  intros (Hep & Hop & _) Hf Hw. unfold waits_for in Hw.
  apply path_no_bar in Hep as Hp.
  destruct f as [ep token key|ep token key op acc]; simpl in *.
  - destruct Hf as (-> & Hep' & ->). destruct (c_state c); try done; injection Hw as Hw; [done|].
    exfalso. apply path_no_bar in Hep'. symmetry in Hw.
    exact (cache_key_not_probe _ _ _ _ _ _ Hep' Hw).
  - destruct Hf as (-> & [Hep' ->] & _). apply path_no_bar in Hep'.
    destruct (c_state c); try done; injection Hw as Hw.
    + exfalso. exact (cache_key_not_probe _ _ _ _ _ _ Hp Hw).
    + exact (eq_sym (proj1 (probe_key_inj _ _ _ _ _ _ _ Hp Hep' Hw))).
Qed.

Lemma deliver_ok s k f b r log c : inv s → sys_flights s !! k = Some (f, b) →
  sys_log s ⊆ log → outcome_ok log (flight_key f) r → c ∈ sys_calls s →
  call_ok log (delete k (sys_flights s)) (deliver hk k r c).
Proof.
  intros Hi Hf Hs Hr Hc. pose proof (i_calls _ Hi c Hc) as Hcall. unfold deliver.
  case_bool_decide as Hw.
  - rewrite (waiter_key _ _ _ _ _ Hcall (i_flights _ Hi _ _ _ Hf) Hw) in Hr.
    destruct Hcall as (H1 & H2 & _ & _). unfold waits_for in Hw.
    destruct (c_state c) eqn:Es; try done; (split; [done|]; split; [done|]; by split).
  - eapply call_ok_mono; [exact Hs| |exact Hcall]. intros k' Hk' Hsome.
    rewrite lookup_delete_ne; [done|congruence].
Qed.

Lemma flight_done_inv s k f b r g answered : inv s → sys_flights s !! k = Some (f, b) →
  lookup_ok s (answered ++ sys_log s) (flight_key f) r g → inv (flight_done hk k r g answered s).
Proof.
  intros Hi Hf (H1 & H2 & H3 & H4).
  assert (sys_log s ⊆ answered ++ sys_log s) as Hs by (intros x Hx; apply elem_of_app; by right).
  split; cbn [flight_done sys_github sys_now sys_log sys_flights sys_calls]; [done|done|done| |].
  - intros k' f' b' [_ Hf']%lookup_delete_Some. eapply flight_ok_mono; [exact Hs|].
    by eapply (i_flights _ Hi).
  - intros c' (c & -> & Hc)%list_elem_of_fmap. by apply (deliver_ok s k f b).
Qed.

Lemma fewer_inv s g : inv s → fewer_entries (sys_github s) g →
  lookup_ok s (sys_log s) [] (Err Unavailable) g.
Proof.
  intros [H1 H2 H3 _ _] [F1 F2 F3]. split; [congruence|]. split; [congruence|]. split; [done|].
  intros k e He. apply H3. by eapply lookup_weaken.
Qed.

(** Changing the cache, the time, the lookups and the calls consistently. *)
Lemma inv_update s g now fl calls : inv s → sys_now s <= now →
  lookup_ok s (sys_log s) [] (Err Unavailable) g →
  (∀ k f b, fl !! k = Some (f, b) → flight_ok (sys_log s) k f) →
  (∀ c, c ∈ calls → call_ok (sys_log s) fl c) →
  inv {| sys_github := g; sys_now := now; sys_flights := fl; sys_calls := calls; sys_log := sys_log s |}.
Proof.
  intros Hi Hn (H1 & H2 & _ & H4) Hfl Hc. split; cbn [sys_github sys_now sys_log sys_flights sys_calls];
    [done|done| |done|done].
  intros k e He. eapply entry_ok_mono; [exact Hn|done|by apply H4].
Qed.

(** Joining a lookup: it is there, it is a good one, and others stay. *)
Lemma join_ok log ep pw op p fl st fl' :
  ep ∈ eps → is_operation op →
  match p with
  | Finished r => ∀ s, answer_ok log {| c_endpoint := ep; c_password := pw; c_op := op; c_state := s |} r
  | Waiting k f => flight_ok log k f
      ∧ k = match f with FetchAccess _ _ _ => cache_key hk pw (ep_path ep)
            | _ => probe_key (cache_key hk pw (ep_path ep)) op end
  end →
  (∀ k f b, fl !! k = Some (f, b) → flight_ok log k f) →
  join p fl = (st, fl') →
  (∀ k f b, fl' !! k = Some (f, b) → flight_ok log k f)
  ∧ fl ⊆ fl'
  ∧ call_ok log fl' {| c_endpoint := ep; c_password := pw; c_op := op; c_state := st |}.
Proof.
  intros Hep Hop Hp Hfl. destruct p as [r|k f]; simpl.
  { intros [= <- <-]. split; [done|]. split; [done|]. split; [done|]. split; [done|]. split; [done|]. apply Hp. }
  destruct Hp as [Hf Hk].
  set (fl2 := match fl !! k with Some _ => fl | None => <[k := (f, false)]> fl end). intros [= <- <-].
  assert (is_Some (fl2 !! k)) as Hin
    by (subst fl2; destruct (fl !! k) eqn:E; [by rewrite E|rewrite lookup_insert_eq; eauto]).
  assert (fl ⊆ fl2) as Hsub
    by (subst fl2; destruct (fl !! k) eqn:E; [done|by apply insert_subseteq]).
  split; [|split; [done|]].
  - intros k' f' b' H. subst fl2. destruct (fl !! k) eqn:E; [by eapply Hfl|].
    apply lookup_insert_Some in H as [[<- [= <- <-]]|[_ H]]; [done|by eapply Hfl].
  - split; [done|]. split; [done|]. split; [|by destruct f].
    intros k' Hw. enough (Some k' = Some k) as [= ->] by exact Hin. rewrite <-Hw, Hk.
    destruct f; reflexivity.
Qed.

Lemma after_lookup_ok log ep pw op r : ep ∈ eps → is_operation op →
  outcome_ok log (cache_key hk pw (ep_path ep)) r →
  match after_lookup hk ep pw op r with
  | Finished r => ∀ s, answer_ok log {| c_endpoint := ep; c_password := pw; c_op := op; c_state := s |} r
  | Waiting k f => flight_ok log k f
      ∧ k = match f with FetchAccess _ _ _ => cache_key hk pw (ep_path ep)
            | _ => probe_key (cache_key hk pw (ep_path ep)) op end
  end.
Proof.
  intros Hep Hop Hr. destruct r as [acc|x]; simpl; [|done].
  destruct (needs_probe op acc); [|intros s; right; right; by exists acc].
  split; [|done]. split; [done|]. split; [by split|]. by split.
Qed.

Lemma begin_ok s ep pw op p g : inv s → ep ∈ eps → is_operation op →
  begin_authenticate hk (sys_now s) ep pw op (sys_github s) = (p, g) →
  lookup_ok s (sys_log s) [] (Err Unavailable) g
  ∧ match p with
    | Finished r => ∀ st, answer_ok (sys_log s) {| c_endpoint := ep; c_password := pw; c_op := op; c_state := st |} r
    | Waiting k f => flight_ok (sys_log s) k f
        ∧ k = match f with FetchAccess _ _ _ => cache_key hk pw (ep_path ep)
              | _ => probe_key (cache_key hk pw (ep_path ep)) op end
    end.
Proof.
  intros Hi Hep Hop. pose proof (fewer_inv _ _ Hi (fewer_entries_refl _)) as Hsame. unfold begin_authenticate.
  destruct (is_public ep && str_eqb op operation_download) eqn:Epub.
  { intros [= <- <-]. split; [done|]. intros st. left. cbn [c_endpoint c_op].
    apply andb_prop in Epub as [? ?%str_eqb_eq]. done. }
  destruct (str_eqb pw []); [intros [= <- <-]; split; [done|]; intros st; right; by left|].
  unfold lookup_access.
  destruct (cache_lookup (sys_now s) (cache_key hk pw (ep_path ep)) (sys_github s)) as [o g1] eqn:E.
  apply cache_lookup_spec in E as (Hfew & _ & Hsome & _). apply (fewer_inv _ _ Hi) in Hfew.
  destruct o as [acc|]; intros [= <- <-]; (split; [exact Hfew|]).
  - destruct (Hsome acc eq_refl) as (_ & e & He & -> & _).
    apply (after_lookup_ok (sys_log s) ep pw op (Ok (ce_access e))); [done|done|].
    by apply (i_cache _ Hi) in He as [? _].
  - split; [|done]. split; [done|]. by split.
Qed.

Lemma step_inv s s' : inv s → step hk eps s s' → inv s'.
Proof.
  intros Hi Hstep. pose proof (fewer_inv _ _ Hi (fewer_entries_refl _)) as Hsame.
  pose proof (i_flights _ Hi) as Hfl. pose proof (i_calls _ Hi) as Hcalls.
  destruct Hstep as [dt Hdt|ep pw op p g st fl Hep Hop Hb Hj|k ep token key b api r g Hf H
    |k ep token key op acc cached g Hf H|k ep token key op acc g Hf H
    |k ep token key op acc api r g Hf H|i c r st fl Hc Hst Hj|i c r Hc Hst|i c Hc Hnd| |].
  - apply inv_update; auto with lia.
  - apply (begin_ok s) in Hb as [Hg Hp]; [|done..].
    eapply join_ok in Hj as (Hfl' & Hsub & Hcall); [|done|done|exact Hp|exact Hfl].
    apply inv_update; [done|lia|done|done|]. intros c [Hc|Hc%list_elem_of_singleton]%elem_of_app; [|by subst c].
    eapply call_ok_mono; [done| |by apply Hcalls]. intros k _ [x Hx]. exists x. by eapply lookup_weaken.
  - pose proof (Hfl _ _ _ Hf) as (-> & Hk). apply flight_done_inv with (FetchAccess ep token key) b; [done|done|].
    by apply fetch_ok.
  - pose proof (Hfl _ _ _ Hf) as (-> & Hk & Hop & _).
    apply flight_done_inv with (ProbeContents ep token key op acc) false; [done|done|].
    unfold probe_begin in H. destruct (cache_lookup _ _ _) as [o g1] eqn:E.
    apply cache_lookup_spec in E as (Hfew & _ & Hsome & _). apply (fewer_inv _ _ Hi) in Hfew.
    destruct o as [a|]; [|done]. destruct (needs_probe op a); [done|]. injection H as <- <-.
    destruct Hfew as (F1 & F2 & _ & F4). split; [done|]. split; [done|]. split; [|done].
    destruct (Hsome a eq_refl) as (_ & e & He & -> & _). by apply (i_cache _ Hi) in He as [? _].
  - pose proof (Hfl _ _ _ Hf) as Hok. apply inv_update; [done|lia| | |].
    + unfold probe_begin in H. destruct (cache_lookup _ _ _) as [o g1] eqn:E.
      apply cache_lookup_spec in E as (Hfew & _). apply (fewer_inv _ _ Hi) in Hfew.
      destruct o as [a|]; [destruct (needs_probe op a)|]; try done; by injection H as <-.
    + intros k' f' b' [[<- [= <- <-]]|[_ H']]%lookup_insert_Some; [done|by eapply Hfl].
    + intros c Hc. eapply call_ok_mono; [done| |by apply Hcalls]. intros k' _ Hx.
      apply lookup_insert_is_Some. destruct (decide (k = k')); [by left|by right].
  - pose proof (Hfl _ _ _ Hf) as (-> & Hk & Hop & Hacc).
    apply flight_done_inv with (ProbeContents ep token key op acc) true; [done|done|].
    by apply probe_finish_ok.
  - pose proof (Hcalls c (list_elem_of_lookup_2 _ _ _ Hc)) as (Hep & Hop & Hw & Hr). rewrite Hst in Hr.
    eapply join_ok with (pw := c_password c) in Hj as (Hfl' & Hsub & Hcall);
      [|done|done|by apply after_lookup_ok|exact Hfl].
    apply inv_update; [done|lia|done|done|]. intros c' [Hc'|Hc']%elem_of_list_insert; [by subst c'|].
    eapply call_ok_mono; [done| |by apply Hcalls]. intros k _ [x Hx]. exists x. by eapply lookup_weaken.
  - pose proof (Hcalls c (list_elem_of_lookup_2 _ _ _ Hc)) as (Hep & Hop & _ & Hr). rewrite Hst in Hr.
    apply inv_update; [done|lia|done|done|]. intros c' [Hc'|Hc']%elem_of_list_insert; [subst c'|by apply Hcalls].
    split; [done|]. split; [done|]. split; [done|]. destruct r as [acc|x]; [|done].
    right. right. by exists acc.
  - pose proof (Hcalls c (list_elem_of_lookup_2 _ _ _ Hc)) as (Hep & Hop & _ & _).
    apply inv_update; [done|lia|done|done|]. intros c' [Hc'|Hc']%elem_of_list_insert; [subst c'|by apply Hcalls].
    by repeat split.
  - apply inv_update; [done|lia| |done|done]. apply fewer_inv; [done|apply sweep_fewer].
  - apply inv_update; [done|lia| |done|done]. apply fewer_inv; [done|apply close_fewer].
Qed.

Lemma reachable_inv g0 now0 s : cache_ttl g0 = ttl → base_url g0 = base → gh_cache g0 = None →
  reachable hk eps g0 now0 s → inv s.
Proof.
  intros H1 H2 H3. induction 1 as [|s s' _ IH Hs]; [|by eapply step_inv].
  split; cbn [init_system sys_github sys_flights sys_calls]; [done|done| |done|by intros c ?%elem_of_nil].
  intros k e. unfold cached_entries. by rewrite H3.
Qed.
End System.

(** ** Properties *)

Section Properties.
Context {U : Unicode} (hk : gostring).

(** C8. Whatever requests arrive, join lookups or leave, whatever GitHub answers,
    and however the cache ages: a caller is authorised only for a download from a
    public endpoint, or when GitHub reported, to a lookup for this very endpoint
    with a token of the same MAC as the caller's, a role that allows the
    operation: pull for a download, and for a private repository a contents probe
    that was allowed; push and an allowed probe for an upload. The username is the
    login GitHub reported, and a maintainer has the maintain or admin role. *)
Theorem github_authorises_only_reported eps g0 now0 s c res :
  gh_cache g0 = None → NoDup (ep_path <$> eps) → Forall (λ ep, "|"%char ∉ ep_path ep) eps →
  reachable hk eps g0 now0 s → c ∈ sys_calls s → c_state c = Done (Ok res) →
  authorized res = true →
  (is_public (c_endpoint c) = true ∧ c_op c = operation_download ∧ maintainer res = false)
  ∨ ∃ a token repo perms login,
      a ∈ sys_log s ∧ as_flight a = FetchAccess (c_endpoint c) token (c_key hk c)
      ∧ hmac_sha256 hk token = hmac_sha256 hk (c_password c)
      ∧ repositories_get (as_api a) (base_url g0, token) (ep_owner (c_endpoint c))
          (ep_repo (c_endpoint c)) = Ok repo
      ∧ repo_permissions repo = Some perms
      ∧ users_get (as_api a) (base_url g0, token) = Ok login ∧ username res = login
      ∧ (c_op c = operation_download →
           perms !! "pull"%go = Some true
           ∧ (repo_private repo = true →
                probe_reported hk eps (base_url g0) (sys_log s) (c_key hk c) operation_download))
      ∧ (c_op c = operation_upload →
           perms !! "push"%go = Some true
           ∧ probe_reported hk eps (base_url g0) (sys_log s) (c_key hk c) operation_upload)
      ∧ (maintainer res = true →
           c_op c = operation_upload
           ∧ (perms !! "maintain"%go = Some true ∨ perms !! "admin"%go = Some true)).
Proof.
  intros Hcold Hnd Hbar Hreach Hc Hst Hauth.
  apply (reachable_inv hk eps (cache_ttl g0) (base_url g0)) in Hreach; [|done..].
  destruct (i_calls _ _ _ _ _ Hreach c Hc) as (Hep & Hop & _ & Hans). rewrite Hst in Hans.
  destruct Hans as [(H1 & H2 & ->)|[->|(acc & Hok & ->)]]; [by left|done|]. right.
  destruct Hok as (Hrole & Hread & Hwrite).
  assert (∀ b : option bool, default false b = true → b = Some true) as Hdef by by intros [[]|].
  assert (acc_pull acc = true ∨ acc_push acc = true) as Hp.
  { revert Hauth. destruct Hop as [->| ->]; cbn -[bool_decide]; intros [H _]%andb_prop; auto. }
  destruct (Hrole Hp) as (a & ep & token & repo & perms & login & Ha & Hf & [Hep' Hk] & Hr & Hperm & Hu & Hsame).
  unfold c_key in Hk. apply cache_key_inj in Hk as [Hmac Hpath].
  assert (ep = c_endpoint c) as ->.
  { apply list_elem_of_lookup_1 in Hep as [i Hi], Hep' as [j Hj].
    assert (i = j) as ->; [|congruence]. eapply NoDup_lookup; [exact Hnd| |].
    - by rewrite list_lookup_fmap, Hi.
    - rewrite list_lookup_fmap, Hj. simpl. by rewrite Hpath. }
  destruct Hsame as (_ & Hn & Hpriv & Hpull & Hpush & Hm). cbn in Hn, Hpriv, Hpull, Hpush, Hm.
  exists a, token, repo, perms, login. do 6 (split; [done|]).
  destruct Hop as [Hop|Hop]; rewrite Hop in Hauth |- *; cbn -[bool_decide] in Hauth |- *.
  - apply andb_prop in Hauth as [H1 H2]. split; [done|]. split; [|split; [done|done]].
    intros _. split; [apply Hdef; congruence|]. intros Hpr. rewrite Hpriv, Hpr in H2.
    apply Hread. by apply bool_decide_eq_true in H2.
  - apply andb_prop in Hauth as [H1 H2]. split; [done|]. split; [done|]. split.
    + intros _. split; [apply Hdef; congruence|]. apply Hwrite. by apply bool_decide_eq_true in H2.
    + intros [_ Hmt]%andb_prop. split; [done|]. rewrite Hm in Hmt.
      apply orb_prop in Hmt as [?|?]; [left|right]; by apply Hdef.
Qed.


(** C38. A caller waiting in [share] always waits for a lookup that is under way
    under its own cache key, and whatever that lookup returns reaches it. *)
Theorem shared_lookup_reaches_waiters eps g0 now0 s i c k :
  gh_cache g0 = None → Forall (λ ep, "|"%char ∉ ep_path ep) eps →
  reachable hk eps g0 now0 s → sys_calls s !! i = Some c → waits_for hk c = Some k →
  ∃ f b, sys_flights s !! k = Some (f, b) ∧ flight_key f = c_key hk c
    ∧ ∀ r g answered, ∃ c', sys_calls (flight_done hk k r g answered s) !! i = Some c'
        ∧ c_state c' = match c_state c with WaitAccess => HaveAccess r | _ => HaveProbe r end.
Proof.
  intros Hcold Hbar Hreach Hi Hw.
  apply (reachable_inv hk eps (cache_ttl g0) (base_url g0)) in Hreach; [|done..].
  pose proof (i_calls _ _ _ _ _ Hreach c (list_elem_of_lookup_2 _ _ _ Hi)) as Hcall.
  destruct Hcall as (Hep & Hop & Hfl & Hrest). destruct (Hfl k Hw) as [[f b] Hf].
  exists f, b. split; [done|]. split.
  { eapply waiter_key; [exact Hbar| |by eapply (i_flights _ _ _ _ _ Hreach)|exact Hw].
    exact (conj Hep (conj Hop (conj Hfl Hrest))). }
  intros r g answered. exists (deliver hk k r c). split.
  { cbn [flight_done sys_calls]. by rewrite list_lookup_fmap, Hi. }
  unfold deliver. rewrite bool_decide_true by done. unfold waits_for in Hw.
  by destruct (c_state c).
Qed.

(** The outcome of a probe is never [ProbeUnchecked]. *)
Lemma probe_outcome_checked now e o : probe_outcome now e = Ok o → o ≠ ProbeUnchecked.
Proof. unfold probe_outcome. repeat case_match; congruence. Qed.

Lemma with_probe_no_need op o a : is_operation op → o ≠ ProbeUnchecked →
  needs_probe op (with_probe op o a) = false.
Proof. intros [->| ->] Ho; destruct o, (acc_pull a) eqn:E1, (acc_push a) eqn:E2; try done;
  cbn -[bool_decide]; rewrite ?E1, ?E2, ?andb_false_r; done. Qed.

(** What the cache says of a key at a time. *)
Definition cached (now : Z) (key : gostring) (g : GitHub) : option access :=
  fst (cache_lookup now key g).

(** A caller the cache can answer is answered by it, without asking GitHub. *)
Lemma authenticate_from_cache api now ep u pw op g acc : is_public ep && str_eqb op operation_download = false →
  pw ≠ [] → cached now (cache_key hk pw (ep_path ep)) g = Some acc → needs_probe op acc = false →
  fst (authenticate hk api now ep u pw op g) = Ok (access_result op acc).
Proof.
  intros Hpub Hpw Hc Hn. unfold authenticate, begin_authenticate, lookup_access. rewrite Hpub.
  rewrite (proj2 (str_eqb_neq pw []) Hpw). unfold cached in Hc.
  destruct (cache_lookup now _ g) as [o g1]. simpl in Hc. subst o. simpl. by rewrite Hn.
Qed.

(** What is stored or recorded is what the cache then says, while it says
    anything. *)
Lemma cached_store now now' key acc g a : 0 < cache_ttl g →
  cached now' key (cache_store now key acc g) = Some a → a = acc.
Proof.
  intros Httl H. unfold cached in H.
  destruct (cache_lookup now' key _) as [o g1] eqn:E. simpl in H.
  apply cache_lookup_spec in E as (_ & _ & Hs & _). destruct (Hs a H) as (_ & e & He & -> & _).
  destruct (cache_store_spec now key acc g) as (_ & _ & H3). rewrite H3 in He.
  assert (0 < entry_ttl acc g) as Hpos
    by (unfold entry_ttl, invalid_token_cache_ttl, second; destruct (acc_authenticated acc); lia).
  rewrite (proj2 (Z.leb_gt _ _) Hpos), lookup_insert_eq in He. by injection He as <-.
Qed.

Lemma cached_record now' key op o g a :
  cached now' key (cache_record_probe key op o g) = Some a →
  ∃ e, cached_entries g !! key = Some e ∧ a = with_probe op o (ce_access e).
Proof.
  intros H. unfold cached in H. destruct (cache_lookup now' key _) as [x g1] eqn:E. simpl in H.
  apply cache_lookup_spec in E as (_ & _ & Hs & _). destruct (Hs a H) as (_ & e & He & -> & _).
  destruct (cache_record_probe_spec key op o g) as (_ & _ & H3). rewrite H3, lookup_alter_eq in He.
  destruct (cached_entries g !! key) as [e0|]; [|done]. injection He as <-. eauto.
Qed.

Lemma cached_none now key g : cached_entries g !! key = None → cached now key g = None.
Proof. intros H. unfold cached, cache_lookup. by rewrite H. Qed.

(** After a probe, the cache says what the probe found, or nothing. *)
Lemma probe_finish_cached api now now' ep token key op acc g g' a r : is_operation op → 0 < cache_ttl g →
  (∀ e, cached_entries g !! key = Some e → ce_access e = acc) →
  probe_finish api now ep token key op acc g = (Ok r, g') →
  cached now' key g' = Some a → a = r ∧ needs_probe op a = false.
Proof.
  intros Hop Httl Hg H Hc. unfold probe_finish in H.
  destruct (is_unauthorized _).
  { injection H as <- <-. apply cached_store in Hc as ->; [|done]. split; [done|].
    by destruct Hop as [->| ->]. }
  destruct (probe_outcome _ _) as [o|x] eqn:Eo; [|done]. injection H as <- <-.
  apply cached_record in Hc as (e & He & ->). rewrite (Hg e He). split; [done|].
  apply with_probe_no_need; [done|]. by eapply probe_outcome_checked.
Qed.

(** What the cache held for a key that [cacheLookup] answered. *)
Lemma cache_lookup_hit now key g acc g' : cache_lookup now key g = (Some acc, g') →
  g' = g ∧ ∀ e, cached_entries g !! key = Some e → ce_access e = acc.
Proof.
  intros H. apply cache_lookup_spec in H as (_ & _ & Hs & _).
  destruct (Hs acc eq_refl) as (-> & e & He & -> & _). split; [done|]. intros e'. rewrite He. by intros [= <-].
Qed.

Lemma cache_lookup_miss now key g g' : cache_lookup now key g = (None, g') →
  cached_entries g' !! key = None ∧ cache_ttl g' = cache_ttl g.
Proof. intros H. apply cache_lookup_spec in H as ([] & _ & _ & Hn). auto. Qed.

Lemma probe_contents_cached api now now' ep token key op acc g g' a r : is_operation op → 0 < cache_ttl g →
  (∀ e, cached_entries g !! key = Some e → ce_access e = acc) →
  probe_contents api now ep token key op acc g = (Ok r, g') →
  cached now' key g' = Some a → a = r ∧ needs_probe op a = false.
Proof.
  intros Hop Httl Hg H Hc. unfold probe_contents, probe_begin in H.
  destruct (cache_lookup now key g) as [o g1] eqn:E. destruct o as [b|].
  - apply cache_lookup_hit in E as [-> He]. destruct (needs_probe op b) eqn:En;
      [exact (probe_finish_cached _ _ _ _ _ _ _ _ _ _ _ _ Hop Httl Hg H Hc)|].
    injection H as <- <-. unfold cached in Hc. destruct (cache_lookup now' key g) as [o g2] eqn:E2.
    simpl in Hc. subst o. apply cache_lookup_spec in E2 as (_ & _ & Hs & _).
    destruct (Hs a eq_refl) as (_ & e & Hk & -> & _). by rewrite (He e Hk).
  - apply cache_lookup_miss in E as [E Ht]. eapply probe_finish_cached; [done|by rewrite Ht| |done|done].
    intros e. by rewrite E.
Qed.

Lemma fetch_access_cached api now ep token key g g' r : 0 < cache_ttl g → cached_entries g !! key = None →
  fetch_access api now ep token key g = (Ok r, g') →
  cache_ttl g' = cache_ttl g
  ∧ ((∀ e, cached_entries g' !! key = Some e → ce_access e = r)).
Proof.
  intros Httl Hn H. unfold fetch_access in H.
  assert (∀ acc g2, g2 = cache_store now key acc g → cache_ttl g2 = cache_ttl g
    ∧ ∀ e, cached_entries g2 !! key = Some e → ce_access e = acc) as Hst.
  { intros acc g2 ->. destruct (cache_store_spec now key acc g) as (H1 & _ & H3). split; [done|].
    intros e. rewrite H3. destruct (_ <=? 0); [by rewrite Hn|]. rewrite lookup_insert_eq. by intros [= <-]. }
  assert (∀ acc : access, cache_ttl g = cache_ttl g ∧ ∀ e, cached_entries g !! key = Some e → ce_access e = acc)
    as Hsame by (intros acc; split; [done|]; by rewrite Hn).
  destruct (repositories_get _ _ _ _); [destruct (repo_permissions _); [destruct (users_get _ _)|]|].
  - injection H as <- <-. by apply Hst.
  - injection H as _ <-. apply Hsame.
  - injection H as <- <-. apply Hsame.
  - destruct (classify_github_error _ _); [|done]. injection H as <- <-. by apply Hst.
Qed.

Lemma cached_entry now key g a : cached now key g = Some a →
  ∃ e, cached_entries g !! key = Some e ∧ ce_access e = a.
Proof.
  intros H. unfold cached in H. destruct (cache_lookup now key g) as [o g1] eqn:E. simpl in H. subst o.
  apply cache_lookup_spec in E as (_ & _ & Hs & _). destruct (Hs a eq_refl) as (_ & e & He & -> & _). eauto.
Qed.

(** The cache is transparent: when an authentication has been answered and
    the cache still holds an access for its key, repeating it gives the same
    result, whatever GitHub would answer by then. *)
Theorem cached_authentication_repeats api1 api2 t1 t2 ep u1 u2 pw op g res g1 a :
  is_operation op → pw ≠ [] → 0 < cache_ttl g →
  authenticate hk api1 t1 ep u1 pw op g = (Ok res, g1) →
  cached t2 (cache_key hk pw (ep_path ep)) g1 = Some a →
  fst (authenticate hk api2 t2 ep u2 pw op g1) = Ok res.
Proof.
  intros Hop Hpw Httl H Hc. destruct (is_public ep && str_eqb op operation_download) eqn:Hpub.
  { unfold authenticate, begin_authenticate in *. rewrite Hpub in *. by injection H as <- <-. }
  set (key := cache_key hk pw (ep_path ep)) in *.
  enough (needs_probe op a = false ∧ res = access_result op a) as [Hn ->]
    by (by apply authenticate_from_cache).
  unfold authenticate, begin_authenticate, lookup_access, after_lookup in H. rewrite Hpub in H.
  rewrite (proj2 (str_eqb_neq pw []) Hpw) in H. fold key in H.
  destruct (cache_lookup t1 key g) as [[acc|] g2] eqn:E.
  - apply cache_lookup_hit in E as [-> He]. destruct (needs_probe op acc) eqn:En; cbn [run_flight] in H.
    + destruct (probe_contents _ _ _ _ _ _ _ _) as [r g3] eqn:Ep. destruct r as [x|]; [|done].
      injection H as <- <-. eapply (probe_contents_cached _ _ t2) in Ep as [-> Hn]; done.
    + injection H as <- <-. apply cached_entry in Hc as (e & Hk & <-).
      by rewrite (He e Hk).
  - apply cache_lookup_miss in E as [En Ht]. cbn [run_flight] in H.
    destruct (fetch_access _ _ _ _ _ _) as [[acc|x] g3] eqn:Ef; [|done].
    apply fetch_access_cached in Ef as [Ht3 He]; [|by rewrite <-Ht in Httl|done].
    destruct (needs_probe op acc) eqn:Enp; cbn [run_flight] in H.
    + destruct (probe_contents _ _ _ _ _ _ _ _) as [r g4] eqn:Ep. destruct r as [y|]; [|done].
      injection H as <- <-. eapply (probe_contents_cached _ _ t2) in Ep as [-> Hn]; [done|done| |done|done].
      rewrite Ht3. simpl. lia.
    + injection H as <- <-. apply cached_entry in Hc as (e & Hk & <-). by rewrite (He e Hk).
Qed.

(** What GitHub's errors become: an access only for a 401, 403 or 404
    response, and then one that allows nothing; a rate limit only for GitHub's
    own rate limit errors and 429 responses, asking for at most an hour; and
    [ErrUnavailable] for everything else. Nothing of it depends on the request. *)
Theorem github_errors_classified now e :
  match classify_github_error now e with
  | Ok acc => error_status (Some e) ∈ [Some 401; Some 403; Some 404]
      ∧ (∀ op, authorized (access_result op acc) = false ∧ needs_probe op acc = false)
      ∧ (acc_authenticated acc = false ↔ error_status (Some e) = Some 401)
  | Err (RateLimitedError wait) => wait <= hour
      ∧ (error_status (Some e) = Some 429 ∨ (∃ reset, e = RateLimitError reset)
         ∨ ∃ w, e = AbuseRateLimitError w)
  | Err Unavailable => (error_status (Some e) ∉ [Some 401; Some 403; Some 404; Some 429])
      ∧ (∀ reset, e ≠ RateLimitError reset) ∧ ∀ w, e ≠ AbuseRateLimitError w
  | Err OtherAuthError => False
  end.
Proof.
  assert (∀ w, Z.min w max_retry_after <= hour) as Hmin by (intros w; unfold max_retry_after; lia).
  assert (∀ b op, authorized (access_result op (no_access b)) = false ∧ needs_probe op (no_access b) = false)
    as Hno by (intros b op; unfold access_result, needs_probe; by repeat case_match).
  destruct e as [reset|w|[resp|]|]; cbn [classify_github_error rate_limited error_status].
  - split; [apply Hmin|]. eauto.
  - split; [apply Hmin|]. eauto.
  - destruct (Z.eqb_spec (gh_status resp) 401) as [->|H1].
    { split; [set_solver|]. split; [apply Hno|]. done. }
    destruct (Z.eqb_spec (gh_status resp) 403) as [->|H2]; cbn [orb].
    { split; [set_solver|]. split; [apply Hno|]. done. }
    destruct (Z.eqb_spec (gh_status resp) 404) as [->|H3].
    { split; [set_solver|]. split; [apply Hno|]. done. }
    destruct (Z.eqb_spec (gh_status resp) 429) as [->|H4].
    { split; [apply Hmin|by left]. }
    split; [|done]. rewrite !not_elem_of_cons. repeat split; try congruence. apply not_elem_of_nil.
  - split; [|done]. set_solver.
  - split; [|done]. set_solver.
Qed.
End Properties.

(** C39. The wait a 429 response asks for by [Retry-After] seconds is those seconds,
    at most an hour, up to 9,223,372,036 seconds; one more overflows the [int64]
    of nanoseconds, and the wait is negative instead of an hour. *)
Theorem retry_after_overflows now header seconds :
  parse_int (header "Retry-After"%go) = Some seconds → 0 < seconds →
  ∃ wait, classify_github_error now (ErrorResponse (Some {| gh_status := 429; gh_header := header |}))
      = Err (RateLimitedError wait)
    ∧ (seconds <= 9223372036 → wait = Z.min (seconds * second) hour)
    ∧ (seconds = 9223372037 → wait < 0).
Proof.
  intros Hp Hs. exists (Z.min (retry_after now header) max_retry_after).
  split; [reflexivity|]. unfold retry_after. rewrite Hp.
  rewrite (proj2 (Z.ltb_lt 0 seconds) Hs). split.
  - intros Hle. rewrite wrap_int64_id; [done|]. unfold in_int64, min_int64, max_int64, second. lia.
  - intros ->. reflexivity.
Qed.

(** ** Witnesses *)

Definition sample_endpoint : Endpoint :=
  {| ep_name := "repo"; ep_url := "https://github.com/org/repo"; ep_path := "/org/repo";
     ep_visibility := "private"; ep_authentication := "github"; ep_api_url := [];
     ep_owner := "org"; ep_repo := "repo"; ep_base_url := None |}.

(** A GitHub where [octocat] may pull and push, and whose token is good for both. *)
Definition sample_api : GitHubApi := {|
  repositories_get _ _ _ := Ok {| repo_private := true;
    repo_permissions := Some {[ "pull"%go := true; "push"%go := true ]} |};
  users_get _ := Ok "octocat"%go;
  list_commits _ _ _ := None;
  create_blob _ _ _ := Some (ErrorResponse (Some {| gh_status := 422; gh_header _ := [] |}))
|}.

Section Sample.
#[local] Instance sample_unicode_instance : Unicode := sample_unicode.

(** One request: called, its access fetched and found, its probe run and found. *)
Definition run_call (ep : Endpoint) (pw : gostring) (op : Operation) (s : system) : system :=
  let b := begin_authenticate "k" (sys_now s) ep pw op (sys_github s) in
  let j := join (fst b) (sys_flights s) in
  {| sys_github := snd b; sys_now := sys_now s; sys_flights := snd j;
     sys_calls := sys_calls s
       ++ [{| c_endpoint := ep; c_password := pw; c_op := op; c_state := fst j |}];
     sys_log := sys_log s |}.
Definition run_fetch (k : gostring) (api : GitHubApi) (ep : Endpoint) (token key : gostring) (s : system)
  : system :=
  let f := fetch_access api (sys_now s) ep token key (sys_github s) in
  flight_done "k" k (fst f) (snd f)
    [{| as_time := sys_now s; as_api := api; as_flight := FetchAccess ep token key |}] s.
Definition run_have (i : nat) (c : call) (r : result auth_error access) (s : system) : system :=
  let j := join (after_lookup "k" (c_endpoint c) (c_password c) (c_op c) r) (sys_flights s) in
  {| sys_github := sys_github s; sys_now := sys_now s; sys_flights := snd j;
     sys_calls := <[i := set_state (fst j) c]> (sys_calls s); sys_log := sys_log s |}.
Definition run_probe_begin (k : gostring) (ep : Endpoint) (token key : gostring) (op : Operation)
    (acc : access) (s : system) : system :=
  {| sys_github := snd (probe_begin (sys_now s) key op (sys_github s)); sys_now := sys_now s;
     sys_flights := <[k := (ProbeContents ep token key op acc, true)]> (sys_flights s);
     sys_calls := sys_calls s; sys_log := sys_log s |}.
Definition run_probe_finish (k : gostring) (api : GitHubApi) (ep : Endpoint) (token key : gostring)
    (op : Operation) (acc : access) (s : system) : system :=
  let f := probe_finish api (sys_now s) ep token key op acc (sys_github s) in
  flight_done "k" k (fst f) (snd f)
    [{| as_time := sys_now s; as_api := api; as_flight := ProbeContents ep token key op acc |}] s.
Definition run_have_probe (i : nat) (c : call) (r : result auth_error access) (s : system) : system :=
  {| sys_github := sys_github s; sys_now := sys_now s; sys_flights := sys_flights s;
     sys_calls := <[i := set_state (Done (after_probe (c_op c) r)) c]> (sys_calls s);
     sys_log := sys_log s |}.

Definition sample_key : gostring := Eval vm_compute in cache_key "k" "token" "/org/repo".
Definition sample_acc : access :=
  Eval vm_compute in granted {| repo_private := true; repo_permissions := None |}
    {[ "pull"%go := true; "push"%go := true ]} "octocat".
Definition sample_call (st : call_state) : call :=
  {| c_endpoint := sample_endpoint; c_password := "token"; c_op := operation_upload; c_state := st |}.

Definition sample_g0 : GitHub := new_github minute None.
Definition sample_s1 : system := run_call sample_endpoint "token" operation_upload (init_system sample_g0 0).
Definition sample_s2 : system := run_fetch sample_key sample_api sample_endpoint "token" sample_key sample_s1.
Definition sample_s3 : system := run_have 0 (sample_call (HaveAccess (Ok sample_acc))) (Ok sample_acc) sample_s2.
Definition sample_pk : gostring := Eval vm_compute in probe_key sample_key operation_upload.
Definition sample_s4 : system :=
  run_probe_begin sample_pk sample_endpoint "token" sample_key operation_upload sample_acc sample_s3.
Definition sample_s5 : system :=
  run_probe_finish sample_pk sample_api sample_endpoint "token" sample_key operation_upload sample_acc sample_s4.
Definition sample_acc' : access := Eval vm_compute in with_probe operation_upload ProbeAllowed sample_acc.
Definition sample_s6 : system :=
  run_have_probe 0 (sample_call (HaveProbe (Ok sample_acc'))) (Ok sample_acc') sample_s5.

Lemma sample_reachable1 : reachable "k" [sample_endpoint] sample_g0 0 sample_s1.
Proof.
  eapply reach_step; [apply reach_init|]. eapply step_call.
  - apply list_elem_of_here.
  - by right.
  - apply surjective_pairing.
  - apply surjective_pairing.
Qed.

Lemma sample_reachable2 : reachable "k" [sample_endpoint] sample_g0 0 sample_s2.
Proof.
  eapply reach_step; [apply sample_reachable1|].
  eapply step_fetch; [vm_compute; reflexivity|apply surjective_pairing].
Qed.

Lemma sample_reachable4 : reachable "k" [sample_endpoint] sample_g0 0 sample_s4.
Proof.
  eapply reach_step; [eapply reach_step; [apply sample_reachable2|]|].
  - eapply (step_have_access _ _ _ 0); [vm_compute; reflexivity|reflexivity|apply surjective_pairing].
  - eapply (step_probe_begin _ _ sample_s3 sample_pk); [vm_compute; reflexivity|].
    assert (fst (probe_begin (sys_now sample_s3) sample_key operation_upload (sys_github sample_s3)) = None)
      as Hn by (vm_compute; reflexivity).
    rewrite <-Hn. apply surjective_pairing.
Qed.

Lemma sample_reachable6 : reachable "k" [sample_endpoint] sample_g0 0 sample_s6.
Proof.
  eapply reach_step; [eapply reach_step; [apply sample_reachable4|]|].
  - eapply (step_probe_finish _ _ sample_s4 sample_pk); [vm_compute; reflexivity|apply surjective_pairing].
  - eapply (step_have_probe _ _ sample_s5 0); [vm_compute; reflexivity|reflexivity].
Qed.

Lemma sample_bar : Forall (λ ep, "|"%char ∉ ep_path ep) [sample_endpoint].
Proof. constructor; [|constructor]. apply contains_byte_false. reflexivity. Qed.

(** What the caller got: it may upload, and is no maintainer. *)
Definition sample_result : Result := Eval vm_compute in access_result operation_upload sample_acc'.

Lemma github_authorises_only_reported_witness :
  ∃ a token, a ∈ sys_log sample_s6
    ∧ as_flight a = FetchAccess sample_endpoint token (c_key "k" (sample_call (Done (Ok sample_result))))
    ∧ hmac_sha256 "k" token = hmac_sha256 "k" "token".
Proof.
  destruct (github_authorises_only_reported "k" [sample_endpoint] sample_g0 0 sample_s6
    (sample_call (Done (Ok sample_result))) sample_result) as [(H & _)|H].
  - reflexivity.
  - apply NoDup_singleton.
  - exact sample_bar.
  - exact sample_reachable6.
  - assert (sys_calls sample_s6 = [sample_call (Done (Ok sample_result))]) as -> by (vm_compute; reflexivity).
    apply list_elem_of_here.
  - reflexivity.
  - reflexivity.
  - vm_compute in H. discriminate H.
  - destruct H as (a & token & _ & _ & _ & Ha & Hf & Hm & _). exists a, token. split; [exact Ha|].
    split; [exact Hf|exact Hm].
Defined.


Lemma shared_lookup_reaches_waiters_witness :
  ∃ f b, sys_flights sample_s1 !! sample_key = Some (f, b).
Proof.
  destruct (shared_lookup_reaches_waiters "k" [sample_endpoint] sample_g0 0 sample_s1 0
    (sample_call WaitAccess) sample_key) as (f & b & H & _).
  - reflexivity.
  - exact sample_bar.
  - exact sample_reachable1.
  - vm_compute. reflexivity.
  - vm_compute. reflexivity.
  - exists f, b. exact H.
Defined.

(** Everything has changed at GitHub half a minute later, unnoticed. *)
Definition sample_api_down : GitHubApi := {|
  repositories_get _ _ _ := Err OtherGhError; users_get _ := Err OtherGhError;
  list_commits _ _ _ := Some OtherGhError; create_blob _ _ _ := Some OtherGhError
|}.

Lemma cached_authentication_repeats_witness :
  fst (authenticate "k" sample_api_down (30 * second) sample_endpoint [] "token" operation_upload
    (snd (authenticate "k" sample_api 0 sample_endpoint [] "token" operation_upload sample_g0)))
  = Ok sample_result.
Proof.
  eapply (cached_authentication_repeats "k" sample_api sample_api_down 0 (30 * second) sample_endpoint
    [] [] "token" operation_upload sample_g0 sample_result _ sample_acc').
  - right. reflexivity.
  - discriminate.
  - reflexivity.
  - assert (fst (authenticate "k" sample_api 0 sample_endpoint [] "token" operation_upload sample_g0)
      = Ok sample_result) as <- by (vm_compute; reflexivity).
    apply surjective_pairing.
  - vm_compute. reflexivity.
Defined.

Lemma retry_after_overflows_witness : ∃ wait,
  classify_github_error 0 (ErrorResponse (Some {| gh_status := 429; gh_header _ := "9223372037"%go |}))
    = Err (RateLimitedError wait) ∧ wait < 0.
Proof.
  destruct (retry_after_overflows 0 (λ _, "9223372037"%go) 9223372037) as (wait & H & _ & Hneg).
  - vm_compute. reflexivity.
  - reflexivity.
  - exists wait. split; [exact H|exact (Hneg eq_refl)].
Defined.
End Sample.
