(* ===== verification/Batch.v ===== *)
(** * lfs/batch.go: batch responses

    [Handler] with its collaborators as interfaces over a world [W], and the
    answers to the objects of a batch request.  [process_object] answers one;
    [batch_step] is the loop of [processBatch] with its sixteen slots, and
    [run_batch] runs it under any schedule.  The theorems hold for every storage
    backend that keeps [AdapterLaws]. *)

From S2P Require Import Prelude GoStrings GoUnicode GoConv GoHash GoTime GoUrl GoOs Sanitise Storage Signer Models LockSet Config Auth.

Local Open Scope go_scope.

(** ** The handler *)

(** [LockStore] *)
Record LockStore (W : Type) := {
  ls_create : ctx → gostring → gostring → gostring → W → (Lock * option go_error) * W;
  ls_list : ctx → gostring → ListLocksOptions → W → out W (list Lock * gostring);
  ls_unlock : ctx → gostring → gostring → gostring → bool → W → out W Lock
}.
Arguments ls_create {W}.
Arguments ls_list {W}.
Arguments ls_unlock {W}.

(** [Handler]; [HandlerConfig] has the same fields and [NewHandler] copies them. *)
Record Handler (W : Type) := {
  h_endpoint : Endpoint;
  h_store : Adapter W;
  h_auth : Authenticator W;
  h_base_url : gostring;
  h_max_upload_size : Z;
  h_signer : URLSigner;
  h_lock_store : LockStore W;
  h_upload_idle_timeout : Z
}.
Arguments h_endpoint {W}.
Arguments h_store {W}.
Arguments h_auth {W}.
Arguments h_base_url {W}.
Arguments h_max_upload_size {W}.
Arguments h_signer {W}.
Arguments h_lock_store {W}.
Arguments h_upload_idle_timeout {W}.

(** Operation names and messages of the package. *)
Definition op_download : gostring := "download".
Definition op_upload : gostring := "upload".
Definition op_verify : gostring := "verify".
Definition hash_algo : gostring := "sha256".
Definition msg_internal_error : gostring := "internal error".

(** ** One object *)

(** [validateObject] *)
Definition validate_object (obj : Object) : gostring :=
  if negb (is_valid_oid (obj_oid obj)) then "invalid object id"
  else if obj_size obj <? 0 then "size must be non-negative"
  else [].

(** [unsupportedHashAlgo] *)
Definition unsupported_hash_algo (objects : list Object) : BatchResponse :=
  {| batch_transfer := "basic";
     batch_objects := map (λ obj, {| resp_oid := obj_oid obj; resp_size := Z.max (obj_size obj) 0;
       resp_authenticated := None; resp_actions := ∅;
       resp_error := Some {| err_code := 409;
         err_message := "unsupported hash algorithm; only 'sha256' is supported" |} |}) objects;
     batch_hash_algo := hash_algo |}.

Section Batch.
Context {U : Unicode} {W : Type} (h : Handler W).

(** The path an object is transferred at: [%s/objects/%s]. *)
Definition object_path (oid : gostring) : gostring := ep_path (h_endpoint h) ++ "/objects/" ++ oid.

(** An action at a signed URL. *)
Definition signed_action (s : SignedURL) : Action :=
  {| act_href := href s; act_header := ∅; act_expires_in := expires_in s; act_expires_at := expires_at s |}.

(** [verifyAction], at time [now] *)
Definition verify_action (now : Z) (base_url : gostring) : Action :=
  signed_action (sign (h_signer h) now op_verify base_url (ep_path (h_endpoint h) ++ "/objects/verify")).

(** The responses to an object: bare, with an error, with actions. *)
Definition plain_response (obj : Object) : ObjectResponse :=
  {| resp_oid := obj_oid obj; resp_size := obj_size obj; resp_authenticated := None;
     resp_actions := ∅; resp_error := None |}.
Definition error_response (obj : Object) (code : Z) (message : gostring) : ObjectResponse :=
  {| resp_oid := obj_oid obj; resp_size := obj_size obj; resp_authenticated := None;
     resp_actions := ∅; resp_error := Some {| err_code := code; err_message := message |} |}.
Definition action_response (obj : Object) (actions : gmap gostring Action) : ObjectResponse :=
  {| resp_oid := obj_oid obj; resp_size := obj_size obj; resp_authenticated := Some true;
     resp_actions := actions; resp_error := None |}.
Definition size_mismatch (obj : Object) (size : Z) : ObjectResponse :=
  error_response obj 422 ("object size mismatch: expected " ++ format_int (obj_size obj)
    ++ ", found " ++ format_int size).

(** [int64(h.signer.Expiry().Seconds())] *)
Definition expiry_seconds : Z := duration_seconds (expiry (h_signer h)).

(** [processDownload], in context [c] and at time [now] *)
Definition process_download (c : ctx) (now : Z) (obj : Object) (base_url : gostring) (w : W)
  : ObjectResponse * W :=
  let ep := ep_path (h_endpoint h) in
  match ad_size (h_store h) c ep (obj_oid obj) w with
  | (Err e, w) =>
      (if errors_is NotExist e then error_response obj 404 "object not found"
       else error_response obj 500 msg_internal_error, w)
  | (Ok size, w) =>
      if negb (size =? obj_size obj) then (size_mismatch obj size, w)
      else
        match ad_presigner (h_store h) with
        | Some p =>
            match presign_get p c ep (obj_oid obj) (expiry (h_signer h)) w with
            | (Err _, w) => (error_response obj 500 msg_internal_error, w)
            | (Ok url, w) =>
                (action_response obj {[ op_download := {| act_href := url; act_header := ∅;
                   act_expires_in := expiry_seconds; act_expires_at := [] |} ]}, w)
            end
        | None =>
            (action_response obj {[ op_download :=
               signed_action (sign (h_signer h) now op_download base_url (object_path (obj_oid obj))) ]}, w)
        end
  end.

(** [processUpload] *)
Definition process_upload (c : ctx) (now : Z) (obj : Object) (base_url : gostring) (verify : Action)
    (w : W) : ObjectResponse * W :=
  let ep := ep_path (h_endpoint h) in
  if h_max_upload_size h <? obj_size obj
  then (error_response obj 422 ("object exceeds maximum upload size of "
          ++ format_int (h_max_upload_size h) ++ " bytes"), w)
  else
    match ad_size (h_store h) c ep (obj_oid obj) w with
    | (Ok size, w) =>
        if size =? obj_size obj then (plain_response obj, w) else (size_mismatch obj size, w)
    | (Err e, w) =>
        if negb (errors_is NotExist e) then (error_response obj 500 msg_internal_error, w)
        else
          match ad_presigner (h_store h) with
          | Some p =>
              match presign_put p c ep (obj_oid obj) (obj_size obj) (expiry (h_signer h)) w with
              | (Err e, w) =>
                  (if errors_is ObjectTooLarge e
                   then error_response obj 422 "object exceeds the maximum size for a direct upload to storage"
                   else error_response obj 500 msg_internal_error, w)
              | (Ok (url, header), w) =>
                  (action_response obj {[ op_upload := {| act_href := url; act_header := header;
                       act_expires_in := expiry_seconds; act_expires_at := [] |};
                     op_verify := verify ]}, w)
              end
          | None =>
              (action_response obj {[ op_upload :=
                 signed_action (sign (h_signer h) now op_upload base_url (object_path (obj_oid obj)));
                 op_verify := verify ]}, w)
          end
    end.

(** [processObject] *)
Definition process_object (c : ctx) (now : Z) (operation : gostring) (obj : Object)
    (base_url : gostring) (verify : Action) (w : W) : ObjectResponse * W :=
  match validate_object obj with
  | [] =>
      if str_eqb operation op_download then process_download c now obj base_url w
      else process_upload c now obj base_url verify w
  | msg =>
      ({| resp_oid := obj_oid obj; resp_size := Z.max (obj_size obj) 0; resp_authenticated := None;
          resp_actions := ∅; resp_error := Some {| err_code := 422; err_message := msg |} |}, w)
  end.

(** ** The loop *)

Definition batch_concurrency : nat := 16.

(** The state of the loop: how many objects have been started, those being
    processed, the responses written so far, and whether it has been left early. *)
Record batch_state := {
  bs_started : nat;
  bs_running : list nat;
  bs_done : gmap nat ObjectResponse;
  bs_stopped : bool
}.
Definition batch_init : batch_state :=
  {| bs_started := 0; bs_running := []; bs_done := ∅; bs_stopped := false |}.

(** What happens next: the loop gets a slot and looks at the request's context,
    or a running object is processed. *)
Inductive batch_event : Type :=
| EvStart (c : ctx)
| EvProcess (i : nat) (c : ctx) (now : Z).

(** A step of [processBatch]; [None] when the event cannot happen. *)
Definition batch_step (req : BatchRequest) (base_url : gostring) (verify : Action) (ev : batch_event)
    (sw : batch_state * W) : option (batch_state * W) :=
  let '(s, w) := sw in
  match ev with
  | EvStart c =>
      if bs_stopped s || (length (req_objects req) <=? bs_started s)%nat
         || (batch_concurrency <=? length (bs_running s))%nat then None
      else match c with
           | Some _ => Some ({| bs_started := bs_started s; bs_running := bs_running s;
                                bs_done := bs_done s; bs_stopped := true |}, w)
           | None => Some ({| bs_started := S (bs_started s);
                              bs_running := bs_started s :: bs_running s;
                              bs_done := bs_done s; bs_stopped := false |}, w)
           end
  | EvProcess i c now =>
      if bool_decide (i ∈ bs_running s) then
        obj ← req_objects req !! i;
        let '(r, w) := process_object c now (req_operation req) obj base_url verify w in
        Some ({| bs_started := bs_started s;
                 bs_running := List.filter (λ j, negb (j =? i)%nat) (bs_running s);
                 bs_done := <[i := r]> (bs_done s); bs_stopped := bs_stopped s |}, w)
      else None
  end.

Fixpoint run_batch (req : BatchRequest) (base_url : gostring) (verify : Action) (evs : list batch_event)
    (sw : batch_state * W) : option (batch_state * W) :=
  match evs with
  | [] => Some sw
  | ev :: evs => sw ← batch_step req base_url verify ev sw; run_batch req base_url verify evs sw
  end.

(** The loop is over and [wg.Wait] has returned. *)
Definition batch_over (req : BatchRequest) (s : batch_state) : bool :=
  (bs_stopped s || (bs_started s =? length (req_objects req))%nat)
  && match bs_running s with [] => true | _ => false end.

(** [objects[:started]]: the slots of the response array, zero where nothing was written. *)
Definition zero_response : ObjectResponse :=
  {| resp_oid := []; resp_size := 0; resp_authenticated := None; resp_actions := ∅; resp_error := None |}.
Definition batch_objects_of (s : batch_state) : list ObjectResponse :=
  map (λ i, default zero_response (bs_done s !! i)) (seq 0 (bs_started s)).

(** [processBatch] under the schedule [evs], the verify action being signed at
    time [now]; [None] for a schedule that does not run the loop to its end. *)
Definition process_batch (req : BatchRequest) (base_url : gostring) (now : Z) (evs : list batch_event)
    (w : W) : option (BatchResponse * W) :=
  let verify := if str_eqb (req_operation req) op_upload then verify_action now base_url
                else {| act_href := []; act_header := ∅; act_expires_in := 0; act_expires_at := [] |} in
  '(s, w) ← run_batch req base_url verify evs (batch_init, w);
  if batch_over req s then
    Some ({| batch_transfer := "basic"; batch_objects := batch_objects_of s;
             batch_hash_algo := hash_algo |}, w)
  else None.
End Batch.

(** ** One object: what its response says *)

Section Objects.
Context {U : Unicode} {W : Type} (h : Handler W) (objects : object_store W) (valid : W → Prop)
  {L : AdapterLaws (h_store h) objects valid}.

Lemma same_objects_refl (w : W) : same_objects objects w w.
Proof. by intros d o _ _. Qed.

Lemma same_objects_trans (w1 w2 w3 : W) :
  same_objects objects w1 w2 → same_objects objects w2 w3 → same_objects objects w1 w3.
Proof. intros H1 H2 d o Hd Ho. by rewrite H2, H1. Qed.

(** The object of a request is stored, with the size the client states. *)
Definition stored_with_size (obj : Object) (w : W) : Prop :=
  ∃ o data, normalise_oid (obj_oid obj) = Ok o
    ∧ objects w (endpoint (ep_path (h_endpoint h))) o = Some data
    ∧ obj_size obj = Z.of_nat (length data).

(** What a response may say of an object. *)
Inductive says (operation : gostring) (obj : Object) (w : W) (r : ObjectResponse) : Prop :=
| says_error e :
    resp_error r = Some e → resp_actions r = ∅ → resp_authenticated r = None →
    err_code e ∈ [404; 422; 500] → says operation obj w r
| says_present :
    operation ≠ op_download → resp_error r = None → resp_actions r = ∅ →
    resp_authenticated r = None → stored_with_size obj w → says operation obj w r
| says_download act :
    operation = op_download → resp_error r = None → resp_actions r = {[ op_download := act ]} →
    resp_authenticated r = Some true → stored_with_size obj w → says operation obj w r
| says_upload act verify :
    operation ≠ op_download → resp_error r = None →
    resp_actions r = {[ op_upload := act; op_verify := verify ]} →
    resp_authenticated r = Some true → obj_size obj <= h_max_upload_size h → says operation obj w r.

Lemma size_stored c obj w n w' : valid w →
  ad_size (h_store h) c (ep_path (h_endpoint h)) (obj_oid obj) w = (Ok n, w') →
  obj_size obj = n → stored_with_size obj w.
Proof.
  intros Hv H Hn. apply size_law in H as (_ & _ & Hr); [|done].
  destruct (Hr n eq_refl) as (o & data & Ho & Hd & Hl). exists o, data. by rewrite <-Hl.
Qed.

Lemma validate_object_ok obj : validate_object obj = [] ↔
  is_valid_oid (obj_oid obj) = true ∧ 0 <= obj_size obj.
Proof.
  unfold validate_object. destruct (is_valid_oid (obj_oid obj)); simpl; [|by split; [|intros [? _]]].
  destruct (Z.ltb_spec (obj_size obj) 0); split; try done; lia.
Qed.

Lemma says_error_response operation obj w code msg : code ∈ [404; 422; 500] →
  says operation obj w (error_response obj code msg).
Proof. intros H. by eapply says_error. Qed.

Lemma process_download_spec c now obj base w r w' : valid w →
  process_download h c now obj base w = (r, w') →
  valid w' ∧ same_objects objects w w' ∧ says op_download obj w r
  ∧ resp_oid r = obj_oid obj ∧ resp_size r = obj_size obj.
Proof.
  intros Hv H. unfold process_download in H.
  destruct (ad_size _ _ _ _ w) as [[n|e] w1] eqn:E; pose proof E as (Hv1 & Hs1 & _)%size_law; try done.
  2: { injection H as <- <-. split; [done|]. split; [done|].
       destruct (errors_is NotExist e); (split; [|done]); apply says_error_response; set_solver. }
  destruct (Z.eqb_spec n (obj_size obj)) as [Hn|Hn]; cbn [negb] in H.
  2: { injection H as <- <-. split; [done|]. split; [done|]. split; [|done].
       apply says_error_response; set_solver. }
  assert (stored_with_size obj w) as Hst by by eapply size_stored.
  destruct (ad_presigner (h_store h)) as [p|] eqn:Ep.
  - destruct (presign_get _ _ _ _ _ w1) as [[url|e] w2] eqn:E2;
      pose proof E2 as (Hv2 & Hs2)%(presign_get_law p); try done; injection H as <- <-;
      (split; [done|]; split; [by eapply same_objects_trans|]; split; [|done]).
    + by eapply says_download.
    + apply says_error_response; set_solver.
  - injection H as <- <-. split; [done|]. split; [done|]. split; [|done]. by eapply says_download.
Qed.

Lemma process_upload_spec operation c now obj base verify w r w' : valid w → operation ≠ op_download →
  process_upload h c now obj base verify w = (r, w') →
  valid w' ∧ same_objects objects w w' ∧ says operation obj w r
  ∧ resp_oid r = obj_oid obj ∧ resp_size r = obj_size obj.
Proof.
  intros Hv Hop H. unfold process_upload in H.
  destruct (Z.ltb_spec (h_max_upload_size h) (obj_size obj)) as [Hmax|Hmax].
  { injection H as <- <-. split; [done|]. split; [apply same_objects_refl|]. split; [|done].
    apply says_error_response; set_solver. }
  destruct (ad_size _ _ _ _ w) as [[n|e] w1] eqn:E; pose proof E as (Hv1 & Hs1 & _)%size_law; try done.
  { destruct (Z.eqb_spec n (obj_size obj)) as [Hn|Hn]; injection H as <- <-;
      (split; [done|]; split; [done|]; split; [|done]).
    - apply says_present; try done. by eapply size_stored.
    - apply says_error_response; set_solver. }
  destruct (errors_is NotExist e); cbn [negb] in H.
  2: { injection H as <- <-. split; [done|]. split; [done|]. split; [|done].
       apply says_error_response; set_solver. }
  destruct (ad_presigner (h_store h)) as [p|] eqn:Ep.
  - destruct (presign_put _ _ _ _ _ _ w1) as [[[url header]|e2] w2] eqn:E2;
      pose proof E2 as (Hv2 & Hs2)%(presign_put_law p); try done; injection H as <- <-;
      (split; [done|]; split; [by eapply same_objects_trans|]).
    + split; [|done]. by eapply says_upload.
    + destruct (errors_is ObjectTooLarge e2); (split; [|done]);
        apply says_error_response; set_solver.
  - injection H as <- <-. split; [done|]. split; [done|]. split; [|done]. by eapply says_upload.
Qed.

Lemma process_object_spec c now operation obj base verify w r w' : valid w →
  process_object h c now operation obj base verify w = (r, w') →
  valid w' ∧ same_objects objects w w' ∧ says operation obj w r ∧ resp_oid r = obj_oid obj
  ∧ (resp_error r = None → is_valid_oid (obj_oid obj) = true ∧ 0 <= obj_size obj
       ∧ resp_size r = obj_size obj).
Proof.
  intros Hv H. unfold process_object in H.
  destruct (validate_object obj) as [|x msg] eqn:Ev.
  2: { injection H as <- <-. split; [done|]. split; [apply same_objects_refl|]. split; [|done].
       eapply says_error; try done. set_solver. }
  apply validate_object_ok in Ev as [Hoid Hsz]. destruct (str_eqb operation op_download) eqn:Eop.
  - apply str_eqb_eq in Eop as ->. apply process_download_spec in H as (? & ? & ? & ? & ?); [|done].
    do 4 (split; [done|]). done.
  - apply str_eqb_neq in Eop. apply (process_upload_spec operation) in H as (? & ? & ? & ? & ?); [|done..].
    do 4 (split; [done|]). done.
Qed.
End Objects.

(** ** The loop under every schedule *)

Section Loop.
Context {U : Unicode} {W : Type} (h : Handler W) (objects : object_store W) (valid : W → Prop)
  {L : AdapterLaws (h_store h) objects valid} (req : BatchRequest) (base_url : gostring) (verify : Action).

(** A response good for an object, the store being as in [w]. *)
Definition answers (w : W) (obj : Object) (r : ObjectResponse) : Prop :=
  says h objects (req_operation req) obj w r ∧ resp_oid r = obj_oid obj
  ∧ (resp_error r = None → is_valid_oid (obj_oid obj) = true ∧ 0 <= obj_size obj
       ∧ resp_size r = obj_size obj).

Lemma stored_with_size_same (w w' : W) obj : same_objects objects w w' →
  stored_with_size h objects obj w' → stored_with_size h objects obj w.
Proof.
  intros Hs (o & data & Ho & Hd & Hl). exists o, data. split; [done|]. split; [|done].
  rewrite <-Hs; [done|apply endpoint_safe_name|by eapply normalise_oid_normal].
Qed.

Lemma answers_same (w w' : W) obj r : same_objects objects w w' → answers w' obj r → answers w obj r.
Proof.
  intros Hs [H Hrest]. split; [|done].
  destruct H; [by eapply says_error| |
    |by eapply says_upload]; [eapply says_present|eapply says_download]; eauto using stored_with_size_same.
Qed.

Record loop_ok (w0 : W) (evs : nat) (sw : batch_state * W) : Prop := {
  lo_valid : valid (snd sw);
  lo_same : same_objects objects w0 (snd sw);
  lo_started : (bs_started (fst sw) <= length (req_objects req))%nat;
  lo_nodup : NoDup (bs_running (fst sw));
  lo_slots : (length (bs_running (fst sw)) <= batch_concurrency)%nat;
  lo_running i : i ∈ bs_running (fst sw) → (i < bs_started (fst sw))%nat;
  lo_done i : (i < bs_started (fst sw))%nat → (i ∉ bs_running (fst sw)) →
    ∃ obj r, req_objects req !! i = Some obj ∧ bs_done (fst sw) !! i = Some r ∧ answers w0 obj r;
  lo_count : (evs + length (bs_running (fst sw))
    = 2 * bs_started (fst sw) + (if bs_stopped (fst sw) then 1 else 0))%nat
}.

Lemma filter_out_running i l : NoDup l → i ∈ l →
  let l' := List.filter (λ j, negb (j =? i)%nat) l in
  NoDup l' ∧ S (length l') = length l ∧ ∀ j, j ∈ l' ↔ j ∈ l ∧ j ≠ i.
Proof.
  intros Hnd Hin. cbv zeta. split; [by apply NoDup_ListNoDup, List.NoDup_filter, NoDup_ListNoDup|].
  split.
  - induction Hnd as [|j l Hj Hnd IH]; [by apply elem_of_nil in Hin|]. simpl.
    destruct (Nat.eqb_spec j i) as [->|Hne]; simpl.
    + f_equal. clear IH Hin. induction l as [|k l IH]; [done|]. simpl.
      rewrite not_elem_of_cons in Hj. destruct Hj as [Hk Hl]. apply NoDup_cons in Hnd as [_ Hnd].
      rewrite (proj2 (Nat.eqb_neq k i)) by done. simpl. by rewrite IH.
    + f_equal. apply IH. apply elem_of_cons in Hin as [Hin|Hin]; [by destruct Hne|done].
  - intros j. rewrite !list_elem_of_In, List.filter_In, negb_true_iff, Nat.eqb_neq. done.
Qed.

Lemma loop_step w0 n ev sw sw' : loop_ok w0 n sw → batch_step h req base_url verify ev sw = Some sw' →
  loop_ok w0 (S n) sw'.
Proof.
  destruct sw as [s w]. intros [H1 H2 H3 H4 H5 H6 H7 H8] H. cbn [fst snd] in *. destruct ev as [c|i c now]; cbn [batch_step] in H.
  - destruct (bs_stopped s) eqn:Est; [done|]. cbn [orb] in H.
    destruct (Nat.leb_spec (length (req_objects req)) (bs_started s)) as [|Hlt]; [done|].
    destruct (Nat.leb_spec batch_concurrency (length (bs_running s))) as [|Hsl]; [done|]. cbn [orb] in H.
    destruct c as [e|]; injection H as <-;
      split; cbn [fst snd bs_started bs_running bs_done bs_stopped length]; try done; try lia.
    + apply NoDup_cons. split; [|done]. intros Hin. apply H6 in Hin. lia.
    + intros i [->|Hi]%elem_of_cons; [lia|]. apply H6 in Hi. lia.
    + intros i Hi Hni. rewrite not_elem_of_cons in Hni. apply H7; [|by apply Hni].
      destruct Hni as [Hne _]. lia.
  - case_bool_decide as Hin; [|done]. destruct (req_objects req !! i) as [obj|] eqn:Eo; [|done]. cbn in H.
    destruct (process_object _ _ _ _ _ _ _ w) as [r w1] eqn:Ep. injection H as <-.
    apply (process_object_spec h objects valid) in Ep as (Hv1 & Hs1 & Hsays & Hoid & Hok); [|done].
    destruct (filter_out_running i (bs_running s) H4 Hin) as (F1 & F2 & F3).
    split; cbn [fst snd bs_started bs_running bs_done bs_stopped]; try done; try lia.
    + by eapply same_objects_trans.
    + intros j Hj. by apply H6, F3.
    + intros j Hj Hnj. destruct (decide (j = i)) as [->|Hne].
      * exists obj, r. rewrite lookup_insert_eq. split; [done|]. split; [done|].
        eapply answers_same; [exact H2|]. by split.
      * rewrite lookup_insert_ne by done. apply H7; [done|]. intros Hin'. apply Hnj, F3. done.
Qed.

Lemma loop_run w0 n evs sw sw' : loop_ok w0 n sw → run_batch h req base_url verify evs sw = Some sw' →
  loop_ok w0 (n + length evs) sw'.
Proof.
  revert n sw. induction evs as [|ev evs IH]; intros n sw Hok H; simpl in H.
  - injection H as <-. simpl. by rewrite Nat.add_0_r.
  - destruct (batch_step _ _ _ _ ev sw) as [sw1|] eqn:E; [|done]. simpl in H.
    eapply loop_step in E; [|exact Hok]. apply (IH _ _ E) in H. simpl. by rewrite Nat.add_succ_r.
Qed.

Lemma loop_init w : valid w → loop_ok w 0 (batch_init, w).
Proof.
  intros Hv. split; cbn [fst snd batch_init bs_started bs_running bs_done bs_stopped]; try done; try lia.
  - constructor.
  - simpl. lia.
  - by intros i ?%elem_of_nil.
Qed.

(** The loop is left early only when the context of an [EvStart] was done. *)
Lemma loop_stopped evs sw sw' : run_batch h req base_url verify evs sw = Some sw' →
  bs_stopped (fst sw') = true → bs_stopped (fst sw) = true ∨ ∃ e, EvStart (Some e) ∈ evs.
Proof.
  revert sw. induction evs as [|ev evs IH]; intros sw H Hst; simpl in H; [injection H as <-; by left|].
  destruct (batch_step _ _ _ _ ev sw) as [sw1|] eqn:E; [|done]. simpl in H.
  destruct (IH _ H Hst) as [H1|[e He]]; [|right; exists e; by apply list_elem_of_further].
  destruct sw as [s w]. destruct ev as [c|i c now]; cbn [batch_step] in E.
  - destruct (_ || _ || _); [done|]. destruct c as [e|]; injection E as <-; [|done].
    right. exists e. apply list_elem_of_here.
  - case_bool_decide; [|done]. destruct (req_objects req !! i); [|done]. cbn in E.
    destruct (process_object _ _ _ _ _ _ _ w). injection E as <-. by left.
Qed.

(** While the loop is not over, something can happen. *)
Lemma loop_enabled w0 n sw c now : loop_ok w0 n sw → batch_over req (fst sw) = false →
  is_Some (batch_step h req base_url verify (EvStart c) sw)
  ∨ ∃ i, is_Some (batch_step h req base_url verify (EvProcess i c now) sw).
Proof.
  destruct sw as [s w]. intros [_ _ Hst _ _ Hrun _ _] Hov. cbn [fst snd] in *. unfold batch_over in Hov.
  destruct (bs_running s) as [|i l] eqn:Er.
  - left. rewrite andb_true_r in Hov. apply orb_false_iff in Hov as [Hs Hne%Nat.eqb_neq]. cbn [batch_step].
    rewrite Hs, Er, (proj2 (Nat.leb_gt _ _)) by lia. simpl. destruct c; eauto.
  - right. exists i. cbn [batch_step]. rewrite bool_decide_true by (rewrite Er; apply list_elem_of_here).
    destruct (lookup_lt_is_Some_2 (req_objects req) i) as [obj Ho].
    { specialize (Hrun i (list_elem_of_here _ _)). lia. }
    rewrite Ho. simpl. destruct (process_object _ _ _ _ _ _ _ w). eauto.
Qed.
End Loop.

(** ** Signed actions *)

Lemma valid_oid_plain oid : is_valid_oid oid = true → Forall (λ c, plain_path_byte c = true) oid.
Proof.
  intros [_ H]%is_valid_oid_spec. eapply Forall_impl; [exact H|]. intros c Hc.
  assert (negb (is_hex c) || plain_path_byte c = true) as Hb.
  { refine (forall_bytes (λ c, negb (is_hex c) || plain_path_byte c) _ c). vm_compute. reflexivity. }
  cbv beta in Hc. by rewrite Hc in Hb.
Qed.

Lemma plain_under ep rest : plain_endpoint ep → Forall (λ c, plain_path_byte c = true) rest →
  has_prefix "/" (ep_path ep ++ rest) = true
  ∧ Forall (λ c, plain_path_byte c = true) (ep_path ep ++ rest).
Proof.
  intros [Hs Hp] Hr. split; [|by apply Forall_app]. apply has_prefix_spec in Hs as [t ->].
  apply has_prefix_spec. exists (t ++ rest). by rewrite <-app_assoc.
Qed.

(** A signed action's URL is the base URL and a URI below [path], which is
    accepted for the operation, and only until the signer's expiry. *)
Definition action_verifies (s : URLSigner) (now : Z) (op base_url path : gostring) (act : Action) : Prop :=
  ∃ uri, act_href act = base_url ++ uri ∧ has_prefix path uri = true
    ∧ ∀ later, verify s later op base_url uri
        = if unix_seconds later <=? unix_seconds (now + expiry s) then Ok tt else Err Expired.

Lemma signed_action_verifies s now op base_url path :
  has_prefix "/" path = true → Forall (λ c, plain_path_byte c = true) path →
  0 <= unix_seconds (now + expiry s) <= max_int64 →
  action_verifies s now op base_url path (signed_action (sign s now op base_url path)).
Proof.
  intros H1 H2 H3. pose proof (λ later, sign_verify s now later op base_url path H1 H2 H3) as H.
  cbv zeta in H. destruct (H now) as (uri & Hu & Hpre & _). exists uri. split; [exact Hu|]. split; [done|].
  intros later. destruct (H later) as (uri' & Hu' & _ & _ & Hv).
  rewrite Hu in Hu'. apply app_inv_head in Hu' as <-. exact Hv.
Qed.

(** ** Properties *)

Section Properties.
Context {U : Unicode} {W : Type} (h : Handler W).

(** C29. What the server says of an object in a batch response is true of its
    storage, and saying it changes no object. A response with an error has no
    action; one without is for a valid OID and a non-negative size, and it is: for
    a download, a download action for an object stored with exactly the size asked
    for; for an upload, either no action, the object being stored with exactly
    that size, or an upload and a verify action for a size within the limit. *)
Theorem batch_object_truthful objects valid {L : AdapterLaws (h_store h) objects valid}
    c now operation obj base_url verify w r w' :
  valid w → process_object h c now operation obj base_url verify w = (r, w') →
  valid w' ∧ same_objects objects w w' ∧ says h objects operation obj w r
  ∧ resp_oid r = obj_oid obj
  ∧ (resp_error r = None → is_valid_oid (obj_oid obj) = true ∧ 0 <= obj_size obj
       ∧ resp_size r = obj_size obj).
Proof. apply process_object_spec. exact L. Qed.

(** The whole batch. *)
Lemma process_batch_spec objects valid {L : AdapterLaws (h_store h) objects valid}
    req base_url now evs w resp w' :
  valid w → process_batch h req base_url now evs w = Some (resp, w') →
  valid w' ∧ same_objects objects w w'
  ∧ (length (batch_objects resp) <= length (req_objects req))%nat
  ∧ (∀ i r, batch_objects resp !! i = Some r → ∃ obj, req_objects req !! i = Some obj
       ∧ answers h objects req w obj r)
  ∧ ((∀ e, EvStart (Some e) ∉ evs) → length (batch_objects resp) = length (req_objects req)).
Proof.
  intros Hv H. unfold process_batch in H.
  set (v := if str_eqb (req_operation req) op_upload then _ else _) in H.
  destruct (run_batch h req base_url v evs (batch_init, w)) as [[s w1]|] eqn:E; [|done]. simpl in H.
  destruct (batch_over req s) eqn:Eo; [|done]. injection H as <- <-.
  pose proof (loop_run h objects valid req base_url v w 0 evs _ _ (loop_init h objects valid req w Hv) E) as Hl.
  destruct Hl as [H1 H2 H3 _ _ _ H7 _]. cbn [fst snd] in *.
  unfold batch_over in Eo. destruct (bs_running s) eqn:Er; [|by rewrite andb_false_r in Eo].
  rewrite andb_true_r in Eo. cbn [batch_objects]. unfold batch_objects_of.
  rewrite length_map, length_seq. split; [done|]. split; [done|]. split; [done|]. split.
  - intros i r. rewrite list_lookup_fmap, fmap_Some. intros (j & [Hj Hlt]%lookup_seq & ->).
    rewrite Nat.add_0_l in Hj. subst j.
    destruct (H7 i Hlt) as (obj & r & Ho & Hr & Ha); [apply not_elem_of_nil|].
    exists obj. rewrite Hr. done.
  - intros Hno. apply orb_prop in Eo as [Est|Hst%Nat.eqb_eq]; [|done].
    apply (loop_stopped h req base_url v evs) in E as [?|[e He]]; [done| |done].
    by destruct (Hno e).
Qed.

(** C30. However the sixteen slots of a batch are scheduled, the responses come in
    request order, one for each object that was started, each of them true of the
    object at its position; all objects are answered unless the client was gone
    when the loop looked; and the batch changes no object. *)
Theorem batch_in_order objects valid {L : AdapterLaws (h_store h) objects valid}
    req base_url now evs w resp w' :
  valid w → process_batch h req base_url now evs w = Some (resp, w') →
  valid w' ∧ same_objects objects w w'
  ∧ (length (batch_objects resp) <= length (req_objects req))%nat
  ∧ (∀ i r, batch_objects resp !! i = Some r → ∃ obj, req_objects req !! i = Some obj
       ∧ answers h objects req w obj r)
  ∧ ((∀ e, EvStart (Some e) ∉ evs) → length (batch_objects resp) = length (req_objects req)).
Proof. apply process_batch_spec. exact L. Qed.

(** The loop of a batch never deadlocks and always ends: under any schedule at
    most sixteen objects are processed at a time, while it is not over either the
    next object can be started or a running one be processed, and a schedule has
    at most two events per object and one more. *)
Theorem batch_ends objects valid {L : AdapterLaws (h_store h) objects valid}
    req base_url verify evs w s w' :
  valid w → run_batch h req base_url verify evs (batch_init, w) = Some (s, w') →
  (length (bs_running s) <= 16)%nat
  ∧ (length evs <= 2 * length (req_objects req) + 1)%nat
  ∧ (batch_over req s = false → ∀ c now,
       is_Some (batch_step h req base_url verify (EvStart c) (s, w'))
       ∨ ∃ i, is_Some (batch_step h req base_url verify (EvProcess i c now) (s, w'))).
Proof.
  intros Hv E.
  pose proof (loop_run h objects valid req base_url verify w 0 evs _ _ (loop_init h objects valid req w Hv) E) as Hl.
  split; [apply Hl|]. split.
  - pose proof (lo_count _ _ _ _ _ _ _ Hl) as Hc. pose proof (lo_started _ _ _ _ _ _ _ Hl) as Hs.
    cbn [fst] in *. destruct (bs_stopped s); lia.
  - intros Ho c now. exact (loop_enabled h objects valid req base_url verify w _ (s, w') c now Hl Ho).
Qed.

(** The links of a batch response work: when the backend has no presigned URLs,
    the URL of every download, upload and verify action is under the object's own
    path (the verify path), is accepted by the signature check for that operation
    at every time up to the signer's expiry, and is rejected as expired after it. *)
Theorem batch_links_verify c now now0 operation obj base_url w r w' act :
  ad_presigner (h_store h) = None → plain_endpoint (h_endpoint h) →
  0 <= unix_seconds (now + expiry (h_signer h)) <= max_int64 →
  0 <= unix_seconds (now0 + expiry (h_signer h)) <= max_int64 →
  process_object h c now operation obj base_url (verify_action h now0 base_url) w = (r, w') →
  (resp_actions r !! op_download = Some act →
     action_verifies (h_signer h) now op_download base_url (object_path h (obj_oid obj)) act)
  ∧ (resp_actions r !! op_upload = Some act →
     action_verifies (h_signer h) now op_upload base_url (object_path h (obj_oid obj)) act)
  ∧ (resp_actions r !! op_verify = Some act →
     action_verifies (h_signer h) now0 op_verify base_url (ep_path (h_endpoint h) ++ "/objects/verify") act).
Proof.
  intros Hpre Hep Ht Ht0 H. unfold process_object in H.
  destruct (validate_object obj) as [|x msg] eqn:Ev.
  2: { injection H as <- _. cbn [resp_actions]. rewrite !lookup_empty. done. }
  apply validate_object_ok in Ev as [Hoid _].
  destruct (plain_under (h_endpoint h) ("/objects/" ++ obj_oid obj) Hep) as [P1 P2].
  { apply Forall_app. split; [by repeat constructor|by apply valid_oid_plain]. }
  destruct (plain_under (h_endpoint h) "/objects/verify" Hep) as [V1 V2]; [by repeat constructor|].
  assert (resp_actions r = ∅
    ∨ resp_actions r = {[ op_download := signed_action (sign (h_signer h) now op_download base_url
        (object_path h (obj_oid obj))) ]}
    ∨ resp_actions r = {[ op_upload := signed_action (sign (h_signer h) now op_upload base_url
        (object_path h (obj_oid obj))); op_verify := verify_action h now0 base_url ]}) as Hr.
  { destruct (str_eqb operation op_download); unfold process_download, process_upload in H;
      rewrite Hpre in H; repeat (case_match; simplify_eq/=; auto). }
  destruct Hr as [->|[->| ->]].
  - rewrite !lookup_empty. done.
  - rewrite lookup_singleton_eq, !lookup_singleton_ne by done.
    split; [|done]. intros [= <-]. by apply signed_action_verifies.
  - rewrite lookup_insert_ne by done. rewrite lookup_singleton_ne by done. rewrite lookup_insert_eq.
    rewrite lookup_insert_ne, lookup_singleton_eq by done. split; [done|].
    split; intros [= <-]; by apply signed_action_verifies.
Qed.
End Properties.
