(* ===== verification/Handler.v ===== *)
(** * lfs/handler.go: the HTTP handlers

    Each handler is a function of the request, of the readings of the clock it
    makes and of the world its collaborators share, to the response and the new
    world, with the source's checks in the source's order.  Requests are what
    the accessors of [net/http] return. *)

From S2P Require Import Prelude GoStrings GoUnicode GoPath GoConv GoHash GoTime GoUrl GoMime GoNet GoOs GoJson GoServe Sanitise Storage Signer Models LockSet Config Auth Batch.

Local Open Scope go_scope.

(** ** Requests and responses *)

(** [r_body_early] tells, for a JSON body that does not end regularly, whether
    the decoder rejects what it has read before it meets the read error, and
    [r_body_read], for an upload the store refuses, whether it had read the body
    to its end.  [r_gone] is the context's error after the store's answer. *)
Record Request := {
  r_method : gostring;
  r_header : gostring → gostring;
  r_body : reader;
  r_body_early : bool;
  r_body_read : bool;
  r_content_length : Z;
  r_ctx : ctx;
  r_gone : ctx;
  r_basic_auth : option (gostring * gostring);
  r_path_value : gostring → gostring;
  r_request_uri : gostring;
  r_raw_query : gostring;
  r_tls : bool;
  r_host : gostring;
  r_request_id : gostring
}.

(** What is written after the header: nothing, a JSON text, plain text, or bytes. *)
Inductive response_body : Type :=
| NoBody
| JsonBody (j : json)
| TextBody (s : gostring)
| BytesBody (data : gostring).

Definition written_body (w : written) : response_body :=
  match w with WroteNothing => NoBody | WroteText s => TextBody s | WroteContent s => BytesBody s end.

Record Response := {
  rs_status : Z;
  rs_header : gmap gostring gostring;
  rs_body : response_body
}.

(** ** JSON of the messages: lfs/models.go's struct tags *)

(** [json.Marshal] fails on a string that is not UTF-8. *)
Fixpoint json_valid (v : json) : bool :=
  match v with
  | JNull | JBool _ | JNum _ => true
  | JStr s => utf8_valid s
  | JArr l => (fix go (l : list json) := match l with [] => true | v :: l => json_valid v && go l end) l
  | JObj l => (fix go (l : list (gostring * json)) :=
                 match l with [] => true | (k, v) :: l => utf8_valid k && json_valid v && go l end) l
  end.

Definition jint (z : Z) : json := JNum (format_int z).

(** [omitempty]: a member whose value is the empty string, array or object, or
    [null], is left out. *)
Definition omit_empty (k : gostring) (v : json) : list (gostring * json) :=
  match v with JNull | JStr [] | JArr [] | JObj [] => [] | _ => [(k, v)] end.
(** [omitzero] of an integer. *)
Definition omit_zero (k : gostring) (z : Z) : list (gostring * json) :=
  if z =? 0 then [] else [(k, jint z)].

Definition json_of_header (m : gmap gostring gostring) : json :=
  JObj (map (λ p, (fst p, JStr (snd p))) (map_to_list m)).
Definition json_of_action (a : Action) : json :=
  JObj ([("href"%go, JStr (act_href a))] ++ omit_empty "header" (json_of_header (act_header a))
        ++ omit_zero "expires_in" (act_expires_in a) ++ omit_empty "expires_at" (JStr (act_expires_at a))).
Definition json_of_object_error (e : ObjectError) : json :=
  JObj [("code"%go, jint (err_code e)); ("message"%go, JStr (err_message e))].
Definition json_of_object_response (r : ObjectResponse) : json :=
  JObj ([("oid"%go, JStr (resp_oid r)); ("size"%go, jint (resp_size r))]
        ++ omit_empty "authenticated" (match resp_authenticated r with Some b => JBool b | None => JNull end)
        ++ omit_empty "actions" (JObj (map (λ p, (fst p, json_of_action (snd p))) (map_to_list (resp_actions r))))
        ++ omit_empty "error" (match resp_error r with Some e => json_of_object_error e | None => JNull end)).
Definition json_of_batch_response (r : BatchResponse) : json :=
  JObj (omit_empty "transfer" (JStr (batch_transfer r))
        ++ [("objects"%go, JArr (map json_of_object_response (batch_objects r)))]
        ++ omit_empty "hash_algo" (JStr (batch_hash_algo r))).
Definition json_of_error (e : Models.ErrorResponse) : json :=
  JObj ([("message"%go, JStr (er_message e))] ++ omit_empty "request_id" (JStr (er_request_id e))
        ++ omit_empty "documentation_url" (JStr (er_documentation_url e))).
Definition json_of_created (r : CreateLockResponse) : json :=
  JObj ([("lock"%go, json_of_lock (created_lock r))] ++ omit_empty "message" (JStr (created_message r))
        ++ omit_empty "request_id" (JStr (created_request_id r))
        ++ omit_empty "documentation_url" (JStr (created_documentation_url r))).
Definition json_of_locks (r : ListLocksResponse) : json :=
  JObj ([("locks"%go, JArr (map json_of_lock (list_locks r)))]
        ++ omit_empty "next_cursor" (JStr (list_next_cursor r))).
Definition json_of_verified (r : VerifyLocksResponse) : json :=
  JObj ([("ours"%go, JArr (map json_of_lock (vl_ours r))); ("theirs"%go, JArr (map json_of_lock (vl_theirs r)))]
        ++ omit_empty "next_cursor" (JStr (vl_next_cursor r))).
Definition json_of_unlocked (r : UnlockResponse) : json :=
  JObj [("lock"%go, json_of_lock (unlocked_lock r))].

(** *** Decoding: absent and [null] members are zero, unknown ones ignored *)

Definition decode_int (v : option json) : option Z :=
  match v with
  | None | Some JNull => Some 0
  | Some (JNum t) => parse_int t
  | _ => None
  end.
Definition decode_bool (v : option json) : option bool :=
  match v with
  | None | Some JNull => Some false
  | Some (JBool b) => Some b
  | _ => None
  end.
Definition decode_list {A} (f : option json → option A) (v : option json) : option (list A) :=
  match v with
  | None | Some JNull => Some []
  | Some (JArr l) => mapM (λ v, f (Some v)) l
  | _ => None
  end.
(** A struct: [null] leaves it zero, which decoding no members does too. *)
Definition decode_struct {A} (f : list (gostring * json) → option A) (v : option json) : option A :=
  match v with
  | None | Some JNull => f []
  | Some (JObj l) => f l
  | _ => None
  end.
Definition decode_ref (v : option json) : option (option Ref) :=
  match v with
  | None | Some JNull => Some None
  | Some (JObj l) => n ← decode_string (member "name" l); Some (Some {| ref_name := n |})
  | _ => None
  end.
Definition decode_object : option json → option Object :=
  decode_struct (λ l, o ← decode_string (member "oid" l); s ← decode_int (member "size" l);
                      Some {| obj_oid := o; obj_size := s |}).
Definition decode_batch_request : option json → option BatchRequest :=
  decode_struct (λ l,
    op ← decode_string (member "operation" l);
    tr ← decode_list decode_string (member "transfers" l);
    rf ← decode_ref (member "ref" l);
    objs ← decode_list decode_object (member "objects" l);
    algo ← decode_string (member "hash_algo" l);
    Some {| req_operation := op; req_transfers := tr; req_ref := rf; req_objects := objs;
            req_hash_algo := algo |}).
Definition decode_verify_request : option json → option VerifyRequest :=
  decode_struct (λ l, o ← decode_string (member "oid" l); s ← decode_int (member "size" l);
                      Some {| ver_oid := o; ver_size := s |}).
Definition decode_create_request : option json → option CreateLockRequest :=
  decode_struct (λ l, p ← decode_string (member "path" l); rf ← decode_ref (member "ref" l);
                      Some {| create_path := p; create_ref := rf |}).
Definition decode_verify_locks_request : option json → option VerifyLocksRequest :=
  decode_struct (λ l, rf ← decode_ref (member "ref" l); c ← decode_string (member "cursor" l);
                      n ← decode_int (member "limit" l);
                      Some {| vl_ref := rf; vl_cursor := c; vl_limit := n |}).
Definition decode_unlock_request : option json → option UnlockRequest :=
  decode_struct (λ l, f ← decode_bool (member "force" l); rf ← decode_ref (member "ref" l);
                      Some {| unlock_force := f; unlock_ref := rf |}).

(** ** Bodies *)

Definition max_request_body_bytes : Z := 1048576.   (** [1 << 20] *)
Definition max_objects_per_batch : nat := 1000.

(** [http.MaxBytesReader]: a longer body ends, with its last byte allowed, in a
    [*http.MaxBytesError]. *)
Definition max_bytes_reader (limit : Z) (rd : reader) : reader :=
  let data := concat (rd_chunks rd) in
  let limit := Z.max limit 0 in
  if Z.of_nat (length data) <=? limit then rd
  else {| rd_chunks := [take (Z.to_nat limit) data]; rd_end := [MaxBytesError]; rd_eager := true |}.

(** [json.UnmarshalRead] of a body under the request limit. *)
Definition unmarshal_read {A} (decode : option json → option A) (early : bool) (rd : reader)
  : result go_error A :=
  let rd := max_bytes_reader max_request_body_bytes rd in
  if negb (rd_eof rd) then Err (if early then [] else rd_end rd)
  else
    match parse_json (concat (rd_chunks rd)) with
    | None => Err []
    | Some v => option_result (decode (Some v)) []
    end.

(** ** Writing responses *)

Definition lfs_media_type : gostring := "application/vnd.git-lfs+json".
Definition documentation_url : gostring := "https://github.com/refringe/anchor-lfs/wiki".

(** [writeJSON] on top of the headers [hdr] already set; [http.Error] sets its own
    content type. *)
Definition write_json (hdr : gmap gostring gostring) (status : Z) (v : json) : Response :=
  if json_valid v then
    {| rs_status := status;
       rs_header := <["Cache-Control"%go := "no-store"%go]> (<["Content-Type"%go := lfs_media_type]> hdr);
       rs_body := JsonBody v |}
  else
    {| rs_status := 500;
       rs_header := <["X-Content-Type-Options"%go := "nosniff"%go]>
         (<["Content-Type"%go := "text/plain; charset=utf-8"%go]> hdr);
       rs_body := TextBody (msg_internal_error ++ [nl]) |}.

(** [writeError], on top of headers, and without any. *)
Definition write_error_with (hdr : gmap gostring gostring) (r : Request) (status : Z) (message : gostring)
  : Response :=
  write_json hdr status (json_of_error
    {| er_message := message; er_request_id := r_request_id r; er_documentation_url := documentation_url |}).
Definition write_error (r : Request) (status : Z) (message : gostring) : Response :=
  write_error_with ∅ r status message.

(** [w.WriteHeader(http.StatusOK)] alone, and [NotFoundHandler]. *)
Definition write_ok : Response := {| rs_status := 200; rs_header := ∅; rs_body := NoBody |}.
Definition not_found_handler (r : Request) : Response :=
  write_error r 404 "no Git LFS endpoint at this path".

(** ** Headers *)

(** [strconv.ParseFloat(s, 64)] succeeds with zero. *)
Class FloatSyntax := { parses_to_zero : gostring → bool }.
Section Headers.
Context {U : Unicode} {I : IpSyntax} {F : FloatSyntax}.

(** [acceptsLFSMediaType] *)
Definition accepts_entry (entry : gostring) : bool :=
  let m := parse_media_type entry in
  md_ok m && negb (parses_to_zero (param_value "q" (md_params m)))
  && (str_eqb (md_type m) lfs_media_type || str_eqb (md_type m) "application/*" || str_eqb (md_type m) "*/*").
Definition accepts_lfs_media_type (accept : gostring) : bool :=
  existsb accepts_entry (split_on ","%char accept).

(** The error of [requireLFSMediaType], if any. *)
Definition require_lfs_media_type (r : Request) : option Response :=
  if negb (accepts_lfs_media_type (r_header r "Accept"))
  then Some (write_error r 406 ("expected Accept: " ++ lfs_media_type))
  else if negb (str_eqb (md_type (parse_media_type (r_header r "Content-Type"))) lfs_media_type)
  then Some (write_error r 415 ("expected Content-Type: " ++ lfs_media_type))
  else None.

(** [isValidLockPath] *)
Definition is_valid_lock_path (path : gostring) : bool :=
  negb (str_eqb path ".") && valid_path path && negb (contains_byte "000"%char path).

(** [isValidForwardedHost] *)
Definition is_valid_forwarded_host (host : gostring) : bool :=
  if str_eqb host [] then false
  else
    match parse_url ("http://" ++ host) with
    | None => false
    | Some u =>
        if str_eqb (u_host u) [] then false
        else if str_eqb (hostname (u_host u)) [] then false
        else
          match split_host_port host with
          | Some (h, p) => negb (str_eqb h []) && negb (str_eqb p [])
          | None => str_eqb (u_host u) host
          end
    end.

(** [requestBaseURL] *)
Definition request_base_url {W} (h : Handler W) (r : Request) : gostring :=
  if negb (str_eqb (h_base_url h) []) then h_base_url h
  else
    let scheme := if r_tls r then "https" else "http" in
    let proto := r_header r "X-Forwarded-Proto" in
    let scheme := if str_eqb proto "http" || str_eqb proto "https" then proto else scheme in
    let fwd := r_header r "X-Forwarded-Host" in
    let host := if is_valid_forwarded_host fwd then fwd else r_host r in
    scheme ++ "://" ++ host.
End Headers.

(** ** Authentication and signatures *)

Section Handlers.
Context {U : Unicode} {I : IpSyntax} {F : FloatSyntax} {W : Type} (h : Handler W).

Local Abbreviation ep := (ep_path (h_endpoint h)).

(** The seconds of a [Retry-After] header: rounded up, at least one. *)
Definition retry_after_seconds (wait : Z) : Z := Z.max 1 (ceil_float (seconds_float wait)).

(** [authenticate]: the Basic credentials, empty when there are none. *)
Definition h_authenticate (r : Request) (op : Operation) (w : W) : result auth_error Result * W :=
  let '(user, pw) := default ([], []) (r_basic_auth r) in
  authenticate_with (h_auth h) (h_endpoint h) user pw op w.

(** [requireCredentials]: the result, or the response already written. *)
Definition require_credentials (r : Request) (op : Operation) (w : W) : result Response Result * W :=
  match h_authenticate r op w with
  | (Err (RateLimitedError wait), w) =>
      (Err (write_error_with {[ "Retry-After"%go := format_int (retry_after_seconds wait) ]} r 429
              "authentication service rate limit exceeded"), w)
  | (Err Unavailable, w) => (Err (write_error r 502 "authentication service unavailable"), w)
  | (Err OtherAuthError, w) => (Err (write_error r 500 msg_internal_error), w)
  | (Ok res, w) =>
      if negb (authenticated res)
      then (Err (write_error_with {[ "LFS-Authenticate"%go :=
                   "Basic realm=" ++ dquoted "Anchor LFS" ]} r 401 "credentials needed"), w)
      else (Ok res, w)
  end.

(** [requireAuthResult] *)
Definition require_auth_result (r : Request) (op : Operation) (w : W) : result Response Result * W :=
  match require_credentials r op w with
  | (Ok res, w) =>
      if negb (authorized res) then (Err (write_error r 403 "insufficient permissions"), w) else (Ok res, w)
  | (Err resp, w) => (Err resp, w)
  end.

(** [requireAuth] *)
Definition require_auth (r : Request) (op : Operation) (w : W) : result Response unit * W :=
  match require_auth_result r op w with (Ok _, w) => (Ok tt, w) | (Err resp, w) => (Err resp, w) end.

(** The error of [requireValidSignature], if any, at time [now]. *)
Definition require_valid_signature (r : Request) (operation : gostring) (now : Z) : option Response :=
  match Signer.verify (h_signer h) now operation (request_base_url h r) (r_request_uri r) with
  | Ok _ => None
  | Err _ => Some (write_error r 403 "invalid or expired URL")
  end.

(** ** Batch *)

(** [hasSpaceFor]: what the uploads need, in saturating [uint64] arithmetic. *)
Definition needed_space (objects : list ObjectResponse) : Z :=
  fold_left (λ needed obj,
    match resp_actions obj !! op_upload with
    | Some _ => needed + Z.min (wrap_uint64 (resp_size obj)) (max_uint64 - needed)
    | None => needed
    end) objects 0.
Definition has_space_for (r : Request) (objects : list ObjectResponse) (w : W) : bool * W :=
  let needed := needed_space objects in
  if needed =? 0 then (true, w)
  else match ad_available_space (h_store h) (r_ctx r) w with
       | (Err _, w) => (true, w)
       | (Ok avail, w) => (needed <=? avail, w)
       end.

(** [BatchHandler], the objects being processed under the schedule [evs];
    [None] for a schedule that does not run the batch to its end. *)
Definition batch_handler (r : Request) (now : Z) (evs : list batch_event) (w : W) : option (Response * W) :=
  if negb (accepts_lfs_media_type (r_header r "Accept"))
  then Some (write_error r 406 ("expected Accept: " ++ lfs_media_type), w)
  else if negb (str_eqb (md_type (parse_media_type (r_header r "Content-Type"))) lfs_media_type)
  then Some (write_error r 415 ("expected Content-Type: " ++ lfs_media_type), w)
  else
    match unmarshal_read decode_batch_request (r_body_early r) (r_body r) with
    | Err e =>
        Some (if errors_is MaxBytesError e then write_error r 413 "request body too large"
              else write_error r 422 "invalid request body", w)
    | Ok req =>
        if (max_objects_per_batch <? length (req_objects req))%nat
        then Some (write_error r 413 ("batch request contains "
               ++ format_int (Z.of_nat (length (req_objects req))) ++ " objects; maximum is "
               ++ format_int (Z.of_nat max_objects_per_batch)), w)
        else if negb (str_eqb (req_operation req) op_download) && negb (str_eqb (req_operation req) op_upload)
        then Some (write_error r 422 "invalid operation", w)
        else if (0 <? length (req_transfers req))%nat
                && negb (existsb (λ t, equal_fold t "basic") (req_transfers req))
        then Some (write_error r 422 "unsupported transfer adapter; only 'basic' is supported", w)
        else
          let op := if str_eqb (req_operation req) op_upload then operation_upload else operation_download in
          match require_credentials r op w with
          | (Err resp, w) => Some (resp, w)
          | (Ok res, w) =>
              if negb (authorized res) then
                Some (if str_eqb op operation_download then write_error r 404 "repository not found"
                      else write_error r 403 "insufficient permissions", w)
              else if negb (str_eqb (req_hash_algo req) []) && negb (str_eqb (req_hash_algo req) hash_algo)
              then Some (write_json ∅ 200 (json_of_batch_response (unsupported_hash_algo (req_objects req))), w)
              else
                match process_batch h req (request_base_url h r) now evs w with
                | None => None
                | Some (resp, w) =>
                    let '(fits, w) := if str_eqb (req_operation req) op_upload
                                      then has_space_for r (batch_objects resp) w else (true, w) in
                    if negb fits
                    then Some (write_error r 507 "insufficient storage for requested uploads", w)
                    else Some (write_json ∅ 200 (json_of_batch_response resp), w)
                end
          end
    end.

(** ** Transfers *)

(** The headers of a download. *)
Definition download_header (oid : gostring) : gmap gostring gostring :=
  <["Content-Type"%go := "application/octet-stream"%go]>
    (<["Cache-Control"%go := "no-store"%go]> {[ "ETag"%go := dquoted oid ]}).

(** Writing an object: [http.ServeContent] when it can be sought in, and a copy of it
    otherwise, which a failure of reading or of writing cuts off after the 200. *)
Definition write_object (r : Request) (tr : transfer) (oid data : gostring) (size : Z) : Response :=
  let hdr := download_header oid in
  let '(status, hdr, body) :=
    if tr_seekable tr then serve_content (r_method r) (r_header r) tr data hdr
    else (200, <["Content-Length"%go := format_int size]> hdr, copy_content (r_method r) tr size data) in
  {| rs_status := status; rs_header := hdr; rs_body := written_body body |}.

(** [DownloadHandler], at time [now]; [tr] is what happens to the transfer. *)
Definition download_handler (r : Request) (now : Z) (tr : transfer) (w : W) : Response * W :=
  let oid := r_path_value r "oid" in
  if negb (is_valid_oid oid) then (not_found_handler r, w)
  else
    match require_valid_signature r op_download now with
    | Some resp => (resp, w)
    | None =>
        match ad_get (h_store h) (r_ctx r) ep oid w with
        | (Err e, w) =>
            (if errors_is NotExist e then write_error r 404 "object not found"
             else write_error r 500 msg_internal_error, w)
        | (Ok (data, size), w) => (write_object r tr oid data size, w)
        end
    end.

(** What an upload's failure is answered with. *)
Definition upload_error (r : Request) (e : go_error) : Response :=
  if errors_is DeadlineExceeded e
  then write_error r 408 ("no upload data received for " ++ duration_string (h_upload_idle_timeout h))
  else if errors_is HashMismatch e then write_error r 400 "SHA-256 hash mismatch"
  else if errors_is InsufficientStorage e then write_error r 507 "insufficient storage"
  else if errors_is MaxBytesError e
  then write_error r 413 ("object exceeds maximum upload size of " ++ format_int (h_max_upload_size h) ++ " bytes")
  else if errors_is ObjectTooLarge e then write_error r 413 "object exceeds the maximum size storage accepts"
  else if (r_body_read r && negb (rd_eof (max_bytes_reader (h_max_upload_size h) (r_body r))))
          || is_some (r_gone r)
  then write_error r 400 "upload interrupted before the object was complete"
  else write_error r 500 msg_internal_error.

(** [UploadHandler], at time [now]; what the idle timeout does to the body is part
    of the body, a read that waits too long ending it with [DeadlineExceeded]. *)
Definition upload_handler (r : Request) (now : Z) (w : W) : Response * W :=
  let oid := r_path_value r "oid" in
  if negb (is_valid_oid oid) then (not_found_handler r, w)
  else
    match require_valid_signature r op_upload now with
    | Some resp => (resp, w)
    | None =>
        if h_max_upload_size h <? r_content_length r
        then (write_error r 413 ("object exceeds maximum upload size of "
                ++ format_int (h_max_upload_size h) ++ " bytes"), w)
        else
          match ad_exists (h_store h) (r_ctx r) ep oid w with
          | (Err _, w) => (write_error r 500 msg_internal_error, w)
          | (Ok true, w) => (write_ok, w)
          | (Ok false, w) =>
              match ad_put (h_store h) (r_ctx r) ep oid
                      (max_bytes_reader (h_max_upload_size h) (r_body r)) (r_content_length r) w with
              | (Err e, w) => (upload_error r e, w)
              | (Ok _, w) => (write_ok, w)
              end
          end
    end.

(** [VerifyHandler] *)
Definition verify_handler (r : Request) (now : Z) (w : W) : Response * W :=
  match require_valid_signature r op_verify now with
  | Some resp => (resp, w)
  | None =>
      if negb (str_eqb (md_type (parse_media_type (r_header r "Content-Type"))) lfs_media_type)
      then (write_error r 415 ("expected Content-Type: " ++ lfs_media_type), w)
      else
        match unmarshal_read decode_verify_request (r_body_early r) (r_body r) with
        | Err _ => (write_error r 422 "invalid request body", w)
        | Ok req =>
            if negb (is_valid_oid (ver_oid req)) then (write_error r 422 "invalid object id", w)
            else
              match ad_size (h_store h) (r_ctx r) ep (ver_oid req) w with
              | (Err e, w) =>
                  (if errors_is NotExist e then write_error r 404 "object not found"
                   else write_error r 500 msg_internal_error, w)
              | (Ok size, w) =>
                  if negb (size =? ver_size req)
                  then (write_error r 422 ("size mismatch: expected " ++ format_int (ver_size req)
                          ++ ", got " ++ format_int size), w)
                  else (write_ok, w)
              end
        end
  end.

(** ** Locks *)

(** [CreateLockHandler] *)
Definition create_lock_handler (r : Request) (w : W) : Response * W :=
  match require_auth_result r operation_upload w with
  | (Err resp, w) => (resp, w)
  | (Ok res, w) =>
      match require_lfs_media_type r with
      | Some resp => (resp, w)
      | None =>
          match unmarshal_read decode_create_request (r_body_early r) (r_body r) with
          | Err _ => (write_error r 422 "invalid request body", w)
          | Ok req =>
              if negb (is_valid_lock_path (create_path req)) then (write_error r 422 "invalid lock path", w)
              else
                match ls_create (h_lock_store h) (r_ctx r) ep (create_path req) (username res) w with
                | ((lock, None), w) =>
                    (write_json ∅ 201 (json_of_created {| created_lock := lock; created_message := [];
                       created_request_id := []; created_documentation_url := [] |}), w)
                | ((lock, Some e), w) =>
                    if errors_is LockExists e
                    then (write_json ∅ 409 (json_of_created {| created_lock := lock;
                            created_message := "already created lock"; created_request_id := r_request_id r;
                            created_documentation_url := documentation_url |}), w)
                    else (write_error r 500 msg_internal_error, w)
                end
          end
      end
  end.

(** The [limit] query parameter: absent, a natural number, or invalid. *)
Definition limit_param (v : gostring) : option Z :=
  match v with
  | [] => Some 0
  | _ => match parse_int v with Some n => if n <? 0 then None else Some n | None => None end
  end.

(** The response to a failed [List]. *)
Definition list_error (r : Request) (e : go_error) : Response :=
  if errors_is InvalidLockCursor e then write_error r 422 "invalid cursor"
  else write_error r 500 msg_internal_error.

(** [ListLocksHandler] *)
Definition list_locks_handler (r : Request) (w : W) : Response * W :=
  match require_auth r operation_download w with
  | (Err resp, w) => (resp, w)
  | (Ok _, w) =>
      if negb (accepts_lfs_media_type (r_header r "Accept"))
      then (write_error r 406 ("expected Accept: " ++ lfs_media_type), w)
      else
        let query := fst (parse_query (r_raw_query r)) in
        match limit_param (query_get "limit" query) with
        | None => (write_error r 422 "invalid limit parameter", w)
        | Some limit =>
            match ls_list (h_lock_store h) (r_ctx r) ep
                    {| opt_path := query_get "path" query; opt_id := query_get "id" query;
                       opt_cursor := query_get "cursor" query; opt_limit := limit;
                       opt_refspec := query_get "refspec" query |} w with
            | (Err e, w) => (list_error r e, w)
            | (Ok (locks, next), w) =>
                (write_json ∅ 200 (json_of_locks {| list_locks := locks; list_next_cursor := next |}), w)
            end
        end
  end.

(** The locks of the caller, and those of others. *)
Definition is_ours (user : gostring) (l : Lock) : bool := equal_fold (owner_name (lock_owner l)) user.
Definition split_locks (user : gostring) (locks : list Lock) : list Lock * list Lock :=
  (List.filter (is_ours user) locks, List.filter (λ l, negb (is_ours user l)) locks).

(** [VerifyLocksHandler] *)
Definition verify_locks_handler (r : Request) (w : W) : Response * W :=
  match require_auth_result r operation_upload w with
  | (Err resp, w) => (resp, w)
  | (Ok res, w) =>
      match require_lfs_media_type r with
      | Some resp => (resp, w)
      | None =>
          match unmarshal_read decode_verify_locks_request (r_body_early r) (r_body r) with
          | Err _ => (write_error r 422 "invalid request body", w)
          | Ok req =>
              match ls_list (h_lock_store h) (r_ctx r) ep
                      {| opt_path := []; opt_id := []; opt_cursor := vl_cursor req;
                         opt_limit := vl_limit req; opt_refspec := [] |} w with
              | (Err e, w) => (list_error r e, w)
              | (Ok (locks, next), w) =>
                  let '(ours, theirs) := split_locks (username res) locks in
                  (write_json ∅ 200 (json_of_verified {| vl_ours := ours; vl_theirs := theirs;
                                                       vl_next_cursor := next |}), w)
              end
          end
      end
  end.

(** [UnlockHandler] *)
Definition unlock_handler (r : Request) (w : W) : Response * W :=
  match require_auth_result r operation_upload w with
  | (Err resp, w) => (resp, w)
  | (Ok res, w) =>
      match require_lfs_media_type r with
      | Some resp => (resp, w)
      | None =>
          match unmarshal_read decode_unlock_request (r_body_early r) (r_body r) with
          | Err _ => (write_error r 422 "invalid request body", w)
          | Ok req =>
              let id := r_path_value r "id" in
              if str_eqb id [] then (write_error r 422 "missing lock id", w)
              else
                match ls_unlock (h_lock_store h) (r_ctx r) ep id (username res)
                        (unlock_force req && maintainer res) w with
                | (Ok lock, w) => (write_json ∅ 200 (json_of_unlocked {| unlocked_lock := lock |}), w)
                | (Err e, w) =>
                    (if errors_is LockNotFound e then write_error r 404 "lock not found"
                     else if errors_is LockNotOwner e && unlock_force req
                     then write_error r 403 "forcing an unlock of another user's lock requires the maintain or admin permission"
                     else if errors_is LockNotOwner e
                     then write_error r 403 "lock is owned by another user"
                     else write_error r 500 msg_internal_error, w)
                end
          end
      end
  end.
End Handlers.
