(* ===== verification/Middleware.v ===== *)
(** * middleware: proxy trust, request IDs and rate limiting

    A handler takes a request, the response headers set so far and the world to a
    response and the new world, or to nothing while it has not answered; each middleware is a function from handlers to
    handlers, composed as main.go's [serverHandler] does.  The real-IP library and
    the rate limiter's store are parameters. *)

From S2P Require Import Prelude GoStrings GoUnicode GoRegexp GoConv GoTime GoUrl GoMime GoNet GoOs GoJson Storage Models Config Auth Batch Handler.

Local Open Scope go_scope.

(** ** Requests and headers *)

(** [http.Header]: values by canonical key. *)
Abbreviation header := (gmap gostring (list gostring)).

(** [textproto.CanonicalMIMEHeaderKey] of a valid key: letters in lower case but
    for the first of each hyphenated part. *)
Fixpoint canonical_from (up : bool) (s : gostring) : gostring :=
  match s with
  | [] => []
  | c :: s =>
      (if up && is_lower c then byte_of (byte_val c - 32)
       else if negb up && is_upper c then lower_byte c else c)
      :: canonical_from (Ascii.eqb c "-"%char) s
  end.
Definition canonical_key (s : gostring) : gostring := canonical_from true s.

Example canonical_request_id : canonical_key "X-Request-ID" = "X-Request-Id".
Proof. reflexivity. Qed.

Definition header_values (k : gostring) (h : header) : list gostring := default [] (h !! canonical_key k).
Definition header_get (k : gostring) (h : header) : gostring := default [] (head (header_values k h)).
Definition header_del (k : gostring) (h : header) : header := delete (canonical_key k) h.

(** A request on its way in: what the middlewares look at, and what they add to
    its context. *)
Record incoming := {
  in_header : header;
  in_remote_addr : gostring;
  in_ctx : ctx;
  in_client_ip : option gostring;
  in_request_id : gostring
}.

Definition http_handler (W : Type) : Type := incoming → gmap gostring gostring → W → option (Response * W).

(** ** requestid.go *)

Definition request_id_header : gostring := "X-Request-ID".

(** [validRequestID] *)
Definition id_byte (c : ascii) : bool := is_alnum c || contains_byte c "._-".
Definition valid_request_id : regexp := RSeq (RClass id_byte) (RUpTo 127 (RClass id_byte)).

(** [generateRequestID], from eight random bytes. *)
Definition generate_request_id (random : gostring) : gostring := hex_encode random.

(** [RequestID] *)
Definition request_id {W} (random : gostring) (next : http_handler W) : http_handler W := λ r hdr w,
  let id := header_get request_id_header (in_header r) in
  let id := if re_match valid_request_id id then id else generate_request_id random in
  next {| in_header := in_header r; in_remote_addr := in_remote_addr r; in_ctx := in_ctx r;
          in_client_ip := in_client_ip r; in_request_id := id |}
       (<[canonical_key request_id_header := id]> hdr) w.

(** [RequestIDFrom] *)
Definition request_id_from (r : incoming) : gostring := in_request_id r.

(** ** proxy.go *)

(** The real-IP library, and the addresses of package [net] it returns. *)
Class RealClientIp := {
  ip_addr : Type;
  ip_net : Type;
  parse_ip_addr : gostring → option ip_addr;
  addr_string : ip_addr → gostring;
  is_unspecified : ip_addr → bool;
  net_contains : ip_net → ip_addr → bool;
  addresses_and_ranges : list gostring → option (list ip_net);
  strategy_ok : list ip_net → bool;
  rightmost_trusted : list ip_net → header → gostring → gostring;
  remote_addr_ip : gostring → gostring
}.

Section Proxy.
Context {R : RealClientIp}.

Definition proxy_headers : list gostring :=
  ["X-Forwarded-For"; "X-Forwarded-Host"; "X-Forwarded-Proto"; request_id_header]%go.

(** [ProxyTrust]; its strategy is the library's for [trusted]. *)
Record ProxyTrust := { trusted : list ip_net }.

(** [NewProxyTrust] *)
Definition new_proxy_trust (proxies : list gostring) : option ProxyTrust :=
  nets ← addresses_and_ranges proxies;
  if strategy_ok nets then Some {| trusted := nets |} else None.

(** [trustsIP] and [trusts] *)
Definition trusts_ip (p : ProxyTrust) (ip : ip_addr) : bool := existsb (λ n, net_contains n ip) (trusted p).
Definition trusts (p : ProxyTrust) (ip : gostring) : bool :=
  match parse_ip_addr ip with Some a => trusts_ip p a | None => false end.

(** [leftmostIfAllTrusted]: the loops over the values and their items; [None] is
    the early return. *)
Fixpoint leftmost_items (p : ProxyTrust) (items : list gostring) (leftmost : gostring) : option gostring :=
  match items with
  | [] => Some leftmost
  | item :: items =>
      match parse_ip_addr (trim_space item) with
      | None => None
      | Some a =>
          if is_unspecified a || negb (trusts_ip p a) then None
          else leftmost_items p items (if str_eqb leftmost [] then addr_string a else leftmost)
      end
  end.
Definition leftmost_if_all_trusted (p : ProxyTrust) (h : header) : gostring :=
  default [] (leftmost_items p (flat_map (split_on ","%char) (header_values "X-Forwarded-For" h)) []).

(** [peerIP] *)
Definition peer_ip (r : incoming) : gostring := remote_addr_ip (in_remote_addr r).

(** [ProxyTrust.Handler] *)
Definition proxy_handler {W} (p : ProxyTrust) (next : http_handler W) : http_handler W := λ r hdr w,
  let ip := peer_ip r in
  let '(h, ip) :=
    if trusts p ip then
      let forwarded := rightmost_trusted (trusted p) (in_header r) (in_remote_addr r) in
      if negb (str_eqb forwarded []) then (in_header r, forwarded)
      else
        let leftmost := leftmost_if_all_trusted p (in_header r) in
        (in_header r, if negb (str_eqb leftmost []) then leftmost else ip)
    else (fold_left (λ h name, header_del name h) proxy_headers (in_header r), ip) in
  next {| in_header := h; in_remote_addr := in_remote_addr r; in_ctx := in_ctx r;
          in_client_ip := Some ip; in_request_id := in_request_id r |} hdr w.

(** [ClientIP] *)
Definition client_ip (r : incoming) : gostring :=
  match in_client_ip r with
  | Some ((_ :: _) as ip) => ip
  | _ => match peer_ip r with [] => in_remote_addr r | ip => ip end
  end.

(** ** ratelimit.go *)

Definition max_reset_nanos : Z := 4611686018427387904.   (** [1 << 62] *)

(** [int(retryAfter.Seconds())], [now] being the time of [time.Until]. *)
Definition limit_retry_after (now reset : Z) : Z :=
  duration_seconds (Z.max (saturate (Z.min (wrap_int64 reset) max_reset_nanos - now)) second).

(** [RateLimit]; [take] is the store's [Take] for a client, which returns when its
    tokens are reset and whether it had one left. *)
Definition rate_limit {W} (take : ctx → gostring → W → out W (Z * bool)) (now : Z) (next : http_handler W)
  : http_handler W := λ r hdr w,
  match take (in_ctx r) (client_ip r) w with
  | (Err _, w) => next r hdr w
  | (Ok (reset, ok), w) =>
      if ok then next r hdr w
      else
        Some ({| rs_status := 429;
            rs_header := <["Retry-After"%go := format_int (limit_retry_after now reset)]>
              (<["Content-Type"%go := "application/vnd.git-lfs+json"%go]> hdr);
            rs_body := JsonBody (JObj [("message"%go, JStr "rate limit exceeded");
              ("request_id"%go, JStr (request_id_from r));
              ("documentation_url"%go, JStr "https://github.com/refringe/anchor-lfs/wiki")]) |}, w)
  end.

(** [serverHandler], without metrics and the access log. *)
Definition server_handler {W} (p : ProxyTrust) (random : gostring) (mux : http_handler W) : http_handler W :=
  proxy_handler p (request_id random mux).
End Proxy.

(** ** What the handlers behind the middlewares see *)

Section Properties.
Context {U : Unicode} {I : IpSyntax} {F : FloatSyntax} {R : RealClientIp}.

Lemma header_del_get (k name : gostring) (h : header) : canonical_key name = canonical_key k → header_get k (header_del name h) = [].
Proof. intros E. unfold header_get, header_values, header_del. by rewrite E, lookup_delete_eq. Qed.

Lemma header_del_absent (k name : gostring) (h : header) : header_get k h = [] → header_get k (header_del name h) = [].
Proof.
  unfold header_get, header_values, header_del. intros H.
  destruct (decide (canonical_key name = canonical_key k)) as [->|Hne]; [by rewrite lookup_delete_eq|].
  by rewrite lookup_delete_ne.
Qed.

Lemma header_del_all (names : list gostring) (k : gostring) (h : header) : k ∈ names →
  header_get k (fold_left (λ h name, header_del name h) names h) = [].
Proof.
  assert (∀ (names : list gostring) (h : header), header_get k h = [] →
    header_get k (fold_left (λ h name, header_del name h) names h) = []) as Habs.
  { clear. induction names as [|n names IH]; intros h H; [done|]. cbn [fold_left].
    apply IH. by apply header_del_absent. }
  revert h. induction names as [|n names IH]; intros h Hin; [by apply elem_of_nil in Hin|].
  cbn [fold_left]. apply elem_of_cons in Hin as [->|Hin]; [|by apply IH].
  apply Habs. by apply header_del_get.
Qed.

(** An identifier of [RequestID]: 1 to 128 letters, digits, dots, underscores and
    hyphens. *)
Definition safe_id (id : gostring) : Prop :=
  (1 <= length id <= 128)%nat ∧ Forall (λ c, id_byte c = true) id.

Lemma valid_request_id_safe_iff id : re_match valid_request_id id = true ↔ safe_id id.
Proof.
  rewrite re_match_lang. unfold valid_request_id. rewrite lang_seq_inv. setoid_rewrite lang_class_inv.
  setoid_rewrite lang_upto_class. split.
  - intros (? & s & -> & (c & -> & Hc) & Hl & Hs). split; [simpl; lia|]. by constructor.
  - intros [Hl Hs]. destruct id as [|c s]; [simpl in Hl; lia|]. apply Forall_cons in Hs as [Hc Hs].
    exists [c], s. split; [done|]. split; [eauto|]. simpl in Hl. split; [lia|done].
Qed.
Lemma valid_request_id_safe id : re_match valid_request_id id = true → safe_id id.
Proof. apply valid_request_id_safe_iff. Qed.

Lemma generated_id_safe random : length random = 8%nat → safe_id (generate_request_id random).
Proof.
  intros H. unfold generate_request_id. split.
  - rewrite hex_encode_length, H. lia.
  - apply hex_encode_Forall. intros d Hd.
    exact (forall_below (λ d, id_byte (hex_digit d)) 16 eq_refl d Hd).
Qed.

(** The base URL of a request without forwarding headers. *)
Lemma base_url_direct {W} (h : Handler W) q : h_base_url h = [] →
  r_header q "X-Forwarded-Proto" = [] → r_header q "X-Forwarded-Host" = [] →
  request_base_url h q = (if r_tls q then "https" else "http") ++ "://" ++ r_host q.
Proof. intros Hb Hp Hh. unfold request_base_url. by rewrite Hb, Hp, Hh. Qed.

Lemma proxy_request {W} p (next : http_handler W) r hdr w : ∃ h ip,
  proxy_handler p next r hdr w
  = next {| in_header := h; in_remote_addr := in_remote_addr r; in_ctx := in_ctx r;
            in_client_ip := Some ip; in_request_id := in_request_id r |} hdr w
  ∧ (trusts p (peer_ip r) = true → h = in_header r)
  ∧ (trusts p (peer_ip r) = false → ip = peer_ip r ∧ ∀ k, k ∈ proxy_headers → header_get k h = []).
Proof.
  unfold proxy_handler. cbv zeta. destruct (trusts p (peer_ip r)).
  - destruct (negb _); eexists _, _; (split; [reflexivity|]); done.
  - eexists _, _. split; [reflexivity|]. split; [done|]. intros _. split; [done|].
    intros k Hk. by apply header_del_all.
Qed.

(** C23. What the middlewares guarantee to the handlers behind them. Every request has
    an identifier that is safe to repeat in headers and logs, which is also the
    response's, and a trusted peer's own when it is safe. A request from a peer
    that is no trusted proxy comes without any forwarding header and without an
    identifier of the client's choice, its client address is the connection's, and
    without a configured base URL the URLs made for it are of its own scheme and
    host. The rate limiter lets a request through when it has a token or cannot
    tell, and otherwise answers 429 itself, asking for a wait of at least a
    second, in whole seconds. *)
Theorem middlewares_guard {W} p random (next : http_handler W) r hdr w take now :
  length random = 8%nat →
  (∃ r', server_handler p random next r hdr w
           = next r' (<["X-Request-Id"%go := in_request_id r']> hdr) w
     ∧ safe_id (in_request_id r')
     ∧ (trusts p (peer_ip r) = true → in_header r' = in_header r
          ∧ (safe_id (header_get request_id_header (in_header r)) →
             in_request_id r' = header_get request_id_header (in_header r)))
     ∧ (trusts p (peer_ip r) = false →
          (∀ k, k ∈ proxy_headers → header_get k (in_header r') = [])
          ∧ in_request_id r' = generate_request_id random
          ∧ client_ip r' = match peer_ip r with [] => in_remote_addr r | ip => ip end
          ∧ ∀ (h : Handler W) q, h_base_url h = [] → (∀ k, r_header q k = header_get k (in_header r')) →
              request_base_url h q = (if r_tls q then "https" else "http") ++ "://" ++ r_host q))
  ∧ match take (in_ctx r) (client_ip r) w with
    | (Ok (reset, false), w1) =>
        ∃ resp, rate_limit take now next r hdr w = Some (resp, w1)
        ∧ rs_status resp = 429
        ∧ ∃ wait, second <= wait <= max_int64
            ∧ rs_header resp !! "Retry-After"%go = Some (format_int (duration_seconds wait))
    | (_, w1) => rate_limit take now next r hdr w = next r hdr w1
    end.
Proof.
  intros Hrandom. split.
  - unfold server_handler.
    destruct (proxy_request p (request_id random next) r hdr w) as (h & ip & -> & Ht & Hu).
    unfold request_id. cbv zeta. cbn [in_header in_remote_addr in_ctx in_client_ip].
    set (id := header_get request_id_header h).
    match goal with |- ∃ r', next ?x _ _ = _ ∧ _ => exists x end.
    split; [reflexivity|]. cbn [in_header in_remote_addr in_client_ip in_request_id].
    split; [|split].
    + destruct (re_match valid_request_id id) eqn:E; [by apply valid_request_id_safe|by apply generated_id_safe].
    + intros Htr. specialize (Ht Htr). subst h. split; [done|]. intros Hid.
      by rewrite (proj2 (valid_request_id_safe_iff id) Hid).
    + intros Hno. destruct (Hu Hno) as [-> Hgone]. split; [done|].
      assert (id = []) as -> by (apply Hgone; unfold proxy_headers; set_solver).
      split; [done|]. split.
      { unfold client_ip, peer_ip. cbn [in_client_ip in_remote_addr].
        by destruct (remote_addr_ip (in_remote_addr r)). }
      intros hd q Hb Hq. apply base_url_direct; [done|..];
        rewrite Hq; apply Hgone; unfold proxy_headers; set_solver.
  - unfold rate_limit. destruct (take _ _ w) as [[[reset ok]|e] w1]; [|done].
    destruct ok; [done|]. eexists. split; [reflexivity|]. split; [done|]. eexists. split; [|apply lookup_insert_eq].
    unfold saturate, second, max_int64, min_int64. lia.
Qed.
End Properties.
