(* ===== verification/HandlerProofs.v ===== *)
(** * lfs/handler.go: what the handlers guarantee

    Theorems about the handlers of Handler.v against the interfaces of their
    collaborators: a storage backend that keeps [AdapterLaws], a lock store that
    keeps [LockLaws], and an authenticator, which keeps what [AuthKeeps] says. *)

From S2P Require Import Prelude GoStrings GoUnicode GoPath GoConv GoHash GoTime GoUrl GoMime GoNet GoOs GoJson GoServe Sanitise Storage Signer Models LockSet Config Auth Batch Handler.

Local Open Scope go_scope.

(** ** Interfaces *)

(** Authenticating relates the world before to the world after as [P] says. *)
Class AuthKeeps {W} (a : Authenticator W) (P : W → W → Prop) : Prop :=
  auth_keeps ep user pw op w r w' : authenticate_with a ep user pw op w = (r, w') → P w w'.

(** [None] changes nothing. *)
#[export] Instance none_keeps {W} (P : W → W → Prop) {R : Reflexive P} :
  AuthKeeps {| authenticate_with := none_authenticate |} P.
Proof. by intros ep user pw op w r w' [= _ <-]. Qed.

(** The objects stay, and with them the backend's invariant. *)
Definition keeps_objects {W} (objects : object_store W) (valid : W → Prop) (w w' : W) : Prop :=
  valid w → valid w' ∧ same_objects objects w w'.

#[export] Instance keeps_objects_preorder {W} (objects : object_store W) valid :
  PreOrder (keeps_objects objects valid).
Proof.
  split; [by intros w Hv|]. intros w1 w2 w3 H1 H2 Hv.
  destruct (H1 Hv) as [Hv2 Hs1]. destruct (H2 Hv2) as [Hv3 Hs2]. split; [done|].
  by eapply same_objects_trans.
Qed.

(** ** Responses *)

Lemma write_json_status hdr s v : s ≠ 200 → rs_status (write_json hdr s v) ≠ 200.
Proof. unfold write_json. by destruct (json_valid v). Qed.

(** A response has the status asked for, or is a 500. *)
Lemma write_json_cases hdr s v : rs_status (write_json hdr s v) = s
    ∧ rs_body (write_json hdr s v) = JsonBody v
  ∨ rs_status (write_json hdr s v) = 500.
Proof. unfold write_json. destruct (json_valid v); auto. Qed.
Lemma write_error_cases r s m : rs_status (write_error r s m) = s ∨ rs_status (write_error r s m) = 500.
Proof. unfold write_error, write_error_with. edestruct write_json_cases as [[H _]|H]; eauto. Qed.

(** The statuses of a request that is not let through. *)
Definition refused (resp : Response) : Prop :=
  rs_status resp ∈ [400; 401; 403; 404; 406; 408; 413; 415; 422; 429; 500; 502; 507].

Lemma refused_error r s m : s ∈ [400; 401; 403; 404; 406; 408; 413; 415; 422; 429; 500; 502; 507] →
  refused (write_error r s m).
Proof. unfold refused. destruct (write_error_cases r s m) as [->| ->]; set_solver. Qed.
Lemma refused_not resp s : refused resp → s ∉ [400; 401; 403; 404; 406; 408; 413; 415; 422; 429; 500; 502; 507] →
  rs_status resp ≠ s.
Proof. unfold refused. intros H Hs <-. done. Qed.

Lemma refused_not_ok resp : refused resp → rs_status resp ≠ 200.
Proof. intros H. apply refused_not; [done|set_solver]. Qed.
Lemma refused_not_created resp : refused resp → rs_status resp ≠ 201 ∧ rs_status resp ≠ 409.
Proof. intros H. split; (apply refused_not; [done|set_solver]). Qed.

Ltac refused_tac := apply refused_error; apply (bool_decide_unpack (_ ∈ _)); exact I.

Lemma write_json_ok hdr v : rs_status (write_json hdr 200 v) = 200 → rs_body (write_json hdr 200 v) = JsonBody v.
Proof. unfold write_json. by destruct (json_valid v). Qed.

Lemma write_error_not_ok r s m : s ≠ 200 → rs_status (write_error r s m) ≠ 200.
Proof. apply write_json_status. Qed.

Lemma not_found_not_ok r : rs_status (not_found_handler r) ≠ 200.
Proof. unfold not_found_handler. by apply write_error_not_ok. Qed.

#[local] Opaque write_json write_error not_found_handler.

#[export] Hint Resolve write_error_not_ok not_found_not_ok : go.

(** Closes a branch that answered with an error. *)
Ltac error_answer :=
  match goal with
  | H : rs_status (write_error ?r ?s ?m) = 200 |- _ =>
      by destruct (write_error_not_ok r s m)
  | H : rs_status (write_json ?h ?s ?v) = 200 |- _ =>
      by destruct (write_json_status h s v)
  end.

(** ** Authentication *)

Section Credentials.
Context {U : Unicode} {I : IpSyntax} {F : FloatSyntax} {W : Type} (h : Handler W).
Context (P : W → W → Prop) {A : AuthKeeps (h_auth h) P}.

Lemma h_authenticate_keeps r op w x w' : h_authenticate h r op w = (x, w') → P w w'.
Proof.
  unfold h_authenticate. destruct (default _ _) as [user pw]. intros H. by eapply auth_keeps.
Qed.

(** [requireCredentials] lets only an authenticated request through, and answers
    every other one with an error. *)
Lemma require_credentials_spec r op w x w' : require_credentials h r op w = (x, w') →
  P w w'
  ∧ match x with
    | Ok res => h_authenticate h r op w = (Ok res, w') ∧ authenticated res = true
    | Err resp => refused resp
    end.
Proof.
  unfold require_credentials. intros H.
  destruct (h_authenticate h r op w) as [a w1] eqn:E. pose proof (h_authenticate_keeps _ _ _ _ _ E).
  destruct a as [res|[|wait|]].
  1: destruct (authenticated res) eqn:Ea; injection H as <- <-; (split; [done|]); [done|].
  2-4: injection H as <- <-; split; [done|].
  all: first [refused_tac|unfold refused, write_error_with; edestruct write_json_cases as [[-> _]| ->]; set_solver].
Qed.

Lemma require_auth_result_spec r op w x w' : require_auth_result h r op w = (x, w') →
  P w w'
  ∧ match x with
    | Ok res => h_authenticate h r op w = (Ok res, w') ∧ authenticated res = true ∧ authorized res = true
    | Err resp => refused resp
    end.
Proof.
  unfold require_auth_result. intros H. destruct (require_credentials h r op w) as [a w1] eqn:E.
  apply require_credentials_spec in E as [HP Ha]. destruct a as [res|resp].
  - destruct (authorized res) eqn:Eo; injection H as <- <-; (split; [done|]).
    + by destruct Ha.
    + refused_tac.
  - by injection H as <- <-.
Qed.
End Credentials.

(** ** Transfers *)

Section Transfers.
Context {U : Unicode} {I : IpSyntax} {F : FloatSyntax} {W : Type} (h : Handler W).
Context (objects : object_store W) (valid : W → Prop) {L : AdapterLaws (h_store h) objects valid}.

Local Abbreviation dir := (endpoint (ep_path (h_endpoint h))).

(** The upload limit never lets more bytes through than it allows. *)
Lemma max_bytes_reader_data limit rd : 0 <= limit →
  concat (rd_chunks (max_bytes_reader limit rd)) `prefix_of` concat (rd_chunks rd)
  ∧ Z.of_nat (length (concat (rd_chunks (max_bytes_reader limit rd)))) <= limit.
Proof.
  intros Hl. unfold max_bytes_reader. rewrite Z.max_l by done.
  destruct (Z.leb_spec (Z.of_nat (length (concat (rd_chunks rd)))) limit) as [H|H]; [done|].
  cbn [rd_chunks concat]. rewrite app_nil_r. split; [apply prefix_take|].
  rewrite length_take. lia.
Qed.

Lemma upload_error_not_ok r e : rs_status (upload_error h r e) ≠ 200.
Proof.
  unfold upload_error. repeat case_match; by apply write_error_not_ok.
Qed.

Lemma require_valid_signature_spec r op now :
  match require_valid_signature h r op now with
  | None => Signer.verify (h_signer h) now op (request_base_url h r) (r_request_uri r) = Ok tt
  | Some resp => rs_status resp ≠ 200
  end.
Proof.
  unfold require_valid_signature. destruct (Signer.verify _ _ _ _ _) as [[]|e] eqn:E; [done|].
  by apply write_error_not_ok.
Qed.

(** The request may upload the object it names. *)
Definition upload_permitted (r : Request) (now : Z) : Prop :=
  is_valid_oid (r_path_value r "oid") = true
  ∧ Signer.verify (h_signer h) now op_upload (request_base_url h r) (r_request_uri r) = Ok tt
  ∧ r_content_length r <= h_max_upload_size h.

(** The object the request names was stored: bytes of its body, under their hash,
    no more than the limit. *)
Definition upload_stores (r : Request) (w w' : W) : Prop :=
  ∃ o data, normalise_oid (r_path_value r "oid") = Ok o ∧ content_oid data = o
    ∧ objects w dir o = None ∧ stored_object objects dir o data w w'.

Lemma upload_handler_cases r now w resp w' : valid w → upload_handler h r now w = (resp, w') →
  valid w'
  ∧ (rs_status resp ≠ 200 ∧ same_objects objects w w'
     ∨ rs_status resp ≠ 200 ∧ upload_permitted r now ∧ upload_stores r w w'
     ∨ upload_permitted r now ∧ ∃ o, normalise_oid (r_path_value r "oid") = Ok o
         ∧ (is_Some (objects w dir o) ∧ same_objects objects w w'
            ∨ ∃ data, content_oid data = o ∧ objects w dir o = None
                ∧ data `prefix_of` concat (rd_chunks (max_bytes_reader (h_max_upload_size h) (r_body r)))
                ∧ stored_object objects dir o data w w')).
Proof.
  intros Hv H. unfold upload_handler in H. unfold upload_permitted.
  destruct (is_valid_oid _) eqn:Eo; cbn [negb] in H.
  2: { injection H as <- <-. split; [done|]. left. split; [apply not_found_not_ok|done]. }
  pose proof (require_valid_signature_spec r op_upload now) as Hs.
  destruct (require_valid_signature h r op_upload now) as [e|].
  { injection H as <- <-. split; [done|]. by left. }
  destruct (Z.ltb_spec (h_max_upload_size h) (r_content_length r)) as [Hm|Hm].
  { injection H as <- <-. split; [done|]. left. split; [by apply write_error_not_ok|done]. }
  destruct (ad_exists _ _ _ _ w) as [[ex|e] w1] eqn:Ee; pose proof Ee as (Hv1 & Hs1 & Hx)%exists_law; try done.
  2: { injection H as <- <-. split; [done|]. left. split; [by apply write_error_not_ok|done]. }
  destruct (Hx ex eq_refl) as (o & Ho & Hex). destruct ex.
  { injection H as <- <-. split; [done|]. right. right. split; [done|]. exists o. split; [done|].
    left. split; [by apply Hex|done]. }
  assert (objects w dir o = None) as Hnone.
  { destruct (objects w dir o) eqn:Eobj; [|done]. assert (false = true) as [=] by (by apply Hex). }
  assert (∀ data w2, stored_object objects dir o data w1 w2 → stored_object objects dir o data w w2) as Hst.
  { intros data w2 [H1 H2]. split; [done|]. intros d' o' Hd Ho' Hne. by rewrite H2, Hs1. }
  destruct (ad_put _ _ _ _ _ _ w1) as [[[]|e] w2] eqn:Ep; pose proof Ep as (Hv2 & Hp)%put_law; try done;
    injection H as <- <-; (split; [done|]).
  - right. right. split; [done|]. destruct Hp as (o2 & data & Ho2 & Hc & Hpre & Hd).
    rewrite Ho in Ho2. injection Ho2 as <-. exists o. split; [done|]. right. exists data.
    split; [done|]. split; [done|]. split; [done|]. by apply Hst.
  - destruct Hp as [Hp|(o2 & data & Ho2 & Hc & Hd)].
    + left. split; [apply upload_error_not_ok|]. by eapply same_objects_trans.
    + right. left. split; [apply upload_error_not_ok|]. split; [done|].
      rewrite Ho in Ho2. injection Ho2 as <-. exists o, data. do 3 (split; [done|]). by apply Hst.
Qed.

(** C5. Uploads, whatever the request and whatever the backend reports. The store
    changes only for a request whose URL carries a valid signature for an upload,
    names an object ID and announces no more than the maximum size, and then by
    at most one object that was not there, of the handler's own endpoint and
    stored under its own hash. After a 200 the object is stored under its ID with the right content;
    what a 200 newly stored is a part of the body no longer than the limit. *)
Theorem upload_handler_safe r now w resp w' :
  0 <= h_max_upload_size h → valid w → content_addressed objects w →
  upload_handler h r now w = (resp, w') →
  content_addressed objects w'
  ∧ (same_objects objects w w' ∨ upload_permitted r now ∧ upload_stores r w w')
  ∧ (rs_status resp = 200 → upload_permitted r now ∧ ∃ o data,
       normalise_oid (r_path_value r "oid") = Ok o ∧ content_oid data = o
       ∧ objects w' dir o = Some data
       ∧ (objects w dir o = None → data `prefix_of` concat (rd_chunks (r_body r))
            ∧ Z.of_nat (length data) <= h_max_upload_size h)).
Proof.
  intros Hmax Hv Hc H. destruct (upload_handler_cases r now w resp w' Hv H) as (Hv' & Hcases).
  assert (∀ o data, content_oid data = o → stored_object objects dir o data w w' →
    content_addressed objects w') as Hstored.
  { intros o data Hoid [Hst Hother] d' o' data' Hd Ho Hobj.
    destruct (decide ((d', o') = (dir, o))) as [[= -> ->]|Hne].
    - rewrite Hst in Hobj. by injection Hobj as <-.
    - rewrite Hother in Hobj by done. eauto. }
  destruct Hcases as [[Hno Hs]|[(Hno & Hp & (o & data & Ho & Hd & Hnew & Hst))|(Hp & o & Ho & Hcase)]].
  - split; [by eapply same_objects_addressed|]. split; [by left|done].
  - split; [by eapply Hstored|]. split; [|done]. right. split; [done|]. by exists o, data.
  - destruct Hcase as [[[data Hex] Hs]|(data & Hd & Hnew & Hpre & Hst)].
    + split; [by eapply same_objects_addressed|]. split; [by left|]. intros _. split; [done|].
      pose proof (normalise_oid_normal _ _ Ho) as Hn. exists o, data.
      rewrite Hs by (done || apply endpoint_safe_name). rewrite Hex.
      split; [done|]. split; [|done]. eapply Hc; [apply endpoint_safe_name|done|done].
    + split; [by eapply Hstored|]. split; [right; split; [done|]; by exists o, data|].
      intros _. split; [done|]. exists o, data. split; [done|]. split; [done|]. split; [apply Hst|].
      intros _. destruct (max_bytes_reader_data (h_max_upload_size h) (r_body r) Hmax) as [P1 P2].
      split; [by etrans|]. apply prefix_length in Hpre. lia.
Qed.

(** The answer of a download that found its object [data]: its status, headers and
    body are those of an answer about that content, with the object's ID as entity tag
    unless it is an error. *)
Definition object_answer r tr data (resp : Response) : Prop :=
  ∃ body, rs_body resp = written_body body
    ∧ content_answer (r_method r) (r_header r) tr data (download_header (r_path_value r "oid"))
        (rs_status resp) (rs_header resp) body
    ∧ (rs_status resp ∉ [416; 500] →
       rs_header resp !! "ETag"%go = Some (dquoted (r_path_value r "oid"))
       ∧ rs_header resp !! "Cache-Control"%go = Some "no-store"%go).

Lemma write_object_answer r tr data :
  object_answer r tr data (write_object r tr (r_path_value r "oid") data (Z.of_nat (length data))).
Proof.
  unfold object_answer, write_object. cbv zeta. set (hdr := download_header _).
  assert (hdr !! "ETag"%go = Some (dquoted (r_path_value r "oid"))
    ∧ hdr !! "Cache-Control"%go = Some "no-store"%go) as [He Hc].
  { unfold hdr, download_header. split; [by rewrite !lookup_insert_ne, lookup_singleton_eq by done|].
    by rewrite lookup_insert_ne, lookup_insert_eq by done. }
  destruct (tr_seekable tr).
  - destruct (serve_content _ _ _ _ _) as [[status hdr'] body] eqn:E. cbn [rs_status rs_header rs_body].
    exists body. split; [done|]. split; [by apply serve_content_answer|].
    intros Hn. rewrite !not_elem_of_cons in Hn. destruct Hn as (H1 & H2 & _).
    assert (∀ k, k = "ETag"%go ∨ k = "Cache-Control"%go → hdr' !! k = hdr !! k) as Hk.
    { intros k Hk. eapply serve_content_keeps; [done..|]. rewrite !not_elem_of_cons. destruct Hk as [-> | ->]; repeat split; try done; apply not_elem_of_nil. }
    rewrite !Hk by auto. done.
  - cbn [rs_status rs_header rs_body]. eexists. split; [reflexivity|]. split.
    + unfold copy_content. rewrite (take_all_Z data) by done.
      apply AnswerWhole; [by rewrite lookup_insert_eq|by rewrite lookup_insert_ne].
    + intros _. by rewrite !lookup_insert_ne by done.
Qed.

(** What a client gets with a 200: the whole object is announced, and as much of it
    sent as could be; all of it unless reading or writing failed. *)
Lemma object_answer_ok r tr data resp : object_answer r tr data resp → rs_status resp = 200 → r_method r ≠ "HEAD"%go →
  ∃ sent, rs_body resp = BytesBody sent ∧ sent `prefix_of` data ∧ (tr_sent tr = None → sent = data)
    ∧ rs_header resp !! "Content-Length"%go = Some (format_int (Z.of_nat (length data))).
Proof.
  intros (body & Hb & Ha & _) Hok Hm. rewrite Hok in Ha. inversion Ha as [hdr' Hl Ht| | | | | |]; subst.
  unfold writes in *. rewrite (proj2 (str_eqb_neq _ _) Hm) in *. exists (sent_part (tr_sent tr) data).
  split; [done|]. unfold sent_part. destruct (tr_sent tr) as [n|].
  - split; [apply prefix_take|done].
  - done.
Qed.

(** An answer to a download is an error, or one about the stored object. *)
Lemma download_handler_cases {SZ : AdapterSizes (h_store h)} r now tr w resp w' : valid w →
  download_handler h r now tr w = (resp, w') →
  same_objects objects w w'
  ∧ (rs_status resp ∉ [403; 404; 500] →
     Signer.verify (h_signer h) now op_download (request_base_url h r) (r_request_uri r) = Ok tt
     ∧ ∃ o data, normalise_oid (r_path_value r "oid") = Ok o ∧ objects w dir o = Some data
       ∧ object_answer r tr data resp).
Proof.
  intros Hv H. unfold download_handler in H.
  assert (∀ status m, status ∈ [403; 404; 500] → rs_status (write_error r status m) ∉ [403; 404; 500] → False) as Herr.
  { intros status m Hin Hn. apply Hn. destruct (write_error_cases r status m) as [-> | ->]; [done|].
    by repeat constructor. }
  destruct (is_valid_oid _); cbn [negb] in H.
  2: { injection H as <- <-. split; [done|]. intros Hn. exfalso. eapply (Herr 404); [|exact Hn]. by repeat constructor. }
  pose proof (require_valid_signature_spec r op_download now) as Hs.
  unfold require_valid_signature in H, Hs. destruct (Signer.verify _ _ _ _ _) as [[]|e].
  2: { injection H as <- <-. split; [done|]. intros Hn. exfalso. eapply Herr; [|exact Hn]. by repeat constructor. }
  destruct (ad_get _ _ _ _ w) as [[[data size]|e] w1] eqn:Eg; pose proof Eg as (_ & Hsame & Hg)%get_law; try done.
  2: { destruct (errors_is NotExist e); injection H as <- <-; (split; [done|]); intros Hn; exfalso;
         (eapply Herr; [|exact Hn]); by repeat constructor. }
  apply get_size_law in Eg as ->. destruct (Hg _ _ eq_refl) as (o & Ho & Hobj).
  injection H as <- <-. split; [done|]. intros _. split; [done|]. exists o, data. eauto using write_object_answer.
Qed.


(** ** Batches *)

(** [hasSpaceFor] looks at the store only. *)
Lemma has_space_for_spec r rs w b w' : valid w → has_space_for h r rs w = (b, w') →
  valid w' ∧ same_objects objects w w'
  ∧ (b = false → ∃ avail, fst (ad_available_space (h_store h) (r_ctx r) w) = Ok avail ∧ avail < needed_space rs).
Proof.
  intros Hv H. unfold has_space_for in H. destruct (needed_space rs =? 0); [by injection H as <- <-|].
  destruct (ad_available_space _ _ w) as [[n|e] w1] eqn:E; pose proof E as (Hv1 & Hs & _)%space_law; try done;
    injection H as <- <-; (split; [done|]; split; [done|]); [|done].
  intros Hb. to_prop. by exists n.
Qed.

(** What the uploads of a batch announce in total. *)
Definition upload_total (rs : list ObjectResponse) : Z :=
  foldr (λ r n, match resp_actions r !! op_upload with Some _ => resp_size r | None => 0 end + n) 0 rs.

(** [hasSpaceFor]'s saturating sum is the total, cut off at the largest [uint64]. *)
Lemma needed_space_total rs :
  Forall (λ r, is_Some (resp_actions r !! op_upload) → 0 <= resp_size r <= max_int64) rs →
  0 <= upload_total rs ∧ needed_space rs = Z.min max_uint64 (upload_total rs).
Proof.
  intros H. unfold needed_space.
  assert (∀ n, 0 <= n <= max_uint64 → 0 <= upload_total rs ∧
    fold_left (λ needed obj, match resp_actions obj !! op_upload with
      | Some _ => needed + Z.min (wrap_uint64 (resp_size obj)) (max_uint64 - needed)
      | None => needed end) rs n = Z.min max_uint64 (n + upload_total rs)) as Hgo.
  { induction H as [|r rs Hr _ IH]; intros n Hn; cbn [fold_left upload_total foldr].
    { rewrite Z.min_r; lia. }
    fold (upload_total rs).
    destruct (resp_actions r !! op_upload) as [a|]; [|apply IH; lia].
    destruct (Hr (mk_is_Some _ _ eq_refl)) as [Hr0 Hr1].
    assert (max_int64 <= max_uint64) by done.
    rewrite wrap_uint64_id by (split; lia).
    destruct (IH (n + Z.min (resp_size r) (max_uint64 - n))) as [IH1 ->]; [lia|]. split; lia. }
  destruct (Hgo 0) as [H0 ->]; [done|]. by split.
Qed.

(** The announced uploads fit the backend's space, as far as it can tell. *)
Definition fits_space (r : Request) (rs : list ObjectResponse) (w : W) : Prop :=
  ∀ avail, fst (ad_available_space (h_store h) (r_ctx r) w) = Ok avail →
    upload_total rs <= avail ∨ avail = max_uint64.

Lemma has_space_fits r rs w w' :
  Forall (λ r, is_Some (resp_actions r !! op_upload) → 0 <= resp_size r <= max_int64) rs →
  valid w → has_space_for h r rs w = (true, w') → fits_space r rs w.
Proof.
  intros Hrs Hv H avail Ha. apply needed_space_total in Hrs as [Hn Ht].
  unfold has_space_for in H. rewrite Ht in H.
  destruct (ad_available_space _ _ w) as [x w1] eqn:E. cbn [fst] in Ha. subst x.
  apply space_law in E as (_ & _ & Hr); [|done]. destruct (Hr avail eq_refl) as [Hr1 Hr2].
  assert (Z.min max_uint64 (upload_total rs) <= avail); [|unfold max_uint64 in *; lia].
  destruct (Z.eqb_spec (Z.min max_uint64 (upload_total rs)) 0); [lia|].
  injection H as H _. to_prop. done.
Qed.

(** An answer with an upload action is for a size within the limit. *)
Lemma answers_upload_size req obj w r : answers h objects req w obj r →
  is_Some (resp_actions r !! op_upload) → 0 <= resp_size r <= h_max_upload_size h.
Proof.
  intros (Hsays & _ & Hok) [a Ha].
  destruct Hsays as [e He Hact|_ He Hact|act _ He Hact|act v _ He Hact _ Hmax]; rewrite Hact in Ha.
  - by rewrite lookup_empty in Ha.
  - by rewrite lookup_empty in Ha.
  - by rewrite lookup_singleton_ne in Ha.
  - destruct (Hok He) as (_ & ? & ->). lia.
Qed.

Context {A : AuthKeeps (h_auth h) (keeps_objects objects valid)}.

(** What a batch request that is answered with a 200 has gone through. *)
Record batch_permitted (r : Request) (w : W) (req : BatchRequest) (w1 : W) : Prop := {
  bp_accept : accepts_lfs_media_type (r_header r "Accept") = true;
  bp_request : unmarshal_read decode_batch_request (r_body_early r) (r_body r) = Ok req;
  bp_count : (length (req_objects req) <= 1000)%nat;
  bp_operation : req_operation req = operation_download ∨ req_operation req = operation_upload;
  bp_auth : ∃ res, h_authenticate h r (req_operation req) w = (Ok res, w1)
    ∧ authenticated res = true ∧ authorized res = true
}.

(** C6. A batch request changes no object, and is answered with a 200 only when it
    accepts the answer, is a JSON body of at most a thousand objects for a known
    operation, and its credentials were authorised for exactly that operation. The
    answer is then the response [processBatch] makes, in the world the
    authentication left, and for an upload the sizes of all upload actions
    together fit the space the backend reports; or, for a hash algorithm other
    than sha256, an error for every object. *)
Theorem batch_handler_authorised r now evs w resp w' :
  h_max_upload_size h <= max_int64 → valid w → batch_handler h r now evs w = Some (resp, w') →
  same_objects objects w w'
  ∧ (rs_status resp = 200 → ∃ req w1, batch_permitted r w req w1
     ∧ ((req_hash_algo req ∉ [[]; hash_algo])
          ∧ rs_body resp = JsonBody (json_of_batch_response (unsupported_hash_algo (req_objects req)))
        ∨ ∃ br w2, process_batch h req (request_base_url h r) now evs w1 = Some (br, w2)
          ∧ rs_body resp = JsonBody (json_of_batch_response br)
          ∧ (req_operation req = operation_upload → fits_space r (batch_objects br) w2))).
Proof.
  intros Hmax Hv H. unfold batch_handler in H.
  destruct (accepts_lfs_media_type _) eqn:Eacc; cbn [negb] in H.
  2: { injection H as <- <-. split; [done|]. intros Hok; error_answer. }
  destruct (str_eqb _ lfs_media_type); cbn [negb] in H.
  2: { injection H as <- <-. split; [done|]. intros Hok; error_answer. }
  destruct (unmarshal_read decode_batch_request _ _) as [req|e] eqn:Ereq.
  2: { injection H as <- <-. split; [done|]. intros Hok. destruct (errors_is MaxBytesError e); error_answer. }
  destruct (Nat.ltb_spec max_objects_per_batch (length (req_objects req))) as [Hn|Hn].
  { injection H as <- <-. split; [done|]. intros Hok; error_answer. }
  destruct (negb _ && negb _) eqn:Eop.
  { injection H as <- <-. split; [done|]. intros Hok; error_answer. }
  destruct (_ && negb (existsb _ _)).
  { injection H as <- <-. split; [done|]. intros Hok; error_answer. }
  set (op := if str_eqb (req_operation req) op_upload then _ else _) in H.
  assert (req_operation req = op ∧ (op = operation_download ∨ op = operation_upload)) as [Hop Hops].
  { subst op. destruct (str_eqb (req_operation req) op_upload) eqn:Eu.
    - apply str_eqb_eq in Eu. rewrite Eu. split; [done|by right].
    - rewrite andb_true_r in Eop. apply negb_false_iff, str_eqb_eq in Eop. split; [done|by left]. }
  clear Eop. destruct (require_credentials h r op w) as [a w1] eqn:Ea.
  apply (require_credentials_spec h (keeps_objects objects valid)) in Ea as [Hk Ha].
  destruct (Hk Hv) as [Hv1 Hs1]. clear Hk.
  destruct a as [res|e]; [|injection H as <- <-; split; [done|]; intros Hok; by destruct (refused_not_ok _ Ha)]. destruct Ha as [Hauth Haut].
  destruct (authorized res) eqn:Eauth; cbn [negb] in H.
  2: { injection H as <- <-. split; [done|]. intros Hok. destruct (str_eqb op _); error_answer. }
  assert (batch_permitted r w req w1) as Hbp by (split; try done; rewrite Hop; eauto).
  destruct (negb _ && _) eqn:Ealg.
  { injection H as <- <-. split; [done|]. intros Hok%write_json_ok. exists req, w1. split; [done|].
    left. split; [|done]. apply andb_true_iff in Ealg as [E1%negb_true_iff%str_eqb_neq E2%negb_true_iff%str_eqb_neq].
    set_solver. }
  destruct (process_batch h req _ now evs w1) as [[br w2]|] eqn:Ep; [|done].
  pose proof (process_batch_spec h objects valid _ _ _ _ _ _ _ Hv1 Ep) as (Hv2 & Hs2 & _ & Hbr & _).
  assert (Forall (λ r, is_Some (resp_actions r !! op_upload) → 0 <= resp_size r <= max_int64) (batch_objects br)) as Hsz.
  { apply Forall_lookup. intros i x (obj & _ & Hx)%Hbr Hup. apply (answers_upload_size _ _ _ _ Hx) in Hup. lia. }
  destruct (str_eqb (req_operation req) op_upload) eqn:Eu.
  - destruct (has_space_for h r (batch_objects br) w2) as [fits w3] eqn:Ef.
    pose proof (has_space_for_spec _ _ _ _ _ Hv2 Ef) as (_ & Hs3 & _).
    assert (same_objects objects w w3) as Hs by (eapply same_objects_trans; [done|by eapply same_objects_trans]).
    destruct fits; cbn [negb] in H; injection H as <- <-; (split; [done|]); intros Hok; [|error_answer].
    apply write_json_ok in Hok. exists req, w1. split; [done|]. right. exists br, w2.
    split; [done|]. split; [done|]. intros _. by eapply has_space_fits.
  - cbn [negb] in H. injection H as <- <-. split; [by eapply same_objects_trans|]. intros Hok%write_json_ok.
    exists req, w1. split; [done|]. right. exists br, w2. split; [done|]. split; [done|].
    intros E. by rewrite E in Eu.
Qed.
End Transfers.

(** ** The base URL *)

Section BaseUrl.
Context {U : Unicode} {I : IpSyntax} {F : FloatSyntax}.

(** C40. The base URL of a request is the configured one when there is one, whatever
    headers the request has. Otherwise its host is the request's or a forwarded
    one, and a forwarded host without a port is a URL's whole authority. One with
    a port need not be, although the check is there to ensure it: a path after the
    port is accepted, and becomes part of the base URL. *)
Theorem base_url_host {W} (h : Handler W) r :
  (h_base_url h ≠ [] → request_base_url h r = h_base_url h)
  ∧ (h_base_url h = [] → ∃ scheme host, request_base_url h r = scheme ++ "://" ++ host
       ∧ (scheme = "http" ∨ scheme = "https")
       ∧ (host = r_host r
          ∨ host = r_header r "X-Forwarded-Host" ∧ ∃ u, parse_url ("http://" ++ host) = Some u
              ∧ hostname (u_host u) ≠ [] ∧ (split_host_port host = None → u_host u = host)))
  ∧ (is_valid_forwarded_host "lfs.example:80/other" = true
     ∧ (u_host <$> parse_url "http://lfs.example:80/other") = Some "lfs.example:80"%go).
Proof.
  split; [|split].
  - intros Hb. unfold request_base_url. by rewrite (proj2 (str_eqb_neq _ _) Hb).
  - intros Hb. unfold request_base_url. rewrite Hb. cbn [str_eqb negb].
    eexists _, _. split; [reflexivity|]. split.
    + destruct (str_eqb _ "http" || str_eqb _ "https") eqn:E; [|destruct (r_tls r); auto].
      apply orb_true_iff in E as [->%str_eqb_eq| ->%str_eqb_eq]; auto.
    + destruct (is_valid_forwarded_host (r_header r "X-Forwarded-Host")) eqn:E; [|by left].
      right. split; [done|]. unfold is_valid_forwarded_host in E.
      destruct (str_eqb _ []); [done|]. destruct (parse_url _) as [u|]; [|done].
      destruct (str_eqb (u_host u) []); [done|].
      destruct (str_eqb (hostname (u_host u)) []) eqn:Eh; [done|]. exists u. split; [done|].
      split; [by apply str_eqb_neq|]. intros Hs. rewrite Hs in E. by apply str_eqb_eq.
  - split; vm_compute; reflexivity.
Qed.
End BaseUrl.
