(* ===== verification/LockHandlers.v ===== *)
(** * lfs/handler.go: what the lock handlers guarantee

    [LockLaws] is the contract of a lock store towards its clients; the handlers'
    theorems are proved against it.  FileLocks.v shows that the file lock store
    keeps it. *)

From S2P Require Import Prelude GoStrings GoUnicode GoPath GoConv GoTime GoUrl GoMime GoNet GoOs GoJson Sanitise Storage Models LockSet Config Auth Batch Handler HandlerProofs.

Local Open Scope go_scope.
#[local] Opaque write_json write_error not_found_handler.

(** ** The contract of a lock store *)

(** The locks of an endpoint directory, in listing order. *)
Definition lock_table (W : Type) : Type := W → gostring → list Lock.

Definition same_locks {W} (locks : lock_table W) (w w' : W) : Prop :=
  ∀ d, safe_name d = true → locks w' d = locks w d.
Definition other_locks {W} (locks : lock_table W) (d : gostring) (w w' : W) : Prop :=
  ∀ d', safe_name d' = true → d' ≠ d → locks w' d' = locks w d'.

Class LockLaws {U : Unicode} {W} (ls : LockStore W) (locks : lock_table W) (valid : W → Prop) : Prop := {
  (** A new lock only on an unlocked path; a conflict comes with the lock held on the
      path, and any other error without one. *)
  create_law c ep path owner w l e w' : valid w → ls_create ls c ep path owner w = ((l, e), w') →
    valid w' ∧ other_locks locks (endpoint ep) w w'
    ∧ match e with
      | None => lock_path l = path ∧ owner_name (lock_owner l) = owner
          ∧ (path ∉ map lock_path (locks w (endpoint ep)))
          ∧ locks w' (endpoint ep) ≡ₚ l :: locks w (endpoint ep)
      | Some e => locks w' (endpoint ep) = locks w (endpoint ep)
          ∧ (errors_is LockExists e = true ∧ l ∈ locks w (endpoint ep) ∧ lock_path l = path
             ∨ l = zero_lock ∧ (c = Some e ∨ errors_is LockExists e = false))
      end;
  list_law c ep opts w r w' : valid w → ls_list ls c ep opts w = (r, w') →
    valid w' ∧ same_locks locks w w'
    ∧ ∀ page, r = Ok page → list_page opts (locks w (endpoint ep)) = Ok page;
  (** A lock is removed for its owner, or by force. *)
  unlock_law c ep id requester force w r w' : valid w → ls_unlock ls c ep id requester force w = (r, w') →
    valid w' ∧ other_locks locks (endpoint ep) w w'
    ∧ match r with
      | Ok l => l ∈ locks w (endpoint ep) ∧ lock_id l = id
          ∧ (force = true ∨ equal_fold (owner_name (lock_owner l)) requester = true)
          ∧ locks w (endpoint ep) ≡ₚ l :: locks w' (endpoint ep)
      | Err _ => locks w' (endpoint ep) = locks w (endpoint ep)
      end
}.

(** The locks stay, and with them the store's invariant. *)
Definition keeps_locks {W} (locks : lock_table W) (valid : W → Prop) (w w' : W) : Prop :=
  valid w → valid w' ∧ same_locks locks w w'.

#[export] Instance keeps_locks_preorder {W} (locks : lock_table W) valid : PreOrder (keeps_locks locks valid).
Proof.
  split; [by intros w Hv|]. intros w1 w2 w3 H1 H2 Hv.
  destruct (H1 Hv) as [Hv2 Hs1]. destruct (H2 Hv2) as [Hv3 Hs2]. split; [done|].
  intros d Hd. by rewrite Hs2, Hs1.
Qed.

(** ** Lock paths *)

(** [isValidLockPath] accepts exactly the relative paths of ordinary elements. *)
Lemma is_valid_lock_path_spec path : is_valid_lock_path path = true ↔
  utf8_valid path = true ∧ ("000"%char ∉ path)
  ∧ Forall (λ e, e ≠ [] ∧ e ≠ "." ∧ e ≠ "..") (split_on slash path).
Proof.
  unfold is_valid_lock_path, valid_path.
  rewrite !andb_true_iff, !negb_true_iff, str_eqb_neq, contains_byte_false, orb_true_iff.
  unfold is_dot. rewrite str_eqb_eq, forallb_forall, Forall_forall.
  assert ((∀ e, e ∈ split_on slash path → e ≠ [] ∧ e ≠ "." ∧ e ≠ "..") ↔
    (∀ e, List.In e (split_on slash path) → plain_elem e = true)) as ->.
  { split; intros H e He; apply plain_elem_true || apply (proj1 (plain_elem_true e)); apply H;
      by apply list_elem_of_In. }
  split; [tauto|]. intros (H1 & H2 & H3). split; [|done]. split; [|tauto]. intros ->.
  specialize (H3 "." (or_introl eq_refl)). done.
Qed.

(** ** Creating, listing and removing locks *)

Section Locks.
Context {U : Unicode} {I : IpSyntax} {F : FloatSyntax} {W : Type} (h : Handler W).
Context (locks : lock_table W) (valid : W → Prop) {L : LockLaws (h_lock_store h) locks valid}.
Context {A : AuthKeeps (h_auth h) (keeps_locks locks valid)}.

Local Abbreviation dir := (endpoint (ep_path (h_endpoint h))).

(** The credentials of the request were authorised for [op], by an answer [res]
    that left the world [w1]. *)
Definition permitted (r : Request) (op : Operation) (w : W) (res : Result) (w1 : W) : Prop :=
  h_authenticate h r op w = (Ok res, w1) ∧ authenticated res = true ∧ authorized res = true.

Lemma require_auth_locks r op w x w1 : valid w → require_auth_result h r op w = (x, w1) →
  valid w1 ∧ same_locks locks w w1
  ∧ match x with Ok res => permitted r op w res w1 | Err resp => refused resp end.
Proof.
  intros Hv H. apply (require_auth_result_spec h (keeps_locks locks valid)) in H as [Hk Hx].
  destruct (Hk Hv) as [Hv1 Hs]. by destruct x.
Qed.

Lemma same_other d (w w' : W) : same_locks locks w w' → other_locks locks d w w'.
Proof. intros H d' Hd' _. by apply H. Qed.

Lemma other_trans d (w1 w2 w3 : W) : same_locks locks w1 w2 → other_locks locks d w2 w3 → other_locks locks d w1 w3.
Proof. intros H1 H2 d' Hd' Hne. by rewrite H2, H1. Qed.

Lemma keeps_trans (w1 w2 w3 : W) : same_locks locks w1 w2 → same_locks locks w2 w3 → same_locks locks w1 w3.
Proof. intros H1 H2 d Hd. by rewrite H2, H1. Qed.

(** [split_locks] splits a page by its owner. *)
Lemma split_locks_spec user page ours theirs : split_locks user page = (ours, theirs) →
  page ≡ₚ ours ++ theirs ∧ ours `sublist_of` page ∧ theirs `sublist_of` page
  ∧ Forall (λ l, equal_fold (owner_name (lock_owner l)) user = true) ours
  ∧ Forall (λ l, equal_fold (owner_name (lock_owner l)) user = false) theirs.
Proof.
  unfold split_locks. intros [= <- <-]. induction page as [|l page (IH1 & IH2 & IH3 & IH4 & IH5)]; simpl.
  { repeat split; constructor. }
  destruct (is_ours user l) eqn:E; simpl; unfold is_ours in E.
  - split; [by f_equiv|]. split; [by constructor|]. split; [by constructor|]. split; [by constructor|done].
  - split; [rewrite IH1 at 1; by apply Permutation_middle|]. split; [by constructor|].
    split; [by constructor|]. split; [done|by constructor].
Qed.

Lemma require_lfs_refused r resp : require_lfs_media_type r = Some resp → refused resp.
Proof.
  unfold require_lfs_media_type. intros H.
  repeat case_match; simplify_eq; refused_tac.
Qed.

(** The lock a request asks for was created, for the authorised caller. *)
Definition lock_created (r : Request) (w w' : W) (resp : Response) : Prop :=
  ∃ req res w1 l, permitted r operation_upload w res w1
    ∧ unmarshal_read decode_create_request (r_body_early r) (r_body r) = Ok req
    ∧ is_valid_lock_path (create_path req) = true
    ∧ (create_path req ∉ map lock_path (locks w dir))
    ∧ lock_path l = create_path req ∧ owner_name (lock_owner l) = username res
    ∧ locks w' dir ≡ₚ l :: locks w dir
    ∧ resp = write_json ∅ 201 (json_of_created {| created_lock := l; created_message := [];
                 created_request_id := []; created_documentation_url := [] |}).

(** The path a request asks to lock is locked already. *)
Definition lock_conflict (r : Request) (w : W) (resp : Response) : Prop :=
  ∃ req l, unmarshal_read decode_create_request (r_body_early r) (r_body r) = Ok req
    ∧ l ∈ locks w dir ∧ lock_path l = create_path req
    ∧ rs_body resp = JsonBody (json_of_created {| created_lock := l;
         created_message := "already created lock"; created_request_id := r_request_id r;
         created_documentation_url := documentation_url |}).

(** A context ends with an error of its own, not with the lock store's. *)
Definition ctx_plain (c : ctx) : Prop := ∀ e, c = Some e → errors_is LockExists e = false.

Lemma create_lock_handler_cases r w resp w' : valid w → create_lock_handler h r w = (resp, w') →
  valid w' ∧ other_locks locks dir w w'
  ∧ (locks w' dir = locks w dir ∧ (refused resp ∨ rs_status resp = 500 ∨ (ctx_plain (r_ctx r) → lock_conflict r w resp) ∧ rs_status resp = 409)
     ∨ lock_created r w w' resp).
Proof.
  intros Hv H. unfold create_lock_handler in H. pose proof (endpoint_safe_name (ep_path (h_endpoint h))) as Hdir.
  destruct (require_auth_result h r operation_upload w) as [a w1] eqn:Ea.
  apply require_auth_locks in Ea as (Hv1 & Hs1 & Ha); [|done].
  assert (∀ resp', refused resp' → (resp', w1) = (resp, w') →
    valid w' ∧ other_locks locks dir w w' ∧ (locks w' dir = locks w dir ∧
      (refused resp ∨ rs_status resp = 500 ∨ (ctx_plain (r_ctx r) → lock_conflict r w resp) ∧ rs_status resp = 409)
      ∨ lock_created r w w' resp)) as Hquit.
  { intros resp' Hr [= <- <-]. split; [done|]. split; [by apply same_other|]. left. split; [by apply Hs1|by left]. }
  destruct a as [res|e]; [|by apply (Hquit e)].
  destruct (require_lfs_media_type r) as [e|] eqn:Em.
  { apply require_lfs_refused in Em. by apply (Hquit e). }
  destruct (unmarshal_read decode_create_request _ _) as [req|e] eqn:Ereq.
  2: { eapply Hquit; [|exact H]. refused_tac. }
  destruct (is_valid_lock_path (create_path req)) eqn:Epath; cbn [negb] in H.
  2: { eapply Hquit; [|exact H]. refused_tac. }
  clear Hquit. destruct (ls_create _ _ _ _ _ w1) as [[l e] w2] eqn:Ec.
  apply create_law in Ec as (Hv2 & Ho & Hc); [|done].
  assert (w' = w2) as -> by (destruct e as [e|]; [destruct (errors_is LockExists e)|]; by injection H).
  split; [done|]. split; [by eapply other_trans|]. pose proof (Hs1 dir Hdir) as Hd1. rewrite Hd1 in Hc.
  destruct e as [e|].
  - destruct Hc as [Hsame Hl]. left. split; [done|].
    destruct (errors_is LockExists e) eqn:Eex; injection H as <-.
    + edestruct write_json_cases as [[Hs Hb]|Hs]; [right; right|right; by left].
      split; [|exact Hs]. intros Hplain.
      destruct Hl as [(_ & Hin & Hp)|[_ [Hctx|Hno]]]; [by exists req, l| |congruence].
      apply Hplain in Hctx. congruence.
    + left. refused_tac.
  - destruct Hc as (Hp & Hown & Hnew & Hperm). injection H as <-. right. exists req, res, w1, l. done.
Qed.

(** C16. A lock is created only for a caller authorised to upload, on a relative
    path of ordinary elements that was not locked, in the caller's name, and in
    the handler's own endpoint; any other answer leaves every lock as it was. A
    201 shows the new lock; a 409 shows the lock the path has. *)
Theorem create_lock_handler_safe r w resp w' :
  valid w → create_lock_handler h r w = (resp, w') →
  other_locks locks dir w w'
  ∧ (locks w' dir = locks w dir ∧ rs_status resp ≠ 201 ∨ lock_created r w w' resp)
  ∧ (rs_status resp = 409 → locks w' dir = locks w dir ∧ (ctx_plain (r_ctx r) → lock_conflict r w resp)).
Proof.
  intros Hv H. apply create_lock_handler_cases in H as (_ & Ho & Hcase); [|done].
  split; [done|]. destruct Hcase as [[Hs Hr]|Hc].
  - split.
    + left. split; [done|]. destruct Hr as [Hr|[-> |[_ ->]]]; [by apply refused_not_created|done..].
    + intros H4. destruct Hr as [Hr|[Hr|[Hr _]]]; [|congruence|done].
      by destruct (proj2 (refused_not_created _ Hr)).
  - split; [by right|]. intros H4. exfalso. destruct Hc as (req & res & w1 & l & _ & _ & _ & _ & _ & _ & _ & ->).
    edestruct write_json_cases as [[Hs _]|Hs]; rewrite Hs in H4; done.
Qed.

(** C28. Listing and verifying locks. Neither changes a lock. A 200 to a listing is
    for a caller authorised to download, and is the page the query's options
    select of the endpoint's locks; a 200 to a verification is for a caller
    authorised to upload, and splits the page its cursor and limit select into
    the locks whose owner is the caller, letter case aside, and the others: each
    lock of the page is in exactly one of the two, in the page's order. *)
Theorem list_handlers_truthful r w :
  valid w →
  (∀ resp w', list_locks_handler h r w = (resp, w') →
     same_locks locks w w'
     ∧ (rs_status resp = 200 → ∃ res w1 limit page next, permitted r operation_download w res w1
          ∧ limit_param (query_get "limit" (fst (parse_query (r_raw_query r)))) = Some limit
          ∧ list_page {| opt_path := query_get "path" (fst (parse_query (r_raw_query r)));
                         opt_id := query_get "id" (fst (parse_query (r_raw_query r)));
                         opt_cursor := query_get "cursor" (fst (parse_query (r_raw_query r)));
                         opt_limit := limit;
                         opt_refspec := query_get "refspec" (fst (parse_query (r_raw_query r))) |}
              (locks w dir) = Ok (page, next)
          ∧ rs_body resp = JsonBody (json_of_locks {| list_locks := page; list_next_cursor := next |})))
  ∧ (∀ resp w', verify_locks_handler h r w = (resp, w') →
     same_locks locks w w'
     ∧ (rs_status resp = 200 → ∃ res w1 req page next ours theirs, permitted r operation_upload w res w1
          ∧ unmarshal_read decode_verify_locks_request (r_body_early r) (r_body r) = Ok req
          ∧ list_page {| opt_path := []; opt_id := []; opt_cursor := vl_cursor req;
                         opt_limit := vl_limit req; opt_refspec := [] |} (locks w dir) = Ok (page, next)
          ∧ rs_body resp = JsonBody (json_of_verified {| vl_ours := ours; vl_theirs := theirs; vl_next_cursor := next |})
          ∧ page ≡ₚ ours ++ theirs ∧ ours `sublist_of` page ∧ theirs `sublist_of` page
          ∧ Forall (λ l, equal_fold (owner_name (lock_owner l)) (username res) = true) ours
          ∧ Forall (λ l, equal_fold (owner_name (lock_owner l)) (username res) = false) theirs)).
Proof.
  intros Hv. pose proof (endpoint_safe_name (ep_path (h_endpoint h))) as Hdir. split; intros resp w' H.
  - unfold list_locks_handler, require_auth in H.
    destruct (require_auth_result h r operation_download w) as [a w1] eqn:Ea.
    apply require_auth_locks in Ea as (Hv1 & Hs1 & Ha); [|done].
    destruct a as [res|e]; [|injection H as <- <-; split; [done|]; intros Hok; by destruct (refused_not_ok _ Ha)].
    destruct (accepts_lfs_media_type _); cbn [negb] in H.
    2: { injection H as <- <-. split; [done|]. intros Hok; error_answer. }
    cbv zeta in H. destruct (limit_param _) as [limit|].
    2: { injection H as <- <-. split; [done|]. intros Hok; error_answer. }
    destruct (ls_list _ _ _ _ w1) as [[[page next]|e] w2] eqn:El;
      apply list_law in El as (_ & Hs2 & Hp); try done; injection H as <- <-.
    + split; [by eapply (keeps_trans w w1)|]. intros Hok%write_json_ok. exists res, w1, limit, page, next.
      split; [done|]. split; [done|]. split; [|done]. rewrite <-(Hs1 dir Hdir). by apply Hp.
    + split; [by eapply (keeps_trans w w1)|]. unfold list_error. intros Hok. destruct (errors_is _ e); error_answer.
  - unfold verify_locks_handler in H.
    destruct (require_auth_result h r operation_upload w) as [a w1] eqn:Ea.
    apply require_auth_locks in Ea as (Hv1 & Hs1 & Ha); [|done].
    destruct a as [res|e]; [|injection H as <- <-; split; [done|]; intros Hok; by destruct (refused_not_ok _ Ha)].
    destruct (require_lfs_media_type r) as [e|] eqn:Em.
    { injection H as <- <-. split; [done|]. intros Hok. by destruct (refused_not_ok _ (require_lfs_refused _ _ Em)). }
    destruct (unmarshal_read decode_verify_locks_request _ _) as [req|e].
    2: { injection H as <- <-. split; [done|]. intros Hok; error_answer. }
    destruct (ls_list _ _ _ _ w1) as [[[page next]|e] w2] eqn:El;
      apply list_law in El as (_ & Hs2 & Hp); try done.
    + destruct (split_locks (username res) page) as [ours theirs] eqn:Esplit. injection H as <- <-.
      split; [by eapply (keeps_trans w w1)|]. intros Hok%write_json_ok.
      exists res, w1, req, page, next, ours, theirs. split; [done|]. split; [done|].
      split; [rewrite <-(Hs1 dir Hdir); by apply Hp|]. split; [done|]. by apply split_locks_spec.
    + injection H as <- <-. split; [by eapply (keeps_trans w w1)|]. unfold list_error. intros Hok.
      destruct (errors_is _ e); error_answer.
Qed.

(** The lock a request names was removed, for its owner or a maintainer by force. *)
Definition lock_removed (r : Request) (w w' : W) (resp : Response) : Prop :=
  ∃ req res w1 l, permitted r operation_upload w res w1
    ∧ unmarshal_read decode_unlock_request (r_body_early r) (r_body r) = Ok req
    ∧ l ∈ locks w dir ∧ lock_id l = r_path_value r "id"
    ∧ (unlock_force req = true ∧ maintainer res = true
       ∨ equal_fold (owner_name (lock_owner l)) (username res) = true)
    ∧ locks w dir ≡ₚ l :: locks w' dir
    ∧ resp = write_json ∅ 200 (json_of_unlocked {| unlocked_lock := l |}).

Lemma unlock_handler_cases r w resp w' : valid w → unlock_handler h r w = (resp, w') →
  valid w' ∧ other_locks locks dir w w'
  ∧ (locks w' dir = locks w dir ∧ rs_status resp ≠ 200 ∨ lock_removed r w w' resp).
Proof.
  intros Hv H. unfold unlock_handler in H. pose proof (endpoint_safe_name (ep_path (h_endpoint h))) as Hdir.
  destruct (require_auth_result h r operation_upload w) as [a w1] eqn:Ea.
  apply require_auth_locks in Ea as (Hv1 & Hs1 & Ha); [|done].
  assert (∀ resp', refused resp' → (resp', w1) = (resp, w') → valid w' ∧ other_locks locks dir w w'
    ∧ (locks w' dir = locks w dir ∧ rs_status resp ≠ 200 ∨ lock_removed r w w' resp)) as Hquit.
  { intros resp' Hr [= <- <-]. split; [done|]. split; [by apply same_other|]. left. split; [by apply Hs1|by apply refused_not_ok]. }
  destruct a as [res|e]; [|by apply (Hquit e)].
  destruct (require_lfs_media_type r) as [e|] eqn:Em.
  { apply require_lfs_refused in Em. by apply (Hquit e). }
  destruct (unmarshal_read decode_unlock_request _ _) as [req|e] eqn:Ereq.
  2: { eapply Hquit; [|exact H]. refused_tac. }
  cbv zeta in H. destruct (str_eqb (r_path_value r "id") []).
  { eapply Hquit; [|exact H]. refused_tac. }
  clear Hquit. destruct (ls_unlock _ _ _ _ _ _ w1) as [x w2] eqn:Eu.
  apply unlock_law in Eu as (Hv2 & Ho & Hu); [|done]. rewrite (Hs1 dir Hdir) in Hu. destruct x as [l|e].
  - injection H as <- <-. split; [done|]. split; [by eapply other_trans|]. right. destruct Hu as (Hin & Hid & Hwho & Hperm).
    exists req, res, w1, l. do 4 (split; [done|]). split; [|done].
    destruct Hwho as [Hf|Hf]; [left; by apply andb_true_iff in Hf|by right].
  - injection H as <- <-. split; [done|]. split; [by eapply other_trans|]. left. split; [done|].
    destruct (errors_is LockNotFound e); [by apply write_error_not_ok|].
    destruct (errors_is LockNotOwner e && unlock_force req); [by apply write_error_not_ok|].
    destruct (errors_is LockNotOwner e); by apply write_error_not_ok.
Qed.

(** C17. A lock is removed only for a caller authorised to upload who is its owner,
    letter case aside, or who asks to force it and is a maintainer of the
    repository; it is the lock the URL names, in the handler's own endpoint, and
    the only one removed. Any other answer leaves every lock as it was, and is no
    200. *)
Theorem unlock_handler_safe r w resp w' :
  valid w → unlock_handler h r w = (resp, w') →
  other_locks locks dir w w'
  ∧ (locks w' dir = locks w dir ∧ rs_status resp ≠ 200 ∨ lock_removed r w w' resp).
Proof. intros Hv H. by apply unlock_handler_cases in H as [_ H]. Qed.
End Locks.
