(* ===== verification/Frames.v ===== *)
(** * What the operations of the server leave alone

    The interfaces of a handler's collaborators say what they do to their own data.
    The classes here say that an operation relates the world before to the world
    after by some [P], which is any preorder: that a backend leaves the locks alone,
    or a lock store the objects.  The handlers keep what their collaborators keep. *)

From S2P Require Import Prelude GoStrings GoUnicode GoConv GoHash GoTime GoUrl GoMime GoNet GoOs GoJson Sanitise Storage Signer Models LockSet Config Auth Batch Handler HandlerProofs LockHandlers.

Local Open Scope go_scope.

(** ** The collaborators *)

(** The operations of a backend other than [Put]. *)
Class AdapterReads {W} (a : Adapter W) (P : W → W → Prop) : Prop := {
  exists_keeps c ep oid w r w' : ad_exists a c ep oid w = (r, w') → P w w';
  get_keeps c ep oid w r w' : ad_get a c ep oid w = (r, w') → P w w';
  size_keeps c ep oid w r w' : ad_size a c ep oid w = (r, w') → P w w';
  space_keeps c w r w' : ad_available_space a c w = (r, w') → P w w';
  check_keeps c w r w' : ad_check a c w = (r, w') → P w w';
  presign_get_keeps p c ep oid exp w r w' : ad_presigner a = Some p →
    presign_get p c ep oid exp w = (r, w') → P w w';
  presign_put_keeps p c ep oid n exp w r w' : ad_presigner a = Some p →
    presign_put p c ep oid n exp w = (r, w') → P w w'
}.
Class AdapterPuts {W} (a : Adapter W) (P : W → W → Prop) : Prop :=
  put_keeps c ep oid rd n w r w' : ad_put a c ep oid rd n w = (r, w') → P w w'.

(** The operations of a lock store. *)
Class LockStoreLists {W} (ls : LockStore W) (P : W → W → Prop) : Prop :=
  list_keeps c ep opts w r w' : ls_list ls c ep opts w = (r, w') → P w w'.
Class LockStoreWrites {W} (ls : LockStore W) (P : W → W → Prop) : Prop := {
  create_keeps c ep path owner w r w' : ls_create ls c ep path owner w = (r, w') → P w w';
  unlock_keeps c ep id requester force w r w' : ls_unlock ls c ep id requester force w = (r, w') → P w w'
}.

(** Reading operations keep the objects, listing keeps the locks. *)
#[export] Instance adapter_reads_objects {U : Unicode} {W} (a : Adapter W) objects valid
  {L : AdapterLaws a objects valid} : AdapterReads a (keeps_objects objects valid).
Proof.
  split.
  - intros * H Hv. apply exists_law in H as (? & ? & _); done.
  - intros * H Hv. apply get_law in H as (? & ? & _); done.
  - intros * H Hv. apply size_law in H as (? & ? & _); done.
  - intros * H Hv. apply space_law in H as (? & ? & _); done.
  - intros * H Hv. by apply check_law in H.
  - intros * Hp H Hv. by eapply presign_get_law.
  - intros * Hp H Hv. by eapply presign_put_law.
Qed.
#[export] Instance lock_store_lists_locks {U : Unicode} {W} (ls : LockStore W) locks valid
  {L : LockLaws ls locks valid} : LockStoreLists ls (keeps_locks locks valid).
Proof. intros c ep opts w r w' H Hv. apply list_law in H as (? & ? & _); done. Qed.

(** The last call, [H], by what it keeps; [also] is tried first. *)
Ltac keeps_by also H :=
  first [ also H
        | eapply exists_keeps; exact H | eapply get_keeps; exact H | eapply size_keeps; exact H
        | eapply space_keeps; exact H | eapply check_keeps; exact H | eapply presign_get_keeps; eassumption
        | eapply presign_put_keeps; eassumption | eapply put_keeps; exact H | eapply list_keeps; exact H
        | eapply create_keeps; exact H | eapply unlock_keeps; exact H ].
(** Follows the calls from the last to the first. *)
Ltac keeps also :=
  match goal with
  | |- _ ?w ?w => reflexivity
  | H : _ = (_, ?w') |- _ _ ?w' => etrans; [|keeps_by also H]; keeps also
  | H : _ = Some (_, ?w') |- _ _ ?w' => etrans; [|keeps_by also H]; keeps also
  end.
(** All ways through an operation, and the calls of each. *)
Ltac keeps_calls also := repeat (case_match; simplify_eq); keeps also.

(** ** The handlers *)

Section Handlers.
Context {U : Unicode} {I : IpSyntax} {F : FloatSyntax} {W : Type} (h : Handler W).
Context (P : W → W → Prop) {HP : PreOrder P} {A : AuthKeeps (h_auth h) P}.

Lemma require_credentials_keeps r op w x w' : require_credentials h r op w = (x, w') → P w w'.
Proof. intros H. by apply (require_credentials_spec h P) in H as [? _]. Qed.
Lemma require_auth_result_keeps r op w x w' : require_auth_result h r op w = (x, w') → P w w'.
Proof. intros H. by apply (require_auth_result_spec h P) in H as [? _]. Qed.

Ltac credentials H :=
  first [eapply require_credentials_keeps; exact H | eapply require_auth_result_keeps; exact H].

Section Transfers.
Context {R : AdapterReads (h_store h) P}.

Lemma download_keeps r now tr w resp w' : download_handler h r now tr w = (resp, w') → P w w'.
Proof. unfold download_handler. intros H. keeps_calls credentials. Qed.

Lemma verify_keeps r now w resp w' : verify_handler h r now w = (resp, w') → P w w'.
Proof. unfold verify_handler. intros H. keeps_calls credentials. Qed.

Lemma upload_keeps {Q : AdapterPuts (h_store h) P} r now w resp w' :
  upload_handler h r now w = (resp, w') → P w w'.
Proof. unfold upload_handler. intros H. keeps_calls credentials. Qed.

Lemma process_object_keeps c now op obj base verify w r w' :
  process_object h c now op obj base verify w = (r, w') → P w w'.
Proof. unfold process_object, process_download, process_upload. intros H. keeps_calls credentials. Qed.

Lemma run_batch_keeps req base verify evs s w s' w' :
  run_batch h req base verify evs (s, w) = Some (s', w') → P w w'.
Proof.
  revert s w. induction evs as [|ev evs IH]; intros s w H; [by injection H as <- <-|].
  cbn [run_batch] in H. destruct (batch_step h req base verify ev (s, w)) as [[s1 w1]|] eqn:E; [|done].
  etrans; [|by eapply IH]. clear IH H. destruct ev as [c|i c now]; cbn [batch_step] in E.
  - destruct (_ || _); [done|]. by destruct c; injection E as <- <-.
  - destruct (bool_decide _); [|done]. destruct (req_objects req !! i) as [obj|]; [|done]. cbn in E.
    destruct (process_object _ _ _ _ _ _ _ _) as [r w2] eqn:Eo. injection E as <- <-.
    by eapply process_object_keeps.
Qed.

Lemma process_batch_keeps req base now evs w resp w' :
  process_batch h req base now evs w = Some (resp, w') → P w w'.
Proof.
  unfold process_batch. intros H. destruct (run_batch _ _ _ _ _ _) as [[s w1]|] eqn:E; [|done].
  cbn in H. destruct (batch_over req s); [|done]. injection H as <- <-. by eapply run_batch_keeps.
Qed.

Lemma has_space_keeps r rs w b w' : has_space_for h r rs w = (b, w') → P w w'.
Proof. unfold has_space_for. intros H. keeps_calls credentials. Qed.

Ltac batch_calls H :=
  first [credentials H | eapply process_batch_keeps; exact H | eapply has_space_keeps; exact H].

Lemma batch_keeps r now evs w resp w' : batch_handler h r now evs w = Some (resp, w') → P w w'.
Proof. unfold batch_handler. intros H. keeps_calls batch_calls. Qed.
End Transfers.

Section Locks.
Context {R : LockStoreLists (h_lock_store h) P}.

Lemma list_locks_keeps r w resp w' : list_locks_handler h r w = (resp, w') → P w w'.
Proof. unfold list_locks_handler, require_auth. intros H. keeps_calls credentials. Qed.
Lemma verify_locks_keeps r w resp w' : verify_locks_handler h r w = (resp, w') → P w w'.
Proof. unfold verify_locks_handler. intros H. keeps_calls credentials. Qed.

Context {Q : LockStoreWrites (h_lock_store h) P}.
Lemma create_lock_keeps r w resp w' : create_lock_handler h r w = (resp, w') → P w w'.
Proof. unfold create_lock_handler. intros H. keeps_calls credentials. Qed.
Lemma unlock_lock_keeps r w resp w' : unlock_handler h r w = (resp, w') → P w w'.
Proof. unfold unlock_handler. intros H. keeps_calls credentials. Qed.
End Locks.
End Handlers.
