(* ===== verification/Parts.v ===== *)
(** * A component's operations on a part of a larger world

    The server's components share one world; each works on a part of it, as the
    local backend on its own state and the files.  [lift] runs an operation on a
    part, and a lifted component keeps its contract when the invariant of the whole
    is one of its parts and survives what the component does to its own. *)

From S2P Require Import Prelude GoStrings GoUnicode GoTime GoOs Sanitise Storage Models LockSet Config Auth Batch Handler HandlerProofs LockHandlers Frames.

Local Open Scope go_scope.

(** Where a world [W] has a part [V]. *)
Record part (W V : Type) := { part_get : W → V; part_set : V → W → W }.
Arguments part_get {W V}.
Arguments part_set {W V}.
Class PartLaws {W V} (p : part W V) : Prop := part_get_set v w : part_get p (part_set p v w) = v.

Section Lift.
Context {W V : Type} (p : part W V).

Definition lift {A} (f : V → A * V) (w : W) : A * W :=
  let '(r, v) := f (part_get p w) in (r, part_set p v w).

Lemma lift_inv {A} (f : V → A * V) w r w' : lift f w = (r, w') →
  ∃ v, f (part_get p w) = (r, v) ∧ w' = part_set p v w.
Proof. unfold lift. destruct (f _) as [r1 v]. intros [= <- <-]. eauto. Qed.

Definition lift_presigner (q : Presigner V) : Presigner W := {|
  presign_get c ep oid exp := lift (presign_get q c ep oid exp);
  presign_put c ep oid n exp := lift (presign_put q c ep oid n exp)
|}.
Definition lift_adapter (a : Adapter V) : Adapter W := {|
  ad_exists c ep oid := lift (ad_exists a c ep oid);
  ad_get c ep oid := lift (ad_get a c ep oid);
  ad_put c ep oid rd n := lift (ad_put a c ep oid rd n);
  ad_size c ep oid := lift (ad_size a c ep oid);
  ad_available_space c := lift (ad_available_space a c);
  ad_check c := lift (ad_check a c);
  ad_presigner := lift_presigner <$> ad_presigner a
|}.
Definition lift_lock_store (ls : LockStore V) : LockStore W := {|
  ls_create c ep path owner := lift (ls_create ls c ep path owner);
  ls_list c ep opts := lift (ls_list ls c ep opts);
  ls_unlock c ep id requester force := lift (ls_unlock ls c ep id requester force)
|}.
End Lift.

Section Laws.
Context {U : Unicode} {W V : Type} (p : part W V) {PL : PartLaws p}.

(** What holds between the parts holds between the worlds. *)
Lemma lift_reads a (Q : V → V → Prop) (P : W → W → Prop) {R : AdapterReads a Q} :
  (∀ w v, Q (part_get p w) v → P w (part_set p v w)) → AdapterReads (lift_adapter p a) P.
Proof.
  intros HP. split; cbn [ad_exists ad_get ad_size ad_available_space ad_check ad_presigner lift_adapter].
  1-5: intros * H; apply lift_inv in H as (v & H & ->); apply HP.
  - by eapply exists_keeps.
  - by eapply get_keeps.
  - by eapply size_keeps.
  - by eapply space_keeps.
  - by eapply check_keeps.
  - intros q * Hq H. destruct (ad_presigner a) as [q0|] eqn:Eq; [|done]. injection Hq as <-.
    apply lift_inv in H as (v & H & ->). apply HP. by eapply presign_get_keeps.
  - intros q * Hq H. destruct (ad_presigner a) as [q0|] eqn:Eq; [|done]. injection Hq as <-.
    apply lift_inv in H as (v & H & ->). apply HP. by eapply presign_put_keeps.
Qed.
Lemma lift_puts a (Q : V → V → Prop) (P : W → W → Prop) {R : AdapterPuts a Q} :
  (∀ w v, Q (part_get p w) v → P w (part_set p v w)) → AdapterPuts (lift_adapter p a) P.
Proof.
  intros HP c ep oid rd n w r w' H. apply lift_inv in H as (v & H & ->). apply HP. by eapply put_keeps.
Qed.
Lemma lift_lists ls (Q : V → V → Prop) (P : W → W → Prop) {R : LockStoreLists ls Q} :
  (∀ w v, Q (part_get p w) v → P w (part_set p v w)) → LockStoreLists (lift_lock_store p ls) P.
Proof. intros HP c ep opts w r w' H. apply lift_inv in H as (v & H & ->). apply HP. by eapply list_keeps. Qed.
Lemma lift_writes ls (Q : V → V → Prop) (P : W → W → Prop) {R : LockStoreWrites ls Q} :
  (∀ w v, Q (part_get p w) v → P w (part_set p v w)) → LockStoreWrites (lift_lock_store p ls) P.
Proof.
  intros HP. split; intros * H; apply lift_inv in H as (v & H & ->); apply HP;
    [by eapply create_keeps|by eapply unlock_keeps].
Qed.

(** The call on the part, and what it keeps; and what that says of the whole. *)
Ltac lifted keeps_law :=
  intros * Hv H; apply lift_inv in H as (v & H & ->); pose proof H as HQ; apply keeps_law in HQ; try done.
Ltac part_keeps :=
  split; [by auto|]; unfold same_objects, stored_object, same_locks, other_locks in *; by rewrite part_get_set.

(** A lifted component keeps its contract. *)
Lemma lift_adapter_laws a objects va (Q : V → V → Prop) (valid : W → Prop)
  {L : AdapterLaws a objects va} {R : AdapterReads a Q} {R' : AdapterPuts a Q} :
  (∀ w, valid w → va (part_get p w)) →
  (∀ w v, valid w → va v → Q (part_get p w) v → valid (part_set p v w)) →
  AdapterLaws (lift_adapter p a) (λ w, objects (part_get p w)) valid.
Proof.
  intros Hva Hset.
  split; cbn [ad_exists ad_get ad_put ad_size ad_available_space ad_check ad_presigner lift_adapter].
  - lifted (exists_keeps (P:=Q)). apply exists_law in H as (? & ? & ?); [part_keeps|auto].
  - lifted (get_keeps (P:=Q)). apply get_law in H as (? & ? & ?); [part_keeps|auto].
  - lifted (size_keeps (P:=Q)). apply size_law in H as (? & ? & ?); [part_keeps|auto].
  - lifted (put_keeps (P:=Q)). apply put_law in H as (? & ?); [part_keeps|auto].
  - lifted (space_keeps (P:=Q)). apply space_law in H as (? & ? & ?); [part_keeps|auto].
  - lifted (check_keeps (P:=Q)). apply check_law in H as (? & ?); [part_keeps|auto].
  - intros q * Hq Hv H. destruct (ad_presigner a) as [q0|] eqn:Eq; [|done]. injection Hq as <-. revert Hv H.
    lifted (presign_get_keeps (P:=Q) q0). apply (presign_get_law q0) in H as (? & ?); [part_keeps|done|auto].
  - intros q * Hq Hv H. destruct (ad_presigner a) as [q0|] eqn:Eq; [|done]. injection Hq as <-. revert Hv H.
    lifted (presign_put_keeps (P:=Q) q0). apply (presign_put_law q0) in H as (? & ?); [part_keeps|done|auto].
Qed.

Lemma lift_adapter_sizes a {SZ : AdapterSizes a} : AdapterSizes (lift_adapter p a).
Proof. intros c ep oid w data n w' H. apply lift_inv in H as (v & H & _). by apply get_size_law in H. Qed.

Lemma lift_lock_laws ls locks vl (Q : V → V → Prop) (valid : W → Prop)
  {L : LockLaws ls locks vl} {R : LockStoreLists ls Q} {R' : LockStoreWrites ls Q} :
  (∀ w, valid w → vl (part_get p w)) →
  (∀ w v, valid w → vl v → Q (part_get p w) v → valid (part_set p v w)) →
  LockLaws (lift_lock_store p ls) (λ w, locks (part_get p w)) valid.
Proof.
  intros Hvl Hset. split; cbn [ls_create ls_list ls_unlock lift_lock_store].
  - lifted (create_keeps (P:=Q)). apply create_law in H as (? & ? & ?); [part_keeps|auto].
  - lifted (list_keeps (P:=Q)). apply list_law in H as (? & ? & ?); [part_keeps|auto].
  - lifted (unlock_keeps (P:=Q)). apply unlock_law in H as (? & ? & ?); [part_keeps|auto].
Qed.
End Laws.
