(* ===== verification/LockProtocol.v ===== *)
(** * lfs/filelock_unix.go, lfs/filelock_windows.go and the locking of lfs/locks.go

    LockStore.v has each operation of the lock store as one step.  This file is why
    it may: operations of many goroutines in many processes, step by step, on one
    endpoint's locks.  An operation takes the endpoint's mutex in its process, opens
    the [.lock] file, locks that across processes, works, and gives up both.  The
    calls of both platforms are given what the system documents for them. *)

From S2P Require Import Prelude.

Local Open Scope Z_scope.

(** ** Locks that are shared or exclusive *)

Inductive mode : Type := Shared | Exclusive.
#[export] Instance mode_eq_dec : EqDecision mode.
Proof. solve_decision. Defined.

(** Who holds a lock, and how. *)
Abbreviation holders := (gmap nat mode).

(** [t] may get it: no other of its group holds it, or all share it. *)
Definition grantable (group : nat → nat) (h : holders) (t : nat) (m : mode) : Prop :=
  ∀ t' m', h !! t' = Some m' → t' ≠ t → group t' = group t → m = Shared ∧ m' = Shared.

Definition exclusive_ok (group : nat → nat) (h : holders) : Prop :=
  ∀ t m, h !! t = Some m → grantable group h t m.

Lemma acquire_ok group h t m : exclusive_ok group h → grantable group h t m → exclusive_ok group (<[t := m]> h).
Proof.
  intros Hok Hg t1 m1 H1 t2 m2 H2 Hne He. rewrite lookup_insert_Some in H1, H2.
  destruct H1 as [[<- <-]|[Ht1 H1]], H2 as [[<- <-]|[Ht2 H2]]; [done|..].
  - by eapply Hg.
  - destruct (Hg t1 m1 H1) as [-> ->]; [done|by symmetry|done].
  - by eapply Hok.
Qed.
Lemma release_ok group h t : exclusive_ok group h → exclusive_ok group (delete t h).
Proof. intros Hok t1 m1 [_ H1]%lookup_delete_Some t2 m2 [_ H2]%lookup_delete_Some. by eapply Hok. Qed.

(** ** The calls of both platforms *)

Inductive platform : Type := Unix | Windows.

(** System calls on an open file. *)
Inductive lock_call : Type :=
| Flock (how : Z)
| LockFileEx (flags reserved low high offset : Z)
| UnlockFileEx (reserved low high offset : Z).

Definition LOCK_SH : Z := 1.
Definition LOCK_EX : Z := 2.
Definition LOCK_UN : Z := 8.
Definition lockfile_exclusive_lock : Z := 2.

(** [lockFileEx] of filelock_windows.go *)
Definition lock_file_ex (flags : Z) : lock_call := LockFileEx flags 0 1 0 0.

(** [lockFile], [lockFileShared] and [unlockFile] of both files. *)
Definition lock_file (pl : platform) : lock_call :=
  match pl with Unix => Flock LOCK_EX | Windows => lock_file_ex lockfile_exclusive_lock end.
Definition lock_file_shared (pl : platform) : lock_call :=
  match pl with Unix => Flock LOCK_SH | Windows => lock_file_ex 0 end.
Definition unlock_file (pl : platform) : lock_call :=
  match pl with Unix => Flock LOCK_UN | Windows => UnlockFileEx 0 1 0 0 end.

(** The result of a call of kernel32.dll, as the functions return it. *)
Definition call_result {E} (ret : Z) (call_err : E) : result E unit := if ret =? 0 then Err call_err else Ok tt.

(** What the system does with a call on the open file of [t], when it succeeds: it
    waits until the lock can be had. [LockFileEx] locks a range of bytes, here the
    first alone, and is exclusive when flag 2 is set; [UnlockFileEx] takes the range
    that was locked. *)
Definition everyone (_ : nat) : nat := 0%nat.
Definition range_mode (flags : Z) : mode := if Z.testbit flags 1 then Exclusive else Shared.
Inductive granted (t : nat) (h : holders) : lock_call → holders → Prop :=
| GrantExclusive : grantable everyone h t Exclusive → granted t h (Flock LOCK_EX) (<[t := Exclusive]> h)
| GrantShared : grantable everyone h t Shared → granted t h (Flock LOCK_SH) (<[t := Shared]> h)
| GrantUnlock : granted t h (Flock LOCK_UN) (delete t h)
| GrantRange flags : h !! t = None → grantable everyone h t (range_mode flags) →
    granted t h (LockFileEx flags 0 1 0 0) (<[t := range_mode flags]> h)
| GrantUnlockRange : is_Some (h !! t) → granted t h (UnlockFileEx 0 1 0 0) (delete t h).

Definition lock_file_for (pl : platform) (m : mode) : lock_call :=
  match m with Exclusive => lock_file pl | Shared => lock_file_shared pl end.

(** Both platforms lock and unlock alike. *)
Lemma lock_file_granted pl t h m h' : granted t h (lock_file_for pl m) h' →
  grantable everyone h t m ∧ h' = <[t := m]> h.
Proof. destruct pl, m; cbn; inversion 1; subst; by split. Qed.
Lemma lock_file_grantable pl t h m : h !! t = None → grantable everyone h t m →
  granted t h (lock_file_for pl m) (<[t := m]> h).
Proof.
  intros Hn Hg. destruct pl, m; cbn; [by constructor|by constructor| |].
  - by apply (GrantRange t h 0).
  - by apply (GrantRange t h 2).
Qed.
Lemma unlock_file_granted pl t h h' : granted t h (unlock_file pl) h' → h' = delete t h.
Proof. destruct pl; cbn; by inversion 1. Qed.
Lemma unlock_file_grantable pl t h : is_Some (h !! t) → granted t h (unlock_file pl) (delete t h).
Proof. destruct pl; cbn; by constructor. Qed.

(** ** Operations step by step *)

(** Where an operation is: before and after the mutex; with the [.lock] file open;
    working after [n] of its steps; working from the cache, without the file lock;
    and giving up the file lock and the file. *)
Inductive pc : Type :=
| Start | HasMutex | Opened | Working (n : nat) | Cached | Unlocked | Closed | Done.
#[export] Instance pc_eq_dec : EqDecision pc.
Proof. solve_decision. Defined.

Section Protocol.
(** The platform; each operation's process, and whether it is [Create] or [Unlock]
    or else [List]; and what the former do to the endpoint's file, a step at a time. *)
Context {D : Type} (pl : platform) (proc : nat → nat) (writes : nat → bool) (acts : nat → list (D → D)).

Record system := {
  pcs : gmap nat pc;
  mutex : holders;        (** the mutexes of all processes *)
  file_lock : holders;    (** the lock on the [.lock] file *)
  data : D
}.
Definition pc_of (s : system) (t : nat) : pc := default Start (pcs s !! t).
Definition mode_of (t : nat) : mode := if writes t then Exclusive else Shared.

Definition set_pc (t : nat) (k : pc) (s : system) : system :=
  {| pcs := <[t := k]> (pcs s); mutex := mutex s; file_lock := file_lock s; data := data s |}.
Definition set_mutex (h : holders) (s : system) : system :=
  {| pcs := pcs s; mutex := h; file_lock := file_lock s; data := data s |}.
Definition set_file_lock (h : holders) (s : system) : system :=
  {| pcs := pcs s; mutex := mutex s; file_lock := h; data := data s |}.
Definition set_data (d : D) (s : system) : system :=
  {| pcs := pcs s; mutex := mutex s; file_lock := file_lock s; data := d |}.

(** A step of operation [t]; [fault] when a system call of it fails. *)
Inductive step (t : nat) (s : system) : bool → system → Prop :=
(** [mu.Lock] and [mu.RLock] *)
| StepMutex : pc_of s t = Start → grantable proc (mutex s) t (mode_of t) →
    step t s false (set_pc t HasMutex (set_mutex (<[t := mode_of t]> (mutex s)) s))
(** [loadLocks] with metadata that has not changed *)
| StepCached : pc_of s t = HasMutex → writes t = false → step t s false (set_pc t Cached s)
(** [acquireFileLock] *)
| StepOpen : pc_of s t = HasMutex → step t s false (set_pc t Opened s)
| StepOpenFails : pc_of s t = HasMutex → step t s true (set_pc t Closed s)
| StepLock h : pc_of s t = Opened → granted t (file_lock s) (lock_file_for pl (mode_of t)) h →
    step t s false (set_pc t (Working 0) (set_file_lock h s))
| StepLockFails : pc_of s t = Opened → step t s true (set_pc t Closed s)
(** the operation itself *)
| StepWork n f : pc_of s t = Working n → writes t = true → acts t !! n = Some f →
    step t s false (set_pc t (Working (S n)) (set_data (f (data s)) s))
(** [unlockFile], and [Close], which gives up the lock if [unlockFile] did not *)
| StepUnlock n h : pc_of s t = Working n → (writes t = true → n = length (acts t)) →
    granted t (file_lock s) (unlock_file pl) h →
    step t s false (set_pc t Unlocked (set_file_lock h s))
| StepUnlockFails n : pc_of s t = Working n → (writes t = true → n = length (acts t)) →
    step t s true (set_pc t Unlocked s)
| StepClose : pc_of s t = Unlocked → step t s false (set_pc t Closed (set_file_lock (delete t (file_lock s)) s))
(** [mu.Unlock] and [mu.RUnlock] *)
| StepMutexUnlock k : pc_of s t = k → k = Closed ∨ k = Cached →
    step t s false (set_pc t Done (set_mutex (delete t (mutex s)) s)).

(** Every operation is still to begin. *)
Definition initial (d : D) : system := {| pcs := ∅; mutex := ∅; file_lock := ∅; data := d |}.

(** What can come of it, with the operations that were done with their work, in
    that order. *)
Inductive reachable (d : D) : system → list nat → Prop :=
| ReachInitial : reachable d (initial d) []
| ReachStep t s fault s' order : reachable d s order → step t s fault s' →
    reachable d s' (match pc_of s t, pc_of s' t with Working _, Unlocked => order ++ [t] | _, _ => order end).

(** ** Who holds what *)

Definition holds_mutex (k : pc) : bool := match k with Start | Done => false | _ => true end.
Definition is_working (k : pc) : bool := match k with Working _ => true | _ => false end.
Definition may_hold_file (k : pc) : bool := match k with Working _ | Unlocked => true | _ => false end.
Definition past_work (k : pc) : bool := match k with Unlocked | Closed | Done => true | _ => false end.

Record locking_ok (s : system) : Prop := {
  lk_mutex t m : mutex s !! t = Some m ↔ holds_mutex (pc_of s t) = true ∧ m = mode_of t;
  lk_file t m : file_lock s !! t = Some m → may_hold_file (pc_of s t) = true ∧ m = mode_of t;
  lk_working t : is_working (pc_of s t) = true → file_lock s !! t = Some (mode_of t);
  lk_cached t : pc_of s t = Cached → writes t = false;
  lk_mutex_ok : exclusive_ok proc (mutex s);
  lk_file_ok : exclusive_ok everyone (file_lock s)
}.

Lemma pc_set t k s : pc_of (set_pc t k s) t = k.
Proof. unfold pc_of. cbn. by rewrite lookup_insert_eq. Qed.
Lemma pc_set_ne t k s t' : t' ≠ t → pc_of (set_pc t k s) t' = pc_of s t'.
Proof. intros H. unfold pc_of. cbn. by rewrite lookup_insert_ne. Qed.

(** A step changes nothing of another operation. *)
Lemma step_other t s fault s' t' : step t s fault s' → t' ≠ t →
  pc_of s' t' = pc_of s t' ∧ mutex s' !! t' = mutex s !! t' ∧ file_lock s' !! t' = file_lock s !! t'.
Proof.
  intros H Hne. destruct H; (split; [by rewrite pc_set_ne|]); cbn;
    repeat match goal with
    | H : granted _ _ (lock_file_for _ _) _ |- _ => apply lock_file_granted in H as [_ ->]
    | H : granted _ _ (unlock_file _) _ |- _ => apply unlock_file_granted in H as ->
    end; by rewrite ?lookup_insert_ne, ?lookup_delete_ne.
Qed.

(** What a step does to its own operation, and that the locks stay as they should be. *)
Lemma step_own t s fault s' : locking_ok s → step t s fault s' →
  (∀ m, mutex s' !! t = Some m ↔ holds_mutex (pc_of s' t) = true ∧ m = mode_of t)
  ∧ (∀ m, file_lock s' !! t = Some m → may_hold_file (pc_of s' t) = true ∧ m = mode_of t)
  ∧ (is_working (pc_of s' t) = true → file_lock s' !! t = Some (mode_of t))
  ∧ (pc_of s' t = Cached → writes t = false)
  ∧ exclusive_ok proc (mutex s') ∧ exclusive_ok everyone (file_lock s').
Proof.
  intros [Hm Hf Hw Hc Hmo Hfo] H. specialize (Hm t). specialize (Hf t). specialize (Hw t).
  destruct H; rewrite pc_set; cbn [mutex file_lock set_pc set_mutex set_file_lock set_data];
    repeat match goal with
    | H : granted _ _ (lock_file_for _ _) _ |- _ => apply lock_file_granted in H as [? ->]
    | H : granted _ _ (unlock_file _) _ |- _ => apply unlock_file_granted in H as ->
    | H : pc_of _ _ = _ |- _ => rewrite H in Hm, Hf, Hw; clear H
    end; cbn in Hm, Hf, Hw |- *; split_and!;
    auto using acquire_ok, release_ok; rewrite ?lookup_insert_eq, ?lookup_delete_eq; try done.
  all: try (intros m; split; [by intros [= <-]|by intros [_ ->]]).
  all: try (intros m [= <-]; done).
  all: try (intros m H2; by apply Hf in H2 as [? _]).
  all: try (intros m H2; apply Hf in H2 as [_ ->]; done).
  - intros m. by split; [|intros [? _]].
  - intros m H2. apply Hf in H2 as [H3 _]. by destruct H0 as [->| ->].
Qed.

Lemma step_locking t s fault s' : locking_ok s → step t s fault s' → locking_ok s'.
Proof.
  intros Hok H. destruct (step_own t s fault s' Hok H) as (O1 & O2 & O3 & O4 & O5 & O6).
  pose proof (λ t' Hne, step_other t s fault s' t' H Hne) as Ho. destruct Hok as [Hm Hf Hw Hc _ _].
  split; [| | | |done|done]; intros t'; destruct (decide (t' = t)) as [->|Hne]; try done;
    destruct (Ho t' Hne) as (-> & Em & Ef); [intros m; rewrite Em|intros m; rewrite Ef|rewrite Ef|]; auto.
Qed.

Lemma reachable_locking d s order : reachable d s order → locking_ok s.
Proof.
  induction 1 as [|t s fault s' order _ IH Hs]; [|by eapply step_locking].
  assert (∀ t, pc_of (initial d) t = Start) as Hpc by (intros t; unfold pc_of; cbn; by rewrite lookup_empty).
  split; intros t; rewrite ?Hpc; cbn [initial mutex file_lock]; try done.
  all: intros m; rewrite lookup_empty; try done. by split; [|intros [? _]].
Qed.

(** *** Exclusion *)

Lemma working_exclusion s t1 t2 : locking_ok s → t1 ≠ t2 → writes t1 = true →
  is_working (pc_of s t1) = true → is_working (pc_of s t2) = true → False.
Proof.
  intros Hok Hne Hw H1 H2. destruct (lk_file_ok s Hok t1 _ (lk_working s Hok t1 H1) t2 _ (lk_working s Hok t2 H2)) as [E _];
    [by intros ->|done|]. unfold mode_of in E. by rewrite Hw in E.
Qed.
Lemma mutex_exclusion s t1 t2 : locking_ok s → t1 ≠ t2 → proc t1 = proc t2 → writes t1 = true →
  holds_mutex (pc_of s t1) = true → holds_mutex (pc_of s t2) = true → False.
Proof.
  intros Hok Hne Hp Hw H1 H2.
  destruct (lk_mutex_ok s Hok t1 (mode_of t1) ltac:(by apply lk_mutex) t2 (mode_of t2) ltac:(by apply lk_mutex)) as [E _];
    [by intros ->|done|]. unfold mode_of in E. by rewrite Hw in E.
Qed.

(** *** One operation after the other *)

(** Whole operations, in an order. *)
Definition replay (order : list nat) (d : D) : D :=
  fold_left (λ d t, fold_left (λ d f, f d) (acts t) d) (filter (λ t, writes t = true) order) d.

(** The endpoint's file is as whole operations one after the other made it; or one
    of them works on it now, and has done its first steps. *)
Definition serial_data (d : D) (s : system) (order : list nat) : Prop :=
  ((∀ t, is_working (pc_of s t) = true → writes t = false) ∧ data s = replay order d)
  ∨ ∃ t n, pc_of s t = Working n ∧ writes t = true
      ∧ data s = fold_left (λ d f, f d) (take n (acts t)) (replay order d).
Definition serial (d : D) (s : system) (order : list nat) : Prop :=
  NoDup order ∧ (∀ t, t ∈ order → past_work (pc_of s t) = true) ∧ serial_data d s order.

Lemma replay_snoc order t d : replay (order ++ [t]) d
  = if writes t then fold_left (λ d f, f d) (acts t) (replay order d) else replay order d.
Proof.
  unfold replay. rewrite filter_app, fold_left_app. destruct (writes t) eqn:E.
  - by rewrite filter_cons_True.
  - by rewrite filter_cons_False by (by rewrite E).
Qed.

Lemma step_past t s fault s' : step t s fault s' → past_work (pc_of s t) = true → past_work (pc_of s' t) = true.
Proof. intros H. destruct H as [H| | | | | | | | | |k H [->| ->]]; rewrite pc_set; try done; by rewrite H. Qed.

(** Operations that are not a writer's work leave the file as it is. *)
Lemma serial_frame d s order s' order' t : serial_data d s order → replay order' d = replay order d → data s' = data s →
  (∀ t', t' ≠ t → pc_of s' t' = pc_of s t') →
  (is_working (pc_of s t) = true ∨ is_working (pc_of s' t) = true → writes t = false) →
  serial_data d s' order'.
Proof.
  intros [[Hno Hd]|(t0 & n & H0 & Hw & Hd)] Hr Hs Ho Hn; [left|right].
  - split; [|congruence]. intros t' Ht'. destruct (decide (t' = t)) as [->|Hne]; [by apply Hn; right|].
    apply Hno. by rewrite <-Ho.
  - exists t0, n. assert (t0 ≠ t) as Hne by (intros ->; rewrite Hn in Hw; [done|left; by rewrite H0]).
    rewrite Ho, Hs, Hr by done. done.
Qed.

(** The writer that works is the only one. *)
Lemma serial_worker d s order t n : locking_ok s → serial_data d s order → pc_of s t = Working n → writes t = true →
  data s = fold_left (λ d f, f d) (take n (acts t)) (replay order d).
Proof.
  intros Hok [[Hno _]|(t0 & n0 & H0 & Hw0 & Hd)] Ht Hw; [by rewrite Hno in Hw by by rewrite Ht|].
  destruct (decide (t0 = t)) as [->|Hne]; [by rewrite H0 in Ht; injection Ht as ->|].
  exfalso. apply (working_exclusion s t0 t); [done..|by rewrite H0|by rewrite Ht].
Qed.

Lemma step_serial_data d s order t fault s' : locking_ok s → serial_data d s order → step t s fault s' →
  serial_data d s' (match pc_of s t, pc_of s' t with Working _, Unlocked => order ++ [t] | _, _ => order end).
Proof.
  intros Hok Hdata H. pose proof (step_locking t s fault s' Hok H) as Hok'.
  pose proof (λ t' Hne, proj1 (step_other t s fault s' t' H Hne)) as Ho.
  assert (∀ n, pc_of s t = Working n → pc_of s' t = Unlocked → (writes t = true → n = length (acts t)) →
    data s' = data s → serial_data d s' (order ++ [t])) as Hend.
  { intros n Hn Hu Hlen Hs. destruct (writes t) eqn:Hw.
    - pose proof (serial_worker d s order t n Hok Hdata Hn Hw) as Hd. rewrite Hlen, firstn_all in Hd by done.
      left. split; [|by rewrite Hs, replay_snoc, Hw]. intros t' Ht'. destruct (writes t') eqn:Hw'; [|done]. exfalso.
      destruct (decide (t' = t)) as [->|Hne]; [by rewrite Hu in Ht'|]. rewrite Ho in Ht' by done.
      apply (working_exclusion s t' t); [done..|by rewrite Hn].
    - eapply serial_frame; [exact Hdata|by rewrite replay_snoc, Hw|done|exact Ho|done]. }
  assert (is_working (pc_of s t) = false → is_working (pc_of s' t) = false → data s' = data s → serial_data d s' order) as Hidle.
  { intros H1 H2 Hs. eapply serial_frame; [exact Hdata|done|done|exact Ho|]. rewrite H1, H2. by intros [?|?]. }
  destruct H as [H|H|H|H|h H|H|n f H Hw Hf|n h H Hl|n H Hl|H|k H Hk]; rewrite H, ?pc_set in *.
  1-4,6,10: by apply Hidle.
  - destruct (writes t) eqn:Hw; [|by eapply serial_frame; [exact Hdata|done|done|exact Ho|]]. 
    destruct Hdata as [[_ Hd]|(t0 & n & Ht0 & Hw0 & _)].
    + right. exists t, 0%nat. by rewrite pc_set.
    + exfalso. assert (t0 ≠ t) as Hne by (intros ->; by rewrite Ht0 in H).
      apply (working_exclusion _ t0 t Hok'); [done..| |by rewrite pc_set]. rewrite Ho by done. by rewrite Ht0.
  - right. exists t, (S n). rewrite pc_set. split; [done|]. split; [done|]. cbn [data set_pc set_data].
    rewrite (serial_worker d s order t n Hok Hdata H Hw), (take_S_r _ _ f), fold_left_app by done. done.
  - by eapply Hend.
  - by eapply Hend.
  - destruct Hk as [->| ->]; by apply Hidle.
Qed.

Lemma step_serial d s order t fault s' : locking_ok s → serial d s order → step t s fault s' →
  serial d s' (match pc_of s t, pc_of s' t with Working _, Unlocked => order ++ [t] | _, _ => order end).
Proof.
  intros Hok (Hnd & Hpast & Hdata) H. split; [|split; [|by eapply step_serial_data]].
  - destruct (pc_of s t) eqn:E; try done. destruct (pc_of s' t); try done. apply NoDup_app. split; [done|].
    split; [|apply NoDup_singleton]. intros t' Hin ->%list_elem_of_singleton. apply Hpast in Hin. by rewrite E in Hin.
  - intros t' Hin. assert (t' ∈ order ∨ t' = t ∧ past_work (pc_of s' t) = true) as [Ht'|[-> ?]]; [|..|done].
    { destruct (pc_of s t); auto. destruct (pc_of s' t) eqn:E; auto.
      apply elem_of_app in Hin as [?| ->%list_elem_of_singleton]; auto. }
    apply Hpast in Ht'. destruct (decide (t' = t)) as [->|Hne]; [by eapply step_past|].
    by rewrite (proj1 (step_other t s fault s' t' H Hne)).
Qed.

Lemma reachable_serial d s order : reachable d s order → serial d s order.
Proof.
  induction 1 as [|t s fault s' order Hr IH Hs]; [|eapply step_serial; [by eapply reachable_locking|done..]].
  split; [constructor|]. split; [by intros t ?%elem_of_nil|]. left. split; [|done]. intros t. unfold pc_of. cbn. by rewrite lookup_empty.
Qed.

(** *** No operation waits for ever *)

Lemma reachable_steps d s order : reachable d s order →
  ∀ t n, pc_of s t = Working n → writes t = true → (n <= length (acts t))%nat.
Proof.
  induction 1 as [|t s fault s' order _ IH Hs]; intros t' n Hn Hw.
  { unfold pc_of in Hn. cbn in Hn. by rewrite lookup_empty in Hn. }
  destruct (decide (t' = t)) as [->|Hne]; [|rewrite (proj1 (step_other t s fault s' t' Hs Hne)) in Hn; by eapply IH].
  destruct Hs; rewrite pc_set in Hn; try done; injection Hn as <-; [lia|].
  match goal with H : _ !! _ = Some _ |- _ => apply lookup_lt_Some in H; lia end.
Qed.

(** An operation that waits for nobody. *)
Definition unblocked (k : pc) : bool := match k with Start | Opened | Done => false | _ => true end.

Lemma unblocked_steps s t : locking_ok s → (∀ n, pc_of s t = Working n → writes t = true → (n <= length (acts t))%nat) →
  unblocked (pc_of s t) = true → ∃ s', step t s false s'.
Proof.
  intros Hok Hn H. destruct (pc_of s t) as [| | |n| | | |] eqn:E; try done.
  - eexists. by apply StepOpen.
  - assert (is_working (pc_of s t) = true) as Hw by by rewrite E. apply (lk_working s Hok) in Hw.
    assert (∃ h, granted t (file_lock s) (unlock_file pl) h) as [h Hh] by (eexists; apply unlock_file_grantable; by eexists).
    destruct (decide (writes t = true → n = length (acts t))) as [Hd|Hd].
    + eexists. by eapply StepUnlock.
    + destruct (writes t) eqn:Ewr; [|by destruct Hd]. destruct (lookup_lt_is_Some_2 (acts t) n) as [f Hf].
      { specialize (Hn n eq_refl eq_refl). destruct (decide (n = length (acts t))); [by destruct Hd|lia]. }
      eexists. by eapply StepWork.
  - eexists. eapply StepMutexUnlock; [exact E|by right].
  - eexists. by apply StepClose.
  - eexists. eapply StepMutexUnlock; [exact E|by left].
Qed.

Lemma find_pc (P : pc → Prop) `{∀ k, Decision (P k)} s : P Start → (∃ t, ¬ P (pc_of s t)) ∨ ∀ t, P (pc_of s t).
Proof.
  intros HS. destruct (decide (map_Forall (λ _ k, P k) (pcs s))) as [Hall|Hno].
  - right. intros t. unfold pc_of. destruct (pcs s !! t) as [k|] eqn:E; [by eapply Hall|done].
  - left. apply map_not_Forall in Hno as (t & k & E & Hk); [|apply _]. exists t. unfold pc_of. by rewrite E.
Qed.

(** Operations that did some of their steps, in their order. *)
Inductive run : system → list nat → system → Prop :=
| RunNil s : run s [] s
| RunStep t s fault s1 l s2 : step t s fault s1 → run s1 l s2 → run s (t :: l) s2.

(** How many steps an operation has before it. *)
Definition steps_left (t : nat) (k : pc) : nat :=
  match k with
  | Start => length (acts t) + 6
  | HasMutex => length (acts t) + 5
  | Opened => length (acts t) + 4
  | Working n => (length (acts t) - n) + 3
  | Unlocked => 2
  | Closed | Cached => 1
  | Done => 0
  end.
Lemma step_less t s fault s' : step t s fault s' → (steps_left t (pc_of s' t) < steps_left t (pc_of s t))%nat.
Proof.
  intros H. destruct H as [H|H|H|H|h H|H|n f H Hw Hf|n h H Hl|n H Hl|H|k H [->| ->]]; rewrite pc_set, H; cbn; try lia.
  apply lookup_lt_Some in Hf. lia.
Qed.

Lemma sum_update (f g : nat → nat) t ts : NoDup ts → t ∈ ts → (∀ t', t' ≠ t → g t' = f t') → (g t < f t)%nat →
  (S (sum_list (map g ts)) <= sum_list (map f ts))%nat.
Proof.
  intros Hnd Hin Ho Hlt. induction Hnd as [|x ts Hx Hnd IH]; [by apply elem_of_nil in Hin|].
  cbn. apply elem_of_cons in Hin as [<-|Hin].
  - assert (map g ts = map f ts) as ->; [|lia]. apply map_ext_in. intros a Ha%list_elem_of_In. apply Ho. by intros ->.
  - rewrite (Ho x) by (by intros ->). specialize (IH Hin). lia.
Qed.

Lemma run_length ts s l s' : run s l s' → NoDup ts → (∀ t, t ∈ l → t ∈ ts) →
  (length l <= sum_list (map (λ t, steps_left t (pc_of s t)) ts))%nat.
Proof.
  induction 1 as [s|t s fault s1 l s2 Hs Hr IH]; intros Hnd Hl; [simpl; lia|].
  specialize (IH Hnd (λ t' Ht', Hl t' ltac:(by right))). cbn [length].
  pose proof (sum_update (λ t, steps_left t (pc_of s t)) (λ t, steps_left t (pc_of s1 t)) t ts Hnd (Hl t ltac:(left))) as Hsum.
  cbv beta in Hsum. specialize (Hsum ltac:(intros t' Hne; by rewrite (proj1 (step_other t s fault s1 t' Hs Hne))) (step_less _ _ _ _ Hs)).
  lia.
Qed.

Lemma free_file s t : locking_ok s → (∀ t, unblocked (pc_of s t) = false) → pc_of s t = Opened → ∃ s', step t s false s'.
Proof.
  intros Hok Hno Ht. assert (∀ t', file_lock s !! t' = None) as Hf.
  { intros t'. destruct (file_lock s !! t') as [m|] eqn:E; [|done]. apply (lk_file s Hok) in E as [E _].
    specialize (Hno t'). by destruct (pc_of s t'). }
  eexists. eapply StepLock; [done|]. apply lock_file_grantable; [done|]. intros t' m' E. by rewrite Hf in E.
Qed.

Lemma some_step d s order t : reachable d s order → pc_of s t ≠ Done →
  ∃ t' s', step t' s false s' ∧ (t' = t ∨ pc_of s t' ≠ Start).
Proof.
  intros Hr Ht. pose proof (reachable_locking _ _ _ Hr) as Hok.
  destruct (find_pc (λ k, unblocked k = false) s eq_refl) as [[t1 H1]|Hno].
  { destruct (unblocked_steps s t1 Hok) as [s' Hs]; [by eapply reachable_steps|by destruct (unblocked _)|].
    exists t1, s'. split; [done|]. right. intros E. by rewrite E in H1. }
  destruct (find_pc (λ k, k ≠ Opened) s ltac:(done)) as [[t1 H1]|Hopen].
  { apply dec_stable in H1. destruct (free_file s t1 Hok Hno H1) as [s' Hs].
    exists t1, s'. split; [done|]. right. by rewrite H1. }
  exists t. assert (pc_of s t = Start) as E.
  { specialize (Hno t). specialize (Hopen t). by destruct (pc_of s t). }
  eexists. split; [|by left]. apply StepMutex; [done|]. intros t' m' Hm'. apply (lk_mutex s Hok) in Hm' as [Hm' _].
  specialize (Hno t'). specialize (Hopen t'). by destruct (pc_of s t').
Qed.

(** C32. Operations of the lock store on an endpoint, however many, in however many
    processes on one data directory, however their steps mix, and whatever system
    calls fail, on both platforms. While [Create] or [Unlock] works on the lock file,
    no other operation works on it, and no [List] of the same process reads the set
    that it changes. At any time the lock file is as whole [Create]s and [Unlock]s
    made it, each once and one after the other, but for the steps of the one that is
    working; so a [List] that reads the file sees no half-done change, and what is
    left in the end is what the same operations leave one by one. *)
Theorem lock_operations_serial d s order : reachable d s order →
  (∀ t1 t2, t1 ≠ t2 → writes t1 = true → is_working (pc_of s t1) = true →
     is_working (pc_of s t2) = false ∧ (pc_of s t2 = Cached → proc t2 ≠ proc t1))
  ∧ NoDup order ∧ (∀ t, t ∈ order → past_work (pc_of s t) = true)
  ∧ serial_data d s order
  ∧ (∀ t, is_working (pc_of s t) = true → writes t = false → data s = replay order d)
  ∧ ((∀ t, is_working (pc_of s t) = false) → data s = replay order d).
Proof.
  intros H. pose proof (reachable_locking _ _ _ H) as Hok. destruct (reachable_serial _ _ _ H) as (Hnd & Hpast & Hdata).
  split; [|split; [done|split; [done|split; [done|split]]]].
  - intros t1 t2 Hne Hw H1. split.
    + destruct (is_working (pc_of s t2)) eqn:E; [|done]. exfalso. by eapply working_exclusion.
    + intros E Hp. apply (mutex_exclusion s t1 t2); [done..| |by rewrite E]. by destruct (pc_of s t1).
  - intros t Ht Hw. destruct Hdata as [[_ ?]|(t0 & n & Ht0 & Hw0 & _)]; [done|]. exfalso.
    apply (working_exclusion s t0 t); [done|by intros ->; congruence|done|by rewrite Ht0|done].
  - intros Hno. destruct Hdata as [[_ ?]|(t0 & n & Ht0 & _)]; [done|]. specialize (Hno t0). by rewrite Ht0 in Hno.
Qed.

(** C33. No operation of the lock store waits for ever. In every state that can be
    reached, if an operation has not ended, it or another that has begun can go on
    without a system call failing: nobody waits for a mutex or the file lock in a
    circle. And whatever steps are taken, and whatever fails, operations make only
    so many steps together; so when each of finitely many goes on while it can, all
    of them end. *)
Theorem lock_operations_end d s order : reachable d s order →
  (∀ t, pc_of s t ≠ Done → ∃ t' s', step t' s false s' ∧ (t' = t ∨ pc_of s t' ≠ Start))
  ∧ ∀ ts l s', NoDup ts → (∀ t, t ∈ l → t ∈ ts) → run s l s' →
      (length l <= sum_list (map (λ t, length (acts t) + 6) ts))%nat.
Proof.
  intros Hr. split; [intros t Ht; by eapply some_step|]. intros ts l s' Hnd Hl H.
  apply (run_length ts) in H; [|done..]. etrans; [exact H|]. clear. induction ts as [|t ts IH]; [done|].
  cbn. assert (steps_left t (pc_of s t) <= length (acts t) + 6)%nat by (destruct (pc_of s t); simpl; lia). lia.
Qed.
End Protocol.
