(* ===== verification/FileLocks.v ===== *)
(** * The file lock store as the handlers' lock store

    [file_locks] gives the operations of LockStore.v the shape of the interface
    [LockStore], drawing identifiers and times from the world, and [file_locks_laws]
    shows that it keeps the contract [LockLaws]. *)

From S2P Require Import Prelude GoStrings GoUnicode GoTime GoOs Sanitise Storage Local Models LockSet LockStore SharedDir Config Auth Batch Handler HandlerProofs LockHandlers Frames.

Local Open Scope go_scope.

(** A process's lock store and the machine, and how many identifiers
    [uuid.NewString] has made. *)
Record locks_world := { lw_store : lock_world; lw_ids : nat }.

Section FileLocks.
Context {U : Unicode} (uuid : nat → gostring).

(** [FileLockStore] as a [LockStore]. *)
Definition file_locks : LockStore locks_world := {|
  ls_create c ep path owner w :=
    let '(r, v) := create_lock c ep path owner (uuid (lw_ids w)) (os_now (snd (lw_store w))) (lw_store w) in
    (r, {| lw_store := v; lw_ids := S (lw_ids w) |});
  ls_list c ep opts w :=
    let '(r, v) := list_store c ep opts (lw_store w) in (r, {| lw_store := v; lw_ids := lw_ids w |});
  ls_unlock c ep id requester force w :=
    let '(r, v) := unlock c ep id requester force (lw_store w) in (r, {| lw_store := v; lw_ids := lw_ids w |})
|}.

(** The locks on disk, and what holds of them in a running server: the store's
    invariants, and identifiers still to come are new. *)
Definition file_lock_table : lock_table locks_world := λ w d,
  disk_locks (store_base (fst (lw_store w))) (snd (lw_store w)) d.

Definition ids_fresh (w : locks_world) : Prop :=
  ∀ k d, (lw_ids w <= k)%nat → safe_name d = true → uuid k ∉ map lock_id (file_lock_table w d).

Record file_locks_ok (w : locks_world) : Prop := {
  fl_store : store_ok (fst (lw_store w));
  fl_fresh : cache_fresh (fst (lw_store w)) (snd (lw_store w));
  fl_disk : disk_ok (store_base (fst (lw_store w))) (snd (lw_store w));
  fl_ids : ids_fresh w
}.

(** What an operation that keeps to its specification does to the world. *)
Lemma file_op {A} (P : list Lock → A → list Lock → Prop) ep s o n r s' o' n' :
  file_locks_ok {| lw_store := (s, o); lw_ids := n |} →
  op_ok P (endpoint ep) s o r s' o' → (n <= n')%nat →
  (∀ ls ls' k l, P ls r ls' → (n' <= k)%nat → l ∈ ls' → (uuid k ∉ map lock_id ls) → lock_id l ≠ uuid k) →
  file_locks_ok {| lw_store := (s', o'); lw_ids := n' |}
  ∧ other_locks file_lock_table (endpoint ep) {| lw_store := (s, o); lw_ids := n |} {| lw_store := (s', o'); lw_ids := n' |}
  ∧ P (file_lock_table {| lw_store := (s, o); lw_ids := n |} (endpoint ep)) r
      (file_lock_table {| lw_store := (s', o'); lw_ids := n' |} (endpoint ep)).
Proof.
  intros [Hs Hf Hd Hi] [[Fb Fs Fd Fo Ff] HP] Hn Hnew. cbn [fst snd lw_store lw_ids] in *.
  assert (other_locks file_lock_table (endpoint ep) {| lw_store := (s, o); lw_ids := n |}
    {| lw_store := (s', o'); lw_ids := n' |}) as Ho.
  { intros d Hdn Hne. unfold file_lock_table. cbn [fst snd lw_store]. rewrite Fb. by apply Fo. }
  assert (P (file_lock_table {| lw_store := (s, o); lw_ids := n |} (endpoint ep)) r
      (file_lock_table {| lw_store := (s', o'); lw_ids := n' |} (endpoint ep))) as HP'
    by (unfold file_lock_table; cbn [fst snd lw_store]; by rewrite Fb).
  split; [|done]. split; cbn [fst snd lw_store]; [done|auto|by rewrite Fb|].
  intros k d Hk Hdn Hin. cbn [lw_ids] in Hk.
  assert (uuid k ∉ map lock_id (file_lock_table {| lw_store := (s, o); lw_ids := n |} d)) as Hold
    by (apply Hi; cbn [lw_ids]; [lia|done]).
  destruct (decide (d = endpoint ep)) as [->|Hne].
  - apply list_elem_of_fmap in Hin as (l & El & Hl). by eapply (Hnew _ _ k l HP').
  - by rewrite (Ho d Hdn Hne) in Hin.
Qed.

#[export] Instance file_locks_laws {Hinj : Inj (=) (=) uuid} (Hne : ∀ k, uuid k ≠ []) :
  LockLaws file_locks file_lock_table file_locks_ok.
Proof.
  split; cbn [ls_create ls_list ls_unlock file_locks].
  - intros c ep path owner [[s o] n] l e w' Hv H. cbn [lw_store lw_ids snd] in H.
    destruct (create_lock c ep path owner (uuid n) (os_now o) (s, o)) as [[l1 e1] [s' o']] eqn:E.
    injection H as -> -> <-. pose proof Hv as [Hs _ Hd Hi].
    apply create_lock_spec in E; [|done|done|done|by apply Hi; auto with go].
    eapply (file_op _ ep s o n _ s' o' (S n)) in E as (Hv' & Ho & Hc); [|done|lia|].
    + split; [done|]. split; [done|]. destruct e as [e|]; cbn [create_spec] in Hc.
      * destruct Hc as [Hc Hl]. split; [exact Hc|]. destruct Hl as [(-> & Hin & Hp)|Hz]; [by left|by right].
      * destruct Hc as (Hl & Hp & Hins). split; [by rewrite Hl|]. split; [by rewrite Hl|].
        split; [exact Hp|]. rewrite Hins. apply insert_lock_perm.
    + intros ls ls' k l' Hc Hk Hin Hold E'. destruct e as [e|]; cbn [create_spec] in Hc.
      * destruct Hc as [-> _]. apply Hold. rewrite <-E'. by apply list_elem_of_fmap_2.
      * destruct Hc as (Hl & _ & ->). rewrite insert_lock_perm in Hin. apply elem_of_cons in Hin as [->|Hin].
        -- rewrite Hl in E'. apply (inj uuid) in E'. lia.
        -- apply Hold. rewrite <-E'. by apply list_elem_of_fmap_2.
  - intros c ep opts [[s o] n] r w' Hv H. cbn [lw_store lw_ids snd] in H.
    destruct (list_store c ep opts (s, o)) as [r1 [s' o']] eqn:E. injection H as <- <-.
    pose proof Hv as [Hs Hf Hd _]. apply list_store_spec in E as [_ E]; [|done..].
    specialize (E (λ d, Hf (endpoint ep) d (endpoint_safe_name ep))).
    eapply (file_op _ ep s o n _ s' o' n) in E as (Hv' & Ho & [Hc Hp]); [|done|lia|].
    + split; [done|]. split; [|done]. intros d Hdn.
      destruct (decide (d = endpoint ep)) as [->|Hne']; [done|by apply Ho].
    + intros ls ls' k l [-> _] _ Hin Hold E'. apply Hold. rewrite <-E'. by apply list_elem_of_fmap_2.
  - intros c ep id requester force [[s o] n] r w' Hv H. cbn [lw_store lw_ids snd] in H.
    destruct (unlock c ep id requester force (s, o)) as [r1 [s' o']] eqn:E. injection H as <- <-.
    pose proof Hv as [Hs _ Hd _]. apply unlock_op_spec in E; [|done..].
    eapply (file_op _ ep s o n _ s' o' n) in E as (Hv' & Ho & Hc); [|done|lia|].
    + split; [done|]. by split.
    + intros ls ls' k l Hc' _ Hin Hold E'. apply Hold. rewrite <-E'.
      destruct r1 as [l1|e]; cbn [unlock_spec] in Hc'.
      * destruct Hc' as (_ & _ & _ & ->). apply list_elem_of_fmap_2. by right.
      * rewrite <-Hc'. by apply list_elem_of_fmap_2.
Qed.

(** *** What else the store leaves alone *)

(** A call touches lock files only, and stays in its directory. *)
Definition touches_lock_files (w w' : locks_world) : Prop :=
  file_locks_ok w → file_locks_ok w' ∧ store_base (fst (lw_store w')) = store_base (fst (lw_store w))
    ∧ touches (store_base (fst (lw_store w))) lock_elems (snd (lw_store w)) (snd (lw_store w')).

#[export] Instance file_locks_lists {Hinj : Inj (=) (=) uuid} (Hne : ∀ k, uuid k ≠ []) :
  LockStoreLists file_locks touches_lock_files.
Proof.
  intros c ep opts [[s o] n] r w' H Hv. pose proof (file_locks_laws Hne) as L.
  pose proof (list_law c ep opts _ r w' Hv H) as [Hv' _]. split; [done|].
  cbn [ls_list file_locks lw_store] in H. destruct (list_store c ep opts (s, o)) as [r1 [s' o']] eqn:E.
  injection H as <- <-. destruct Hv as [Hs _ Hd _]. cbn [lw_store fst snd] in *.
  split; [|by eapply list_store_touches]. apply list_store_spec in E as [[Hb _] _]; done.
Qed.

#[export] Instance file_locks_writes {Hinj : Inj (=) (=) uuid} (Hne : ∀ k, uuid k ≠ []) :
  LockStoreWrites file_locks touches_lock_files.
Proof.
  pose proof (file_locks_laws Hne) as L. split.
  - intros c ep path owner [[s o] n] r w' H Hv.
    pose proof H as H'. destruct r as [l e]. apply create_law in H' as [Hv' _]; [|done]. split; [done|].
    cbn [ls_create file_locks lw_store lw_ids snd] in H.
    destruct (create_lock c ep path owner (uuid n) (os_now o) (s, o)) as [r1 [s' o']] eqn:E.
    injection H as -> <-. destruct Hv as [Hs _ Hd Hi]. cbn [lw_store fst snd] in *.
    split; [|by eapply create_lock_touches].
    apply create_lock_spec in E as [[Hb _] _]; [done|done|done|done|].
    apply (Hi n (endpoint ep)); [cbn; lia|auto with go].
  - intros c ep id requester force [[s o] n] r w' H Hv.
    pose proof H as H'. apply unlock_law in H' as [Hv' _]; [|done]. split; [done|].
    cbn [ls_unlock file_locks lw_store] in H.
    destruct (unlock c ep id requester force (s, o)) as [r1 [s' o']] eqn:E.
    injection H as <- <-. destruct Hv as [Hs _ Hd _]. cbn [lw_store fst snd] in *.
    split; [|by eapply unlock_touches]. apply unlock_op_spec in E as [[Hb _] _]; done.
Qed.

(** Calls that touch no lock file keep the store and its locks. *)
Lemma quiet_file_locks s o o' n : file_locks_ok {| lw_store := (s, o); lw_ids := n |} → quiet (store_base s) o o' →
  file_locks_ok {| lw_store := (s, o'); lw_ids := n |}
  ∧ LockHandlers.same_locks file_lock_table {| lw_store := (s, o); lw_ids := n |} {| lw_store := (s, o'); lw_ids := n |}.
Proof.
  intros [Hs Hf Hd Hi] Q. cbn [fst snd lw_store] in *.
  assert (∀ d, safe_name d = true → disk_locks (store_base s) o' d = disk_locks (store_base s) o d) as Hl
    by (intros d Hdn; by apply quiet_locks).
  split; [|by intros d Hdn; apply Hl]. split; cbn [fst snd lw_store lw_ids].
  - done.
  - by eapply fresh_quiet.
  - by eapply disk_quiet.
  - intros k d Hk Hdn. unfold file_lock_table. cbn [fst snd lw_store]. rewrite Hl by done. by apply (Hi k d).
Qed.
End FileLocks.
