(* ===== verification/EndToEnd.v ===== *)
(** * A transfer from end to end

    Batch, signer, handlers and the local backend together: a client that puts an
    object to the link a batch response gave it, and later gets it from another
    such link, receives the bytes it sent. *)

From S2P Require Import Prelude GoStrings GoUnicode GoPath GoConv GoHash GoTime GoUrl GoMime GoNet GoOs GoServe Sanitise Storage Local Signer Models LockSet Config Auth Batch Handler HandlerProofs.

Local Open Scope go_scope.

Section EndToEnd.
Context {U : Unicode} {I : IpSyntax} {F : FloatSyntax} (h : Handler Local.world).

(** The request is for the link of operation [op] on object [oid] that was signed at
    [signed_at] for the host the request came to. *)
Definition follows_link (op oid : gostring) (signed_at : Z) (r : Request) : Prop :=
  r_path_value r "oid" = oid ∧ r_ctx r = None
  ∧ request_base_url h r ++ r_request_uri r
    = act_href (signed_action (sign (h_signer h) signed_at op (request_base_url h r) (Batch.object_path h oid))).

(** Following a link before it expires passes the signature check. *)
Lemma link_valid op oid signed_at now r :
  plain_endpoint (h_endpoint h) → is_valid_oid oid = true →
  0 <= unix_seconds (signed_at + expiry (h_signer h)) <= max_int64 →
  unix_seconds now <= unix_seconds (signed_at + expiry (h_signer h)) →
  follows_link op oid signed_at r → require_valid_signature h r op now = None.
Proof.
  intros Hep Hoid Ht Hnow (_ & _ & Hlink).
  destruct (plain_under (h_endpoint h) ("/objects/" ++ oid) Hep) as [P1 P2].
  { apply Forall_app. split; [by repeat constructor|by apply valid_oid_plain]. }
  destruct (signed_action_verifies (h_signer h) signed_at op (request_base_url h r)
    (Batch.object_path h oid) P1 P2 Ht) as (uri & Hh & _ & Hv).
  rewrite Hh in Hlink. apply app_inv_head in Hlink. unfold require_valid_signature.
  rewrite Hlink, Hv. by rewrite (proj2 (Z.leb_le _ _) Hnow).
Qed.

Lemma max_bytes_reader_id limit rd : Z.of_nat (length (concat (rd_chunks rd))) <= limit →
  max_bytes_reader limit rd = rd.
Proof.
  intros H. unfold max_bytes_reader. rewrite (proj2 (Z.leb_le _ _)) by lia. done.
Qed.

(** C7. A transfer from end to end, over the local backend while no system call
    fails: putting the bytes an object ID names to an upload link of that object
    before it expires is answered 200, and getting a download link of the object
    then, before that one expires, without preconditions and ranges, is answered 200
    with exactly those bytes announced, and sent up to where the connection fails. *)
Theorem transfer_roundtrip oid k l o nm ns r1 t1 now1 r2 t2 now2 tr2 :
  h_store h = local_adapter → plain_endpoint (h_endpoint h) →
  normalise_oid oid = Ok k →
  os_faults o = [] → os_names o = nm :: ns → digits_name nm = true →
  os_files o !! temp_path (base_path l) (endpoint (ep_path (h_endpoint h))) nm = None →
  local_objects (l, o) (endpoint (ep_path (h_endpoint h))) k = None →
  let data := concat (rd_chunks (r_body r1)) in
  content_oid data = k → rd_eof (r_body r1) = true →
  Z.of_nat (length data) <= h_max_upload_size h → r_content_length r1 <= h_max_upload_size h →
  0 <= unix_seconds (t1 + expiry (h_signer h)) <= max_int64 →
  unix_seconds now1 <= unix_seconds (t1 + expiry (h_signer h)) →
  0 <= unix_seconds (t2 + expiry (h_signer h)) <= max_int64 →
  unix_seconds now2 <= unix_seconds (t2 + expiry (h_signer h)) →
  follows_link op_upload oid t1 r1 → follows_link op_download oid t2 r2 →
  r_method r2 = "GET"%go → (∀ k, k ∈ ["If-Match"; "If-None-Match"; "Range"]%go → r_header r2 k = []) →
  tr_seekable tr2 = true → tr_size_seek tr2 = true →
  ∃ w', upload_handler h r1 now1 (l, o) = (write_ok, w')
    ∧ ∃ resp, download_handler h r2 now2 tr2 w' = (resp, w')
        ∧ rs_status resp = 200 ∧ rs_body resp = BytesBody (sent_part (tr_sent tr2) data)
        ∧ rs_header resp !! "Content-Length"%go = Some (format_int (Z.of_nat (length data))).
Proof.
  cbv zeta. intros Hst Hep Hk Hf Hns Hnm Hfree Hnone Hc Heof Hlen Hcl Ht1 Hn1 Ht2 Hn2 L1 L2 Hm Hh Hsk Hsz.
  pose proof (proj1 (normalise_oid_ok _ _) Hk) as [Hv _].
  pose proof (link_valid op_upload oid t1 now1 r1 Hep Hv Ht1 Hn1 L1) as S1.
  pose proof (link_valid op_download oid t2 now2 r2 Hep Hv Ht2 Hn2 L2) as S2.
  destruct L1 as (E1 & C1 & _), L2 as (E2 & C2 & _).
  pose proof (local_put_no_fault (ep_path (h_endpoint h)) oid (r_body r1) (r_content_length r1) l o k nm ns
    Hk Hf Hns Hnm Hfree) as Hput. cbv zeta in Hput.
  assert (put_outcome k (r_body r1) = Ok tt) as Hout.
  { unfold put_outcome. rewrite Heof. cbn [negb]. by rewrite (proj2 (str_eqb_eq _ _) Hc). }
  rewrite Hout in Hput. cbn [is_ok] in Hput.
  match type of Hput with _ = (_, ?w) => set (w' := w) in Hput end.
  exists w'. split.
  - unfold upload_handler. rewrite E1, Hv, S1, C1, Hst. cbn [negb ad_exists ad_put local_adapter].
    rewrite (proj2 (Z.ltb_ge _ _) Hcl), (local_missing_no_fault _ _ k _ Hk Hnone Hf).
    by rewrite max_bytes_reader_id, Hput.
  - destruct (local_read_no_fault (ep_path (h_endpoint h)) oid k (concat (rd_chunks (r_body r1))) w' Hk) as (Hg & _).
    { unfold local_objects. subst w'. cbn [fst snd os_files base_path with_writing].
      by rewrite lookup_insert_eq. }
    { done. }
    unfold download_handler. rewrite E2, Hv, S2, C2, Hst. cbn [negb ad_get local_adapter]. rewrite Hg.
    eexists. split; [reflexivity|].
    pose proof (write_object_answer r2 tr2 (concat (rd_chunks (r_body r1)))) as (body & Hb & Ha & _).
    rewrite E2 in Hb, Ha.
    destruct (serve_content_plain (r_method r2) (r_header r2) tr2 (concat (rd_chunks (r_body r1))) (download_header oid))
      as (hdr & Hs); [by apply Hh; set_solver|by apply Hh; set_solver|by apply Hh; set_solver|done|].
    unfold write_object in *. rewrite Hsk, Hs in *. cbn [rs_status rs_header rs_body] in *.
    split; [done|]. unfold writes in *. rewrite Hm in *. split; [done|].
    by inversion Ha.
Qed.
End EndToEnd.
