(* ===== verification/UploadBody.v ===== *)
(** * lfs/idle.go and lfs/body.go: the body of an upload

    The readers around a request's body: the one that gives every read a deadline,
    and the one that keeps the first error.  The connection is what has arrived, and
    will, with the times of arrival.  At the end, with the upload handler and the
    local backend: an upload that stalls. *)

From S2P Require Import Prelude GoStrings GoUnicode GoPath GoConv GoHash GoTime GoUrl GoMime GoNet GoOs Sanitise Storage Local Signer Models LockSet Config Auth Batch Handler HandlerProofs EndToEnd.

Local Open Scope go_scope.

(** ** The connection *)

(** What one [Read] of the body gives, from the time it has arrived on: data, or an
    error with the last data. *)
Definition arrival : Type := Z * gostring * option go_error.

Record connection := { cn_deadline : option Z; cn_arrivals : list arrival }.

(** [SetReadDeadline] *)
Definition set_deadline (d : option Z) (c : connection) : connection :=
  {| cn_deadline := d; cn_arrivals := cn_arrivals c |}.

(** A [Read] of the body that starts at [now]: what it gives, and when; [None] if it
    waits for ever.  An error is given again to later reads. *)
Definition body_read (now : Z) (c : connection) : option (gostring * option go_error * Z * connection) :=
  let expired d := Some ([], Some [DeadlineExceeded], Z.max now d, c) in
  match cn_arrivals c with
  | [] => match cn_deadline c with Some d => expired d | None => None end
  | (t, data, err) :: rest =>
      let deliver := Some (data, err, Z.max now t,
        {| cn_deadline := cn_deadline c;
           cn_arrivals := match err with Some _ => [(t, [], err)] | None => rest end |}) in
      match cn_deadline c with
      | Some d => if d <? Z.max now t then expired d else deliver
      | None => deliver
      end
  end.

(** ** The readers *)

(** [idleTimeoutReader]; a timeout of [None] is the body itself. *)
Record idle_reader := { id_timeout : option Z; id_ended : bool; id_conn : connection }.

(** [withIdleTimeout]; [supported] is whether the connection takes deadlines. *)
Definition with_idle_timeout (supported : bool) (c : connection) (timeout : Z) : idle_reader :=
  if timeout <=? 0 then {| id_timeout := None; id_ended := false; id_conn := c |}
  else if negb supported then {| id_timeout := None; id_ended := false; id_conn := c |}
  else {| id_timeout := Some timeout; id_ended := false; id_conn := set_deadline None c |}.

(** [idleTimeoutReader.Read] *)
Definition idle_read (now : Z) (r : idle_reader) : option (gostring * option go_error * Z * idle_reader) :=
  match id_timeout r with
  | None =>
      '(data, err, now, c) ← body_read now (id_conn r);
      Some (data, err, now, {| id_timeout := None; id_ended := id_ended r; id_conn := c |})
  | Some timeout =>
      let c := if negb (id_ended r) then set_deadline (Some (now + timeout)) (id_conn r) else id_conn r in
      '(data, err, now, c) ← body_read now c;
      let ended := match err with Some e => errors_is EOF e | None => false end in
      Some (data, err, now, {| id_timeout := Some timeout; id_ended := id_ended r || ended; id_conn := c |})
  end.

(** [readErrorRecorder] *)
Record read_error_recorder := { rec_reader : idle_reader; rec_err : option go_error }.

(** [readErrorRecorder.Read] *)
Definition recorder_read (now : Z) (r : read_error_recorder)
  : option (gostring * option go_error * Z * read_error_recorder) :=
  '(data, err, now, i) ← idle_read now (rec_reader r);
  let kept := match err, rec_err r with
              | Some e, None => if negb (errors_is EOF e) then Some e else None
              | _, kept => kept
              end in
  Some (data, err, now, {| rec_reader := i; rec_err := kept |}).

(** Reading to the end, as [io.Copy] does, the reader of the data taking [pauses]
    before each read: the data of the reads and the error that ended them. *)
Fixpoint drain (pauses : list Z) (now : Z) (r : read_error_recorder)
  : list gostring * option go_error * read_error_recorder :=
  match pauses with
  | [] => ([], None, r)
  | p :: pauses =>
      match recorder_read (now + p) r with
      | None => ([], None, r)
      | Some (data, Some e, _, r) => ([data], Some e, r)
      | Some (data, None, now, r) =>
          let '(chunks, err, r) := drain pauses now r in (data :: chunks, err, r)
      end
  end.

(** What the handler reads of a body whose data arrives as [arrivals]. *)
Definition read_upload (timeout now : Z) (pauses : list Z) (arrivals : list arrival)
  : list gostring * option go_error * option go_error :=
  let c := {| cn_deadline := None; cn_arrivals := arrivals |} in
  let '(chunks, err, r) :=
    drain pauses now {| rec_reader := with_idle_timeout true c timeout; rec_err := None |} in
  (chunks, err, rec_err r).

(** ** What they give *)

(** Data that arrives no later than the timeout after the read that waits for it
    starts; [later] is when the last read is over. *)
Fixpoint arrives (timeout now : Z) (pauses : list Z) (data : list (Z * gostring)) (later : Z) {struct data} : Prop :=
  match data, pauses with
  | [], _ => later = now
  | (t, _) :: data, p :: pauses => t <= now + p + timeout ∧ arrives timeout (Z.max (now + p) t) pauses data later
  | _, [] => False
  end.

Definition data_arrivals (data : list (Z * gostring)) : list arrival := map (λ '(t, d), (t, d, None)) data.

Abbreviation idle timeout d arrivals :=
  {| rec_reader := {| id_timeout := Some timeout; id_ended := false;
                      id_conn := {| cn_deadline := d; cn_arrivals := arrivals |} |}; rec_err := None |}.

Lemma recorder_data timeout now d t bytes rest : 0 < timeout → t <= now + timeout →
  recorder_read now (idle timeout d ((t, bytes, None) :: rest))
  = Some (bytes, None, Z.max now t, idle timeout (Some (now + timeout)) rest).
Proof.
  intros Ht Hle. unfold recorder_read, idle_read, body_read. simpl.
  by rewrite (proj2 (Z.ltb_ge (now + timeout) (Z.max now t))) by lia.
Qed.

Lemma recorder_end timeout now d t bytes rest : 0 < timeout → t <= now + timeout → ∃ r,
  recorder_read now (idle timeout d ((t, bytes, Some [EOF]) :: rest)) = Some (bytes, Some [EOF], Z.max now t, r)
  ∧ rec_err r = None.
Proof.
  intros Ht Hle. unfold recorder_read, idle_read, body_read. simpl.
  rewrite (proj2 (Z.ltb_ge (now + timeout) (Z.max now t))) by lia. by eexists.
Qed.

Lemma recorder_late timeout now d rest : 0 < timeout →
  match rest with [] => True | (t, _, _) :: _ => now + timeout < t end → ∃ late r,
  recorder_read now (idle timeout d rest) = Some ([], Some [DeadlineExceeded], late, r)
  ∧ rec_err r = Some [DeadlineExceeded].
Proof.
  intros Ht Hlate. unfold recorder_read, idle_read, body_read. simpl.
  destruct rest as [|[[t bytes] err] rest]; simpl; [by eexists _, _|].
  rewrite (proj2 (Z.ltb_lt (now + timeout) (Z.max now t))) by lia. by eexists _, _.
Qed.

Lemma drain_data timeout now pauses data rest later d : 0 < timeout →
  arrives timeout now pauses data later → ∃ d',
  drain pauses now (idle timeout d (data_arrivals data ++ rest))
  = let '(chunks, err, r) := drain (drop (length data) pauses) later (idle timeout d' rest) in
    (map snd data ++ chunks, err, r).
Proof.
  intros Ht. revert now pauses d. induction data as [|[t bytes] data IH]; intros now pauses d Ha.
  { cbn in Ha. subst later. exists d. change (data_arrivals [] ++ rest) with rest. cbn [length map app]. rewrite drop_0.
    by destruct (drain pauses now (idle timeout d rest)) as [[chunks err] r]. }
  destruct pauses as [|p pauses]; [done|]. destruct Ha as [Hle Ha].
  destruct (IH _ _ (Some (now + p + timeout)) Ha) as (d' & Hd). exists d'.
  change (data_arrivals ((t, bytes) :: data) ++ rest) with ((t, bytes, None) :: (data_arrivals data ++ rest)).
  cbn [drain]. rewrite recorder_data by done. rewrite Hd. cbn [length map app skipn].
  by destruct (drain (drop (length data) pauses) later (idle timeout d' rest)) as [[chunks err] r].
Qed.

Lemma read_upload_start timeout now pauses arrivals : 0 < timeout →
  read_upload timeout now pauses arrivals
  = let '(chunks, err, r) := drain pauses now (idle timeout None arrivals) in (chunks, err, rec_err r).
Proof. intros Ht. unfold read_upload, with_idle_timeout. by rewrite (proj2 (Z.leb_gt _ _) Ht). Qed.

(** A body that keeps arriving is read to its end, however long it takes. *)
Lemma read_upload_complete timeout now pauses data later t bytes p : 0 < timeout →
  arrives timeout now pauses data later → pauses !! length data = Some p →
  t <= later + p + timeout →
  read_upload timeout now pauses (data_arrivals data ++ [(t, bytes, Some [EOF])])
  = (map snd data ++ [bytes], Some [EOF], None).
Proof.
  intros Ht Ha Hlook Hle. rewrite read_upload_start by done.
  destruct (drain_data timeout now pauses data [(t, bytes, Some [EOF])] later None Ht Ha) as (d' & ->).
  rewrite (drop_S _ _ _ Hlook). cbn [drain].
  destruct (recorder_end timeout (later + p) d' t bytes [] Ht Hle) as (r & -> & ->). done.
Qed.

(** A client that stops sending, or goes on too late, ends the body with the deadline's
    error. *)
Lemma read_upload_stalled timeout now pauses data rest later p : 0 < timeout →
  arrives timeout now pauses data later → pauses !! length data = Some p →
  match rest with [] => True | (t, _, _) :: _ => later + p + timeout < t end →
  read_upload timeout now pauses (data_arrivals data ++ rest)
  = (map snd data ++ [[]], Some [DeadlineExceeded], Some [DeadlineExceeded]).
Proof.
  intros Ht Ha Hlook Hlate. rewrite read_upload_start by done.
  destruct (drain_data timeout now pauses data rest later None Ht Ha) as (d' & ->).
  rewrite (drop_S _ _ _ Hlook). cbn [drain].
  destruct (recorder_late timeout (later + p) d' rest Ht Hlate) as (late & r & -> & ->). done.
Qed.

(** ** An upload that stalls *)

Section Stalled.
Context {U : Unicode} {I : IpSyntax} {F : FloatSyntax} (h : Handler Local.world).

(** The body of a request is what the readers give of the arrivals. *)
Definition body_arrives (r : Request) (now : Z) (pauses : list Z) (arrivals : list arrival) : Prop :=
  ∃ recorded, read_upload (h_upload_idle_timeout h) now pauses arrivals
    = (rd_chunks (r_body r), Some (rd_end (r_body r)), recorded).

(** C25. The idle timeout. An upload whose client sends nothing for longer than the
    timeout is answered 408, and leaves nothing in the data directory, here over the
    local backend while no system call fails; one whose data keeps arriving is read
    to its end, however long the whole takes. *)
Theorem stalled_upload now pauses data later p :
  0 < h_upload_idle_timeout h →
  arrives (h_upload_idle_timeout h) now pauses data later → pauses !! length data = Some p →
  (∀ t bytes, t <= later + p + h_upload_idle_timeout h →
     read_upload (h_upload_idle_timeout h) now pauses (data_arrivals data ++ [(t, bytes, Some [EOF])])
     = (map snd data ++ [bytes], Some [EOF], None))
  ∧ ∀ rest r oid k l o nm ns signed_now,
      match rest with [] => True | (t, _, _) :: _ => later + p + h_upload_idle_timeout h < t end →
      body_arrives r now pauses (data_arrivals data ++ rest) →
      h_store h = local_adapter → normalise_oid oid = Ok k → r_path_value r "oid" = oid → r_ctx r = None →
      require_valid_signature h r op_upload signed_now = None → r_content_length r <= h_max_upload_size h →
      Z.of_nat (length (concat (map snd data))) <= h_max_upload_size h →
      os_faults o = [] → os_names o = nm :: ns → digits_name nm = true →
      os_files o !! temp_path (base_path l) (endpoint (ep_path (h_endpoint h))) nm = None →
      local_objects (l, o) (endpoint (ep_path (h_endpoint h))) k = None →
      ∃ w', upload_handler h r signed_now (l, o)
        = (write_error r 408 ("no upload data received for " ++ duration_string (h_upload_idle_timeout h)), w')
        ∧ os_files (snd w') = os_files o.
Proof.
  intros Ht Ha Hlook. split; [intros t bytes; by apply (read_upload_complete _ _ _ _ later _ _ p)|].
  intros rest r oid k l o nm ns signed_now Hlate (recorded & Hbody) Hst Hk Hoid Hctx Hsig Hcl Hlen Hf Hns Hnm Hfree Hnone.
  rewrite (read_upload_stalled _ _ _ _ rest later p) in Hbody by done. injection Hbody as Hchunks Hend _.
  pose proof (proj1 (normalise_oid_ok _ _) Hk) as [Hv _].
  pose proof (local_put_no_fault (ep_path (h_endpoint h)) oid (r_body r) (r_content_length r) l o k nm ns
    Hk Hf Hns Hnm Hfree) as Hput. cbv zeta in Hput.
  assert (put_outcome k (r_body r) = Err [DeadlineExceeded]) as Hout.
  { unfold put_outcome, rd_eof. by rewrite <-Hend. }
  rewrite Hout in Hput. cbn [is_ok] in Hput.
  match type of Hput with _ = (_, ?w) => set (w' := w) in Hput end.
  exists w'. split; [|done].
  unfold upload_handler. rewrite Hoid, Hv, Hsig, Hctx, Hst. cbn [negb ad_exists ad_put local_adapter].
  rewrite (proj2 (Z.ltb_ge _ _) Hcl), (local_missing_no_fault _ _ k _ Hk Hnone Hf).
  rewrite max_bytes_reader_id.
  - by rewrite Hput.
  - rewrite <-Hchunks, concat_app. cbn [concat app]. by rewrite app_nil_r.
Qed.
End Stalled.
