(* ===== verification/Routes.v ===== *)
(** * main.go: the routes of a server

    Which handler answers which request: the patterns [registerRoutes] and
    [registerServiceRoutes] give the multiplexer, for the endpoints of a
    configuration that loads. *)

From S2P Require Import Prelude GoStrings GoUnicode GoRegexp GoPath GoConv GoUrl GoMime GoNet GoMux Sanitise Config ConfigLoad.

Local Open Scope go_scope.

(** ** The routes *)

(** The handlers of an endpoint. *)
Inductive route : Type :=
| RBatch | RCreateLock | RListLocks | RVerifyLocks | RUnlock | RDownload | RUpload | RVerify.

#[export] Instance route_eq_dec : EqDecision route.
Proof. solve_decision. Defined.

(** What a request is given to; an endpoint's handlers may be behind the rate
    limiter. *)
Inductive target : Type :=
| TEndpoint (ep : Endpoint) (limited : bool) (r : route)
| THealth | TReady | TVersion | TNotFound.

(** The calls of [registerRoutes]. *)
Definition endpoint_routes (ep : Endpoint) : list (gostring * target) :=
  let prefix := ep_path ep in
  let limited r := TEndpoint ep true r in
  [("POST " ++ prefix ++ "/objects/batch", limited RBatch);
   ("POST " ++ prefix ++ "/locks", limited RCreateLock);
   ("GET " ++ prefix ++ "/locks", limited RListLocks);
   ("POST " ++ prefix ++ "/locks/verify", limited RVerifyLocks);
   ("POST " ++ prefix ++ "/locks/{id}/unlock", limited RUnlock);
   ("GET " ++ prefix ++ "/objects/{oid}", TEndpoint ep false RDownload);
   ("PUT " ++ prefix ++ "/objects/{oid}", TEndpoint ep false RUpload);
   ("POST " ++ prefix ++ "/objects/verify", TEndpoint ep false RVerify)].

(** [registerRoutes] *)
Definition register_routes (ep : Endpoint) (m : list (pattern * target)) : option (list (pattern * target)) :=
  handle_all (endpoint_routes ep) m.

(** The calls of [registerServiceRoutes]. *)
Definition service_routes : list (gostring * target) :=
  [("GET /health", THealth); ("GET /ready", TReady); ("GET /{$}", TVersion); ("/", TNotFound)]%go.

(** [registerServiceRoutes] *)
Definition register_service_routes (m : list (pattern * target)) : option (list (pattern * target)) :=
  handle_all service_routes m.

(** The loop over the endpoints of [serve], and the routes of the service after it;
    [None] when a registration panics. *)
Fixpoint register_endpoints (eps : list Endpoint) (m : list (pattern * target)) : option (list (pattern * target)) :=
  match eps with
  | [] => Some m
  | ep :: eps => m ← register_routes ep m; register_endpoints eps m
  end.
Definition serve_mux (eps : list Endpoint) : option (list (pattern * target)) :=
  m ← register_endpoints eps []; register_service_routes m.

(** ** The patterns of the routes *)

Definition all_routes : list route :=
  [RBatch; RCreateLock; RListLocks; RVerifyLocks; RUnlock; RDownload; RUpload; RVerify].

(** Signed transfers are not rate limited. *)
Definition is_transfer (r : route) : bool :=
  match r with RDownload | RUpload | RVerify => true | _ => false end.

Definition route_method (r : route) : gostring :=
  match r with RListLocks | RDownload => "GET" | RUpload => "PUT" | _ => "POST" end.

(** The end of the path of a route, [v] being the value of its wildcard. *)
Definition route_parts (r : route) (v : gostring) : list gostring :=
  match r with
  | RBatch => ["objects"; "batch"]
  | RCreateLock | RListLocks => ["locks"]
  | RVerifyLocks => ["locks"; "verify"]
  | RUnlock => ["locks"%go; v; "unlock"%go]
  | RDownload | RUpload => ["objects"%go; v]
  | RVerify => ["objects"; "verify"]
  end%go.

Definition route_values (r : route) (v : gostring) : list (gostring * gostring) :=
  match r with RUnlock => [("id"%go, v)] | RDownload | RUpload => [("oid"%go, v)] | _ => [] end.

(** The values a wildcard can have; ["objects/locks"] is another endpoint's. *)
Definition route_value_ok (r : route) (v : gostring) : Prop :=
  match r with
  | RUnlock | RUpload => v ≠ "/"%go
  | RDownload => v ≠ "/"%go ∧ v ≠ "locks"%go
  | _ => True
  end.

Definition route_text (r : route) : list gostring :=
  match r with
  | RUnlock => ["locks"; "{id}"; "unlock"]
  | RDownload | RUpload => ["objects"; "{oid}"]
  | _ => route_parts r []
  end%go.
Definition route_segs (r : route) : list segment :=
  match r with
  | RUnlock => [Lit "locks"; Wild "id"; Lit "unlock"]
  | RDownload | RUpload => [Lit "objects"; Wild "oid"]
  | _ => literals (route_parts r [])
  end%go.

Definition route_pattern (es : list gostring) (r : route) : pattern :=
  {| pt_method := route_method r; pt_host := []; pt_segs := literals es ++ route_segs r |}.

(** The elements of an endpoint's path. *)
Definition path_elems (path : gostring) : list gostring := split_on slash (drop 1 path).

Definition endpoint_entries (ep : Endpoint) : list (pattern * target) :=
  map (λ r, (route_pattern (path_elems (ep_path ep)) r, TEndpoint ep (negb (is_transfer r)) r)) all_routes.
Definition service_entries : list (pattern * target) :=
  [({| pt_method := "GET"; pt_host := []; pt_segs := [Lit "health"] |}, THealth);
   ({| pt_method := "GET"; pt_host := []; pt_segs := [Lit "ready"] |}, TReady);
   ({| pt_method := "GET"; pt_host := []; pt_segs := [Lit "/"] |}, TVersion);
   ({| pt_method := []; pt_host := []; pt_segs := [Multi] |}, TNotFound)]%go.
Definition server_entries (eps : list Endpoint) : list (pattern * target) :=
  flat_map endpoint_entries eps ++ service_entries.

Lemma no_multi es r : ends_in_multi (literals es ++ route_segs r) = false.
Proof.
  unfold ends_in_multi. destruct r; cbn [route_segs route_parts literals map]; by rewrite last_app.
Qed.

(** *** Their syntax *)

Section Properties.
Context {U : Unicode}.

Lemma good_path_elems path : good_path path →
  path = slash :: join [slash] (path_elems path) ∧ plain_elems (path_elems path)
  ∧ Forall literal_elem (path_elems path).
Proof.
  intros [Hroot Hclean _ Hvalid _]. pose proof (endpoint_valid_bytes _ Hvalid) as Hb.
  assert (is_rooted path = true) as Hr.
  { apply has_prefix_spec in Hroot as [r ->]. done. }
  pose proof (clean_elems_normal path) as Hn. pose proof (clean_elems_no_slash path) as Hs.
  assert (path = slash :: join [slash] (clean_elems path)) as Hp.
  { rewrite <-Hclean at 1. unfold path_clean. by rewrite Hr. }
  assert (clean_elems path ≠ []) as Hne.
  { intros Hnil. rewrite Hnil in Hp. rewrite Hp in Hvalid. by apply Hvalid. }
  assert (path_elems path = clean_elems path) as ->.
  { unfold path_elems. rewrite Hp at 1. cbn [drop]. by apply split_on_join. }
  split; [done|]. rewrite Hr in Hn. destruct Hn as (k & ps & Hk & Hps & Hk0).
  rewrite (Hk0 eq_refl) in Hk. cbn [replicate app] in Hk. rewrite <-Hk in Hps.
  split; [done|]. apply forallb_Forall in Hps.
  apply Forall_forall. intros e He. rewrite Forall_forall in Hps. specialize (Hps _ He).
  apply plain_elem_true in Hps as [Hene _]. split; [done|].
  assert (Forall (λ c, safe_or_dot c || is_separator c = true) e) as Hbe.
  { apply Forall_forall. intros c Hc. rewrite Forall_forall in Hb. apply Hb. rewrite Hp. right.
    clear -He Hc. revert He. generalize (clean_elems path) as l. intros l.
    induction l as [|x l IH]; intros He; [by apply elem_of_nil in He|]. apply elem_of_cons in He as [<-|He].
    - destruct l; [done|]. apply elem_of_app. by left.
    - destruct l; [by apply elem_of_nil in He|]. apply elem_of_app. right. right. by apply IH. }
  split.
  - intros Hin. rewrite Forall_forall in Hbe. by specialize (Hbe _ Hin).
  - eapply Forall_impl; [exact Hbe|]. apply path_byte_plain.
Qed.

Lemma route_text_plain r : plain_elems (route_text r).
Proof. destruct r; (split; [done|]); (split; [|done]); repeat constructor; by apply (bool_decide_unpack (_ ∉ _)). Qed.

Lemma route_text_parse r : parse_segments [] (route_text r) = Some (route_segs r).
Proof. by destruct r. Qed.

Lemma route_pattern_parse path r : good_path path →
  parse_pattern (route_method r ++ " " ++ path ++ slash :: join [slash] (route_text r))
  = Some (route_pattern (path_elems path) r).
Proof.
  intros Hgood. destruct (good_path_elems path Hgood) as (Hp & Hes & Hlit). rewrite Hp at 1.
  destruct (route_text_plain r) as (Hne & Hs & Hpl). destruct Hes as (Hene & Hesl & Hepl).
  set (es := path_elems path) in *.
  assert (plain_elems (es ++ route_text r)) as Hall.
  { split; [by destruct es|]. split; [by apply Forall_app|]. by rewrite forallb_app, Hepl, Hpl. }
  change ((slash :: join [slash] es) ++ slash :: join [slash] (route_text r))
    with (slash :: (join [slash] es ++ [slash] ++ join [slash] (route_text r))).
  rewrite <-join_app by done. apply parse_pattern_method.
  - destruct r; by apply (bool_decide_unpack (_ ∈ _)).
  - by apply clean_url_path_plain.
  - rewrite split_on_join by apply Hall. rewrite parse_segments_literals by done. by rewrite route_text_parse.
Qed.

Lemma endpoint_routes_parse ep : good_path (ep_path ep) → Forall2 parses_to (endpoint_routes ep) (endpoint_entries ep).
Proof.
  intros Hgood. pose proof (λ r, route_pattern_parse (ep_path ep) r Hgood) as Hp.
  repeat constructor; cbn [fst snd]; [apply (Hp RBatch)|apply (Hp RCreateLock)|apply (Hp RListLocks)
    |apply (Hp RVerifyLocks)|apply (Hp RUnlock)|apply (Hp RDownload)|apply (Hp RUpload)|apply (Hp RVerify)].
Qed.

Lemma service_routes_parse : Forall2 parses_to service_routes service_entries.
Proof. repeat constructor. Qed.

(** *** No two of them conflict *)

Lemma literals_app a b : literals (a ++ b) = literals a ++ literals b.
Proof. apply map_app. Qed.
Lemma literals_length es : length (literals es) = length es.
Proof. apply length_map. Qed.

Lemma route_segs_paths e1 e2 r1 r2 :
  compare_paths (literals e1 ++ route_segs r1) (literals e2 ++ route_segs r2) =
    if decide (length e1 + length (route_segs r1) = length e2 + length (route_segs r2))%nat
    then compare_from Equivalent (literals e1 ++ route_segs r1) (literals e2 ++ route_segs r2) false false
    else Disjoint.
Proof.
  pose proof (no_multi e1 r1). pose proof (no_multi e2 r2). case_decide as Hl.
  - apply compare_paths_from; [done..|]. by rewrite !length_app, !literals_length.
  - apply compare_paths_lengths; [done..|]. by rewrite !length_app, !literals_length.
Qed.

Definition last_seg (r : route) : segment := List.last (route_segs r) Multi.

Lemma last_seg_disjoint e1 e2 r1 r2 : compare_segments (last_seg r1) (last_seg r2) = Disjoint →
  compare_paths (literals e1 ++ route_segs r1) (literals e2 ++ route_segs r2) = Disjoint.
Proof.
  intros Hd. rewrite route_segs_paths. case_decide as Hl; [|done].
  assert (∀ r, route_segs r = removelast (route_segs r) ++ [last_seg r]) as Hlast by (by intros []).
  rewrite (Hlast r1), (Hlast r2), !app_assoc. rewrite (Hlast r1), (Hlast r2), !length_app in Hl.
  apply compare_from_last; [|done]. rewrite !length_app, !literals_length. cbn [length] in Hl. lia.
Qed.

Lemma same_length_paths e1 e2 r1 r2 : length (route_segs r1) = length (route_segs r2) →
  compare_paths (literals e1 ++ route_segs r1) (literals e2 ++ route_segs r2)
  = if decide (e1 = e2) then compare_from Equivalent (route_segs r1) (route_segs r2) false false else Disjoint.
Proof.
  intros Hlr. rewrite route_segs_paths, Hlr. case_decide as Hl.
  - apply compare_from_literals. lia.
  - rewrite decide_False; [done|]. intros ->. lia.
Qed.

(** The locks of an endpoint and the objects of the one above can both be meant by a
    path, but the former are more specific. *)
Lemma locks_and_objects e1 e2 :
  compare_paths (literals e1 ++ route_segs RListLocks) (literals e2 ++ route_segs RDownload) ∈ [Disjoint; MoreSpecific]
  ∧ compare_paths (literals e2 ++ route_segs RDownload) (literals e1 ++ route_segs RListLocks) ∈ [Disjoint; MoreGeneral].
Proof.
  assert (literals e2 ++ route_segs RDownload = literals (e2 ++ ["objects"%go]) ++ [Wild "oid"]) as Heq
    by (rewrite literals_app; by rewrite <-app_assoc).
  rewrite !route_segs_paths, Heq. cbn [length route_segs route_parts literals map]. split; case_decide as Hl.
  2,4: by left.
  all: fold (literals e1); rewrite compare_from_literals by (rewrite length_app; simpl; lia);
    case_decide; [right; left; reflexivity|by left].
Qed.

Lemma routes_no_conflict e1 e2 r1 r2 : e1 ≠ e2 ∨ r1 ≠ r2 →
  conflicts_with (route_pattern e1 r1) (route_pattern e2 r2) = false.
Proof.
  intros Hne. destruct (locks_and_objects e1 e2) as [Hld _]. destruct (locks_and_objects e2 e1) as [_ Hdl].
  destruct r1, r2; try (by apply conflicts_methods);
    try (apply conflicts_disjoint; apply last_seg_disjoint; reflexivity).
  all: try (apply conflicts_disjoint; cbn [pt_segs route_pattern]; rewrite same_length_paths by done;
            case_decide; [|done]; first [reflexivity|by destruct Hne]).
  - unfold conflicts_with, compare_patterns. cbn [pt_segs pt_method pt_host route_pattern].
    rewrite !elem_of_cons in Hld. destruct Hld as [->|[->|Hbad%elem_of_nil]]; done.
  - unfold conflicts_with, compare_patterns. cbn [pt_segs pt_method pt_host route_pattern].
    rewrite !elem_of_cons in Hdl. destruct Hdl as [->|[->|Hbad%elem_of_nil]]; done.
Qed.

Lemma service_no_conflict es r x : es ≠ [] → x ∈ service_entries →
  conflicts_with (fst x) (route_pattern es r) = false ∧ conflicts_with (route_pattern es r) (fst x) = false.
Proof.
  intros Hne Hx. unfold service_entries in Hx. rewrite !elem_of_cons in Hx.
  assert (2 <= length (literals es ++ route_segs r))%nat as Hlen.
  { rewrite length_app, literals_length. destruct es as [|e es]; [done|]. destruct r; simpl; lia. }
  assert (∀ s, compare_paths [Lit s] (literals es ++ route_segs r) = Disjoint
    ∧ compare_paths (literals es ++ route_segs r) [Lit s] = Disjoint) as Hlit.
  { intros s. pose proof (no_multi es r). split; apply compare_paths_lengths; try done; simpl; lia. }
  destruct Hx as [->|[->|[->|[->|Hx%elem_of_nil]]]]; [..|done]; try (split; apply conflicts_disjoint; apply Hlit).
  destruct es as [|e es]; [done|]. unfold conflicts_with, compare_patterns.
  pose proof (no_multi (e :: es) r) as Hm. cbn [pt_segs pt_method pt_host route_pattern fst] in *.
  unfold compare_paths. rewrite Hm. cbn [ends_in_multi last is_multi]. rewrite !andb_false_r. cbn [negb andb].
  cbn [literals map app compare_from compare_segments combine_relationships].
  destruct (map Lit es ++ route_segs r) as [|x l] eqn:El; [by destruct r, es|]. destruct r; done.
Qed.

(** *** All are registered *)

Section Server.
Context (eps : list Endpoint) (Hgood : Forall (λ ep, good_path (ep_path ep)) eps) (Hdirs : NoDup (map storage_directory eps)).

Lemma paths_distinct ep1 ep2 : ep1 ∈ eps → ep2 ∈ eps → path_elems (ep_path ep1) = path_elems (ep_path ep2) → ep1 = ep2.
Proof.
  intros H1 H2 He. rewrite Forall_forall in Hgood.
  destruct (good_path_elems _ (Hgood _ H1)) as (P1 & _). destruct (good_path_elems _ (Hgood _ H2)) as (P2 & _).
  rewrite He, <-P2 in P1. assert (storage_directory ep1 = storage_directory ep2) as Hd
    by (unfold storage_directory; by rewrite P1).
  apply list_elem_of_lookup in H1 as [i Hi]. apply list_elem_of_lookup in H2 as [j Hj].
  assert (i = j) as ->; [|congruence].
  apply (NoDup_lookup (map storage_directory eps) i j (storage_directory ep1)); [done|..].
  - apply list_lookup_fmap_Some. eauto.
  - rewrite Hd. apply list_lookup_fmap_Some. eauto.
Qed.

Lemma server_entry_in x : x ∈ server_entries eps ↔
  (∃ ep r, ep ∈ eps ∧ x = (route_pattern (path_elems (ep_path ep)) r, TEndpoint ep (negb (is_transfer r)) r))
  ∨ x ∈ service_entries.
Proof.
  unfold server_entries. rewrite elem_of_app. apply or_iff_compat_r. rewrite list_elem_of_In, in_flat_map. split.
  - intros (ep & Hep & Hx). apply in_map_iff in Hx as (r & <- & _). exists ep, r. by rewrite list_elem_of_In.
  - intros (ep & r & Hep & ->). exists ep. rewrite <-list_elem_of_In. split; [done|].
    apply in_map_iff. exists r. split; [done|]. destruct r; simpl; auto 9.
Qed.

Lemma endpoint_entry_elems ep : ep ∈ eps → path_elems (ep_path ep) ≠ [].
Proof.
  intros H. rewrite Forall_forall in Hgood. destruct (good_path_elems _ (Hgood _ H)) as (_ & (Hne & _) & _). done.
Qed.

Lemma server_entries_no_conflict x y : x ∈ server_entries eps → y ∈ server_entries eps → x ≠ y →
  conflicts_with (fst x) (fst y) = false.
Proof.
  intros [(ep1 & r1 & H1 & ->)|Hx]%server_entry_in [(ep2 & r2 & H2 & ->)|Hy]%server_entry_in Hne.
  - apply routes_no_conflict. destruct (decide (r1 = r2)) as [->|]; [|by right]. left. intros He.
    apply paths_distinct in He as ->; done.
  - apply service_no_conflict; [by apply endpoint_entry_elems|done].
  - apply service_no_conflict; [by apply endpoint_entry_elems|done].
  - unfold service_entries in Hx, Hy. rewrite !elem_of_cons in Hx, Hy.
    destruct Hx as [->|[->|[->|[->|Hx%elem_of_nil]]]]; destruct Hy as [->|[->|[->|[->|Hy%elem_of_nil]]]]; done.
Qed.

Lemma server_entries_nodup : NoDup (server_entries eps).
Proof.
  unfold server_entries. apply NoDup_app. split; [|split].
  - pose proof (NoDup_fmap_1 _ _ Hdirs) as Hnd. clear Hgood Hdirs.
    induction Hnd as [|ep l Hep Hnd IH]; [constructor|]. cbn [flat_map]. apply NoDup_app. split; [|split].
    + unfold endpoint_entries. apply NoDup_fmap_2_strong; [by intros ? ? _ _ [= _ ?]|].
      by apply (bool_decide_unpack (NoDup all_routes)).
    + intros x Hx1 Hx2. apply list_elem_of_In, in_map_iff in Hx1 as (r & <- & _).
      apply list_elem_of_In, in_flat_map in Hx2 as (ep' & Hin & Hx2). apply in_map_iff in Hx2 as (r' & Heq & _).
      assert (ep' = ep) as -> by congruence. apply Hep. by apply list_elem_of_In.
    + done.
  - intros x Hx Hs. apply list_elem_of_In, in_flat_map in Hx as (ep & _ & Hx). apply in_map_iff in Hx as (r & <- & _).
    unfold service_entries in Hs. rewrite !elem_of_cons in Hs. by destruct Hs as [?|[?|[?|[?|?%elem_of_nil]]]].
  - apply (NoDup_fmap_1 fst). by apply (bool_decide_unpack (NoDup (map fst service_entries))).
Qed.

Lemma register_endpoints_all (l : list Endpoint) m :
  register_endpoints l m = handle_all (flat_map endpoint_routes l) m.
Proof.
  revert m. induction l as [|ep l IH]; intros m; [done|]. cbn [flat_map register_endpoints].
  rewrite handle_all_app. unfold register_routes. destruct (handle_all (endpoint_routes ep) m); [apply IH|done].
Qed.

Lemma flat_routes_parse (l : list Endpoint) : Forall (λ ep, good_path (ep_path ep)) l →
  Forall2 parses_to (flat_map endpoint_routes l) (flat_map endpoint_entries l).
Proof.
  induction 1 as [|ep l Hep _ IH]; [constructor|]. cbn [flat_map].
  apply Forall2_app; [by apply endpoint_routes_parse|exact IH].
Qed.

Lemma serve_mux_registers : serve_mux eps = Some (server_entries eps).
Proof.
  unfold serve_mux. rewrite register_endpoints_all. unfold register_service_routes. rewrite <-handle_all_app.
  rewrite (handle_all_ok _ (server_entries eps)); [done|..].
  - unfold server_entries. apply Forall2_app; [|apply service_routes_parse].
    by apply flat_routes_parse.
  - apply server_entries_nodup.
  - intros x y Hx Hy. by apply server_entries_no_conflict.
Qed.

(** *** What they match *)

Definition wildcard_values (r : route) (v : gostring) : list gostring := map snd (route_values r v).

Lemma literals_match es l segs vals : path_matches (literals es ++ l) segs vals ↔
  ∃ rest, segs = es ++ rest ∧ path_matches l rest vals.
Proof.
  revert segs. induction es as [|e es IH]; intros segs; cbn [literals map app].
  - split; [eauto|]. by intros (? & -> & ?).
  - split.
    + intros H. inversion H as [|? ? segs' ? H'| |]; subst. apply IH in H' as (rest & -> & H'). eauto.
    + intros (rest & -> & H). constructor. apply IH. eauto.
Qed.

Lemma route_matches es r segs vals : path_matches (literals es ++ route_segs r) segs vals →
  ∃ v, segs = es ++ route_parts r v ∧ vals = wildcard_values r v.
Proof.
  intros (rest & -> & H)%literals_match.
  destruct r; cbn [route_segs route_parts literals map] in H;
    repeat match goal with H : path_matches (_ :: _) _ _ |- _ => inversion H; subst; clear H
                         | H : path_matches [] _ _ |- _ => inversion H; subst; clear H end;
    first [by exists []|by eexists].
Qed.

Lemma route_matches_value es r v : route_value_ok r v →
  path_matches (literals es ++ route_segs r) (es ++ route_parts r v) (wildcard_values r v).
Proof.
  intros Hv. apply literals_match. eexists. split; [done|].
  destruct r; cbn in *; repeat constructor; tauto.
Qed.

Lemma route_names es r v : zip (wildcard_names (route_pattern es r)) (wildcard_values r v) = route_values r v.
Proof.
  assert (wildcard_names (route_pattern es r) = omap (λ s, match s with Wild name => Some name | _ => None end) (route_segs r)) as ->.
  { unfold wildcard_names. cbn [pt_segs route_pattern]. induction es as [|e es IH]; [done|exact IH]. }
  by destruct r.
Qed.

(** Two routes of one method that match a path are the same, but for the locks of one
    endpoint and the objects of another. *)
Lemma route_parts_unique e1 e2 r1 r2 v1 v2 : route_method r1 = route_method r2 →
  e1 ++ route_parts r1 v1 = e2 ++ route_parts r2 v2 →
  (e1 = e2 ∧ r1 = r2) ∨ (r1 = RListLocks ∧ r2 = RDownload) ∨ (r1 = RDownload ∧ v1 = "locks"%go).
Proof.
  intros Hm H. destruct r1, r2; try discriminate Hm; cbn [route_parts] in H;
    try (by apply app_inj_2 in H as [-> Ht]; [|done]; first [by left|by discriminate Ht]);
    try (apply (f_equal last) in H; rewrite !last_app in H; by simplify_eq); auto.
  right; right. apply (f_equal last) in H. rewrite !last_app in H. simpl in H. by simplify_eq.
Qed.

Lemma service_matches x segs vals : x ∈ service_entries → pt_method (fst x) ≠ [] →
  path_matches (pt_segs (fst x)) segs vals → length segs = 1%nat.
Proof.
  unfold service_entries. rewrite !elem_of_cons. intros Hx Hm H.
  destruct Hx as [->|[->|[->|[->|Hx%elem_of_nil]]]]; try done; cbn [fst pt_segs] in H; inversion H; subst;
    match goal with H : path_matches [] _ _ |- _ => by inversion H end.
Qed.

Lemma entries_hostless : hostless (server_entries eps).
Proof.
  apply Forall_forall. intros [p a] [(ep & r & _ & [= -> _])|Hx]%server_entry_in; [done|].
  unfold service_entries in Hx. rewrite !elem_of_cons in Hx. by destruct Hx as [[= -> _]|[[= -> _]|[[= -> _]|[[= -> _]|?%elem_of_nil]]]].
Qed.

Lemma serves_method method r1 r2 : serves method (route_method r1) → serves method (route_method r2) →
  route_method r1 = route_method r2.
Proof.
  unfold serves. intros [H1|[[H1 H1']|H1]] [H2|[[H2 H2']|H2]]; try congruence; exfalso; subst;
    first [by destruct r1|by destruct r2].
Qed.

(** The path of a route is found by it alone. *)
Lemma route_found ep r v method : ep ∈ eps → serves method (route_method r) → route_value_ok r v →
  ∃ vals, match_method [] method (path_elems (ep_path ep) ++ route_parts r v) (server_entries eps)
    = Some ((route_pattern (path_elems (ep_path ep)) r, TEndpoint ep (negb (is_transfer r)) r), vals)
    ∧ path_matches (literals (path_elems (ep_path ep)) ++ route_segs r) (path_elems (ep_path ep) ++ route_parts r v) vals.
Proof.
  intros Hep Hs Hv. set (es := path_elems (ep_path ep)).
  assert ((route_pattern es r, TEndpoint ep (negb (is_transfer r)) r) ∈ server_entries eps) as Hin
    by (apply server_entry_in; left; by exists ep, r).
  apply (match_method_found method _ (server_entries eps) (route_pattern es r) _ (wildcard_values r v));
    [done|done|by destruct r|done|by apply route_matches_value|].
  intros mt y vals Hmt Hsm Hy. pose proof Hy as Hy'.
  apply match_path_sound in Hy as (l & Hl & Hm). apply method_node_in in Hl as (q & b & -> & -> & Hq & _ & Hqm).
  apply server_entry_in in Hq as [(ep2 & r2 & Hep2 & [= -> ->])|Hq].
  2: { apply (service_matches (q, b)) in Hm; [|done|cbn [fst]; by rewrite Hqm]. exfalso. revert Hm.
       pose proof (endpoint_entry_elems ep Hep) as Hne. fold es in Hne. rewrite length_app.
       destruct es; [done|]. destruct r; simpl; lia. }
  cbn [pt_segs pt_method route_pattern] in Hm, Hqm. pose proof Hm as Hm2. apply route_matches in Hm as (v2 & Hparts & ->).
  rewrite <-Hqm in Hsm. pose proof (serves_method _ _ _ Hs Hsm) as Hmeq.
  destruct (route_parts_unique _ _ _ _ _ _ Hmeq Hparts) as [[He ->]|[[-> ->]|[-> ->]]].
  - apply paths_distinct in He as ->; done.
  - exfalso. destruct (match_path_literal (es ++ ["locks"%go]) (method_node [] mt (server_entries eps))
      (route_pattern es RListLocks, TEndpoint ep true RListLocks)) as (y & Hfound & Hlit).
    { apply method_node_in. exists (route_pattern es RListLocks), (TEndpoint ep true RListLocks).
      split; [done|]. split; [by rewrite map_app|]. by rewrite <-Hqm. }
    cbn [route_parts] in Hy'. rewrite Hfound in Hy'. injection Hy' as -> _.
    apply method_node_in in Hlit as (q & b & [= <- <-] & Hsegs & _). cbn [pt_segs route_pattern route_segs] in Hsegs.
    apply (f_equal last) in Hsegs. rewrite map_app, !last_app in Hsegs. by simplify_eq.
  - destruct Hv as [_ Hv]. done.
Qed.

Lemma clean_url_path_rooted p : ∃ q, clean_url_path p = slash :: q.
Proof.
  assert (∀ p, has_prefix "/" p = true → ∃ q, path_clean p = slash :: q) as Hclean.
  { intros q Hq. apply has_prefix_spec in Hq as [r ->]. unfold path_clean. by eexists. }
  unfold clean_url_path. destruct p as [|c p]; [by exists []|]. cbv zeta.
  destruct (has_prefix "/" (c :: p)) eqn:E.
  - destruct (Hclean _ E) as [q ->]. by destruct (_ && _); eexists.
  - destruct (Hclean ("/" ++ c :: p)) as [q ->]; [done|]. by destruct (_ && _); eexists.
Qed.

Lemma some_handler method path : ∃ r, match_method [] method (path_segments (clean_url_path path)) (server_entries eps) = Some r.
Proof.
  destruct (clean_url_path_rooted path) as [q ->]. cbn [path_segments].
  assert (∃ s l, path_parts (split_on slash q) = s :: l) as (s & l & ->).
  { pose proof (split_on_nonempty slash q). destruct (split_on slash q) as [|[|c s] [|]]; [done|by eexists _, _..]. }
  apply (match_method_complete method (s :: l) (server_entries eps)
    {| pt_method := []; pt_host := []; pt_segs := [Multi] |} TNotFound []); [|done|unfold serves; auto|constructor].
  apply server_entry_in. right. unfold service_entries. rewrite !elem_of_cons. tauto.
Qed.

Lemma entries_match (host method p : gostring) :
  mux_match host method p (server_entries eps) = match_method [] method (path_segments p) (server_entries eps).
Proof. apply mux_match_hostless. by apply entries_hostless. Qed.

(** Only a handler's own path reaches it. *)
Lemma routed_endpoint (host method p : gostring) ep limited r vals :
  find_handler host method p (server_entries eps) = Routed (TEndpoint ep limited r) vals →
  ep ∈ eps ∧ limited = negb (is_transfer r) ∧ serves method (route_method r)
  ∧ ∃ v, path_segments p = path_elems (ep_path ep) ++ route_parts r v ∧ vals = route_values r v.
Proof.
  intros H. unfold find_handler in H. cbv zeta in H. rewrite !entries_match in H.
  destruct (negb (exact_match _ _) && _ && _); [done|].
  destruct (str_eqb (clean_url_path p) p) eqn:Ec; [|done]. cbn [negb] in H. apply str_eqb_eq in Ec. rewrite Ec in H.
  destruct (match_method [] method (path_segments p) (server_entries eps)) as [[[q a] v]|] eqn:E; [|done].
  injection H as -> <-. apply match_method_sound in E as (Hin & Hs & Hm).
  apply server_entry_in in Hin as [(ep' & r' & Hep & [= -> -> -> ->])|Hin].
  2: { exfalso. unfold service_entries in Hin. rewrite !elem_of_cons in Hin.
       by destruct Hin as [?|[?|[?|[?|?%elem_of_nil]]]]. }
  split; [done|]. split; [done|]. split; [done|]. cbn [pt_segs route_pattern] in Hm.
  apply route_matches in Hm as (w & Hp & ->). exists w. split; [done|]. apply route_names.
Qed.

(** And it does. *)
Lemma endpoint_routed (host method p : gostring) ep r v : ep ∈ eps → clean_url_path p = p →
  serves method (route_method r) → path_segments p = path_elems (ep_path ep) ++ route_parts r v →
  route_value_ok r v →
  find_handler host method p (server_entries eps) = Routed (TEndpoint ep (negb (is_transfer r)) r) (route_values r v).
Proof.
  intros Hep Hc Hs Hp Hv. unfold find_handler. cbv zeta. rewrite Hc, !entries_match, Hp.
  destruct (route_found ep r v method Hep Hs Hv) as (vals & -> & Hm).
  cbn [exact_match pt_segs route_pattern]. rewrite no_multi. cbn [negb andb].
  rewrite str_eqb_refl. cbn [negb]. f_equal.
  destruct (route_matches _ _ _ _ Hm) as (w & Hw & ->). apply app_inv_head in Hw.
  rewrite route_names. destruct r; cbn in *; by simplify_eq.
Qed.

(** Every request is given to some handler. *)
Lemma always_handler (host method p : gostring) : find_handler host method p (server_entries eps) ≠ NoHandler.
Proof.
  unfold find_handler. cbv zeta. rewrite !entries_match.
  destruct (negb (exact_match _ _) && _ && _); [done|]. destruct (negb _); [done|].
  by destruct (some_handler method p) as [[[q a] v] ->].
Qed.
End Server.
(** C24. The routes of a configuration that loads. Registering them never panics: no
    two patterns conflict, whatever the endpoints' paths. A request reaches a
    handler of an endpoint only with a path that is the endpoint's own followed by
    the handler's, and with the handler's method; batch and lock handlers are behind
    the rate limiter, signed transfers are not. Every such request is given to that
    handler, with its wildcard's value: also where one endpoint's path continues
    another's, as an object named [locks] would only be one that does not exist. And
    the multiplexer never answers on its own that there is nothing to serve. *)
Theorem routes_dispatch {I : IpSyntax} {N : NetIp} {T : Toml} {L : TomlLaws T} env path c :
  load env path = Ok c →
  ∃ m, serve_mux (cfg_endpoints c) = Some m
  ∧ (∀ host method p ep limited r vals, find_handler host method p m = Routed (TEndpoint ep limited r) vals →
       ep ∈ cfg_endpoints c ∧ limited = negb (is_transfer r) ∧ serves method (route_method r)
       ∧ ∃ v, path_segments p = path_elems (ep_path ep) ++ route_parts r v ∧ vals = route_values r v)
  ∧ (∀ host method p ep r v, ep ∈ cfg_endpoints c → clean_url_path p = p → serves method (route_method r) →
       path_segments p = path_elems (ep_path ep) ++ route_parts r v → route_value_ok r v →
       find_handler host method p m = Routed (TEndpoint ep (negb (is_transfer r)) r) (route_values r v))
  ∧ ∀ host method p, find_handler host method p m ≠ NoHandler.
Proof.
  intros Hload. destruct (loaded_paths env path c Hload) as [Hgood Hdirs]. set (eps := cfg_endpoints c) in *.
  exists (server_entries eps). split; [by apply serve_mux_registers|].
  split; [|split].
  - by apply routed_endpoint.
  - intros. by apply endpoint_routed.
  - by apply always_handler.
Qed.
End Properties.
