(* ===== verification/Startup.v ===== *)
(** * main.go and readiness.go: running the server

    The signing key the server keeps in its data directory, the readiness check
    with its cache, the sum of the authenticators' statistics, and the sweeper of
    temporary files. *)

From S2P Require Import Prelude GoStrings GoUnicode GoPath GoConv GoHash GoTime GoUrl GoMime GoNet GoOs GoJson Sanitise Storage Local TempFiles Signer Models Config ConfigLoad Auth Batch Handler.

Local Open Scope go_scope.

(** ** main.go: the data directory and the signing key *)

(** [ensureWritableDir] *)
Definition ensure_writable_dir (dir : gostring) (w : os) : result go_error unit * os :=
  match mkdir_all w with
  | (Err e, w) => (Err e, w)
  | (Ok _, w) => check_writable_dir dir w
  end.

(** [os.WriteFile]: the file is emptied or created, written and closed; a failed
    write leaves what it had written. *)
Definition open_truncate (path : gostring) : os → result go_error unit * os :=
  syscall (λ w,
    match os_files w !! path with
    | Some f => (Ok tt, set_files (<[path := File [] (f_inode f) (os_now w)]> (os_files w)) w)
    | None =>
        (Ok tt,
         Os (<[path := File [] (next_inode w) (os_now w)]> (os_files w))
            (os_now w) (later_inodes w) (os_faults w) (os_names w) (os_space w))
    end).
Definition write_file (path data : gostring) (w : os) : result go_error unit * os :=
  match open_truncate path w with
  | (Err e, w) => (Err e, w)
  | (Ok _, w) =>
      match write path data w with
      | (Err e, w) => let '(_, w) := close w in (Err e, w)
      | (Ok _, w) => close w
      end
  end.

Definition signing_key_file : gostring := "signing.key".

(** What goes wrong with a key file. *)
Inductive key_error : Type :=
| KeyNotHex
| KeyTooShort (n : nat)
| KeyReading (e : go_error)
| KeyDirectory (e : go_error)
| KeyWriting (e : go_error).

(** [loadOrGenerateSigningKey], [random] being the 32 bytes [rand.Read] gives. *)
Definition load_or_generate_signing_key (data_dir random : gostring) (w : os) : result key_error gostring * os :=
  let path := path_join [data_dir; signing_key_file] in
  match read_file path w with
  | (Ok data, w) =>
      match hex_decode (trim_space data) with
      | None => (Err KeyNotHex, w)
      | Some key => if (length key <? 32)%nat then (Err (KeyTooShort (length key)), w) else (Ok key, w)
      end
  | (Err e, w) =>
      if negb (errors_is NotExist e) then (Err (KeyReading e), w)
      else
        match mkdir_all w with
        | (Err e, w) => (Err (KeyDirectory e), w)
        | (Ok _, w) =>
            match write_file path (hex_encode random ++ [nl]) w with
            | (Err e, w) => (Err (KeyWriting e), w)
            | (Ok _, w) => (Ok random, w)
            end
        end
  end.

(** The function [sumCacheStats] returns, over the statistics of the authenticators. *)
Definition sum_cache_stats (stats : list (Z * Z)) : Z * Z :=
  fold_left (λ '(hits, misses) '(h, m), (wrap_uint64 (hits + h), wrap_uint64 (misses + m))) stats (0, 0).

(** ** readiness.go *)

Section Readiness.
Context {W : Type} (check_dir : gostring → W → result go_error unit * W).

(** [readiness]; [rd_checked_at] is [None] while it is the zero time. *)
Record readiness := {
  rd_store : Adapter W;
  rd_data_dir : gostring;
  rd_ttl : Z;
  rd_checked_at : option Z;
  rd_failed : gostring
}.

Definition readiness_cache_ttl : Z := 5 * second.

(** [newReadiness] *)
Definition new_readiness (store : Adapter W) (data_dir : gostring) : readiness :=
  {| rd_store := store; rd_data_dir := data_dir; rd_ttl := readiness_cache_ttl;
     rd_checked_at := None; rd_failed := [] |}.

(** The checks themselves: the name of the one that failed. *)
Definition run_checks (rd : readiness) (c : ctx) (w : W) : gostring * W :=
  match check_dir (rd_data_dir rd) w with
  | (Err _, w) => ("data_directory"%go, w)
  | (Ok _, w) =>
      match ad_check (rd_store rd) c w with
      | (Err _, w) => ("storage"%go, w)
      | (Ok _, w) => ([], w)
      end
  end.

(** Whether the last result still counts at time [now]. *)
Definition fresh (rd : readiness) (now : Z) : bool :=
  match rd_checked_at rd with
  | Some t => saturate (now - t) <? rd_ttl rd
  | None => false
  end.

(** [check]: it looks at the clock at [now], and after the checks at [later]; [c] is
    the context of the checks, which the request's end does not touch. *)
Definition rd_check (c : ctx) (now later : Z) (s : readiness * W) : gostring * (readiness * W) :=
  let '(rd, w) := s in
  if fresh rd now then (rd_failed rd, (rd, w))
  else
    let '(failed, w) := run_checks rd c w in
    (failed, ({| rd_store := rd_store rd; rd_data_dir := rd_data_dir rd; rd_ttl := rd_ttl rd;
                 rd_checked_at := Some later; rd_failed := failed |}, w)).

(** [ServeHTTP] *)
Definition serve_ready (c : ctx) (now later : Z) (s : readiness * W) : Response * (readiness * W) :=
  let hdr := {[ "Content-Type"%go := "application/json"%go ]} in
  let '(failed, s) := rd_check c now later s in
  (match failed with
   | [] => {| rs_status := 200; rs_header := hdr; rs_body := JsonBody (JObj [("status"%go, JStr "ready")]) |}
   | _ => {| rs_status := 503; rs_header := hdr;
             rs_body := JsonBody (JObj [("status"%go, JStr "not ready"); ("failed"%go, JStr failed)]) |}
   end, s).

(** A request of the check: its context and the times of its looks at the clock. *)
Definition ready_request : Type := ctx * Z * Z.

(** Requests one after the other, as the mutex has them: the answers, and how many
    of them ran the checks. *)
Fixpoint serve_all (rs : list ready_request) (s : readiness * W) : list Response * nat * (readiness * W) :=
  match rs with
  | [] => ([], 0%nat, s)
  | (c, now, later) :: rs =>
      let ran := if fresh (fst s) now then 0%nat else 1%nat in
      let '(resp, s) := serve_ready c now later s in
      let '(resps, n, s) := serve_all rs s in
      (resp :: resps, (ran + n)%nat, s)
  end.
End Readiness.
Arguments readiness W : clear implicits.

(** The data directory's check where the world has an operating system. *)
Definition check_data_dir (dir : gostring) (w : Local.world) : result go_error unit * Local.world :=
  let '(r, o) := check_writable_dir dir (snd w) in (r, (fst w, o)).

(** ** main.go: the sweeper *)

Definition temp_file_max_age : Z := hour.
Definition temp_sweep_interval : Z := hour.

(** What a pass of the sweep finds: [os.OpenRoot], the tree, the clock, and the
    files in use. *)
Definition sweep_pass : Type := option go_error * result go_error entry * Z * option (gostring → bool).

(** [sweepTempFiles]: a pass now and one every interval until the server stops,
    object shards being looked into by the first alone. *)
Fixpoint sweep_passes (skip_shards : bool) (passes : list sweep_pass) : list (list gostring * option go_error) :=
  match passes with
  | [] => []
  | (opened, root, now, in_use) :: passes =>
      remove_stale_temp_files opened root now temp_file_max_age in_use skip_shards :: sweep_passes true passes
  end.
Definition sweep_temp_files : list sweep_pass → list (list gostring * option go_error) := sweep_passes false.

(** ** The signing key *)

Lemma hex_not_space a : is_hex a = true →
  ascii_space a = false ∧ (∀ b, space2 a b = false) ∧ ∀ b c, space3 a b c = false.
Proof.
  intros H. assert (ascii_space a = false ∧ byte_val a < 128) as [Hs Hv].
  { assert (negb (is_hex a) || (negb (ascii_space a) && (byte_val a <? 128)) = true) as Hb.
    { refine (forall_bytes (λ a, negb (is_hex a) || (negb (ascii_space a) && (byte_val a <? 128))) _ a).
      vm_compute. reflexivity. }
    rewrite H in Hb. cbn [negb orb] in Hb. to_prop. auto. }
  split; [done|]. unfold space2, space3.
  assert (∀ n, 128 <= n → (byte_val a =? n) = false) as Hne by (intros n Hn; apply Z.eqb_neq; lia).
  split; intros; by rewrite !Hne.
Qed.

Lemma trim_left_hex s : Forall (λ c, is_hex c = true) s → trim_left_space s = s.
Proof.
  intros H. destruct s as [|a s]; [done|]. apply Forall_cons in H as [Ha _].
  apply hex_not_space in Ha as (H1 & H2 & H3). cbn [trim_left_space]. rewrite H1.
  destruct s as [|b s]; [done|]. rewrite H2. destruct s as [|c s]; [done|]. by rewrite H3.
Qed.

Lemma trim_end_hex s : Forall (λ c, is_hex c = true) s → trim_end_space s = s.
Proof.
  intros H. destruct s as [|a s]; [done|]. apply Forall_cons in H as [Ha H].
  cbn [trim_end_space]. rewrite (proj1 (hex_not_space a Ha)).
  destruct s as [|b s]; [done|]. apply Forall_cons in H as [Hb H].
  rewrite (proj1 (proj2 (hex_not_space b Hb))).
  destruct s as [|c s]; [done|]. apply Forall_cons in H as [Hc _].
  by rewrite (proj2 (proj2 (hex_not_space c Hc))).
Qed.

Lemma trim_space_key key : key ≠ [] → trim_space (hex_encode key ++ [nl]) = hex_encode key.
Proof.
  intros Hne. assert (Forall (λ c, is_hex c = true) (hex_encode key)) as Hh
    by (apply hex_encode_Forall; intros d Hd; by apply hex_digit_props).
  unfold trim_space. assert (trim_left_space (hex_encode key ++ [nl]) = hex_encode key ++ [nl]) as ->.
  { destruct key as [|c key]; [done|]. pose proof (hex_encode_length (c :: key)) as Hl.
    destruct (hex_encode (c :: key)) as [|a [|b s]]; [simpl in Hl; lia..|].
    apply Forall_cons in Hh as [Ha _]. apply hex_not_space in Ha as (H1 & H2 & H3).
    change ((a :: b :: s) ++ [nl]) with (a :: b :: (s ++ [nl])).
    destruct (s ++ [nl]) as [|d t]; cbn [trim_left_space]; rewrite H1, H2; [done|]. by rewrite H3. }
  rewrite rev_app_distr. change (rev [nl] ++ rev (hex_encode key)) with (nl :: rev (hex_encode key)).
  change (trim_end_space (nl :: rev (hex_encode key))) with (trim_end_space (rev (hex_encode key))).
  rewrite trim_end_hex; [apply rev_involutive|]. by apply Forall_rev.
Qed.

Lemma open_truncate_spec path w r w' : open_truncate path w = (r, w') →
  same_except [path] w w' ∧ (r = Ok tt → ∃ f, os_files w' !! path = Some f ∧ f_data f = []).
Proof.
  unfold open_truncate, syscall. destruct (next_fault w) as [[f|] w1] eqn:E; apply next_fault_files in E.
  - intros [= <- <-]. split; [|done]. intros q _. by rewrite E.
  - intros H. destruct (os_files w1 !! path) as [g|] eqn:Eg; injection H as <- <-; split.
    1,3: intros q Hq; cbn [os_files set_files]; rewrite <-E; rewrite lookup_insert_ne; [done|set_solver].
    all: intros _; eexists; cbn [os_files set_files]; by rewrite lookup_insert_eq.
Qed.

Lemma same_except_files p w w1 w2 : same_except p w w1 → os_files w2 = os_files w1 → same_except p w w2.
Proof. intros H E q Hq. rewrite E. by apply H. Qed.

Lemma write_file_spec path data w r w' : write_file path data w = (r, w') →
  same_except [path] w w' ∧ (r = Ok tt → ∃ f, os_files w' !! path = Some f ∧ f_data f = data).
Proof.
  unfold write_file. intros H. destruct (open_truncate path w) as [[[]|e] w1] eqn:E1;
    apply open_truncate_spec in E1 as [S1 F1].
  2: { by injection H as <- <-. }
  destruct (write path data w1) as [[[]|e] w2] eqn:E2; apply write_files in E2 as [S2 F2];
    destruct (close w2) as [r3 w3] eqn:E3; apply close_files in E3; injection H as <- <-;
    (split; [eapply same_except_files; [by eapply same_except_trans|done]|]); [|done].
  intros _. destruct (F1 eq_refl) as (f & Hf & Hd). destruct (F2 eq_refl f Hf) as (g & Hg & Hgd).
  exists g. rewrite E3. split; [done|]. by rewrite Hgd, Hd.
Qed.

(** Loading from a file that holds a key, while no call fails. *)
Lemma load_stored_key dir random w f key :
  os_faults w = [] → os_files w !! path_join [dir; signing_key_file] = Some f →
  hex_decode (trim_space (f_data f)) = Some key → (32 <= length key)%nat →
  load_or_generate_signing_key dir random w = (Ok key, w).
Proof.
  intros Hf Hfile Hk Hl. unfold load_or_generate_signing_key, read_file.
  rewrite syscall_no_fault, Hfile by done. cbn [fmap option_fmap option_map option_result].
  rewrite Hk. by rewrite (proj2 (Nat.ltb_ge _ _)).
Qed.

Lemma open_truncate_le path w r w' : open_truncate path w = (r, w') → os_le w w'.
Proof.
  apply syscall_le. intros v q v'. destruct (os_files v !! path) as [g|] eqn:E; intros [= <- <-]; [|by apply new_file_le].
  by apply os_le_same.
Qed.
Lemma write_file_le path data w r w' : write_file path data w = (r, w') → os_le w w'.
Proof.
  unfold write_file. intros H. destruct (open_truncate path w) as [[u|e] w1] eqn:E1; apply open_truncate_le in E1;
    [|by injection H as <- <-].
  destruct (write path data w1) as [[u2|e] w2] eqn:E2; apply write_le in E2; destruct (close w2) as [r3 w3] eqn:E3;
    apply sync_le in E3; injection H as <- <-; (etrans; [exact E1|by etrans]).
Qed.

(** Getting the key touches its file only. *)
Lemma load_key_files dir random w r w' : load_or_generate_signing_key dir random w = (r, w') →
  os_le w w' ∧ same_except [path_join [dir; signing_key_file]] w w'.
Proof.
  intros H. unfold load_or_generate_signing_key in H. destruct (read_file _ w) as [[data|e] w1] eqn:E1;
    pose proof (read_file_le _ _ _ _ E1) as L1; pose proof (read_file_spec _ _ _ _ E1) as [F1 _];
    assert (same_except [path_join [dir; signing_key_file]] w w1) as S1 by (intros q _; by rewrite F1).
  - destruct (hex_decode _) as [key|]; [|by injection H as <- <-]. destruct (_ <? 32)%nat; by injection H as <- <-.
  - destruct (errors_is NotExist e); cbn [negb] in H; [|by injection H as <- <-].
    destruct (mkdir_all w1) as [[u|e2] w2] eqn:E2; pose proof (mkdir_all_le _ _ _ E2) as L2;
      apply mkdir_all_files in E2.
    2: { injection H as <- <-. split; [by etrans|]. by eapply same_except_files. }
    destruct (write_file _ _ w2) as [[u3|e3] w3] eqn:E3; pose proof (write_file_le _ _ _ _ _ E3) as L3;
      apply write_file_spec in E3 as [S3 _]; injection H as <- <-;
      (split; [etrans; [exact L1|by etrans]|]); (eapply same_except_trans; [|exact S3]); by eapply same_except_files.
Qed.

Definition interrupted_world : os :=
  Os ∅ 0 [] [None; None; None; Some (Fault [NoSpace] 10)] [] (0, 0).

(** C26. The signing key of a data directory. Getting it touches no other file, and
    never a key file that is there. A key that is returned has at least 32 bytes,
    and every later start gets the same one. But writing a new key is not atomic:
    when the write fails half way, as on a full disk, that start and every later
    one fails, until the file is removed by hand. *)
Theorem signing_key_persists dir random w r w' :
  length random = 32%nat → load_or_generate_signing_key dir random w = (r, w') →
  same_except [path_join [dir; signing_key_file]] w w'
  ∧ (faults_ok w → is_Some (os_files w !! path_join [dir; signing_key_file]) → os_files w' = os_files w)
  ∧ (∀ key, r = Ok key → (32 <= length key)%nat
       ∧ (os_faults w' = [] → ∀ random', load_or_generate_signing_key dir random' w' = (Ok key, w')))
  ∧ ∃ w1, load_or_generate_signing_key "/data" (replicate 32 "k"%char) interrupted_world
            = (Err (KeyWriting [NoSpace]), w1)
      ∧ os_faults w1 = []
      ∧ ∀ random', fst (load_or_generate_signing_key "/data" random' w1) = Err (KeyTooShort 5).
Proof.
  intros Hrandom H. set (path := path_join [dir; signing_key_file]).
  assert (∃ w1, load_or_generate_signing_key "/data" (replicate 32 "k"%char) interrupted_world
            = (Err (KeyWriting [NoSpace]), w1)
      ∧ os_faults w1 = []
      ∧ ∀ random', fst (load_or_generate_signing_key "/data" random' w1) = Err (KeyTooShort 5)) as Hint.
  { eexists. split; [vm_compute; reflexivity|]. split; [reflexivity|]. intros random'. vm_compute. reflexivity. }
  unfold load_or_generate_signing_key in H. fold path in H.
  destruct (read_file path w) as [[data|e] w1] eqn:E1;
    pose proof (read_file_spec _ _ _ _ E1) as [F1 D1].
  - assert (same_except [path] w w1) as S1 by (intros q _; by rewrite F1).
    destruct (hex_decode (trim_space data)) as [key|] eqn:Ek; [|injection H as <- <-; by repeat (split; [done|])].
    destruct (Nat.ltb_spec (length key) 32) as [|Hlen]; injection H as <- <-;
      [by repeat (split; [done|])|].
    split; [done|]. split; [done|]. split; [|done]. intros k [= <-]. split; [done|]. intros Hf random'.
    destruct (D1 data eq_refl) as (f & Hfile & <-). rewrite <-F1 in Hfile.
    by apply (load_stored_key dir random' w1 f).
  - assert (same_except [path] w w1) as S1 by (intros q _; by rewrite F1).
    destruct (errors_is NotExist e) eqn:Ene; cbn [negb] in H;
      [|injection H as <- <-; by repeat (split; [done|])].
    assert (faults_ok w → is_Some (os_files w !! path) → os_files w' = os_files w) as Hkeep.
    { intros Hfo [f Hf]. by rewrite (read_not_exist path w e w1 Hfo E1 Ene) in Hf. }
    destruct (mkdir_all w1) as [[[]|e2] w2] eqn:E2; apply mkdir_all_files in E2.
    2: { injection H as <- <-. split; [by eapply same_except_files|]. by repeat (split; [done|]). }
    assert (same_except [path] w w2) as S2 by by eapply same_except_files.
    destruct (write_file path _ w2) as [[[]|e3] w3] eqn:E3; apply write_file_spec in E3 as [S3 F3];
      injection H as <- <-; (split; [by eapply same_except_trans|]); (split; [done|]); (split; [|done]); [|done].
    intros k [= <-]. split; [lia|]. intros Hf random'. destruct (F3 eq_refl) as (f & Hfile & Hdata).
    apply (load_stored_key dir random' w3 f); [done|done| |lia].
    rewrite Hdata, trim_space_key, hex_decode_encode; [done|]. intros ->. discriminate Hrandom.
Qed.

(** ** Readiness *)

Section ReadinessProperties.
Context {W : Type} (check_dir : gostring → W → result go_error unit * W).

(** Requests that look at the clock one after the other, from [start] to [stop]. *)
Fixpoint times_within (start stop : Z) (rs : list ready_request) : Prop :=
  match rs with
  | [] => start <= stop
  | (_, now, later) :: rs => start <= now ∧ now <= later ∧ times_within later stop rs
  end.

Lemma times_within_le start stop rs : times_within start stop rs → start <= stop.
Proof.
  revert start. induction rs as [|[[c now] later] rs IH]; intros start H; [done|].
  destruct H as (H1 & H2 & H3%IH). lia.
Qed.
Lemma times_within_earlier start start' stop rs : start' <= start →
  times_within start stop rs → times_within start' stop rs.
Proof. destruct rs as [|[[c now] later] rs]; simpl; [lia|]. intros ? (? & ? & ?). split; [lia|done]. Qed.

Definition answered (resp : Response) (failed : gostring) : Prop :=
  (rs_status resp = 200 ↔ failed = []) ∧ (rs_status resp = 503 ↔ failed ≠ []).

Lemma serve_ready_spec c now later rd w resp s' : serve_ready check_dir c now later (rd, w) = (resp, s') →
  if fresh rd now then s' = (rd, w) ∧ answered resp (rd_failed rd)
  else let '(failed, w1) := run_checks check_dir rd c w in
    s' = ({| rd_store := rd_store rd; rd_data_dir := rd_data_dir rd; rd_ttl := rd_ttl rd;
             rd_checked_at := Some later; rd_failed := failed |}, w1) ∧ answered resp failed.
Proof.
  unfold serve_ready, rd_check, answered. cbv zeta. destruct (fresh rd now).
  - destruct (rd_failed rd); intros [= <- <-]; by repeat split.
  - destruct (run_checks check_dir rd c w) as [failed w1]. destruct failed; intros [= <- <-]; by repeat split.
Qed.

Lemma serve_all_runs rs rd w t stop : times_within t stop rs → rd_checked_at rd = Some t →
  stop - t <= max_int64 → 0 <= rd_ttl rd →
  let '(_, n, _) := serve_all check_dir rs (rd, w) in Z.of_nat n * rd_ttl rd <= stop - t.
Proof.
  revert rd w t. induction rs as [|[[c now] later] rs IH]; intros rd w t Ht Hc Hs Httl.
  { simpl in *. lia. }
  destruct Ht as (H1 & H2 & H3). pose proof (times_within_le _ _ _ H3) as H4.
  cbn [serve_all fst]. destruct (serve_ready check_dir c now later (rd, w)) as [resp s'] eqn:E.
  apply serve_ready_spec in E. destruct (fresh rd now) eqn:Ef.
  - destruct E as [-> _]. assert (times_within t stop rs) as Ht by (eapply times_within_earlier; [|done]; lia).
    specialize (IH rd w t Ht Hc Hs Httl). by destruct (serve_all check_dir rs (rd, w)) as [[? n] ?].
  - destruct (run_checks check_dir rd c w) as [failed w1]. destruct E as [-> _].
    match goal with |- context [serve_all _ _ (?rd', _)] => specialize (IH rd' w1 later H3 eq_refl) end.
    cbn [rd_ttl] in IH. destruct (serve_all check_dir rs _) as [[? n] ?].
    unfold fresh in Ef. rewrite Hc in Ef. apply Z.ltb_ge in Ef. unfold saturate, min_int64, max_int64 in *. lia.
Qed.

(** The readiness check answers 200 exactly when its last result is that every
    check passed, and 503 otherwise; a result is given again only while it is
    younger than the cache lifetime, and then nothing is checked. So whatever
    requests come, and however many, the data directory and the storage backend
    are checked at most once per lifetime and once more. *)
Theorem readiness_cached rd w :
  0 <= rd_ttl rd →
  (∀ c now later resp s', serve_ready check_dir c now later (rd, w) = (resp, s') →
     if fresh rd now then s' = (rd, w) ∧ answered resp (rd_failed rd)
     else let '(failed, w1) := run_checks check_dir rd c w in
       s' = ({| rd_store := rd_store rd; rd_data_dir := rd_data_dir rd; rd_ttl := rd_ttl rd;
                rd_checked_at := Some later; rd_failed := failed |}, w1) ∧ answered resp failed)
  ∧ ∀ rs start stop, times_within start stop rs → stop - start <= max_int64 →
      (∀ t, rd_checked_at rd = Some t → t <= start) →
      let '(resps, n, _) := serve_all check_dir rs (rd, w) in
      length resps = length rs ∧ (Z.of_nat n - 1) * rd_ttl rd <= stop - start.
Proof.
  intros Httl. split; [intros *; apply serve_ready_spec|]. intros rs start stop Ht Hs Hc.
  assert (∀ rs s, let '(resps, n, _) := serve_all check_dir rs s in length resps = length rs) as Hlen.
  { clear. induction rs as [|[[c now] later] rs IH]; intros s; [done|]. cbn [serve_all].
    destruct (serve_ready check_dir c now later s) as [resp s1]. specialize (IH s1).
    destruct (serve_all check_dir rs s1) as [[resps n] s2]. simpl. by rewrite IH. }
  specialize (Hlen rs (rd, w)).
  assert (let '(_, n, _) := serve_all check_dir rs (rd, w) in (Z.of_nat n - 1) * rd_ttl rd <= stop - start) as Hn.
  { clear Hlen. revert start Ht Hs Hc. induction rs as [|[[c now] later] rs IH]; intros start Ht Hs Hc.
    { simpl in *. lia. }
    destruct Ht as (H1 & H2 & H3). pose proof (times_within_le _ _ _ H3) as H4.
    cbn [serve_all fst]. destruct (serve_ready check_dir c now later (rd, w)) as [resp s'] eqn:E.
    apply serve_ready_spec in E. destruct (fresh rd now) eqn:Ef.
    - destruct E as [-> _]. specialize (IH later H3). destruct (serve_all check_dir rs (rd, w)) as [[? n] ?].
      rewrite Nat.add_0_l. assert (∀ t, rd_checked_at rd = Some t → t <= later) as Hl
        by (intros t Hct; specialize (Hc t Hct); lia).
      specialize (IH ltac:(lia) Hl). apply (Z.le_trans _ _ _ IH). lia.
    - destruct (run_checks check_dir rd c w) as [failed w1]. destruct E as [-> _].
      match goal with |- context [serve_all _ _ (?rd', _)] =>
        pose proof (serve_all_runs rs rd' w1 later stop H3 eq_refl ltac:(lia) Httl) as Hr;
        cbn [rd_ttl] in Hr; destruct (serve_all check_dir rs (rd', w1)) as [[? n] ?] end.
      replace (Z.of_nat (1 + n) - 1) with (Z.of_nat n) by lia. apply (Z.le_trans _ _ _ Hr). lia. }
  destruct (serve_all check_dir rs (rd, w)) as [[resps n] s']. by split.
Qed.
End ReadinessProperties.
