(* ===== verification/Cli.v ===== *)
(** * cli.go and readiness.go: the command line

    Parsing the command line as package [flag] does, the commands and their exit
    codes, the configuration the check command prints, and the health check of the
    healthcheck command.  Output is a value that says what was written. *)

From S2P Require Import Prelude GoStrings GoUnicode GoConv GoUrl GoMime GoNet Config ConfigLoad.

Local Open Scope go_scope.

(** ** Package [flag], with the flags of this program *)

Record flags := { fl_config : gostring; fl_version : bool }.
Definition no_flags : flags := {| fl_config := []; fl_version := false |}.

Inductive flag_error : Type :=
| ErrHelp
| BadSyntax (arg : gostring)
| NotDefined (name : gostring)
| InvalidBool (value : gostring)
| NeedsArgument (name : gostring)
| UnexpectedArgument (arg : gostring).

(** The argument that [parseOne] looks at: no flag, the end of the flags, an error,
    or a name and the value after its equals sign. *)
Inductive flag_shape : Type :=
| NoFlag
| EndOfFlags
| BadFlag
| Flag (name : gostring) (value : option gostring).

Definition flag_shape_of (s : gostring) : flag_shape :=
  match s with
  | c :: d :: rest =>
      if negb (Ascii.eqb c "-") then NoFlag
      else
        let name := if Ascii.eqb d "-" then rest else d :: rest in
        if Ascii.eqb d "-" && match rest with [] => true | _ => false end then EndOfFlags
        else
          match name with
          | e :: _ =>
              if Ascii.eqb e "-" || Ascii.eqb e "=" then BadFlag
              else
                match cut_at "=" name with
                | Some (name, value) => Flag name (Some value)
                | None => Flag name None
                end
          | [] => BadFlag
          end
  | _ => NoFlag
  end.

(** [FlagSet.Parse]: the arguments that are left, and the flags. *)
Fixpoint flag_parse (args : list gostring) (f : flags) : result flag_error (list gostring * flags) :=
  match args with
  | [] => Ok ([], f)
  | s :: rest =>
      match flag_shape_of s with
      | NoFlag => Ok (args, f)
      | EndOfFlags => Ok (rest, f)
      | BadFlag => Err (BadSyntax s)
      | Flag name value =>
          if str_eqb name "config" then
            match value, rest with
            | Some v, _ => flag_parse rest {| fl_config := v; fl_version := fl_version f |}
            | None, v :: rest => flag_parse rest {| fl_config := v; fl_version := fl_version f |}
            | None, [] => Err (NeedsArgument name)
            end
          else if str_eqb name "version" then
            match value with
            | None => flag_parse rest {| fl_config := fl_config f; fl_version := true |}
            | Some v =>
                match parse_bool v with
                | Some b => flag_parse rest {| fl_config := fl_config f; fl_version := b |}
                | None => Err (InvalidBool v)
                end
            end
          else if str_eqb name "help" || str_eqb name "h" then Err ErrHelp
          else Err (NotDefined name)
      end
  end.

(** ** cli.go *)

Definition command_check : gostring := "check".
Definition command_healthcheck : gostring := "healthcheck".
Definition command_version : gostring := "version".
Definition command_help : gostring := "help".

(** [parseArgs] *)
Definition parse_args (args : list gostring) : result flag_error (gostring * flags) :=
  match flag_parse args no_flags with
  | Err e => Err e
  | Ok ([], f) => Ok ([], f)
  | Ok (command :: args, f) =>
      match flag_parse args f with
      | Err e => Err e
      | Ok ([], f) => Ok (command, f)
      | Ok (arg :: _, _) => Err (UnexpectedArgument arg)
      end
  end.

Definition redacted : gostring := "<redacted>".
Definition redact (secret : gostring) : gostring := match secret with [] => [] | _ => redacted end.

(** [effectiveConfig]; fields tagged ["-"] are not printed. *)
Definition effective_config (c : Config) : Config := {|
  cfg_options := let o := cfg_options c in {|
    o_listen_address := o_listen_address o; o_metrics_address := o_metrics_address o;
    o_data_directory := o_data_directory o; o_base_url := o_base_url o;
    o_max_upload_size := o_max_upload_size o; o_upload_idle_timeout := o_upload_idle_timeout o;
    o_upload_idle_timeout_duration := o_upload_idle_timeout_duration o;
    o_log_format := o_log_format o; o_log_level := o_log_level o;
    o_access_log := Some (access_log_enabled o); o_additional_logging := o_additional_logging o;
    o_trusted_proxies := o_trusted_proxies o; o_rate_limit_tokens := o_rate_limit_tokens o;
    o_rate_limit_interval := o_rate_limit_interval o; o_rate_limit_window := o_rate_limit_window o;
    o_auth_cache_ttl := o_auth_cache_ttl o; o_auth_cache_duration := o_auth_cache_duration o;
    o_signing_key := redact (o_signing_key o); o_signing_key_bytes := o_signing_key_bytes o;
    o_url_expiry := o_url_expiry o; o_url_expiry_duration := o_url_expiry_duration o;
    o_shutdown_timeout := o_shutdown_timeout o;
    o_shutdown_timeout_duration := o_shutdown_timeout_duration o |};
  cfg_storage := let s := cfg_storage c in
    if negb (str_eqb (st_backend s) storage_s3) then
      {| st_backend := st_backend s; st_bucket := []; st_region := []; st_endpoint := [];
         st_access_key_id := []; st_secret_access_key := []; st_prefix := [];
         st_presigned_urls := None; st_force_path_style := None |}
    else
      {| st_backend := st_backend s; st_bucket := st_bucket s; st_region := st_region s;
         st_endpoint := st_endpoint s; st_access_key_id := st_access_key_id s;
         st_secret_access_key := redact (st_secret_access_key s); st_prefix := st_prefix s;
         st_presigned_urls := Some (presigned_urls_enabled s);
         st_force_path_style := Some (force_path_style_enabled s) |};
  cfg_endpoints := cfg_endpoints c
|}.

(** The fields that are printed: those tagged ["-"] are not. *)
Definition printed_endpoint (ep : Endpoint) : Endpoint := {|
  ep_name := ep_name ep; ep_url := ep_url ep; ep_path := ep_path ep; ep_visibility := ep_visibility ep;
  ep_authentication := ep_authentication ep; ep_api_url := ep_api_url ep;
  ep_owner := []; ep_repo := []; ep_base_url := None
|}.
Definition printed (c : Config) : Config := {|
  cfg_options := let o := cfg_options c in {|
    o_listen_address := o_listen_address o; o_metrics_address := o_metrics_address o;
    o_data_directory := o_data_directory o; o_base_url := o_base_url o;
    o_max_upload_size := o_max_upload_size o; o_upload_idle_timeout := o_upload_idle_timeout o;
    o_upload_idle_timeout_duration := 0;
    o_log_format := o_log_format o; o_log_level := o_log_level o;
    o_access_log := o_access_log o; o_additional_logging := o_additional_logging o;
    o_trusted_proxies := o_trusted_proxies o; o_rate_limit_tokens := o_rate_limit_tokens o;
    o_rate_limit_interval := 0; o_rate_limit_window := o_rate_limit_window o;
    o_auth_cache_ttl := o_auth_cache_ttl o; o_auth_cache_duration := 0;
    o_signing_key := o_signing_key o; o_signing_key_bytes := [];
    o_url_expiry := o_url_expiry o; o_url_expiry_duration := 0;
    o_shutdown_timeout := o_shutdown_timeout o; o_shutdown_timeout_duration := 0 |};
  cfg_storage := cfg_storage c;
  cfg_endpoints := map printed_endpoint (cfg_endpoints c)
|}.

(** ** readiness.go: the health check *)

(** [readyURL]; [None] is its error. *)
Definition ready_url (listen_address : gostring) : option gostring :=
  '(host, port) ← split_host_port listen_address;
  let host := if str_eqb host [] || str_eqb host "0.0.0.0" then "127.0.0.1"
              else if str_eqb host "::" then "::1" else host in
  Some ("http://" ++ join_host_port host port ++ "/ready").

Example ready_url_default : ready_url ":5420" = Some "http://127.0.0.1:5420/ready"%go.
Proof. reflexivity. Qed.
Example ready_url_ipv6 : ready_url "[::]:80" = Some "http://[::1]:80/ready"%go.
Proof. reflexivity. Qed.


(** What is wrong with the server's health. *)
Inductive health_error : Type :=
| NotLoaded (e : load_error)
| BadListenAddress
| NotReachable
| Answered (status : Z) (body : gostring).

(** ** The commands *)

(** What a command writes. *)
Inductive output : Type :=
| Usage
| VersionOf
| BadCommandLine (e : flag_error)
| UnknownCommand (command : gostring)
| CannotLoad (e : load_error)
| CannotPrint
| Effective (text : gostring)
| Unhealthy (e : health_error)
| IsReady
| Served.

Section Commands.
Context {U : Unicode} {I : IpSyntax} {N : NetIp} {T : Toml}.
(** The encoder of the TOML library, an HTTP client, which gives the status and the
    body of the answer, and the server itself, which gives the exit code. *)
Context (encode : Config → option gostring) (http_get : gostring → option (Z * gostring)).
Context (serve : gostring → Z) (env : environment).

(** [checkReady] *)
Definition check_ready (url : gostring) : result health_error unit :=
  match http_get url with
  | None => Err NotReachable
  | Some (status, body) => if negb (status =? 200) then Err (Answered status (trim_space (take 512 body))) else Ok tt
  end.

(** [runHealthcheck] *)
Definition run_healthcheck (path : gostring) : Z * output :=
  match load env path with
  | Err e => (1, Unhealthy (NotLoaded e))
  | Ok c =>
      match ready_url (o_listen_address (cfg_options c)) with
      | None => (1, Unhealthy BadListenAddress)
      | Some url =>
          match check_ready url with
          | Err e => (1, Unhealthy e)
          | Ok _ => (0, IsReady)
          end
      end
  end.

(** [runCheck] *)
Definition run_check (path : gostring) : Z * output :=
  match load env path with
  | Err e => (1, CannotLoad e)
  | Ok c =>
      match encode (printed (effective_config c)) with
      | None => (1, CannotPrint)
      | Some text => (0, Effective text)
      end
  end.

(** [runCommand] *)
Definition run_command (args : list gostring) : Z * output :=
  let '(command, f, bad) :=
    match parse_args args with
    | Err ErrHelp => (command_help, no_flags, None)
    | Err e => ([], no_flags, Some e)
    | Ok (command, f) => (if fl_version f then command_version else command, f, None)
    end in
  match bad with
  | Some e => (2, BadCommandLine e)
  | None =>
      let path := resolve_path env (fl_config f) in
      if str_eqb command [] then (serve path, Served)
      else if str_eqb command command_check then run_check path
      else if str_eqb command command_healthcheck then run_healthcheck path
      else if str_eqb command command_version then (0, VersionOf)
      else if str_eqb command command_help then (0, Usage)
      else (2, UnknownCommand command)
  end.
End Commands.

(** ** What they guarantee *)

(** Flags that parse to the end do so before other arguments as well. *)
Lemma flag_parse_app n args f rest f' : (length args <= n)%nat → flag_parse args f = Ok ([], f') →
  flag_parse (args ++ rest) f = Ok (rest, f') ∨ flag_parse (args ++ rest) f = flag_parse rest f'.
Proof.
  revert args f. induction n as [|n IH]; intros [|s args] f Hn H; try (simpl in Hn; lia);
    try (injection H as <-; by right). simpl in Hn.
  cbn [flag_parse app] in *. destruct (flag_shape_of s) as [| | |name value]; try done.
  { injection H as -> <-. by left. }
  destruct (str_eqb name "config").
  - destruct value as [v|]; [apply IH; [lia|done]|]. destruct args as [|v args]; [done|].
    simpl in Hn. apply IH; [lia|done].
  - destruct (str_eqb name "version").
    + destruct value as [v|]; [|apply IH; [lia|done]]. destruct (parse_bool v); [|done]. apply IH; [lia|done].
    + by destruct (str_eqb name "help" || str_eqb name "h").
Qed.

Lemma flag_parse_command command f : flag_shape_of command = NoFlag → flag_parse [command] f = Ok ([command], f).
Proof. intros H. cbn [flag_parse]. by rewrite H. Qed.

(** A configuration with other secrets. *)
Definition with_secrets (c : Config) (key key_bytes access_secret : gostring) : Config := {|
  cfg_options := let o := cfg_options c in {|
    o_listen_address := o_listen_address o; o_metrics_address := o_metrics_address o;
    o_data_directory := o_data_directory o; o_base_url := o_base_url o;
    o_max_upload_size := o_max_upload_size o; o_upload_idle_timeout := o_upload_idle_timeout o;
    o_upload_idle_timeout_duration := o_upload_idle_timeout_duration o;
    o_log_format := o_log_format o; o_log_level := o_log_level o;
    o_access_log := o_access_log o; o_additional_logging := o_additional_logging o;
    o_trusted_proxies := o_trusted_proxies o; o_rate_limit_tokens := o_rate_limit_tokens o;
    o_rate_limit_interval := o_rate_limit_interval o; o_rate_limit_window := o_rate_limit_window o;
    o_auth_cache_ttl := o_auth_cache_ttl o; o_auth_cache_duration := o_auth_cache_duration o;
    o_signing_key := key; o_signing_key_bytes := key_bytes;
    o_url_expiry := o_url_expiry o; o_url_expiry_duration := o_url_expiry_duration o;
    o_shutdown_timeout := o_shutdown_timeout o;
    o_shutdown_timeout_duration := o_shutdown_timeout_duration o |};
  cfg_storage := let s := cfg_storage c in
    {| st_backend := st_backend s; st_bucket := st_bucket s; st_region := st_region s;
       st_endpoint := st_endpoint s; st_access_key_id := st_access_key_id s;
       st_secret_access_key := access_secret; st_prefix := st_prefix s;
       st_presigned_urls := st_presigned_urls s; st_force_path_style := st_force_path_style s |};
  cfg_endpoints := cfg_endpoints c
|}.

(** What is printed of a configuration says of its secrets only whether they are set. *)
Lemma printed_hides_secrets c k1 k2 b1 b2 s1 s2 : (k1 = [] ↔ k2 = []) → (s1 = [] ↔ s2 = []) →
  printed (effective_config (with_secrets c k1 b1 s1)) = printed (effective_config (with_secrets c k2 b2 s2)).
Proof.
  intros Hk Hs. assert (redact k1 = redact k2) as Hrk by (destruct k1, k2; naive_solver).
  assert (redact s1 = redact s2) as Hrs by (destruct s1, s2; naive_solver).
  unfold effective_config, with_secrets, printed.
  cbn [cfg_options cfg_storage cfg_endpoints o_signing_key st_backend st_secret_access_key st_bucket st_region
    st_endpoint st_access_key_id st_prefix]. rewrite Hrk, Hrs.
  by destruct (str_eqb (st_backend (cfg_storage c)) storage_s3).
Qed.

Lemma with_own_secrets c : with_secrets c (o_signing_key (cfg_options c)) (o_signing_key_bytes (cfg_options c))
  (st_secret_access_key (cfg_storage c)) = c.
Proof. by destruct c as [[] [] ?]. Qed.

Section Exit.
Context {U : Unicode} {I : IpSyntax} {N : NetIp} {T : Toml}.
Context (encode : Config → option gostring) (http_get : gostring → option (Z * gostring)) (serve : gostring → Z) (env : environment).

Lemma flags_around_command :
  ∀ before command after f f', flag_parse before no_flags = Ok ([], f) → flag_parse after f = Ok ([], f') →
     flag_shape_of command = NoFlag →
     parse_args (before ++ [command] ++ after) = Ok (command, f')
     ∧ (∀ g, flag_parse (before ++ after) no_flags = Ok ([], g) → parse_args (command :: before ++ after) = Ok (command, f')).
Proof.
  intros before command after f f' Hb Ha Hc.
  assert (∀ args g, flag_parse (command :: args) g = Ok (command :: args, g)) as Hstop
    by (intros args g; cbn [flag_parse]; by rewrite Hc).
  unfold parse_args. split.
  + assert (flag_parse (before ++ [command] ++ after) no_flags = Ok (command :: after, f)) as ->; [|by rewrite Ha].
    destruct (flag_parse_app (length before) before no_flags (command :: after) f) as [H|H]; [done|done|done|].
    by rewrite <-(Hstop after f).
  + intros g Hg. rewrite Hstop, Hg.
    destruct (flag_parse_app (length before) before no_flags after f) as [H|H]; [done|done|..]; rewrite Hg in H.
    * injection H as <- <-. by injection Ha as <-.
    * rewrite Ha in H. by injection H as <-.
Qed.

Lemma check_output :
  ∀ path text, run_check encode env path = (0, Effective text) →
       ∃ c, load env path = Ok c ∧ encode (printed (effective_config c)) = Some text
         ∧ ∀ k b s, (k = [] ↔ o_signing_key (cfg_options c) = []) → (s = [] ↔ st_secret_access_key (cfg_storage c) = []) →
             encode (printed (effective_config (with_secrets c k b s))) = Some text.
Proof.
  intros path text H. unfold run_check in H. destruct (load env path) as [c|]; [|done].
  destruct (encode _) as [t|] eqn:E; [|done]. injection H as <-. exists c. split; [done|]. split; [done|].
  intros k b s Hk Hs. rewrite <-E, <-(with_own_secrets c) at 1. f_equal.
  assert (∀ d, with_secrets (with_secrets c (o_signing_key (cfg_options c)) (o_signing_key_bytes (cfg_options c)) d) k b s
    = with_secrets c k b s) as Htwice by done.
  rewrite Htwice. rewrite <-(with_own_secrets c) at 2. by apply printed_hides_secrets.
Qed.

Lemma healthcheck_exit :
  ∀ path, fst (run_healthcheck http_get env path) = 0 ↔
       ∃ c url body, load env path = Ok c ∧ ready_url (o_listen_address (cfg_options c)) = Some url
         ∧ http_get url = Some (200, body).
Proof.
  intros path. unfold run_healthcheck, check_ready. destruct (load env path) as [c|e].
  2: { split; [done|]. by intros (c & _ & _ & ? & _). }
  destruct (ready_url (o_listen_address (cfg_options c))) as [url|] eqn:Eu.
  2: { split; [done|]. intros (c' & url & body & [= <-] & H & _). congruence. }
  destruct (http_get url) as [[status body]|] eqn:Eg.
  2: { split; [done|]. intros (c' & url' & body & [= <-] & H & Hg). congruence. }
  destruct (Z.eqb_spec status 200) as [->|Hne]; cbn [negb fst].
  + split; [|done]. intros _. by exists c, url, body.
  + split; [done|]. intros (c' & url' & body' & [= <-] & H & Hg). congruence.
Qed.

Lemma usage_exit :
  ∀ args, (∀ path, serve path ≠ 2) →
      (fst (run_command encode http_get serve env args) = 2 ↔
         (∃ e, parse_args args = Err e ∧ e ≠ ErrHelp)
         ∨ ∃ command f, parse_args args = Ok (command, f) ∧ fl_version f = false
             ∧ command ∉ [[]; command_check; command_healthcheck; command_version; command_help]).
Proof.
  intros args Hserve. unfold run_command. destruct (parse_args args) as [[command f]|e] eqn:Ep.
  + assert (∀ path, fst (run_check encode env path) ≠ 2 ∧ fst (run_healthcheck http_get env path) ≠ 2) as Hcodes.
    { intros path. unfold run_check, run_healthcheck. split; repeat case_match; done. }
    split.
    * intros H. right. exists command, f. split; [done|]. destruct (fl_version f); [done|]. split; [done|].
      rewrite !not_elem_of_cons. repeat case_match; cbn [fst] in H;
        repeat match goal with H : str_eqb _ _ = false |- _ => apply str_eqb_neq in H end;
        first [by apply Hserve in H|by apply Hcodes in H|done|idtac].
      repeat split; try done. apply not_elem_of_nil.
    * intros [(e & He & _)|(command' & f' & [= <- <-] & Hv & Hc)]; [done|]. rewrite Hv.
      rewrite !not_elem_of_cons in Hc. destruct Hc as (H1 & H2 & H3 & H4 & H5 & _).
      by rewrite !(proj2 (str_eqb_neq _ _)).
  + split.
    * intros H. left. exists e. split; [done|]. intros ->. done.
    * intros [(e' & [= <-] & Hne)|(? & ? & ? & _)]; [|done]. by destruct e.
Qed.

(** C27. The command line. Flags mean the same before and after the command. The check
    command exits with 0 only for a configuration that loads, and what it prints
    depends on a secret only in whether there is one; the healthcheck command exits
    with 0 exactly when the configuration loads and the server it describes answers
    200; and the exit code is 2 exactly for a wrong command line, unless the server
    itself gives it. *)
Theorem commands_exit :
  (∀ before command after f f', flag_parse before no_flags = Ok ([], f) → flag_parse after f = Ok ([], f') →
     flag_shape_of command = NoFlag →
     parse_args (before ++ [command] ++ after) = Ok (command, f')
     ∧ (∀ g, flag_parse (before ++ after) no_flags = Ok ([], g) → parse_args (command :: before ++ after) = Ok (command, f')))
  ∧ (∀ path text, run_check encode env path = (0, Effective text) →
       ∃ c, load env path = Ok c ∧ encode (printed (effective_config c)) = Some text
         ∧ ∀ k b s, (k = [] ↔ o_signing_key (cfg_options c) = []) → (s = [] ↔ st_secret_access_key (cfg_storage c) = []) →
             encode (printed (effective_config (with_secrets c k b s))) = Some text)
  ∧ (∀ path, fst (run_healthcheck http_get env path) = 0 ↔
       ∃ c url body, load env path = Ok c ∧ ready_url (o_listen_address (cfg_options c)) = Some url
         ∧ http_get url = Some (200, body))
  ∧ ∀ args, (∀ path, serve path ≠ 2) →
      (fst (run_command encode http_get serve env args) = 2 ↔
         (∃ e, parse_args args = Err e ∧ e ≠ ErrHelp)
         ∨ ∃ command f, parse_args args = Ok (command, f) ∧ fl_version f = false
             ∧ command ∉ [[]; command_check; command_healthcheck; command_version; command_help]).
Proof.
  split; [exact flags_around_command|]. split; [exact check_output|]. split; [exact healthcheck_exit|exact usage_exit].
Qed.
End Exit.
