(* ===== verification/Server.v ===== *)
(** * The server as a whole

    A request from the network through the middlewares and the multiplexer to a
    handler of one endpoint, or to the handlers of the service: [serve] answers one
    request and [run] a sequence of them, over one world that all endpoints share.
    The theorems are about every sequence: what is in the store and among the locks
    after it, which requests can have put it there, and that endpoints do not reach
    into each other.  Server is proved against the interfaces of its parts;
    Deployment.v has the server with local storage. *)

From S2P Require Import Prelude GoStrings GoUnicode GoPath GoConv GoHash GoTime GoUrl GoMime GoNet GoOs GoJson GoServe Sanitise Storage Signer Models LockSet Config ConfigLoad Auth Batch Handler Middleware HandlerProofs LockHandlers Frames GoMux Routes Startup.

Local Open Scope go_scope.
#[local] Opaque write_json write_error not_found_handler.

(** ** Requests *)

(** A request as net/http hands it over: what the middlewares look at, and the rest. *)
Record http_request := {
  q_in : incoming;
  q_method : gostring;
  q_host : gostring;
  q_path : gostring;          (** [r.URL.EscapedPath()] *)
  q_uri : gostring;           (** [r.RequestURI] *)
  q_query : gostring;
  q_tls : bool;
  q_basic_auth : option (gostring * gostring);
  q_content_length : Z;
  q_body : reader;
  q_body_early : bool;
  q_body_read : bool;
  q_gone : ctx
}.

(** What the server reads while it answers: the clock, the random source, the
    scheduler, and what happens to an object's transfer. *)
Record moment := {
  m_random : gostring;
  m_limit_now : Z;
  m_now : Z;
  m_later : Z;
  m_events : list batch_event;
  m_transfer : transfer
}.

(** [r.PathValue] *)
Definition path_value (vals : list (gostring * gostring)) (k : gostring) : gostring :=
  match List.find (λ p, str_eqb (fst p) k) vals with Some p => snd p | None => [] end.

(** The request a handler gets, [r] being what the middlewares made of it and [vals]
    the values of the pattern's wildcards. *)
Definition request_of (q : http_request) (r : incoming) (vals : list (gostring * gostring)) : Request := {|
  r_method := q_method q;
  r_header k := header_get k (in_header r);
  r_body := q_body q;
  r_body_early := q_body_early q;
  r_body_read := q_body_read q;
  r_content_length := q_content_length q;
  r_ctx := in_ctx r;
  r_gone := q_gone q;
  r_basic_auth := q_basic_auth q;
  r_path_value := path_value vals;
  r_request_uri := q_uri q;
  r_raw_query := q_query q;
  r_tls := q_tls q;
  r_host := q_host q;
  r_request_id := request_id_from r
|}.

(** The headers a handler sets, on top of those that are set already. *)
Definition with_headers (hdr : gmap gostring gostring) (resp : Response) : Response :=
  {| rs_status := rs_status resp; rs_header := rs_header resp ∪ hdr; rs_body := rs_body resp |}.

(** [stripHostPort] *)
Definition strip_host_port (h : gostring) : gostring :=
  if negb (contains_byte ":"%char h) then h
  else match split_host_port h with Some (host, _) => host | None => h end.

Section Server.
Context {U : Unicode} {I : IpSyntax} {F : FloatSyntax} {R : RealClientIp} {W : Type}.
Context (version : gostring).
(** The handler of an endpoint, the rate limiter's [Take], the readiness check, and
    the redirects of net/http's multiplexer. *)
Context (h : Endpoint → Handler W).
Context (take : ctx → gostring → W → out W (Z * bool)).
Context (ready : ctx → Z → Z → W → Response * W).
Context (redirect : http_request → gostring → Response).

(** The methods of [Handler] that [registerRoutes] registers. *)
Definition endpoint_handler (ep : Endpoint) (rt : route) (r : Request) (x : moment) (w : W)
  : option (Response * W) :=
  match rt with
  | RBatch => batch_handler (h ep) r (m_now x) (m_events x) w
  | RCreateLock => Some (create_lock_handler (h ep) r w)
  | RListLocks => Some (list_locks_handler (h ep) r w)
  | RVerifyLocks => Some (verify_locks_handler (h ep) r w)
  | RUnlock => Some (unlock_handler (h ep) r w)
  | RDownload => Some (download_handler (h ep) r (m_now x) (m_transfer x) w)
  | RUpload => Some (upload_handler (h ep) r (m_now x) w)
  | RVerify => Some (verify_handler (h ep) r (m_now x) w)
  end.

(** What a pattern's handler does: those of [registerRoutes], the routes with
    [limited] behind the rate limiter, and those of [registerServiceRoutes]. *)
Definition target_handler (t : target) (q : http_request) (x : moment) (vals : list (gostring * gostring))
  : http_handler W := λ r hdr w,
  let json_answer v := {| rs_status := 200;
    rs_header := <["Content-Type"%go := "application/json"%go]> hdr; rs_body := JsonBody v |} in
  match t with
  | TEndpoint ep limited rt =>
      let next : http_handler W := λ r hdr w,
        '(resp, w) ← endpoint_handler ep rt (request_of q r vals) x w; Some (with_headers hdr resp, w) in
      if limited then rate_limit take (m_limit_now x) next r hdr w else next r hdr w
  | THealth => Some (json_answer (JObj ([("status"%go, JStr "ok")] ++ omit_empty "version" (JStr version))), w)
  | TReady =>
      let '(resp, w) := ready (in_ctx r) (m_now x) (m_later x) w in Some (with_headers hdr resp, w)
  | TVersion => Some (json_answer (JObj [("version"%go, JStr version)]), w)
  | TNotFound => Some (with_headers hdr (not_found_handler (request_of q r vals)), w)
  end.

(** [ServeMux.ServeHTTP] *)
Definition mux_handler (m : list (pattern * target)) (q : http_request) (x : moment) : http_handler W :=
  λ r hdr w,
  match find_handler (strip_host_port (q_host q)) (q_method q) (q_path q) m with
  | Routed t vals => target_handler t q x vals r hdr w
  | RedirectTo path => Some (with_headers hdr (redirect q path), w)
  | NoHandler =>
      Some ({| rs_status := 404;
               rs_header := <["X-Content-Type-Options"%go := "nosniff"%go]>
                 (<["Content-Type"%go := "text/plain; charset=utf-8"%go]> hdr);
               rs_body := TextBody ("404 page not found" ++ [nl]) |}, w)
  end.

(** One request, from the connection to the response; [None] for a schedule that
    does not run a batch to its end. *)
Definition serve (p : ProxyTrust) (m : list (pattern * target)) (q : http_request) (x : moment) (w : W)
  : option (Response * W) :=
  server_handler p (m_random x) (mux_handler m q x) (q_in q) ∅ w.

(** Requests one after the other. *)
Fixpoint run (p : ProxyTrust) (m : list (pattern * target)) (l : list (http_request * moment)) (w : W)
  : option (list Response * W) :=
  match l with
  | [] => Some ([], w)
  | (q, x) :: l =>
      '(resp, w) ← serve p m q x w; '(resps, w) ← run p m l w; Some (resp :: resps, w)
  end.

(** [P] holds of a request of the sequence, the worlds it was answered in and left,
    and its response. *)
Definition at_request (p : ProxyTrust) (m : list (pattern * target)) (l : list (http_request * moment)) (w0 : W)
    (P : http_request → moment → W → Response → W → Prop) : Prop :=
  ∃ before q x after resps w1 resp w2, l = before ++ (q, x) :: after
    ∧ run p m before w0 = Some (resps, w1) ∧ serve p m q x w1 = Some (resp, w2) ∧ P q x w1 resp w2.
End Server.

(** ** What the parts guarantee together *)

(** A handler's collaborators over one world: each keeps its contract, and none
    touches what is another's. *)
Class HandlerLaws {U : Unicode} {W} (h : Handler W) (objects : object_store W) (locks : lock_table W)
    (valid : W → Prop) : Prop := {
  hl_store :: AdapterLaws (h_store h) objects valid;
  hl_locks :: LockLaws (h_lock_store h) locks valid;
  hl_auth_objects :: AuthKeeps (h_auth h) (keeps_objects objects valid);
  hl_auth_locks :: AuthKeeps (h_auth h) (keeps_locks locks valid);
  hl_store_locks :: AdapterReads (h_store h) (keeps_locks locks valid);
  hl_put_locks :: AdapterPuts (h_store h) (keeps_locks locks valid);
  hl_list_objects :: LockStoreLists (h_lock_store h) (keeps_objects objects valid);
  hl_write_objects :: LockStoreWrites (h_lock_store h) (keeps_objects objects valid)
}.

(** The request with what the middlewares add and remove. *)
Definition admitted {R : RealClientIp} (p : ProxyTrust) (random : gostring) (r : incoming) : incoming :=
  match server_handler p random (λ r _ _, Some (write_ok, r)) r ∅ r with
  | Some (_, r) => r
  | None => r
  end.

Lemma server_handler_next {R : RealClientIp} {W} p random (next : http_handler W) r hdr w :
  server_handler p random next r hdr w
  = next (admitted p random r)
      (<[canonical_key request_id_header := in_request_id (admitted p random r)]> hdr) w.
Proof.
  unfold admitted, server_handler, proxy_handler, request_id. cbv zeta.
  destruct (trusts p (peer_ip r)); [|reflexivity]. by destruct (negb _).
Qed.

(** The directory of an endpoint's objects and locks. *)
Definition directory (ep : Endpoint) : gostring := endpoint (ep_path ep).

(** A request is for a handler of an endpoint, [v] being the value of the wildcard. *)
Definition addressed (ep : Endpoint) (rt : route) (v : gostring) (q : http_request) : Prop :=
  serves (q_method q) (route_method rt)
  ∧ path_segments (q_path q) = path_elems (ep_path ep) ++ route_parts rt v.

(** The wildcard's value as the handlers see it. *)
Lemma path_value_oid rt v : is_transfer rt = true → rt ≠ RVerify → path_value (route_values rt v) "oid" = v.
Proof. by destruct rt. Qed.
Lemma path_value_id v : path_value (route_values RUnlock v) "id" = v.
Proof. done. Qed.

Section Effects.
Context {U : Unicode} {I : IpSyntax} {F : FloatSyntax} {R : RealClientIp} {W : Type}.
Context (version : gostring) (h : Endpoint → Handler W) (take : ctx → gostring → W → out W (Z * bool)).
Context (ready : ctx → Z → Z → W → Response * W) (redirect : http_request → gostring → Response).
Context (objects : object_store W) (locks : lock_table W) (valid : W → Prop).
Context {LH : ∀ ep, HandlerLaws (h ep) objects locks valid} (Hep : ∀ ep, h_endpoint (h ep) = ep).

(** The rate limiter and the readiness check keep objects and locks. *)
Definition keeps_all (w w' : W) : Prop := keeps_objects objects valid w w' ∧ keeps_locks locks valid w w'.
Context (Htake : ∀ c ip w r w', take c ip w = (r, w') → keeps_all w w').
Context (Hready : ∀ c now later w r w', ready c now later w = (r, w') → keeps_all w w').

#[local] Instance keeps_all_preorder : PreOrder keeps_all.
Proof.
  split; [by intros w; split|]. intros w1 w2 w3 [H1 H2] [H3 H4]. split; by etrans.
Qed.

Lemma keeps_all_valid w w' : keeps_all w w' → valid w → valid w' ∧ same_objects objects w w' ∧ same_locks locks w w'.
Proof. intros [Ho Hl] Hv. destruct (Ho Hv) as [Hv' Hs]. by destruct (Hl Hv). Qed.

Lemma keep_both w w' : keeps_objects objects valid w w' → keeps_locks locks valid w w' → keeps_all w w'.
Proof. by split. Qed.

(** What a handler of endpoint [ep] does to the world: nothing, or what its route is
    for, once, in the endpoint's own directory. *)
Inductive effect (ep : Endpoint) (r : Request) (now : Z) (resp : Response) (w w' : W) : route → Prop :=
| EffectNone rt : keeps_all w w' → effect ep r now resp w w' rt
| EffectStored : upload_permitted (h ep) r now → upload_stores (h ep) objects r w w' →
    same_locks locks w w' → effect ep r now resp w w' RUpload
| EffectLocked : lock_created (h ep) locks r w w' resp → other_locks locks (directory ep) w w' →
    same_objects objects w w' → effect ep r now resp w w' RCreateLock
| EffectUnlocked : lock_removed (h ep) locks r w w' resp → other_locks locks (directory ep) w w' →
    same_objects objects w w' → effect ep r now resp w w' RUnlock.

Lemma handler_effect ep rt r x w resp w' : valid w →
  endpoint_handler h ep rt r x w = Some (resp, w') →
  valid w' ∧ effect ep r (m_now x) resp w w' rt.
Proof.
  intros Hv H.
  assert (keeps_all w w' → valid w' ∧ effect ep r (m_now x) resp w w' rt) as Hnone.
  { intros Hk. split; [by apply (keeps_all_valid w w')|by constructor]. }
  assert (∀ d, locks w' d = locks w d → other_locks locks d w w' → valid w' → same_locks locks w w') as Hsame.
  { intros d Hd Ho _ d' Hd'. destruct (decide (d' = d)) as [->|Hne]; [done|by apply Ho]. }
  destruct rt; cbn [endpoint_handler] in H; try (injection H as H).
  - apply Hnone, keep_both; (eapply batch_keeps; [..|exact H]; apply _).
  - pose proof (create_lock_keeps _ (keeps_objects objects valid) _ _ _ _ H) as Hk.
    apply (create_lock_handler_cases _ locks valid) in H as (Hv' & Ho & Hc); [|done]. rewrite Hep in Ho, Hc.
    destruct Hc as [[Hs _]|Hc].
    + apply Hnone, keep_both; [done|]. intros _. split; [done|]. exact (Hsame _ Hs Ho Hv').
    + split; [done|]. apply EffectLocked; [done|exact Ho|exact (proj2 (Hk Hv))].
  - apply Hnone, keep_both; (eapply list_locks_keeps; [..|exact H]; apply _).
  - apply Hnone, keep_both; (eapply verify_locks_keeps; [..|exact H]; apply _).
  - pose proof (unlock_lock_keeps _ (keeps_objects objects valid) _ _ _ _ H) as Hk.
    apply (unlock_handler_cases _ locks valid) in H as (Hv' & Ho & Hc); [|done]. rewrite Hep in Ho, Hc.
    destruct Hc as [[Hs _]|Hc].
    + apply Hnone, keep_both; [done|]. intros _. split; [done|]. exact (Hsame _ Hs Ho Hv').
    + split; [done|]. apply EffectUnlocked; [done|exact Ho|exact (proj2 (Hk Hv))].
  - apply Hnone, keep_both; (eapply download_keeps; [..|exact H]; apply _).
  - pose proof (upload_keeps _ (keeps_locks locks valid) _ _ _ _ _ H) as Hk.
    apply (upload_handler_cases _ objects valid) in H as (Hv' & Hc); [|done]. destruct (Hk Hv) as [_ Hl].
    assert (same_objects objects w w' → valid w' ∧ effect ep r (m_now x) resp w w' RUpload) as Hs.
    { intros Hs. by apply Hnone, keep_both. }
    destruct Hc as [[_ Hc]|[(_ & Hp & Hc)|(Hp & o & Ho & [[_ Hc]|(data & Hd & Hnew & _ & Hst)])]]; [auto|..|auto|].
    + split; [done|]. by apply EffectStored.
    + split; [done|]. apply EffectStored; [done| |done]. exists o, data. done.
  - apply Hnone, keep_both; (eapply verify_keeps; [..|exact H]; apply _).
Qed.

(** ** One request *)

Section Loaded.
Context (eps : list Endpoint) (Hgood : Forall (λ ep, good_path (ep_path ep)) eps) (Hdirs : NoDup (map storage_directory eps)).
Context (p : ProxyTrust).

Local Abbreviation serve := (serve version h take ready redirect p (server_entries eps)).
Local Abbreviation run := (run version h take ready redirect p (server_entries eps)).
Local Abbreviation request q x v rt := (request_of q (admitted p (m_random x) (q_in q)) (route_values rt v)).

(** A request changes nothing, or it is for a handler of an endpoint, which ran in
    the world the rate limiter left. *)
Lemma serve_effect q x w resp w' : valid w → serve q x w = Some (resp, w') →
  keeps_all w w'
  ∨ ∃ ep rt v w1 resp1, ep ∈ eps ∧ addressed ep rt v q ∧ keeps_all w w1
      ∧ endpoint_handler h ep rt (request q x v rt) x w1 = Some (resp1, w')
      ∧ resp = with_headers {[ canonical_key request_id_header :=
          in_request_id (admitted p (m_random x) (q_in q)) ]} resp1.
Proof.
  intros Hv H. unfold Server.serve in H. rewrite server_handler_next, insert_empty in H. set (r := admitted _ _ _) in *.
  set (hdr := {[ _ := _ ]}) in *. unfold mux_handler in H.
  destruct (find_handler _ _ _ _) as [t vals|path|] eqn:Ef; [|injection H as <- <-; by left..].
  destruct t as [ep limited rt| | | |]; cbn [target_handler] in H; cbv zeta in H.
  2,4,5: injection H as <- <-; by left.
  2: { destruct (ready _ _ _ w) as [resp1 w1] eqn:E. injection H as <- <-. left. by eapply Hready. }
  apply (routed_endpoint eps) in Ef as (Hin & -> & Hs & v & Hp & ->).
  assert (∀ w1, keeps_all w w1 →
    ('(resp, w) ← endpoint_handler h ep rt (request q x v rt) x w1; Some (with_headers hdr resp, w)) = Some (resp, w') →
    keeps_all w w' ∨ ∃ ep rt v w1 resp1, ep ∈ eps ∧ addressed ep rt v q ∧ keeps_all w w1
      ∧ endpoint_handler h ep rt (request q x v rt) x w1 = Some (resp1, w') ∧ resp = with_headers hdr resp1) as Hnext.
  { intros w1 Hk E. destruct (endpoint_handler _ _ _ _ _ w1) as [[resp1 w2]|] eqn:Eh; [|done].
    cbn in E. injection E as <- <-. right. by exists ep, rt, v, w1, resp1. }
  destruct (is_transfer rt); cbn [negb] in H; [by apply (Hnext w)|].
  unfold rate_limit in H. destruct (take _ _ w) as [[[reset ok]|e] w1] eqn:Et; apply Htake in Et;
    [destruct ok|]; [by apply (Hnext w1)|injection H as <- <-; by left|by apply (Hnext w1)].
Qed.

Local Abbreviation at_request := (at_request version h take ready redirect p (server_entries eps)).

Lemma serve_valid q x w resp w' : valid w → serve q x w = Some (resp, w') → valid w'.
Proof.
  intros Hv H. apply serve_effect in H as [Hk|(ep & rt & v & w1 & resp1 & _ & _ & Hk & H & _)]; [| |done].
  - by apply (keeps_all_valid w w').
  - apply keeps_all_valid in Hk as [Hv1 _]; [|done]. by apply handler_effect in H as [? _].
Qed.

Lemma run_cons q x l w resps w' : run ((q, x) :: l) w = Some (resps, w') →
  ∃ resp w1 rs, serve q x w = Some (resp, w1) ∧ run l w1 = Some (rs, w') ∧ resps = resp :: rs.
Proof.
  cbn [Server.run]. intros H. destruct (serve q x w) as [[resp w1]|] eqn:E; [|done]. cbn in H.
  destruct (run l w1) as [[rs w2]|] eqn:Er; [|done]. cbn in H. injection H as <- <-. by exists resp, w1, rs.
Qed.

(** A property of the requests that come later. *)
Lemma at_request_later q x l w resp w1 P : serve q x w = Some (resp, w1) → at_request l w1 P → at_request ((q, x) :: l) w P.
Proof.
  intros Hs (before & q' & x' & after & rs & w2 & resp' & w3 & -> & Hr & H).
  exists ((q, x) :: before), q', x', after, (resp :: rs), w2, resp', w3. split; [done|]. split; [|done].
  cbn [Server.run]. rewrite Hs. cbn. by rewrite Hr.
Qed.
Lemma at_request_now q x l w resp w1 (P : http_request → moment → W → Response → W → Prop) :
  serve q x w = Some (resp, w1) → P q x w resp w1 → at_request ((q, x) :: l) w P.
Proof. intros Hs HP. exists [], q, x, l, [], w, resp, w1. done. Qed.

(** What a sequence of requests brings about, one of them brings about. *)
Lemma first_change (Q : W → Prop) (P : http_request → moment → W → Response → W → Prop) {D : ∀ w, Decision (Q w)} :
  (∀ q x w resp w', valid w → serve q x w = Some (resp, w') → (¬ Q w) → Q w' → P q x w resp w') →
  ∀ l w0 resps w, valid w0 → run l w0 = Some (resps, w) → (¬ Q w0) → Q w → at_request l w0 P.
Proof.
  intros Hstep l. induction l as [|[q x] l IH]; intros w0 resps w Hv H Hno Hyes; [by injection H as <- <-|].
  apply run_cons in H as (resp & w1 & rs & Hs & Hr & _).
  destruct (decide (Q w1)) as [H1|H1].
  - eapply at_request_now; [done|]. by apply Hstep.
  - eapply at_request_later; [done|]. eapply IH; [by eapply serve_valid|done..].
Qed.

(** What every request keeps, a sequence keeps. *)
Lemma run_keeps (Q : W → Prop) l :
  (∀ q x w resp w', (q, x) ∈ l → valid w → Q w → serve q x w = Some (resp, w') → Q w') →
  ∀ w0 resps w, valid w0 → Q w0 → run l w0 = Some (resps, w) → valid w ∧ Q w ∧ length resps = length l.
Proof.
  induction l as [|[q x] l IH]; intros Hstep w0 resps w Hv HQ H; [by injection H as <- <-|].
  apply run_cons in H as (resp & w1 & rs & Hs & Hr & ->).
  pose proof (serve_valid _ _ _ _ _ Hv Hs) as Hv1.
  pose proof (Hstep q x w0 resp w1 ltac:(left) Hv HQ Hs) as HQ1.
  destruct (IH (λ q x w resp w' Hin, Hstep q x w resp w' ltac:(by right)) w1 rs w Hv1 HQ1 Hr) as (? & ? & Hl).
  cbn [length]. auto.
Qed.

(** ** Objects *)

(** A request uploads the object it names: its URL carries a valid signature for it. *)
Definition uploads (ep : Endpoint) (oid : gostring) (q : http_request) (x : moment) : Prop :=
  addressed ep RUpload oid q ∧ is_valid_oid oid = true
  ∧ Signer.verify (h_signer (h ep)) (m_now x) op_upload (request_base_url (h ep) (request q x oid RUpload)) (q_uri q) = Ok tt
  ∧ q_content_length q <= h_max_upload_size (h ep).

(** A request stores at most the object it uploads. *)
Definition stores (d o data : gostring) (q : http_request) (x : moment) (w : W) (_ : Response) (w' : W) : Prop :=
  ∃ ep oid, ep ∈ eps ∧ directory ep = d ∧ uploads ep oid q x ∧ normalise_oid oid = Ok o
    ∧ content_oid data = o ∧ objects w d o = None ∧ objects w' d o = Some data.

Lemma serve_objects q x w resp w' : valid w → serve q x w = Some (resp, w') →
  same_objects objects w w'
  ∨ ∃ d o data, safe_name d = true ∧ normal_oid o ∧ stores d o data q x w resp w'
      ∧ stored_object objects d o data w w'.
Proof.
  intros Hv H. apply serve_effect in H as [Hk|(ep & rt & v & w1 & resp1 & Hin & Ha & Hk & H & _)]; [| |done].
  { left. by apply (keeps_all_valid w w'). }
  destruct (keeps_all_valid _ _ Hk Hv) as (Hv1 & Ho1 & _).
  apply handler_effect in H as [Hv' He]; [|done].
  inversion He as [rt' Hk'|Hp Hst Hl|_ _ Hs|_ _ Hs]; subst.
  - left. destruct (keeps_all_valid _ _ Hk' Hv1) as (_ & Ho & _). by eapply same_objects_trans.
  - right. destruct Hst as (o & data & Ho & Hc & Hnew & Hst). rewrite Hep in *. fold (directory ep) in *.
    destruct Hp as (P1 & P2 & P3). cbn [request_of r_path_value r_request_uri r_content_length] in *.
    rewrite path_value_oid in * by done.
    pose proof (normalise_oid_normal _ _ Ho) as Hn. assert (safe_name (directory ep) = true) as Hd by apply endpoint_safe_name.
    rewrite Ho1 in Hnew by done.
    exists (directory ep), o, data. split; [done|]. split; [done|]. split.
    + exists ep, v. split; [done|]. split; [done|]. split; [done|]. do 3 (split; [done|]). apply Hst.
    + split; [apply Hst|]. intros d' o' Hd' Ho' Hne. rewrite (proj2 Hst) by done. by apply Ho1.
  - left. by eapply same_objects_trans.
  - left. by eapply same_objects_trans.
Qed.

Lemma serve_addressed q x w resp w' : valid w → content_addressed objects w →
  serve q x w = Some (resp, w') → content_addressed objects w'.
Proof.
  intros Hv Hc H. apply serve_objects in H as [Hs|(d & o & data & Hd & Ho & Hst & Hob)]; [by eapply same_objects_addressed| |done].
  destruct Hst as (ep & oid & _ & _ & _ & _ & Hoid & _). intros d' o' data' Hd' Ho' Hobj.
  destruct (decide ((d', o') = (d, o))) as [[= -> ->]|Hne].
  - rewrite (proj1 Hob) in Hobj. by injection Hobj as <-.
  - rewrite (proj2 Hob) in Hobj by done. eauto.
Qed.

Lemma serve_object_stays d o data q x w resp w' : valid w → safe_name d = true → normal_oid o →
  objects w d o = Some data → serve q x w = Some (resp, w') → objects w' d o = Some data.
Proof.
  intros Hv Hd Ho Hobj H. apply serve_objects in H as [Hs|(d' & o' & data' & Hd' & Ho' & Hst & Hob)]; [by rewrite Hs| |done].
  destruct (decide ((d, o) = (d', o'))) as [[= -> ->]|Hne].
  - destruct Hst as (ep & oid & _ & _ & _ & _ & _ & Hnone & _). congruence.
  - by rewrite (proj2 Hob).
Qed.

Lemma serve_object_new d o data q x w resp w' : valid w → safe_name d = true → normal_oid o →
  serve q x w = Some (resp, w') → objects w d o ≠ Some data → objects w' d o = Some data →
  stores d o data q x w resp w'.
Proof.
  intros Hv Hd Ho H Hno Hyes. apply serve_objects in H as [Hs|(d' & o' & data' & Hd' & Ho' & Hst & Hob)]; [| |done].
  - by rewrite Hs in Hyes.
  - destruct (decide ((d, o) = (d', o'))) as [[= -> ->]|Hne].
    + rewrite (proj1 Hob) in Hyes. by injection Hyes as ->.
    + by rewrite (proj2 Hob) in Hyes.
Qed.

(** What a sequence of requests does to the store. *)
Lemma run_store_safe l w0 resps w :
  valid w0 → content_addressed objects w0 → run l w0 = Some (resps, w) →
  content_addressed objects w ∧ length resps = length l
  ∧ (∀ d o data, safe_name d = true → normal_oid o → objects w0 d o = Some data → objects w d o = Some data)
  ∧ (∀ d o data, safe_name d = true → normal_oid o → objects w0 d o ≠ Some data → objects w d o = Some data →
       at_request l w0 (stores d o data)).
Proof.
  intros Hv Hc H.
  destruct (run_keeps (content_addressed objects) l (λ q x w resp w' _, serve_addressed q x w resp w')
    w0 resps w Hv Hc H) as (_ & Hca & Hlen).
  split; [done|]. split; [done|]. split.
  - intros d o data Hd Ho Hobj. apply (run_keeps (λ w, objects w d o = Some data) l) with w0 resps; [|done..].
    intros q x w1 resp w2 _ Hv1 Hq. by eapply serve_object_stays.
  - intros d o data Hd Ho Hno Hyes.
    apply (first_change (λ w, objects w d o = Some data)) with resps w; [apply _| |done..].
    intros q x w1 resp w2 Hv1 Hs. by apply serve_object_new.
Qed.

(** ** Locks *)

(** A request creates a lock: in the endpoint it is for, on a path that was not
    locked, for a caller authorised to upload there and in the caller's name. *)
Definition creates (d : gostring) (l : Lock) (q : http_request) (x : moment) (w : W) (_ : Response) (w' : W) : Prop :=
  ∃ ep v req res w1 w2, ep ∈ eps ∧ directory ep = d ∧ addressed ep RCreateLock v q ∧ keeps_all w w1
    ∧ permitted (h ep) (request q x v RCreateLock) operation_upload w1 res w2
    ∧ unmarshal_read decode_create_request (q_body_early q) (q_body q) = Ok req
    ∧ is_valid_lock_path (create_path req) = true ∧ (create_path req ∉ map lock_path (locks w d))
    ∧ lock_path l = create_path req ∧ owner_name (lock_owner l) = username res
    ∧ locks w' d ≡ₚ l :: locks w d.

(** A request removes the lock its URL names: for a caller authorised to upload who
    owns it, or is a maintainer and forces it. *)
Definition removes (d : gostring) (l : Lock) (q : http_request) (x : moment) (w : W) (_ : Response) (w' : W) : Prop :=
  ∃ ep req res w1 w2, ep ∈ eps ∧ directory ep = d ∧ addressed ep RUnlock (lock_id l) q ∧ keeps_all w w1
    ∧ permitted (h ep) (request q x (lock_id l) RUnlock) operation_upload w1 res w2
    ∧ unmarshal_read decode_unlock_request (q_body_early q) (q_body q) = Ok req
    ∧ (unlock_force req = true ∧ maintainer res = true
       ∨ equal_fold (owner_name (lock_owner l)) (username res) = true)
    ∧ locks w d ≡ₚ l :: locks w' d.

Lemma serve_locks q x w resp w' : valid w → serve q x w = Some (resp, w') →
  same_locks locks w w'
  ∨ ∃ d l, safe_name d = true ∧ other_locks locks d w w'
      ∧ (creates d l q x w resp w' ∨ removes d l q x w resp w').
Proof.
  intros Hv H. apply serve_effect in H as [Hk|(ep & rt & v & w1 & resp1 & Hin & Ha & Hk & H & _)]; [| |done].
  { left. by apply (keeps_all_valid w w'). }
  destruct (keeps_all_valid _ _ Hk Hv) as (Hv1 & _ & Hl1).
  apply handler_effect in H as [Hv' He]; [|done].
  assert (safe_name (directory ep) = true) as Hd by apply endpoint_safe_name.
  assert (∀ d, other_locks locks d w1 w' → other_locks locks d w w') as Hother.
  { intros d Ho d' Hd' Hne. rewrite Ho by done. by apply Hl1. }
  inversion He as [rt' Hk'|_ _ Hl|Hc Ho _|Hc Ho _]; subst.
  - left. destruct (keeps_all_valid _ _ Hk' Hv1) as (_ & _ & Hl). intros d Hd'. by rewrite Hl, Hl1.
  - left. intros d Hd'. by rewrite Hl, Hl1.
  - right. destruct Hc as (req & res & w2 & l & P1 & P2 & P3 & P4 & P5 & P6 & P7 & _).
    rewrite Hep in *. fold (directory ep) in *. rewrite (Hl1 _ Hd) in P4, P7.
    exists (directory ep), l. split; [done|]. split; [by apply Hother|]. left.
    by exists ep, v, req, res, w1, w2.
  - right. destruct Hc as (req & res & w2 & l & P1 & P2 & P3 & P4 & P5 & P6 & _).
    rewrite Hep in *. fold (directory ep) in *. rewrite (Hl1 _ Hd) in P6.
    cbn [request_of r_path_value] in P4. rewrite path_value_id in P4. subst v.
    exists (directory ep), l. split; [done|]. split; [by apply Hother|]. right.
    by exists ep, req, res, w1, w2.
Qed.

Lemma serve_lock_new d l q x w resp w' : valid w → safe_name d = true → serve q x w = Some (resp, w') →
  l ∉ locks w d → l ∈ locks w' d → creates d l q x w resp w'.
Proof.
  intros Hv Hd H Hno Hyes. apply serve_locks in H as [Hs|(d' & l' & Hd' & Ho & Hc)]; [by rewrite Hs in Hyes| |done].
  destruct (decide (d = d')) as [<-|Hne]; [|by rewrite Ho in Hyes]. destruct Hc as [Hc|Hc].
  - pose proof Hc as (ep & v & req & res & w1 & w2 & _ & _ & _ & _ & _ & _ & _ & _ & _ & _ & Hperm).
    rewrite Hperm in Hyes. by apply elem_of_cons in Hyes as [->|Hyes].
  - destruct Hc as (ep & req & res & w1 & w2 & _ & _ & _ & _ & _ & _ & _ & Hperm).
    destruct Hno. rewrite Hperm. by right.
Qed.

Lemma serve_lock_gone d l q x w resp w' : valid w → safe_name d = true → serve q x w = Some (resp, w') →
  l ∈ locks w d → l ∉ locks w' d → removes d l q x w resp w'.
Proof.
  intros Hv Hd H Hyes Hno. apply serve_locks in H as [Hs|(d' & l' & Hd' & Ho & Hc)]; [by rewrite Hs in Hno| |done].
  destruct (decide (d = d')) as [<-|Hne]; [|by rewrite Ho in Hno]. destruct Hc as [Hc|Hc].
  - destruct Hc as (ep & v & req & res & w1 & w2 & _ & _ & _ & _ & _ & _ & _ & _ & _ & _ & Hperm).
    destruct Hno. rewrite Hperm. by right.
  - pose proof Hc as (ep & req & res & w1 & w2 & _ & _ & _ & _ & _ & _ & _ & Hperm).
    rewrite Hperm in Hyes. by apply elem_of_cons in Hyes as [->|Hyes].
Qed.

(** What a sequence of requests does to the locks. *)
Lemma run_locks_safe l w0 resps w : valid w0 → run l w0 = Some (resps, w) →
  (∀ d k, safe_name d = true → (k ∉ locks w0 d) → k ∈ locks w d → at_request l w0 (creates d k))
  ∧ (∀ d k, safe_name d = true → k ∈ locks w0 d → (k ∉ locks w d) → at_request l w0 (removes d k)).
Proof.
  intros Hv H. split; intros d k Hd.
  - intros Hno Hyes. apply (first_change (λ w, k ∈ locks w d)) with resps w; [apply _| |done..].
    intros q x w1 resp w2 Hv1 Hs. by apply serve_lock_new.
  - intros Hin Hno. apply (first_change (λ w, k ∉ locks w d)) with resps w; [apply _| |done|done|by intros Hn|done].
    intros q x w1 resp w2 Hv1 Hs Hyes%dec_stable. by apply serve_lock_gone.
Qed.

(** ** Endpoints are apart *)

Lemma directory_inj ep1 ep2 : ep1 ∈ eps → ep2 ∈ eps → directory ep1 = directory ep2 → ep1 = ep2.
Proof.
  intros H1 H2 He. apply list_elem_of_lookup in H1 as [i Hi]. apply list_elem_of_lookup in H2 as [j Hj].
  assert (i = j) as ->; [|congruence].
  apply (NoDup_lookup (map storage_directory eps) i j (storage_directory ep1)); [done|..].
  - apply list_lookup_fmap_Some. eauto.
  - unfold storage_directory. fold (directory ep1). rewrite He. apply list_lookup_fmap_Some. eauto.
Qed.

(** A request for another endpoint, or for none, changes nothing in this one. *)
Lemma serve_elsewhere ep q x w resp w' : valid w → ep ∈ eps → (∀ rt v, ¬ addressed ep rt v q) →
  serve q x w = Some (resp, w') →
  (∀ o, normal_oid o → objects w' (directory ep) o = objects w (directory ep) o)
  ∧ locks w' (directory ep) = locks w (directory ep).
Proof.
  intros Hv Hin Hno H. assert (safe_name (directory ep) = true) as Hd by apply endpoint_safe_name. split.
  - intros o Ho. apply serve_objects in H as [Hs|(d & o' & data & Hd' & Ho' & Hst & Hob)]; [by apply Hs| |done].
    apply (proj2 Hob); [done..|]. intros [= <- <-].
    destruct Hst as (ep2 & oid & Hin2 & Hdir & [Ha _] & _).
    apply directory_inj in Hdir; [|done..]. subst ep2. by apply Hno in Ha.
  - apply serve_locks in H as [Hs|(d & l & Hd' & Ho & Hc)]; [by apply Hs| |done].
    apply Ho; [done|]. intros <-. destruct Hc as [Hc|Hc].
    + destruct Hc as (ep2 & v & req & res & w1 & w2 & Hin2 & Hdir & Ha & _).
      apply directory_inj in Hdir; [|done..]. subst ep2. by apply Hno in Ha.
    + destruct Hc as (ep2 & req & res & w1 & w2 & Hin2 & Hdir & Ha & _).
      apply directory_inj in Hdir; [|done..]. subst ep2. by apply Hno in Ha.
Qed.

(** ** Uploads and downloads *)

Lemma valid_oid_value rt oid : is_valid_oid oid = true → route_value_ok rt oid.
Proof.
  intros [Hl _]%is_valid_oid_spec. destruct rt; cbn [route_value_ok]; try done; [| |]; try split; intros ->; done.
Qed.

(** A transfer's request reaches its handler, without the rate limiter. *)
Lemma serve_transfer ep rt oid q x w resp w' : ep ∈ eps → is_transfer rt = true → is_valid_oid oid = true →
  clean_url_path (q_path q) = q_path q → addressed ep rt oid q → serve q x w = Some (resp, w') →
  ∃ resp1, endpoint_handler h ep rt (request q x oid rt) x w = Some (resp1, w')
    ∧ rs_status resp = rs_status resp1 ∧ rs_body resp = rs_body resp1
    ∧ (∀ k v, rs_header resp1 !! k = Some v → rs_header resp !! k = Some v).
Proof.
  intros Hin Ht Hoid Hclean [Hs Hp] H. unfold Server.serve in H. rewrite server_handler_next in H. unfold mux_handler in H.
  rewrite (endpoint_routed eps Hgood Hdirs _ _ _ ep rt oid Hin Hclean Hs Hp (valid_oid_value rt oid Hoid)), Ht in H.
  cbn [negb target_handler] in H. cbv zeta in H.
  destruct (endpoint_handler _ _ _ _ _ w) as [[resp1 w1]|] eqn:E; [|done]. cbn in H. injection H as <- <-.
  exists resp1. split; [done|]. split; [done|]. split; [done|]. intros k v Hk. by apply lookup_union_Some_l.
Qed.

Lemma upload_answer ep oid o q x w resp w' : valid w → content_addressed objects w → ep ∈ eps →
  normalise_oid oid = Ok o → clean_url_path (q_path q) = q_path q → addressed ep RUpload oid q →
  serve q x w = Some (resp, w') → rs_status resp = 200 →
  ∃ data, objects w' (directory ep) o = Some data ∧ content_oid data = o
    ∧ (objects w (directory ep) o = None → data `prefix_of` concat (rd_chunks (max_bytes_reader (h_max_upload_size (h ep)) (q_body q)))).
Proof.
  intros Hv Hca Hin Ho Hclean Ha H Hok. pose proof (proj1 (normalise_oid_ok _ _) Ho) as [Hoid _].
  apply (serve_transfer ep RUpload oid) in H as (resp1 & H & Hst & _); [|done..]. rewrite Hst in Hok.
  cbn [endpoint_handler] in H. injection H as H. apply (upload_handler_cases _ objects valid) in H as (Hv' & Hc); [|done].
  rewrite Hep in Hc. fold (directory ep) in Hc.
  assert (safe_name (directory ep) = true) as Hd by apply endpoint_safe_name.
  pose proof (normalise_oid_normal _ _ Ho) as Hn.
  destruct Hc as [[Hno _]|[[Hno _]|(_ & o' & Ho' & Hc)]]; [done..|].
  change (normalise_oid oid = Ok o') in Ho'. rewrite Ho in Ho'. injection Ho' as <-.
  destruct Hc as [[[data Hd'] Hs]|(data & Hdata & Hnone & Hpre & Hst')].
  - exists data. rewrite Hs, Hd' by done. split; [done|]. split; [by eapply Hca|done].
  - exists data. split; [apply Hst'|]. by split.
Qed.

Lemma download_answer {SZ : ∀ ep, AdapterSizes (h_store (h ep))} ep oid o q x w resp w' : valid w → ep ∈ eps →
  normalise_oid oid = Ok o → clean_url_path (q_path q) = q_path q → addressed ep RDownload oid q →
  q_method q = "GET"%go → serve q x w = Some (resp, w') → rs_status resp = 200 →
  ∃ data sent, objects w (directory ep) o = Some data
    ∧ rs_body resp = BytesBody sent ∧ sent `prefix_of` data ∧ (tr_sent (m_transfer x) = None → sent = data)
    ∧ rs_header resp !! "Content-Length"%go = Some (format_int (Z.of_nat (length data))).
Proof.
  intros Hv Hin Ho Hclean Ha Hm H Hok. pose proof (proj1 (normalise_oid_ok _ _) Ho) as [Hoid _].
  apply (serve_transfer ep RDownload oid) in H as (resp1 & H & Hst & Hb & Hh); [|done..]. rewrite Hst in Hok.
  cbn [endpoint_handler] in H. injection H as H. apply (download_handler_cases _ objects valid) in H as (_ & Hc); [|done].
  destruct Hc as (_ & o' & data & Ho' & Hobj & Hans). { rewrite Hok. set_solver. }
  rewrite Hep in Hobj. fold (directory ep) in Hobj.
  change (normalise_oid oid = Ok o') in Ho'. rewrite Ho in Ho'. injection Ho' as <-.
  apply object_answer_ok in Hans as (sent & Hbody & Hpre & Hall & Hlen); [|done|].
  - exists data, sent. rewrite Hb. eauto 10.
  - cbn [r_method request_of]. by rewrite Hm.
Qed.
End Loaded.

(** ** Every sequence of requests *)

Section Properties.
Context {N : NetIp} {T : Toml} {L : TomlLaws T} (env : environment) (path : gostring) (c : Config).
Context (Hload : load env path = Ok c) (p : ProxyTrust) (m : list (pattern * target)).
Context (Hmux : serve_mux (cfg_endpoints c) = Some m).

Local Abbreviation eps := (cfg_endpoints c).
Local Abbreviation serve := (serve version h take ready redirect p m).
Local Abbreviation run := (run version h take ready redirect p m).
Local Abbreviation at_request := (at_request version h take ready redirect p m).

Lemma loaded_mux : Forall (λ ep, good_path (ep_path ep)) eps ∧ NoDup (map storage_directory eps) ∧ m = server_entries eps.
Proof.
  destruct (loaded_paths env path c Hload) as [Hgood Hdirs]. split; [done|]. split; [done|].
  pose proof (serve_mux_registers eps Hgood Hdirs) as Hm. congruence.
Qed.

(** C1. The store of a running server. Whatever requests come, in whatever order, and
    whatever fails: every object is stored under its own hash, no object is lost or
    changed, and an object that was not there before was stored by one of the
    requests: a PUT to the path of the object below an endpoint of its directory,
    whose URL carries a valid signature for that upload and which announces no more
    than the maximum size. *)
Theorem server_store_safe l w0 resps w :
  valid w0 → content_addressed objects w0 → run l w0 = Some (resps, w) →
  content_addressed objects w ∧ length resps = length l
  ∧ (∀ d o data, safe_name d = true → normal_oid o → objects w0 d o = Some data → objects w d o = Some data)
  ∧ (∀ d o data, safe_name d = true → normal_oid o → objects w0 d o ≠ Some data → objects w d o = Some data →
       at_request l w0 (stores eps p d o data)).
Proof. destruct loaded_mux as (Hgood & Hdirs & ->). by apply run_store_safe. Qed.

(** C2. The locks of a running server. Whatever requests come, a lock that is there
    afterwards and was not before was created by one of them: a POST to the locks of
    an endpoint of its directory, authorised to upload, in the caller's name, on a
    path that had no lock; and a lock that is gone was removed by one: a POST to its
    own unlock path, authorised to upload, by its owner or forced by a maintainer.
    Requests that are for other endpoints, or for none, leave the objects and the
    locks of an endpoint exactly as they were. *)
Theorem server_locks_safe l w0 resps w :
  valid w0 → run l w0 = Some (resps, w) →
  (∀ d k, safe_name d = true → (k ∉ locks w0 d) → k ∈ locks w d → at_request l w0 (creates eps p d k))
  ∧ (∀ d k, safe_name d = true → k ∈ locks w0 d → (k ∉ locks w d) → at_request l w0 (removes eps p d k))
  ∧ (∀ ep, ep ∈ eps → (∀ q x rt v, (q, x) ∈ l → ¬ addressed ep rt v q) →
       (∀ o, normal_oid o → objects w (directory ep) o = objects w0 (directory ep) o)
       ∧ locks w (directory ep) = locks w0 (directory ep)).
Proof.
  intros Hv H. destruct loaded_mux as (Hgood & Hdirs & ->).
  assert (safe := H). apply run_locks_safe in safe as [Hnew Hgone]; [|done..]. split; [done|split; [done|]].
  intros ep Hin Hno. apply (run_keeps eps p (λ w, (∀ o, normal_oid o →
      objects w (directory ep) o = objects w0 (directory ep) o) ∧ locks w (directory ep) = locks w0 (directory ep)) l)
      with w0 resps; [|done..].
    intros q x w1 resp w2 Hq Hv1 [Ho Hl] Hs. eapply serve_elsewhere in Hs as [Ho2 Hl2]; [|done..|by intros rt v; eapply Hno].
    split; [|by rewrite Hl2]. intros o Hn. by rewrite Ho2, Ho.
Qed.

(** C4. What a server took is what it gives. When a PUT of an object is answered 200,
    and after any other requests a GET of the object is answered 200, then the answer
    announces as many bytes as the object has and its body is the object, up to where
    the transfer was cut off if it was: so a client that gets as many bytes as were
    announced has contents that hash to the object's ID. The object is what the store
    held right after the PUT, and when the PUT stored it, it is the beginning of the
    PUT's body, no longer than the limit. *)
Theorem server_round_trip {SZ : ∀ ep, AdapterSizes (h_store (h ep))} ep oid1 oid2 o q1 x1 l q2 x2 w0 resp1 w1 resps w2 resp2 w3 :
  valid w0 → content_addressed objects w0 → ep ∈ eps →
  normalise_oid oid1 = Ok o → normalise_oid oid2 = Ok o →
  clean_url_path (q_path q1) = q_path q1 → clean_url_path (q_path q2) = q_path q2 →
  addressed ep RUpload oid1 q1 → addressed ep RDownload oid2 q2 → q_method q2 = "GET"%go →
  serve q1 x1 w0 = Some (resp1, w1) → rs_status resp1 = 200 →
  run l w1 = Some (resps, w2) →
  serve q2 x2 w2 = Some (resp2, w3) → rs_status resp2 = 200 →
  ∃ data sent, content_oid data = o ∧ objects w1 (directory ep) o = Some data
    ∧ rs_body resp2 = BytesBody sent ∧ sent `prefix_of` data ∧ (tr_sent (m_transfer x2) = None → sent = data)
    ∧ rs_header resp2 !! "Content-Length"%go = Some (format_int (Z.of_nat (length data)))
    ∧ (length sent = length data → content_oid sent = o)
    ∧ (objects w0 (directory ep) o = None →
       data `prefix_of` concat (rd_chunks (max_bytes_reader (h_max_upload_size (h ep)) (q_body q1)))).
Proof.
  intros Hv Hc Hin Ho1 Ho2 Hp1 Hp2 Ha1 Ha2 Hm2 Hs1 Hok1 Hr Hs2 Hok2.
  destruct loaded_mux as (Hgood & Hdirs & ->). assert (safe_name (directory ep) = true) as Hd by apply endpoint_safe_name.
  pose proof (normalise_oid_normal _ _ Ho1) as Hn.
  pose proof (serve_valid eps p _ _ _ _ _ Hv Hs1) as Hv1.
  destruct (upload_answer eps Hgood Hdirs p ep oid1 o q1 x1 w0 resp1 w1) as (data & Hobj & Hdata & Hpre); [done..|].
  destruct (run_keeps eps p (λ w, objects w (directory ep) o = Some data) l) with w1 resps w2 as (Hv2 & Hobj2 & _); [|done..|].
  { intros q x w resp w' _ Hvw Hq. by eapply serve_object_stays. }
  destruct (download_answer eps Hgood Hdirs p ep oid2 o q2 x2 w2 resp2 w3) as (data2 & sent & Hobj3 & Hb & Hsent & Hall & Hlen);
    [done..|].
  assert (data2 = data) as -> by congruence. exists data, sent. do 6 (split; [done|]). split; [|done].
  intros Hl. by rewrite (prefix_length_eq _ _ Hsent) by lia.
Qed.
End Properties.
End Effects.
