(* ===== verification/Responses.v ===== *)
(** * The type of every answer

    What a client can rely on, whatever it sends: every handler answers with a
    status and a body of its own type, and JSON is text that parses back. *)

From S2P Require Import Prelude GoStrings GoUnicode GoPath GoConv GoHash GoTime GoUrl GoMime GoNet GoOs GoJson GoServe Sanitise Storage Signer Models LockSet Config Auth Batch Handler Middleware GoMux Routes Startup Server.

Local Open Scope go_scope.

(** ** JSON texts *)

(** Values but for their strings: integers, and objects with distinct members. *)
#[warnings="-register-all"]
Inductive json_shape : json → Prop :=
| shape_null : json_shape JNull
| shape_bool b : json_shape (JBool b)
| shape_int n : json_shape (jint n)
| shape_str s : json_shape (JStr s)
| shape_arr l : Forall json_shape l → json_shape (JArr l)
| shape_obj l : NoDup (map fst l) → Forall (λ p, json_shape (snd p)) l → json_shape (JObj l).

Lemma valid_arr l : json_valid (JArr l) = forallb json_valid l.
Proof. induction l as [|v l IH]; [done|]. cbn [forallb]. by rewrite <-IH. Qed.
Lemma valid_obj l : json_valid (JObj l) = forallb (λ p, utf8_valid (fst p) && json_valid (snd p)) l.
Proof. induction l as [|[k v] l IH]; [done|]. cbn [forallb fst snd]. by rewrite <-IH. Qed.

(** What [json.Marshal] accepts is read back. *)
Lemma shape_ok v : json_shape v → json_valid v = true → json_ok v.
Proof.
  induction v as [|b|t|s|l IH|l IH] using json_induction; intros Hs Hv; inversion Hs; subst; try by constructor.
  - rewrite valid_arr in Hv. apply forallb_Forall in Hv. apply ok_arr. rewrite Forall_forall in *. auto.
  - rewrite valid_obj in Hv. apply forallb_Forall in Hv. apply ok_obj; [done|]. rewrite Forall_forall in *.
    intros p Hp. specialize (Hv p Hp). apply andb_prop in Hv as [Hk Hv]. auto.
Qed.

(** *** The messages *)

Lemma omit_empty_cases k v : omit_empty k v = [] ∨ omit_empty k v = [(k, v)].
Proof. destruct v as [| | |[]|[]|[]]; auto. Qed.
Lemma omit_zero_cases k z : omit_zero k z = [] ∨ omit_zero k z = [(k, jint z)].
Proof. unfold omit_zero. destruct (z =? 0); auto. Qed.

(** An object with its members written out, some of which may be left out. *)
Ltac members :=
  repeat match goal with
  | |- context [omit_empty ?k ?v] => destruct (omit_empty_cases k v) as [-> | ->]
  | |- context [omit_zero ?k ?v] => destruct (omit_zero_cases k v) as [-> | ->]
  end; cbn [app];
  (apply shape_obj; [by apply (bool_decide_unpack (NoDup _))|repeat (apply Forall_cons; split; cbn [fst snd])]);
  try by constructor.

Lemma map_shape {A} (f : A → json) l : (∀ x, json_shape (f x)) → json_shape (JArr (map f l)).
Proof. intros Hf. apply shape_arr, Forall_map, Forall_forall. intros x _. apply Hf. Qed.
Lemma gmap_shape {A} (f : A → json) (m : gmap gostring A) : (∀ x, json_shape (f x)) →
  json_shape (JObj (map (λ p, (fst p, f (snd p))) (map_to_list m))).
Proof.
  intros Hf. apply shape_obj.
  - rewrite map_map. apply NoDup_fst_map_to_list.
  - apply Forall_map, Forall_forall. intros x _. apply Hf.
Qed.

Lemma lock_shape l : json_shape (json_of_lock l).
Proof. unfold json_of_lock. members. members. Qed.
Lemma locks_shape ls : json_shape (JArr (map json_of_lock ls)).
Proof. apply map_shape, lock_shape. Qed.
Lemma error_shape e : json_shape (json_of_error e).
Proof. unfold json_of_error. members. Qed.
Lemma created_shape c : json_shape (json_of_created c).
Proof. unfold json_of_created. members; apply lock_shape. Qed.
Lemma list_shape r : json_shape (json_of_locks r).
Proof. unfold json_of_locks. members; apply locks_shape. Qed.
Lemma verified_shape r : json_shape (json_of_verified r).
Proof. unfold json_of_verified. members; apply locks_shape. Qed.
Lemma unlocked_shape r : json_shape (json_of_unlocked r).
Proof. unfold json_of_unlocked. members. apply lock_shape. Qed.
Lemma action_shape a : json_shape (json_of_action a).
Proof.
  unfold json_of_action. members; apply (gmap_shape JStr); by constructor.
Qed.
Lemma object_shape r : json_shape (json_of_object_response r).
Proof.
  unfold json_of_object_response. members; try (by destruct (resp_authenticated r); constructor);
    try (apply (gmap_shape json_of_action); apply action_shape);
    (destruct (resp_error r) as [e|]; [|by constructor]); unfold json_of_object_error; members.
Qed.
Lemma batch_shape r : json_shape (json_of_batch_response r).
Proof. unfold json_of_batch_response. members; apply map_shape, object_shape. Qed.

(** ** What each handler answers *)

(** The statuses of a route's errors. *)
Definition error_statuses (rt : route) : list Z :=
  match rt with
  | RBatch => [401; 403; 404; 406; 413; 415; 422; 429; 500; 502; 507]
  | RCreateLock | RVerifyLocks => [401; 403; 406; 415; 422; 429; 500; 502]
  | RListLocks => [401; 403; 406; 422; 429; 500; 502]
  | RUnlock => [401; 403; 404; 406; 415; 422; 429; 500; 502]
  | RDownload => [403; 404; 500]
  | RUpload => [400; 403; 404; 408; 413; 500; 507]
  | RVerify => [403; 404; 415; 422; 500]
  end.

(** The messages of a route, by status. *)
Definition message_type (rt : route) (status : Z) (v : json) : Prop :=
  (status ∈ error_statuses rt ∧ ∃ e, v = json_of_error e)
  ∨ match rt with
    | RBatch => status = 200 ∧ ∃ b, v = json_of_batch_response b
    | RCreateLock => (status = 201 ∨ status = 409) ∧ ∃ c, v = json_of_created c
        ∧ (status = 409 ↔ created_message c = "already created lock"%go)
    | RListLocks => status = 200 ∧ ∃ b, v = json_of_locks b
    | RVerifyLocks => status = 200 ∧ ∃ b, v = json_of_verified b
    | RUnlock => status = 200 ∧ ∃ b, v = json_of_unlocked b
    | _ => False
    end.

(** The type of an answer: what its body is, its media type, and the headers that
    go with its status. *)
Definition answer_type (rt : route) (resp : Response) : Prop :=
  let hdr k := rs_header resp !! k in
  let tagged := rt = RDownload ∧ hdr "Cache-Control"%go = Some "no-store"%go ∧ is_Some (hdr "ETag"%go) in
  match rs_body resp with
  | NoBody =>
      rs_status resp = 200 ∧ (rt = RUpload ∨ rt = RVerify)
      ∨ tagged ∧ (rs_status resp = 304 ∧ hdr "Content-Type"%go = None ∧ hdr "Content-Length"%go = None
                  ∨ rs_status resp = 412
                  ∨ (rs_status resp = 200 ∨ rs_status resp = 206) ∧ is_Some (hdr "Content-Length"%go))
  | JsonBody v =>
      hdr "Content-Type"%go = Some lfs_media_type ∧ hdr "Cache-Control"%go = Some "no-store"%go
      ∧ parse_json (print_json v) = Some v ∧ message_type rt (rs_status resp) v
      ∧ (rs_status resp = 401 → is_Some (hdr "LFS-Authenticate"%go))
      ∧ (rs_status resp = 429 → is_Some (hdr "Retry-After"%go))
  | TextBody t =>
      (rs_status resp = 500 ∨ rt = RDownload ∧ rs_status resp = 416)
      ∧ hdr "Content-Type"%go = Some "text/plain; charset=utf-8"%go
  | BytesBody data =>
      tagged ∧ is_Some (hdr "Content-Length"%go)
      ∧ (rs_status resp = 200 ∧ hdr "Content-Type"%go = Some "application/octet-stream"%go
         ∨ rs_status resp = 206
           ∧ (hdr "Content-Type"%go = Some "application/octet-stream"%go ∧ is_Some (hdr "Content-Range"%go)
              ∨ ∃ b, hdr "Content-Type"%go = Some ("multipart/byteranges; boundary=" ++ b)))
  end.

(** Contents are left out only for a request that asks for the header alone. *)
Definition body_left_out (rt : route) (method : gostring) (resp : Response) : Prop :=
  rt = RDownload → rs_body resp = NoBody → rs_status resp = 200 ∨ rs_status resp = 206 → method = "HEAD"%go.

Lemma write_json_type rt hdr status v : json_shape v → message_type rt status v →
  (status = 401 → is_Some (hdr !! "LFS-Authenticate"%go)) → (status = 429 → is_Some (hdr !! "Retry-After"%go)) →
  answer_type rt (write_json hdr status v).
Proof.
  intros Hs Ht H1 H2. unfold answer_type, write_json. destruct (json_valid v) eqn:Hv; cbn [rs_status rs_header rs_body].
  - split; [by rewrite lookup_insert_ne, lookup_insert_eq|]. split; [by rewrite lookup_insert_eq|].
    split; [by apply parse_print, shape_ok|]. split; [done|].
    split; [intros H%H1|intros H%H2]; by rewrite !lookup_insert_ne.
  - split; [by left|]. by rewrite lookup_insert_ne, lookup_insert_eq.
Qed.

Lemma error_type rt hdr r status message : bool_decide (status ∈ error_statuses rt) = true →
  (status = 401 → is_Some (hdr !! "LFS-Authenticate"%go)) → (status = 429 → is_Some (hdr !! "Retry-After"%go)) →
  answer_type rt (write_error_with hdr r status message).
Proof.
  intros H%bool_decide_eq_true_1 H1 H2. apply write_json_type; [apply error_shape| |done|done]. left. eauto.
Qed.
Lemma write_error_type rt r status message : bool_decide (status ∈ error_statuses rt) = true → status ≠ 401 → status ≠ 429 →
  answer_type rt (write_error r status message).
Proof. intros H H1 H2. by apply error_type. Qed.

Lemma write_error_no_body r status message : rs_body (write_error r status message) ≠ NoBody.
Proof. unfold write_error, write_error_with, write_json. by destruct (json_valid _). Qed.

Section Types.
Context {U : Unicode} {I : IpSyntax} {F : FloatSyntax} {W : Type} (h : Endpoint → Handler W).

(** Routes that ask for credentials. *)
Definition asks_credentials (rt : route) : bool := negb (is_transfer rt).

Lemma credentials_type (hd : Handler W) r op w resp w' rt : asks_credentials rt = true →
  require_credentials hd r op w = (Err resp, w') → answer_type rt resp.
Proof.
  intros Hrt H. unfold require_credentials in H. destruct (h_authenticate _ _ _ _) as [[res|[|wait|]] w1].
  - destruct (negb _); [|done]. injection H as <- <-. apply error_type; [by destruct rt| |done].
    intros _. by rewrite lookup_singleton_eq.
  - injection H as <- <-. apply write_error_type; [by destruct rt|done..].
  - injection H as <- <-. apply error_type; [by destruct rt|done|]. intros _. by rewrite lookup_singleton_eq.
  - injection H as <- <-. apply write_error_type; [by destruct rt|done..].
Qed.
Lemma auth_result_type (hd : Handler W) r op w resp w' rt : asks_credentials rt = true →
  require_auth_result hd r op w = (Err resp, w') → answer_type rt resp.
Proof.
  intros Hrt H. unfold require_auth_result in H. destruct (require_credentials hd r op w) as [[res|resp1] w1] eqn:E.
  - destruct (negb _); [|done]. injection H as <- <-. apply write_error_type; [by destruct rt|done..].
  - injection H as <- <-. by eapply credentials_type.
Qed.
Lemma media_type_error r resp rt : asks_credentials rt = true → rt ≠ RListLocks →
  require_lfs_media_type r = Some resp → answer_type rt resp.
Proof.
  intros Hrt Hne H. unfold require_lfs_media_type in H. repeat case_match; simplify_eq;
    apply write_error_type; first [done|by destruct rt].
Qed.

#[local] Hint Resolve created_shape list_shape verified_shape unlocked_shape batch_shape : core.

(** An answer that is written out. *)
Ltac typed :=
  repeat case_match; simplify_eq;
  match goal with
  | H : require_credentials _ _ _ _ = (Err ?resp, _) |- answer_type _ ?resp => by eapply credentials_type; [|exact H]
  | H : require_auth_result _ _ _ _ = (Err ?resp, _) |- answer_type _ ?resp => by eapply auth_result_type; [|exact H]
  | H : require_lfs_media_type _ = Some ?resp |- answer_type _ ?resp => by eapply media_type_error; [..|exact H]
  | |- answer_type _ (write_error _ _ _) => by apply write_error_type
  | |- answer_type _ (write_json _ _ _) => apply write_json_type; [auto|right|done|done]
  | |- answer_type _ (not_found_handler ?r) => by apply (write_error_type _ r 404)
  | |- answer_type _ write_ok => left; split; auto
  | _ => idtac
  end.

Lemma batch_type (hd : Handler W) r now evs w resp w' : batch_handler hd r now evs w = Some (resp, w') → answer_type RBatch resp.
Proof. intros H. unfold batch_handler in H. typed; eauto. Qed.
Lemma create_lock_type (hd : Handler W) r w resp w' : create_lock_handler hd r w = (resp, w') → answer_type RCreateLock resp.
Proof.
  intros H. unfold create_lock_handler in H. typed; (split; [auto|]); eexists; (split; [done|]); done.
Qed.
Lemma list_locks_type (hd : Handler W) r w resp w' : list_locks_handler hd r w = (resp, w') → answer_type RListLocks resp.
Proof. intros H. unfold list_locks_handler, require_auth, list_error in H. typed; eauto. Qed.
Lemma verify_locks_type (hd : Handler W) r w resp w' : verify_locks_handler hd r w = (resp, w') → answer_type RVerifyLocks resp.
Proof. intros H. unfold verify_locks_handler, list_error in H. typed; eauto. Qed.
Lemma unlock_type (hd : Handler W) r w resp w' : unlock_handler hd r w = (resp, w') → answer_type RUnlock resp.
Proof. intros H. unfold unlock_handler in H. typed; eauto. Qed.
(** Contents, or the header alone. *)
Lemma contents_type method tr d status hdr :
  hdr !! "Cache-Control"%go = Some "no-store"%go → is_Some (hdr !! "ETag"%go) → is_Some (hdr !! "Content-Length"%go) →
  status = 200 ∧ hdr !! "Content-Type"%go = Some "application/octet-stream"%go
  ∨ status = 206 ∧ (hdr !! "Content-Type"%go = Some "application/octet-stream"%go ∧ is_Some (hdr !! "Content-Range"%go)
                    ∨ ∃ b, hdr !! "Content-Type"%go = Some ("multipart/byteranges; boundary=" ++ b)) →
  let resp := {| rs_status := status; rs_header := hdr; rs_body := written_body (writes method tr d) |} in
  answer_type RDownload resp ∧ body_left_out RDownload method resp.
Proof.
  intros Hc He Hl Ht. cbv zeta. unfold answer_type, body_left_out. cbn [rs_status rs_header rs_body].
  destruct (writes_cases method tr d) as [[-> ->]|[_ ->]]; cbn [written_body]; (split; [|done]); [|done].
  right. split; [done|]. right. right. split; [|done]. destruct Ht as [[-> _]|[-> _]]; auto.
Qed.

(** An object is written with the type its status calls for. *)
Lemma object_type r tr oid data size : let resp := write_object r tr oid data size in
  answer_type RDownload resp ∧ body_left_out RDownload (r_method r) resp.
Proof.
  cbv zeta. unfold write_object. set (hdr := download_header oid).
  assert (hdr !! "Content-Type"%go = Some "application/octet-stream"%go) as Ht by apply lookup_insert_eq.
  assert (hdr !! "Cache-Control"%go = Some "no-store"%go) as Hc
    by (unfold hdr, download_header; by rewrite lookup_insert_ne, lookup_insert_eq by done).
  assert (hdr !! "ETag"%go = Some (dquoted oid)) as He
    by (unfold hdr, download_header; by rewrite !lookup_insert_ne, lookup_singleton_eq by done).
  destruct (tr_seekable tr).
  2: { apply contents_type; rewrite ?lookup_insert_eq, ?lookup_insert_ne by done; [by rewrite Hc|by rewrite He|done|by left]. }
  destruct (serve_content _ _ _ _ _) as [[status hdr'] body] eqn:E.
  assert (status ≠ 416 → status ≠ 500 → hdr' !! "Cache-Control"%go = Some "no-store"%go ∧ is_Some (hdr' !! "ETag"%go)) as Hk.
  { intros H1 H2. rewrite !(serve_content_keeps _ _ _ _ _ _ _ _ _ E H1 H2) by (by apply (bool_decide_unpack (_ ∉ _))).
    by rewrite Hc, He. }
  apply serve_content_answer in E.
  destruct E as [hdr' Hl Hct|rng hdr' _ _ Hr Hl Hct|rs hdr' n body _ _ _ _ _ Hl Hct|_ _|_|text hdr' _ Hct|text hdr' _ Hct];
    try (destruct Hk as [Hk1 Hk2]; [done..|]).
  1-3: apply contents_type; rewrite ?Hl; try done; rewrite Hct; eauto 10.
  - split; [|by intros _ _ [|]]. right. split; [done|]. left. split; [done|]. cbn [rs_header]. unfold not_modified_header.
    by rewrite lookup_delete_eq, lookup_delete_ne, lookup_delete_eq.
  - split; [|by intros _ _ [|]]. right. split; [done|]. right. by left.
  - split; [|done]. split; [by right|done].
  - split; [|done]. split; [by left|done].
Qed.
Lemma download_type (hd : Handler W) r now tr w resp w' : download_handler hd r now tr w = (resp, w') →
  answer_type RDownload resp ∧ body_left_out RDownload (r_method r) resp.
Proof.
  assert (∀ status m, bool_decide (status ∈ error_statuses RDownload) = true → status ≠ 401 → status ≠ 429 →
    answer_type RDownload (write_error r status m) ∧ body_left_out RDownload (r_method r) (write_error r status m)) as Herr.
  { intros status m H1 H2 H3. split; [by apply write_error_type|]. intros _ Hb. by destruct (write_error_no_body _ _ _ Hb). }
  intros H. unfold download_handler, require_valid_signature in H. destruct (is_valid_oid _); cbn [negb] in H.
  2: { injection H as <- _. by apply Herr. }
  destruct (Signer.verify _ _ _ _ _); [|injection H as <- _; by apply Herr].
  destruct (ad_get _ _ _ _ _) as [[[data size]|e] w1].
  - apply (f_equal fst) in H. cbn [fst] in H. subst resp. apply object_type.
  - destruct (errors_is NotExist e); injection H as <- _; by apply Herr.
Qed.
Lemma upload_type (hd : Handler W) r now w resp w' : upload_handler hd r now w = (resp, w') → answer_type RUpload resp.
Proof. intros H. unfold upload_handler, upload_error, require_valid_signature in H. typed. Qed.
Lemma verify_type (hd : Handler W) r now w resp w' : verify_handler hd r now w = (resp, w') → answer_type RVerify resp.
Proof. intros H. unfold verify_handler, require_valid_signature in H. typed. Qed.

End Types.
