(* ===== verification/Metrics.v ===== *)
(** * internal/metrics and the access log

    What a server tells about itself: the Prometheus metrics of every request and
    the lines of the access log, around the multiplexer as [serverHandler] puts
    them.  The client library, and httpsnoop, which sees what a handler writes, are
    not part of the source: what is modelled is the calls to the former in their
    order, from what the latter reports.  The theorems: the observers change no answer, and whatever clients send, the
    labels they record are those of the routes. *)

From Stdlib Require Import SpecFloat.
From S2P Require Import Prelude GoStrings GoUnicode GoRegexp GoPath GoConv GoTime GoUrl GoMime GoNet GoOs GoJson Sanitise Storage Config ConfigLoad Auth Batch Handler Middleware GoMux Routes Startup Server.

Local Open Scope go_scope.

(** ** float64 *)

(** [float64] of an integer. *)
Definition to_float64 (n : Z) : spec_float := binary_normalize 53 1024 n 0 false.

(** [Duration.Seconds] *)
Definition seconds_float (d : Z) : spec_float :=
  SFadd 53 1024 (to_float64 (Z.quot d second))
    (SFdiv 53 1024 (to_float64 (Z.rem d second)) (to_float64 second)).

(** [v < 0] *)
Definition below_zero (v : spec_float) : bool :=
  match v with S754_finite true _ _ | S754_infinity true => true | _ => false end.

Example float_of_third : seconds_float 1500000000 = S754_finite false 6755399441055744 (-52).
Proof. reflexivity. Qed.

(** ** metrics.go: the collectors *)

Definition namespace : gostring := "anchor_lfs".
Definition route_label : gostring := "route".

(** In milliseconds. *)
Definition duration_buckets : list Z :=
  [5; 10; 25; 50; 100; 250; 500; 1000; 2500; 5000; 10000; 30000; 60000; 120000; 300000].

Inductive metric_kind : Type := CounterVec | HistogramVec (buckets : list Z) | GaugeFunc | ConstCounters.

(** The collectors [New] makes for requests. *)
Inductive collector : Type := Requests | RequestDuration | RequestBytes | ResponseBytes.

(** [prometheus.CounterOpts] and the like. *)
Record metric_opts := {
  mo_kind : metric_kind;
  mo_namespace : gostring;
  mo_name : gostring;
  mo_labels : list gostring;
  mo_const_labels : list (gostring * gostring)
}.

Definition collector_opts (c : collector) : metric_opts :=
  let opts kind name labels :=
    {| mo_kind := kind; mo_namespace := namespace; mo_name := name; mo_labels := labels; mo_const_labels := [] |} in
  match c with
  | Requests => opts CounterVec "http_requests_total" [route_label; "code"%go]
  | RequestDuration => opts (HistogramVec duration_buckets) "http_request_duration_seconds" [route_label]
  | RequestBytes => opts CounterVec "http_request_body_bytes_total" [route_label]
  | ResponseBytes => opts CounterVec "http_response_body_bytes_total" [route_label]
  end.
Definition build_info_opts (version commit : gostring) : metric_opts := {|
  mo_kind := GaugeFunc; mo_namespace := namespace; mo_name := "build_info"; mo_labels := [];
  mo_const_labels := [("version"%go, version); ("commit"%go, commit)]
|}.
(** The collectors of its own that [New] registers. *)
Definition new_metrics (version commit : gostring) : list metric_opts :=
  map collector_opts [Requests; RequestDuration; RequestBytes; ResponseBytes] ++ [build_info_opts version commit].

(** ** metrics.go: requests *)

(** Calls on the collectors, with the label values. *)
Inductive metric_call : Type :=
| Inc (c : collector) (labels : list gostring)
| Add (c : collector) (labels : list gostring) (v : spec_float)
| Observe (c : collector) (labels : list gostring) (v : spec_float).

(** A call the library takes: it panics on the wrong number of label values and when
    a counter would go down. *)
Definition call_ok (call : metric_call) : Prop :=
  match call with
  | Inc c labels => length labels = length (mo_labels (collector_opts c)) ∧ mo_kind (collector_opts c) = CounterVec
  | Add c labels v =>
      length labels = length (mo_labels (collector_opts c)) ∧ mo_kind (collector_opts c) = CounterVec ∧ below_zero v = false
  | Observe c labels _ =>
      length labels = length (mo_labels (collector_opts c)) ∧ mo_kind (collector_opts c) = HistogramVec duration_buckets
  end.
Definition call_labels (call : metric_call) : list gostring :=
  match call with Inc _ labels | Add _ labels _ | Observe _ labels _ => labels end.

(** [Read] of a request's body. *)
Definition reader_read (r : reader) : gostring * option go_error * reader :=
  match rd_chunks r with
  | [] => ([], Some (rd_end r), r)
  | data :: rest =>
      (data, match rest with [] => if rd_eager r then Some (rd_end r) else None | _ => None end,
       Reader rest (rd_end r) (rd_eager r))
  end.

(** [countingReader] *)
Record counting_reader := { cr_reader : reader; cr_n : Z }.
(** [countingReader.Read] *)
Definition counting_read (c : counting_reader) : gostring * option go_error * counting_reader :=
  let '(data, err, r) := reader_read (cr_reader c) in
  (data, err, {| cr_reader := r; cr_n := wrap_int64 (cr_n c + Z.of_nat (length data)) |}).
(** [k] reads: the data, and the reader after them. *)
Fixpoint counting_reads (k : nat) (c : counting_reader) : list gostring * counting_reader :=
  match k with
  | O => ([], c)
  | S k =>
      let '(data, _, c) := counting_read c in
      let '(l, c) := counting_reads k c in (data :: l, c)
  end.

(** A counting reader as the reader its [Read] calls make of it: what they return one
    after the other, up to the first error.  Data that come with the error make it
    an eager reader. *)
Fixpoint read_through (fuel : nat) (c : counting_reader) : reader :=
  match fuel with
  | O => Reader [] [] false
  | S fuel =>
      match counting_read c with
      | ([], Some e, _) => Reader [] e false
      | (data, Some e, _) => Reader [data] e true
      | (data, None, c) => let r := read_through fuel c in Reader (data :: rd_chunks r) (rd_end r) (rd_eager r)
      end
  end.
(** The body the handlers get: one read for every chunk and one for the end. *)
Definition counted_body (c : counting_reader) : reader := read_through (S (length (rd_chunks (cr_reader c)))) c.

(** [httpsnoop.Metrics] *)
Record captured := { cp_code : Z; cp_duration : Z; cp_written : Z }.

(** The calls of [Instrument] after a request. *)
Definition instrument_calls (route : gostring) (cp : captured) (n : Z) : list metric_call :=
  [Inc Requests [route; format_int (cp_code cp)];
   Observe RequestDuration [route] (seconds_float (cp_duration cp));
   Add RequestBytes [route] (to_float64 n);
   Add ResponseBytes [route] (to_float64 (cp_written cp))].

(** ** metrics.go: gauges and counters read when scraped *)

(** The gauge of [RegisterAvailableSpace]. *)
Definition available_space_gauge (available : result go_error Z) : spec_float :=
  match available with Ok free => to_float64 free | Err _ => S754_nan end.

(** [authCacheCollector.Collect], from [stats]: the counters by label. *)
Definition auth_cache_collect (stats : Z * Z) : list (gostring * spec_float) :=
  let '(hits, misses) := stats in [("hit"%go, to_float64 hits); ("miss"%go, to_float64 misses)].

(** ** logging.go *)

Inductive log_level : Type := DebugLevel | InfoLevel | WarnLevel | ErrorLevel.
#[export] Instance log_level_eq_dec : EqDecision log_level.
Proof. solve_decision. Defined.

(** [logEventForStatus] *)
Definition log_event_for_status (status : Z) (quiet : bool) : log_level :=
  if 500 <=? status then ErrorLevel
  else if 400 <=? status then WarnLevel
  else if quiet then DebugLevel
  else InfoLevel.

(** A line of the access log. *)
Record log_line := {
  ll_level : log_level;
  ll_request_id : option gostring;   (** as [Logger] attaches it *)
  ll_method : gostring;
  ll_path : gostring;
  ll_status : Z;
  ll_duration : Z;
  ll_bytes : Z;
  ll_ip : gostring
}.

(** [Logger]: the ID the global logger gets. *)
Definition logger_id (r : incoming) : option gostring :=
  match request_id_from r with [] => None | id => Some id end.

(** ** serverHandler *)

(** [r.Body = body] *)
Definition with_body (q : http_request) (body : reader) : http_request := {|
  q_in := q_in q; q_method := q_method q; q_host := q_host q; q_path := q_path q; q_uri := q_uri q;
  q_query := q_query q; q_tls := q_tls q; q_basic_auth := q_basic_auth q; q_content_length := q_content_length q;
  q_body := body; q_body_early := q_body_early q; q_body_read := q_body_read q; q_gone := q_gone q
|}.

(** What was recorded so far. *)
Record telemetry := { tl_metrics : list metric_call; tl_log : list log_line }.

(** What the outside adds to a request's answer: how often its body was read, how
    much was written, and how long it took inside and outside of the metrics. *)
Record observation := { ob_reads : nat; ob_written : Z; ob_duration : Z; ob_log_duration : Z }.

Section Observed.
Context {U : Unicode} {I : IpSyntax} {F : FloatSyntax} {R : RealClientIp} {W : Type}.

(** [httpsnoop.CaptureMetrics] *)
Definition capture (resp : Response) (duration written : Z) : captured :=
  {| cp_code := rs_status resp; cp_duration := duration; cp_written := written |}.

(** [Instrument]: the multiplexer is handed the request with the counting reader for
    its body, and also leaves the request's pattern. *)
Definition instrument (q : http_request) (ob : observation)
    (mux : http_request → incoming → gmap gostring gostring → W → option (Response * gostring * W)) : http_handler (W * telemetry) :=
  λ r hdr s, let '(w, t) := s in
  let body := {| cr_reader := q_body q; cr_n := 0 |} in
  '(resp, route, w) ← mux (with_body q (counted_body body)) r hdr w;
  let body := snd (counting_reads (ob_reads ob) body) in
  let cp := capture resp (ob_duration ob) (ob_written ob) in
  Some (resp, (w, {| tl_metrics := tl_metrics t ++ instrument_calls route cp (cr_n body); tl_log := tl_log t |})).

(** [Logging] *)
Definition logging (q : http_request) (ob : observation) (next : http_handler (W * telemetry)) (quiet : list gostring)
  : http_handler (W * telemetry) := λ r hdr s,
  '(resp, (w, t)) ← next r hdr s;
  let m := capture resp (ob_log_duration ob) (ob_written ob) in
  let path := path_unescape (q_path q) in
  let line := {|
    ll_level := log_event_for_status (cp_code m) (existsb (str_eqb path) quiet);
    ll_request_id := logger_id r; ll_method := q_method q; ll_path := path; ll_status := cp_code m;
    ll_duration := cp_duration m; ll_bytes := cp_written m; ll_ip := client_ip r |} in
  Some (resp, (w, {| tl_metrics := tl_metrics t; tl_log := tl_log t ++ [line] |})).

(** [serverHandler] *)
Definition observed_handler (p : ProxyTrust) (random : gostring) (access_log : bool) (q : http_request) (ob : observation)
    (mux : http_request → incoming → gmap gostring gostring → W → option (Response * gostring * W)) : http_handler (W * telemetry) :=
  let handler := instrument q ob mux in
  let handler := if access_log then logging q ob handler ["/health"; "/ready"]%go else handler in
  proxy_handler p (request_id random handler).

(** *** The pattern the multiplexer leaves *)

(** The pattern a target was registered with. *)
Definition target_text (t : target) : gostring :=
  match t with
  | TEndpoint ep _ r => route_method r ++ " " ++ ep_path ep ++ slash :: GoStrings.join [slash] (route_text r)
  | THealth => "GET /health"
  | TReady => "GET /ready"
  | TVersion => "GET /{$}"
  | TNotFound => "/"
  end.

(** [findHandler]'s pattern: empty for the multiplexer's own 404 and 405, and for a
    redirect to a path with a slash at the end, that path. *)
Definition mux_pattern (host method path : gostring) (m : list (pattern * target)) : gostring :=
  let clean := clean_url_path path in
  let found := mux_match host method clean m in
  if negb (exact_match found clean) && negb (has_suffix "/" clean)
     && exact_match (mux_match host method (clean ++ "/") m) (clean ++ "/")
  then clean_url_path (path_unescape path) ++ "/"
  else match found with Some ((_, t), _) => target_text t | None => [] end.

Context (version : gostring) (h : Endpoint → Handler W) (take : ctx → gostring → W → out W (Z * bool)).
Context (ready : ctx → Z → Z → W → Response * W) (redirect : http_request → gostring → Response).

Definition mux_serve (m : list (pattern * target)) (x : moment) (q : http_request)
    (r : incoming) (hdr : gmap gostring gostring) (w : W) : option (Response * gostring * W) :=
  '(resp, w) ← mux_handler version h take ready redirect m q x r hdr w;
  Some (resp, mux_pattern (strip_host_port (q_host q)) (q_method q) (q_path q) m, w).

(** One request, and requests one after the other. *)
Definition serve_observed (p : ProxyTrust) (m : list (pattern * target)) (access_log : bool)
    (q : http_request) (x : moment) (ob : observation) (s : W * telemetry) : option (Response * (W * telemetry)) :=
  observed_handler p (m_random x) access_log q ob (mux_serve m x) (q_in q) ∅ s.
Fixpoint run_observed (p : ProxyTrust) (m : list (pattern * target)) (access_log : bool)
    (l : list (http_request * moment * observation)) (s : W * telemetry) : option (list Response * (W * telemetry)) :=
  match l with
  | [] => Some ([], s)
  | (q, x, ob) :: l =>
      '(resp, s) ← serve_observed p m access_log q x ob s;
      '(resps, s) ← run_observed p m access_log l s; Some (resp :: resps, s)
  end.
End Observed.

(** ** What is recorded *)

(** A body whose [Read] returns its end with the last data only if there are some. *)
Definition steady_body (r : reader) : Prop :=
  rd_eager r = true → ∃ chunks data, rd_chunks r = chunks ++ [data] ∧ data ≠ [].

(** The counting reader is read as the body is. *)
Lemma read_through_body n c : steady_body (cr_reader c) → (length (rd_chunks (cr_reader c)) < n)%nat →
  read_through n c = cr_reader c.
Proof.
  revert c. induction n as [|n IH]; intros [[chunks e eager] k] Hs Hn; cbn [cr_reader rd_chunks] in *; [lia|].
  cbn [read_through]. unfold counting_read, reader_read, steady_body in *. cbn [cr_reader rd_chunks rd_end rd_eager cr_n] in *.
  destruct chunks as [|data [|data2 rest]].
  - destruct eager; [|done]. destruct (Hs eq_refl) as (l & d & Hl & _). by destruct l.
  - destruct eager.
    + destruct (Hs eq_refl) as ([|d0 l] & d & Hl & Hd); [|by destruct l]. injection Hl as ->. by destruct d.
    + rewrite IH by (cbn in *; done || lia). by destruct data.
  - rewrite IH; [by destruct data| |cbn in *; lia]. cbn [cr_reader rd_eager rd_chunks]. intros He.
    destruct (Hs He) as ([|d0 l] & d & Hl & Hd); [done|]. injection Hl as _ Hl. by exists l, d.
Qed.
Lemma counted_body_id q n : steady_body (q_body q) →
  with_body q (counted_body {| cr_reader := q_body q; cr_n := n |}) = q.
Proof. intros Hs. unfold counted_body. rewrite read_through_body; [by destruct q|done|cbn; lia]. Qed.

(** Counting changes nothing, and the count is what was read. *)
Lemma counting_reads_spec k c l c' : counting_reads k c = (l, c') →
  0 <= cr_n c → cr_n c + Z.of_nat (length (concat (rd_chunks (cr_reader c)))) <= max_int64 →
  l = take k (rd_chunks (cr_reader c)) ++ replicate (k - length (rd_chunks (cr_reader c))) []
  ∧ cr_n c' = cr_n c + Z.of_nat (length (concat l)).
Proof.
  revert c l c'. induction k as [|k IH]; intros [[chunks e eager] n] l c' H Hn Hmax.
  { injection H as <- <-. split; [done|]. simpl. lia. }
  cbn [counting_reads] in H. unfold counting_read, reader_read in H. cbn [cr_reader rd_chunks cr_n] in *.
  destruct chunks as [|data rest].
  - destruct (counting_reads k _) as [l1 c1] eqn:E. injection H as <- <-. cbn [length concat] in *.
    rewrite wrap_int64_id in E by (unfold in_int64, max_int64, min_int64 in *; lia).
    apply IH in E as [-> ->]; cbn [cr_n cr_reader rd_chunks concat length] in *; [|lia..].
    rewrite Z.add_0_r. split; [|simpl; lia]. rewrite !take_nil, !Nat.sub_0_r. done.
  - destruct (counting_reads k _) as [l1 c1] eqn:E. injection H as <- <-. cbn [concat] in *. rewrite length_app in *.
    rewrite wrap_int64_id in E by (unfold in_int64, max_int64, min_int64 in *; lia).
    apply IH in E as [-> ->]; cbn [cr_n cr_reader rd_chunks] in *; [|lia..].
    split; [done|]. lia.
Qed.

Lemma to_float64_not_below n : 0 <= n → below_zero (to_float64 n) = false.
Proof.
  intros Hn. unfold to_float64, binary_normalize. destruct n as [|m|m]; [done| |lia].
  unfold binary_round. destruct (shl_align _ _ _) as [mz ez]. unfold binary_round_aux.
  destruct (shr_fexp _ _ _ _ _) as [mrs e1]. destruct (shr_fexp _ _ _ _ _) as [mrs2 e2].
  destruct (shr_m mrs2); [done| |done]. by destruct (_ <=? _).
Qed.

Lemma instrument_calls_ok route cp n : 0 <= n → 0 <= cp_written cp → Forall call_ok (instrument_calls route cp n).
Proof. intros Hn Hw. repeat constructor; by apply to_float64_not_below. Qed.

(** *** The patterns of the routes are all there is *)

Definition registered_patterns (eps : list Endpoint) : list gostring := map fst (flat_map endpoint_routes eps ++ service_routes).

Lemma registered_length eps : length (registered_patterns eps) = (8 * length eps + 4)%nat.
Proof.
  unfold registered_patterns. rewrite length_map, length_app. cbn [service_routes length].
  induction eps as [|ep eps IH]; [done|]. cbn [flat_map length]. rewrite length_app. cbn [endpoint_routes length]. lia.
Qed.

Section Patterns.
Context {U : Unicode} (eps : list Endpoint).

Lemma endpoint_text ep limited r : ep ∈ eps → target_text (TEndpoint ep limited r) ∈ registered_patterns eps.
Proof.
  intros Hin. unfold registered_patterns. rewrite map_app, elem_of_app. left. apply list_elem_of_In, in_map_iff.
  exists (target_text (TEndpoint ep limited r), TEndpoint ep (negb (is_transfer r)) r). split; [done|].
  apply in_flat_map. exists ep. split; [by apply list_elem_of_In|]. destruct r; simpl; tauto.
Qed.

Lemma entry_text (x : pattern * target) : x ∈ server_entries eps → target_text (snd x) ∈ registered_patterns eps.
Proof.
  intros [(ep & r & Hep & ->)|Hx]%server_entry_in; [by apply endpoint_text|].
  unfold registered_patterns. rewrite map_app, elem_of_app. right.
  unfold service_entries in Hx. rewrite !elem_of_cons in Hx.
  destruct Hx as [->|[->|[->|[->|Hx%elem_of_nil]]]]; [..|done]; by apply (bool_decide_unpack _).
Qed.

(** A path with a slash at its end is matched by no pattern that is exact. *)
Lemma path_parts_slash parts : path_parts (parts ++ [[]]) = map path_unescape parts ++ ["/"%go].
Proof.
  induction parts as [|s parts IH]; [done|]. cbn [app map]. rewrite <-IH.
  destruct s; [|done]. by destruct parts.
Qed.
Lemma split_on_slash q : split_on slash (q ++ [slash]) = split_on slash q ++ [[]].
Proof. apply (split_on_middle slash q []). Qed.

Lemma route_last es r segs vals : path_matches (literals es ++ route_segs r) segs vals → last segs ≠ Some "/"%go.
Proof.
  intros (rest & -> & H)%literals_match. rewrite last_app.
  destruct r; cbn [route_segs route_parts literals map] in H;
    repeat match goal with H : path_matches (_ :: _) _ _ |- _ => inversion H; subst; clear H
                         | H : path_matches [] _ _ |- _ => inversion H; subst; clear H end; simpl; congruence.
Qed.

Lemma no_slash_redirect (host method : gostring) q : q ≠ [] →
  exact_match (mux_match host method ((slash :: q) ++ "/") (server_entries eps)) ((slash :: q) ++ "/") = false.
Proof.
  intros Hne. rewrite entries_match. destruct (match_method _ _ _ _) as [[[pt t] vals]|] eqn:E; [|done].
  apply match_method_sound in E as (Hin & _ & Hm). cbn [app path_segments] in Hm.
  change (q ++ "/") with (q ++ [slash]) in Hm. rewrite split_on_slash, path_parts_slash in Hm.
  cbn [exact_match].
  apply server_entry_in in Hin as [(ep & r & _ & [= -> ->])|Hx].
  - cbn [pt_segs route_pattern] in Hm. apply route_last in Hm. by rewrite last_snoc in Hm.
  - unfold service_entries in Hx. rewrite !elem_of_cons in Hx.
    assert (∀ s, ¬ path_matches [Lit s] (map path_unescape (split_on slash q) ++ ["/"%go]) vals) as Hlit.
    { intros s Hs. pose proof (split_on_nonempty slash q). destruct (split_on slash q) as [|a l]; [done|].
      inversion Hs as [|? ? ? ? H1| |]; subst. inversion H1 as [Hnil| | |]. by destruct l. }
    destruct Hx as [[= -> ->]|[[= -> ->]|[[= -> ->]|[[= -> ->]|Hx%elem_of_nil]]]]; [..|done]; try by apply Hlit in Hm.
    cbn [pt_segs ends_in_multi last is_multi negb]. apply andb_false_iff. right. apply Nat.eqb_neq.
    cbn [app]. rewrite filter_cons_True by done. change (q ++ "/") with (q ++ [slash]).
    rewrite filter_app, filter_cons_True by done. cbn [length]. rewrite length_app. cbn [length]. lia.
Qed.

(** The pattern a request leaves is one of those registered, whatever the request. *)
Lemma mux_pattern_registered (host method path : gostring) :
  mux_pattern host method path (server_entries eps) ∈ registered_patterns eps.
Proof.
  unfold mux_pattern. cbv zeta. destruct (clean_url_path_rooted path) as [q Hq].
  assert (negb (has_suffix "/" (clean_url_path path))
    && exact_match (mux_match host method (clean_url_path path ++ "/") (server_entries eps)) (clean_url_path path ++ "/") = false) as Hno.
  { rewrite Hq. destruct q as [|c q]; [done|]. rewrite no_slash_redirect by done. apply andb_false_r. }
  rewrite <-andb_assoc, Hno, andb_false_r. rewrite entries_match.
  destruct (some_handler eps method path) as [[[pt t] vals] E]. rewrite E.
  apply match_method_sound in E as (Hin & _). by apply (entry_text (pt, t)).
Qed.
End Patterns.

Section Properties.
Context {U : Unicode} {I : IpSyntax} {F : FloatSyntax} {R : RealClientIp} {N : NetIp} {T : Toml} {TL : TomlLaws T} {W : Type}.
Context (version : gostring) (h : Endpoint → Handler W) (take : ctx → gostring → W → out W (Z * bool)).
Context (ready : ctx → Z → Z → W → Response * W) (redirect : http_request → gostring → Response).
Context (p : ProxyTrust).

Local Abbreviation serve := (serve version h take ready redirect p).
Local Abbreviation run := (run version h take ready redirect p).
Local Abbreviation serve_observed := (serve_observed version h take ready redirect p).
Local Abbreviation run_observed := (run_observed version h take ready redirect p).

Definition quiet_paths : list gostring := ["/health"; "/ready"]%go.

(** The calls for a request and the line for it. *)
Definition recorded_calls (m : list (pattern * target)) (q : http_request) (ob : observation) (resp : Response) : list metric_call :=
  instrument_calls (mux_pattern (strip_host_port (q_host q)) (q_method q) (q_path q) m)
    (capture resp (ob_duration ob) (ob_written ob))
    (cr_n (snd (counting_reads (ob_reads ob) {| cr_reader := q_body q; cr_n := 0 |}))).
Definition recorded_line (q : http_request) (x : moment) (ob : observation) (resp : Response) : log_line :=
  let r := admitted p (m_random x) (q_in q) in
  let path := path_unescape (q_path q) in
  {| ll_level := log_event_for_status (rs_status resp) (existsb (str_eqb path) quiet_paths);
     ll_request_id := logger_id r; ll_method := q_method q; ll_path := path; ll_status := rs_status resp;
     ll_duration := ob_log_duration ob; ll_bytes := ob_written ob; ll_ip := client_ip r |}.

(** One request: the answer is that of the server without observers. *)
Lemma serve_observed_spec m access_log q x ob w t : steady_body (q_body q) →
  serve_observed m access_log q x ob (w, t)
  = '(resp, w') ← serve m q x w;
    Some (resp, (w', {| tl_metrics := tl_metrics t ++ recorded_calls m q ob resp;
                        tl_log := tl_log t ++ if access_log then [recorded_line q x ob resp] else [] |})).
Proof.
  intros Hs. unfold Metrics.serve_observed, Server.serve, observed_handler. cbv zeta.
  match goal with |- proxy_handler p (request_id _ ?n) _ _ _ = _ =>
    change (proxy_handler p (request_id (m_random x) n)) with (server_handler p (m_random x) n) end.
  rewrite !server_handler_next. set (r := admitted _ _ _). set (hdr := <[_ := _]> ∅).
  destruct access_log; [unfold logging|]; unfold instrument, mux_serve; rewrite counted_body_id by done;
    (destruct (mux_handler _ _ _ _ _ _ _ _ r hdr w) as [[resp w']|]; [|done]); [done|].
  cbn. by rewrite app_nil_r.
Qed.

Lemma log_event_levels status quiet :
  (log_event_for_status status quiet = ErrorLevel ↔ 500 <= status)
  ∧ (log_event_for_status status quiet = WarnLevel ↔ 400 <= status < 500)
  ∧ (log_event_for_status status quiet = DebugLevel ↔ status < 400 ∧ quiet = true).
Proof.
  unfold log_event_for_status. destruct (Z.leb_spec 500 status), (Z.leb_spec 400 status), quiet; split_and!; split; intros; try done; lia.
Qed.

Lemma admitted_id random r : length random = 8%nat → safe_id (in_request_id (admitted p random r)).
Proof.
  intros Hr. unfold admitted, server_handler.
  destruct (proxy_request p (request_id random (λ r0 _ _, Some (write_ok, r0))) r ∅ r) as (hd & ip & -> & _).
  unfold request_id. cbv zeta. cbn [in_request_id].
  destruct (re_match valid_request_id _) eqn:E; [by apply valid_request_id_safe|by apply generated_id_safe].
Qed.
(** Requests one after the other. *)
Lemma run_observed_spec m access_log l w t : Forall (λ '(q, _, _), steady_body (q_body q)) l →
  run_observed m access_log l (w, t)
  = '(resps, w') ← run m (map fst l) w;
    Some (resps, (w', {|
      tl_metrics := tl_metrics t ++ concat (zip_with (λ '(q, _, ob) resp, recorded_calls m q ob resp) l resps);
      tl_log := tl_log t ++ if access_log then zip_with (λ '(q, x, ob) resp, recorded_line q x ob resp) l resps else [] |})).
Proof.
  intros Hl. revert w t. induction Hl as [|[[q x] ob] l Hs _ IH]; intros w [ms lines].
  - cbn. destruct access_log; by rewrite !app_nil_r.
  - cbn [Metrics.run_observed map fst Server.run]. rewrite serve_observed_spec by done.
    destruct (serve m q x w) as [[resp w1]|]; [|done]. cbn [mbind option_bind]. rewrite IH.
    destruct (run m (map fst l) w1) as [[resps w2]|]; [|done]. cbn.
    destruct access_log; by rewrite <-!app_assoc, ?app_nil_r.
Qed.

(** The requests and observations the model is of: a body of net/http, shorter than
    2^63 bytes, and a request whose pattern the multiplexer looks up by its path, which
    it does not for [CONNECT] and [*]. *)
Definition plausible (x : http_request * moment * observation) : Prop :=
  let '(q, x, ob) := x in
  Z.of_nat (length (concat (rd_chunks (q_body q)))) <= max_int64 ∧ 0 <= ob_written ob ∧ length (m_random x) = 8%nat
  ∧ steady_body (q_body q) ∧ q_method q ≠ "CONNECT" ∧ q_uri q ≠ "*".

Lemma recorded_calls_ok m q ob resp : Z.of_nat (length (concat (rd_chunks (q_body q)))) <= max_int64 → 0 <= ob_written ob →
  recorded_calls m q ob resp
  = instrument_calls (mux_pattern (strip_host_port (q_host q)) (q_method q) (q_path q) m)
      (capture resp (ob_duration ob) (ob_written ob))
      (Z.of_nat (length (concat (firstn (ob_reads ob) (rd_chunks (q_body q))))))
  ∧ Forall call_ok (recorded_calls m q ob resp).
Proof.
  intros Hb Hw. unfold recorded_calls. destruct (counting_reads _ _) as [l c] eqn:E.
  apply counting_reads_spec in E as [-> Hn]; [|done..]. cbn [cr_n cr_reader snd] in *.
  rewrite concat_app, length_app in Hn.
  assert (concat (replicate (ob_reads ob - length (rd_chunks (q_body q))) ([] : gostring)) = []) as Hnil
    by (generalize (ob_reads ob - length (rd_chunks (q_body q)))%nat; intros n; by induction n).
  rewrite Hnil in Hn. cbn [length] in Hn. rewrite Hn. split; [f_equal; lia|]. apply instrument_calls_ok; simpl; [lia|done].
Qed.

(** C20. The observers of a server: they change no answer and nothing else, and what
    clients send cannot grow the metrics. Around any requests other than CONNECT and
    those for [*], with the access log or without, the handlers, which read the body
    through the counting reader, answer and leave the world as they would without it.
    Every request makes the same four calls on the collectors, none of which panics,
    with the answer's status and with what was read of the body; its route label is
    one of the patterns that were registered, 8 for each endpoint and 4 more, whatever
    its host and path, and whatever its method but CONNECT. And the access log, when it
    is on, gets one line for every request: at error level exactly from status 500 on,
    at warning level exactly from 400 on, at debug level exactly for others to the
    health checks, with the ID the request was given and the client's address. *)
Theorem observers_harmless env path c m access_log l w0 t0 :
  load env path = Ok c → serve_mux (cfg_endpoints c) = Some m → Forall plausible l →
  (λ '(resps, (w, _)), (resps, w)) <$> run_observed m access_log l (w0, t0) = run m (map fst l) w0
  ∧ length (registered_patterns (cfg_endpoints c)) = (8 * length (cfg_endpoints c) + 4)%nat
  ∧ ∀ resps w t, run_observed m access_log l (w0, t0) = Some (resps, (w, t)) →
      ∃ calls lines, tl_metrics t = tl_metrics t0 ++ concat calls ∧ tl_log t = tl_log t0 ++ lines
      ∧ Forall2 (λ '((q, x, ob), resp) cs, Forall call_ok cs
          ∧ ∃ route, route ∈ registered_patterns (cfg_endpoints c)
              ∧ cs = instrument_calls route (capture resp (ob_duration ob) (ob_written ob))
                  (Z.of_nat (length (concat (firstn (ob_reads ob) (rd_chunks (q_body q)))))))
          (zip l resps) calls
      ∧ if access_log then
          Forall2 (λ '((q, x, ob), resp) line,
            ll_status line = rs_status resp ∧ ll_path line = path_unescape (q_path q)
            ∧ (ll_level line = ErrorLevel ↔ 500 <= rs_status resp)
            ∧ (ll_level line = WarnLevel ↔ 400 <= rs_status resp < 500)
            ∧ (ll_level line = DebugLevel ↔ rs_status resp < 400 ∧ path_unescape (q_path q) ∈ ["/health"; "/ready"]%go)
            ∧ ll_request_id line = Some (in_request_id (admitted p (m_random x) (q_in q)))
            ∧ ll_ip line = client_ip (admitted p (m_random x) (q_in q))) (zip l resps) lines
        else lines = [].
Proof.
  intros Hload Hmux Hl. destruct (loaded_paths env path c Hload) as [Hgood Hdirs].
  rewrite serve_mux_registers in Hmux by done. injection Hmux as <-. set (m := server_entries (cfg_endpoints c)).
  rewrite run_observed_spec by (eapply Forall_impl; [exact Hl|by intros [[q x] ob] (_ & _ & _ & Hs & _)]). split; [by destruct (run m (map fst l) w0) as [[resps w]|]|].
  split; [apply registered_length|]. intros resps w t H.
  destruct (run m (map fst l) w0) as [[rs w1]|]; [|done]. injection H as <- <- <-. cbn [tl_metrics tl_log].
  eexists _, _. split; [done|]. split; [done|]. clear - Hl. rename rs into resps. split.
  - revert resps. induction Hl as [|[[q x] ob] l (Hb & Hw & _ & _) _ IH]; intros [|resp resps]; try constructor; [|apply IH].
    destruct (recorded_calls_ok m q ob resp Hb Hw) as [Heq Hok]. split; [done|]. eexists. split; [|exact Heq].
    apply mux_pattern_registered.
  - destruct access_log; [|done]. revert resps.
    induction Hl as [|[[q x] ob] l (_ & _ & Hr & _) _ IH]; intros [|resp resps]; try constructor; [|apply IH].
    destruct (log_event_levels (rs_status resp) (existsb (str_eqb (path_unescape (q_path q))) quiet_paths)) as (L1 & L2 & L3).
    split; [done|]. split; [done|]. split; [exact L1|]. split; [exact L2|]. split; [|split; [|done]].
    + etrans; [exact L3|]. apply and_iff_compat_l. rewrite existsb_exists. setoid_rewrite str_eqb_eq. split.
      * intros (y & Hy%list_elem_of_In & ->). done.
      * intros Hy. eexists. by rewrite <-list_elem_of_In.
    + cbn [ll_request_id recorded_line]. unfold logger_id, request_id_from.
      pose proof (admitted_id (m_random x) (q_in q) Hr) as [Hlen _]. revert Hlen.
      destruct (in_request_id _); simpl; [lia|done].
Qed.
End Properties.
