(* ===== verification/Deployment.v ===== *)
(** * main.go: the server that [serve] builds

    The state of a running server, shared by all its handlers, and the handlers as
    the loop of [serve] makes them: one storage backend and one lock store for all
    endpoints, and one GitHub authenticator for all endpoints of one API.  What is
    proved of a whole server in Server.v holds of this one: its parts keep their
    contracts, and they do not touch each other's data although objects and locks
    are below one directory. *)

From S2P Require Import Prelude GoStrings GoUnicode GoPath GoConv GoHash GoTime GoUrl GoMime GoNet GoOs GoJson Sanitise Storage Local S3 Signer Models LockSet LockStore SharedDir Config ConfigLoad Auth Batch Handler Middleware HandlerProofs LockHandlers Frames Parts FileLocks GoMux Routes Startup Server.

Local Open Scope go_scope.

(** ** The authenticators *)

(** [githubAuths]: which authenticator an API's key has, and those made so far. *)
Record authenticators := { au_index : gmap gostring nat; au_made : list GitHub }.
Definition no_authenticators : authenticators := {| au_index := ∅; au_made := [] |}.

(** The authenticator an endpoint's handler gets. *)
Inductive auth_choice : Type := NoneAuth | GitHubAuth (i : nat).

Section Authenticators.
Context {U : Unicode} (url_string : URL → gostring) (ttl : Z).   (** [URL.String], [AuthCacheDuration] *)

(** The key of an endpoint's API. *)
Definition auth_key (base : option URL) : gostring :=
  match base with Some u => url_string u | None => [] end.

(** [githubAuth] *)
Definition github_auth (ep : Endpoint) (a : authenticators) : nat * authenticators :=
  let key := auth_key (ep_base_url ep) in
  match au_index a !! key with
  | Some i => (i, a)
  | None =>
      let i := length (au_made a) in
      (i, {| au_index := <[key := i]> (au_index a); au_made := au_made a ++ [new_github ttl (ep_base_url ep)] |})
  end.

(** The switch of [serve] on [AuthMethod], and the loop around it. *)
Definition choose_auth (ep : Endpoint) (a : authenticators) : auth_choice * authenticators :=
  if str_eqb (auth_method ep) "github" then let '(i, a) := github_auth ep a in (GitHubAuth i, a)
  else (NoneAuth, a).
Fixpoint choose_auths (eps : list Endpoint) (a : authenticators) : list (Endpoint * auth_choice) * authenticators :=
  match eps with
  | [] => ([], a)
  | ep :: eps =>
      let '(choice, a) := choose_auth ep a in
      let '(l, a) := choose_auths eps a in ((ep, choice) :: l, a)
  end.

(** *** Sharing *)

(** Every key has one authenticator, made for a URL with that key. *)
Record auths_ok (a : authenticators) : Prop := {
  au_at key i : au_index a !! key = Some i →
    ∃ base, au_made a !! i = Some (new_github ttl base) ∧ auth_key base = key;
  au_all i : (i < length (au_made a))%nat → ∃ key, au_index a !! key = Some i
}.

Lemma no_authenticators_ok : auths_ok no_authenticators.
Proof. split; cbn; [done|lia]. Qed.

Lemma github_auth_ok ep a i a' : auths_ok a → github_auth ep a = (i, a') →
  auths_ok a' ∧ au_index a ⊆ au_index a' ∧ au_made a `prefix_of` au_made a'
  ∧ au_index a' !! auth_key (ep_base_url ep) = Some i.
Proof.
  intros [Hat Hall] H. unfold github_auth in H. set (key := auth_key _) in *.
  destruct (au_index a !! key) as [j|] eqn:E; injection H as <- <-; [by repeat split|].
  cbn [au_index au_made]. split; [|split; [by apply insert_subseteq|split; [by eexists|by rewrite lookup_insert_eq]]].
  split; cbn [au_index au_made].
  - intros k j [[<- <-]|[Hne Hj]]%lookup_insert_Some.
    + exists (ep_base_url ep). by rewrite list_lookup_middle.
    + destruct (Hat _ _ Hj) as (base & Hm & Hk). exists base. split; [by apply lookup_app_l_Some|done].
  - intros j Hj. rewrite length_app in Hj. cbn [length] in Hj.
    destruct (decide (j = length (au_made a))) as [->|Hne].
    + exists key. by rewrite lookup_insert_eq.
    + destruct (Hall j) as [k Hk]; [lia|]. exists k. rewrite lookup_insert_ne; [done|]. intros <-. congruence.
Qed.

(** What the loop gives an endpoint, in the map it ends with. *)
Definition choice_ok (a : authenticators) (x : Endpoint * auth_choice) : Prop :=
  match snd x with
  | NoneAuth => auth_method (fst x) ≠ "github"
  | GitHubAuth i => auth_method (fst x) = "github" ∧ au_index a !! auth_key (ep_base_url (fst x)) = Some i
  end.

Lemma choose_auth_ok ep a x a' : auths_ok a → choose_auth ep a = (x, a') →
  auths_ok a' ∧ au_index a ⊆ au_index a' ∧ au_made a `prefix_of` au_made a' ∧ choice_ok a' (ep, x).
Proof.
  intros Ha H. unfold choose_auth in H. destruct (str_eqb _ _) eqn:Em.
  - destruct (github_auth ep a) as [i a1] eqn:E. injection H as <- <-.
    apply github_auth_ok in E as (H1 & H2 & H3 & H4); [|done]. apply str_eqb_eq in Em. done.
  - injection H as <- <-. apply str_eqb_neq in Em. done.
Qed.

Lemma choice_ok_mono a a' x : au_index a ⊆ au_index a' → choice_ok a x → choice_ok a' x.
Proof.
  intros Hs. unfold choice_ok. destruct (snd x); [done|]. intros [Hm Hi]. split; [done|].
  by eapply lookup_weaken.
Qed.

Lemma choose_auths_ok eps a l a' : auths_ok a → choose_auths eps a = (l, a') →
  auths_ok a' ∧ au_index a ⊆ au_index a' ∧ map fst l = eps ∧ Forall (choice_ok a') l.
Proof.
  revert a l. induction eps as [|ep eps IH]; intros a l Ha H; cbn [choose_auths] in H; [by injection H as <- <-|].
  destruct (choose_auth ep a) as [x a1] eqn:E1. destruct (choose_auths eps a1) as [l1 a2] eqn:E2.
  injection H as <- <-. apply choose_auth_ok in E1 as (H1 & H2 & H3 & H4); [|done].
  apply IH in E2 as (H5 & H6 & H7 & H8); [|done]. split; [done|]. split; [by etrans|].
  split; [cbn; by rewrite H7|]. constructor; [by eapply choice_ok_mono|done].
Qed.

(** Every authenticator that was made is some endpoint's. *)
Lemma choose_auths_used eps a l a' i : choose_auths eps a = (l, a') →
  (length (au_made a) <= i < length (au_made a'))%nat → GitHubAuth i ∈ map snd l.
Proof.
  revert a l. induction eps as [|ep eps IH]; intros a l H Hi; cbn [choose_auths] in H.
  { injection H as <- <-. lia. }
  destruct (choose_auth ep a) as [x a1] eqn:E1. destruct (choose_auths eps a1) as [l1 a2] eqn:E2.
  injection H as <- <-. cbn [map snd]. destruct (decide (length (au_made a1) <= i)%nat) as [Hle|Hlt].
  { right. eapply IH; [done|lia]. }
  apply elem_of_cons. left. unfold choose_auth, github_auth in E1. destruct (str_eqb _ _); [|injection E1 as <- <-; lia].
  destruct (au_index a !! _); injection E1 as <- <-; [lia|]. cbn [au_made] in Hlt. rewrite length_app in Hlt.
  cbn [length] in Hlt. f_equal. lia.
Qed.

(** Endpoints and authenticators. Every endpoint gets an authenticator of its
    method. The one a GitHub endpoint gets was made for an API with the endpoint's
    own URL, so its tokens go nowhere else, and starts with an empty cache. Two
    GitHub endpoints share one exactly when their API URLs are the same text, and
    no authenticator is made that no endpoint uses. *)
Theorem authenticators_shared eps l a :
  choose_auths eps no_authenticators = (l, a) →
  map fst l = eps
  ∧ (∀ ep x, (ep, x) ∈ l → match x with
       | NoneAuth => auth_method ep ≠ "github"
       | GitHubAuth i => auth_method ep = "github"
           ∧ ∃ base, au_made a !! i = Some (new_github ttl base) ∧ auth_key base = auth_key (ep_base_url ep)
       end)
  ∧ (∀ ep1 ep2 i j, (ep1, GitHubAuth i) ∈ l → (ep2, GitHubAuth j) ∈ l →
       i = j ↔ auth_key (ep_base_url ep1) = auth_key (ep_base_url ep2))
  ∧ (∀ i, (i < length (au_made a))%nat → GitHubAuth i ∈ map snd l).
Proof.
  intros H. pose proof (choose_auths_ok _ _ _ _ no_authenticators_ok H) as ([Hat _] & _ & Hfst & Hall).
  rewrite Forall_forall in Hall. split; [done|]. split; [|split].
  - intros ep x Hx. specialize (Hall _ Hx). unfold choice_ok in Hall. cbn [fst snd] in Hall.
    destruct x as [|i]; [done|]. destruct Hall as [Hm Hi]. split; [done|]. by apply Hat.
  - intros ep1 ep2 i j H1 H2. apply Hall in H1 as [_ H1]. apply Hall in H2 as [_ H2]. cbn [fst] in *. split.
    + intros ->. destruct (Hat _ _ H1) as (b1 & M1 & <-). destruct (Hat _ _ H2) as (b2 & M2 & <-).
      rewrite M1 in M2. by injection M2 as ->.
    + congruence.
  - intros i Hi. eapply choose_auths_used; [done|]. cbn. lia.
Qed.
End Authenticators.

(** ** The running server *)

(** A storage backend: the local one is part of the server's world. *)
Inductive backend (B : Type) : Type :=
| LocalBackend
| S3Backend (s : S3 B) (presigner : option (S3Presigner B)).
Arguments LocalBackend {B}.
Arguments S3Backend {B}.

(** What the process and the machine hold: the state of the local backend, what is
    behind the S3 API, the lock store's cache and how many lock IDs it made, the
    files, the GitHub authenticators and how many requests they got, the rate
    limiter, and the last result of the readiness check. *)
Record server_world (B Lim : Type) := World {
  sv_local : Local;
  sv_bucket : @s3_world B;
  sv_locks : FileLockStore;
  sv_ids : nat;
  sv_os : os;
  sv_githubs : list GitHub;
  sv_asked : nat;
  sv_limiter : Lim;
  sv_ready : option Z * gostring
}.
Arguments World {B Lim}.
Arguments sv_local {B Lim}.
Arguments sv_bucket {B Lim}.
Arguments sv_locks {B Lim}.
Arguments sv_ids {B Lim}.
Arguments sv_os {B Lim}.
Arguments sv_githubs {B Lim}.
Arguments sv_asked {B Lim}.
Arguments sv_limiter {B Lim}.
Arguments sv_ready {B Lim}.

Section Server.
Context {U : Unicode} {B Lim : Type}.
(** [uuid.NewString], the authenticators' HMAC key, and what the n-th request to an
    authenticator sees: the time, and GitHub as it then answers. *)
Context (uuid : nat → gostring) (hmac_key : gostring) (network : nat → Z * GitHubApi).
(** The rate limiter's store. *)
Context (limiter_take : gostring → Lim → result go_error (Z * bool) * Lim).

Local Abbreviation W := (server_world B Lim).

(** *** The parts of the world *)

Definition local_part : part W Local.world := {|
  part_get w := (sv_local w, sv_os w);
  part_set v w := World (fst v) (sv_bucket w) (sv_locks w) (sv_ids w) (snd v) (sv_githubs w) (sv_asked w) (sv_limiter w) (sv_ready w)
|}.
Definition bucket_part : part W (@s3_world B) := {|
  part_get w := sv_bucket w;
  part_set v w := World (sv_local w) v (sv_locks w) (sv_ids w) (sv_os w) (sv_githubs w) (sv_asked w) (sv_limiter w) (sv_ready w)
|}.
Definition locks_part : part W locks_world := {|
  part_get w := {| lw_store := (sv_locks w, sv_os w); lw_ids := sv_ids w |};
  part_set v w := World (sv_local w) (sv_bucket w) (fst (lw_store v)) (lw_ids v) (snd (lw_store v)) (sv_githubs w) (sv_asked w) (sv_limiter w) (sv_ready w)
|}.
Definition set_githubs (l : list GitHub) (w : W) : W :=
  World (sv_local w) (sv_bucket w) (sv_locks w) (sv_ids w) (sv_os w) l (S (sv_asked w)) (sv_limiter w) (sv_ready w).
Definition set_limiter (l : Lim) (w : W) : W :=
  World (sv_local w) (sv_bucket w) (sv_locks w) (sv_ids w) (sv_os w) (sv_githubs w) (sv_asked w) l (sv_ready w).
Definition set_ready (r : option Z * gostring) (w : W) : W :=
  World (sv_local w) (sv_bucket w) (sv_locks w) (sv_ids w) (sv_os w) (sv_githubs w) (sv_asked w) (sv_limiter w) r.

#[export] Instance local_part_laws : PartLaws local_part.
Proof. by intros [l o] w. Qed.
#[export] Instance bucket_part_laws : PartLaws bucket_part.
Proof. done. Qed.
#[export] Instance locks_part_laws : PartLaws locks_part.
Proof. by intros [[s o] n] w. Qed.

(** *** The collaborators of the handlers *)

Definition server_store (b : backend B) : Adapter W :=
  match b with
  | LocalBackend => lift_adapter local_part local_adapter
  | S3Backend s q => lift_adapter bucket_part (s3_adapter s q)
  end.
Definition server_locks : LockStore W := lift_lock_store locks_part (file_locks uuid).

(** The [i]-th GitHub authenticator. *)
Definition github_authenticator (i : nat) : Authenticator W := {|
  authenticate_with ep user pw op w :=
    match sv_githubs w !! i with
    | None => (Err OtherAuthError, w)
    | Some g =>
        let '(now, api) := network (sv_asked w) in
        let '(r, g) := authenticate hmac_key api now ep user pw op g in
        (r, set_githubs (<[i := g]> (sv_githubs w)) w)
    end
|}.
Definition server_auth (choice : auth_choice) : Authenticator W :=
  match choice with
  | NoneAuth => {| authenticate_with := none_authenticate |}
  | GitHubAuth i => github_authenticator i
  end.

(** The rate limiter's [Take]. *)
Definition server_take (_ : ctx) (ip : gostring) (w : W) : out W (Z * bool) :=
  let '(r, l) := limiter_take ip (sv_limiter w) in (r, set_limiter l w).

(** [GET /ready] *)
Definition check_data (dir : gostring) (w : W) : result go_error unit * W := lift local_part (check_data_dir dir) w.
Definition server_ready (b : backend B) (dir : gostring) (c : ctx) (now later : Z) (w : W) : Response * W :=
  let rd := {| rd_store := server_store b; rd_data_dir := dir; rd_ttl := readiness_cache_ttl;
               rd_checked_at := fst (sv_ready w); rd_failed := snd (sv_ready w) |} in
  let '(resp, (rd, w)) := serve_ready check_data c now later (rd, w) in
  (resp, set_ready (rd_checked_at rd, rd_failed rd) w).

(** The handler [serve] makes for an endpoint: [HandlerConfig] and [NewHandler]. *)
Definition new_handler (opts : Options) (b : backend B) (signer : URLSigner) (ep : Endpoint) (choice : auth_choice)
  : Handler W := {|
  h_endpoint := ep;
  h_store := server_store b;
  h_auth := server_auth choice;
  h_base_url := o_base_url opts;
  h_max_upload_size := o_max_upload_size opts;
  h_signer := signer;
  h_lock_store := server_locks;
  h_upload_idle_timeout := o_upload_idle_timeout_duration opts
|}.
(** The handlers of all endpoints, from what the loop gave each. *)
Definition choice_of (l : list (Endpoint * auth_choice)) (ep : Endpoint) : auth_choice :=
  match List.find (λ x, bool_decide (fst x = ep)) l with Some x => snd x | None => NoneAuth end.
Definition server_handlers (opts : Options) (b : backend B) (signer : URLSigner) (l : list (Endpoint * auth_choice))
    (ep : Endpoint) : Handler W :=
  new_handler opts b signer ep (choice_of l ep).
End Server.

(** ** Its parts keep their contracts, and apart *)

(** The local backend touches objects and temporary files only. *)
Definition touches_objects {U : Unicode} (w w' : Local.world) : Prop :=
  local_valid w → local_valid w' ∧ base_path (fst w') = base_path (fst w)
    ∧ touches (base_path (fst w)) object_elems (snd w) (snd w').

Lemma reads_only_objects {U : Unicode} w w' : reads_only w w' → touches_objects w w'.
Proof.
  intros H Hv. destruct (reads_only_touches object_elems w w' H) as [Hb Ht]. split; [|done].
  destruct w as [l o], w' as [l' o']. eapply local_valid_incl; [done|apply H].
Qed.

#[export] Instance local_reads_objects {U : Unicode} : AdapterReads local_adapter touches_objects.
Proof.
  split; cbn [ad_exists ad_get ad_size ad_available_space ad_check ad_presigner local_adapter]; [intros * H..|done|done];
    apply reads_only_objects.
  - by eapply local_exists_reads.
  - by eapply local_get_reads.
  - by eapply local_size_reads.
  - by eapply local_space_reads.
  - by eapply local_check_reads.
Qed.
#[export] Instance local_puts_objects {U : Unicode} : AdapterPuts local_adapter touches_objects.
Proof.
  intros c ep oid rd n [l o] r [l' o'] H Hv. cbn [ad_put local_adapter] in H. split; [by apply local_put_objects in H as [? _]|].
  by eapply local_put_touches.
Qed.

Section Contracts.
Context {U : Unicode} {B Lim : Type} (uuid : nat → gostring) (hmac_key : gostring) (network : nat → Z * GitHubApi).
Context {Hinj : Inj (=) (=) uuid} (Hne : ∀ k, uuid k ≠ []).
Context (limiter_take : gostring → Lim → result go_error (Z * bool) * Lim).
Context (objs : B → gostring → gostring → option gostring).
Context (data_dir : gostring).   (** [DataDirectory] *)

Local Abbreviation W := (server_world B Lim).

(** The objects and the locks of a server. *)
Definition server_objects (b : backend B) : object_store W :=
  match b with
  | LocalBackend => λ w, local_objects (part_get local_part w)
  | S3Backend s _ => λ w, s3_objects s objs (part_get bucket_part w)
  end.
Definition server_lock_table : lock_table W := λ w, file_lock_table (part_get locks_part w).

(** What holds in a running server: the invariants of its parts, which all use the
    data directory. *)
Record server_ok (w : W) : Prop := {
  so_local : local_valid (part_get local_part w);
  so_locks : file_locks_ok uuid (part_get locks_part w);
  so_base : base_path (sv_local w) = data_dir;
  so_lock_base : store_base (sv_locks w) = data_dir
}.

(** What a backend assumes of the S3 service. *)
Definition backend_laws (b : backend B) : Prop :=
  match b with
  | LocalBackend => True
  | S3Backend s q => (∃ parts, S3Laws (client s) objs parts) ∧ ∀ p, q = Some p → S3PresignLaws p objs
  end.

(** The files change where no lock file is. *)
Lemma quiet_server w l o : server_ok w → local_valid (l, o) → base_path l = base_path (sv_local w) →
  quiet (base_path (sv_local w)) (sv_os w) o →
  server_ok (part_set local_part (l, o) w)
  ∧ LockHandlers.same_locks server_lock_table w (part_set local_part (l, o) w).
Proof.
  intros [Hl Hk Hb Hb'] Hv Hbase Q. rewrite Hb, <-Hb' in Q.
  destruct (quiet_file_locks uuid (sv_locks w) (sv_os w) o (sv_ids w) Hk Q) as [Hk' Hs].
  split; [|exact Hs]. split; [done|done| |done]. cbn. by rewrite Hbase.
Qed.

Lemma local_part_keeps w v : touches_objects (part_get local_part w) v →
  keeps_locks server_lock_table server_ok w (part_set local_part v w).
Proof.
  intros Hk Hw. destruct (Hk (so_local _ Hw)) as (Hv & Hb & Ht). destruct v as [l o].
  apply quiet_server; [done|done|done|]. by apply object_not_lock.
Qed.

Lemma bucket_part_keeps w v : keeps_locks server_lock_table server_ok w (part_set bucket_part v w).
Proof. intros [Hl Hk Hb Hb']. by split. Qed.

Lemma locks_part_keeps b w v : touches_lock_files uuid (part_get locks_part w) v →
  keeps_objects (server_objects b) server_ok w (part_set locks_part v w).
Proof.
  intros Hk Hw. destruct (Hk (so_locks _ Hw)) as (Hv & Hb & Ht). destruct v as [[s o] n].
  cbn [fst snd lw_store part_get locks_part] in *.
  destruct (others_keep_objects lock_elems (sv_local w) (sv_local w) (sv_os w) o) as [Hl Hs];
    [done|apply lock_elems_apart|by rewrite (so_base _ Hw), <-(so_lock_base _ Hw)|apply Hw|].
  split; [|by destruct b].
  split; [done|exact Hv|apply Hw|]. cbn. rewrite Hb. apply Hw.
Qed.

(** *** The laws of the handlers *)

Lemma server_store_laws b : backend_laws b → AdapterLaws (server_store b) (server_objects b) server_ok.
Proof.
  intros Hb. destruct b as [|s q].
  - apply (lift_adapter_laws local_part local_adapter local_objects local_valid touches_objects); [apply _..|by intros w []|].
    intros w v Hw Hv Hk. by apply local_part_keeps in Hk as [? _].
  - destruct Hb as [[parts HL] HP]. pose proof (s3_laws s objs parts q) as L.
    apply (lift_adapter_laws bucket_part (s3_adapter s q) (s3_objects s objs) (λ _, True) (λ _ _, True)); [apply _| | |done|].
    1,2: by repeat split.
    intros w v Hw _ _. by apply (bucket_part_keeps w v).
Qed.

(** The sizes the server's storage reports are those of the data, S3's if its are. *)
Lemma server_store_sizes (b : backend B) :
  match b with LocalBackend => True | S3Backend s _ => S3Lengths (client s) end → AdapterSizes (W := W) (server_store b).
Proof. destruct b as [|s q]; intros HS; apply lift_adapter_sizes; apply _. Qed.

Lemma server_store_keeps_locks b : AdapterReads (server_store b) (keeps_locks server_lock_table server_ok)
  ∧ AdapterPuts (server_store b) (keeps_locks server_lock_table server_ok).
Proof.
  destruct b as [|s q]; split.
  - apply (lift_reads local_part local_adapter touches_objects); [apply _|apply local_part_keeps].
  - apply (lift_puts local_part local_adapter touches_objects); [apply _|apply local_part_keeps].
  - apply (lift_reads bucket_part (s3_adapter s q) (λ _ _, True)); [by repeat split|]. intros w v _. apply bucket_part_keeps.
  - apply (lift_puts bucket_part (s3_adapter s q) (λ _ _, True)); [by repeat split|]. intros w v _. apply bucket_part_keeps.
Qed.

Lemma server_locks_laws : LockLaws (server_locks uuid) server_lock_table server_ok.
Proof.
  pose proof (file_locks_laws uuid Hne) as L. pose proof (file_locks_lists uuid Hne).
  pose proof (file_locks_writes uuid Hne).
  apply (lift_lock_laws locks_part (file_locks uuid) file_lock_table (file_locks_ok uuid) (touches_lock_files uuid));
    [apply _..|by intros w []|]. intros w v Hw Hv Hk. by apply (locks_part_keeps LocalBackend) in Hk as [? _].
Qed.

Lemma server_locks_keep_objects b : LockStoreLists (server_locks uuid) (keeps_objects (server_objects b) server_ok)
  ∧ LockStoreWrites (server_locks uuid) (keeps_objects (server_objects b) server_ok).
Proof.
  pose proof (file_locks_lists uuid Hne). pose proof (file_locks_writes uuid Hne). split.
  - apply (lift_lists locks_part (file_locks uuid) (touches_lock_files uuid)); [apply _|apply locks_part_keeps].
  - apply (lift_writes locks_part (file_locks uuid) (touches_lock_files uuid)); [apply _|apply locks_part_keeps].
Qed.

(** The authenticators and the rate limiter have parts of their own. *)
Lemma server_auth_keeps choice (P : W → W → Prop) {HP : Reflexive P} :
  (∀ w l, P w (set_githubs l w)) → AuthKeeps (server_auth hmac_key network choice) P.
Proof.
  intros Hset ep user pw op w r w' H. destruct choice as [|i]; [by injection H as <- <-|].
  cbn [server_auth github_authenticator authenticate_with] in H.
  destruct (sv_githubs w !! i) as [g|]; [|by injection H as <- <-].
  destruct (network _) as [now api]. destruct (authenticate _ _ _ _ _ _ _ _) as [r1 g1].
  injection H as <- <-. apply Hset.
Qed.

Lemma set_githubs_keeps b w l : keeps_objects (server_objects b) server_ok w (set_githubs l w)
  ∧ keeps_locks server_lock_table server_ok w (set_githubs l w).
Proof. split; intros [Hl Hk Hb Hb']; (split; [by split|]); by destruct b. Qed.

Lemma set_limiter_keeps b w l : keeps_all (server_objects b) server_lock_table server_ok w (set_limiter l w).
Proof. split; intros [Hl Hk Hb Hb']; (split; [by split|]); by destruct b. Qed.
Lemma set_ready_keeps b w l : keeps_all (server_objects b) server_lock_table server_ok w (set_ready l w).
Proof. split; intros [Hl Hk Hb Hb']; (split; [by split|]); by destruct b. Qed.

Lemma server_take_keeps b c ip w r w' : server_take limiter_take c ip w = (r, w') →
  keeps_all (server_objects b) server_lock_table server_ok w w'.
Proof.
  unfold server_take. destruct (limiter_take ip (sv_limiter w)) as [r1 l]. intros [= <- <-]. apply set_limiter_keeps.
Qed.

(** The readiness check writes a file of its own. *)
Lemma check_data_keeps b w r w' : check_data data_dir w = (r, w') →
  keeps_all (server_objects b) server_lock_table server_ok w w'.
Proof.
  intros H. unfold check_data, lift, check_data_dir in H. cbn [part_get local_part fst snd] in H.
  destruct (check_writable_dir data_dir (sv_os w)) as [r1 o] eqn:E. injection H as <- <-.
  change (World _ _ _ _ _ _ _ _ _) with (part_set local_part (sv_local w, o) w).
  assert (server_ok w → touches (base_path (sv_local w)) probe_elems (sv_os w) o) as Ht.
  { intros Hw. rewrite (so_base _ Hw). apply check_writable_touches in E; [done|apply Hw]. }
  assert (server_ok w → local_valid (sv_local w, o) ∧ same_objects local_objects (sv_local w, sv_os w) (sv_local w, o)) as Ho.
  { intros Hw. apply (others_keep_objects probe_elems); [done|apply probe_elems_apart|by apply Ht|apply Hw]. }
  assert (server_ok w → server_ok (part_set local_part (sv_local w, o) w)
    ∧ LockHandlers.same_locks server_lock_table w (part_set local_part (sv_local w, o) w)) as Hq.
  { intros Hw. apply quiet_server; [done|by apply Ho|done|]. by apply probe_not_lock, Ht. }
  split; intros Hw; destruct (Hq Hw) as [Hok Hs]; (split; [done|]); [|done].
  destruct b; [by apply Ho|done].
Qed.

Lemma server_ready_keeps b c now later w r w' : backend_laws b →
  server_ready b data_dir c now later w = (r, w') →
  keeps_all (server_objects b) server_lock_table server_ok w w'.
Proof.
  intros Hb H. pose proof (server_store_laws b Hb) as L. destruct (server_store_keeps_locks b) as [R _].
  assert (∀ w1 w2 w3 : W, keeps_all (server_objects b) server_lock_table server_ok w1 w2 →
    keeps_all (server_objects b) server_lock_table server_ok w2 w3 →
    keeps_all (server_objects b) server_lock_table server_ok w1 w3) as Htrans.
  { intros w1 w2 w3 [H1 H2] [H3 H4]. split; by etrans. }
  unfold server_ready, serve_ready, rd_check in H.
  destruct (fresh _ now) eqn:Ef.
  { cbn [fst snd] in H. destruct (snd (sv_ready w)); injection H as <- <-; apply set_ready_keeps. }
  destruct (run_checks check_data _ c w) as [failed w1] eqn:E.
  assert (keeps_all (server_objects b) server_lock_table server_ok w w1) as Hk.
  { unfold run_checks in E. cbn [rd_data_dir rd_store] in E.
    destruct (check_data data_dir w) as [r1 w2] eqn:E1. apply (check_data_keeps b) in E1.
    destruct r1 as [u|e]; [|by injection E as <- <-]. eapply Htrans; [exact E1|].
    destruct (ad_check (server_store b) c w2) as [r2 w3] eqn:E2.
    assert (w1 = w3) as -> by (destruct r2; by injection E).
    split; [|by eapply check_keeps]. intros Hv. by apply check_law in E2. }
  destruct failed; injection H as <- <-; eapply Htrans; [exact Hk|apply set_ready_keeps|exact Hk|apply set_ready_keeps].
Qed.

(** Every handler of the server keeps to [HandlerLaws]. *)
Lemma new_handler_laws opts b signer ep choice : backend_laws b →
  HandlerLaws (new_handler uuid hmac_key network opts b signer ep choice) (server_objects b) server_lock_table server_ok.
Proof.
  intros Hb. split; cbn [h_store h_auth h_lock_store new_handler].
  - by apply server_store_laws.
  - by apply server_locks_laws.
  - apply server_auth_keeps; [apply _|]. intros w l. apply set_githubs_keeps.
  - apply server_auth_keeps; [apply _|]. intros w l. apply (set_githubs_keeps b).
  - apply server_store_keeps_locks.
  - apply server_store_keeps_locks.
  - apply server_locks_keep_objects.
  - apply server_locks_keep_objects.
Qed.
End Contracts.
