(* ===== verification/Serve.v ===== *)
(** * main.go: [serve]

    The server's life: reading the configuration, checking the directory and the
    storage, getting the key, building the handlers, listening, waiting to be
    stopped, and closing everything.  The start is a computation that may end the
    process; what the outside decides, as whether the address is free, is an
    argument.  The calls are recorded in the order they are made.

    The server serves before the start is over: its goroutine runs from [Serving] on,
    and a start that fails after it, because the address of the metrics is taken, ends
    a server that may have answered requests.

    The theorem is about the order of the calls and the exit code; Upkeep.v is about
    what is served, to the stop or to the end of the process. *)

From S2P Require Import Prelude GoStrings GoUnicode GoPath GoConv GoHash GoTime GoUrl GoMime GoNet GoOs GoJson Sanitise Storage Local S3 Signer Models LockSet LockStore SharedDir Config ConfigLoad Auth Batch Handler Middleware HandlerProofs LockHandlers Frames Parts FileLocks GoMux Routes Startup Server Deployment.

Local Open Scope go_scope.

(** ** What happens *)

(** The calls of [serve] that others can see. *)
Inductive event : Type :=
| DirectoryChecked
| StorageMade
| StorageChecked
| LimiterMade
| TrustMade
| KeyReady
| SignerMade
| RoutesRegistered
| SignalsCaught
| Listening (address : gostring)
| Serving                              (** [go server.Serve(listener)] *)
| MetricsListening (address : gostring)
| MetricsServing
| SweepStarted
| SignalsRestored
| SweepStopped
| ShutDown
| Closed
| MetricsShutDown
| MetricsClosed
| LimiterClosed
| AuthenticatorClosed (i : nat)
| SignerClosed.

#[export] Instance event_eq_dec : EqDecision event.
Proof. solve_decision. Defined.

(** The calls of [log.Fatal]. *)
Inductive fatal : Type :=
| FatalConfig (e : load_error)
| FatalDirectory (e : go_error)
| FatalS3 (e : go_error)
| FatalStorage (e : go_error)
| FatalLimiter (e : go_error)
| FatalTrust
| FatalKey (e : key_error)
| FatalSigner (e : go_error)
| FatalListen (e : go_error)
| FatalMetricsListen (e : go_error).

(** How the process ends before it waits to be stopped: exit code 1, or a panic. *)
Inductive aborted : Type := Fatal (f : fatal) | Panicked.

(** What ends the wait of [awaitStop]: a signal, or a [Serve] that returned. *)
Inductive stop_reason : Type := Signalled | ServeFailed (e : go_error).

(** What the outside decides during a run of [serve]. *)
Record circumstances (B Lim : Type) := {
  oc_s3 : result go_error (S3Api B * S3Presigner B);   (** [newS3Client] *)
  oc_limiter : Z → Z → result go_error Lim;            (** [memorystore.New] *)
  oc_random : gostring;                                (** of a new signing key *)
  oc_listen : result go_error unit;
  oc_metrics_listen : result go_error unit;
  oc_stop : stop_reason;
  oc_shutdown : result go_error unit;
  oc_metrics_shutdown : result go_error unit
}.
Arguments oc_s3 {B Lim}.
Arguments oc_limiter {B Lim}.
Arguments oc_random {B Lim}.
Arguments oc_listen {B Lim}.
Arguments oc_metrics_listen {B Lim}.
Arguments oc_stop {B Lim}.
Arguments oc_shutdown {B Lim}.
Arguments oc_metrics_shutdown {B Lim}.

(** ** The start, as a computation *)

(** The machine, what is behind the S3 API, and the calls so far. *)
Record machine (B : Type) := Machine { mc_os : os; mc_bucket : @s3_world B; mc_events : list event }.
Arguments Machine {B}.
Arguments mc_os {B}.
Arguments mc_bucket {B}.
Arguments mc_events {B}.

Definition starting (B A : Type) : Type := machine B → result aborted A * machine B.

#[export] Instance starting_ret B : MRet (starting B) := λ A a s, (Ok a, s).
#[export] Instance starting_bind B : MBind (starting B) := λ A C f m s,
  match m s with (Ok a, s) => f a s | (Err e, s) => (Err e, s) end.

Section Starting.
Context {B : Type}.

Definition emit (ev : event) : starting B unit :=
  λ s, (Ok tt, Machine (mc_os s) (mc_bucket s) (mc_events s ++ [ev])).
(** [log.Fatal] *)
Definition or_fatal {E A} (f : E → fatal) (r : result E A) : starting B A :=
  λ s, (match r with Ok a => Ok a | Err e => Err (Fatal (f e)) end, s).
(** A call on the operating system, fatal when it fails. *)
Definition on_os {E A} (f : E → fatal) (call : os → result E A * os) : starting B A :=
  λ s, let '(r, o) := call (mc_os s) in
    (match r with Ok a => Ok a | Err e => Err (Fatal (f e)) end, Machine o (mc_bucket s) (mc_events s)).
(** A call of the S3 adapter. *)
Definition on_bucket {E A} (f : E → fatal) (call : @s3_world B → result E A * @s3_world B) : starting B A :=
  λ s, let '(r, b) := call (mc_bucket s) in
    (match r with Ok a => Ok a | Err e => Err (Fatal (f e)) end, Machine (mc_os s) b (mc_events s)).
(** What the machine is now. *)
Definition from_machine {A} (f : machine B → A) : starting B A := λ s, (Ok (f s), s).
(** A call that panics. *)
Definition or_panic {A} (r : option A) : starting B A :=
  λ s, (match r with Some a => Ok a | None => Err Panicked end, s).
End Starting.

(** ** [serve] *)

Section Serve.
Context {U : Unicode} {I : IpSyntax} {F : FloatSyntax} {R : RealClientIp} {N : NetIp} {T : Toml} {B Lim : Type}.
Context (url_string : URL → gostring).

(** The values the closures of a running server hold. *)
Record running := {
  rn_config : Config;
  rn_backend : backend B;
  rn_trust : ProxyTrust;
  rn_signer : URLSigner;
  rn_choices : list (Endpoint * auth_choice);
  rn_mux : list (pattern * target);
  rn_world : server_world B Lim
}.

Context (oc : circumstances B Lim).

(** The switch on the storage backend. *)
Definition s3_config (c : Config) : S3Config := {|
  cfg_bucket := st_bucket (cfg_storage c);
  cfg_prefix := st_prefix (cfg_storage c);
  cfg_presigned_urls := presigned_urls_enabled (cfg_storage c);
  cfg_max_upload_size := o_max_upload_size (cfg_options c)
|}.
Definition make_store (c : Config) : starting B (backend B) :=
  if str_eqb (st_backend (cfg_storage c)) storage_s3 then
    sp ← or_fatal FatalS3 (new_s3 (oc_s3 oc) (s3_config c)); mret (S3Backend (fst sp) (snd sp))
  else mret LocalBackend.

(** [store.Check] *)
Definition check_store (c : Config) (b : backend B) : starting B unit :=
  match b with
  | LocalBackend => on_os FatalStorage (λ o,
      let '(r, w) := local_check None (new_local (o_data_directory (cfg_options c)), o) in (r, snd w))
  | S3Backend s _ => on_bucket FatalStorage (s3_check s None)
  end.

(** The signing key, configured or kept in the data directory. *)
Definition signing_key (c : Config) : starting B gostring :=
  match o_signing_key_bytes (cfg_options c) with
  | [] => on_os FatalKey (load_or_generate_signing_key (o_data_directory (cfg_options c)) (oc_random oc))
  | key => mret key
  end.

(** [serveMetrics]: whether there is a metrics server. *)
Definition serve_metrics (address : gostring) : starting B bool :=
  match address with
  | [] => mret false
  | _ => _ ← or_fatal FatalMetricsListen (oc_metrics_listen oc); _ ← emit (MetricsListening address); _ ← emit MetricsServing; mret true
  end.

(** The world of the server once it listens. *)
Definition first_world (c : Config) (a : authenticators) (l : Lim) (s : machine B) : server_world B Lim :=
  let dir := o_data_directory (cfg_options c) in
  World (new_local dir) (mc_bucket s) (new_file_lock_store dir) 0 (mc_os s) (au_made a) 0 l (None, []).

(** [serve] with a configuration, until it listens. *)
Definition start_listening (c : Config) : starting B running :=
  let opts := cfg_options c in
  _ ← on_os FatalDirectory (ensure_writable_dir (o_data_directory opts));
  _ ← emit DirectoryChecked;
  store ← make_store c;
  _ ← emit StorageMade;
  _ ← check_store c store;
  _ ← emit StorageChecked;
  limiter ← or_fatal FatalLimiter (oc_limiter oc (o_rate_limit_tokens opts) (o_rate_limit_interval opts));
  _ ← emit LimiterMade;
  trust ← or_fatal (λ _ : unit, FatalTrust) (option_result (new_proxy_trust (default [] (o_trusted_proxies opts))) tt);
  _ ← emit TrustMade;
  key ← signing_key c;
  _ ← emit KeyReady;
  signer ← or_fatal FatalSigner (new_url_signer key (o_url_expiry_duration opts) (Err []));
  _ ← emit SignerMade;
  let '(choices, auths) := choose_auths url_string (o_auth_cache_duration opts) (cfg_endpoints c) no_authenticators in
  mux ← or_panic (serve_mux (cfg_endpoints c));
  _ ← emit RoutesRegistered;
  _ ← emit SignalsCaught;
  _ ← or_fatal FatalListen (oc_listen oc);
  _ ← emit (Listening (o_listen_address opts));
  from_machine (λ s,
    {| rn_config := c; rn_backend := store; rn_trust := trust; rn_signer := signer; rn_choices := choices;
       rn_mux := mux; rn_world := first_world c auths limiter s |}).

(** To the goroutine that serves: from here on requests are answered. *)
Definition start_serving (c : Config) : starting B running :=
  rn ← start_listening c; _ ← emit Serving; mret rn.

(** To [awaitStop], while requests are answered: also whether there is a metrics server. *)
Definition start_with (c : Config) : starting B (running * bool) :=
  rn ← start_serving c;
  metrics ← serve_metrics (o_metrics_address (cfg_options c));
  _ ← emit SweepStarted; mret (rn, metrics).

(** [serve] until it serves, and up to [awaitStop]. *)
Definition serve_serving (env : environment) (path : gostring) : starting B running :=
  c ← or_fatal FatalConfig (load env path); start_serving c.
Definition serve_start (env : environment) (path : gostring) : starting B (running * bool) :=
  c ← or_fatal FatalConfig (load env path); start_with c.

(** [awaitStop]: both ways restore the default handling of signals. *)
Definition await_stop : Z * list event :=
  (match oc_stop oc with Signalled => 0 | ServeFailed _ => 1 end, [SignalsRestored]).

(** The rest of [serve]: the exit code and the calls. *)
Definition serve_stop (rn : running) (metrics_server : bool) : Z * list event :=
  let '(code, restored) := await_stop in
  let '(code, closed) := match oc_shutdown oc with Ok _ => (code, []) | Err _ => (1, [Closed]) end in
  let metrics :=
    if metrics_server then
      MetricsShutDown :: match oc_metrics_shutdown oc with Ok _ => [] | Err _ => [MetricsClosed] end
    else [] in
  (code, restored ++ [SweepStopped; ShutDown] ++ closed ++ metrics ++ [LimiterClosed]
         ++ map AuthenticatorClosed (seq 0 (length (sv_githubs (rn_world rn)))) ++ [SignerClosed]).

(** [serve]: the exit code and all calls; what happens between the start and the
    stop is in Upkeep.v. A panic is exit code 2. *)
Definition serve_command (env : environment) (path : gostring) (s : machine B) : Z * list event :=
  match serve_start env path s with
  | (Err Panicked, s) => (2, mc_events s)
  | (Err (Fatal _), s) => (1, mc_events s)
  | (Ok (rn, metrics), s) => let '(code, evs) := serve_stop rn metrics in (code, mc_events s ++ evs)
  end.
End Serve.

(** ** The order of the calls *)

Section Order.
Context {U : Unicode} {I : IpSyntax} {F : FloatSyntax} {R : RealClientIp} {N : NetIp} {T : Toml} {B Lim : Type}.
Context (url_string : URL → gostring) (oc : circumstances B Lim).

Lemma starting_inv {A C} (m : starting B A) (f : A → starting B C) s r s' : (m ≫= f) s = (r, s') →
  (∃ e, m s = (Err e, s') ∧ r = Err e) ∨ ∃ a s1, m s = (Ok a, s1) ∧ f a s1 = (r, s').
Proof.
  unfold mbind, starting_bind. destruct (m s) as [[a|e] s1] eqn:E.
  - intros H. right. eauto.
  - intros [= <- <-]. left. eauto.
Qed.

(** The calls of a start that succeeds. *)
Definition metrics_calls (address : gostring) : list event :=
  match address with [] => [] | _ => [MetricsListening address; MetricsServing] end.
Definition before_listening : list event :=
  [DirectoryChecked; StorageMade; StorageChecked; LimiterMade; TrustMade; KeyReady; SignerMade; RoutesRegistered; SignalsCaught].
Definition before_serving (c : Config) : list event := before_listening ++ [Listening (o_listen_address (cfg_options c))].
Definition start_calls (c : Config) : list event :=
  before_serving c ++ [Serving] ++ metrics_calls (o_metrics_address (cfg_options c)) ++ [SweepStarted].

(** What every run of a computation relates. *)
Definition relates {A} (P : machine B → result aborted A → machine B → Prop) (m : starting B A) : Prop :=
  ∀ s r s', m s = (r, s') → P s r s'.

(** A computation records [evs] when it succeeds, and a beginning of it otherwise. *)
Definition records {A} (evs : list event) : starting B A → Prop :=
  relates (λ s r s', ∃ rest, mc_events s ++ evs = mc_events s' ++ rest ∧ (is_ok r = true → rest = [])).

Lemma records_bind {A C} e1 e2 (m : starting B A) (f : A → starting B C) :
  records e1 m → (∀ a, records e2 (f a)) → records (e1 ++ e2) (m ≫= f).
Proof.
  intros Hm Hf s r s' H. apply starting_inv in H as [(e & E & ->)|(a & s1 & E & H)].
  - destruct (Hm _ _ _ E) as (rest & Hr & _). exists (rest ++ e2). rewrite !app_assoc, Hr. by split.
  - destruct (Hm _ _ _ E) as (rest & Hr & Hok). rewrite Hok, app_nil_r in Hr by done.
    destruct (Hf a _ _ _ H) as (rest2 & Hr2 & Hok2). exists rest2. by rewrite app_assoc, Hr.
Qed.

(** A computation that records nothing. *)
Lemma records_none {A} (m : starting B A) : relates (λ s _ s', mc_events s' = mc_events s) m → records [] m.
Proof. intros Hm s r s' H. exists []. split; [|done]. by rewrite (Hm _ _ _ H). Qed.

Lemma emit_records ev : records [ev] (emit ev).
Proof. intros s r s' [= <- <-]. exists []. by rewrite app_nil_r. Qed.
Lemma ret_records {A} (a : A) : records [] (mret a : starting B A).
Proof. apply records_none. by intros s r s' [= <- <-]. Qed.
Lemma or_fatal_records {E A} (f : E → fatal) (r : result E A) : records [] (or_fatal f r).
Proof. apply records_none. by intros s x s' [= <- <-]. Qed.
Lemma or_panic_records {A} (r : option A) : records [] (or_panic r).
Proof. apply records_none. by intros s x s' [= <- <-]. Qed.
Lemma from_machine_records {A} (f : machine B → A) : records [] (from_machine f).
Proof. apply records_none. by intros s x s' [= <- <-]. Qed.
Lemma on_os_records {E A} (f : E → fatal) (call : os → result E A * os) : records [] (on_os f call).
Proof. apply records_none. intros s x s' H. unfold on_os in H. destruct (call _). by injection H as <- <-. Qed.
Lemma on_bucket_records {E A} (f : E → fatal) (call : @s3_world B → result E A * @s3_world B) :
  records [] (on_bucket f call).
Proof. apply records_none. intros s x s' H. unfold on_bucket in H. destruct (call _). by injection H as <- <-. Qed.

Lemma make_store_records c : records [] (make_store oc c).
Proof.
  unfold make_store. destruct (str_eqb _ _); [|apply ret_records].
  apply (records_bind [] []); [apply or_fatal_records|]. intros sp. apply ret_records.
Qed.
Lemma check_store_records c b : records [] (check_store c b).
Proof. destruct b; [apply on_os_records|apply on_bucket_records]. Qed.
Lemma signing_key_records c : records [] (signing_key oc c).
Proof. unfold signing_key. destruct (o_signing_key_bytes _); [apply on_os_records|apply ret_records]. Qed.
Lemma serve_metrics_records address :
  records (metrics_calls address) (serve_metrics oc address).
Proof.
  destruct address as [|b a]; [apply ret_records|]. unfold serve_metrics.
  apply (records_bind [] [_; _]); [apply or_fatal_records|]. intros _.
  apply (records_bind [_] [_]); [apply emit_records|]. intros _.
  apply (records_bind [_] []); [apply emit_records|]. intros _. apply ret_records.
Qed.

Ltac recorded :=
  first [apply emit_records|apply or_fatal_records|apply or_panic_records|apply on_os_records|apply make_store_records
        |apply check_store_records|apply signing_key_records|apply serve_metrics_records|apply from_machine_records].

Lemma listening_records c : records (before_serving c) (start_listening url_string oc c).
Proof.
  unfold start_listening, before_serving, before_listening. cbv zeta. set (addr := o_listen_address _).
  change ([DirectoryChecked; StorageMade; StorageChecked; LimiterMade; TrustMade; KeyReady; SignerMade;
    RoutesRegistered; SignalsCaught] ++ [Listening addr])
    with ([] ++ [DirectoryChecked] ++ [] ++ [StorageMade] ++ [] ++ [StorageChecked] ++ [] ++ [LimiterMade]
      ++ [] ++ [TrustMade] ++ [] ++ [KeyReady] ++ [] ++ [SignerMade]
      ++ [] ++ [RoutesRegistered] ++ [SignalsCaught] ++ [] ++ [Listening addr] ++ []).
  repeat (apply records_bind; [recorded|intros ?]; cbv beta; try (destruct (choose_auths _ _ _ _) as [choices auths])).
  apply from_machine_records.
Qed.

(** A start that fails has not begun to serve, or only the listener of the metrics failed. *)
Lemma start_cases c s r s' : start_with url_string oc c s = (r, s') →
  (∃ e rest, r = Err e ∧ start_listening url_string oc c s = (Err e, s') ∧ mc_events s ++ before_serving c = mc_events s' ++ rest)
  ∨ ∃ rn s1, start_serving url_string oc c s = (Ok rn, s1) ∧ mc_events s1 = mc_events s ++ before_serving c ++ [Serving]
    ∧ ((∃ e, r = Err (Fatal (FatalMetricsListen e)) ∧ s' = s1 ∧ oc_metrics_listen oc = Err e
          ∧ o_metrics_address (cfg_options c) ≠ [])
       ∨ r = Ok (rn, match o_metrics_address (cfg_options c) with [] => false | _ => true end)
         ∧ mc_events s' = mc_events s ++ start_calls c).
Proof.
  intros H. apply starting_inv in H as [(e & H & ->)|(rn & s1 & Hs & H)].
  - left. apply starting_inv in H as [(e' & H & [= ->])|(? & ? & _ & H)]; [|by injection H].
    destruct (listening_records c _ _ _ H) as (rest & Hr & _). by exists e', rest.
  - right. exists rn, s1. split; [done|].
    apply starting_inv in Hs as [(e & _ & [=])|(rn1 & s2 & Hl & Hs)]. injection Hs as <- <-.
    destruct (listening_records c _ _ _ Hl) as (rest & Hr & Hok). rewrite Hok, app_nil_r in Hr by done.
    split; [by cbn; rewrite <-Hr, <-app_assoc|].
    unfold start_calls. destruct (o_metrics_address _) as [|b a].
    + right. injection H as <- <-. cbn. by rewrite <-Hr, <-!app_assoc.
    + unfold serve_metrics, or_fatal in H. destruct (oc_metrics_listen oc) as [u|e].
      * right. injection H as <- <-. cbn. by rewrite <-Hr, <-!app_assoc.
      * left. injection H as <- <-. by exists e.
Qed.

(** *** What a start does to the machine, and that it does not panic *)

Section Sound.
Context (Q : os * @s3_world B → os * @s3_world B → Prop) {HQ : PreOrder Q}.

Definition sound {A} : starting B A → Prop :=
  relates (λ s r s', Q (mc_os s, mc_bucket s) (mc_os s', mc_bucket s') ∧ r ≠ Err Panicked).

Lemma sound_bind {A C} (m : starting B A) (f : A → starting B C) :
  sound m → (∀ a, sound (f a)) → sound (m ≫= f).
Proof.
  intros Hm Hf s r s' H. apply starting_inv in H as [(e & E & ->)|(a & s1 & E & H)].
  - apply Hm in E as [HE Hp]. split; [done|]. by intros [= ->].
  - apply Hm in E as [HE _]. apply Hf in H as [H Hp]. split; [by etrans|done].
Qed.
Lemma or_fatal_sound {E A} (f : E → fatal) (r : result E A) : sound (or_fatal f r).
Proof. intros s x s' [= <- <-]. split; [reflexivity|by destruct r]. Qed.
Lemma emit_sound ev : sound (emit ev).
Proof. intros s x s' [= <- <-]. by split. Qed.
Lemma ret_sound {A} (a : A) : sound (mret a : starting B A).
Proof. intros s x s' [= <- <-]. by split. Qed.
Lemma from_machine_sound {A} (f : machine B → A) : sound (from_machine f).
Proof. intros s x s' [= <- <-]. by split. Qed.
Lemma on_os_sound {E A} (f : E → fatal) (call : os → result E A * os) :
  (∀ o r o' b, call o = (r, o') → Q (o, b) (o', b)) → sound (on_os f call).
Proof.
  intros Hc s x s' H. unfold on_os in H. destruct (call _) as [r o] eqn:Ecall. apply (Hc _ _ _ (mc_bucket s)) in Ecall.
  injection H as <- <-. split; [done|by destruct r].
Qed.
Lemma on_bucket_sound {E A} (f : E → fatal) (call : @s3_world B → result E A * @s3_world B) :
  (∀ o b r b', call b = (r, b') → Q (o, b) (o, b')) → sound (on_bucket f call).
Proof.
  intros Hc s x s' H. unfold on_bucket in H. destruct (call _) as [r o] eqn:Ecall. apply (Hc (mc_os s)) in Ecall.
  injection H as <- <-. split; [done|by destruct r].
Qed.
Lemma serve_metrics_sound address : sound (serve_metrics oc address).
Proof.
  destruct address as [|b a]; [apply ret_sound|]. unfold serve_metrics.
  apply sound_bind; [apply or_fatal_sound|]. intros _.
  do 2 (apply sound_bind; [apply emit_sound|]; intros _). apply ret_sound.
Qed.

(** The store that is made: as the configuration says. *)
Definition chosen_backend (c : Config) (b : backend B) : Prop :=
  match b with
  | LocalBackend => st_backend (cfg_storage c) ≠ storage_s3
  | S3Backend s q => st_backend (cfg_storage c) = storage_s3 ∧ new_s3 (oc_s3 oc) (s3_config c) = Ok (s, q)
  end.
Lemma make_store_chosen c s b s' : make_store oc c s = (Ok b, s') → chosen_backend c b ∧ s' = s.
Proof.
  unfold make_store. destruct (str_eqb _ _) eqn:E.
  - intros H. apply starting_inv in H as [(e & _ & [=])|([st q] & s1 & H & H2)]. injection H2 as <- <-.
    unfold or_fatal in H. destruct (new_s3 _ _) as [sq|e] eqn:En; [|done]. injection H as -> ->.
    apply str_eqb_eq in E. by split.
  - intros [= <- <-]. apply str_eqb_neq in E. by split.
Qed.
Lemma make_store_sound c (f : backend B → starting B (running (B:=B) (Lim:=Lim))) :
  (∀ b, chosen_backend c b → sound (f b)) → sound (make_store oc c ≫= f).
Proof.
  intros Hf s r s' H. apply starting_inv in H as [(e & E & ->)|(b & s1 & E & H)].
  - unfold make_store in E. destruct (str_eqb _ _); [|done].
    apply starting_inv in E as [(e' & E & [= ->])|(? & ? & _ & [=])].
    apply or_fatal_sound in E as [HE Hp]. split; [done|]. intros [= ->]. by apply Hp.
  - apply make_store_chosen in E as [Hb ->]. by eapply Hf.
Qed.

Context (c : Config) (Hmux : is_Some (serve_mux (cfg_endpoints c))).
Context (Hdir : ∀ o r o' b, ensure_writable_dir (o_data_directory (cfg_options c)) o = (r, o') → Q (o, b) (o', b)).
Context (Hcheck : ∀ l o r l' o' b, local_check None (l, o) = (r, (l', o')) → Q (o, b) (o', b)).
Context (Hs3 : ∀ s q o b r b', chosen_backend c (S3Backend s q) → s3_check s None b = (r, b') → Q (o, b) (o, b')).
Context (Hkey : ∀ o r o' b,
  load_or_generate_signing_key (o_data_directory (cfg_options c)) (oc_random oc) o = (r, o') → Q (o, b) (o', b)).

Lemma check_store_sound b : chosen_backend c b → sound (check_store c b).
Proof.
  intros Hb. destruct b as [|s q].
  - apply on_os_sound. intros o r o' b H. destruct (local_check _ _) as [r1 [l1 o1]] eqn:E.
    injection H as <- <-. by eapply Hcheck.
  - apply on_bucket_sound. intros o b r b' H. by eapply Hs3.
Qed.
Lemma signing_key_sound : sound (signing_key oc c).
Proof. unfold signing_key. destruct (o_signing_key_bytes _); [by apply on_os_sound|apply ret_sound]. Qed.

Lemma listening_sound : sound (start_listening url_string oc c).
Proof.
  destruct Hmux as [m Hm]. unfold start_listening. cbv zeta. rewrite Hm.
  assert (sound (or_panic (Some m))) as Hmx by (intros s x s' [= <- <-]; by split).
  apply sound_bind; [by apply on_os_sound|intros _]. apply sound_bind; [apply emit_sound|intros _].
  apply make_store_sound. intros b Hb. apply sound_bind; [apply emit_sound|intros _].
  apply sound_bind; [by apply check_store_sound|intros _].
  repeat (apply sound_bind; [first [apply emit_sound|apply or_fatal_sound|apply signing_key_sound|exact Hmx]|intros ?]; cbv beta;
    try (destruct (choose_auths _ _ _ _) as [choices auths])).
  apply from_machine_sound.
Qed.
Lemma serving_sound : sound (start_serving url_string oc c).
Proof.
  apply sound_bind; [apply listening_sound|intros rn]. apply sound_bind; [apply emit_sound|intros _]. apply ret_sound.
Qed.
Lemma start_sound : sound (start_with url_string oc c).
Proof.
  apply sound_bind; [apply serving_sound|intros rn]. apply sound_bind; [apply serve_metrics_sound|intros b].
  apply sound_bind; [apply emit_sound|intros _]. apply ret_sound.
Qed.
End Sound.


(** What a start has built that has come to serve. *)
Record started (c : Config) (rn : running (B:=B) (Lim:=Lim)) (s : machine B) : Prop := {
  st_config : rn_config rn = c;
  st_mux : serve_mux (cfg_endpoints c) = Some (rn_mux rn);
  st_store : chosen_backend c (rn_backend rn);
  st_trust : new_proxy_trust (default [] (o_trusted_proxies (cfg_options c))) = Some (rn_trust rn);
  st_signer : expiry (rn_signer rn) = o_url_expiry_duration (cfg_options c);
  st_world : ∃ a l, choose_auths url_string (o_auth_cache_duration (cfg_options c)) (cfg_endpoints c) no_authenticators
      = (rn_choices rn, a)
    ∧ rn_world rn = first_world c a l s
}.

Ltac next H := apply starting_inv in H as [(? & _ & [=])|(? & ? & ? & H)].

Lemma listening_started c s rn s' : start_listening url_string oc c s = (Ok rn, s') → started c rn s'.
Proof.
  intros H. unfold start_listening in H. cbv zeta in H.
  do 2 next H.
  apply starting_inv in H as [(? & _ & [=])|(store & ? & Hstore & H)]. apply make_store_chosen in Hstore as [Hst _].
  do 5 next H.
  apply starting_inv in H as [(? & _ & [=])|(trust & ? & Htrust & H)].
  do 3 next H.
  apply starting_inv in H as [(? & _ & [=])|(signer & ? & Hsigner & H)]. next H.
  destruct (choose_auths _ _ _ _) as [choices a] eqn:Ea.
  apply starting_inv in H as [(? & _ & [=])|(mux & ? & Hmux & H)].
  do 4 next H.
  injection H as <- <-. split; cbn [rn_config rn_backend rn_trust rn_signer rn_choices rn_mux rn_world].
  - done.
  - unfold or_panic in Hmux. destruct (serve_mux _); [|done]. by injection Hmux as ->.
  - done.
  - unfold or_fatal in Htrust. destruct (new_proxy_trust _) as [t|]; [|done]. cbn in Htrust. by injection Htrust as ->.
  - unfold or_fatal, new_url_signer in Hsigner. match type of Hsigner with context [match ?k with [] => _ | _ => _ end] => destruct k end;
      [done|]. by injection Hsigner as <- _.
  - eexists a, _. split; [done|reflexivity].
Qed.
Lemma start_started c s rn s' : start_serving url_string oc c s = (Ok rn, s') → started c rn s'.
Proof.
  intros H. apply starting_inv in H as [(? & _ & [=])|(rn1 & s1 & H & H2)]. injection H2 as <- <-.
  apply listening_started in H as []. by split.
Qed.

(** Nothing of a kind comes before the first of its kind. *)
Lemma first_of_kind (f : event → bool) l rest pre x post : forallb (λ e, negb (f e)) l = true →
  l ++ rest = pre ++ x :: post → f x = true → l `prefix_of` pre.
Proof.
  revert pre. induction l as [|e l IH]; intros pre Hl H Hx; [by exists pre|].
  cbn [forallb] in Hl. apply andb_true_iff in Hl as [He Hl]. destruct pre as [|e' pre]; cbn [app] in H.
  - injection H as -> _. by rewrite Hx in He.
  - injection H as <- H. apply prefix_cons. by eapply IH.
Qed.
Lemma none_of_kind (f : event → bool) l x : forallb (λ e, negb (f e)) l = true → f x = true → x ∉ l.
Proof. intros Hl Hx Hin. apply forallb_Forall in Hl. rewrite Forall_forall in Hl. specialize (Hl _ Hin). by rewrite Hx in Hl. Qed.

Definition is_listening (e : event) : bool := match e with Listening _ | Serving | MetricsListening _ | MetricsServing => true | _ => false end.
(** What requests that are still answered may use. *)
Definition is_closing (e : event) : bool :=
  match e with LimiterClosed | AuthenticatorClosed _ | SignerClosed => true | _ => false end.

Lemma start_calls_listening c : ∃ rest, start_calls c = before_listening ++ rest.
Proof. eexists. unfold start_calls, before_serving. rewrite <-app_assoc. reflexivity. Qed.
Lemma start_calls_closing c : forallb (λ e, negb (is_closing e)) (start_calls c) = true.
Proof. unfold start_calls, metrics_calls. by destruct (o_metrics_address _). Qed.

(** What is called at the end: what waits for the requests, and what they use. *)
Definition closing_calls (n : nat) : list event := [LimiterClosed] ++ map AuthenticatorClosed (seq 0 n) ++ [SignerClosed].

Lemma closing_calls_closing n : Forall (λ e, is_closing e = true) (closing_calls n).
Proof.
  constructor; [done|]. apply Forall_app. split; [|by repeat constructor]. apply Forall_map. by apply Forall_true.
Qed.
Lemma closing_calls_nodup n : NoDup (closing_calls n).
Proof.
  assert (∀ e, (∀ i, e ≠ AuthenticatorClosed i) → e ∉ map AuthenticatorClosed (seq 0 n)) as Hno.
  { intros e He Hin. apply list_elem_of_In, in_map_iff in Hin as (i & Hi & _). by destruct (He i). }
  constructor.
  - rewrite elem_of_app, list_elem_of_singleton. intros [Hin|Hin]; [by apply Hno in Hin|done].
  - apply NoDup_app. split; [|split; [|by repeat constructor; apply not_elem_of_nil]].
    + apply NoDup_fmap_2; [by intros ? ? [= ->]|apply NoDup_seq].
    + intros e He ->%list_elem_of_singleton. by apply Hno in He.
Qed.

Lemma stop_calls rn metrics code stop : serve_stop oc rn metrics = (code, stop) →
  (code = 0 ∨ code = 1) ∧ (code = 0 ↔ oc_stop oc = Signalled ∧ oc_shutdown oc = Ok tt)
  ∧ ∃ l, stop = [SignalsRestored; SweepStopped; ShutDown] ++ l ++ closing_calls (length (sv_githubs (rn_world rn)))
    ∧ l `sublist_of` [Closed; MetricsShutDown; MetricsClosed] ∧ (MetricsShutDown ∈ l ↔ metrics = true)
    ∧ (Closed ∈ l ↔ oc_shutdown oc ≠ Ok tt).
Proof.
  unfold serve_stop, await_stop. intros H.
  set (closed := match oc_shutdown oc with Ok _ => [] | Err _ => [Closed] end).
  set (ms := if metrics then
    MetricsShutDown :: match oc_metrics_shutdown oc with Ok _ => [] | Err _ => [MetricsClosed] end else []).
  assert (stop = [SignalsRestored; SweepStopped; ShutDown] ++ (closed ++ ms)
    ++ closing_calls (length (sv_githubs (rn_world rn)))) as ->.
  { unfold closing_calls. rewrite <-app_assoc. subst closed ms.
    by destruct (oc_shutdown oc); injection H as _ <-. }
  apply (f_equal fst) in H.
  split; [destruct (oc_stop oc), (oc_shutdown oc); cbn in H; subst code; tauto|].
  split; [destruct (oc_stop oc), (oc_shutdown oc) as [[]|?]; cbn in H; subst code; (split; [done|by intros [? ?]])|].
  exists (closed ++ ms). split; [done|]. clear H. split.
  - change [Closed; MetricsShutDown; MetricsClosed] with ([Closed] ++ [MetricsShutDown; MetricsClosed]).
    apply sublist_app; subst closed ms.
    + destruct (oc_shutdown oc); [apply sublist_nil_l|done].
    + destruct metrics; [|apply sublist_nil_l]. constructor.
      destruct (oc_metrics_shutdown oc); [apply sublist_nil_l|done].
  - subst closed ms.
    destruct (oc_shutdown oc) as [[]|e], metrics, (oc_metrics_shutdown oc) as [[]|e2]; split; set_solver.
Qed.

(** Every call of a stop is made once. *)
Lemma stop_calls_once n l : l `sublist_of` [Closed; MetricsShutDown; MetricsClosed] →
  NoDup ([SignalsRestored; SweepStopped; ShutDown] ++ l ++ closing_calls n).
Proof.
  intros Hl. eapply (sublist_NoDup _
    ([SignalsRestored; SweepStopped; ShutDown; Closed; MetricsShutDown; MetricsClosed] ++ closing_calls n)).
  - apply NoDup_app. split; [by apply (bool_decide_unpack _); vm_compute|]. split; [|apply closing_calls_nodup].
    intros e He Hin. pose proof (closing_calls_closing n) as Hc. rewrite Forall_forall in Hc. specialize (Hc _ Hin).
    revert He. by apply (none_of_kind is_closing).
  - rewrite (app_assoc _ l). apply sublist_app; [|done].
    apply (sublist_app _ [SignalsRestored; SweepStopped; ShutDown] _ [Closed; MetricsShutDown; MetricsClosed]); done.
Qed.
End Order.

(** What is closed, and when. *)
Lemma elem_closing_calls n e : e ∈ closing_calls n ↔
  e = LimiterClosed ∨ (∃ i, e = AuthenticatorClosed i ∧ (i < n)%nat) ∨ e = SignerClosed.
Proof.
  unfold closing_calls. rewrite !elem_of_app, !list_elem_of_singleton, list_elem_of_In, in_map_iff.
  setoid_rewrite in_seq. split; (intros [H|[(i & H1 & H2)|H]]; [by left|right; left; exists i|by do 2 right]);
    (split; [done|lia]).
Qed.

Lemma stop_middle n l x : is_closing x = false → x ∉ [SignalsRestored; SweepStopped; ShutDown] →
  x ∈ [SignalsRestored; SweepStopped; ShutDown] ++ l ++ closing_calls n ↔ x ∈ l.
Proof.
  intros Hx Hno. rewrite !elem_of_app. split; [|tauto]. intros [?|[?|Hin]]; [done..|].
  pose proof (closing_calls_closing n) as Hc. rewrite Forall_forall in Hc. apply Hc in Hin. by rewrite Hx in Hin.
Qed.

Lemma between_not_closing c l : l `sublist_of` [Closed; MetricsShutDown; MetricsClosed] →
  forallb (λ e, negb (is_closing e)) (start_calls c ++ [SignalsRestored; SweepStopped; ShutDown] ++ l) = true.
Proof.
  intros Hl. rewrite !forallb_app, start_calls_closing. cbn [forallb is_closing negb andb]. apply forallb_forall.
  intros e He%list_elem_of_In. eapply elem_of_sublist in He; [|exact Hl].
  by repeat (apply elem_of_cons in He as [->|He]; [done|]); apply elem_of_nil in He.
Qed.

(** ** The life of a server *)

Section Life.
Context {U : Unicode} {I : IpSyntax} {F : FloatSyntax} {R : RealClientIp} {N : NetIp} {T : Toml} {B Lim : Type}.
Context (url_string : URL → gostring) (oc : circumstances B Lim).

Lemma start_no_panic env path c s r s' : load env path = Ok c → start_with url_string oc c s = (r, s') → r ≠ Err Panicked.
Proof.
  intros Hload H. destruct (loaded_paths env path c Hload) as [Hgood Hdirs].
  assert (PreOrder (λ _ _ : os * @s3_world B, True)) by by split.
  assert (sound (A:=_ * bool) (λ _ _, True) (start_with url_string oc c)) as Hsound
    by (apply start_sound; try done; rewrite serve_mux_registers; [by eexists|done..]).
  by apply Hsound in H as [_ H].
Qed.

(** What is left of a start that ended the process after it had begun to serve. *)
Definition cut_by_metrics (c : Config) (rest : list event) : Prop :=
  (∃ e, oc_metrics_listen oc = Err e) ∧ o_metrics_address (cfg_options c) ≠ []
  ∧ rest = metrics_calls (o_metrics_address (cfg_options c)) ++ [SweepStarted].

Lemma before_serving_not c : Serving ∉ before_serving c.
Proof. unfold before_serving, before_listening. set_solver. Qed.

(** The three ways [serve] goes. *)
Lemma serve_command_cases env path s code evs : mc_events s = [] → serve_command url_string oc env path s = (code, evs) →
  (∃ e, load env path = Err e ∧ fst (serve_start url_string oc env path s) = Err (Fatal (FatalConfig e))
     ∧ code = 1 ∧ evs = [])
  ∨ (∃ c f, load env path = Ok c ∧ fst (serve_start url_string oc env path s) = Err (Fatal f)
     ∧ code = 1 ∧ ∃ rest, start_calls c = evs ++ rest ∧ (Serving ∈ evs → cut_by_metrics c rest))
  ∨ ∃ c rn s' stop, load env path = Ok c
     ∧ serve_start url_string oc env path s = (Ok (rn, match o_metrics_address (cfg_options c) with [] => false | _ => true end), s')
     ∧ rn_config rn = c
     ∧ serve_stop oc rn (match o_metrics_address (cfg_options c) with [] => false | _ => true end) = (code, stop)
     ∧ evs = start_calls c ++ stop.
Proof.
  intros Hs. unfold serve_command. destruct (serve_start _ _ _ _ _) as [r s'] eqn:E. pose proof E as E2. unfold serve_start in E.
  apply starting_inv in E as [(e & E & ->)|(c & s1 & E & H1)]; unfold or_fatal in E; destruct (load env path) as [c'|e'] eqn:Hload;
    try done.
  { injection E as <- <-. intros [= <- <-]. left. by exists e'. }
  injection E as -> <-. intros Hrun. right. pose proof (start_no_panic _ _ _ _ _ _ Hload H1) as Hp.
  apply start_cases in H1 as [(e & rest & -> & _ & Hr)|(rn & s1 & Hserving & Hev & [(e & -> & -> & He & Ha)|[-> Hev2]])];
    rewrite Hs in *; cbn [app] in *.
  - left. destruct e as [f|]; [|done]. injection Hrun as <- <-. exists c, f. do 3 (split; [done|]).
    exists (rest ++ [Serving] ++ metrics_calls (o_metrics_address (cfg_options c)) ++ [SweepStarted]).
    unfold start_calls. rewrite (app_assoc (mc_events s')), <-Hr. split; [done|]. intros Hin.
    destruct (before_serving_not c). rewrite Hr, elem_of_app. by left.
  - left. injection Hrun as <- <-. exists c, (FatalMetricsListen e). do 3 (split; [done|]).
    exists (metrics_calls (o_metrics_address (cfg_options c)) ++ [SweepStarted]). unfold start_calls.
    rewrite Hev, <-app_assoc. split; [done|]. intros _. split; [by exists e|done].
  - right. destruct (serve_stop _ _ _) as [k stop] eqn:Estop. injection Hrun as <- <-.
    apply start_started in Hserving as []. exists c, rn, s', stop. by rewrite Hev2.
Qed.

(** C18. The life of a server that starts with nothing recorded. It never panics, and
    exits with 0 exactly when it had started, was stopped by a signal and closed its
    connections in time; in every other case with 1. Nothing listens or serves before
    the data directory and the storage were checked, the signing key is there, the
    routes are registered and signals are caught. When the start fails, what was called
    is a beginning of the calls of a start, and it had not begun to serve unless the
    listener of the metrics is what failed, which comes after it. When it does not,
    then however the server is stopped, the sweep, the rate limiter, the signer and
    every GitHub authenticator are stopped, each once, and the metrics server exactly
    when there is one. What requests use is closed only after [Shutdown] has returned,
    and, when that gave up waiting for them, after the connections that were left were
    closed too; those requests' handlers may then still run. *)
Theorem serve_protocol env path s code evs :
  mc_events s = [] → serve_command url_string oc env path s = (code, evs) →
  (code = 0 ∨ code = 1)
  ∧ (code = 0 ↔ oc_stop oc = Signalled ∧ oc_shutdown oc = Ok tt
       ∧ ∃ x s', serve_start url_string oc env path s = (Ok x, s'))
  ∧ (∀ pre x post, evs = pre ++ x :: post → is_listening x = true → before_listening `prefix_of` pre)
  ∧ (∀ pre x post, evs = pre ++ x :: post → is_closing x = true → ShutDown ∈ pre ∧ (oc_shutdown oc ≠ Ok tt → Closed ∈ pre))
  ∧ match fst (serve_start url_string oc env path s) with
    | Err _ => match load env path with
               | Err _ => evs = []
               | Ok c => ∃ rest, start_calls c = evs ++ rest ∧ (Serving ∈ evs → cut_by_metrics c rest)
               end
    | Ok (rn, metrics) => ∃ stop, evs = start_calls (rn_config rn) ++ stop
        ∧ NoDup stop ∧ [SweepStopped; ShutDown; LimiterClosed; SignerClosed] ⊆ stop
        ∧ (∀ i, AuthenticatorClosed i ∈ stop ↔ (i < length (sv_githubs (rn_world rn)))%nat)
        ∧ (MetricsShutDown ∈ stop ↔ o_metrics_address (cfg_options (rn_config rn)) ≠ [])
        ∧ (Closed ∈ stop ↔ oc_shutdown oc ≠ Ok tt)
    end.
Proof.
  intros Hs H. apply serve_command_cases in H as [(e & Hload & Hst & -> & ->)|[(c & f & Hload & Hst & -> & rest & Hr & Hserv)
    |(c & rn & s' & stop & Hload & Hst & Hc & Hstop & ->)]]; [..|done].
  - split; [by right|]. rewrite Hst, Hload. split; [split; [done|]|].
    + intros (_ & _ & x & s' & H). by rewrite H in Hst.
    + split; [by intros [|? ?]|]. split; [by intros [|? ?]|done].
  - split; [by right|]. rewrite Hst, Hload. split; [split; [done|]|].
    + intros (_ & _ & x & s' & H). by rewrite H in Hst.
    + split; [|split; [|by exists rest]]; intros pre x post -> Hx.
      * destruct (start_calls_listening c) as (r & Hcl). rewrite Hcl, <-app_assoc in Hr.
        by apply (first_of_kind is_listening) in Hr.
      * destruct (none_of_kind is_closing _ _ (start_calls_closing c) Hx). rewrite Hr, !elem_of_app. left. right. by left.
  - apply stop_calls in Hstop as (Hcode & Hzero & l & -> & Hl & Hml & Hcl). split; [done|]. rewrite Hst. cbn [fst].
    split; [rewrite Hzero; split; [intros [? ?]; eauto|by intros (? & ? & _)]|].
    split; [|split].
    + intros pre x post Heq Hx. destruct (start_calls_listening c) as (r & Hsc). rewrite Hsc, <-app_assoc in Heq.
      by apply (first_of_kind is_listening) in Heq.
    + intros pre x post Heq Hx. rewrite (app_assoc [_; _; _] l), app_assoc in Heq.
      apply (first_of_kind is_closing) in Heq as [k ->]; [|by apply between_not_closing|done].
      rewrite <-!Hcl, !elem_of_app. split; [left; right; left; by apply (bool_decide_unpack _)|by intros Hin; left; right; right].
    + eexists. rewrite Hc. split; [done|]. split; [by apply stop_calls_once|].
      split; [|split; [intros i|split]].
      * intros e He. rewrite !elem_of_app, elem_closing_calls.
        repeat (apply elem_of_cons in He as [->|He]; [first [left; by apply (bool_decide_unpack _)|by eauto 6]|]).
        by apply elem_of_nil in He.
      * rewrite !elem_of_app, elem_closing_calls. split; [|intros ?; do 3 right; left; by exists i].
        intros [Hi|[Hi|[?|[(j & [= ->] & ?)|?]]]]; try done.
        -- by apply (none_of_kind is_closing) in Hi.
        -- eapply elem_of_sublist in Hi; [|exact Hl]. by apply (none_of_kind is_closing) in Hi.
      * rewrite stop_middle, Hml by (done || set_solver). by destruct (o_metrics_address _).
      * by rewrite stop_middle by (done || set_solver).
Qed.
End Life.

(** ** From the start to the stop *)

(** The files a start touches: the probe and the key. *)
Inductive start_elems : list gostring → Prop :=
| ProbeStart e : probe_elems e → start_elems e
| KeyStart : start_elems [signing_key_file].

Lemma start_elems_apart e : start_elems e → proper e ∧ length e = 1%nat.
Proof.
  intros [e' He| ]; [split; [by apply probe_elems_slash|by destruct He]|].
  split; [|done]. split; [done|]. repeat constructor. by apply contains_byte_false.
Qed.
Lemma start_not_lock base o o' : touches base start_elems o o' → quiet base o o'.
Proof.
  intros Ht. split; [apply Ht|]. intros d Hd. apply (touches_other base start_elems); [done| |].
  - intros e He. destruct (start_elems_apart e He) as [Hp Hl]. split; [done|]. by intros ->.
  - apply lock_elems_slash. constructor; [done|by apply contains_byte_false].
Qed.
Lemma probe_start base o o' : touches base probe_elems o o' → touches base start_elems o o'.
Proof. intros [L S]. split; [done|]. intros p Hp. apply S. intros l Hl. apply Hp. by constructor. Qed.

Lemma ensure_writable_touches dir o r o' : names_ok o → ensure_writable_dir dir o = (r, o') → touches dir start_elems o o'.
Proof.
  intros Hn H. unfold ensure_writable_dir in H. destruct (mkdir_all o) as [[u|e] o1] eqn:E;
    pose proof (mkdir_all_le _ _ _ E) as L; apply mkdir_all_files in E; pose proof (touches_files dir start_elems _ _ L E) as T1;
    [|by injection H as <- <-].
  etrans; [exact T1|]. apply probe_start. eapply check_writable_touches; [by eapply names_ok_le|done].
Qed.
Lemma signing_key_touches dir random o r o' : load_or_generate_signing_key dir random o = (r, o') → touches dir start_elems o o'.
Proof.
  intros [L S]%load_key_files. rewrite path_join_under in S
    by (split; [done|]; split; [|done]; repeat constructor; by apply contains_byte_false).
  apply (touches_except _ _ [[signing_key_file]]); [done..|]. by repeat constructor.
Qed.

Section Whole.
Context {U : Unicode} {I : IpSyntax} {F : FloatSyntax} {R : RealClientIp} {N : NetIp} {T : Toml} {TL : TomlLaws T} {B Lim : Type}.
Context (url_string : URL → gostring) (oc : circumstances B Lim).
Context (objs : B → gostring → gostring → option gostring).
(** The objects a machine holds before there is a server. *)
Definition machine_objects (c : Config) (b : backend B) (s : machine B) : gostring → gostring → option gostring :=
  match b with
  | LocalBackend => local_objects (new_local (o_data_directory (cfg_options c)), mc_os s)
  | S3Backend s3 _ => s3_objects s3 objs (mc_bucket s)
  end.

(** A start keeps the objects, and every file but its own. *)
Lemma start_touches env path c s r s' : load env path = Ok c → names_ok (mc_os s) →
  (∀ b, chosen_backend oc c b → backend_laws objs b) →
  start_serving url_string oc c s = (r, s') →
  touches (o_data_directory (cfg_options c)) start_elems (mc_os s) (mc_os s')
  ∧ objs (fst (mc_bucket s')) = objs (fst (mc_bucket s)).
Proof.
  intros Hload Hn HB H. set (dir := o_data_directory (cfg_options c)).
  set (Q := λ a b : os * @s3_world B, names_ok (fst a) →
    touches dir start_elems (fst a) (fst b) ∧ objs (fst (snd b)) = objs (fst (snd a))).
  assert (PreOrder Q).
  { split; [by intros a Ha|]. intros a b d H1 H2 Ha. destruct (H1 Ha) as [T1 E1].
    destruct (H2 (names_ok_le _ _ Ha (proj1 T1))) as [T2 E2]. split; [by etrans|congruence]. }
  destruct (loaded_paths env path c Hload) as [Hgood Hdirs].
  assert (sound Q (start_serving url_string oc c)) as Hsound.
  { apply serving_sound; [done|..].
    - rewrite serve_mux_registers; [by eexists|done..].
    - intros o r1 o' b E Ho. split; [by eapply ensure_writable_touches|done].
    - intros l o r1 l' o' b E Ho. apply local_check_reads in E as (_ & L & E2). split; [by apply touches_files|done].
    - intros s3 q o b r1 b' Hb E Ho. split; [done|]. apply HB in Hb as [[parts HL] _].
      unfold s3_check, silent in E. destruct (head_bucket _ _ _ (fst b)) as [r2 v] eqn:E2. injection E as _ <-.
      by apply head_bucket_law in E2.
    - intros o r1 o' b E Ho. split; [by eapply signing_key_touches|done]. }
  by apply (proj1 (Hsound _ _ _ H)).
Qed.

Context (uuid : nat → gostring).

(** A data directory as a server leaves it: lock files it can read, and no lock
    whose identifier is to be given again. *)
Record good_directory (dir : gostring) (o : os) : Prop := {
  gd_disk : disk_ok dir o;
  gd_ids k d : safe_name d = true → uuid k ∉ map lock_id (disk_locks dir o d)
}.

Lemma started_ok env path c s rn s' : load env path = Ok c → good_directory (o_data_directory (cfg_options c)) (mc_os s) →
  (∀ b, chosen_backend oc c b → backend_laws objs b) →
  start_serving url_string oc c s = (Ok rn, s') →
  server_ok uuid (o_data_directory (cfg_options c)) (rn_world rn)
  ∧ (∀ d o, safe_name d = true → normal_oid o →
       server_objects objs (rn_backend rn) (rn_world rn) d o = machine_objects c (rn_backend rn) s d o)
  ∧ ∀ d, safe_name d = true → server_lock_table (rn_world rn) d = disk_locks (o_data_directory (cfg_options c)) (mc_os s) d.
Proof.
  intros Hload [Hd Hi] HB H. set (dir := o_data_directory (cfg_options c)) in *.
  destruct (start_touches env path c s _ _ Hload (disk_names _ _ Hd) HB H) as [Ht Hb].
  apply start_started in H as Hst. destruct (st_world _ _ _ _ _ Hst) as (a & l & _ & ->).
  pose proof (start_not_lock _ _ _ Ht) as Hq.
  assert (local_valid (new_local dir, mc_os s)) as Hv by (split; [apply (disk_names _ _ Hd)|apply (disk_faults _ _ Hd)]).
  destruct (others_keep_objects start_elems (new_local dir) (new_local dir) (mc_os s) (mc_os s')) as [Hv' Hs]; [done| |exact Ht|done|].
  { intros e He. destruct (start_elems_apart e He) as [Hp ->]. done. }
  split; [|split].
  - split; [exact Hv'| |done|done]. split; [apply new_store_ok|apply new_store_fresh|by eapply disk_quiet|].
    intros k d _ Hd'. change (uuid k ∉ map lock_id (disk_locks dir (mc_os s') d)).
    rewrite (quiet_locks dir _ _ d Hq) by done. by apply Hi.
  - intros d o Hd' Ho. unfold server_objects, machine_objects. destruct (rn_backend rn) as [|s3 q]; [by apply Hs|].
    unfold s3_objects. cbn. by rewrite Hb.
  - intros d Hd'. by apply quiet_locks.
Qed.
End Whole.
