(* ===== verification/Upkeep.v ===== *)
(** * A server that runs for long

    Between requests the sweeper removes temporary files, and now and then the server
    is stopped and started again, perhaps with another configuration, on the same data
    directory.  [live] mixes requests and passes of the sweeper, [lived] runs one
    server after the other.  The theorems of Server.v about objects and locks hold of
    both. *)

From S2P Require Import Prelude GoStrings GoUnicode GoPath GoConv GoHash GoTime GoUrl GoMime GoNet GoOs GoJson Sanitise Storage Local S3 TempFiles Signer Models LockSet LockStore SharedDir Config ConfigLoad Auth Batch Handler Middleware HandlerProofs LockHandlers Frames Parts FileLocks GoMux Routes Startup Server Deployment Serve.

Local Open Scope go_scope.

(** ** A pass of the sweeper *)

(** The file at [path] below [dir], as [Root.Remove] names it. *)
Definition root_path (dir path : gostring) : gostring := path_join (dir :: split_on slash path).
Definition remove_all (dir : gostring) (paths : list gostring) (o : os) : os :=
  set_files (foldr (λ q fs, delete (root_path dir q) fs) (os_files o) paths) o.

(** What a pass finds: whether it is not the first, [os.OpenRoot], the tree, the clock. *)
Definition pass : Type := bool * option go_error * result go_error entry * Z.
Definition sweep_once (dir : gostring) (in_use : option (gostring → bool)) (x : pass) (o : os) : os :=
  let '(skip_shards, opened, root, now) := x in
  remove_all dir (fst (remove_stale_temp_files opened root now temp_file_max_age in_use skip_shards)) o.

(** What [fs.WalkDir] finds at the root of a directory: entries with ordinary names. *)
Definition pass_ok (x : pass) : Prop :=
  match x with
  | (_, _, Ok (EDir name _ entries), _) => name = "." ∧ forallb TempFiles.entry_ok entries = true
  | (_, _, Ok (EFile _ _ _ _), _) => False
  | (_, _, Err _, _) => True
  end.

Definition temp_elems (e : list gostring) : Prop :=
  plain_elems e ∧ ∃ n, last e = Some n ∧ has_prefix temp_file_prefix n = true.

Lemma child_elems p n : p = "."%go ∨ plain_elems (split_on slash p) → plain_elem n = true → contains_byte slash n = false →
  plain_elems (split_on slash (child_path p n)) ∧ last (split_on slash (child_path p n)) = Some n.
Proof.
  intros Hp Hn Hs. apply contains_byte_false in Hs. unfold child_path. destruct (is_dot p) eqn:E.
  - rewrite split_on_none by done. split; [|done]. split; [done|]. split; [by repeat constructor|]. cbn. by rewrite Hn.
  - destruct Hp as [->|(H1 & H2 & H3)]; [discriminate E|]. change (p ++ "/" ++ n) with (p ++ slash :: n).
    rewrite split_on_middle, (split_on_none _ n) by done. split; [|apply last_snoc].
    split; [by destruct (split_on slash p)|]. split; [apply Forall_app; split; [done|by repeat constructor]|].
    rewrite forallb_app, H3. cbn. by rewrite Hn.
Qed.

Lemma below_elems skip p e q f : below skip p e q f → TempFiles.entry_ok e = true → p = "."%go ∨ plain_elems (split_on slash p) →
  (q = p ∧ f = e) ∨ (plain_elems (split_on slash q) ∧ last (split_on slash q) = Some (entry_name f)).
Proof.
  induction 1 as [|p n es c q f _ Hc _ IH]; intros Hok Hp; [by left|]. right.
  cbn [TempFiles.entry_ok] in Hok. apply andb_prop in Hok as [_ Hok]. apply forallb_Forall in Hok. rewrite Forall_forall in Hok.
  specialize (Hok c Hc). assert (plain_elem (entry_name c) = true ∧ contains_byte slash (entry_name c) = false) as [Hn Hs].
  { destruct c; cbn [TempFiles.entry_ok entry_name] in *; by to_prop. }
  destruct (child_elems p (entry_name c)) as [H1 H2]; [done..|].
  destruct IH as [[-> ->]|IH]; [done|by right|done|done].
Qed.

Lemma sweep_removes opened root now age in_use skip q : pass_ok (skip, opened, root, now) →
  q ∈ fst (remove_stale_temp_files opened root now age in_use skip) → temp_elems (split_on slash q).
Proof.
  intros Hok Hin. unfold remove_stale_temp_files in Hin. destruct opened as [e|]; [by apply elem_of_nil in Hin|].
  destruct root as [[name r i m|name x es]|e].
  - done.
  - destruct Hok as [-> Hes].
    change (q ∈ fst (remove_stale_temp_files None (Ok (EDir "." x es)) now age in_use skip)) in Hin.
    destruct (remove_stale_temp_files _ _ _ _ _ _) as [rm err] eqn:E. cbn [fst] in Hin.
    apply (sweep_root x es now age in_use skip rm err Hes E) in Hin as (f & Hb & Hs).
    assert (has_prefix temp_file_prefix (entry_name f) = true) as Hp.
    { destruct f as [n [] [t|] []|]; try done. cbn [sweepable] in Hs. by to_prop. }
    inversion Hb as [|p n es' c q' f' Hsk Hc Hb']; subst; [done|].
    apply forallb_Forall in Hes. rewrite Forall_forall in Hes. specialize (Hes c Hc).
    assert (plain_elem (entry_name c) = true ∧ contains_byte slash (entry_name c) = false) as [Hn Hsl].
    { destruct c; cbn [TempFiles.entry_ok entry_name] in *; by to_prop. }
    destruct (child_elems "." (entry_name c)) as [H1 H2]; [by left|done..|].
    apply below_elems in Hb' as [[-> ->]|[H3 H4]]; [|split; [done|eauto]|done|by right]. split; [done|eauto].
  - cbn in Hin. by apply elem_of_nil in Hin.
Qed.

Lemma remove_all_touches dir paths o : Forall (λ q, temp_elems (split_on slash q)) paths →
  touches dir temp_elems o (remove_all dir paths o).
Proof.
  intros HA. apply (touches_except _ _ (map (split_on slash) paths)); [|intros p Hp|by apply Forall_map].
  - by apply os_le_same.
  - unfold remove_all. cbn [set_files os_files]. induction HA as [|q paths [Hq _] HA IH]; [done|]. cbn [foldr map] in *. rewrite not_elem_of_cons in Hp. destruct Hp as [Hne Hp].
    rewrite lookup_delete_ne; [by apply IH|]. unfold root_path. rewrite path_join_under by done. congruence.
Qed.

Lemma sweep_touches dir in_use x o : pass_ok x → touches dir temp_elems o (sweep_once dir in_use x o).
Proof.
  destruct x as [[[skip opened] root] now]. intros Hok. apply remove_all_touches, Forall_forall. intros q Hq.
  by eapply sweep_removes.
Qed.

(** A temporary file is no object and no lock file. *)
Lemma temp_proper e : temp_elems e → proper e.
Proof. intros [(Hne & Hs & _) _]. by split. Qed.
Lemma temp_not_object e d k : temp_elems e → normal_oid k → e ≠ object_path_elems d k.
Proof.
  intros [_ (n & Hn & Hp)] Hk ->. cbn in Hn. injection Hn as <-. destruct (normal_oid_safe k Hk) as [Hl Hsafe].
  apply has_prefix_spec in Hp as [r Hr]. destruct k as [|c k]; [done|]. injection Hr as -> _. by inversion_clear Hsafe.
Qed.
Lemma temp_not_lock base o o' : touches base temp_elems o o' → quiet base o o'.
Proof.
  intros Ht. split; [apply Ht|]. intros d Hd. apply (touches_other base temp_elems); [done| |].
  - intros e He. split; [by apply temp_proper|]. intros ->. destruct He as [_ (n & Hn & Hp)]. cbn in Hn. by injection Hn as <-.
  - apply lock_elems_slash. constructor; [done|by apply contains_byte_false].
Qed.

(** ** Requests, and what goes on between them *)

Inductive happening (K : Type) : Type :=
| Requested (q : http_request) (x : moment)
| Tended (t : K).
Arguments Requested {K}.
Arguments Tended {K}.

Section Live.
Context {U : Unicode} {I : IpSyntax} {F : FloatSyntax} {R : RealClientIp} {W K : Type}.
Context (version : gostring) (h : Endpoint → Handler W) (take : ctx → gostring → W → out W (Z * bool)).
Context (ready : ctx → Z → Z → W → Response * W) (redirect : http_request → gostring → Response).
Context (tend : K → W → W) (p : ProxyTrust) (m : list (pattern * target)).

Local Abbreviation serve := (serve version h take ready redirect p m).

Fixpoint live (l : list (happening K)) (w : W) : option (list Response * W) :=
  match l with
  | [] => Some ([], w)
  | Requested q x :: l => '(resp, w) ← serve q x w; '(resps, w) ← live l w; Some (resp :: resps, w)
  | Tended t :: l => live l (tend t w)
  end.

(** [P] holds of a request among what happens, as [at_request]. *)
Definition during (l : list (happening K)) (w0 : W) (P : http_request → moment → W → Response → W → Prop) : Prop :=
  ∃ before q x after resps w1 resp w2, l = before ++ Requested q x :: after
    ∧ live before w0 = Some (resps, w1) ∧ serve q x w1 = Some (resp, w2) ∧ P q x w1 resp w2.

Lemma live_requested q x l w resps w' : live (Requested q x :: l) w = Some (resps, w') →
  ∃ resp w1 rs, serve q x w = Some (resp, w1) ∧ live l w1 = Some (rs, w') ∧ resps = resp :: rs.
Proof.
  cbn [live]. intros H. destruct (serve q x w) as [[resp w1]|] eqn:E; [|done]. cbn in H.
  destruct (live l w1) as [[rs w2]|] eqn:Er; [|done]. cbn in H. injection H as <- <-. by exists resp, w1, rs.
Qed.

Lemma during_after_request q x l w resp w1 P : serve q x w = Some (resp, w1) → during l w1 P → during (Requested q x :: l) w P.
Proof.
  intros Hs (before & q' & x' & after & rs & w2 & resp' & w3 & -> & Hr & H).
  exists (Requested q x :: before), q', x', after, (resp :: rs), w2, resp', w3. split; [done|]. split; [|done].
  cbn [live]. rewrite Hs. cbn. by rewrite Hr.
Qed.
Lemma during_after_tending t l w P : during l (tend t w) P → during (Tended t :: l) w P.
Proof.
  intros (before & q & x & after & rs & w1 & resp & w2 & -> & H). by exists (Tended t :: before), q, x, after, rs, w1, resp, w2.
Qed.
End Live.

Section LiveSafe.
Context {U : Unicode} {I : IpSyntax} {F : FloatSyntax} {R : RealClientIp} {W K : Type}.
Context (version : gostring) (h : Endpoint → Handler W) (take : ctx → gostring → W → out W (Z * bool)).
Context (ready : ctx → Z → Z → W → Response * W) (redirect : http_request → gostring → Response).
Context (objects : object_store W) (locks : lock_table W) (valid : W → Prop).
Context {LH : ∀ ep, HandlerLaws (h ep) objects locks valid} (Hep : ∀ ep, h_endpoint (h ep) = ep).
Context (Htake : ∀ c ip w r w', take c ip w = (r, w') → keeps_all objects locks valid w w').
Context (Hready : ∀ c now later w r w', ready c now later w = (r, w') → keeps_all objects locks valid w w').
(** What goes on between requests keeps objects and locks. *)
Context (tend : K → W → W) (tend_ok : K → Prop).
Context (Htend : ∀ t w, tend_ok t → keeps_all objects locks valid w (tend t w)).
Context (eps : list Endpoint) (Hgood : Forall (λ ep, good_path (ep_path ep)) eps) (Hdirs : NoDup (map storage_directory eps)).
Context (p : ProxyTrust).

Definition happening_ok (x : happening K) : Prop := match x with Requested _ _ => True | Tended t => tend_ok t end.

Local Abbreviation serve := (serve version h take ready redirect p (server_entries eps)).
Local Abbreviation live := (live version h take ready redirect tend p (server_entries eps)).
Local Abbreviation during := (during version h take ready redirect tend p (server_entries eps)).
Local Abbreviation serve_valid := (serve_valid version h take ready redirect objects locks valid Hep Htake Hready eps p).

(** What depends on the objects or on the locks alone. *)
Definition observes (Q : W → Prop) : Prop := ∀ w w', same_objects objects w w' → LockHandlers.same_locks locks w w' → Q w → Q w'.

Lemma tend_keeps t w (Q : W → Prop) : tend_ok t → observes Q → valid w → valid (tend t w) ∧ (Q w → Q (tend t w)).
Proof.
  intros Ht HQ Hv. destruct (keeps_all_valid objects locks valid w (tend t w) (Htend t w Ht) Hv) as (Hv' & Ho & Hl).
  split; [done|]. by apply HQ.
Qed.

Lemma live_keeps (Q : W → Prop) l : observes Q → Forall happening_ok l →
  (∀ q x w resp w', valid w → Q w → serve q x w = Some (resp, w') → Q w') →
  ∀ w0 resps w, valid w0 → Q w0 → live l w0 = Some (resps, w) → valid w ∧ Q w.
Proof.
  intros HQ Hok Hstep. induction Hok as [|[q x|t] l Hx Hok IH]; intros w0 resps w Hv H0 H; [by injection H as <- <-|..].
  - apply live_requested in H as (resp & w1 & rs & Hs & H & _). eapply IH; [by eapply serve_valid|by eapply Hstep|done].
  - destruct (tend_keeps t w0 Q Hx HQ Hv) as [Hv' HQ']. eapply IH; [done|by apply HQ'|done].
Qed.

Lemma live_change (Q : W → Prop) (P : http_request → moment → W → Response → W → Prop) {D : ∀ w, Decision (Q w)} :
  observes (λ w, ¬ Q w) →
  (∀ q x w resp w', valid w → serve q x w = Some (resp, w') → (¬ Q w) → Q w' → P q x w resp w') →
  ∀ l w0 resps w, Forall happening_ok l → valid w0 → live l w0 = Some (resps, w) → (¬ Q w0) → Q w → during l w0 P.
Proof.
  intros HQ Hstep l w0 resps w Hok. revert w0 resps. induction Hok as [|[q x|t] l Hx Hok IH]; intros w0 resps Hv H Hno Hyes;
    [by injection H as <- <-|..].
  - apply live_requested in H as (resp & w1 & rs & Hs & H & _). destruct (decide (Q w1)) as [H1|H1].
    + exists [], q, x, l, [], w0, resp, w1. split; [done|]. split; [done|]. split; [done|]. by eapply Hstep.
    + eapply during_after_request; [done|]. eapply IH; [by eapply serve_valid|done..].
  - destruct (tend_keeps t w0 _ Hx HQ Hv) as [Hv' HQ']. apply during_after_tending. eapply IH; [done..|by apply HQ'|done].
Qed.

Lemma object_observed (P : option gostring → Prop) d o : safe_name d = true → normal_oid o → observes (λ w, P (objects w d o)).
Proof. intros Hd Hn w w' Ho _. by rewrite Ho. Qed.
Lemma lock_observed (P : list Lock → Prop) d : safe_name d = true → observes (λ w, P (locks w d)).
Proof. intros Hd w w' _ Hl. by rewrite Hl. Qed.

(** What a server's life does to the objects and to the locks. *)
Lemma live_objects l w0 resps w : Forall happening_ok l → valid w0 → live l w0 = Some (resps, w) →
  valid w
  ∧ (content_addressed objects w0 → content_addressed objects w)
  ∧ (∀ d o data, safe_name d = true → normal_oid o → objects w0 d o = Some data → objects w d o = Some data)
  ∧ (∀ d o data, safe_name d = true → normal_oid o → objects w0 d o ≠ Some data → objects w d o = Some data →
       during l w0 (stores h objects eps p d o data)).
Proof.
  intros Hok Hv H. split; [|split; [|split]].
  - by refine (proj1 (live_keeps (λ _, True) l _ Hok _ w0 resps w Hv _ H)).
  - intros Hc. refine (proj2 (live_keeps (content_addressed objects) l _ Hok _ w0 resps w Hv Hc H)).
    + intros w1 w2 Ho _. by apply same_objects_addressed.
    + intros q x w1 resp w2 Hv1. by eapply serve_addressed.
  - intros d o data Hd Hn Hob. refine (proj2 (live_keeps (λ w, objects w d o = Some data) l _ Hok _ w0 resps w Hv Hob H)).
    + by apply (object_observed (λ v, v = Some data)).
    + intros q x w1 resp w2 Hv1 H1. by eapply serve_object_stays.
  - intros d o data Hd Hn Hno Hyes. apply (live_change (λ w, objects w d o = Some data)) with resps w; [apply _| | |done..].
    + by apply (object_observed (λ v, v ≠ Some data)).
    + intros q x w1 resp w2 Hv1 Hs. by eapply serve_object_new.
Qed.

Lemma live_locks l w0 resps w : Forall happening_ok l → valid w0 → live l w0 = Some (resps, w) →
  (∀ d k, safe_name d = true → k ∈ locks w0 d → (k ∉ locks w d) →
     during l w0 (removes h objects locks valid eps p d k))
  ∧ (∀ d k, safe_name d = true → (k ∉ locks w0 d) → k ∈ locks w d →
     during l w0 (creates h objects locks valid eps p d k)).
Proof.
  intros Hok Hv H. split; intros d k Hd.
  - intros Hin Hno. apply (live_change (λ w, k ∉ locks w d)) with resps w; [apply _| | |done|done|done|by intros Hn|done].
    + apply (lock_observed (λ ls, ¬ (k ∉ ls)) d Hd).
    + intros q x w1 resp w2 Hv1 Hs Hyes%dec_stable. by eapply serve_lock_gone.
  - intros Hno Hyes. apply (live_change (λ w, k ∈ locks w d)) with resps w; [apply _| | |done..].
    + apply (lock_observed (λ ls, k ∉ ls) d Hd).
    + intros q x w1 resp w2 Hv1 Hs. by eapply serve_lock_new.
Qed.
End LiveSafe.

(** ** The server of main.go *)

Section Whole.
Context {U : Unicode} {I : IpSyntax} {F : FloatSyntax} {R : RealClientIp} {N : NetIp} {T : Toml} {TL : TomlLaws T} {B Lim : Type}.

(** [tempFileInUse]: what is being uploaded to local storage is in use. *)
Definition temp_file_in_use (b : backend B) (w : server_world B Lim) : option (gostring → bool) :=
  match b with LocalBackend => Some (is_writing (sv_local w)) | S3Backend _ _ => None end.
(** A pass of the server's sweeper. *)
Definition sweep_server (b : backend B) (dir : gostring) (x : pass) (w : server_world B Lim) : server_world B Lim :=
  part_set local_part (sv_local w, sweep_once dir (temp_file_in_use b w) x (sv_os w)) w.

Context (objs : B → gostring → gostring → option gostring).

Lemma sweep_keeps uuid dir b x w : pass_ok x →
  keeps_all (server_objects objs b) server_lock_table (server_ok uuid dir) w (sweep_server b dir x w).
Proof.
  intros Hx. pose proof (sweep_touches dir (temp_file_in_use b w) x (sv_os w) Hx) as Ht.
  unfold sweep_server. set (o := sweep_once _ _ _ _) in *.
  assert (server_ok uuid dir w → local_valid (sv_local w, o) ∧ same_objects local_objects (sv_local w, sv_os w) (sv_local w, o)) as Ho.
  { intros Hw. apply (files_keep_objects temp_elems); [done| |by rewrite (so_base _ _ _ Hw)|apply Hw].
    intros e He. split; [by apply temp_proper|]. intros d k Hk. by apply temp_not_object. }
  assert (server_ok uuid dir w → server_ok uuid dir (part_set local_part (sv_local w, o) w)
    ∧ LockHandlers.same_locks server_lock_table w (part_set local_part (sv_local w, o) w)) as Hq.
  { intros Hw. apply quiet_server; [done|by apply Ho|done|]. rewrite (so_base _ _ _ Hw). by apply temp_not_lock. }
  split; intros Hw; destruct (Hq Hw) as [Hok Hs]; (split; [done|]); [|done].
  destruct b; [by apply Ho|done].
Qed.

Context (version : gostring) (redirect : http_request → gostring → Response).

(** The outside of one server: the identifiers it makes, its key for caching tokens,
    GitHub as its requests find it, and the rate limiter. *)
Record outside := {
  os_uuid : nat → gostring;
  os_hmac_key : gostring;
  os_network : nat → Z * GitHubApi;
  os_limiter_take : gostring → Lim → result go_error (Z * bool) * Lim
}.

Definition running_handlers (e : outside) (rn : running (B:=B) (Lim:=Lim)) : Endpoint → Handler (server_world B Lim) :=
  server_handlers (os_uuid e) (os_hmac_key e) (os_network e) (cfg_options (rn_config rn)) (rn_backend rn) (rn_signer rn) (rn_choices rn).
Definition data_directory (rn : running (B:=B) (Lim:=Lim)) : gostring := o_data_directory (cfg_options (rn_config rn)).

(** What a running server does between its start and its stop. *)
Definition live_server (e : outside) (rn : running) : list (happening pass) → server_world B Lim → option (list Response * server_world B Lim) :=
  live version (running_handlers e rn) (server_take (os_limiter_take e)) (server_ready (rn_backend rn) (data_directory rn)) redirect
    (sweep_server (rn_backend rn) (data_directory rn)) (rn_trust rn) (rn_mux rn).
Definition during_life (e : outside) (rn : running) : list (happening pass) → server_world B Lim →
    (http_request → moment → server_world B Lim → Response → server_world B Lim → Prop) → Prop :=
  during version (running_handlers e rn) (server_take (os_limiter_take e)) (server_ready (rn_backend rn) (data_directory rn)) redirect
    (sweep_server (rn_backend rn) (data_directory rn)) (rn_trust rn) (rn_mux rn).

(** A request that stores an object, that removes a lock, that creates one. *)
Definition server_stores (e : outside) (rn : running) := stores (running_handlers e rn) (server_objects objs (rn_backend rn))
  (cfg_endpoints (rn_config rn)) (rn_trust rn).
Definition server_removes (e : outside) (rn : running) := removes (running_handlers e rn) (server_objects objs (rn_backend rn))
  server_lock_table (server_ok (os_uuid e) (data_directory rn)) (cfg_endpoints (rn_config rn)) (rn_trust rn).
Definition server_creates (e : outside) (rn : running) := creates (running_handlers e rn) (server_objects objs (rn_backend rn))
  server_lock_table (server_ok (os_uuid e) (data_directory rn)) (cfg_endpoints (rn_config rn)) (rn_trust rn).

Context (url_string : URL → gostring).

Lemma serve_started (oc : circumstances B Lim) env path (s : machine B) rn s' : serve_serving url_string oc env path s = (Ok rn, s') →
  load env path = Ok (rn_config rn) ∧ start_serving url_string oc (rn_config rn) s = (Ok rn, s').
Proof.
  intros H. unfold serve_serving, or_fatal in H. apply starting_inv in H as [(? & _ & [=])|(c & s1 & Hload & H)].
  destruct (load env path) as [c'|]; [|done]. injection Hload as -> <-. apply start_started in H as Hst.
  by rewrite (st_config _ _ _ _ _ Hst).
Qed.

(** From the start on, with what the machine held before it. *)
Lemma life_safe oc env path s rn s' e l resps w :
  Inj (=) (=) (os_uuid e) → (∀ k, os_uuid e k ≠ []) →
  (∀ c b, load env path = Ok c → chosen_backend oc c b → backend_laws objs b) →
  serve_serving url_string oc env path s = (Ok rn, s') →
  good_directory (os_uuid e) (data_directory rn) (mc_os s) →
  Forall (happening_ok pass_ok) l → live_server e rn l (rn_world rn) = Some (resps, w) →
  let before := machine_objects objs (rn_config rn) (rn_backend rn) s in
  let locks_before := disk_locks (data_directory rn) (mc_os s) in
  let objects := server_objects objs (rn_backend rn) in
  server_ok (os_uuid e) (data_directory rn) w
  ∧ ((∀ d o data, safe_name d = true → normal_oid o → before d o = Some data → content_oid data = o) → content_addressed objects w)
  ∧ (∀ d o data, safe_name d = true → normal_oid o → before d o = Some data → objects w d o = Some data)
  ∧ (∀ d o data, safe_name d = true → normal_oid o → before d o ≠ Some data → objects w d o = Some data →
       during_life e rn l (rn_world rn) (server_stores e rn d o data))
  ∧ (∀ d k, safe_name d = true → k ∈ locks_before d → (k ∉ server_lock_table w d) →
       during_life e rn l (rn_world rn) (server_removes e rn d k))
  ∧ ∀ d k, safe_name d = true → (k ∉ locks_before d) → k ∈ server_lock_table w d →
       during_life e rn l (rn_world rn) (server_creates e rn d k).
Proof.
  intros Hinj Hne HBs H Hgood Hl Hrun. apply serve_started in H as [El H].
  set (c := rn_config rn) in *. apply start_started in H as Hst.
  destruct (started_ok url_string oc objs (os_uuid e) env path c s rn s' El Hgood (λ b, HBs c b El) H) as (Hok & Ho & Hlk).
  pose proof (st_mux _ _ _ _ _ Hst) as Hm. destruct (loaded_paths env path c El) as [Hpaths Hdirs].
  rewrite serve_mux_registers in Hm by done. injection Hm as Hm.
  pose proof (HBs c _ El (st_store _ _ _ _ _ Hst)) as HB.
  unfold live_server, during_life, server_stores, server_removes, server_creates, running_handlers, data_directory in *. cbv zeta.
  fold c in Hrun |- *. rewrite <-Hm in *.
  set (dir := o_data_directory (cfg_options c)) in *. set (objects := server_objects objs (rn_backend rn)) in *.
  set (h := server_handlers _ _ _ _ _ _ _) in *.
  assert (∀ ep, HandlerLaws (h ep) objects server_lock_table (server_ok (os_uuid e) dir)) as LH by (intros ep; by apply new_handler_laws).
  assert (∀ k ip (w1 : server_world B Lim) r w2, server_take (os_limiter_take e) k ip w1 = (r, w2) →
    keeps_all objects server_lock_table (server_ok (os_uuid e) dir) w1 w2) as Htake by (intros *; apply server_take_keeps).
  assert (∀ k now later (w1 : server_world B Lim) r w2, server_ready (rn_backend rn) dir k now later w1 = (r, w2) →
    keeps_all objects server_lock_table (server_ok (os_uuid e) dir) w1 w2) as Hready by (intros *; by apply server_ready_keeps).
  destruct (live_objects version h _ _ redirect objects server_lock_table _ (λ _, eq_refl) Htake Hready
    (sweep_server (rn_backend rn) dir) pass_ok (sweep_keeps (os_uuid e) dir (rn_backend rn)) (cfg_endpoints c) (rn_trust rn)
    l (rn_world rn) resps w Hl Hok Hrun) as (Hok' & Hca & Hold & Hnew).
  destruct (live_locks version h _ _ redirect objects server_lock_table _ (λ _, eq_refl) Htake Hready
    (sweep_server (rn_backend rn) dir) pass_ok (sweep_keeps (os_uuid e) dir (rn_backend rn)) (cfg_endpoints c) (rn_trust rn)
    l (rn_world rn) resps w Hl Hok Hrun) as (Hgone & Hcreated).
  split; [done|]. split; [|split; [|split; [|split]]].
  - intros Hb. apply Hca. intros d o data Hd Hn. unfold objects. rewrite Ho by done. by apply Hb.
  - intros d o data Hd Hn. rewrite <-Ho by done. by apply Hold.
  - intros d o data Hd Hn. rewrite <-Ho by done. by apply Hnew.
  - intros d k Hd. rewrite <-Hlk by done. by apply Hgone.
  - intros d k Hd. rewrite <-Hlk by done. by apply Hcreated.
Qed.

(** *** One server after the other *)

(** A start, and what happens from when it serves until the server stops, the machine
    does, or the start fails after all because the metrics have no address. *)
Record life := {
  lf_start : circumstances B Lim;
  lf_env : environment;
  lf_path : gostring;
  lf_outside : outside;
  lf_happens : list (happening pass)
}.
Definition start_of (lf : life) : machine B → result aborted running * machine B :=
  serve_serving url_string (lf_start lf) (lf_env lf) (lf_path lf).

(** What is left of a server that has stopped. *)
Definition stopped (w : server_world B Lim) : machine B := Machine (sv_os w) (sv_bucket w) [].

(** The identifiers of a server's locks are new to the disk. *)
Definition ids_new (dir : gostring) (uuid : nat → gostring) (o : os) : Prop :=
  ∀ k d, safe_name d = true → uuid k ∉ map lock_id (disk_locks dir o d).

(** A start fails before it serves, or the server lives for a while.  All servers use
    the directory [dir], and a backend that stores where [b0] does. *)
Context (dir : gostring) (b0 : backend B).

Inductive lived (s : machine B) : list life → machine B → Prop :=
| LivedNil : lived s [] s
| LivedFailed lf ls e s1 s2 : start_of lf s = (Err e, s1) → lived s1 ls s2 → lived s (lf :: ls) s2
| LivedServed lf ls rn s1 resps w s2 : start_of lf s = (Ok rn, s1) → ids_new dir (os_uuid (lf_outside lf)) (mc_os s) →
    live_server (lf_outside lf) rn (lf_happens lf) (rn_world rn) = Some (resps, w) →
    lived (stopped w) ls s2 → lived s (lf :: ls) s2.

Definition stored_objects (s : machine B) : gostring → gostring → option gostring :=
  match b0 with
  | LocalBackend => local_objects (new_local dir, mc_os s)
  | S3Backend s3 _ => s3_objects s3 objs (mc_bucket s)
  end.
Definition same_store (b : backend B) : Prop :=
  match b, b0 with
  | LocalBackend, LocalBackend => True
  | S3Backend s _, S3Backend s0 _ => s3_objects s objs = s3_objects s0 objs
  | _, _ => False
  end.

Record life_ok (lf : life) : Prop := {
  lo_ids : Inj (=) (=) (os_uuid (lf_outside lf));
  lo_ids_set k : os_uuid (lf_outside lf) k ≠ [];
  lo_happens : Forall (happening_ok pass_ok) (lf_happens lf);
  lo_dir c : load (lf_env lf) (lf_path lf) = Ok c → o_data_directory (cfg_options c) = dir;
  lo_store c b : load (lf_env lf) (lf_path lf) = Ok c → chosen_backend (lf_start lf) c b → backend_laws objs b ∧ same_store b
}.

(** In one of the lives, [P] holds of a request, as [during]. *)
Definition in_some_life (s : machine B) (ls : list life)
    (P : outside → running → http_request → moment → server_world B Lim → Response → server_world B Lim → Prop) : Prop :=
  ∃ before lf after s1 rn s2, ls = before ++ lf :: after ∧ lived s before s1 ∧ start_of lf s1 = (Ok rn, s2)
    ∧ during_life (lf_outside lf) rn (lf_happens lf) (rn_world rn) (P (lf_outside lf) rn).

Lemma later_life lf ls s s1 P : (∀ before s2, lived s1 before s2 → lived s (lf :: before) s2) →
  in_some_life s1 ls P → in_some_life s (lf :: ls) P.
Proof.
  intros Hl (before & lf' & after & s2 & rn & s3 & -> & Hb & H). exists (lf :: before), lf', after, s2, rn, s3.
  split; [done|]. split; [by apply Hl|done].
Qed.

Lemma failed_step lf s e s1 : life_ok lf → disk_ok dir (mc_os s) → start_of lf s = (Err e, s1) →
  disk_ok dir (mc_os s1)
  ∧ (∀ d o, safe_name d = true → normal_oid o → stored_objects s1 d o = stored_objects s d o)
  ∧ ∀ d, safe_name d = true → disk_locks dir (mc_os s1) d = disk_locks dir (mc_os s) d.
Proof.
  intros Hlf Hd H. unfold start_of, serve_serving, or_fatal in H.
  apply starting_inv in H as [(e' & H & _)|(c & s2 & Hload & H)]; [by injection H as _ <-|].
  destruct (load (lf_env lf) (lf_path lf)) as [c'|] eqn:El; [|done]. injection Hload as -> <-.
  destruct (start_touches url_string (lf_start lf) objs _ _ c s _ _ El (disk_names _ _ Hd)
    (λ b Hb, proj1 (lo_store lf Hlf c b El Hb)) H) as [Ht Hb].
  rewrite (lo_dir lf Hlf c El) in Ht. pose proof (start_not_lock _ _ _ Ht) as Hq.
  split; [by eapply disk_quiet|]. split; [|intros d Hd'; by apply quiet_locks].
  intros d o Hd' Ho. unfold stored_objects. destruct b0 as [|s3 q].
  - apply (others_keep_objects start_elems (new_local dir) (new_local dir) (mc_os s) (mc_os s1)); [done| |exact Ht| |done|done].
    + intros e' He. destruct (start_elems_apart e' He) as [Hp ->]. done.
    + split; [apply (disk_names _ _ Hd)|apply (disk_faults _ _ Hd)].
  - unfold s3_objects. cbn. by rewrite Hb.
Qed.

Lemma served_step lf s rn s1 resps w : life_ok lf → disk_ok dir (mc_os s) → start_of lf s = (Ok rn, s1) →
  ids_new dir (os_uuid (lf_outside lf)) (mc_os s) →
  live_server (lf_outside lf) rn (lf_happens lf) (rn_world rn) = Some (resps, w) →
  let happened := during_life (lf_outside lf) rn (lf_happens lf) (rn_world rn) in
  let s' := stopped w in
  disk_ok dir (mc_os s')
  ∧ (content_addressed stored_objects s → content_addressed stored_objects s')
  ∧ (∀ d o data, safe_name d = true → normal_oid o → stored_objects s d o = Some data → stored_objects s' d o = Some data)
  ∧ (∀ d o data, safe_name d = true → normal_oid o → stored_objects s d o ≠ Some data → stored_objects s' d o = Some data →
       happened (server_stores (lf_outside lf) rn d o data))
  ∧ (∀ d k, safe_name d = true → k ∈ disk_locks dir (mc_os s) d → (k ∉ disk_locks dir (mc_os s') d) →
       happened (server_removes (lf_outside lf) rn d k))
  ∧ ∀ d k, safe_name d = true → (k ∉ disk_locks dir (mc_os s) d) → k ∈ disk_locks dir (mc_os s') d →
       happened (server_creates (lf_outside lf) rn d k).
Proof.
  intros Hlf Hd Hst Hids Hrun. destruct (serve_started _ _ _ _ _ _ Hst) as [Hload Hs].
  apply start_started in Hs. pose proof (lo_dir lf Hlf _ Hload) as Hdir.
  destruct (lo_store lf Hlf _ _ Hload (st_store _ _ _ _ _ Hs)) as [_ Hsame].
  assert (data_directory rn = dir) as Hdd by exact Hdir.
  pose proof (life_safe (lf_start lf) (lf_env lf) (lf_path lf) s rn s1 (lf_outside lf) (lf_happens lf) resps w
    (lo_ids lf Hlf) (lo_ids_set lf Hlf) (λ c b El Hb, proj1 (lo_store lf Hlf c b El Hb)) Hst) as Hsafe.
  rewrite Hdd in Hsafe. specialize (Hsafe (Build_good_directory _ _ _ Hd Hids) (lo_happens lf Hlf) Hrun).
  destruct Hsafe as (Hok & Hca & Hold & Hnew & Hgone & Hcr).
  assert (∀ d o, machine_objects objs (rn_config rn) (rn_backend rn) s d o = stored_objects s d o) as Hbefore.
  { intros d o. unfold machine_objects, stored_objects, same_store in *. rewrite Hdir. destruct (rn_backend rn), b0; [done..|by rewrite Hsame]. }
  assert (∀ d o, server_objects objs (rn_backend rn) w d o = stored_objects (stopped w) d o) as Hafter.
  { intros d o. unfold server_objects, stored_objects, same_store in *. destruct (rn_backend rn), b0; [|done..|by rewrite Hsame].
    unfold local_objects. cbn [fst snd part_get local_part]. by rewrite (so_base _ _ _ Hok). }
  assert (∀ d, server_lock_table w d = disk_locks dir (mc_os (stopped w)) d) as Hlocks.
  { intros d. unfold server_lock_table, file_lock_table. cbn [fst snd lw_store part_get locks_part].
    by rewrite (so_lock_base _ _ _ Hok). }
  cbv zeta. split; [|split; [|split; [|split; [|split]]]].
  - pose proof (fl_disk _ _ (so_locks _ _ _ Hok)) as H. cbn [fst snd lw_store part_get locks_part] in H.
    by rewrite (so_lock_base _ _ _ Hok) in H.
  - intros H d o data Hd' Ho. rewrite <-Hafter. apply Hca; [|done..]. intros d1 o1 data1 Hd1 Ho1. rewrite Hbefore. by apply H.
  - intros d o data Hd' Ho. rewrite <-Hbefore, <-Hafter. by apply Hold.
  - intros d o data Hd' Ho. rewrite <-Hbefore, <-Hafter. by apply Hnew.
  - intros d k Hd'. rewrite <-Hlocks. by apply Hgone.
  - intros d k Hd'. rewrite <-Hlocks. by apply Hcr.
Qed.

(** C3. A data directory through many lives of the server, from reading each
    configuration on. Servers start on it one after the other, with any
    configurations that name it and either backend; some fail to start, before or after
    they began to serve; each answers whatever requests in whatever order, with passes of its sweeper in between, and
    any call of the operating system, of S3 or of GitHub may fail. Then no object is
    ever lost or changed, and every object is stored under its own hash if that was so
    at first. Every object that was not there at first was stored by a request to one
    of the servers: a PUT below an endpoint of its configuration, with a link signed
    by its own key for that upload. And no lock is gone unless a request to one of the
    servers removed it, and none is there that no request created. *)
Theorem data_survives_restarts s ls s' :
  disk_ok dir (mc_os s) → Forall life_ok ls → lived s ls s' →
  disk_ok dir (mc_os s')
  ∧ (content_addressed stored_objects s → content_addressed stored_objects s')
  ∧ (∀ d o data, safe_name d = true → normal_oid o → stored_objects s d o = Some data → stored_objects s' d o = Some data)
  ∧ (∀ d o data, safe_name d = true → normal_oid o → stored_objects s d o ≠ Some data → stored_objects s' d o = Some data →
       in_some_life s ls (λ e rn, server_stores e rn d o data))
  ∧ (∀ d k, safe_name d = true → k ∈ disk_locks dir (mc_os s) d → (k ∉ disk_locks dir (mc_os s') d) →
       in_some_life s ls (λ e rn, server_removes e rn d k))
  ∧ ∀ d k, safe_name d = true → (k ∉ disk_locks dir (mc_os s) d) → k ∈ disk_locks dir (mc_os s') d →
       in_some_life s ls (λ e rn, server_creates e rn d k).
Proof.
  intros Hd Hls Hl. revert Hd Hls. induction Hl as [s|s lf ls e s1 s2 Hst _ IH|s lf ls rn s1 resps w s2 Hst Hids Hrun _ IH];
    intros Hd Hls.
  - split; [done|]. split; [done|]. split; [done|]. by split; [|split].
  - apply Forall_cons in Hls as [Hlf Hls]. destruct (failed_step lf s e s1 Hlf Hd Hst) as (Hd1 & Ho & Hk).
    destruct (IH Hd1 Hls) as (H1 & H2 & H3 & H4 & H5 & H6).
    assert (∀ P, in_some_life s1 ls P → in_some_life s (lf :: ls) P) as Hlater.
    { intros P. apply later_life. intros before s3. by apply (LivedFailed s lf before e s1 s3). }
    split; [done|]. split; [|split; [|split; [|split]]].
    + intros Hc. apply H2. intros d o data Hd' Ho' Hob. rewrite Ho in Hob by done. by eapply Hc.
    + intros d o data Hd' Ho' Hob. apply H3; [done..|]. by rewrite Ho.
    + intros d o data Hd' Ho' Hno Hyes. apply Hlater, H4; [done..| |done]. by rewrite Ho.
    + intros d k Hd' Hin Hno. apply Hlater, H5; [done| |done]. by rewrite Hk.
    + intros d k Hd' Hno Hin. apply Hlater, H6; [done| |done]. by rewrite Hk.
  - apply Forall_cons in Hls as [Hlf Hls].
    destruct (served_step lf s rn s1 resps w Hlf Hd Hst Hids Hrun) as (Hd1 & G2 & G3 & G4 & G5 & G6).
    destruct (IH Hd1 Hls) as (H1 & H2 & H3 & H4 & H5 & H6).
    assert (∀ P, in_some_life (stopped w) ls P → in_some_life s (lf :: ls) P) as Hlater.
    { intros P. apply later_life. intros before s3. by apply (LivedServed s lf before rn s1 resps w s3). }
    assert (∀ P : outside → running → http_request → moment → server_world B Lim → Response → server_world B Lim → Prop,
      during_life (lf_outside lf) rn (lf_happens lf) (rn_world rn) (P (lf_outside lf) rn) → in_some_life s (lf :: ls) P) as Hnow.
    { intros P H. exists [], lf, ls, s, rn, s1. split; [done|]. split; [constructor|done]. }
    split; [done|]. split; [|split; [|split; [|split]]].
    + intros Hc. by apply H2, G2.
    + intros d o data Hd' Ho' Hob. apply H3; [done..|]. by apply G3.
    + intros d o data Hd' Ho' Hno Hyes. destruct (decide (stored_objects (stopped w) d o = Some data)) as [E|E].
      * apply (Hnow (λ e rn, server_stores e rn d o data)). by apply G4.
      * apply Hlater. by apply H4.
    + intros d k Hd' Hin Hno. destruct (decide (k ∈ disk_locks dir (mc_os (stopped w)) d)) as [E|E].
      * apply Hlater. by apply H5.
      * apply (Hnow (λ e rn, server_removes e rn d k)). by apply G5.
    + intros d k Hd' Hno Hin. destruct (decide (k ∈ disk_locks dir (mc_os (stopped w)) d)) as [E|E].
      * apply (Hnow (λ e rn, server_creates e rn d k)). by apply G6.
      * apply Hlater. by apply H6.
Qed.
End Whole.
