(* ===== verification/Samples.v ===== *)
(** * A concrete server: witnesses of the client theorems

    The batch and handler theorems are proved against interfaces; here they are
    applied to a handler over the local storage backend, without authentication,
    on concrete requests. *)

From S2P Require Import Prelude GoStrings GoUnicode GoPath GoConv GoHash GoTime GoUrl GoMime GoNet GoOs GoJson GoServe Sanitise Storage Local Signer Models LockSet LockStore Config ConfigLoad Auth Batch Handler Middleware HandlerProofs LockHandlers FileLocks EndToEnd UploadBody GoMux Routes Startup Cli.

Local Open Scope go_scope.

Lemma ok_value {E A} (a b : A) : (Ok a : result E A) = Ok b → b = a.
Proof. by intros [= ->]. Qed.

(** ** Witnesses: a handler over the local backend *)

Definition sample_lock_store {W} : LockStore W := {|
  ls_create _ _ _ _ w := ((zero_lock, Some []), w);
  ls_list _ _ _ w := (Err [], w);
  ls_unlock _ _ _ _ _ w := (Err [], w)
|}.

Definition sample_handler : Handler Local.world := {|
  h_endpoint := sample_endpoint;
  h_store := @local_adapter sample_unicode;
  h_auth := {| authenticate_with := none_authenticate |};
  h_base_url := "https://lfs.example";
  h_max_upload_size := 5368709120;
  h_signer := sample_signer;
  h_lock_store := sample_lock_store;
  h_upload_idle_timeout := minute
|}.

(** The object ["abc"] is stored; ["abd"] is not. *)
Definition batch_world : Local.world :=
  (new_local "/data",
   Os {[ Local.object_path "/data" "org_repo" (content_oid "abc") := File "abc" 1 5 ]} 9 [2] [] ["7"%go] (10, 4096)).
Lemma batch_world_valid : local_valid batch_world.
Proof. split; repeat constructor. Qed.

Definition sample_object : Object := {| obj_oid := content_oid "abd"; obj_size := 3 |}.
Definition sample_batch : BatchRequest :=
  {| req_operation := op_upload; req_transfers := []; req_ref := None;
     req_objects := [{| obj_oid := content_oid "abc"; obj_size := 3 |}; sample_object];
     req_hash_algo := [] |}.

(** The second object is processed first. *)
Definition sample_events : list batch_event :=
  [EvStart None; EvStart None; EvProcess 1 None 0; EvProcess 0 None 0].

Lemma batch_object_truthful_witness :
  resp_oid (fst (process_object sample_handler None 0 op_upload sample_object
    "https://lfs.example" (verify_action sample_handler 0 "https://lfs.example") batch_world))
  = obj_oid sample_object.
Proof.
  destruct (process_object sample_handler None 0 op_upload sample_object
    "https://lfs.example" (verify_action sample_handler 0 "https://lfs.example") batch_world)
    as [r w'] eqn:E.
  destruct (@batch_object_truthful sample_unicode _ sample_handler local_objects local_valid local_laws
    None 0 op_upload sample_object _ _ batch_world r w' batch_world_valid E) as (_ & _ & _ & H & _).
  exact H.
Defined.

Lemma batch_in_order_witness : ∃ resp w',
  process_batch sample_handler sample_batch "https://lfs.example" 0 sample_events batch_world
    = Some (resp, w') ∧ length (batch_objects resp) = 2%nat.
Proof.
  assert (is_some (process_batch sample_handler sample_batch "https://lfs.example" 0
    sample_events batch_world) = true) as Hs by (vm_compute; reflexivity).
  destruct (process_batch sample_handler sample_batch "https://lfs.example" 0 sample_events batch_world)
    as [[resp w']|] eqn:E; [|discriminate Hs].
  exists resp, w'. split; [reflexivity|].
  destruct (@batch_in_order sample_unicode _ sample_handler local_objects local_valid local_laws
    sample_batch "https://lfs.example" 0 sample_events batch_world resp w' batch_world_valid E)
    as (_ & _ & _ & _ & H).
  apply H. intros e He. apply list_elem_of_In in He. destruct He as [He|[He|[He|[He|[]]]]]; discriminate He.
Defined.

Lemma batch_ends_witness : ∃ s w',
  run_batch sample_handler sample_batch "https://lfs.example"
    (verify_action sample_handler 0 "https://lfs.example") [EvStart None] (batch_init, batch_world)
    = Some (s, w')
  ∧ (length (bs_running s) <= 16)%nat.
Proof.
  assert (is_some (run_batch sample_handler sample_batch "https://lfs.example"
    (verify_action sample_handler 0 "https://lfs.example") [EvStart None] (batch_init, batch_world)) = true)
    as Hs by (vm_compute; reflexivity).
  destruct (run_batch sample_handler sample_batch "https://lfs.example"
    (verify_action sample_handler 0 "https://lfs.example") [EvStart None] (batch_init, batch_world))
    as [[s w']|] eqn:E; [|discriminate Hs].
  exists s, w'. split; [reflexivity|].
  destruct (@batch_ends sample_unicode _ sample_handler local_objects local_valid local_laws sample_batch _ _ _
    batch_world s w' batch_world_valid E) as (H & _).
  exact H.
Defined.

Lemma batch_links_verify_witness : ∃ r w' act,
  process_object sample_handler None 0 op_upload sample_object "https://lfs.example"
    (verify_action sample_handler 0 "https://lfs.example") batch_world = (r, w')
  ∧ resp_actions r !! op_upload = Some act
  ∧ action_verifies sample_signer 0 op_upload "https://lfs.example"
      (Batch.object_path sample_handler (obj_oid sample_object)) act.
Proof.
  assert (is_some (resp_actions (fst (process_object sample_handler None 0 op_upload sample_object
    "https://lfs.example" (verify_action sample_handler 0 "https://lfs.example") batch_world)) !! op_upload)
    = true) as Hs by (vm_compute; reflexivity).
  destruct (process_object sample_handler None 0 op_upload sample_object
    "https://lfs.example" (verify_action sample_handler 0 "https://lfs.example") batch_world)
    as [r w'] eqn:E. cbn [fst] in Hs.
  destruct (resp_actions r !! op_upload) as [act|] eqn:Ha; [|discriminate Hs].
  exists r, w', act. split; [reflexivity|]. split; [exact Ha|].
  destruct (@batch_links_verify _ sample_handler None 0 0 op_upload sample_object
    "https://lfs.example" batch_world r w' act) as (_ & H & _).
  - reflexivity.
  - split; [reflexivity|repeat constructor].
  - split; discriminate.
  - split; discriminate.
  - exact E.
  - exact (H Ha).
Defined.

(** ** Requests *)

#[local] Instance samples_unicode : Unicode := sample_unicode.
#[local] Instance sample_ip : IpSyntax := {| is_ipv6 s := contains_byte ":"%char s |}.
#[local] Instance sample_float : FloatSyntax :=
  {| parses_to_zero s := existsb (Ascii.eqb "0") s && forallb (λ c, contains_byte c "0.") s |}.

Definition sample_header (k : gostring) : gostring :=
  if str_eqb k "Accept" then "text/html;q=0.5, application/vnd.git-lfs+json"
  else if str_eqb k "Content-Type" then "application/vnd.git-lfs+json; charset=utf-8" else [].

(** A request with a body, or a GET without one, from alice. *)
Definition sample_request (oid id uri query body : gostring) : Request := {|
  r_method := if str_eqb body [] then "GET" else "PUT";
  r_header := sample_header;
  r_body := Reader [body] [EOF] false;
  r_body_early := false;
  r_body_read := false;
  r_content_length := Z.of_nat (length body);
  r_ctx := None;
  r_gone := None;
  r_basic_auth := Some ("alice"%go, "secret"%go);
  r_path_value k := if str_eqb k "oid" then oid else if str_eqb k "id" then id else [];
  r_request_uri := uri;
  r_raw_query := query;
  r_tls := true;
  r_host := "lfs.example";
  r_request_id := "req-1"
|}.

(** The URI of a link, below the base URL of nineteen bytes. *)
Definition link_uri (op path : gostring) : gostring :=
  drop 19 (href (sign sample_signer 0 op "https://lfs.example" path)).
Definition link_request (op oid body : gostring) : Request :=
  sample_request oid [] (link_uri op (Batch.object_path sample_handler oid)) [] body.

Lemma batch_world_addressed : content_addressed local_objects batch_world.
Proof.
  intros d o data Hd Ho. unfold local_objects, batch_world. cbn [snd fst os_files base_path new_local].
  destruct (decide (Local.object_path "/data" d o = Local.object_path "/data" "org_repo" (content_oid "abc"))) as [E|Hne].
  - apply object_path_inj in E as [-> ->]; [|done..|apply content_oid_normal]. rewrite lookup_singleton_eq.
    intros Hdata. injection Hdata as <-. exact eq_refl.
  - rewrite lookup_singleton_ne; [done|]. intros H. by apply Hne.
Qed.

Local Abbreviation sample_upload :=
  (upload_handler sample_handler (link_request op_upload (content_oid "abd") "abd") minute batch_world).

Lemma upload_handler_safe_witness :
  rs_status (fst sample_upload) = 200
  ∧ local_objects (snd sample_upload) "org_repo" (content_oid "abd") = Some "abd"%go
  ∧ content_addressed local_objects (snd sample_upload).
Proof.
  assert (rs_status (fst sample_upload) = 200) as Hs by (vm_compute; reflexivity).
  split; [exact Hs|]. split; [vm_compute; reflexivity|].
  destruct sample_upload as [resp w'] eqn:E.
  destruct (@upload_handler_safe _ _ _ sample_handler local_objects local_valid local_laws
    (link_request op_upload (content_oid "abd") "abd") minute batch_world resp w')
    as (H & _).
  - discriminate.
  - exact batch_world_valid.
  - exact batch_world_addressed.
  - exact E.
  - exact H.
Defined.

(** The transfer of a local object nobody interrupts. *)
Definition whole_transfer : transfer :=
  {| tr_seekable := true; tr_size_seek := true; tr_range_seek := None; tr_sent := None; tr_boundary := [] |}.
Local Abbreviation sample_download :=
  (download_handler sample_handler (link_request op_download (content_oid "abc") []) minute whole_transfer batch_world).


Lemma base_url_host_witness : request_base_url sample_handler (link_request op_upload [] []) = "https://lfs.example".
Proof. apply (base_url_host sample_handler (link_request op_upload [] [])). discriminate. Defined.

(** ** A batch request *)

Definition batch_body : gostring :=
  "{" ++ quote "operation" ++ ":" ++ quote "upload" ++ "," ++ quote "objects" ++ ":[{" ++ quote "oid" ++ ":"
  ++ quote (content_oid "abd") ++ "," ++ quote "size" ++ ":3}]}".
Definition batch_request : Request := sample_request [] [] "/org/repo/objects/batch" [] batch_body.
Local Abbreviation sample_batch_answer :=
  (batch_handler sample_handler batch_request 0 [EvStart None; EvProcess 0 None 0] batch_world).

Lemma batch_handler_authorised_witness : ∃ resp w', sample_batch_answer = Some (resp, w')
  ∧ rs_status resp = 200 ∧ same_objects local_objects batch_world w'.
Proof.
  assert ((rs_status ∘ fst) <$> sample_batch_answer = Some 200) as Hs by (vm_compute; reflexivity).
  destruct sample_batch_answer as [[resp w']|] eqn:E; [|discriminate Hs].
  exists resp, w'. split; [reflexivity|]. split; [injection Hs as Hs; exact Hs|].
  destruct (@batch_handler_authorised _ _ _ _ sample_handler local_objects local_valid local_laws
    (none_keeps _) batch_request 0 [EvStart None; EvProcess 0 None 0] batch_world resp w') as [H _].
  - discriminate.
  - exact batch_world_valid.
  - exact E.
  - exact H.
Defined.

(** ** Locks *)

Definition sample_uuid (k : nat) : gostring := "id-" ++ format_uint (Z.of_nat k).
#[local] Instance sample_uuid_inj : Inj (=) (=) sample_uuid.
Proof.
  intros a b H%app_inv_head. apply (f_equal (digits_val 0)) in H.
  destruct (format_uint_spec (Z.of_nat a)) as (_ & _ & Ha); [lia|].
  destruct (format_uint_spec (Z.of_nat b)) as (_ & _ & Hb); [lia|]. lia.
Qed.
Lemma sample_uuid_nonempty k : sample_uuid k ≠ [].
Proof. discriminate. Qed.

(** A backend that is not asked. *)
Definition no_store {W} : Adapter W := {|
  ad_exists _ _ _ w := (Err [], w); ad_get _ _ _ w := (Err [], w); ad_put _ _ _ _ _ w := (Err [], w);
  ad_size _ _ _ w := (Err [], w); ad_available_space _ w := (Err [], w); ad_check _ w := (Err [], w);
  ad_presigner := None
|}.

Definition lock_handler : Handler locks_world := {|
  h_endpoint := sample_endpoint;
  h_store := no_store;
  h_auth := {| authenticate_with := none_authenticate |};
  h_base_url := "https://lfs.example";
  h_max_upload_size := 1;
  h_signer := sample_signer;
  h_lock_store := file_locks sample_uuid;
  h_upload_idle_timeout := 0
|}.

Definition no_locks_world : locks_world :=
  {| lw_store := (new_file_lock_store lock_base, lock_os); lw_ids := 0 |}.

Lemma no_locks_ok : file_locks_ok sample_uuid no_locks_world.
Proof.
  split; [apply new_store_ok|apply new_store_fresh|apply lock_os_ok|]. intros k d _ _. apply not_elem_of_nil.
Qed.

Definition create_request : Request :=
  sample_request [] [] "/org/repo/locks" [] ("{" ++ quote "path" ++ ":" ++ quote "art/a.psd" ++ "}").
Local Abbreviation sample_created := (create_lock_handler lock_handler create_request no_locks_world).

Lemma create_lock_handler_safe_witness : rs_status (fst sample_created) = 201
  ∧ lock_created lock_handler file_lock_table create_request no_locks_world (snd sample_created) (fst sample_created).
Proof.
  assert (rs_status (fst sample_created) = 201) as Hs by (vm_compute; reflexivity).
  split; [exact Hs|]. destruct sample_created as [resp w'] eqn:E. cbn [fst snd] in *.
  destruct (@create_lock_handler_safe _ _ _ lock_handler file_lock_table (file_locks_ok sample_uuid)
    (file_locks_laws sample_uuid sample_uuid_nonempty) (none_keeps _) create_request no_locks_world resp w')
    as (_ & H & _).
  - exact no_locks_ok.
  - exact E.
  - destruct H as [[_ H]|H]; [destruct (H Hs)|exact H].
Defined.

(** Listing finds no lock, in well-formed query parameters. *)
Definition list_request : Request :=
  sample_request [] [] "/org/repo/locks?limit=5" "limit=5" [].
Local Abbreviation sample_listed := (list_locks_handler lock_handler list_request no_locks_world).

Lemma list_handlers_truthful_witness : ∃ res w1,
  permitted lock_handler list_request operation_download no_locks_world res w1.
Proof.
  assert (rs_status (fst sample_listed) = 200) as Hs by (vm_compute; reflexivity).
  destruct (@list_handlers_truthful _ _ _ lock_handler file_lock_table (file_locks_ok sample_uuid)
    (file_locks_laws sample_uuid sample_uuid_nonempty) (none_keeps _) list_request no_locks_world no_locks_ok)
    as [H _].
  destruct sample_listed as [resp w'] eqn:E. cbn [fst] in Hs.
  destruct (H resp w' eq_refl) as [_ H1]. destruct (H1 Hs) as (res & w1 & _ & _ & _ & Hp & _).
  exists res, w1. exact Hp.
Defined.

(** Unlocking the lock just created. *)
Definition unlock_request : Request :=
  sample_request [] "id-0" "/org/repo/locks/id-0/unlock" [] ("{" ++ quote "force" ++ ":true}").
Local Abbreviation sample_unlocked := (unlock_handler lock_handler unlock_request (snd sample_created)).

Lemma created_ok : file_locks_ok sample_uuid (snd sample_created).
Proof.
  destruct sample_created as [resp w'] eqn:E.
  exact (proj1 (@create_lock_handler_cases _ _ _ lock_handler file_lock_table (file_locks_ok sample_uuid)
    (file_locks_laws sample_uuid sample_uuid_nonempty) (none_keeps _) create_request no_locks_world resp w'
    no_locks_ok E)).
Qed.

Lemma unlock_handler_safe_witness : rs_status (fst sample_unlocked) = 200
  ∧ lock_removed lock_handler file_lock_table unlock_request (snd sample_created) (snd sample_unlocked) (fst sample_unlocked).
Proof.
  assert (rs_status (fst sample_unlocked) = 200) as Hs by (vm_compute; reflexivity).
  split; [exact Hs|].
  destruct sample_unlocked as [resp w'] eqn:E.
  destruct (@unlock_handler_safe _ _ _ lock_handler file_lock_table (file_locks_ok sample_uuid)
    (file_locks_laws sample_uuid sample_uuid_nonempty) (none_keeps _) unlock_request
    (snd sample_created) resp w' created_ok E) as (_ & H).
  destruct H as [[_ H]|H]; [destruct (H Hs)|exact H].
Defined.

(** ** From end to end *)

(** The bytes ["abd"] are put to the link of the batch response, then fetched. *)
Lemma transfer_roundtrip_witness : ∃ w' resp,
  upload_handler sample_handler (link_request op_upload (content_oid "abd") "abd") minute batch_world = (write_ok, w')
  ∧ download_handler sample_handler (link_request op_download (content_oid "abd") []) minute whole_transfer w' = (resp, w')
  ∧ rs_body resp = BytesBody "abd".
Proof.
  assert (∀ op, op = op_upload ∨ op = op_download → ∀ body, follows_link sample_handler op (content_oid "abd") 0 (link_request op (content_oid "abd") body)) as Hl.
  { intros op Hop body. split; [reflexivity|]. split; [reflexivity|].
    destruct Hop as [->| ->]; vm_compute; reflexivity. }
  destruct (@transfer_roundtrip _ _ sample_handler (content_oid "abd") (content_oid "abd")
    (fst batch_world) (snd batch_world) "7" [] (link_request op_upload (content_oid "abd") "abd") 0 minute
    (link_request op_download (content_oid "abd") []) 0 minute whole_transfer) as (w' & Hu & resp & Hd & _ & Hb & _).
  - reflexivity.
  - split; [reflexivity|repeat constructor].
  - vm_compute. reflexivity.
  - reflexivity.
  - reflexivity.
  - reflexivity.
  - vm_compute. reflexivity.
  - vm_compute. reflexivity.
  - reflexivity.
  - reflexivity.
  - discriminate.
  - discriminate.
  - split; discriminate.
  - discriminate.
  - split; discriminate.
  - discriminate.
  - apply Hl; by left.
  - apply Hl; by right.
  - reflexivity.
  - intros k Hk. repeat (apply elem_of_cons in Hk as [->|Hk]; [reflexivity|]). by apply elem_of_nil in Hk.
  - reflexivity.
  - reflexivity.
  - exists w', resp. split; [exact Hu|]. split; [exact Hd|exact Hb].
Defined.

(** A client that sends two bytes and goes on after two minutes. *)
Definition stalled_request : Request :=
  let r := link_request op_upload (content_oid "abd") "abd" in {|
  r_method := r_method r; r_header := r_header r; r_body := Reader ["ab"; ""]%go [DeadlineExceeded] false;
  r_body_early := r_body_early r; r_body_read := true; r_content_length := r_content_length r;
  r_ctx := r_ctx r; r_gone := r_gone r; r_basic_auth := r_basic_auth r; r_path_value := r_path_value r;
  r_request_uri := r_request_uri r; r_raw_query := r_raw_query r; r_tls := r_tls r; r_host := r_host r;
  r_request_id := r_request_id r
|}.

Lemma stalled_upload_witness : ∃ w',
  upload_handler sample_handler stalled_request minute batch_world
  = (write_error stalled_request 408 ("no upload data received for " ++ duration_string minute), w')
  ∧ os_files (snd w') = os_files (snd batch_world).
Proof.
  destruct (@stalled_upload _ _ sample_handler 0 [0; 0] [(5, "ab"%go)] 5 0) as [_ H].
  - reflexivity.
  - split; [discriminate|reflexivity].
  - reflexivity.
  - apply (H [(2 * minute, "d"%go, None)] stalled_request (content_oid "abd") (content_oid "abd")
      (fst batch_world) (snd batch_world) "7"%go [] minute).
    + reflexivity.
    + eexists. vm_compute. reflexivity.
    + reflexivity.
    + vm_compute. reflexivity.
    + reflexivity.
    + reflexivity.
    + vm_compute. reflexivity.
    + discriminate.
    + discriminate.
    + reflexivity.
    + reflexivity.
    + reflexivity.
    + vm_compute. reflexivity.
    + vm_compute. reflexivity.
Defined.

(** ** A configuration *)

#[local] Instance sample_netip : NetIp := {|
  parses_addr s := contains_byte "."%char s;
  parses_prefix s := contains_byte "/"%char s;
  is_loopback s := str_eqb s "127.0.0.1"
|}.

Definition sample_options : Options := {|
  o_listen_address := []; o_metrics_address := "127.0.0.1:9420"; o_data_directory := [];
  o_base_url := "https://lfs.example/"; o_max_upload_size := 0; o_upload_idle_timeout := [];
  o_upload_idle_timeout_duration := 0; o_log_format := []; o_log_level := "WARN"; o_access_log := None;
  o_additional_logging := false; o_trusted_proxies := None; o_rate_limit_tokens := 0;
  o_rate_limit_interval := 0; o_rate_limit_window := []; o_auth_cache_ttl := "1.5h";
  o_auth_cache_duration := 0; o_signing_key := []; o_signing_key_bytes := []; o_url_expiry := [];
  o_url_expiry_duration := 0; o_shutdown_timeout := []; o_shutdown_timeout_duration := 0
|}.
Definition sample_storage : ConfigLoad.Storage := {|
  st_backend := []; st_bucket := []; st_region := []; st_endpoint := []; st_access_key_id := [];
  st_secret_access_key := []; st_prefix := []; st_presigned_urls := None; st_force_path_style := None
|}.
Definition configured (path repo : gostring) : Endpoint := {|
  ep_name := repo; ep_url := "https://github.com/org/" ++ repo; ep_path := path; ep_visibility := "private";
  ep_authentication := "GitHub"; ep_api_url := []; ep_owner := []; ep_repo := []; ep_base_url := None
|}.
Definition sample_config : Config := {|
  cfg_options := sample_options; cfg_storage := sample_storage;
  cfg_endpoints := [configured "/org/game" "game"; configured "/org/tools" "tools"]
|}.

(** A decoder that knows one file. *)
#[local] Instance sample_toml : Toml := {|
  toml_decode data := if str_eqb data "the file"
    then Some {| td_config := sample_config; td_undecoded := []; td_prefix_defined := false |} else None
|}.
#[local] Instance sample_toml_laws : TomlLaws sample_toml.
Proof.
  split; intros data d; unfold toml_decode, sample_toml; destruct (str_eqb data _); intros [= <-].
  - by repeat split.
  - split; [repeat constructor|reflexivity].
Qed.

(** The environment: a secret from a file, and a shorter expiry. *)
Definition sample_environment : environment := {|
  lookup_env name :=
    if str_eqb name "ANCHOR_LFS_URL_EXPIRY" then Some "5m"%go
    else if str_eqb name "ANCHOR_LFS_SIGNING_KEY_FILE" then Some "/run/key"%go else None;
  read_path path :=
    if str_eqb path "/run/key" then Some (hex_encode (replicate 32 "k"%char) ++ [nl]) else Some "the file"%go
|}.
Local Abbreviation sample_load := (load sample_environment "config.toml").

Lemma loaded_endpoints_separate_witness : ∃ c, sample_load = Ok c
  ∧ NoDup (map storage_directory (cfg_endpoints c)).
Proof.
  assert (is_ok sample_load = true) as Hs by (vm_compute; reflexivity).
  destruct sample_load as [c|e] eqn:E; [|discriminate Hs]. exists c. split; [reflexivity|].
  destruct (loaded_endpoints_separate sample_environment "config.toml" c E) as (_ & H & _). exact H.
Defined.

Lemma loaded_settings_in_range_witness : ∃ c, sample_load = Ok c
  ∧ 0 < o_url_expiry_duration (cfg_options c).
Proof.
  assert (is_ok sample_load = true) as Hs by (vm_compute; reflexivity).
  destruct sample_load as [c|e] eqn:E; [|discriminate Hs]. exists c. split; [reflexivity|].
  destruct (loaded_settings_in_range sample_environment "config.toml" c E) as (_ & _ & _ & [H _] & _). exact H.
Defined.

(** ** Requests from the network *)

(** A library that takes addresses as they are and trusts single ones. *)
#[local] Instance sample_real_ip : RealClientIp := {|
  ip_addr := gostring;
  ip_net := gostring;
  parse_ip_addr s := if str_eqb s [] then None else Some s;
  addr_string a := a;
  is_unspecified a := str_eqb a "0.0.0.0";
  net_contains n a := str_eqb n a;
  addresses_and_ranges l := Some l;
  strategy_ok _ := true;
  rightmost_trusted _ _ _ := [];
  remote_addr_ip s := match split_host_port s with Some (host, _) => host | None => [] end
|}.

(** A client that asks for an identifier of its own and claims another address. *)
Definition sample_incoming : incoming := {|
  in_header := {[ "X-Request-Id"%go := ["mine"%go]; "X-Forwarded-For"%go := ["10.9.9.9"%go];
                  "X-Forwarded-Host"%go := ["evil.example"%go] ]};
  in_remote_addr := "203.0.113.7:4000"; in_ctx := None; in_client_ip := None; in_request_id := []
|}.
Definition sample_trust : ProxyTrust := {| trusted := ["10.0.0.1"%go] |}.
Definition sample_mux : http_handler unit := λ r hdr w,
  Some ({| rs_status := 200; rs_header := hdr; rs_body := NoBody |}, w).

Lemma middlewares_guard_witness : ∃ r',
  server_handler sample_trust (replicate 8 "a"%char) sample_mux sample_incoming ∅ tt
    = sample_mux r' {[ "X-Request-Id"%go := in_request_id r' ]} tt
  ∧ in_request_id r' = generate_request_id (replicate 8 "a"%char)
  ∧ client_ip r' = "203.0.113.7"%go.
Proof.
  destruct (middlewares_guard sample_trust (replicate 8 "a"%char) sample_mux sample_incoming ∅ tt
    (λ _ _ w, (Ok (0, true), w)) 0 eq_refl) as [(r' & H1 & _ & _ & H2) _].
  exists r'. split; [exact H1|].
  destruct H2 as (_ & H3 & H4 & _); [vm_compute; reflexivity|]. split; [exact H3|].
  rewrite H4. vm_compute. reflexivity.
Defined.

(** ** The first start *)

Definition first_start_world : os := Os ∅ 0 [] [] [] (0, 0).

Lemma signing_key_persists_witness : ∃ w,
  load_or_generate_signing_key "/data" (replicate 32 "k"%char) first_start_world
    = (Ok (replicate 32 "k"%char), w)
  ∧ ∀ random, load_or_generate_signing_key "/data" random w = (Ok (replicate 32 "k"%char), w).
Proof.
  destruct (load_or_generate_signing_key "/data" (replicate 32 "k"%char) first_start_world) as [r w] eqn:E.
  destruct (signing_key_persists "/data" (replicate 32 "k"%char) first_start_world r w eq_refl E)
    as (_ & _ & H & _).
  assert (r = Ok (replicate 32 "k"%char)) as ->.
  { apply (f_equal fst) in E. cbn [fst] in E. rewrite <-E. vm_compute. reflexivity. }
  exists w. split; [reflexivity|]. apply (H _ eq_refl).
  apply (f_equal snd) in E. cbn [snd] in E. rewrite <-E. vm_compute. reflexivity.
Defined.

Definition sample_readiness : readiness Local.world := new_readiness (@local_adapter sample_unicode) "/data".

(** Three requests within the lifetime of the first one's result. *)
Lemma readiness_cached_witness :
  let '(resps, n, _) := serve_all check_data_dir [(None, 10, 20); (None, 30, 40); (None, 50, 60)]
    (sample_readiness, batch_world) in
  length resps = 3%nat ∧ (Z.of_nat n - 1) * (5 * second) <= 50.
Proof.
  assert (0 <= rd_ttl sample_readiness) as Httl by (vm_compute; discriminate).
  refine (proj2 (@readiness_cached Local.world check_data_dir sample_readiness batch_world Httl)
    [(None, 10, 20); (None, 30, 40); (None, 50, 60)] 10 60 _ _ _).
  - cbn. lia.
  - vm_compute. discriminate.
  - intros t Ht. discriminate Ht.
Defined.

(** ** Routes and commands *)

Lemma routes_dispatch_witness : ∃ c mc, sample_load = Ok c ∧ serve_mux (cfg_endpoints c) = Some mc
  ∧ find_handler "lfs.example" "HEAD" "/org/game/objects/0a" mc
    = Routed (TEndpoint (hd (configured [] []) (cfg_endpoints c)) false RDownload) [("oid", "0a")]%go.
Proof.
  assert (is_ok sample_load = true) as Hs by (vm_compute; reflexivity).
  destruct sample_load as [c|e] eqn:E; [|discriminate Hs]. exists c.
  assert (ep_path <$> head (cfg_endpoints c) = Some "/org/game"%go) as Hhead.
  { assert (match sample_load with Ok c => ep_path <$> head (cfg_endpoints c) | Err _ => None end = Some "/org/game"%go)
      as Hp by (vm_compute; reflexivity). rewrite E in Hp. exact Hp. }
  destruct (routes_dispatch sample_environment "config.toml" c E) as (mc & Hmc & _ & Hall & _).
  exists mc. split; [reflexivity|]. split; [exact Hmc|].
  destruct (cfg_endpoints c) as [|ep eps]; [discriminate Hhead|]. injection Hhead as Hpath. cbn [hd].
  apply (Hall "lfs.example"%go "HEAD"%go "/org/game/objects/0a"%go ep RDownload "0a"%go).
  - left.
  - reflexivity.
  - right. left. split; reflexivity.
  - rewrite Hpath. reflexivity.
  - split; discriminate.
Defined.

Lemma commands_exit_witness :
  parse_args ["--config"; "a.toml"; "check"; "--version=false"]%go
  = Ok ("check"%go, {| fl_config := "a.toml"; fl_version := false |}).
Proof.
  destruct (commands_exit (λ _, None) (λ _, None) (λ _, 0) sample_environment) as (H & _).
  destruct (H ["--config"; "a.toml"]%go "check"%go ["--version=false"]%go
    {| fl_config := "a.toml"; fl_version := false |} {| fl_config := "a.toml"; fl_version := false |}
    eq_refl eq_refl eq_refl) as [H1 _].
  exact H1.
Defined.
