(* ===== verification/ServerSamples.v ===== *)
(** * A concrete server, from its start

    Witnesses of the theorems about whole servers: one with two endpoints and
    local storage is started, answers an upload and a download, and is stopped. *)

From S2P Require Import Prelude GoStrings GoUnicode GoPath GoConv GoHash GoTime GoUrl GoMime GoNet GoOs GoJson GoServe Sanitise Storage Local S3 Signer Models LockSet LockStore LockProtocol Config ConfigLoad Auth Batch Handler Middleware HandlerProofs LockHandlers FileLocks GoMux Routes Startup Server Responses Metrics TempFiles Deployment Serve Upkeep Samples.

Local Open Scope go_scope.

#[local] Existing Instance samples_unicode.
#[local] Existing Instance sample_ip.
#[local] Existing Instance sample_float.
#[local] Existing Instance sample_netip.
#[local] Existing Instance sample_toml.
#[local] Existing Instance sample_toml_laws.
#[local] Existing Instance sample_real_ip.
#[local] Existing Instance sample_uuid_inj.

Local Abbreviation the_load := (load sample_environment "config.toml").

(** ** The start *)

Definition sample_url_string (u : URL) : gostring := u_host u.
Definition sample_circumstances : circumstances unit unit := {|
  oc_s3 := Err []; oc_limiter _ _ := Ok tt; oc_random := replicate 32 "r"%char; oc_listen := Ok tt;
  oc_metrics_listen := Ok tt; oc_stop := Signalled; oc_shutdown := Ok tt; oc_metrics_shutdown := Ok tt
|}.
Definition sample_machine : machine unit :=
  Machine (Os ∅ 9 [] [] ["1"%go; "2"%go; "3"%go; "4"%go] (10, 4096)) (tt, []) [].

Local Abbreviation the_start := (serve_start sample_url_string sample_circumstances sample_environment "config.toml" sample_machine).

(** A GitHub that knows nobody, a limiter that takes everything, and no redirects. *)
Definition sample_network (_ : nat) : Z * GitHubApi := (0, {|
  repositories_get _ _ _ := Err OtherGhError; users_get _ := Err OtherGhError;
  list_commits _ _ _ := None; create_blob _ _ _ := None |}).
Definition sample_take (_ : gostring) (l : unit) : result go_error (Z * bool) * unit := (Ok (0, true), l).
Definition sample_redirect (_ : http_request) (_ : gostring) : Response := write_ok.

Lemma sample_directory dir : good_directory sample_uuid dir (mc_os sample_machine).
Proof.
  split; [split|].
  - repeat constructor.
  - constructor.
  - intros d f _. simpl. by rewrite lookup_empty.
  - intros k d _. apply not_elem_of_nil.
Qed.

(** The parts of the server that is started. *)
Definition loaded : Config := match the_load with Ok c => c | Err _ => sample_config end.
Lemma loaded_ok : the_load = Ok loaded.
Proof.
  unfold loaded. assert (is_ok the_load = true) as H by (vm_compute; reflexivity). by destruct the_load.
Qed.

Definition the_choices : list (Endpoint * auth_choice) * authenticators :=
  choose_auths sample_url_string (o_auth_cache_duration (cfg_options loaded)) (cfg_endpoints loaded) no_authenticators.
Definition the_signer : URLSigner := {| key := replicate 32 "k"%char; expiry := 300000000000 |}.
Definition the_handlers : Endpoint → Handler (server_world unit unit) :=
  server_handlers sample_uuid [] sample_network (cfg_options loaded) LocalBackend the_signer (fst the_choices).
Definition the_mux : list (pattern * target) := default [] (serve_mux (cfg_endpoints loaded)).
Definition the_world : server_world unit unit := first_world loaded (snd the_choices) tt sample_machine.
Definition the_ready : ctx → Z → Z → server_world unit unit → Response * server_world unit unit :=
  server_ready LocalBackend (o_data_directory (cfg_options loaded)).

Lemma the_mux_ok : serve_mux (cfg_endpoints loaded) = Some the_mux.
Proof.
  unfold the_mux. destruct (loaded_paths sample_environment "config.toml" loaded loaded_ok) as [Hg Hd].
  by rewrite serve_mux_registers.
Qed.

Definition no_objects (_ : unit) (_ _ : gostring) : option gostring := None.
Local Abbreviation the_objects := (server_objects no_objects LocalBackend).
Local Abbreviation the_ok := (server_ok sample_uuid (o_data_directory (cfg_options loaded))).

Lemma the_handler_laws ep : HandlerLaws (the_handlers ep) the_objects server_lock_table the_ok.
Proof. by apply (new_handler_laws sample_uuid [] sample_network sample_uuid_nonempty). Qed.
Lemma the_handler_sizes ep : AdapterSizes (h_store (the_handlers ep)).
Proof. by apply (server_store_sizes LocalBackend). Qed.
Lemma the_take_keeps c ip (w : server_world unit unit) r w' : server_take sample_take c ip w = (r, w') →
  keeps_all the_objects server_lock_table the_ok w w'.
Proof. apply server_take_keeps. Qed.
Lemma the_ready_keeps c now later w r w' : the_ready c now later w = (r, w') →
  keeps_all the_objects server_lock_table the_ok w w'.
Proof. by apply server_ready_keeps. Qed.
Lemma the_world_ok : the_ok the_world.
Proof.
  destruct (sample_directory (o_data_directory (cfg_options loaded))) as [Hd Hi].
  split; [split; [apply (disk_names _ _ Hd)|apply (disk_faults _ _ Hd)]| |done|done].
  split; [apply new_store_ok|apply new_store_fresh|done|]. intros k d _ Hd'. by apply Hi.
Qed.
Lemma the_world_addressed : content_addressed the_objects the_world.
Proof. intros d o data _ _. unfold server_objects, local_objects. cbn. by rewrite lookup_empty. Qed.

(** ** Requests *)

Definition the_incoming : incoming := {|
  in_header := {[ "X-Request-Id"%go := ["req-7"%go] ]}; in_remote_addr := "203.0.113.7:4000"; in_ctx := None;
  in_client_ip := None; in_request_id := []
|}.
Definition the_moment : moment := {|
  m_random := replicate 8 "a"%char; m_limit_now := 0; m_now := 0; m_later := 0; m_events := [];
  m_transfer := {| tr_seekable := true; tr_size_seek := true; tr_range_seek := None; tr_sent := None; tr_boundary := [] |}
|}.
Definition the_oid : gostring := content_oid "abd".
Definition the_path : gostring := "/org/tools/objects/" ++ the_oid.

(** A request to the link for an object. *)
Definition transfer_request (op method body : gostring) : http_request := {|
  q_in := the_incoming; q_method := method; q_host := "lfs.example"; q_path := the_path;
  q_uri := drop 19 (href (sign the_signer 0 op "https://lfs.example" the_path));
  q_query := []; q_tls := true; q_basic_auth := None; q_content_length := Z.of_nat (length body);
  q_body := Reader [body] [EOF] false; q_body_early := false; q_body_read := false; q_gone := None
|}.
Definition the_put : http_request * moment := (transfer_request op_upload "PUT" "abd", the_moment).
Definition the_get : http_request * moment := (transfer_request op_download "GET" [], the_moment).

Definition the_trust : ProxyTrust := {| trusted := [] |}.
Local Abbreviation the_serve := (serve [] the_handlers (server_take sample_take) the_ready sample_redirect the_trust the_mux).
Local Abbreviation the_run := (run [] the_handlers (server_take sample_take) the_ready sample_redirect the_trust the_mux).

Example the_statuses : (λ x, map rs_status (fst x)) <$> the_run [the_put; the_get] the_world = Some [200; 200].
Proof. vm_compute. reflexivity. Qed.

(** An upload and a download through the whole server. *)
Lemma server_store_safe_witness : ∃ resps w, the_run [the_put; the_get] the_world = Some (resps, w)
  ∧ map rs_status resps = [200; 200] ∧ content_addressed the_objects w.
Proof.
  pose proof the_statuses as Hs.
  destruct (the_run [the_put; the_get] the_world) as [[resps w]|] eqn:E; [|discriminate Hs].
  exists resps, w. split; [reflexivity|]. split; [injection Hs as Hs; exact Hs|].
  destruct (server_store_safe [] the_handlers (server_take sample_take) the_ready sample_redirect the_objects
    server_lock_table the_ok (LH := the_handler_laws) (λ _, eq_refl) the_take_keeps the_ready_keeps
    sample_environment "config.toml" loaded loaded_ok the_trust the_mux the_mux_ok [the_put; the_get] the_world resps w)
    as [H _].
  - exact the_world_ok.
  - exact the_world_addressed.
  - exact E.
  - exact H.
Defined.

(** The endpoint for games is apart from the one for tools. *)
Lemma server_locks_safe_witness : ∃ resps w, the_run [the_put; the_get] the_world = Some (resps, w)
  ∧ server_lock_table w "org_game" = server_lock_table the_world "org_game".
Proof.
  pose proof the_statuses as Hs.
  destruct (the_run [the_put; the_get] the_world) as [[resps w]|] eqn:E; [|discriminate Hs].
  exists resps, w. split; [reflexivity|].
  destruct (server_locks_safe [] the_handlers (server_take sample_take) the_ready sample_redirect the_objects
    server_lock_table the_ok (LH := the_handler_laws) (λ _, eq_refl) the_take_keeps the_ready_keeps
    sample_environment "config.toml" loaded loaded_ok the_trust the_mux the_mux_ok [the_put; the_get] the_world resps w)
    as (_ & _ & H).
  - exact the_world_ok.
  - exact E.
  - assert (match cfg_endpoints loaded with ep :: _ => str_eqb (ep_path ep) "/org/game" | [] => false end = true) as Hep
      by (vm_compute; reflexivity).
    destruct (cfg_endpoints loaded) as [|ep eps] eqn:Eeps; [discriminate Hep|].
    apply str_eqb_eq in Hep. destruct (H ep) as [_ Hl].
    + left.
    + intros q x rt v Hin [_ Hp]. rewrite Hep in Hp.
      assert (exists rest, path_segments (q_path q) = "org"%go :: "tools"%go :: rest) as [rest Hr].
      { apply elem_of_cons in Hin as [Hin|Hin]; [|apply list_elem_of_singleton in Hin]; injection Hin as -> ->;
          eexists; vm_compute; reflexivity. }
      rewrite Hr in Hp. discriminate Hp.
    + unfold directory in Hl. rewrite Hep in Hl. exact Hl.
Defined.

(** The answers to two requests, one after the other, and the world in between. *)
Section TwoAnswers.
Context {Q X W : Type} (s : Q → X → W → option (Response * W)) (a b : Q * X).
Definition two_answers (w : W) : option (Response * Response * W * W) :=
  match s (fst a) (snd a) w with
  | Some (resp1, w1) => match s (fst b) (snd b) w1 with Some (resp2, w2) => Some (resp1, resp2, w1, w2) | None => None end
  | None => None
  end.
Lemma two_answers_spec w f : match two_answers w with Some (resp1, resp2, _, _) => f resp1 resp2 | None => false end = true →
  ∃ resp1 resp2 w1 w2, s (fst a) (snd a) w = Some (resp1, w1) ∧ s (fst b) (snd b) w1 = Some (resp2, w2) ∧ f resp1 resp2 = true.
Proof.
  unfold two_answers. destruct (s _ _ w) as [[r1 w1]|] eqn:E1; [|done].
  destruct (s _ _ w1) as [[r2 w2]|] eqn:E2; [|done]. intros H. by exists r1, r2, w1, w2.
Qed.
End TwoAnswers.

Lemma tools_endpoint : ∃ ep, ep ∈ cfg_endpoints loaded ∧ ep_path ep = "/org/tools"%go.
Proof.
  assert (match cfg_endpoints loaded with [_; ep] => str_eqb (ep_path ep) "/org/tools" | _ => false end = true) as Hep
    by (vm_compute; reflexivity).
  destruct (cfg_endpoints loaded) as [|e1 [|ep [|e3 l]]]; try discriminate Hep. exists ep.
  split; [right; left|apply str_eqb_eq, Hep].
Qed.

Lemma server_round_trip_witness : ∃ resp1 resp2 w1 w2 data,
  the_serve (fst the_put) (snd the_put) the_world = Some (resp1, w1)
  ∧ the_serve (fst the_get) (snd the_get) w1 = Some (resp2, w2)
  ∧ content_oid data = the_oid ∧ rs_body resp2 = BytesBody data.
Proof.
  destruct (two_answers_spec the_serve the_put the_get the_world
    (λ resp1 resp2, (rs_status resp1 =? 200) && (rs_status resp2 =? 200))) as (resp1 & resp2 & w1 & w2 & E1 & E2 & Hs).
  { vm_compute. reflexivity. }
  apply andb_prop in Hs as [Hs1 Hs2]. apply Z.eqb_eq in Hs1. apply Z.eqb_eq in Hs2.
  destruct tools_endpoint as (ep & Hin & Hep).
  destruct (server_round_trip [] the_handlers (server_take sample_take) the_ready sample_redirect the_objects
    server_lock_table the_ok (LH := the_handler_laws) (λ _, eq_refl) the_take_keeps the_ready_keeps
    sample_environment "config.toml" loaded loaded_ok the_trust the_mux the_mux_ok (SZ := the_handler_sizes) ep the_oid the_oid the_oid
    (fst the_put) (snd the_put) [] (fst the_get) (snd the_get) the_world resp1 w1 [] w1 resp2 w2)
    as (data & sent & Hd & _ & Hb & _ & Hall & _).
  - exact the_world_ok.
  - exact the_world_addressed.
  - exact Hin.
  - vm_compute. reflexivity.
  - vm_compute. reflexivity.
  - vm_compute. reflexivity.
  - vm_compute. reflexivity.
  - split; [left; reflexivity|]. rewrite Hep. vm_compute. reflexivity.
  - split; [left; reflexivity|]. rewrite Hep. vm_compute. reflexivity.
  - reflexivity.
  - exact E1.
  - exact Hs1.
  - reflexivity.
  - exact E2.
  - exact Hs2.
  - exists resp1, resp2, w1, w2, data. split; [exact E1|]. split; [exact E2|]. split; [exact Hd|].
    rewrite (Hall eq_refl) in Hb. exact Hb.
Defined.

(** The endpoints of one API share an authenticator. *)
Lemma authenticators_shared_witness : map fst (fst the_choices) = cfg_endpoints loaded.
Proof.
  destruct the_choices as [l a] eqn:E.
  destruct (authenticators_shared sample_url_string (o_auth_cache_duration (cfg_options loaded)) (cfg_endpoints loaded) l a E)
    as [H _].
  exact H.
Defined.

(** ** The start and the stop *)

Lemma serve_protocol_witness :
  fst (serve_command sample_url_string sample_circumstances sample_environment "config.toml" sample_machine) = 0
  ∧ ∃ x s', the_start = (Ok x, s').
Proof.
  assert (fst (serve_command sample_url_string sample_circumstances sample_environment "config.toml" sample_machine) = 0)
    as Hcode by (vm_compute; reflexivity).
  split; [exact Hcode|].
  destruct (serve_command sample_url_string sample_circumstances sample_environment "config.toml" sample_machine)
    as [code evs] eqn:E.
  destruct (serve_protocol sample_url_string sample_circumstances sample_environment "config.toml" sample_machine code evs
    eq_refl E) as (_ & H & _).
  apply H in Hcode as (_ & _ & H3). exact H3.
Defined.

(** ** Two starts *)

(** The first fails, since the address is taken; the second serves. *)
Definition busy_circumstances : circumstances unit unit := {|
  oc_s3 := Err []; oc_limiter _ _ := Ok tt; oc_random := replicate 32 "r"%char; oc_listen := Err [];
  oc_metrics_listen := Ok tt; oc_stop := Signalled; oc_shutdown := Ok tt; oc_metrics_shutdown := Ok tt
|}.
Definition sample_outside : outside := {|
  os_uuid := sample_uuid; os_hmac_key := []; os_network := sample_network; os_limiter_take := sample_take
|}.
Definition sample_pass : pass :=
  (false, None, Ok (EDir "." None [EDir "org_tools" None [EDir ".tmp" None [EFile ".tmp-7" true (Ok 5) None]]]), 25 * hour).
Definition sample_life (oc : circumstances unit unit) : life := {|
  lf_start := oc; lf_env := sample_environment; lf_path := "config.toml"; lf_outside := sample_outside;
  lf_happens := [Requested (fst the_put) (snd the_put); Tended sample_pass; Requested (fst the_get) (snd the_get)]
|}.
Local Abbreviation the_dir := (o_data_directory (cfg_options loaded)).

Lemma sample_life_ok oc : (∀ api p, oc_s3 oc = Ok (api, p) → False) → life_ok no_objects the_dir LocalBackend (sample_life oc).
Proof.
  intros Hs3. split.
  - apply _.
  - apply sample_uuid_nonempty.
  - repeat constructor.
  - intros c Hc. pose proof (eq_trans (eq_sym loaded_ok) Hc) as E. apply ok_value in E. rewrite E. reflexivity.
  - intros c [|s q] Hc Hb; [split; exact I|]. destruct Hb as [_ Hb]. unfold new_s3 in Hb. cbn [lf_start sample_life] in Hb.
    destruct (oc_s3 oc) as [[api p]|]; [by destruct (Hs3 api p)|discriminate Hb].
Qed.

(** The machine after the first start. *)
Definition after_busy : machine unit :=
  snd (serve_serving sample_url_string busy_circumstances sample_environment "config.toml" sample_machine).
Lemma after_busy_files : os_files (mc_os after_busy) = ∅.
Proof. vm_compute. reflexivity. Qed.

Local Abbreviation the_lives := [sample_life busy_circumstances; sample_life sample_circumstances].
Lemma sample_lived : ∃ s', lived [] sample_redirect sample_url_string the_dir sample_machine the_lives s'.
Proof.
  destruct (serve_serving sample_url_string busy_circumstances sample_environment "config.toml" sample_machine) as [[rn|e] s1] eqn:E1.
  { apply (f_equal (is_ok ∘ fst)) in E1. vm_compute in E1. discriminate E1. }
  assert (s1 = after_busy) as -> by (unfold after_busy; by rewrite E1).
  assert (match serve_serving sample_url_string sample_circumstances sample_environment "config.toml" after_busy with
    | (Ok rn, _) => is_some (live_server [] sample_redirect sample_outside rn (lf_happens (sample_life sample_circumstances)) (rn_world rn))
    | _ => false end = true) as Hs by (vm_compute; reflexivity).
  destruct (serve_serving sample_url_string sample_circumstances sample_environment "config.toml" after_busy) as [[rn|e2] s2] eqn:E2;
    [|discriminate Hs].
  destruct (live_server [] sample_redirect sample_outside rn (lf_happens (sample_life sample_circumstances)) (rn_world rn))
    as [[resps w]|] eqn:Er; [|discriminate Hs].
  exists (stopped w). eapply LivedFailed; [exact E1|]. eapply LivedServed; [exact E2| |exact Er|constructor].
  intros k d _. unfold disk_locks. rewrite after_busy_files, lookup_empty. apply not_elem_of_nil.
Qed.

Lemma data_survives_restarts_witness : ∃ s', lived [] sample_redirect sample_url_string the_dir sample_machine the_lives s'
  ∧ content_addressed (stored_objects no_objects the_dir LocalBackend) s'.
Proof.
  destruct sample_lived as [s' H]. exists s'. split; [exact H|].
  destruct (data_survives_restarts no_objects [] sample_redirect sample_url_string the_dir LocalBackend sample_machine the_lives s')
    as (_ & Hc & _).
  - apply (gd_disk _ _ _ (sample_directory the_dir)).
  - apply Forall_cons. split; [apply sample_life_ok; intros api p E; discriminate E|].
    apply Forall_cons. split; [apply sample_life_ok; intros api p E; discriminate E|constructor].
  - exact H.
  - apply Hc. intros d o data _ _. unfold stored_objects, local_objects. cbn. by rewrite lookup_empty.
Defined.

(** ** What is recorded *)

Definition the_observation : observation := {| ob_reads := 1; ob_written := 3; ob_duration := 5; ob_log_duration := 7 |}.
Definition observed_requests : list (http_request * moment * observation) :=
  [(the_put, the_observation); (the_get, the_observation)].

Lemma observers_harmless_witness : ∃ resps w t,
  run_observed [] the_handlers (server_take sample_take) the_ready sample_redirect the_trust the_mux true
    observed_requests (the_world, {| tl_metrics := []; tl_log := [] |}) = Some (resps, (w, t))
  ∧ the_run [the_put; the_get] the_world = Some (resps, w).
Proof.
  destruct (observers_harmless [] the_handlers (server_take sample_take) the_ready sample_redirect the_trust
    sample_environment "config.toml" loaded the_mux true observed_requests the_world
    {| tl_metrics := []; tl_log := [] |}) as [H _].
  - exact loaded_ok.
  - exact the_mux_ok.
  - repeat constructor; try discriminate; vm_compute; discriminate.
  - assert (is_some (the_run [the_put; the_get] the_world) = true) as Hs by (vm_compute; reflexivity).
    change (map fst observed_requests) with [the_put; the_get] in H.
    destruct (the_run [the_put; the_get] the_world) as [[rs w1]|]; [|discriminate Hs].
    destruct (run_observed [] the_handlers (server_take sample_take) the_ready sample_redirect the_trust the_mux true
      observed_requests (the_world, {| tl_metrics := []; tl_log := [] |})) as [[resps [w t]]|]; [|discriminate H].
    injection H as -> ->. exists rs, w1, t. split; reflexivity.
Defined.

(** ** The type of an answer *)


(** ** Operations on the locks of an endpoint *)

(** Operation 0 appends to the file in two steps, operation 1 only reads it. *)
Definition two_steps (t : nat) : list (list nat → list nat) := if (t =? 0)%nat then [app [1%nat]; app [2%nat]] else [].
Definition writer (t : nat) : bool := (t =? 0)%nat.

Local Abbreviation reached := (LockProtocol.reachable Windows (λ t, t) writer two_steps []).

(** Halfway through the first, the second waiting for the lock on the file. *)
Lemma sample_reachable : ∃ s, reached s [] ∧ pc_of s 0 = Working 1 ∧ pc_of s 1 = Opened ∧ data s = [1%nat].
Proof.
  pose proof (ReachInitial Windows (λ t, t) writer two_steps []) as R0.
  assert (∀ t s s', reached s [] → LockProtocol.step Windows (λ t, t) writer two_steps t s false s' → pc_of s' t ≠ Unlocked → reached s' []) as Hstep.
  { intros t s s' H Hs Hu. pose proof (ReachStep _ _ _ _ _ t s false s' [] H Hs) as R.
    destruct (pc_of s t); try done. destruct (pc_of s' t); try done. }
  eapply (Hstep 1%nat) in R0 as R1; [|apply StepMutex; [done|intros t' m' H; cbn in H; by rewrite lookup_empty in H]|done].
  eapply (Hstep 1%nat) in R1 as R2; [|by apply StepOpen|done].
  eapply (Hstep 0%nat) in R2 as R3; [|apply StepMutex; [done|]|done].
  2: { intros t' m' H Hne He. by destruct Hne. }
  eapply (Hstep 0%nat) in R3 as R4; [|by apply StepOpen|done].
  eapply (Hstep 0%nat) in R4 as R5; [|eapply StepLock; [done|apply lock_file_grantable]|done]; [|done|].
  2: { intros t' m' H. cbn in H. by rewrite lookup_empty in H. }
  eapply (Hstep 0%nat) in R5 as R6; [|by eapply StepWork|done].
  eexists. split; [exact R6|]. done.
Qed.

Lemma lock_operations_serial_witness : ∃ s, reached s [] ∧ pc_of s 0 = Working 1
  ∧ serial_data writer two_steps [] s [] ∧ is_working (pc_of s 1) = false.
Proof.
  destruct sample_reachable as (s & H & H0 & _ & _). exists s. split; [exact H|]. split; [exact H0|].
  destruct (lock_operations_serial Windows (λ t, t) writer two_steps [] s [] H) as (Hex & _ & _ & Hd & _).
  split; [exact Hd|]. apply (Hex 0%nat 1%nat); [discriminate|reflexivity|]. rewrite H0. reflexivity.
Defined.

Lemma lock_operations_end_witness : ∃ s t s', reached s [] ∧ pc_of s 1 = Opened
  ∧ LockProtocol.step Windows (λ t, t) writer two_steps t s false s'.
Proof.
  destruct sample_reachable as (s & H & _ & H1 & _).
  destruct (lock_operations_end Windows (λ t, t) writer two_steps [] s [] H) as [He _].
  destruct (He 1%nat) as (t & s' & Hs & _).
  - rewrite H1. discriminate.
  - exists s, t, s'. split; [exact H|]. split; [exact H1|exact Hs].
Defined.
